(* ===== verification/_CoqProject ===== *)
-Q . S2P
Prelude.v
PathNormalize.v
Net.v
Backend.v
BackendFacts.v
External.v
Config.v
Filters.v
Entry.v
HostRouter.v
HostRouterFacts.v
HostReplay.v
Table.v
TableFacts.v
Tls.v
TlsFacts.v
Layer4.v
EdgeTls.v
Workqueue.v
WorkqueueFacts.v
Health.v
NodeRegistry.v
NodeRegistryFacts.v
Sessions.v
PublishIndex.v
ResourceKey.v
ResourceKeyFacts.v
PortAlloc.v
Apply.v
ApplyFacts.v
HealthWire.v
Roster.v
RosterFacts.v
Stream.v
StreamFacts.v
StreamDemo.v
Identity.v
Upstream.v
UpstreamFacts.v
Authz.v
AuthzFacts.v
ViewCache.v
Relay.v
RelayViews.v
RelayFacts.v
RelayScaler.v
RelayScalerFacts.v
RelayLoop.v
RelayRuns.v
RelayLoopFacts.v
AccessControl.v
AccessControlFacts.v
Bindings.v
BindingsFacts.v
EdgePeek.v
EdgePeekFacts.v
ListenerMerge.v
ListenerMergeFacts.v
EdgeListeners.v
EdgeListenersFacts.v
ListenerStatus.v
ListenerStatusFacts.v
EdgeConn.v
EdgeConnFacts.v
UdpForwarder.v
UdpForwarderFacts.v
RequestLife.v
RequestLifeFacts.v
RequestFilters.v
RequestFiltersFacts.v
