(* ===== verification/Prelude.v ===== *)
(** * Coxswain: a verification development of the routing core and the discovery plane

    Coxswain is a Kubernetes ingress and Gateway API proxy.  A controller compiles the
    cluster's routing objects into tables, publishes them under a sequence number and
    streams them to proxies over the discovery protocol, either directly or through
    relays.  A proxy keeps the resources in a cache, compiles them into the same tables,
    routes each request through them and picks an upstream address.  Acknowledgements
    and bound ports flow back into a registry, whose quorums decide when a Gateway is
    reported as programmed.  All paths below are relative to [src/crates].

    ** Request routing ([coxswain-core/src/routing/common])

    - [PathNormalize]: [path_normalize.rs], the pipeline that makes the path on which
      routes are matched and which is forwarded.
    - [Net], [Backend], [BackendFacts]: [endpoints.rs] and [backend.rs], weighted groups
      with their counters, the load-balancing algorithms and session affinity.  A group
      with its atomics is a record that each operation returns changed.
    - [Config], [Filters], [Entry]: the configuration records, filter actions,
      predicates and route entries.
    - [External]: the crates [regex], [http] and [matchit] as classes of operations with
      the documented laws that the theorems use, and instances that satisfy them.
    - [HostRouter], [HostRouterFacts], [HostReplay]: [host_router.rs], compilation and
      lookup on one host, and the replay of a compiled host from its wire table.
    - [Table], [TableFacts]: [port.rs] and [table.rs], host selection on a port.

    ** Connections ([coxswain-core/src], [coxswain-proxy/src])

    - [Tls], [TlsFacts]: [tls.rs], server certificates, client-certificate policies and
      listener hostnames, built from registrations and looked up by port and name.
    - [Layer4]: [routing/passthrough.rs], [tcp.rs] and [udp.rs], and the decision of
      [dispatch_tls_l4] in [edge/accept.rs] once the server name is read.
    - [EdgeTls]: the settings that [edge/tls.rs] gives a handshake, and the guards of
      [policy/misdirected.rs] and [policy/client_cert.rs] in the order of [hooks.rs].
      The TLS library is a class with laws ([TlsLib], [TlsLaws]).
    - [AccessControl], [AccessControlFacts]: [policy/access_control.rs], the client's
      address behind trusted proxies and the lists it is checked against.  The crate
      [ipnet] is a class ([IpnetLib]).
    - [Bindings], [BindingsFacts]: of [coxswain-reflector/src], [gateway_api/hostnames.rs]
      and [gateway_api/bindings.rs], the hosts and ports a route is attached to, and
      [reference_grants.rs], the references that may cross namespaces.
    - [PortAlloc]: the allocator of [coxswain-reflector/src/port_alloc.rs], which gives
      each listener of a shared proxy its internal port.
    - [EdgePeek], [EdgePeekFacts]: [edge/peek.rs], [peek_sni] of [edge/passthrough.rs] and
      [peek_and_drain_proxy_header] of [edge/accept.rs], which read a ClientHello or a
      PROXY header from a stream that arrives in segments.  The crates [tls_parser] and
      [ppp] are classes with laws.
    - [ListenerMerge], [ListenerMergeFacts]: [reconciler/listener_merge.rs] of the
      reflector, the listeners of a Gateway with its ListenerSets and their conflicts.
    - [ListenerStatus], [ListenerStatusFacts]: from those listeners to what a proxy
      binds: certificates ([tls.rs], [gateway_api/reconcile_tls.rs]), readiness
      ([reconcile_tls] of [gateway_api/reconcile.rs]), the wire
      ([wire/listener_status.rs], [wire/scope.rs]) and the specifications of
      [coxswain-bin/src/services.rs].
    - [EdgeListeners], [EdgeListenersFacts]: the listeners of [edge/accept.rs], their
      reconciliation, accept loops, draining, gauge and report of bound ports, as a step
      relation.
    - [EdgeConn], [EdgeConnFacts]: [handle_connection] of [edge/accept.rs] and
      [edge/tcp.rs], which handler a connection reaches, with which address and from
      which byte of its stream.
    - [UdpForwarder], [UdpForwarderFacts]: [edge/udp.rs], the receive loop, session
      tasks, guards, reply pumps and drain, interleaved at their awaits.
    - [RequestLife], [RequestLifeFacts]: the attempts of a request, [upstream_peer],
      the retry part of [upstream_response_filter] and [logging] of [hooks.rs], with
      [retry.rs], [policy/circuit_breaker.rs] and [routing/outcome.rs].  The errors of
      Pingora and the breakers of [failsafe] are classes.
    - [RequestFilters], [RequestFiltersFacts]: [filters/], [upstream_request_filter] of
      [hooks.rs] and the certificate header of [policy/client_cert.rs]: what is sent
      upstream and what is answered.  Header maps and URIs are classes with laws.

    ** Controller state ([coxswain-core/src])

    - [Workqueue], [WorkqueueFacts]: [workqueue.rs], and consumers of [get] interleaved
      with producers over the notifier, an interface with laws.
    - [Health], [HealthWire]: [health.rs], and its reports on the wire.
    - [NodeRegistry], [NodeRegistryFacts]: [node_registry.rs], rows, quorums, watches.
    - [PublishIndex]: [publish_index.rs] and the fence between the reflector, which
      stores cells and then stamps, and [materialize], which captures and then loads.

    ** Relay tier ([coxswain-controller/src/operator])

    - [RelayScaler], [RelayScalerFacts]: [relay_autoscaler.rs] and [relay_params.rs],
      when a relay is turned on and off and how large it is.
    - [RelayLoop]: [relay_converge.rs], [relay_reconcile.rs], [shared_install.rs] and
      the relay parts of [reconciler.rs] and [apply.rs].  The trait [RelayCell] is a
      record of operations with laws ([RelayCellLaws]) and the two instances of the code;
      calls to the API server may fail before or after they take effect.
    - [RelayRuns]: the driver refines a function on records, and runs of one relay.
    - [RelayLoopFacts]: runs of the whole loop, composed with [Authz] and [Upstream].

    ** Discovery ([coxswain-discovery/src])

    - [ResourceKey], [ResourceKeyFacts]: [wire/resource.rs], the key grammar.
    - [Apply], [ApplyFacts]: [apply.rs], the client's cache.
    - [Stream], [StreamFacts], [StreamDemo]: [materialize.rs], [server/stream.rs] and
      [client.rs], server, channel and client of one session as a step relation.
    - [Sessions]: [server/identity.rs], claims on node ids and the life of sessions.
    - [Roster], [RosterFacts]: status and roster reports of proxies and relays.
    - [Identity]: SPIFFE names, token reviews and certificate-name matching.
    - [Upstream], [UpstreamFacts]: [upstream.rs], which server a node streams from.
    - [Authz], [AuthzFacts]: [server/authz.rs], the open of a stream in [server/mod.rs]
      and [bootstrap_server.rs].
    - [Relay], [RelayViews], [RelayFacts]: [NamespaceDemux] of [relay.rs], with the
      namespace view of [materialize.rs] that feeds it; the walks of the encoders over
      compiled tables are a class ([CellEncoders]).
    - [ViewCache]: [server/view_cache.rs], the views kept per scope, with lookups,
      builds and rebuilds interleaved.

    ** What the theorems show

    - Routing: normalization equals a specification on segments, yields canonical paths
      and terminates; a compiled host serves what the precedence rules say, compiles
      exactly when its patterns do, survives the wire, and does not depend on the
      iteration order of hash maps; among the hosts of a port the priority is exact.
    - Backends: selection is total and stays in the group; weights are exact over whole
      rounds; connection counters balance under any interleaving; hashing moves no key
      it does not have to; a cookie pins its endpoint.
    - Discovery: a delta yields the cache of a full snapshot; an accepted message is
      trustworthy; one message is outstanding; a recorded acknowledgement is a world
      the proxy held; a proxy converges when the world is stable; a captured sequence
      proves the content loaded after it; keys have one spelling.
    - Relays: a namespace relay serves each Gateway of its namespace, and no other, from
      the world a direct subscription would stage, by full snapshots and by deltas.
    - Relay tier: replica counts stay in the policy's range; a relay is shrunk only to
      what the window's readings fit in, and drained only after a whole cooldown below
      the threshold, as long as passes settle; proxies are pointed only at relays that
      reported ready, are deployed and may subscribe, provided that a failed delete
      leaves the Deployment; a demanded relay comes up and a disabled tier is reclaimed.
    - Control: quorums fail closed and wake their waiters; relays are transparent and
      confined; a serving session keeps its row; the queue refines its contract and
      loses no wake-up; readiness is what the checks say and survives the wire.
    - Security: bootstrap and stream opening together isolate tenants; the gate is
      characterized exactly; repoints stay within the node's own configuration.
    - Attachment: a route is served exactly on the hosts it shares with listeners that
      admit its namespace; references cross namespaces exactly where a grant of their
      kind allows it.
    - Source addresses: what a client writes in a forwarded header does not change how
      its request is judged, if the peer is not trusted or one of the hops that the
      proxies appended names a public address.
    - Connections: certificates and routes are chosen by port and name exactly as
      registered, in any iteration order; a request to a host that demands a client
      certificate arrived with one of that host's CA, on ports with Gateway listeners;
      internal ports are never shared and survive restarts; the view cache serves
      neither stale nor foreign views.
    - Preambles: headers and server names are read alike however they are segmented,
      with a bounded number of wake-ups; a PROXY header counts only from a trusted peer;
      a TLS connection goes where the tables send its server name, from its first byte.
    - Listeners: the merge and its conflicts are characterized exactly; only
      certificates that their source may reference are installed; the protocol of a
      port does not depend on the order of its listeners, where they agree; reconciling
      converges to the desired listeners and reports the ports that are bound.
    - UDP: sessions, permits and gauge agree and stay within the limit; a reply goes to
      the client of its session; every datagram is forwarded or counted as dropped, or
      is in a session that is being set up or was aborted; a drain returns everything.
    - Requests: the hooks count no more retries than the policy allows; connection
      counters return to where they were; headers that the proxy owns cannot be set by a
      client or a filter; path and query are those of the route's rewrite.
    - Theorems that end a component's list with a negative result state where the code
      is weaker than its documentation: normalization is not idempotent, a reconnect
      can lose its row, a relay can displace a row of another relay, a predicate miss
      does not try shorter prefixes, the halves of a CORS wildcard may overlap, a client
      certificate of one Ingress host opens the others of its port, a
      stamp read after the registry lets a relay vouch for content it does not have, a
      failed resize defeats the cooldown, a half-done delete strands a namespace,
      rehydration points proxies at relays that are not ready, a hop with a port lets
      the client choose its address, listener isolation disregards ports, a hybrid port
      with PROXY protocol never serves HTTPS, a shutdown leaves the listener gauge wrong,
      a listener that lost a conflict can decide the protocol of its port, the names of
      Service ports can collide, a response-code retry lifts the retry budget, a
      back-off can outlive the request deadline, failures of retried endpoints are not
      recorded while clients that leave are, an aborted UDP session discards its
      datagram uncounted, and a bracketed host is cut in redirects.

    ** Conventions, fuel and bounds

    Strings are lists of bytes.  Machine integers are [Z] with their wrap-around or
    saturation written out.  Panics are [None]; errors are values of [result].  Maps are
    [gmap]; where the iteration order of a [HashMap] could be seen, it is a parameter
    ([HashIter]).  Double-precision numbers are those of the Standard Library's IEEE 754
    specification.  Loops that are not structural take fuel, and each fuel is shown or
    chosen to suffice: the length of the input for dot segments, for trimming and for
    nested keys, the size of the heap for draining, the divisor for Euclid's algorithm,
    what the buffer can still grow plus the time to the deadline for a peek loop,
    and twenty digits for printed ports, which as 32-bit numbers have at most ten.

    ** Not modelled

    Hashing of encoded messages, the compilation of a staged world and the walk over
    message bodies are parameters.  Reasons in error values, metrics and logs are
    dropped.  Cryptography, the bytes that cross a socket once a connection is handed
    over, the retry loop of Pingora, the Kubernetes reconcilers other than the relay loop
    and the listeners, the rendering of objects, the admin server, the command line and
    generated types are not modelled: they are I/O or work on generated types.  Of the
    policies enforced at request time the rate limits, authentication, affinity cookies,
    compression and mirroring are not modelled.  The relay loop processes a namespace without interruption: a
    rehydration that runs while a pass awaits the API server is not modelled. *)

From Stdlib Require Export Ascii String ZArith Lia Bool Sorted.
From stdpp Require Export base numbers gmap strings list.

(** ** Byte strings

    Rust's [&str]/[String] are modelled by their UTF-8 bytes: a list of 8-bit
    characters.  [lit] writes a literal. *)

Abbreviation str := (list ascii).

Definition lit (s : string) : str := list_ascii_of_string s.
Arguments lit s%_string_scope.

Declare Scope cox_scope.
Delimit Scope cox_scope with cox.
Infix "=c" := Ascii.eqb (at level 70, no associativity) : cox_scope.
Open Scope cox_scope.

Abbreviation slash := "/"%char.
Abbreviation backslash := "\"%char.
Abbreviation percent := "%"%char.
Abbreviation dot := "."%char.

(** [str::strip_prefix] *)
Fixpoint strip_prefix (p s : str) : option str :=
  match p, s with
  | [], _ => Some s
  | c :: p', d :: s' => if c =c d then strip_prefix p' s' else None
  | _ :: _, [] => None
  end.

(** [str::starts_with] *)
Definition starts_with (p s : str) : bool :=
  match strip_prefix p s with Some _ => true | None => false end.

(** [str::strip_suffix] *)
Definition strip_suffix (p s : str) : option str :=
  reverse <$> strip_prefix (reverse p) (reverse s).

(** [str::contains] for one character *)
Fixpoint contains (c : ascii) (s : str) : bool :=
  match s with
  | [] => false
  | d :: s' => (d =c c) || contains c s'
  end.

(** [str::find] for one character: the index of its first occurrence. *)
Fixpoint find_char (c : ascii) (s : str) : option nat :=
  match s with
  | [] => None
  | d :: s' => if d =c c then Some 0 else S <$> find_char c s'
  end.

(** [str::trim_end_matches] for one character, as a strip of the reversed
    string. *)
Fixpoint drop_leading (c : ascii) (s : str) : str :=
  match s with
  | [] => []
  | d :: s' => if d =c c then drop_leading c s' else s
  end.

Definition trim_end_matches (c : ascii) (s : str) : str :=
  reverse (drop_leading c (reverse s)).

(** [str::ends_with] *)
Definition ends_with (p s : str) : bool :=
  match strip_suffix p s with Some _ => true | None => false end.

(** [char::to_ascii_lowercase], [str::to_ascii_lowercase] and
    [str::eq_ignore_ascii_case] *)
Definition lower_char (c : ascii) : ascii :=
  let n := N_of_ascii c in
  if (65 <=? n)%N && (n <=? 90)%N then ascii_of_N (n + 32) else c.

Definition to_ascii_lowercase (s : str) : str := lower_char <$> s.

Definition eq_ignore_ascii_case (a b : str) : bool :=
  bool_decide (to_ascii_lowercase a = to_ascii_lowercase b).

(** [u8::is_ascii_whitespace]: space, tab, line feed, form feed, carriage return *)
Definition is_ascii_whitespace (c : ascii) : bool :=
  let n := N_of_ascii c in
  (n =? 32)%N || (n =? 9)%N || (n =? 10)%N || (n =? 12)%N || (n =? 13)%N.

Fixpoint trim_start_by (p : ascii → bool) (s : str) : str :=
  match s with
  | [] => []
  | c :: s' => if p c then trim_start_by p s' else s
  end.

(** [str::trim_ascii] *)
Definition trim_ascii (s : str) : str :=
  reverse (trim_start_by is_ascii_whitespace
             (reverse (trim_start_by is_ascii_whitespace s))).

(** [str::split(c)], never empty *)
Fixpoint split_char (c : ascii) (s : str) : list str :=
  match s with
  | [] => [[]]
  | d :: s' =>
      if d =c c then [] :: split_char c s'
      else match split_char c s' with
           | [] => [[d]]
           | w :: ws => (d :: w) :: ws
           end
  end.

(** [slice::join(sep)] *)
Fixpoint join_with (sep : str) (ws : list str) : str :=
  match ws with
  | [] => []
  | [w] => w
  | w :: ws' => w ++ sep ++ join_with sep ws'
  end.

(** Byte-wise lexicographic order, Rust's [Ord for str]. *)
Fixpoint str_leb (a b : str) : bool :=
  match a, b with
  | [], _ => true
  | _ :: _, [] => false
  | c :: a', d :: b' =>
      if c =c d then str_leb a' b' else (N_of_ascii c <? N_of_ascii d)%N
  end.

(** ** Results *)

Inductive result (T E : Type) :=
| Ok (t : T)
| Err (e : E).
Arguments Ok {T E}.
Arguments Err {T E}.

Notation "x <-? e ;; k" := (match e with Ok x => k | Err err => Err err end)
  (at level 60, e at next level, right associativity) : cox_scope.

(** ** Machine integers *)

Definition wrap (w z : Z) : Z := (z mod 2 ^ w)%Z.
Definition u64_max : Z := (2 ^ 64 - 1)%Z.
Definition u32_max : Z := (2 ^ 32 - 1)%Z.
Definition u16_max : Z := (2 ^ 16 - 1)%Z.

Definition saturating_add (max a b : Z) : Z := Z.min max (a + b).
Definition saturating_sub (a b : Z) : Z := Z.max 0 (a - b).

(** ** Iterator adaptors *)

(** [Iterator::min_by_key]: the first element with the least key. *)
Fixpoint min_by_key {A} (key : A → Z) (l : list A) : option A :=
  match l with
  | [] => None
  | x :: l' =>
      match min_by_key key l' with
      | None => Some x
      | Some y => if (key x <=? key y)%Z then Some x else Some y
      end
  end.

(** [Iterator::max_by_key]: the last element with the greatest key. *)
Fixpoint max_by_key {A} (key : A → Z) (l : list A) : option A :=
  match l with
  | [] => None
  | x :: l' =>
      match max_by_key key l' with
      | None => Some x
      | Some y => if (key x <=? key y)%Z then Some y else Some x
      end
  end.

(** [Iterator::find] *)
Fixpoint find_first {A} (p : A → bool) (l : list A) : option A :=
  match l with
  | [] => None
  | x :: l' => if p x then Some x else find_first p l'
  end.

(** [slice::sort_by], the stable sort: [leb x y] is [cmp x y != Greater]. *)
Fixpoint insert_sorted {A} (leb : A → A → bool) (x : A) (l : list A) : list A :=
  match l with
  | [] => [x]
  | y :: l' => if leb x y then x :: y :: l' else y :: insert_sorted leb x l'
  end.

Fixpoint sort_by {A} (leb : A → A → bool) (l : list A) : list A :=
  match l with
  | [] => []
  | x :: l' => insert_sorted leb x (sort_by leb l')
  end.

(** ** Maps

    [HashMap] iteration: each entry once, in some order. *)
Class HashIter := {
  hash_iter : ∀ {K V : Type} `{Countable K}, gmap K V → list (K * V);
  hash_iter_perm : ∀ {K V : Type} `{Countable K} (m : gmap K V), hash_iter m ≡ₚ map_to_list m;
}.

(** [BTreeMap<String, _>] iteration: in the order of the keys. *)
Definition key_le {V} (a b : str * V) : bool := str_leb a.1 b.1.
Definition btree_iter {V} (m : gmap str V) : list (str * V) := sort_by key_le (map_to_list m).

(** ** Automation

    The tactics split the boolean tests the models are written with. *)

Ltac case_eqc :=
  match goal with
  | |- context [Ascii.eqb ?a ?b] => destruct (Ascii.eqb_spec a b); simplify_eq/=
  | H : context [Ascii.eqb ?a ?b] |- _ =>
      destruct (Ascii.eqb_spec a b); simplify_eq/=
  end.

Ltac case_zb :=
  match goal with
  | |- context [(?a <=? ?b)%Z] => destruct (Z.leb_spec a b)
  | |- context [(?a <? ?b)%Z] => destruct (Z.ltb_spec a b)
  | |- context [(?a =? ?b)%Z] => destruct (Z.eqb_spec a b)
  | H : context [(?a <=? ?b)%Z] |- _ => destruct (Z.leb_spec a b)
  | H : context [(?a <? ?b)%Z] |- _ => destruct (Z.ltb_spec a b)
  | H : context [(?a =? ?b)%Z] |- _ => destruct (Z.eqb_spec a b)
  end.

(** Split the outermost boolean [if] of the goal. *)
Ltac case_ifb :=
  match goal with
  | |- context [if ?b then _ else _] =>
      match type of b with bool => destruct b eqn:? end
  end.

Create HintDb cox.

(** ** Lemmas on strings *)

Lemma strip_prefix_Some p s r : strip_prefix p s = Some r ↔ s = p ++ r.
Proof.
  revert s; induction p as [|c p IH]; intros [|d s]; simpl;
    try (split; intros; by simplify_eq).
  case_eqc; [rewrite IH|]; split; intros; by simplify_eq.
Qed.

Lemma strip_prefix_None p s : strip_prefix p s = None ↔ ∀ r, s ≠ p ++ r.
Proof.
  destruct (strip_prefix p s) as [r|] eqn:E.
  - apply strip_prefix_Some in E as ->. naive_solver.
  - split; [|done]. intros _ r Hr. apply strip_prefix_Some in Hr. congruence.
Qed.

Lemma starts_with_true p s : starts_with p s = true ↔ ∃ r, s = p ++ r.
Proof.
  unfold starts_with. destruct (strip_prefix p s) as [r|] eqn:E.
  - apply strip_prefix_Some in E. naive_solver.
  - rewrite strip_prefix_None in E. naive_solver.
Qed.

Lemma strip_suffix_Some p s r : strip_suffix p s = Some r ↔ s = r ++ p.
Proof.
  unfold strip_suffix. rewrite fmap_Some. setoid_rewrite strip_prefix_Some. split.
  - intros (r' & Hs & ->).
    by rewrite <-(reverse_involutive s), Hs, reverse_app, reverse_involutive.
  - intros ->. exists (reverse r). by rewrite reverse_app, reverse_involutive.
Qed.

Lemma strip_suffix_None p s : strip_suffix p s = None ↔ ∀ r, s ≠ r ++ p.
Proof.
  destruct (strip_suffix p s) as [r|] eqn:E.
  - apply strip_suffix_Some in E as ->. naive_solver.
  - split; [|done]. intros _ r Hr. apply strip_suffix_Some in Hr. congruence.
Qed.

Lemma ends_with_true p s : ends_with p s = true ↔ ∃ r, s = r ++ p.
Proof.
  unfold ends_with. destruct (strip_suffix p s) as [r|] eqn:E.
  - apply strip_suffix_Some in E. naive_solver.
  - rewrite strip_suffix_None in E. naive_solver.
Qed.

Lemma eq_ignore_ascii_case_true a b :
  eq_ignore_ascii_case a b = true ↔ to_ascii_lowercase a = to_ascii_lowercase b.
Proof. unfold eq_ignore_ascii_case. by rewrite bool_decide_eq_true. Qed.

Lemma contains_true c s : contains c s = true ↔ c ∈ s.
Proof.
  induction s as [|d s IH]; simpl; [split; [done|by intros ?%elem_of_nil]|].
  rewrite elem_of_cons, orb_true_iff, IH, Ascii.eqb_eq. naive_solver.
Qed.

Lemma contains_false c s : contains c s = false ↔ c ∉ s.
Proof. rewrite <-contains_true. by destruct (contains c s). Qed.

Lemma find_char_Some c s i :
  find_char c s = Some i ↔
  ∃ s1 s2, s = s1 ++ (c :: s2) ∧ c ∉ s1 ∧ length s1 = i.
Proof.
  revert i; induction s as [|d s IH]; intros i; simpl.
  { split; [done|]. intros (s1 & s2 & H & _). by destruct s1. }
  case_eqc.
  - split.
    + intros [= <-]. exists [], s. split_and!; [done|by intros ?%elem_of_nil|done].
    + intros ([|e s1] & s2 & H & Hin & <-); simplify_eq/=; [done|].
      destruct Hin. by left.
  - rewrite fmap_Some. setoid_rewrite IH. split.
    + intros (j & (s1 & s2 & -> & Hin & <-) & ->). exists (d :: s1), s2.
      split_and!; [done| |done]. by rewrite not_elem_of_cons.
    + intros ([|e s1] & s2 & H & Hin & <-); simplify_eq/=.
      rewrite not_elem_of_cons in Hin. naive_solver.
Qed.

Lemma str_leb_total a b : str_leb a b = true ∨ str_leb b a = true.
Proof.
  revert b. induction a as [|c a IH]; intros [|d b]; simpl; auto.
  rewrite (Ascii.eqb_sym d c). destruct (Ascii.eqb_spec c d) as [->|Hne]; [auto|].
  rewrite !N.ltb_lt. assert (N_of_ascii c ≠ N_of_ascii d); [|lia].
  intros Heq. apply Hne. by rewrite <-(ascii_N_embedding c), Heq, ascii_N_embedding.
Qed.

Lemma str_leb_trans a b c : str_leb a b = true → str_leb b c = true → str_leb a c = true.
Proof.
  revert b c. induction a as [|x a IH]; intros [|y b] [|z c]; simpl; try done.
  destruct (Ascii.eqb_spec x y), (Ascii.eqb_spec y z), (Ascii.eqb_spec x z);
    subst; rewrite ?N.ltb_lt; try done; try lia; eauto.
Qed.

Lemma str_leb_antisym a b : str_leb a b = true → str_leb b a = true → a = b.
Proof.
  revert b. induction a as [|x a IH]; intros [|y b]; simpl; try done.
  rewrite (Ascii.eqb_sym y x). destruct (Ascii.eqb_spec x y) as [->|Hne].
  - intros. f_equal. auto.
  - rewrite !N.ltb_lt. lia.
Qed.

Section filter.
Context {A : Type}.

Lemma filter_ext_in (P Q : A → Prop) `{∀ x, Decision (P x)} `{∀ x, Decision (Q x)} (l : list A) :
  (∀ x, x ∈ l → P x ↔ Q x) → filter P l = filter Q l.
Proof.
  induction l as [|x l IH]; intros HPQ; [done|]. rewrite !filter_cons.
  rewrite IH by (intros; apply HPQ; by right).
  assert (P x ↔ Q x) by (apply HPQ; by left). repeat case_decide; naive_solver.
Qed.

Lemma length_filter_fmap {B} (f : B → A) (P : A → Prop) `{∀ x, Decision (P x)} (l : list B) :
  length (filter P (f <$> l)) = length (filter (λ y, P (f y)) l).
Proof.
  induction l as [|x l IH]; [done|]. rewrite fmap_cons, !filter_cons.
  case_decide; cbn; by rewrite IH.
Qed.

End filter.

(** Two splits at the first occurrence of a character agree. *)
Lemma app_inj_at_fresh {A} (c : A) l1 r1 l2 r2 :
  c ∉ l1 → c ∉ l2 → l1 ++ c :: r1 = l2 ++ c :: r2 → l1 = l2 ∧ r1 = r2.
Proof.
  revert l2. induction l1 as [|x l1 IH]; intros [|y l2] H1 H2 Heq; simplify_eq/=; try set_solver.
  destruct (IH l2) as [-> ->]; set_solver.
Qed.

Lemma find_char_None c s : find_char c s = None ↔ c ∉ s.
Proof.
  induction s as [|d s IH]; simpl; [split; [by intros _ ?%elem_of_nil|done]|].
  rewrite not_elem_of_cons. case_eqc; [naive_solver|].
  rewrite fmap_None, IH. naive_solver.
Qed.

Lemma drop_leading_spec c s :
  ∃ n, s = replicate n c ++ drop_leading c s ∧
       match drop_leading c s with [] => True | d :: _ => d ≠ c end.
Proof.
  induction s as [|d s [n [IH IH']]]; simpl; [by exists 0|].
  case_eqc; [|by exists 0]. exists (S n). simpl. by rewrite <-IH.
Qed.

Lemma trim_end_matches_spec c s :
  ∃ n, s = trim_end_matches c s ++ replicate n c ∧
       last (trim_end_matches c s) ≠ Some c.
Proof.
  unfold trim_end_matches. destruct (drop_leading_spec c (reverse s)) as (n & H & H').
  exists n. split.
  - apply (f_equal reverse) in H.
    by rewrite reverse_involutive, reverse_app, reverse_replicate in H.
  - rewrite last_reverse. revert H'. destruct (drop_leading c (reverse s)); simpl; congruence.
Qed.

(** ** Lemmas on the iterator adaptors *)

Section find_first.
Context {A : Type} (p : A → bool).

Lemma find_first_Some l x :
  find_first p l = Some x ↔
  ∃ l1 l2, l = l1 ++ x :: l2 ∧ p x = true ∧ Forall (λ y, p y = false) l1.
Proof.
  induction l as [|y l IH]; simpl.
  { split; [done|]. intros (l1 & l2 & H & _). by destruct l1. }
  destruct (p y) eqn:Hy.
  - split.
    + intros [= <-]. by exists [], l.
    + intros ([|z l1] & l2 & H & Hx & Hl); simplify_eq/=; [done|].
      inversion Hl; congruence.
  - rewrite IH. split.
    + intros (l1 & l2 & -> & ? & ?). exists (y :: l1), l2. by repeat constructor.
    + intros ([|z l1] & l2 & H & Hx & Hl); simplify_eq/=;
        [congruence|]. inversion_clear Hl. by exists l1, l2.
Qed.

Lemma find_first_None l : find_first p l = None ↔ Forall (λ y, p y = false) l.
Proof.
  induction l as [|y l IH]; simpl; [by split|].
  rewrite Forall_cons. destruct (p y); naive_solver.
Qed.

Lemma find_first_elem l x : find_first p l = Some x → x ∈ l ∧ p x = true.
Proof.
  intros (l1 & l2 & -> & Hx & _)%find_first_Some. set_solver.
Qed.

Lemma find_first_app l1 l2 :
  find_first p (l1 ++ l2) =
  match find_first p l1 with Some x => Some x | None => find_first p l2 end.
Proof. induction l1 as [|y l1 IH]; simpl; [done|]. by destruct (p y). Qed.

End find_first.

Lemma find_first_fmap {A B} (f : A → B) (p : B → bool) l :
  find_first p (f <$> l) = f <$> find_first (λ x, p (f x)) l.
Proof. induction l as [|x l IH]; [done|]. cbn. by destruct (p (f x)). Qed.

Lemma find_first_ext {A} (p q : A → bool) l :
  (∀ x, x ∈ l → p x = q x) → find_first p l = find_first q l.
Proof.
  induction l as [|y l IH]; simpl; intros H; [done|].
  rewrite (H y), IH by set_solver. done.
Qed.

Section by_key.
Context {A : Type} (key : A → Z).

Lemma min_by_key_None l : min_by_key key l = None ↔ l = [].
Proof. destruct l as [|x l]; simpl; [done|]. by repeat case_match. Qed.

Lemma max_by_key_None l : max_by_key key l = None ↔ l = [].
Proof. destruct l as [|x l]; simpl; [done|]. by repeat case_match. Qed.

Lemma min_by_key_spec l x :
  min_by_key key l = Some x →
  ∃ l1 l2, l = l1 ++ x :: l2 ∧ (∀ y, y ∈ l1 → key x < key y)%Z ∧
           (∀ y, y ∈ l2 → key x <= key y)%Z.
Proof.
  revert x; induction l as [|y l IH]; intros x; simpl; [done|].
  destruct (min_by_key key l) as [z|] eqn:E.
  - destruct (IH z eq_refl) as (l1 & l2 & -> & H1 & H2).
    case_zb; intros [= <-].
    + exists [], (l1 ++ z :: l2). split_and!; [done|set_solver|].
      intros w [Hw| [->|Hw]%elem_of_cons]%elem_of_app; [|lia|].
      * specialize (H1 w Hw). lia.
      * specialize (H2 w Hw). lia.
    + exists (y :: l1), l2. split_and!; [done| |done].
      intros w [->|Hw]%elem_of_cons; [lia|auto].
  - apply min_by_key_None in E as ->. intros [= <-]. exists [], [].
    split_and!; set_solver.
Qed.

Lemma max_by_key_spec l x :
  max_by_key key l = Some x ↔
  ∃ l1 l2, l = l1 ++ x :: l2 ∧ (∀ y, y ∈ l1 → key y <= key x)%Z ∧
           (∀ y, y ∈ l2 → key y < key x)%Z.
Proof.
  revert x; induction l as [|y l IH]; intros x; simpl.
  { split; [done|]. intros (l1 & l2 & H & _). by destruct l1. }
  destruct (max_by_key key l) as [z|] eqn:E.
  - pose proof (proj1 (IH z) eq_refl) as (m1 & m2 & Hl & Hm1 & Hm2).
    assert (∀ w, w ∈ l → key w <= key z)%Z as Hmax.
    { intros w. rewrite Hl, elem_of_app, elem_of_cons.
      intros [?|[->|?]]; [auto|lia|apply Z.lt_le_incl; auto]. }
    assert (z ∈ l) as Hz by (rewrite Hl; set_solver).
    case_zb; split.
    + intros [= <-]. exists (y :: m1), m2. rewrite Hl.
      split_and!; [done| |done]. intros w [->|?]%elem_of_cons; auto.
    + intros ([|w l1] & l2 & Heq & H1 & H2); simplify_eq/=.
      * specialize (H2 z Hz). lia.
      * apply IH. exists l1, l2. split_and!; [done| |done]. set_solver.
    + intros [= <-]. exists [], l. split_and!; [done|set_solver|].
      intros w Hw. specialize (Hmax w Hw). lia.
    + intros ([|w l1] & l2 & Heq & H1 & H2); simplify_eq/=; [done|].
      exfalso. assert (key x <= key z)%Z
        by (apply Hmax; match goal with Heq : _ = l1 ++ _ |- _ => rewrite Heq end;
            set_solver). specialize (H1 w ltac:(by left)). lia.
  - apply max_by_key_None in E as ->. split.
    + intros [= <-]. exists [], []. split_and!; set_solver.
    + intros ([|w l1] & l2 & Heq & _); simplify_eq/=; [done|]. by destruct l1.
Qed.

(** Deleting elements other than the chosen one does not change the choice. *)
Lemma max_by_key_max l x :
  max_by_key key l = Some x → x ∈ l ∧ ∀ y, y ∈ l → (key y <= key x)%Z.
Proof.
  intros (l1 & l2 & -> & H1 & H2)%max_by_key_spec. split; [set_solver|].
  intros y [?|[->|?]%elem_of_cons]%elem_of_app; [auto|lia|apply Z.lt_le_incl; auto].
Qed.

Lemma max_by_key_filter (P : A → Prop) `{∀ x, Decision (P x)} l x :
  max_by_key key l = Some x → P x → max_by_key key (filter P l) = Some x.
Proof.
  rewrite !max_by_key_spec. intros (l1 & l2 & -> & H1 & H2) Hx.
  exists (filter P l1), (filter P l2). split_and!.
  - by rewrite filter_app, filter_cons_True.
  - intros y [_ ?]%list_elem_of_filter. auto.
  - intros y [_ ?]%list_elem_of_filter. auto.
Qed.

End by_key.

(** ** Lemmas on the stable sort *)

Section sort_by.
Context {A : Type} (leb : A → A → bool).

Lemma insert_sorted_perm x l : insert_sorted leb x l ≡ₚ x :: l.
Proof.
  induction l as [|y l IH]; simpl; [done|]. case_match; [done|].
  rewrite IH. apply Permutation_swap.
Qed.

Lemma sort_by_perm l : sort_by leb l ≡ₚ l.
Proof. induction l as [|x l IH]; simpl; [done|]. by rewrite insert_sorted_perm, IH. Qed.

Lemma elem_of_sort_by x l : x ∈ sort_by leb l ↔ x ∈ l.
Proof. by rewrite sort_by_perm. Qed.

Lemma sort_by_nil l : sort_by leb l = [] ↔ l = [].
Proof.
  split; [|by intros ->]. intros H. apply Permutation_nil_r.
  by rewrite <-H, sort_by_perm.
Qed.

Context (leb_total : ∀ x y, leb x y = true ∨ leb y x = true).
Context (leb_trans : ∀ x y z, leb x y = true → leb y z = true → leb x z = true).

Lemma insert_sorted_sorted x l :
  StronglySorted leb l → StronglySorted leb (insert_sorted leb x l).
Proof.
  induction 1 as [|y l Hl IH Hy]; simpl; [by repeat constructor|].
  destruct (leb x y) eqn:E.
  - repeat constructor; [done|done|by rewrite E|].
    eapply Forall_impl; [done|]. intros z Hz. apply Is_true_true.
    apply Is_true_true in Hz. eauto.
  - constructor; [done|]. rewrite insert_sorted_perm. constructor; [|done].
    apply Is_true_true. destruct (leb_total x y); congruence.
Qed.

Lemma sort_by_sorted l : StronglySorted leb (sort_by leb l).
Proof. induction l; simpl; [constructor|]. by apply insert_sorted_sorted. Qed.

(** In a sorted list the first element that passes a test is least among those
    that pass it. *)
Lemma find_first_sorted p l x y :
  StronglySorted leb l → find_first p l = Some x → y ∈ l → p y = true →
  leb x y = true.
Proof.
  intros Hs (l1 & l2 & -> & Hx & Hl1)%find_first_Some Hy Hpy.
  apply elem_of_app in Hy as [Hy|Hy].
  { rewrite Forall_forall in Hl1. specialize (Hl1 y Hy). congruence. }
  apply elem_of_cons in Hy as [->|Hy]; [destruct (leb_total x x); done|].
  induction l1 as [|z l1 IH]; simpl in *.
  - inversion_clear Hs as [|?? _ Hall]. rewrite Forall_forall in Hall.
    apply Is_true_true, Hall, Hy.
  - inversion_clear Hs. inversion_clear Hl1. auto.
Qed.

Lemma find_first_sort_least p l x y :
  find_first p (sort_by leb l) = Some x → y ∈ l → p y = true → leb x y = true.
Proof.
  intros Hx Hy. eapply find_first_sorted; [apply sort_by_sorted|done|].
  by apply elem_of_sort_by.
Qed.

(** Two sorted permutations of the same list agree when [leb] separates its
    elements. *)
Lemma sorted_perm_eq l1 l2 :
  StronglySorted leb l1 → StronglySorted leb l2 → l1 ≡ₚ l2 →
  (∀ x y, x ∈ l1 → y ∈ l1 → leb x y = true → leb y x = true → x = y) →
  l1 = l2.
Proof.
  intros H1. revert l2. induction H1 as [|x l1 Hs IH Hx]; intros l2 H2 Hp Hanti.
  { by apply Permutation_nil_l in Hp. }
  destruct H2 as [|y l2 Hs2 Hy]; [by apply Permutation_nil_r in Hp|].
  rewrite Forall_forall in Hx, Hy.
  assert (x = y) as ->.
  { assert (x ∈ y :: l2) as Hxin by (rewrite <-Hp; left).
    assert (y ∈ x :: l1) as Hyin by (rewrite Hp; left).
    apply elem_of_cons in Hxin as [->|Hxin]; [done|].
    apply elem_of_cons in Hyin as [->|Hyin]; [done|].
    apply Hanti; [by left|by right| |]; apply Is_true_true; auto. }
  f_equal. apply IH; [done|by eapply Permutation.Permutation_cons_inv|].
  intros; apply Hanti; [by right..|done|done].
Qed.

End sort_by.

(** ** Lemmas on maps *)

(** Two iteration orders, for evaluation. *)
Program Definition list_order : HashIter := {| hash_iter := λ K V _ _ m, map_to_list m |}.
Next Obligation. done. Qed.

Program Definition reverse_order : HashIter :=
  {| hash_iter := λ K V _ _ m, reverse (map_to_list m) |}.
Next Obligation. intros. apply reverse_Permutation. Qed.

Lemma hash_iter_elem `{HashIter, Countable K} {V} (m : gmap K V) k v :
  (k, v) ∈ hash_iter m ↔ m !! k = Some v.
Proof. by rewrite hash_iter_perm, elem_of_map_to_list. Qed.

Lemma hash_iter_NoDup `{HashIter, Countable K} {V} (m : gmap K V) : NoDup (hash_iter m).*1.
Proof. rewrite hash_iter_perm. apply NoDup_fst_map_to_list. Qed.

Lemma hash_iter_any `{Countable K} {V} (it1 it2 : HashIter) (m : gmap K V) :
  @hash_iter it1 _ _ _ _ m ≡ₚ @hash_iter it2 _ _ _ _ m.
Proof. by rewrite !hash_iter_perm. Qed.

Lemma btree_iter_elem {V} (m : gmap str V) k v : (k, v) ∈ btree_iter m ↔ m !! k = Some v.
Proof. unfold btree_iter. by rewrite elem_of_sort_by, elem_of_map_to_list. Qed.

Lemma btree_iter_NoDup {V} (m : gmap str V) : NoDup (btree_iter m).*1.
Proof. unfold btree_iter. rewrite sort_by_perm. apply NoDup_fst_map_to_list. Qed.

Lemma btree_iter_nil {V} (m : gmap str V) : btree_iter m = [] ↔ m = ∅.
Proof. unfold btree_iter. by rewrite sort_by_nil, map_to_list_empty_iff. Qed.

(** ** Lemmas on machine integers *)

Lemma wrap_succ_ne w n : (1 ≤ w)%Z → wrap w (n + 1) ≠ n.
Proof.
  unfold wrap. intros Hw Heq.
  assert (2 ≤ 2 ^ w)%Z by (change 2%Z with (2 ^ 1)%Z at 1; apply Z.pow_le_mono_r; lia).
  pose proof (Z.mod_pos_bound (n + 1) (2 ^ w) ltac:(lia)) as Hb. rewrite Heq in Hb.
  destruct (decide (n + 1 = 2 ^ w)%Z) as [E|].
  - rewrite E, Z.mod_same in Heq by lia. lia.
  - rewrite Z.mod_small in Heq by lia. lia.
Qed.

(** ** Counting in a map *)

Section count.
Context `{Countable K} {V : Type}.

(** How many values of a map pass a test. *)
Definition map_count (p : V → bool) (m : gmap K V) : Z :=
  map_fold (λ _ v n, (Z.b2z (p v) + n)%Z) 0%Z m.

Lemma map_count_empty p : map_count p ∅ = 0%Z.
Proof. apply map_fold_empty. Qed.

Lemma map_count_fresh p m i v : m !! i = None → map_count p (<[i:=v]> m) = (Z.b2z (p v) + map_count p m)%Z.
Proof. intros Hi. unfold map_count. rewrite map_fold_insert_L; [done| |done]. intros. lia. Qed.

Lemma map_count_update p m i v w :
  m !! i = Some v → map_count p (<[i:=w]> m) = (map_count p m - Z.b2z (p v) + Z.b2z (p w))%Z.
Proof.
  intros Hi. rewrite <-insert_delete_eq, map_count_fresh by apply lookup_delete_eq.
  rewrite <-(insert_delete_id m i v Hi) at 2. rewrite map_count_fresh by apply lookup_delete_eq. lia.
Qed.

Lemma map_count_alter p f m i v :
  m !! i = Some v → map_count p (alter f i m) = (map_count p m - Z.b2z (p v) + Z.b2z (p (f v)))%Z.
Proof.
  intros Hi. assert (alter f i m = <[i:=f v]> m) as -> by (apply map_eq; intros j;
    destruct (decide (i = j)) as [<-|]; [by rewrite lookup_alter_eq, lookup_insert_eq, Hi|
      by rewrite lookup_alter_ne, lookup_insert_ne]).
  by apply map_count_update.
Qed.

Lemma map_count_delete p m i v :
  m !! i = Some v → map_count p (delete i m) = (map_count p m - Z.b2z (p v))%Z.
Proof.
  intros Hi. rewrite <-(insert_delete_id m i v Hi) at 2. rewrite map_count_fresh by apply lookup_delete_eq. lia.
Qed.

Lemma map_count_nonneg p m : (0 ≤ map_count p m)%Z.
Proof.
  induction m as [|i v m Hi _ IH] using map_first_key_ind; [by rewrite map_count_empty|].
  rewrite map_count_fresh by done. destruct (p v); simpl; lia.
Qed.

Lemma map_count_zero p m : (∀ i v, m !! i = Some v → p v = false) → map_count p m = 0%Z.
Proof.
  induction m as [|i v m Hi _ IH] using map_first_key_ind; [by rewrite map_count_empty|]. intros Hp.
  rewrite map_count_fresh by done. rewrite (Hp i v) by apply lookup_insert_eq. rewrite IH; [done|].
  intros j w Hj. apply (Hp j). rewrite lookup_insert_ne; [done|]. intros ->. congruence.
Qed.

Lemma map_count_split p q r m :
  (∀ i v, m !! i = Some v → Z.b2z (p v) = Z.b2z (q v) + Z.b2z (r v))%Z →
  map_count p m = (map_count q m + map_count r m)%Z.
Proof.
  induction m as [|i v m Hi _ IH] using map_first_key_ind; [by rewrite !map_count_empty|]. intros Hp.
  rewrite !map_count_fresh by done. rewrite (Hp i v) by apply lookup_insert_eq. rewrite IH; [lia|].
  intros j w Hj. apply (Hp j). rewrite lookup_insert_ne; [done|]. intros ->. congruence.
Qed.

End count.
