(* ===== verification/PathNormalize.v ===== *)
(** * Path normalization

    Models [crates/coxswain-core/src/routing/common/path_normalize.rs]: the three
    normalization levels, the allocation-free pre-scan, the five-step pipeline
    and its primitives.  The theorems show that what [apply] hands to route
    matching and to the upstream is canonical, that the pre-scan is exact, that
    the RFC 3986 dot-segment loop terminates and computes the segment-stack
    specification, and that the default levels never decode a separator. *)

From S2P Require Import Prelude.

Inductive NormalizeLevel :=
| Base
| MergeSlashes
| DecodeAndMergeSlashes.

#[export] Instance NormalizeLevel_eq_dec : EqDecision NormalizeLevel.
Proof. solve_decision. Defined.

Definition level_merges (level : NormalizeLevel) : bool :=
  match level with
  | Base => false
  | MergeSlashes | DecodeAndMergeSlashes => true
  end.

(** The pre-scan: [check_double_slash] is [level_merges level]. *)
Fixpoint needs_slow_path (path : str) (level : NormalizeLevel) : bool :=
  match path with
  | [] => false
  | c :: rest =>
      if (c =c percent) || (c =c backslash) then true
      else
        match rest with
        | next :: _ =>
            if (c =c slash) && ((next =c dot) || (level_merges level && (next =c slash)))
            then true
            else needs_slow_path rest level
        | [] => needs_slow_path rest level
        end
  end.

(** ** Primitives *)

Definition in_range (lo hi c : ascii) : bool :=
  (N_of_ascii lo <=? N_of_ascii c)%N && (N_of_ascii c <=? N_of_ascii hi)%N.

Definition is_ascii_digit (c : ascii) : bool := in_range "0" "9" c.
Definition is_ascii_lower (c : ascii) : bool := in_range "a" "z" c.
Definition is_ascii_upper (c : ascii) : bool := in_range "A" "Z" c.

Definition is_ascii_hexdigit (c : ascii) : bool :=
  is_ascii_digit c || in_range "a" "f" c || in_range "A" "F" c.

Definition hex_val (c : ascii) : N :=
  (if is_ascii_digit c then N_of_ascii c - N_of_ascii "0"
   else if in_range "a" "f" c then N_of_ascii c - N_of_ascii "a" + 10
   else if in_range "A" "F" c then N_of_ascii c - N_of_ascii "A" + 10
   else 0)%N.

Definition is_unreserved (c : ascii) : bool :=
  (is_ascii_digit c || is_ascii_lower c || is_ascii_upper c)
  || (c =c "-"%char) || (c =c dot) || (c =c "_"%char) || (c =c "~"%char).

(** The byte two hex digits encode: [(hex_val h << 4) | hex_val l]. *)
Definition hex_byte (h l : ascii) : ascii :=
  ascii_of_N (N.lor (N.shiftl (hex_val h) 4) (hex_val l)).

(** The loop [decode_escaped_slashes] and [decode_unreserved] share: decode a
    triplet whose byte [accept]s, copy anything else. *)
Fixpoint percent_decode (accept : ascii → bool) (s : str) : str :=
  match s with
  | [] => []
  | c :: s1 =>
      match s1 with
      | h :: l :: s3 =>
          if (c =c percent) && is_ascii_hexdigit h && is_ascii_hexdigit l
             && accept (hex_byte h l)
          then hex_byte h l :: percent_decode accept s3
          else c :: percent_decode accept s1
      | _ => c :: percent_decode accept s1
      end
  end.

Definition is_separator (c : ascii) : bool := (c =c slash) || (c =c backslash).

Definition decode_escaped_slashes (s : str) : str := percent_decode is_separator s.

Definition decode_unreserved (s : str) : str := percent_decode is_unreserved s.

(** [s.replace('\\', "/")] *)
Definition replace_backslash (s : str) : str :=
  (λ c, if c =c backslash then slash else c) <$> s.

(** Position of the last ['/'], [String::rfind]. *)
Fixpoint rfind_slash (s : str) : option nat :=
  match s with
  | [] => None
  | c :: s' =>
      match rfind_slash s' with
      | Some i => Some (S i)
      | None => if c =c slash then Some 0 else None
      end
  end.

Definition pop_last_segment (out : str) : str :=
  match rfind_slash out with
  | Some pos => take pos out
  | None => out
  end.

(** One iteration of the [while !input.is_empty()] loop on [(out, input)];
    [None] is the [break]. *)
Definition remove_dot_step (out input : str) : option (str * str) :=
  match strip_prefix (lit "../") input with
  | Some rest => Some (out, rest)
  | None =>
  match strip_prefix (lit "./") input with
  | Some rest => Some (out, rest)
  | None =>
  if starts_with (lit "/./") input then Some (out, drop 2 input)
  else if decide (input = lit "/.") then Some (out, lit "/")
  else if starts_with (lit "/../") input then Some (pop_last_segment out, drop 3 input)
  else if decide (input = lit "/..") then Some (pop_last_segment out, lit "/")
  else if decide (input = lit "." ∨ input = lit "..") then None
  else
    let fin :=
      match input with
      | c :: rest =>
          if c =c slash
          then match find_char slash rest with Some p => p + 1 | None => length input end
          else match find_char slash input with Some p => p | None => length input end
      | [] => 0
      end in
    Some (out ++ take fin input, drop fin input)
  end end.

(** The loop, with fuel; [None] only when the fuel runs out. *)
Fixpoint remove_dot_loop (fuel : nat) (out input : str) : option str :=
  match input with
  | [] => Some out
  | _ =>
      match fuel with
      | 0 => None
      | S fuel =>
          match remove_dot_step out input with
          | Some (out', input') => remove_dot_loop fuel out' input'
          | None => Some out
          end
      end
  end.

Definition remove_dot_segments (path : str) : str :=
  match remove_dot_loop (length path) [] path with
  | Some [] => lit "/"
  | Some out => out
  | None => path
  end.

Fixpoint merge_slashes_from (prev_slash : bool) (s : str) : str :=
  match s with
  | [] => []
  | c :: s' =>
      if c =c slash
      then if prev_slash then merge_slashes_from true s'
           else slash :: merge_slashes_from true s'
      else c :: merge_slashes_from false s'
  end.

Definition merge_slashes (s : str) : str := merge_slashes_from false s.

(** ** The pipeline *)

Definition run_normalization (path : str) (level : NormalizeLevel) : str :=
  let s := if decide (level = DecodeAndMergeSlashes)
           then decode_escaped_slashes path else path in
  let s := decode_unreserved s in
  let s := if contains backslash s then replace_backslash s else s in
  let s := remove_dot_segments s in
  if level_merges level then merge_slashes s else s.

(** [Cow]: whether the result borrows the input or owns a new string. *)
Inductive Cow :=
| Borrowed (s : str)
| Owned (s : str).

Definition cow_str (c : Cow) : str := match c with Borrowed s | Owned s => s end.

Definition apply (level : NormalizeLevel) (path : str) : Cow :=
  if negb (needs_slow_path path level) then Borrowed path
  else
    let normalized := run_normalization path level in
    if decide (normalized = path) then Borrowed path else Owned normalized.

(** The unit tests of the source, evaluated. *)
Definition norm (level : NormalizeLevel) (s : string) : str := cow_str (apply level (lit s)).

Example source_tests :
  norm Base "/api/../v1" = lit "/v1" ∧
  norm Base "/foo/./bar" = lit "/foo/bar" ∧
  norm Base "/foo/.." = lit "/" ∧
  norm Base "/../" = lit "/" ∧
  norm Base "/a/b/c/../../d" = lit "/a/d" ∧
  norm Base "/foo/%2E%2e/bar" = lit "/bar" ∧
  norm Base "/foo\bar" = lit "/foo/bar" ∧
  norm Base "/foo%7Ebar" = lit "/foo~bar" ∧
  norm Base "/api%2Fv1" = lit "/api%2Fv1" ∧
  norm Base "//api//v1" = lit "//api//v1" ∧
  norm MergeSlashes "//api/../v1" = lit "/v1" ∧
  norm DecodeAndMergeSlashes "/api%5Cv1" = lit "/api/v1" ∧
  norm DecodeAndMergeSlashes "//api%5C..//v1" = lit "/v1".
Proof. vm_compute. done. Qed.

(** ** Specification of dot-segment removal

    An absolute path is the concatenation of ["/seg"] pieces.  Dot removal is a
    walk over the segments with a stack. *)

Definition no_slash (s : str) : Prop := slash ∉ s.

Definition join_segs (segs : list str) : str := mjoin ((λ s, slash :: s) <$> segs).

Fixpoint split_slash (s : str) : list str :=
  match s with
  | [] => [[]]
  | c :: s' =>
      if c =c slash then [] :: split_slash s'
      else match split_slash s' with
           | seg :: segs => (c :: seg) :: segs
           | [] => [[c]]
           end
  end.

(** The segments of an absolute path. *)
Definition segments (path : str) : list str :=
  match path with
  | c :: rest => if c =c slash then split_slash rest else split_slash path
  | [] => []
  end.

Definition absolute (path : str) : Prop := ∃ rest, path = slash :: rest.

(** A final dot segment leaves an empty last segment (the trailing slash). *)
Definition trailing (rest : list str) : list str :=
  match rest with [] => [[]] | _ => [] end.

Fixpoint resolve (stack segs : list str) : list str :=
  match segs with
  | [] => stack
  | s :: rest =>
      if decide (s = lit ".") then resolve (stack ++ trailing rest) rest
      else if decide (s = lit "..") then resolve (removelast stack ++ trailing rest) rest
      else resolve (stack ++ [s]) rest
  end.

Definition dot_free (segs : list str) : Prop :=
  Forall (λ s, s ≠ lit "." ∧ s ≠ lit "..") segs.

(** *** Segments and paths *)

Lemma join_segs_app l1 l2 : join_segs (l1 ++ l2) = join_segs l1 ++ join_segs l2.
Proof. unfold join_segs. by rewrite fmap_app, join_app. Qed.

Lemma join_segs_cons s l : join_segs (s :: l) = slash :: s ++ join_segs l.
Proof. done. Qed.

Lemma split_slash_ne s : split_slash s ≠ [].
Proof. induction s as [|c s IH]; simpl; [done|]. repeat case_match; done. Qed.

Lemma split_slash_no_slash s : Forall no_slash (split_slash s).
Proof.
  induction s as [|c s IH]; simpl.
  { repeat constructor. by intros ?%elem_of_nil. }
  case_eqc; [constructor; [by intros ?%elem_of_nil|done]|].
  destruct (split_slash s) as [|seg segs]; repeat constructor; inversion_clear IH;
    unfold no_slash in *; set_solver.
Qed.

Lemma join_split_slash s : join_segs (split_slash s) = slash :: s.
Proof.
  induction s as [|c s IH]; simpl; [done|].
  case_eqc; [by rewrite join_segs_cons, IH|].
  destruct (split_slash s) as [|seg segs] eqn:E; [by apply split_slash_ne in E|].
  rewrite join_segs_cons in IH |- *. by simplify_eq/=.
Qed.

Lemma segments_join path : absolute path → join_segs (segments path) = path.
Proof. intros [rest ->]. apply join_split_slash. Qed.

Lemma segments_no_slash path : Forall no_slash (segments path).
Proof.
  unfold segments. destruct path as [|c r]; [done|].
  destruct (c =c slash); apply split_slash_no_slash.
Qed.

Lemma segments_ne path : absolute path → segments path ≠ [].
Proof. intros [rest ->]. apply split_slash_ne. Qed.

Definition slashy (x : str) : Prop := x = [] ∨ ∃ x', x = slash :: x'.

Lemma join_segs_slashy l : slashy (join_segs l).
Proof. destruct l; [by left|right]. rewrite join_segs_cons. eauto. Qed.

(** A slash-free segment followed by a separator or the end is determined. *)
Lemma seg_inj s t x y :
  no_slash s → no_slash t → slashy x → slashy y → s ++ x = t ++ y → s = t ∧ x = y.
Proof.
  unfold no_slash. revert t; induction s as [|c s IH]; intros [|d t] Hs Ht Hx Hy; simpl.
  - done.
  - intros ->. destruct Hx as [|[x' ?]]; simplify_eq/=. set_solver.
  - intros <-. destruct Hy as [|[y' ?]]; simplify_eq/=. set_solver.
  - intros ?; simplify_eq/=. destruct (IH t) as [-> ->]; set_solver.
Qed.

Lemma split_slash_app s r : no_slash s → slashy r →
  split_slash (s ++ r) = s :: match r with [] => [] | _ :: r' => split_slash r' end.
Proof.
  intros Hs Hr. induction s as [|c s IH]; simpl.
  { destruct Hr as [->|[r' ->]]; done. }
  unfold no_slash in *. case_eqc; [set_solver|]. rewrite IH; set_solver.
Qed.

Lemma segments_join_segs l : Forall no_slash l → segments (join_segs l) = l.
Proof.
  destruct l as [|s l]; [done|]. rewrite join_segs_cons. cbn [segments].
  change (slash =c slash) with true. cbn iota.
  revert s. induction l as [|t l IH]; intros s Hf; inversion_clear Hf.
  - rewrite split_slash_app by (done || by left). done.
  - rewrite split_slash_app by (done || apply join_segs_slashy).
    rewrite join_segs_cons, IH by done. done.
Qed.

(** *** The loop, segment by segment *)

Lemma rfind_slash_app out s : no_slash s → rfind_slash (out ++ slash :: s) = Some (length out).
Proof.
  intros Hs. induction out as [|c out IH]; simpl; [|by rewrite IH].
  assert (rfind_slash s = None) as ->; [|done].
  unfold no_slash in Hs. induction s as [|c s IH]; simpl; [done|].
  rewrite IH by set_solver. case_eqc; set_solver.
Qed.

Lemma pop_last_segment_join stack :
  Forall no_slash stack → pop_last_segment (join_segs stack) = join_segs (removelast stack).
Proof.
  destruct stack as [|s stack _] using rev_ind; intros Hs; [done|].
  rewrite List.removelast_last, join_segs_app, join_segs_cons. unfold pop_last_segment.
  apply Forall_app in Hs as [_ Hs]. inversion_clear Hs.
  change (join_segs []) with (@nil ascii). rewrite app_nil_r.
  by rewrite rfind_slash_app, take_app_length.
Qed.

Definition or_slash (x : str) : str := match x with [] => lit "/" | _ => x end.

Lemma starts_with_seg s t x : no_slash s → no_slash t → slashy x →
  starts_with (slash :: t ++ lit "/") (slash :: s ++ x) = true ↔ s = t ∧ x ≠ [].
Proof.
  intros Hs Ht Hx. rewrite starts_with_true. split.
  - intros [r Hr]. injection Hr as Hr. rewrite <-(assoc_L (++)) in Hr.
    destruct (seg_inj s t x (lit "/" ++ r)) as [-> ->]; [done..| |done|done].
    right. by exists r.
  - intros [-> Hne]. destruct Hx as [->|[x' ->]]; [done|]. exists x'.
    simpl. by rewrite <-(assoc_L (++)).
Qed.

Lemma eq_seg s t x : no_slash s → no_slash t → slashy x →
  slash :: s ++ x = slash :: t ↔ s = t ∧ x = [].
Proof.
  intros Hs Ht Hx. split; [|by intros [-> ->]; rewrite app_nil_r].
  intros H. injection H as H. apply (seg_inj s t x []); [done..|by left|].
  by rewrite app_nil_r.
Qed.

Lemma no_slash_dot : no_slash (lit ".").
Proof. unfold no_slash. set_solver. Qed.

Lemma no_slash_dotdot : no_slash (lit "..").
Proof. unfold no_slash. set_solver. Qed.

Lemma no_slash_nil : no_slash [].
Proof. unfold no_slash. set_solver. Qed.

#[export] Hint Resolve no_slash_nil no_slash_dot no_slash_dotdot join_segs_slashy : cox.

Lemma remove_dot_step_seg out s x :
  no_slash s → slashy x →
  remove_dot_step out (slash :: s ++ x) =
  if decide (s = lit ".") then Some (out, or_slash x)
  else if decide (s = lit "..") then Some (pop_last_segment out, or_slash x)
  else Some (out ++ slash :: s, x).
Proof.
  intros Hs Hx. unfold remove_dot_step.
  change (strip_prefix (lit "../") (slash :: s ++ x)) with (@None str).
  change (strip_prefix (lit "./") (slash :: s ++ x)) with (@None str). cbn iota.
  destruct (starts_with (lit "/./") _) eqn:E1.
  { apply (starts_with_seg s (lit ".") x) in E1 as [-> Hne]; auto with cox.
    rewrite decide_True by done. by destruct x. }
  rewrite <-not_true_iff_false, (starts_with_seg s (lit ".") x) in E1; auto with cox.
  destruct (decide (_ = lit "/.")) as [E2|E2].
  { apply (eq_seg s (lit ".") x) in E2 as [-> ->]; auto with cox. }
  rewrite (eq_seg s (lit ".") x) in E2; auto with cox.
  destruct (starts_with (lit "/../") _) eqn:E3.
  { apply (starts_with_seg s (lit "..") x) in E3 as [-> Hne]; auto with cox.
    rewrite decide_False, decide_True by done. by destruct x. }
  rewrite <-not_true_iff_false, (starts_with_seg s (lit "..") x) in E3; auto with cox.
  destruct (decide (_ = lit "/..")) as [E4|E4].
  { apply (eq_seg s (lit "..") x) in E4 as [-> ->]; auto with cox. }
  rewrite (eq_seg s (lit "..") x) in E4; auto with cox.
  rewrite (decide_False (P:=_ ∨ _)) by (intros [?|?]; done).
  assert (s ≠ lit ".") by (destruct x; naive_solver).
  assert (s ≠ lit "..") by (destruct x; naive_solver).
  rewrite !decide_False by done.
  change (slash =c slash) with true. cbn iota.
  assert (match find_char slash (s ++ x) with
          | Some p => p + 1 | None => length (slash :: s ++ x) end = length (slash :: s)) as ->.
  { destruct Hx as [->|[x' ->]].
    - rewrite app_nil_r, (proj2 (find_char_None slash s)) by done. done.
    - assert (find_char slash (s ++ slash :: x') = Some (length s)) as ->; [|simpl; lia].
      apply find_char_Some. by exists s, x'. }
  change (slash :: s ++ x) with ((slash :: s) ++ x).
  by rewrite take_app_length, drop_app_length.
Qed.

Lemma removelast_Forall {A} (P : A → Prop) l : Forall P l → Forall P (removelast l).
Proof.
  destruct l as [|x l _] using rev_ind; [done|].
  rewrite List.removelast_last. by intros [? _]%Forall_app.
Qed.

(** The loop computes [resolve], and as much fuel as there are bytes left is
    enough. *)
Lemma remove_dot_loop_resolve fuel stack segs :
  Forall no_slash stack → Forall no_slash segs →
  length (join_segs segs) ≤ fuel →
  remove_dot_loop fuel (join_segs stack) (join_segs segs) =
  Some (join_segs (resolve stack segs)).
Proof.
  revert stack segs. induction fuel as [|fuel IH]; intros stack [|s segs] Hst Hsg Hlen;
    try done; rewrite join_segs_cons in *; simpl in Hlen; [lia|].
  inversion_clear Hsg as [|?? Hs Hsegs]. cbn [remove_dot_loop].
  rewrite length_app in Hlen. rewrite remove_dot_step_seg by auto with cox.
  cbn [resolve]. repeat case_decide; subst; simpl in Hlen.
  - destruct segs as [|t segs]; simpl trailing.
    + change (or_slash (join_segs [])) with (join_segs [[]]). rewrite IH; auto with cox. simpl in *; lia.
    + rewrite app_nil_r. change (or_slash (join_segs (t :: segs))) with (join_segs (t :: segs)).
      apply IH; [done..|lia].
  - rewrite pop_last_segment_join by done. pose proof (removelast_Forall _ _ Hst).
    destruct segs as [|t segs]; simpl trailing.
    + change (or_slash (join_segs [])) with (join_segs [[]]). rewrite IH; auto with cox. simpl in *; lia.
    + rewrite app_nil_r. change (or_slash (join_segs (t :: segs))) with (join_segs (t :: segs)).
      apply IH; [done..|lia].
  - assert (join_segs stack ++ slash :: s = join_segs (stack ++ [s])) as ->.
    { rewrite join_segs_app, join_segs_cons. simpl. by rewrite app_nil_r. }
    apply IH; [|done|lia]. apply Forall_app; auto.
Qed.

Lemma resolve_ne stack segs : segs ≠ [] → resolve stack segs ≠ [].
Proof.
  revert stack. induction segs as [|s segs IH]; [done|]. intros stack _. cbn [resolve].
  destruct segs as [|t segs].
  - simpl. repeat case_decide; by intros [_ ?]%app_nil.
  - repeat case_decide; by apply IH.
Qed.

Lemma resolve_Forall (P : str → Prop) stack segs :
  P [] → Forall P stack → Forall P segs → Forall P (resolve stack segs).
Proof.
  intros Hnil. revert stack. induction segs as [|s segs IH]; intros stack Hst Hsg; [done|].
  inversion_clear Hsg. cbn [resolve].
  assert (Forall P (trailing segs)) by (destruct segs; repeat constructor; auto).
  pose proof (removelast_Forall _ _ Hst).
  repeat case_decide; apply IH; auto; apply Forall_app; auto.
Qed.

Lemma resolve_dot_free stack segs : dot_free stack → dot_free (resolve stack segs).
Proof.
  unfold dot_free. revert stack. induction segs as [|s segs IH]; intros stack Hst; [done|].
  assert (Forall (λ s, s ≠ lit "." ∧ s ≠ lit "..") (trailing segs)).
  { destruct segs; repeat constructor; done. }
  pose proof (removelast_Forall _ _ Hst).
  cbn [resolve]. repeat case_decide; apply IH; apply Forall_app; auto.
Qed.

Lemma resolve_id stack segs : dot_free segs → resolve stack segs = stack ++ segs.
Proof.
  unfold dot_free. revert stack. induction segs as [|s segs IH]; intros stack Hd.
  { by rewrite app_nil_r. }
  inversion_clear Hd. cbn [resolve]. rewrite !decide_False by naive_solver.
  rewrite IH by done. by rewrite <-(assoc_L (++)).
Qed.

Lemma remove_dot_segments_join segs :
  segs ≠ [] → Forall no_slash segs →
  remove_dot_segments (join_segs segs) = join_segs (resolve [] segs).
Proof.
  intros Hne Hs. unfold remove_dot_segments.
  change (@nil ascii) with (join_segs []) at 1.
  rewrite remove_dot_loop_resolve by done.
  pose proof (resolve_ne [] segs Hne). by destruct (resolve [] segs).
Qed.

Lemma remove_dot_segments_abs path :
  absolute path → remove_dot_segments path = join_segs (resolve [] (segments path)).
Proof.
  intros Ha. rewrite <-(segments_join path Ha) at 1.
  apply remove_dot_segments_join; [by apply segments_ne|apply segments_no_slash].
Qed.

Lemma absolute_join segs : segs ≠ [] → absolute (join_segs segs).
Proof. destruct segs as [|s segs]; [done|]. intros _. by eexists. Qed.

#[export] Hint Resolve segments_no_slash segments_ne : cox.

Lemma remove_dot_segments_absolute path :
  absolute path → absolute (remove_dot_segments path).
Proof.
  intros Ha. rewrite remove_dot_segments_abs by done.
  apply absolute_join, resolve_ne, segments_ne, Ha.
Qed.

Lemma segments_remove_dot path :
  absolute path → segments (remove_dot_segments path) = resolve [] (segments path).
Proof.
  intros Ha. rewrite remove_dot_segments_abs by done.
  apply segments_join_segs, resolve_Forall; auto with cox.
Qed.

Lemma remove_dot_segments_id path :
  absolute path → dot_free (segments path) → remove_dot_segments path = path.
Proof.
  intros Ha Hd. rewrite remove_dot_segments_abs, resolve_id by done.
  by apply segments_join.
Qed.

(** *** Percent decoding and segment boundaries *)

Ltac ascii_cases c := destruct c as [[] [] [] [] [] [] [] []].

Lemma hexdigit_not_slash c : is_ascii_hexdigit c = true → c ≠ slash.
Proof. ascii_cases c; vm_compute; congruence. Qed.

Lemma hexdigit_not_backslash c : is_ascii_hexdigit c = true → c ≠ backslash.
Proof. ascii_cases c; vm_compute; congruence. Qed.

Lemma unreserved_not_separator c : is_unreserved c = true → is_separator c = false.
Proof. ascii_cases c; vm_compute; congruence. Qed.

Lemma percent_decode_cons accept c s :
  percent_decode accept (c :: s) =
  match s with
  | h :: l :: s3 =>
      if (c =c percent) && is_ascii_hexdigit h && is_ascii_hexdigit l
         && accept (hex_byte h l)
      then hex_byte h l :: percent_decode accept s3
      else c :: percent_decode accept s
  | _ => c :: percent_decode accept s
  end.
Proof. done. Qed.

(** Decoding recurses three bytes at a time: the induction it needs. *)
Lemma str_ind3 (P : str → Prop) :
  P [] → (∀ c s, (∀ s', length s' ≤ length s → P s') → P (c :: s)) → ∀ s, P s.
Proof.
  intros Hnil Hcons s. assert (∀ n s, length s ≤ n → P s) as H; [|by eapply H].
  clear s. induction n as [|n IH]; intros [|c s]; simpl; intros; [done|lia|done|].
  apply Hcons. intros s' ?. apply IH. lia.
Qed.

Lemma percent_decode_app accept s x :
  no_slash s → slashy x →
  percent_decode accept (s ++ x) = percent_decode accept s ++ percent_decode accept x.
Proof.
  unfold no_slash. intros Hs Hx. revert Hs. induction s as [|c s IH] using str_ind3.
  { done. }
  intros Hs. rewrite <-app_comm_cons, !percent_decode_cons.
  destruct s as [|h [|l s]]; cbn [app].
  - destruct Hx as [->|[x' ->]]; [done|]. destruct x' as [|l x']; [done|].
    change (is_ascii_hexdigit slash) with false. by rewrite andb_false_r.
  - destruct Hx as [->|[x' ->]]; [done|].
    change (is_ascii_hexdigit slash) with false. rewrite andb_false_r. simpl andb. cbn iota.
    change (h :: slash :: x') with ([h] ++ slash :: x'). rewrite IH; [done|done|set_solver].
  - case_ifb.
    + rewrite IH; [done|simpl; lia|set_solver].
    + change (h :: l :: s ++ x) with ((h :: l :: s) ++ x). rewrite IH; [done|done|set_solver].
Qed.

Lemma percent_decode_slash accept x :
  percent_decode accept (slash :: x) = slash :: percent_decode accept x.
Proof. rewrite percent_decode_cons. by destruct x as [|h [|l x]]. Qed.

Lemma percent_decode_join accept segs :
  Forall no_slash segs →
  percent_decode accept (join_segs segs) = join_segs (percent_decode accept <$> segs).
Proof.
  induction 1 as [|s segs Hs _ IH]; [done|].
  rewrite fmap_cons, !join_segs_cons, percent_decode_slash, percent_decode_app, IH;
    auto with cox.
Qed.

Lemma decode_unreserved_sep_free c s :
  is_separator c = true → c ∉ s → c ∉ decode_unreserved s.
Proof.
  intros Hc. unfold decode_unreserved.
  induction s as [|d s IH] using str_ind3; [done|]. intros Hd.
  rewrite percent_decode_cons.
  assert (c ∉ d :: percent_decode is_unreserved s).
  { rewrite not_elem_of_cons in Hd |- *. destruct Hd. auto. }
  destruct s as [|h [|l s]]; [done|done|].
  destruct (_ && _ && _ && _) eqn:E; [|done].
  rewrite !andb_true_iff in E. destruct E as [_ E].
  apply unreserved_not_separator in E. rewrite not_elem_of_cons. split; [congruence|].
  apply IH; [simpl; lia|set_solver].
Qed.

Lemma decode_unreserved_no_slash s : no_slash s → no_slash (decode_unreserved s).
Proof. by apply decode_unreserved_sep_free. Qed.

Lemma percent_decode_id accept s : percent ∉ s → percent_decode accept s = s.
Proof.
  induction s as [|c s IH]; [done|]. rewrite not_elem_of_cons. intros [Hc Hs].
  rewrite percent_decode_cons. destruct (Ascii.eqb_spec c percent); [congruence|].
  destruct s as [|h [|l s]]; simpl andb; cbn iota; by rewrite IH.
Qed.

(** *** Backslashes *)

Lemma replace_backslash_no_backslash s : backslash ∉ replace_backslash s.
Proof.
  unfold replace_backslash. intros (c & Hc & _)%list_elem_of_fmap. by case_eqc.
Qed.

Lemma replace_backslash_id s : backslash ∉ s → replace_backslash s = s.
Proof.
  unfold replace_backslash. induction s as [|c s IH]; [done|].
  rewrite not_elem_of_cons. intros [Hc Hs]. rewrite fmap_cons, IH by done. by case_eqc.
Qed.

Lemma replace_backslash_if s :
  (if contains backslash s then replace_backslash s else s) = replace_backslash s.
Proof.
  destruct (contains backslash s) eqn:E; [done|].
  by rewrite replace_backslash_id by by apply contains_false.
Qed.

(** A byte map that fixes ['%'], the hex digits and the decoded bytes commutes
    with decoding. *)
Lemma percent_decode_fmap accept (f : ascii → ascii) s :
  (∀ c, (f c =c percent) = (c =c percent)) →
  (∀ c, is_ascii_hexdigit (f c) = is_ascii_hexdigit c) →
  (∀ c, is_ascii_hexdigit c = true → f c = c) →
  (∀ c, accept c = true → f c = c) →
  percent_decode accept (f <$> s) = f <$> percent_decode accept s.
Proof.
  intros Hp Hx Hfx Hfa. induction s as [|c s IH] using str_ind3; [done|].
  rewrite fmap_cons, !percent_decode_cons.
  destruct s as [|h [|l s]].
  - done.
  - done.
  - rewrite !fmap_cons, Hp, !Hx.
    destruct (is_ascii_hexdigit h) eqn:Hh, (is_ascii_hexdigit l) eqn:Hl;
      rewrite ?andb_false_r; simpl andb; cbn iota;
      [|rewrite <-!fmap_cons, IH by done; done..].
    rewrite (Hfx h), (Hfx l) by done. rewrite !andb_true_r.
    destruct (c =c percent), (accept (hex_byte h l)) eqn:Ha; simpl andb; cbn iota;
      rewrite fmap_cons;
      [rewrite IH by (simpl; lia); by rewrite Hfa|..];
      rewrite <-(Hfx h) at 1 by done; rewrite <-(Hfx l) at 1 by done;
      by rewrite <-!fmap_cons, IH by done.
Qed.

Lemma replace_decode_unreserved s :
  replace_backslash (decode_unreserved s) = decode_unreserved (replace_backslash s).
Proof.
  symmetry. apply percent_decode_fmap; intros c; ascii_cases c; by vm_compute.
Qed.

(** *** Slash merging *)

(** Merging drops the empty segments, except the last one. *)
Fixpoint merge_segs (segs : list str) : list str :=
  match segs with
  | [] => []
  | s :: rest =>
      match s, rest with
      | [], _ :: _ => merge_segs rest
      | _, _ => s :: merge_segs rest
      end
  end.

Definition inner_nonempty (segs : list str) : Prop := Forall (λ s, s ≠ []) (removelast segs).

Lemma merge_slashes_from_app p s x :
  no_slash s →
  merge_slashes_from p (s ++ x) =
  s ++ merge_slashes_from (match s with [] => p | _ => false end) x.
Proof.
  unfold no_slash. revert p. induction s as [|c s IH]; intros p Hs; simpl; [done|].
  case_eqc; [set_solver|]. rewrite IH by set_solver. by destruct s.
Qed.

Lemma merge_slashes_join segs :
  Forall no_slash segs → merge_slashes (join_segs segs) = join_segs (merge_segs segs).
Proof.
  unfold merge_slashes. induction 1 as [|s segs Hs _ IH]; [done|].
  rewrite join_segs_cons. cbn [merge_slashes_from].
  change (slash =c slash) with true. cbn iota. rewrite merge_slashes_from_app by done.
  destruct segs as [|t segs].
  - by destruct s.
  - destruct s as [|c s].
    + change (merge_segs ([] :: t :: segs)) with (merge_segs (t :: segs)). rewrite <-IH. by rewrite join_segs_cons.
    + change (merge_segs ((c :: s) :: t :: segs)) with ((c :: s) :: merge_segs (t :: segs)).
      rewrite (join_segs_cons (c :: s)), <-IH. done.
Qed.

Lemma merge_segs_elem s segs : s ∈ merge_segs segs → s ∈ segs.
Proof.
  induction segs as [|t segs IH]; [done|]. simpl. repeat case_match; set_solver.
Qed.

Lemma merge_segs_ne segs : segs ≠ [] → merge_segs segs ≠ [].
Proof.
  induction segs as [|t segs IH]; [done|]. intros _.
  simpl. destruct t, segs; try done. by apply IH.
Qed.

Lemma merge_segs_inner segs : inner_nonempty (merge_segs segs).
Proof.
  unfold inner_nonempty. induction segs as [|t segs IH]; [constructor|].
  destruct t as [|c t], segs as [|u segs]; [repeat constructor|done|repeat constructor|].
  change (merge_segs ((c :: t) :: u :: segs)) with ((c :: t) :: merge_segs (u :: segs)).
  pose proof (merge_segs_ne (u :: segs)). destruct (merge_segs (u :: segs)); [naive_solver|].
  by constructor.
Qed.

Lemma merge_segs_id segs : inner_nonempty segs → merge_segs segs = segs.
Proof.
  unfold inner_nonempty. induction segs as [|t segs IH]; [done|]. intros H.
  destruct segs as [|u segs]; [by destruct t|].
  inversion_clear H as [|?? Ht Hr]. destruct t; [done|].
  change (merge_segs ((a :: t) :: u :: segs)) with ((a :: t) :: merge_segs (u :: segs)).
  by rewrite IH.
Qed.

Lemma Forall_merge_segs (P : str → Prop) segs : Forall P segs → Forall P (merge_segs segs).
Proof. rewrite !Forall_forall. eauto using merge_segs_elem. Qed.

(** *** The pipeline on segments *)

(** What the pipeline computes, segment by segment. *)
Definition normal_segments (level : NormalizeLevel) (path : str) : list str :=
  let src := if decide (level = DecodeAndMergeSlashes)
             then decode_escaped_slashes path else path in
  let segs := resolve [] (decode_unreserved <$> segments (replace_backslash src)) in
  if level_merges level then merge_segs segs else segs.

Lemma absolute_fmap_slash f s : f slash = slash → absolute s → absolute (f <$> s).
Proof. intros Hf [r ->]. rewrite fmap_cons, Hf. by eexists. Qed.

Lemma absolute_percent_decode accept s : absolute s → absolute (percent_decode accept s).
Proof. intros [r ->]. rewrite percent_decode_slash. by eexists. Qed.

Lemma normalize_source_absolute level path :
  absolute path →
  absolute (replace_backslash (if decide (level = DecodeAndMergeSlashes)
                               then decode_escaped_slashes path else path)).
Proof.
  intros Ha. apply absolute_fmap_slash; [done|].
  case_decide; [by apply absolute_percent_decode|done].
Qed.

Lemma decode_unreserved_segments path :
  absolute path → segments (decode_unreserved path) = decode_unreserved <$> segments path.
Proof.
  intros Ha. rewrite <-(segments_join path Ha) at 1. unfold decode_unreserved.
  rewrite percent_decode_join by auto with cox. apply segments_join_segs.
  apply Forall_fmap. eapply Forall_impl; [apply segments_no_slash|].
  intros s. by apply decode_unreserved_no_slash.
Qed.

Lemma normal_segments_ne level path : absolute path → normal_segments level path ≠ [].
Proof.
  intros Ha. pose proof (normalize_source_absolute level path Ha) as Hs.
  unfold normal_segments.
  assert (resolve [] (decode_unreserved <$> segments (replace_backslash
    (if decide (level = DecodeAndMergeSlashes)
     then decode_escaped_slashes path else path))) ≠ []).
  { apply resolve_ne. intros Hn%fmap_nil_inv. by apply segments_ne in Hn. }
  case_ifb; [by apply merge_segs_ne|done].
Qed.

Lemma segments_char c s path : c ∈ s → s ∈ segments path → absolute path → c ∈ path.
Proof.
  intros Hc Hs Ha. rewrite <-(segments_join path Ha).
  apply list_elem_of_split in Hs as (l1 & l2 & ->).
  rewrite join_segs_app, join_segs_cons. set_solver.
Qed.

Lemma normal_segments_sep_free level path :
  absolute path → Forall (λ s, no_slash s ∧ backslash ∉ s) (normal_segments level path).
Proof.
  intros Ha. pose proof (normalize_source_absolute level path Ha) as Hs.
  unfold normal_segments.
  assert (Forall (λ s, no_slash s ∧ backslash ∉ s) (resolve []
    (decode_unreserved <$> segments (replace_backslash
    (if decide (level = DecodeAndMergeSlashes)
     then decode_escaped_slashes path else path))))) as Hf.
  { apply resolve_Forall; [by split; intros ?%elem_of_nil|constructor|].
    apply Forall_fmap, Forall_forall. intros s Hin. split.
    - apply decode_unreserved_no_slash. eapply Forall_forall; [|done].
      apply segments_no_slash.
    - apply decode_unreserved_sep_free; [done|]. intros Hb.
      eapply replace_backslash_no_backslash. by eapply segments_char. }
  case_ifb; [by apply Forall_merge_segs|done].
Qed.

Lemma normal_path_no_backslash level path :
  absolute path → backslash ∉ join_segs (normal_segments level path).
Proof.
  intros Ha. pose proof (normal_segments_sep_free level path Ha) as Hf.
  induction Hf as [|s segs [_ Hs] _ IH]; [set_solver|]. rewrite join_segs_cons. set_solver.
Qed.

Lemma normal_segments_dot_free level path : dot_free (normal_segments level path).
Proof.
  unfold normal_segments. set (segs := resolve _ _).
  assert (dot_free segs) by (apply resolve_dot_free; constructor).
  case_ifb; [by apply Forall_merge_segs|done].
Qed.

Lemma normal_segments_merged level path :
  level_merges level = true → inner_nonempty (normal_segments level path).
Proof. unfold normal_segments. intros ->. apply merge_segs_inner. Qed.

Lemma run_normalization_segments path level :
  absolute path → run_normalization path level = join_segs (normal_segments level path).
Proof.
  intros Ha. pose proof (normalize_source_absolute level path Ha) as Hs.
  unfold run_normalization, normal_segments.
  rewrite replace_backslash_if, replace_decode_unreserved.
  rewrite remove_dot_segments_abs, decode_unreserved_segments by
    (done || by apply absolute_percent_decode).
  case_ifb; [|done]. rewrite merge_slashes_join; [done|].
  apply resolve_Forall; auto with cox. apply Forall_fmap.
  eapply Forall_impl; [apply segments_no_slash|]. apply decode_unreserved_no_slash.
Qed.

Lemma segments_run_normalization path level :
  absolute path → segments (run_normalization path level) = normal_segments level path.
Proof.
  intros Ha. rewrite run_normalization_segments by done. apply segments_join_segs.
  eapply Forall_impl; [by apply normal_segments_sep_free|]. naive_solver.
Qed.

(** *** The pre-scan *)

Lemma needs_slow_path_cons c s level :
  needs_slow_path (c :: s) level = false →
  c ≠ percent ∧ c ≠ backslash ∧ needs_slow_path s level = false ∧
  (c = slash → head s ≠ Some dot ∧ (level_merges level = true → head s ≠ Some slash)).
Proof.
  cbn [needs_slow_path].
  destruct (Ascii.eqb_spec c percent), (Ascii.eqb_spec c backslash); try done.
  simpl orb. cbn iota. intros H.
  destruct s as [|d s]; [by split_and!|].
  destruct (Ascii.eqb_spec c slash); simpl andb in H; cbn iota in H; [|done].
  destruct (Ascii.eqb_spec d dot); simpl orb in H; cbn iota in H; [done|].
  destruct (level_merges level), (Ascii.eqb_spec d slash); simpl andb in H;
    cbn iota in H; try done;
    (split_and!; [done..|]); intros _; simpl; split; intros; congruence.
Qed.

Lemma needs_slow_path_chars s level :
  needs_slow_path s level = false → percent ∉ s ∧ backslash ∉ s.
Proof.
  induction s as [|c s IH]; [set_solver|].
  intros (? & ? & H & _)%needs_slow_path_cons. destruct (IH H). set_solver.
Qed.

Lemma needs_slow_path_suffix s x level :
  needs_slow_path (s ++ x) level = false → needs_slow_path x level = false.
Proof.
  induction s as [|c s IH]; [done|]. by intros (_ & _ & ? & _)%needs_slow_path_cons; auto.
Qed.

Lemma needs_slow_path_join segs level :
  needs_slow_path (join_segs segs) level = false →
  dot_free segs ∧ (level_merges level = true → inner_nonempty segs).
Proof.
  unfold dot_free, inner_nonempty.
  induction segs as [|s segs IH]; [by split; [constructor|intros; constructor]|].
  rewrite join_segs_cons. intros (_ & _ & Hr & Hs)%needs_slow_path_cons.
  destruct (Hs eq_refl) as [Hd Hm]. apply needs_slow_path_suffix in Hr.
  destruct (IH Hr) as [IH1 IH2]. split.
  - constructor; [|done]. split; intros ->; by apply Hd.
  - intros Hl. destruct segs as [|t segs]; [constructor|].
    constructor; [|by apply IH2]. intros ->. by apply Hm.
Qed.

Lemma needs_slow_path_exact path level :
  absolute path → needs_slow_path path level = false → run_normalization path level = path.
Proof.
  intros Ha Hn. rewrite run_normalization_segments by done.
  destruct (needs_slow_path_chars _ _ Hn) as [Hp Hb].
  rewrite <-(segments_join path Ha) in Hn at 1.
  apply needs_slow_path_join in Hn as [Hd Hm]. unfold normal_segments.
  assert ((if decide (level = DecodeAndMergeSlashes)
           then decode_escaped_slashes path else path) = path) as ->.
  { case_decide; [by apply percent_decode_id|done]. }
  rewrite replace_backslash_id by done.
  rewrite <-decode_unreserved_segments by done. unfold decode_unreserved.
  rewrite percent_decode_id, resolve_id by done. simpl app.
  case_ifb; [rewrite merge_segs_id by auto|]; by apply segments_join.
Qed.

Lemma apply_run level path :
  absolute path → cow_str (apply level path) = run_normalization path level.
Proof.
  intros Ha. unfold apply. destruct (needs_slow_path path level) eqn:E; simpl.
  - by case_decide.
  - symmetry. by apply needs_slow_path_exact.
Qed.

(** ** Correctness *)

(** A canonical path for a level: absolute, with no dot segment and no
    backslash, and, at the merging levels, no empty segment but a last one. *)
Definition canonical (level : NormalizeLevel) (path : str) : Prop :=
  absolute path ∧ dot_free (segments path) ∧ backslash ∉ path ∧
  (level_merges level = true → inner_nonempty (segments path)).

(** C27: the path handed to route matching and to the upstream is the segment
    specification of the level applied to the request path: separators are
    fixed before unreserved bytes are decoded, dot segments are resolved on a
    stack, and empty segments are dropped at the merging levels.  In particular
    the pre-scan that skips the pipeline never changes the result. *)
Theorem apply_refines_segments level path :
  absolute path →
  cow_str (apply level path) = join_segs (normal_segments level path).
Proof. intros Ha. by rewrite apply_run, run_normalization_segments. Qed.

Lemma apply_refines_segments_witness :
  absolute (lit "/a/%2e%2E/b\..//c") ∧
  cow_str (apply Base (lit "/a/%2e%2E/b\..//c")) =
  join_segs (normal_segments Base (lit "/a/%2e%2E/b\..//c")).
Proof. split; [by eexists|]. apply apply_refines_segments. by eexists. Defined.

(** Whatever absolute path a client sends, the normalized path is canonical
    for the level: no dot segment reaches the router or the upstream. *)
Theorem apply_canonical level path :
  absolute path → canonical level (cow_str (apply level path)).
Proof.
  intros Ha. rewrite apply_run by done. unfold canonical.
  rewrite segments_run_normalization, run_normalization_segments by done.
  split_and!.
  - apply absolute_join. by apply normal_segments_ne.
  - apply normal_segments_dot_free.
  - by apply normal_path_no_backslash.
  - apply normal_segments_merged.
Qed.

Lemma apply_canonical_witness :
  absolute (lit "/a/%2e%2e/../../etc") ∧
  canonical Base (cow_str (apply Base (lit "/a/%2e%2e/../../etc"))).
Proof. split; [by eexists|]. apply apply_canonical. by eexists. Defined.

(** The result is borrowed exactly when normalization leaves the path
    alone. *)
Theorem apply_borrowed_iff level path :
  absolute path →
  (apply level path = Borrowed path ↔ run_normalization path level = path).
Proof.
  intros Ha. unfold apply. destruct (needs_slow_path path level) eqn:E; simpl.
  - by case_decide.
  - split; [|done]. intros _. by apply needs_slow_path_exact.
Qed.

Lemma apply_borrowed_iff_witness :
  absolute (lit "/foo/.bar") ∧
  (apply Base (lit "/foo/.bar") = Borrowed (lit "/foo/.bar") ↔
   run_normalization (lit "/foo/.bar") Base = lit "/foo/.bar").
Proof. split; [by eexists|]. apply apply_borrowed_iff. by eexists. Defined.

(** Every iteration consumes input, on any path, absolute or not. *)
Lemma remove_dot_step_shrinks out input out' input' :
  input ≠ [] → remove_dot_step out input = Some (out', input') →
  length input' < length input.
Proof.
  intros Hne. unfold remove_dot_step.
  destruct (strip_prefix (lit "../") input) as [r|] eqn:E1.
  { apply strip_prefix_Some in E1 as ->. intros [= <- <-]. simpl. lia. }
  destruct (strip_prefix (lit "./") input) as [r|] eqn:E2.
  { apply strip_prefix_Some in E2 as ->. intros [= <- <-]. simpl. lia. }
  destruct input as [|c rest]; [done|].
  assert (∀ n, 0 < n → length (drop n (c :: rest)) < length (c :: rest)) as Hdrop.
  { intros n Hn. rewrite length_drop. simpl. lia. }
  case_ifb; [intros [= <- <-]; apply (Hdrop 2); lia|].
  destruct (decide (_ = lit "/.")) as [->|_]; [intros [= <- <-]; simpl; lia|].
  case_ifb; [intros [= <- <-]; apply (Hdrop 3); lia|].
  destruct (decide (_ = lit "/..")) as [->|_]; [intros [= <- <-]; simpl; lia|].
  case_decide; [done|]. intros [= <- <-]. apply Hdrop.
  destruct (c =c slash), (find_char slash rest); simpl; lia.
Qed.

(** C38: the dot-segment loop terminates on every input: as many iterations as
    the input has bytes always suffice, so [remove_dot_segments] never takes
    its out-of-fuel branch. *)
Theorem remove_dot_loop_terminates path :
  ∃ out, remove_dot_loop (length path) [] path = Some out.
Proof.
  assert (∀ fuel out input, length input ≤ fuel →
            ∃ out', remove_dot_loop fuel out input = Some out') as H; [|by apply H].
  induction fuel as [|fuel IH]; intros out [|c input] Hlen; try by eexists.
  { simpl in Hlen. lia. }
  cbn [remove_dot_loop].
  destruct (remove_dot_step out (c :: input)) as [[out' input']|] eqn:E; [|by eexists].
  apply remove_dot_step_shrinks in E; [|done]. apply IH. simpl in *. lia.
Qed.

(** Decoding unreserved bytes never moves a segment boundary: ["%2F"] and
    ["%5C"] stay encoded, so the segments of the decoded path are the decoded
    segments of the path. *)
Theorem decode_unreserved_keeps_boundaries path :
  absolute path →
  segments (decode_unreserved path) = decode_unreserved <$> segments path ∧
  (∀ s, s ∈ segments path → no_slash (decode_unreserved s)).
Proof.
  intros Ha. split; [by apply decode_unreserved_segments|].
  intros s Hs. apply decode_unreserved_no_slash. eapply Forall_forall; [|done].
  apply segments_no_slash.
Qed.

Lemma decode_unreserved_keeps_boundaries_witness :
  segments (decode_unreserved (lit "/a%2Fb/%41")) =
  decode_unreserved <$> segments (lit "/a%2Fb/%41").
Proof. apply decode_unreserved_keeps_boundaries. by eexists. Defined.

(** A normalized path without a percent sign is a fixed point of
    normalization. *)
Theorem apply_idempotent level path :
  absolute path → percent ∉ cow_str (apply level path) →
  apply level (cow_str (apply level path)) = Borrowed (cow_str (apply level path)).
Proof.
  intros Ha. rewrite apply_run by done.
  pose proof (segments_run_normalization path level Ha) as Hseg.
  pose proof (run_normalization_segments path level Ha) as Hrun.
  set (q := run_normalization path level) in *. intros Hp.
  assert (absolute q) as Hq.
  { rewrite Hrun. by apply absolute_join, normal_segments_ne. }
  assert (backslash ∉ q) as Hb by (rewrite Hrun; by apply normal_path_no_backslash).
  assert (run_normalization q level = q) as Hfix.
  { rewrite run_normalization_segments by done. unfold normal_segments.
    assert ((if decide (level = DecodeAndMergeSlashes)
             then decode_escaped_slashes q else q) = q) as ->.
    { case_decide; [by apply percent_decode_id|done]. }
    rewrite replace_backslash_id, <-decode_unreserved_segments by done.
    unfold decode_unreserved. rewrite percent_decode_id, Hseg by done.
    rewrite resolve_id by apply normal_segments_dot_free. simpl app. rewrite Hrun.
    case_ifb; [rewrite merge_segs_id by by apply normal_segments_merged|]; done. }
  unfold apply. rewrite Hfix. case_ifb; [done|]. by rewrite decide_True.
Qed.

Lemma apply_idempotent_witness :
  apply MergeSlashes (cow_str (apply MergeSlashes (lit "//api//v1"))) =
  Borrowed (cow_str (apply MergeSlashes (lit "//api//v1"))).
Proof. apply apply_idempotent; [by eexists|]. vm_compute. set_solver. Defined.

(** The percent sign matters.  A client can hide an encoded dot segment or
    separator behind an encoded hex digit: the first pass decodes the digit and
    leaves a valid ["%2e"] (or, at the decoding level, ["%2F"]) in the path that
    is matched and forwarded, and only a second pass would resolve it. *)
Theorem apply_not_idempotent :
  (∃ path, absolute path ∧
     cow_str (apply Base path) = lit "/public/%2e%2e/admin" ∧
     cow_str (apply Base (cow_str (apply Base path))) = lit "/admin") ∧
  (∃ path, absolute path ∧
     cow_str (apply DecodeAndMergeSlashes path) = lit "/public%2Fadmin" ∧
     cow_str (apply DecodeAndMergeSlashes (cow_str (apply DecodeAndMergeSlashes path)))
       = lit "/public/admin").
Proof.
  split.
  - exists (lit "/public/%2%65%2%65/admin"). split; [by eexists|]. by vm_compute.
  - exists (lit "/public%2%46admin"). split; [by eexists|]. by vm_compute.
Qed.
