(* ===== verification/Net.v ===== *)
(** * Addresses and resolved endpoints

    The address types of [std::net] the routing code stores and hashes, and the
    endpoint-resource model of [crates/coxswain-core/src/endpoints.rs]. *)

From S2P Require Import Prelude.

(** [std::net::IpAddr]: the address as an unsigned 32- or 128-bit integer. *)
Inductive IpAddr :=
| V4 (bits : Z)
| V6 (bits : Z).

(** [std::net::SocketAddr] *)
Record SocketAddr := mkSocketAddr { sa_ip : IpAddr; sa_port : Z }.

#[export] Instance IpAddr_eq_dec : EqDecision IpAddr.
Proof. solve_decision. Defined.

#[export] Instance SocketAddr_eq_dec : EqDecision SocketAddr.
Proof. solve_decision. Defined.

(** The [n] low bytes of [z], most significant first ([to_be_bytes]). *)
Fixpoint be_bytes (n : nat) (z : Z) : list Z :=
  match n with
  | 0 => []
  | S n' => be_bytes n' (Z.shiftr z 8) ++ [Z.land z 255]
  end.

(** [Ipv4Addr::octets] / [Ipv6Addr::octets] *)
Definition octets (ip : IpAddr) : list Z :=
  match ip with
  | V4 z => be_bytes 4 z
  | V6 z => be_bytes 16 z
  end.

(** ** Endpoint resources *)

(** [BackendProtocol] of [routing/common/upstream_tls.rs] *)
Inductive BackendProtocol := Http1 | H2c | WebSocket.

#[export] Instance BackendProtocol_eq_dec : EqDecision BackendProtocol.
Proof. solve_decision. Defined.

Record EndpointKey := mkEndpointKey {
  ek_namespace : str;
  ek_service : str;
  ek_port : Z;
}.

#[export] Instance EndpointKey_eq_dec : EqDecision EndpointKey.
Proof. solve_decision. Defined.

Record ResolvedEndpoints := mkResolvedEndpoints {
  re_addrs : list SocketAddr;
  re_app_protocol : BackendProtocol;
  re_service_exists : bool;
}.

Definition ResolvedEndpoints_empty : ResolvedEndpoints := mkResolvedEndpoints [] Http1 false.

(** Status of a route whose backend group resolved to no routable endpoint. *)
Definition empty_group_status (has_valid_empty : bool) : Z :=
  if has_valid_empty then 503 else 500.
