(* ===== verification/Backend.v ===== *)
(** * Upstream backend selection and load balancing

    Models [crates/coxswain-core/src/routing/common/backend.rs]: the weighted
    [BackendGroup] with its two-level round robin, the load-balancing
    algorithms, and sticky sessions.  Every atomic is a field of the group and
    every operation threads the group; a Rust panic (a failed [assert!], an
    index out of bounds, a remainder by zero) is [None] of the outer option.
    [usize] is 64 bits wide. *)

From S2P Require Import Prelude Net.

(** ** Hashing *)

Definition FNV_OFFSET : Z := 14695981039346656037.
Definition FNV_PRIME : Z := 1099511628211.

Definition fnv_byte (hash b : Z) : Z := wrap 64 (Z.lxor hash b * FNV_PRIME).

Definition affinity_hash_parts (parts : list (list Z)) : Z :=
  foldl (λ hash part, foldl fnv_byte hash part) FNV_OFFSET parts.

Definition affinity_hash (bytes : list Z) : Z := affinity_hash_parts [bytes].

(** The stack buffer: family tag, octets, big-endian port. *)
Definition affinity_token (addr : SocketAddr) : Z :=
  affinity_hash (match sa_ip addr with V4 _ => 4 | V6 _ => 6 end ::
                 octets (sa_ip addr) ++ be_bytes 2 (sa_port addr))%Z.

Definition rotate_left_64 (z n : Z) : Z :=
  wrap 64 (Z.lor (Z.shiftl z n) (Z.shiftr z (64 - n))).

(** The SplitMix64 finalizer over the key and the rotated token. *)
Definition rendezvous_score (key_hash token : Z) : Z :=
  let z := Z.lxor key_hash (rotate_left_64 token 32) in
  let z := wrap 64 (Z.lxor z (Z.shiftr z 30) * 13787848793156543929) in
  let z := wrap 64 (Z.lxor z (Z.shiftr z 27) * 10723151780598845931) in
  Z.lxor z (Z.shiftr z 31).

(** ** Weight reduction *)

(** Euclid's recursion on [u16]; the fuel [b] bounds its depth. *)
Fixpoint gcd_fuel (fuel : nat) (a b : Z) : Z :=
  if (b =? 0)%Z then a
  else match fuel with
       | 0 => a
       | S fuel => gcd_fuel fuel b (a mod b)%Z
       end.

Definition gcd (a b : Z) : Z := gcd_fuel (Z.to_nat b) a b.

Definition gcd_reduce (weights : list Z) : list Z :=
  let g := foldl gcd 0%Z weights in
  if (g <=? 1)%Z then weights else (λ w, w / g)%Z <$> weights.

(** ** Load-balancing selectors *)

Inductive HashSource :=
| HsUri
| HsSourceIp
| HsHeader (name : str)
| HsCookie (name : str).

Inductive LoadBalance :=
| RoundRobin
| LeastConn
| Ewma
| Hash (source : HashSource).

Inductive LoadBalanceParseError :=
| UnknownValue
| EmptyHeaderName
| InvalidHeaderName
| EmptyCookieName
| UnknownHashAttr.

#[export] Instance HashSource_eq_dec : EqDecision HashSource.
Proof. solve_decision. Defined.

#[export] Instance LoadBalance_eq_dec : EqDecision LoadBalance.
Proof. solve_decision. Defined.

Section parse.
(** [http::HeaderName::from_bytes]: the canonical name, or an error. *)
Context (header_from_bytes : str → option str).

Definition parse_hash_attribute (attr : str) : result LoadBalance LoadBalanceParseError :=
  if decide (attr = lit "uri") then Ok (Hash HsUri)
  else if decide (attr = lit "source-ip") then Ok (Hash HsSourceIp)
  else match strip_prefix (lit "header=") attr with
  | Some name =>
      if decide (name = []) then Err EmptyHeaderName
      else match header_from_bytes name with
           | Some h => Ok (Hash (HsHeader h))
           | None => Err InvalidHeaderName
           end
  | None =>
  match strip_prefix (lit "cookie=") attr with
  | Some name =>
      if decide (name = []) then Err EmptyCookieName
      else Ok (Hash (HsCookie name))
  | None => Err UnknownHashAttr
  end end.

Definition parse_lenient (s : str) : result LoadBalance LoadBalanceParseError :=
  if decide (s = lit "round_robin") then Ok RoundRobin
  else if decide (s = lit "least_conn") then Ok LeastConn
  else if decide (s = lit "ewma") then Ok Ewma
  else if decide (s = lit "ip_hash") then Ok (Hash HsSourceIp)
  else match strip_prefix (lit "hash:") s with
       | Some attr => parse_hash_attribute attr
       | None => Err UnknownValue
       end.
End parse.

(** ** The group *)

Inductive SessionAffinity :=
| SaCookie (cookie_name : str)
| SaHeader (header : str).

Record WeightedBackendSpec := mkWeightedBackendSpec {
  wb_resolved : ResolvedEndpoints;
  wb_key : option EndpointKey;
  wb_weight : Z;
}.

Record AffinityEndpoint := mkAffinityEndpoint {
  ae_addr : SocketAddr;
  ae_token : Z;
  ae_backend_idx : Z;
}.

Record LbEndpoint := mkLbEndpoint {
  lb_addr : SocketAddr;
  lb_backend_idx : Z;
  lb_token : Z;
  lb_active : Z;
  lb_ewma_ns : Z;
}.

(** One backend service's pods with a round-robin counter. *)
Record BackendPool := mkBackendPool {
  bp_addrs : list SocketAddr;
  bp_rr : Z;
}.

(** [BackendPool::new] asserts that the list is not empty. *)
Definition BackendPool_new (addrs : list SocketAddr) : option BackendPool :=
  match addrs with
  | [] => None
  | _ => Some (mkBackendPool addrs 0)
  end.

(** [counter.fetch_add(1) % len], then the index. *)
Definition BackendPool_next (p : BackendPool) : option (SocketAddr * BackendPool) :=
  if decide (bp_addrs p = []) then None
  else
    a ← bp_addrs p !! Z.to_nat (bp_rr p mod Z.of_nat (length (bp_addrs p)))%Z;
    Some (a, mkBackendPool (bp_addrs p) (wrap 64 (bp_rr p + 1))).

(** [RetryPolicyConfig] of [routing/common/retry.rs] *)
Record RetryPolicyConfig := mkRetryPolicyConfig {
  rp_attempts : Z;
  rp_backoff : option Z;
  rp_http_codes : list Z;
  rp_grpc_codes : list Z;
}.

Definition RetryPolicyConfig_default : RetryPolicyConfig := mkRetryPolicyConfig 0 None [] [].

Section group.
(** The filter actions and the TLS settings a group carries; selection only
    clones them. *)
Context {FilterAction UpstreamTls : Type}.

Record BackendGroup := mkBackendGroup {
  bg_name : str;
  bg_spec : list WeightedBackendSpec;
  bg_backends : list BackendPool;
  bg_slots : list Z;
  bg_slot_counter : Z;
  bg_addrs_snapshot : list SocketAddr;
  bg_protocol : BackendProtocol;
  bg_tls : option UpstreamTls;
  bg_retry : RetryPolicyConfig;
  bg_per_backend_filters : option (list (option (list FilterAction)));
  bg_session_affinity : option SessionAffinity;
  bg_affinity_endpoints : option (list AffinityEndpoint);
  bg_keepalive_timeout : option Z;
  bg_connect_timeout : option Z;
  bg_load_balance : LoadBalance;
  bg_lb_endpoints : option (list LbEndpoint);
}.

(** The mutable part: pools with their counters, the slot counter, and the
    per-endpoint accounting. *)
Definition with_state (g : BackendGroup) (backends : list BackendPool)
    (slot_counter : Z) (lb_endpoints : option (list LbEndpoint)) : BackendGroup :=
  mkBackendGroup (bg_name g) (bg_spec g) backends (bg_slots g) slot_counter
    (bg_addrs_snapshot g) (bg_protocol g) (bg_tls g) (bg_retry g)
    (bg_per_backend_filters g) (bg_session_affinity g) (bg_affinity_endpoints g)
    (bg_keepalive_timeout g) (bg_connect_timeout g) (bg_load_balance g) lb_endpoints.

Definition empty_with_spec (name : str) (spec : list WeightedBackendSpec) : BackendGroup :=
  mkBackendGroup name spec [] [] 0 [] Http1 None RetryPolicyConfig_default
    None None None None None RoundRobin None.

(** [for (idx, &w) in reduced.iter().enumerate() { for _ in 0..w { push(idx as u16) } }] *)
Definition slots_of (reduced : list Z) : list Z :=
  mjoin (imap (λ idx w, replicate (Z.to_nat w) (wrap 16 (Z.of_nat idx))) reduced).

Definition from_pools (name : str) (spec : list WeightedBackendSpec)
    (pools : list (list SocketAddr * Z)) : option BackendGroup :=
  match pools with
  | [] => Some (empty_with_spec name spec)
  | _ =>
      let reduced := gcd_reduce (pools.*2) in
      backends ← mapM BackendPool_new (pools.*1);
      Some (mkBackendGroup name spec backends (slots_of reduced) 0 (mjoin (pools.*1))
              Http1 None RetryPolicyConfig_default None None None None None RoundRobin None)
  end.

Definition retained (e : ResolvedEndpoints * option EndpointKey * Z) : bool :=
  let '(resolved, key, w) := e in
  (0 <? w)%Z && (negb (bool_decide (re_addrs resolved = [])) || bool_decide (is_Some key)).

Definition weighted_with_endpoints (name : str)
    (entries : list (ResolvedEndpoints * option EndpointKey * Z)) : option BackendGroup :=
  let spec_entries :=
    (λ '(resolved, key, weight), mkWeightedBackendSpec resolved key weight)
      <$> List.filter retained entries in
  let pools :=
    (λ wb, (re_addrs (wb_resolved wb), wb_weight wb))
      <$> List.filter (λ wb, negb (bool_decide (re_addrs (wb_resolved wb) = []))) spec_entries in
  from_pools name spec_entries pools.

Definition BackendGroup_weighted (name : str) (weighted : list (list SocketAddr * Z)) :
    option BackendGroup :=
  weighted_with_endpoints name
    ((λ '(addrs, w), (mkResolvedEndpoints addrs Http1 true, None, w)) <$> weighted).

Definition BackendGroup_new (name : str) (endpoints : list SocketAddr) : option BackendGroup :=
  weighted_with_endpoints name [(mkResolvedEndpoints endpoints Http1 true, None, 1%Z)].

(** *** Builder-style configuration *)

(** Every pooled endpoint with the index of its pool, as [u16]. *)
Definition pooled (backends : list BackendPool) : list (Z * SocketAddr) :=
  mjoin (imap (λ idx pool, (λ a, (wrap 16 (Z.of_nat idx), a)) <$> bp_addrs pool) backends).

Definition with_load_balance (lb : LoadBalance) (g : BackendGroup) : BackendGroup :=
  let index :=
    (λ '(idx, addr), mkLbEndpoint addr idx (affinity_token addr) 0 0) <$> pooled (bg_backends g) in
  mkBackendGroup (bg_name g) (bg_spec g) (bg_backends g) (bg_slots g) (bg_slot_counter g)
    (bg_addrs_snapshot g) (bg_protocol g) (bg_tls g) (bg_retry g)
    (bg_per_backend_filters g) (bg_session_affinity g) (bg_affinity_endpoints g)
    (bg_keepalive_timeout g) (bg_connect_timeout g) lb
    (if decide (lb = RoundRobin) then None
     else match index with [] => None | _ => Some index end).

Definition with_protocol (protocol : BackendProtocol) (g : BackendGroup) : BackendGroup :=
  mkBackendGroup (bg_name g) (bg_spec g) (bg_backends g) (bg_slots g) (bg_slot_counter g)
    (bg_addrs_snapshot g) protocol (bg_tls g) (bg_retry g)
    (bg_per_backend_filters g) (bg_session_affinity g) (bg_affinity_endpoints g)
    (bg_keepalive_timeout g) (bg_connect_timeout g) (bg_load_balance g) (bg_lb_endpoints g).

Definition with_tls (tls : UpstreamTls) (g : BackendGroup) : BackendGroup :=
  mkBackendGroup (bg_name g) (bg_spec g) (bg_backends g) (bg_slots g) (bg_slot_counter g)
    (bg_addrs_snapshot g) (bg_protocol g) (Some tls) (bg_retry g)
    (bg_per_backend_filters g) (bg_session_affinity g) (bg_affinity_endpoints g)
    (bg_keepalive_timeout g) (bg_connect_timeout g) (bg_load_balance g) (bg_lb_endpoints g).

Definition with_retries (retry : RetryPolicyConfig) (g : BackendGroup) : BackendGroup :=
  mkBackendGroup (bg_name g) (bg_spec g) (bg_backends g) (bg_slots g) (bg_slot_counter g)
    (bg_addrs_snapshot g) (bg_protocol g) (bg_tls g) retry
    (bg_per_backend_filters g) (bg_session_affinity g) (bg_affinity_endpoints g)
    (bg_keepalive_timeout g) (bg_connect_timeout g) (bg_load_balance g) (bg_lb_endpoints g).

Definition with_keepalive_timeout (timeout : option Z) (g : BackendGroup) : BackendGroup :=
  mkBackendGroup (bg_name g) (bg_spec g) (bg_backends g) (bg_slots g) (bg_slot_counter g)
    (bg_addrs_snapshot g) (bg_protocol g) (bg_tls g) (bg_retry g)
    (bg_per_backend_filters g) (bg_session_affinity g) (bg_affinity_endpoints g)
    timeout (bg_connect_timeout g) (bg_load_balance g) (bg_lb_endpoints g).

Definition with_connect_timeout (timeout : option Z) (g : BackendGroup) : BackendGroup :=
  mkBackendGroup (bg_name g) (bg_spec g) (bg_backends g) (bg_slots g) (bg_slot_counter g)
    (bg_addrs_snapshot g) (bg_protocol g) (bg_tls g) (bg_retry g)
    (bg_per_backend_filters g) (bg_session_affinity g) (bg_affinity_endpoints g)
    (bg_keepalive_timeout g) timeout (bg_load_balance g) (bg_lb_endpoints g).

Definition hash_by (g : BackendGroup) : option HashSource :=
  match bg_load_balance g with Hash source => Some source | _ => None end.

(** Release-mode behaviour: a length mismatch leaves the group unchanged. *)
Definition with_per_backend_filters (per_backend : list (list FilterAction))
    (g : BackendGroup) : BackendGroup :=
  let set v :=
    mkBackendGroup (bg_name g) (bg_spec g) (bg_backends g) (bg_slots g) (bg_slot_counter g)
      (bg_addrs_snapshot g) (bg_protocol g) (bg_tls g) (bg_retry g)
      v (bg_session_affinity g) (bg_affinity_endpoints g)
      (bg_keepalive_timeout g) (bg_connect_timeout g) (bg_load_balance g) (bg_lb_endpoints g) in
  if decide (length per_backend ≠ length (bg_backends g)) then g
  else if existsb (λ f, match f with [] => false | _ => true end) per_backend
  then set (Some ((λ f, match f with [] => None | _ => Some f end) <$> per_backend))
  else set None.

Definition with_session_affinity (affinity : option SessionAffinity)
    (g : BackendGroup) : BackendGroup :=
  let set cfg index :=
    mkBackendGroup (bg_name g) (bg_spec g) (bg_backends g) (bg_slots g) (bg_slot_counter g)
      (bg_addrs_snapshot g) (bg_protocol g) (bg_tls g) (bg_retry g)
      (bg_per_backend_filters g) cfg index
      (bg_keepalive_timeout g) (bg_connect_timeout g) (bg_load_balance g) (bg_lb_endpoints g) in
  match affinity with
  | None => set None None
  | Some cfg =>
      set (Some cfg)
        (Some ((λ '(idx, addr), mkAffinityEndpoint addr (affinity_token addr) idx)
                 <$> pooled (bg_backends g)))
  end.

(** *** Lookups *)

(** [all.get(idx).cloned().flatten()] *)
Definition filters_for_backend (g : BackendGroup) (backend_idx : nat) :
    option (list FilterAction) :=
  all ← bg_per_backend_filters g; mjoin (all !! backend_idx).

Definition endpoint_by_token (g : BackendGroup) (token : Z) :
    option (SocketAddr * option (list FilterAction)) :=
  index ← bg_affinity_endpoints g;
  e ← find_first (λ e, (ae_token e =? token)%Z) index;
  Some (ae_addr e, filters_for_backend g (Z.to_nat (ae_backend_idx e))).

Definition endpoint_by_hash (g : BackendGroup) (key_hash : Z) :
    option (SocketAddr * option (list FilterAction)) :=
  index ← bg_affinity_endpoints g;
  e ← max_by_key (λ e, rendezvous_score key_hash (ae_token e)) index;
  Some (ae_addr e, filters_for_backend g (Z.to_nat (ae_backend_idx e))).

Definition filters_for_endpoint (g : BackendGroup) (addr : SocketAddr) :
    option (list FilterAction) :=
  index ← bg_affinity_endpoints g;
  e ← find_first (λ e, bool_decide (ae_addr e = addr)) index;
  filters_for_backend g (Z.to_nat (ae_backend_idx e)).

(** *** Selection *)

Definition next_endpoint_with_filters (g : BackendGroup) :
    option (option (SocketAddr * option (list FilterAction)) * BackendGroup) :=
  if decide (bg_slots g = []) then Some (None, g)
  else
    let slot := (bg_slot_counter g mod Z.of_nat (length (bg_slots g)))%Z in
    b ← bg_slots g !! Z.to_nat slot;
    let backend_idx := Z.to_nat b in
    pool ← bg_backends g !! backend_idx;
    '(addr, pool') ← BackendPool_next pool;
    Some (Some (addr, filters_for_backend g backend_idx),
          with_state g (<[backend_idx := pool']> (bg_backends g))
            (wrap 64 (bg_slot_counter g + 1)) (bg_lb_endpoints g)).

Definition next_endpoint (g : BackendGroup) : option (option SocketAddr * BackendGroup) :=
  match next_endpoint_with_filters g with
  | None => None
  | Some (r, g') => Some (fst <$> r, g')
  end.

Record Selected := mkSelected {
  sel_addr : SocketAddr;
  sel_filters : option (list FilterAction);
  sel_track : option Z;
}.

Definition select_round_robin (g : BackendGroup) : option (option Selected * BackendGroup) :=
  match next_endpoint_with_filters g with
  | None => None
  | Some (r, g') => Some ((λ '(addr, filters), mkSelected addr filters None) <$> r, g')
  end.

Definition set_active (e : LbEndpoint) (active : Z) : LbEndpoint :=
  mkLbEndpoint (lb_addr e) (lb_backend_idx e) (lb_token e) active (lb_ewma_ns e).

Definition set_ewma (e : LbEndpoint) (ewma_ns : Z) : LbEndpoint :=
  mkLbEndpoint (lb_addr e) (lb_backend_idx e) (lb_token e) (lb_active e) ewma_ns.

Definition enumerate {A} (l : list A) : list (nat * A) := imap pair l.

Definition select_upstream (hash_key : option Z) (g : BackendGroup) :
    option (option Selected * BackendGroup) :=
  match bg_load_balance g with
  | RoundRobin => select_round_robin g
  | Hash _ =>
      match bg_lb_endpoints g with
      | None => Some (None, g)
      | Some eps =>
          match hash_key with
          | None => select_round_robin g
          | Some key =>
              Some ((λ ep, mkSelected (lb_addr ep)
                             (filters_for_backend g (Z.to_nat (lb_backend_idx ep))) None)
                      <$> max_by_key (λ e, rendezvous_score key (lb_token e)) eps, g)
          end
      end
  | LeastConn =>
      match bg_lb_endpoints g with
      | None => Some (None, g)
      | Some eps =>
          match min_by_key (λ '(_, e), lb_active e) (enumerate eps) with
          | None => Some (None, g)
          | Some (idx, ep) =>
              Some (Some (mkSelected (lb_addr ep)
                            (filters_for_backend g (Z.to_nat (lb_backend_idx ep)))
                            (Some (wrap 32 (Z.of_nat idx)))),
                    with_state g (bg_backends g) (bg_slot_counter g)
                      (Some (<[idx := set_active ep (wrap 32 (lb_active ep + 1))]> eps)))
          end
      end
  | Ewma =>
      match bg_lb_endpoints g with
      | None => Some (None, g)
      | Some eps =>
          Some ((λ '(idx, ep), mkSelected (lb_addr ep)
                   (filters_for_backend g (Z.to_nat (lb_backend_idx ep)))
                   (Some (wrap 32 (Z.of_nat idx))))
                  <$> min_by_key (λ '(_, e), lb_ewma_ns e) (enumerate eps), g)
      end
  end.

(** [fetch_sub(1)] on the endpoint's active counter. *)
Definition dec_active (eps : list LbEndpoint) (idx : nat) : list LbEndpoint :=
  alter (λ e, set_active e (wrap 32 (lb_active e - 1))) idx eps.

Definition release (idx : Z) (g : BackendGroup) : BackendGroup :=
  match bg_lb_endpoints g with
  | None => g
  | Some eps =>
      match eps !! Z.to_nat idx, bg_load_balance g with
      | Some _, LeastConn =>
          with_state g (bg_backends g) (bg_slot_counter g) (Some (dec_active eps (Z.to_nat idx)))
      | _, _ => g
      end
  end.

(** The EWMA fold, [alpha = 1/8], on a sample clamped to [u64]. *)
Definition ewma_fold (old elapsed_ns : Z) : Z :=
  let sample := Z.min elapsed_ns u64_max in
  if (old =? 0)%Z then sample
  else saturating_add u64_max (saturating_sub old (old / 8)) (sample / 8).

Definition complete (idx : Z) (elapsed : option Z) (g : BackendGroup) : BackendGroup :=
  match bg_lb_endpoints g with
  | None => g
  | Some eps =>
      match eps !! Z.to_nat idx with
      | None => g
      | Some _ =>
          match bg_load_balance g, elapsed with
          | LeastConn, _ =>
              with_state g (bg_backends g) (bg_slot_counter g)
                (Some (dec_active eps (Z.to_nat idx)))
          | Ewma, Some d =>
              with_state g (bg_backends g) (bg_slot_counter g)
                (Some (alter (λ e, set_ewma e (ewma_fold (lb_ewma_ns e) d)) (Z.to_nat idx) eps))
          | _, _ => g
          end
      end
  end.

Definition endpoints (g : BackendGroup) : list SocketAddr := bg_addrs_snapshot g.

(** *** Well-formed groups *)

Definition pool_wf (p : BackendPool) : Prop := bp_addrs p ≠ [] ∧ (0 ≤ bp_rr p < 2 ^ 64)%Z.

(** [(idx, addr)] pairs of an index agree with the pools and tokens with the
    addresses. *)
Definition lb_index_wf (backends : list BackendPool) (eps : list LbEndpoint) : Prop :=
  (λ e, (lb_backend_idx e, lb_addr e)) <$> eps = pooled backends ∧
  Forall (λ e, lb_token e = affinity_token (lb_addr e)) eps.

Definition affinity_index_wf (backends : list BackendPool) (eps : list AffinityEndpoint) : Prop :=
  (λ e, (ae_backend_idx e, ae_addr e)) <$> eps = pooled backends ∧
  Forall (λ e, ae_token e = affinity_token (ae_addr e)) eps.

Record group_wf (g : BackendGroup) : Prop := {
  gw_pools : Forall pool_wf (bg_backends g);
  gw_slots : Forall (λ b, 0 ≤ b < Z.of_nat (length (bg_backends g)))%Z (bg_slots g);
  gw_slots_nil : bg_slots g = [] ↔ bg_backends g = [];
  gw_counter : (0 ≤ bg_slot_counter g < 2 ^ 64)%Z;
  gw_snapshot : bg_addrs_snapshot g = mjoin (bp_addrs <$> bg_backends g);
  gw_lb : match bg_lb_endpoints g with
          | None => bg_load_balance g = RoundRobin ∨ bg_backends g = []
          | Some eps => bg_load_balance g ≠ RoundRobin ∧ eps ≠ [] ∧
                        lb_index_wf (bg_backends g) eps
          end;
  gw_affinity : match bg_affinity_endpoints g with
                | None => bg_session_affinity g = None
                | Some eps => is_Some (bg_session_affinity g) ∧
                              affinity_index_wf (bg_backends g) eps
                end;
}.
End group.
