(* ===== verification/BackendFacts.v ===== *)
(** * Theorems about backend selection

    Construction never panics and yields a well-formed group; every selection
    on a well-formed group succeeds, stays within the group and keeps it
    well-formed; the weighted round robin hits its ratios exactly; rendezvous
    hashing moves only the keys it must; connection accounting balances; the
    latency average stays between its inputs. *)

From S2P Require Import Prelude Net Backend.

#[local] Arguments affinity_token : simpl never.
#[local] Arguments rendezvous_score : simpl never.
#[local] Arguments pooled : simpl never.

(** ** Hashing and weights *)

Lemma wrap_small w z : (0 ≤ z < 2 ^ w)%Z → wrap w z = z.
Proof. apply Z.mod_small. Qed.

Lemma wrap_range w z : (0 ≤ w)%Z → (0 ≤ wrap w z < 2 ^ w)%Z.
Proof. intros. apply Z.mod_pos_bound. lia. Qed.

Lemma foldl_mjoin {A B} (f : B → A → B) (parts : list (list A)) b :
  foldl (λ b part, foldl f b part) b parts = foldl f b (mjoin parts).
Proof.
  revert b. induction parts as [|p ps IH]; intros b; [done|]. cbn.
  by rewrite foldl_app, IH.
Qed.

Lemma gcd_fuel_spec fuel a b :
  (0 ≤ a)%Z → (0 ≤ b ≤ Z.of_nat fuel)%Z → gcd_fuel fuel a b = Z.gcd a b.
Proof.
  revert a b. induction fuel as [|fuel IH]; intros a b Ha Hb; cbn [gcd_fuel].
  - assert (b = 0)%Z as -> by lia. cbn. rewrite Z.gcd_0_r. lia.
  - destruct (b =? 0)%Z eqn:E.
    + apply Z.eqb_eq in E as ->. rewrite Z.gcd_0_r. lia.
    + apply Z.eqb_neq in E. assert (0 ≤ a mod b < b)%Z by (apply Z.mod_pos_bound; lia).
      rewrite IH by lia. by rewrite (Z.gcd_comm b), Z.gcd_mod, Z.gcd_comm by lia.
Qed.

Lemma gcd_Zgcd a b : (0 ≤ a)%Z → (0 ≤ b)%Z → gcd a b = Z.gcd a b.
Proof. intros. apply gcd_fuel_spec; lia. Qed.

(** The gcd of a list of weights. *)
Definition gcd_list (ws : list Z) : Z := foldr Z.gcd 0%Z ws.

Lemma gcd_list_nonneg ws : (0 ≤ gcd_list ws)%Z.
Proof. destruct ws; cbn; [lia | apply Z.gcd_nonneg]. Qed.

Lemma foldl_gcd ws a :
  (0 ≤ a)%Z → Forall (λ w, 0 ≤ w)%Z ws → foldl gcd a ws = Z.gcd a (gcd_list ws).
Proof.
  intros Ha Hw. revert a Ha. induction Hw as [|w ws Hw _ IH]; intros a Ha; cbn.
  - rewrite Z.gcd_0_r. lia.
  - rewrite gcd_Zgcd, IH by (try apply Z.gcd_nonneg; lia). by rewrite Z.gcd_assoc.
Qed.

Lemma gcd_list_divide ws w : w ∈ ws → (gcd_list ws | w)%Z.
Proof.
  induction 1 as [w ws|w v ws _ IH]; cbn.
  - apply Z.gcd_divide_l.
  - etrans; [apply Z.gcd_divide_r | done].
Qed.

Lemma gcd_reduce_spec ws :
  Forall (λ w, 0 < w)%Z ws → gcd_reduce ws = (λ w, w / gcd_list ws)%Z <$> ws.
Proof.
  intros Hw. unfold gcd_reduce.
  rewrite foldl_gcd by first [lia | eapply Forall_impl; [done | cbn; lia]].
  rewrite Z.gcd_0_l, Z.abs_eq by apply gcd_list_nonneg.
  destruct (_ <=? _)%Z eqn:E; [|done]. apply Z.leb_le in E.
  destruct ws as [|w ws]; [done|].
  assert (gcd_list (w :: ws) = 1)%Z as ->.
  { pose proof (gcd_list_nonneg (w :: ws)).
    assert (gcd_list (w :: ws) ≠ 0)%Z; [|lia]. intros H0.
    cbn in H0. apply Z.gcd_eq_0_l in H0. inversion Hw; lia. }
  symmetry. rewrite <-(list_fmap_id (w :: ws)) at 2.
  apply list_fmap_ext. intros. apply Z.div_1_r.
Qed.

Lemma gcd_list_pos ws w : w ∈ ws → (0 < w)%Z → (0 < gcd_list ws)%Z.
Proof.
  intros Hin Hw. pose proof (gcd_list_nonneg ws).
  assert (gcd_list ws ≠ 0)%Z; [|lia]. intros H0.
  destruct (gcd_list_divide ws w Hin) as [z ->]. lia.
Qed.

Lemma reduced_pos ws :
  Forall (λ w, 0 < w)%Z ws → Forall (λ w, 0 < w)%Z (gcd_reduce ws).
Proof.
  intros Hw. rewrite gcd_reduce_spec by done. apply Forall_fmap, Forall_forall. intros w Hin.
  rewrite Forall_forall in Hw. specialize (Hw w Hin). cbn.
  pose proof (gcd_list_pos ws w Hin Hw). apply Z.div_str_pos. split; [done|].
  apply Z.divide_pos_le; [done|]. by apply gcd_list_divide.
Qed.

(** ** Construction *)

Section wf.
Context {FilterAction UpstreamTls : Type}.
Abbreviation group := (@BackendGroup FilterAction UpstreamTls).
Implicit Types g : group.

Lemma elem_of_slots_of b ws :
  b ∈ slots_of ws → (0 ≤ b < Z.of_nat (length ws))%Z.
Proof.
  intros (l & Hb & Hl)%list_elem_of_join. apply elem_of_lookup_imap in Hl as (i & w & -> & Hi).
  apply elem_of_replicate in Hb as [-> _]. apply lookup_lt_Some in Hi.
  unfold wrap. pose proof (Z.mod_pos_bound (Z.of_nat i) (2 ^ 16)).
  pose proof (Z.mod_le (Z.of_nat i) (2 ^ 16)). lia.
Qed.

Lemma slots_of_nil ws : Forall (λ w, 0 < w)%Z ws → slots_of ws = [] → ws = [].
Proof.
  intros [|w ws' Hw _]; [done|]. unfold slots_of. cbn.
  assert (Z.to_nat w = S (pred (Z.to_nat w))) as -> by lia. done.
Qed.

Lemma mapM_BackendPool_new (ls : list (list SocketAddr)) :
  Forall (λ l, l ≠ []) ls → mapM BackendPool_new ls = Some ((λ l, mkBackendPool l 0) <$> ls).
Proof.
  induction 1 as [|l ls Hl _ IH]; [done|]. cbn [mapM]. rewrite IH. by destruct l.
Qed.

Definition pools_ok (pools : list (list SocketAddr * Z)) : Prop :=
  Forall (λ p, p.1 ≠ [] ∧ (0 < p.2)%Z) pools.

(** What [from_pools] builds. *)
Definition built (name : str) (spec : list WeightedBackendSpec)
    (pools : list (list SocketAddr * Z)) : group :=
  mkBackendGroup name spec ((λ p, mkBackendPool p.1 0) <$> pools)
    (slots_of (gcd_reduce (pools.*2))) 0 (mjoin (pools.*1))
    Http1 None RetryPolicyConfig_default None None None None None RoundRobin None.

Lemma from_pools_built name spec pools :
  pools_ok pools → from_pools name spec pools = Some (built name spec pools).
Proof.
  intros Hp. unfold from_pools. destruct pools as [|p ps]; [done|].
  rewrite mapM_BackendPool_new by (apply Forall_fmap; eapply Forall_impl; [done|]; by intros ? []).
  cbn [mbind option_bind]. unfold built. by rewrite <-list_fmap_compose.
Qed.

Lemma pools_ok_weights pools : pools_ok pools → Forall (λ w, 0 < w)%Z (pools.*2).
Proof. intros. apply Forall_fmap. eapply Forall_impl; [done|]. by intros ? []. Qed.

Lemma built_wf name spec pools : pools_ok pools → group_wf (built name spec pools).
Proof.
  intros Hp. split; cbn; try done; try lia.
  - apply Forall_fmap. eapply Forall_impl; [done|]. intros p [? _]. by split.
  - apply Forall_forall. intros b Hb%elem_of_slots_of.
    rewrite gcd_reduce_spec, !length_fmap in Hb by by apply pools_ok_weights.
    by rewrite length_fmap.
  - split.
    + intros Hs%slots_of_nil; [|by apply reduced_pos, pools_ok_weights].
      rewrite gcd_reduce_spec in Hs by by apply pools_ok_weights.
      apply fmap_nil_inv, fmap_nil_inv in Hs. by subst.
    + intros Hn%fmap_nil_inv. by subst.
  - by rewrite <-list_fmap_compose.
  - by left.
Qed.

(** The pools a list of backend refs contributes. *)
Definition live_pools (entries : list (ResolvedEndpoints * option EndpointKey * Z)) :
    list (list SocketAddr * Z) :=
  omap (λ '(resolved, key, w),
          if decide (re_addrs resolved ≠ [] ∧ (0 < w)%Z) then Some (re_addrs resolved, w)
          else None) entries.

Definition kept_spec (entries : list (ResolvedEndpoints * option EndpointKey * Z)) :
    list WeightedBackendSpec :=
  omap (λ '(resolved, key, w),
          if decide ((0 < w)%Z ∧ (re_addrs resolved ≠ [] ∨ is_Some key))
          then Some (mkWeightedBackendSpec resolved key w) else None) entries.

Lemma live_pools_ok entries : pools_ok (live_pools entries).
Proof.
  apply Forall_forall. intros p ([[r k] w] & _ & Hp)%list_elem_of_omap.
  case_decide as Hd; simplify_eq. done.
Qed.

Lemma weighted_with_endpoints_built name entries :
  weighted_with_endpoints name entries =
  Some (built name (kept_spec entries) (live_pools entries)).
Proof.
  unfold weighted_with_endpoints. rewrite <-from_pools_built by apply live_pools_ok. f_equal.
  - induction entries as [|[[r k] w] es IH]; [done|]. unfold kept_spec in *. cbn.
    case_decide as Hd; case_zb; repeat case_bool_decide; cbn; rewrite ?IH; naive_solver lia.
  - induction entries as [|[[r k] w] es IH]; [done|]. unfold live_pools in *. cbn.
    case_decide as Hd; case_zb; repeat case_bool_decide; cbn;
      repeat case_bool_decide; cbn; rewrite ?IH; naive_solver lia.
Qed.

(** ** Every group a program can build *)

(** The groups obtained from the constructors by builders and request-time
    operations, in any order. *)
Inductive reachable : group → Prop :=
| reach_construct name entries g :
    weighted_with_endpoints name entries = Some g → reachable g
| reach_protocol p g : reachable g → reachable (with_protocol p g)
| reach_tls t g : reachable g → reachable (with_tls t g)
| reach_retries r g : reachable g → reachable (with_retries r g)
| reach_keepalive t g : reachable g → reachable (with_keepalive_timeout t g)
| reach_connect t g : reachable g → reachable (with_connect_timeout t g)
| reach_load_balance lb g : reachable g → reachable (with_load_balance lb g)
| reach_filters fs g : reachable g → reachable (with_per_backend_filters fs g)
| reach_affinity a g : reachable g → reachable (with_session_affinity a g)
| reach_select k g r g' :
    reachable g → select_upstream k g = Some (r, g') → reachable g'
| reach_release i g : reachable g → reachable (release i g)
| reach_complete i d g : reachable g → reachable (complete i d g).

Lemma tagged_snd {A B C} (f : nat → A) (h : C → list B) (l : list C) :
  (mjoin (imap (λ i c, (λ b, (f i, b)) <$> h c) l)).*2 = mjoin (h <$> l).
Proof.
  revert f. induction l as [|c l IH]; intros f; [done|]. cbn.
  rewrite fmap_app, <-list_fmap_compose. f_equal; [|apply (IH (f ∘ S))].
  rewrite <-(list_fmap_id (h c)) at 2. by apply list_fmap_ext.
Qed.

Lemma pooled_addrs backends : (pooled backends).*2 = mjoin (bp_addrs <$> backends).
Proof. apply tagged_snd. Qed.

Lemma pooled_nil backends : Forall pool_wf backends → pooled backends = [] → backends = [].
Proof.
  intros [|p ps [Hp _] _]; [done|]. unfold pooled. cbn. by destruct (bp_addrs p).
Qed.

Lemma elem_of_pooled backends i a :
  (i, a) ∈ pooled backends →
  ∃ j p, backends !! j = Some p ∧ a ∈ bp_addrs p ∧ i = wrap 16 (Z.of_nat j).
Proof.
  intros (l & Ha & Hl)%list_elem_of_join.
  apply elem_of_lookup_imap in Hl as (j & p & -> & Hj).
  apply list_elem_of_fmap in Ha as (a' & [= -> ->] & Ha). eauto.
Qed.

(** Only addresses and positions matter to the indices, not the counters. *)
Lemma pooled_insert (backends : list BackendPool) (i : nat) p p' :
  backends !! i = Some p → bp_addrs p' = bp_addrs p →
  pooled (<[i := p']> backends) = pooled backends.
Proof.
  intros Hi Hp. unfold pooled. f_equal. apply list_eq. intros j.
  rewrite !list_lookup_imap. destruct (decide (i = j)) as [->|Hne].
  - rewrite list_lookup_insert_eq by by eapply lookup_lt_Some. rewrite Hi. cbn. by rewrite Hp.
  - by rewrite list_lookup_insert_ne.
Qed.

Lemma snapshot_insert (backends : list BackendPool) (i : nat) p p' :
  backends !! i = Some p → bp_addrs p' = bp_addrs p →
  bp_addrs <$> <[i := p']> backends = bp_addrs <$> backends.
Proof. intros Hi Hp. rewrite list_fmap_insert, Hp. apply list_insert_id. by rewrite list_lookup_fmap, Hi. Qed.

Lemma BackendPool_next_wf p :
  pool_wf p →
  ∃ a p', BackendPool_next p = Some (a, p') ∧ pool_wf p' ∧ bp_addrs p' = bp_addrs p ∧
    a ∈ bp_addrs p.
Proof.
  intros [Hne Hrr]. unfold BackendPool_next. rewrite decide_False by done.
  assert (0 < length (bp_addrs p)) by (destruct (bp_addrs p); cbn in *; [done | lia]).
  destruct (lookup_lt_is_Some_2 (bp_addrs p)
    (Z.to_nat (bp_rr p mod Z.of_nat (length (bp_addrs p))))) as [a Ha].
  { pose proof (Z.mod_pos_bound (bp_rr p) (Z.of_nat (length (bp_addrs p)))). lia. }
  rewrite Ha. cbn. eexists _, _. split_and!; [done| |done|by eapply list_elem_of_lookup_2].
  split; [done|]. cbn. apply wrap_range. lia.
Qed.

(** An address of one of the group's pools with that pool's filters. *)
Definition selection_of g (addr : SocketAddr) (filters : option (list FilterAction)) : Prop :=
  ∃ i p, bg_backends g !! i = Some p ∧ addr ∈ bp_addrs p ∧ filters = filters_for_backend g i.

Lemma with_state_wf g backends c eps :
  group_wf g →
  Forall pool_wf backends → length backends = length (bg_backends g) →
  bp_addrs <$> backends = bp_addrs <$> bg_backends g → pooled backends = pooled (bg_backends g) →
  (0 ≤ c < 2 ^ 64)%Z →
  match eps with
  | None => bg_lb_endpoints g = None
  | Some eps => ∃ eps', bg_lb_endpoints g = Some eps' ∧
      (λ e, (lb_backend_idx e, lb_addr e, lb_token e)) <$> eps =
      (λ e, (lb_backend_idx e, lb_addr e, lb_token e)) <$> eps'
  end →
  group_wf (with_state g backends c eps).
Proof.
  intros [Hp Hs Hsn Hc Hsnap Hlb Haff] Hp' Hlen Haddrs Hpool Hc' Heps.
  assert (backends = [] ↔ bg_backends g = []) as Hnil
    by (rewrite <-!length_zero_iff_nil, Hlen; done).
  split; cbn; rewrite ?Hlen, ?Haddrs; auto; [by rewrite Hnil| |].
  - destruct eps as [eps|].
    + destruct Heps as (eps' & Heq & Hf). rewrite Heq in Hlb. destruct Hlb as (? & Hne & Hi & Ht).
      split_and!; [done| |split].
      * intros ->. by destruct eps'.
      * rewrite Hpool, <-Hi. apply (f_equal (fmap fst)) in Hf.
        by rewrite <-!list_fmap_compose in Hf.
      * assert (Forall (λ x, x.2 = affinity_token x.1.2)
          ((λ e, (lb_backend_idx e, lb_addr e, lb_token e)) <$> eps)) as Ht'
          by (rewrite Hf; by apply Forall_fmap).
        by apply Forall_fmap in Ht'.
    + rewrite Heps in Hlb. by rewrite Hnil.
  - unfold affinity_index_wf in *. by rewrite Hpool.
Qed.

Lemma next_endpoint_with_filters_spec g :
  group_wf g →
  ∃ r g', next_endpoint_with_filters g = Some (r, g') ∧ group_wf g' ∧
    (r = None ↔ bg_backends g = []) ∧
    (∀ a fs, r = Some (a, fs) → selection_of g a fs).
Proof.
  intros Hwf. pose proof Hwf as [Hp Hs Hsn Hc _ _ _]. unfold next_endpoint_with_filters.
  case_decide as Hd; [eexists _, _; split_and!; [done|done|naive_solver|done]|].
  assert (0 < length (bg_slots g)) by (destruct (bg_slots g); cbn in *; [done | lia]).
  destruct (lookup_lt_is_Some_2 (bg_slots g)
    (Z.to_nat (bg_slot_counter g mod Z.of_nat (length (bg_slots g))))) as [b Hb].
  { pose proof (Z.mod_pos_bound (bg_slot_counter g) (Z.of_nat (length (bg_slots g)))). lia. }
  rewrite Hb. cbn [mbind option_bind].
  pose proof (Forall_lookup_1 _ _ _ _ Hs Hb) as Hrange. cbn in Hrange.
  destruct (lookup_lt_is_Some_2 (bg_backends g) (Z.to_nat b)) as [pool Hpool]; [lia|].
  rewrite Hpool. cbn [mbind option_bind].
  pose proof (Forall_lookup_1 _ _ _ _ Hp Hpool) as Hpw.
  destruct (BackendPool_next_wf pool Hpw) as (a & p' & -> & Hp' & Haddrs & Ha).
  cbn [mbind option_bind]. eexists _, _. split_and!; [done| |naive_solver|].
  - apply with_state_wf; auto.
    + by apply Forall_insert.
    + by rewrite length_insert.
    + by eapply snapshot_insert.
    + by eapply pooled_insert.
    + apply wrap_range. lia.
    + destruct (bg_lb_endpoints g); eauto.
  - intros a' fs [= <- <-]. eexists _, _. eauto.
Qed.

Lemma lb_index_selection g eps e :
  (Z.of_nat (length (bg_backends g)) ≤ 2 ^ 16)%Z → lb_index_wf (bg_backends g) eps → e ∈ eps →
  selection_of g (lb_addr e) (filters_for_backend g (Z.to_nat (lb_backend_idx e))).
Proof.
  intros Hlen [Hi _] He.
  assert ((lb_backend_idx e, lb_addr e) ∈ pooled (bg_backends g)) as Hin.
  { rewrite <-Hi. by apply (list_elem_of_fmap_2 (λ e, (lb_backend_idx e, lb_addr e))). }
  apply elem_of_pooled in Hin as (j & p & Hj & Ha & ->).
  pose proof (lookup_lt_Some _ _ _ Hj).
  exists j, p. rewrite wrap_small, Nat2Z.id by lia. done.
Qed.

Lemma elem_of_enumerate {A} (l : list A) i x : (i, x) ∈ enumerate l ↔ l !! i = Some x.
Proof.
  unfold enumerate. rewrite elem_of_lookup_imap. split; [|by eauto].
  intros (j & y & [= -> ->] & ?). done.
Qed.

Lemma enumerate_nil {A} (l : list A) : enumerate l = [] ↔ l = [].
Proof. by destruct l. Qed.

(** Updating the counters of one endpoint keeps the index. *)
Lemma alter_static (f : LbEndpoint → LbEndpoint) (i : nat) (eps : list LbEndpoint) :
  (∀ e, (lb_backend_idx (f e), lb_addr (f e), lb_token (f e)) =
        (lb_backend_idx e, lb_addr e, lb_token e)) →
  (λ e, (lb_backend_idx e, lb_addr e, lb_token e)) <$> alter f i eps =
  (λ e, (lb_backend_idx e, lb_addr e, lb_token e)) <$> eps.
Proof.
  intros Hf. apply list_eq. intros j. rewrite !list_lookup_fmap.
  destruct (decide (i = j)) as [->|].
  - rewrite list_lookup_alter_eq. destruct (eps !! j); cbn; by rewrite ?Hf.
  - by rewrite list_lookup_alter_ne.
Qed.

Lemma insert_alter {A} (l : list A) (i : nat) x (f : A → A) :
  l !! i = Some x → <[i := f x]> l = alter f i l.
Proof.
  intros Hi. apply list_eq. intros j. destruct (decide (i = j)) as [->|].
  - rewrite list_lookup_insert_eq by by eapply lookup_lt_Some.
    by rewrite list_lookup_alter_eq, Hi.
  - by rewrite list_lookup_insert_ne, list_lookup_alter_ne.
Qed.

Lemma alter_endpoint_wf g eps f (i : nat) :
  group_wf g → bg_lb_endpoints g = Some eps →
  (∀ e, (lb_backend_idx (f e), lb_addr (f e), lb_token (f e)) =
        (lb_backend_idx e, lb_addr e, lb_token e)) →
  group_wf (with_state g (bg_backends g) (bg_slot_counter g) (Some (alter f i eps))).
Proof.
  intros Hwf Heps Hf. pose proof Hwf as []. apply with_state_wf; auto.
  exists eps. split; [done|]. by apply alter_static.
Qed.

Lemma release_wf i g : group_wf g → group_wf (release i g).
Proof.
  intros Hwf. unfold release, dec_active. repeat case_match; auto.
  by apply alter_endpoint_wf.
Qed.

Lemma complete_wf i d g : group_wf g → group_wf (complete i d g).
Proof.
  intros Hwf. unfold complete, dec_active. repeat case_match; auto; by apply alter_endpoint_wf.
Qed.

(** What every algorithm guarantees of its answer. *)
Definition answer_ok g (r : option Selected) : Prop :=
  (r = None ↔ bg_backends g = []) ∧
  ∀ s, r = Some s →
    sel_addr s ∈ bg_addrs_snapshot g ∧
    ((Z.of_nat (length (bg_backends g)) ≤ 2 ^ 16)%Z →
     selection_of g (sel_addr s) (sel_filters s)).

Lemma selection_snapshot g a fs : group_wf g → selection_of g a fs → a ∈ bg_addrs_snapshot g.
Proof.
  intros Hwf (i & p & Hi & Ha & _). rewrite (gw_snapshot _ Hwf). apply list_elem_of_join.
  exists (bp_addrs p). split; [done|]. apply list_elem_of_fmap_2. by eapply list_elem_of_lookup_2.
Qed.

Lemma index_snapshot g eps e :
  group_wf g → bg_lb_endpoints g = Some eps → e ∈ eps → lb_addr e ∈ bg_addrs_snapshot g.
Proof.
  intros Hwf Heps He. pose proof (gw_lb _ Hwf) as Hlb. rewrite Heps in Hlb.
  destruct Hlb as (_ & _ & Hi & _).
  rewrite (gw_snapshot _ Hwf), <-pooled_addrs, <-Hi, <-list_fmap_compose.
  by apply (list_elem_of_fmap_2 (snd ∘ (λ e, (lb_backend_idx e, lb_addr e)))).
Qed.

(** An answer taken from the accounting index. *)
Lemma index_answer g eps (o : option LbEndpoint) (track : LbEndpoint → option Z) :
  group_wf g → bg_lb_endpoints g = Some eps → o ≠ None → (∀ e, o = Some e → e ∈ eps) →
  answer_ok g ((λ e, mkSelected (lb_addr e)
    (filters_for_backend g (Z.to_nat (lb_backend_idx e))) (track e)) <$> o).
Proof.
  intros Hwf Heps Hne Hin. destruct o as [e|]; [|done]. specialize (Hin e eq_refl).
  pose proof (index_snapshot g eps e Hwf Heps Hin).
  destruct Hwf as [Hp _ _ _ _ Hlb _]. rewrite Heps in Hlb. destruct Hlb as (_ & _ & Hi).
  split.
  - split; [done|]. intros Hnil. destruct Hi as [Hi _]. rewrite Hnil in Hi. cbn in Hi.
    apply fmap_nil_inv in Hi as ->. by apply elem_of_nil in Hin.
  - intros s [= <-]. cbn. split; [done|]. intros Hlen. by eapply lb_index_selection.
Qed.

Lemma select_round_robin_spec g :
  group_wf g →
  ∃ r g', select_round_robin g = Some (r, g') ∧ group_wf g' ∧ answer_ok g r.
Proof.
  intros Hwf. unfold select_round_robin.
  destruct (next_endpoint_with_filters_spec g Hwf) as (r & g' & -> & Hwf' & Hnone & Hsel).
  eexists _, _. split_and!; [done..|]. split.
  - rewrite fmap_None. done.
  - intros s. destruct r as [[a fs]|]; intros [= <-]. cbn. specialize (Hsel a fs eq_refl).
    split; [by eapply selection_snapshot|done].
Qed.

Lemma min_index_choice (key : LbEndpoint → Z) eps :
  eps ≠ [] →
  ∃ i e, min_by_key (λ '(_, e), key e) (enumerate eps) = Some (i, e) ∧ eps !! i = Some e ∧
    ∀ j e', eps !! j = Some e' → (key e ≤ key e')%Z ∧ (j < i → (key e < key e')%Z).
Proof.
  intros Hne. destruct (min_by_key _ _) as [[i e]|] eqn:E.
  2:{ exfalso. apply Hne. by rewrite <-enumerate_nil, <-(min_by_key_None (λ '(_, e), key e)). }
  exists i, e. split; [done|]. apply min_by_key_spec in E as (l1 & l2 & Hl & H1 & H2).
  assert (∀ j e', eps !! j = Some e' → enumerate eps !! j = Some (j, e')) as Hlook.
  { intros j e' Hj. unfold enumerate. by rewrite list_lookup_imap, Hj. }
  assert (enumerate eps !! length l1 = Some (i, e)) as Hmid
    by (rewrite Hl; by apply list_lookup_middle).
  assert (length l1 = i) as Hlen.
  { unfold enumerate in Hmid. rewrite list_lookup_imap in Hmid.
    destruct (eps !! length l1); by simplify_eq/=. }
  split.
  - apply elem_of_enumerate. rewrite Hl. set_solver.
  - intros j e' Hj%Hlook. rewrite Hl in Hj. apply lookup_app_Some in Hj as [Hj|[Hge Hj]].
    + specialize (H1 _ (list_elem_of_lookup_2 _ _ _ Hj)). cbn in H1. split; lia.
    + split; [|lia]. destruct (j - length l1) as [|k]; cbn in Hj; [by simplify_eq|].
      by specialize (H2 _ (list_elem_of_lookup_2 _ _ _ Hj)).
Qed.

Lemma select_upstream_spec k g :
  group_wf g →
  ∃ r g', select_upstream k g = Some (r, g') ∧ group_wf g' ∧ answer_ok g r.
Proof.
  intros Hwf. pose proof (gw_lb _ Hwf) as Hlb. unfold select_upstream.
  destruct (bg_load_balance g) as [| | |src] eqn:Elb; [by apply select_round_robin_spec|..];
    (destruct (bg_lb_endpoints g) as [eps|] eqn:Eeps;
     [destruct Hlb as (_ & Hne & _)
     |eexists _, _; split_and!; [done|done|];
      split; [destruct Hlb; [done|]; done|done]]).
  - destruct (min_index_choice lb_active eps Hne) as (i & e & -> & Hi & _).
    eexists _, _. split_and!; [done| |].
    + rewrite (insert_alter eps i e (λ e, set_active e (wrap 32 (lb_active e + 1)))) by done.
      by apply alter_endpoint_wf.
    + apply (index_answer g eps (Some e) (λ _, Some (wrap 32 (Z.of_nat i)))); try done.
      intros e' [= <-]. by eapply list_elem_of_lookup_2.
  - destruct (min_index_choice lb_ewma_ns eps Hne) as (i & e & -> & Hi & _).
    eexists _, _. split_and!; [done|done|].
    apply (index_answer g eps (Some e) (λ _, Some (wrap 32 (Z.of_nat i)))); try done.
    intros e' [= <-]. by eapply list_elem_of_lookup_2.
  - destruct k as [key|]; [|by apply select_round_robin_spec].
    eexists _, _. split_and!; [done|done|].
    apply (index_answer g eps _ (λ _, None)); try done; [by rewrite max_by_key_None|].
    intros e He. apply max_by_key_spec in He as (? & ? & -> & _). set_solver.
Qed.

Lemma with_load_balance_wf lb g : group_wf g → group_wf (with_load_balance lb g).
Proof.
  intros Hwf. pose proof Hwf as []. split; cbn; try done. case_decide as Hd; [by left|].
  destruct (_ <$> pooled _) as [|e l] eqn:E.
  - apply fmap_nil_inv, pooled_nil in E; [by right|done].
  - split_and!; [done|done|]. rewrite <-E. split.
    + rewrite <-list_fmap_compose. rewrite <-(list_fmap_id (pooled _)) at 2.
      apply list_fmap_ext. by intros ? [].
    + apply Forall_fmap, Forall_true. by intros [].
Qed.

Lemma with_session_affinity_wf a g : group_wf g → group_wf (with_session_affinity a g).
Proof.
  intros Hwf. pose proof Hwf as []. destruct a as [cfg|]; split; cbn; try done.
  split; [done|]. split.
  - rewrite <-list_fmap_compose. rewrite <-(list_fmap_id (pooled _)) at 2.
    apply list_fmap_ext. by intros ? [].
  - apply Forall_fmap, Forall_true. by intros [].
Qed.

Lemma with_per_backend_filters_wf fs g : group_wf g → group_wf (with_per_backend_filters fs g).
Proof.
  intros Hwf. unfold with_per_backend_filters. case_decide; [done|].
  destruct (existsb _ _); destruct Hwf; by split.
Qed.

Lemma reachable_group_wf g : reachable g → group_wf g.
Proof.
  induction 1; try (destruct IHreachable; by split);
    auto using with_load_balance_wf, with_session_affinity_wf, with_per_backend_filters_wf,
      release_wf, complete_wf.
  - match goal with H : _ = Some _ |- _ => rewrite weighted_with_endpoints_built in H end.
    simplify_eq. apply built_wf, live_pools_ok.
  - destruct (select_upstream_spec k g IHreachable) as (? & ? & ? & ? & _). by simplify_eq.
Qed.
End wf.

(** ** Round-robin schedules *)

(** The elements of [l] read cyclically from position [c], [K] of them. *)
Fixpoint cycle {A} (l : list A) (c : Z) (K : nat) : list A :=
  match K with
  | 0 => []
  | S K' =>
      match l !! Z.to_nat (c mod Z.of_nat (length l))%Z with
      | Some x => x :: cycle l (c + 1) K'
      | None => []
      end
  end.

Section cycle.
Context {A : Type}.
Implicit Types l : list A.

Lemma cycle_lookup_Some l c :
  l ≠ [] → ∃ x, l !! Z.to_nat (c mod Z.of_nat (length l))%Z = Some x.
Proof.
  intros Hne. apply lookup_lt_is_Some_2.
  assert (0 < length l) by (destruct l; cbn in *; [done | lia]).
  pose proof (Z.mod_pos_bound c (Z.of_nat (length l))). lia.
Qed.

Lemma cycle_app l c a b :
  l ≠ [] → cycle l c (a + b) = cycle l c a ++ cycle l (c + Z.of_nat a) b.
Proof.
  intros Hne. revert c. induction a as [|a IH]; intros c; cbn [cycle Nat.add].
  - by rewrite Z.add_0_r.
  - destruct (cycle_lookup_Some l c Hne) as [x ->]. cbn. rewrite IH.
    do 3 f_equal. lia.
Qed.

Lemma cycle_congr l c c' K :
  (c mod Z.of_nat (length l) = c' mod Z.of_nat (length l))%Z → cycle l c K = cycle l c' K.
Proof.
  revert c c'. induction K as [|K IH]; intros c c' Hc; [done|]. cbn [cycle]. rewrite Hc.
  destruct (l !! _); [|done]. f_equal. apply IH.
  by rewrite <-Zplus_mod_idemp_l, Hc, Zplus_mod_idemp_l.
Qed.

Lemma cycle_0_take l K : K ≤ length l → cycle l 0 K = take K l.
Proof.
  induction K as [|K IH]; intros HK; [by rewrite take_0|].
  destruct (decide (l = [])) as [->|Hne]; [cbn in *; lia|].
  replace (S K) with (K + 1) by lia. rewrite cycle_app, IH by (done || lia).
  destruct (lookup_lt_is_Some_2 l K) as [x Hx]; [lia|].
  cbn [cycle]. rewrite Z.add_0_l, Z.mod_small, Nat2Z.id, Hx by lia.
  replace (K + 1) with (S K) by lia. by rewrite (take_S_r _ _ _ Hx).
Qed.

Lemma cycle_step l c : l ≠ [] → cycle l c (length l) ≡ₚ cycle l (c + 1) (length l).
Proof.
  intros Hne.
  assert (cycle l c (1 + length l) = cycle l c (length l + 1)) as H by (f_equal; lia).
  rewrite !cycle_app in H by done. change (Z.of_nat 1) with 1%Z in H.
  rewrite (cycle_congr l (c + Z.of_nat (length l)) c 1) in H.
  2:{ rewrite <-Zplus_mod_idemp_r, Z_mod_same_full, Z.add_0_r. done. }
  apply (Permutation_app_inv_l (cycle l c 1)). rewrite H. apply Permutation_app_comm.
Qed.

Lemma cycle_full l c : l ≠ [] → (0 ≤ c)%Z → cycle l c (length l) ≡ₚ l.
Proof.
  intros Hne Hc. revert c Hc. apply natlike_ind.
  - by rewrite cycle_0_take, take_ge by lia.
  - intros c Hc IH. unfold Z.succ. etrans; [symmetry; by apply cycle_step | done].
Qed.

(** Any [m] consecutive rounds visit every element exactly [m] times. *)
Lemma cycle_rounds l c m :
  l ≠ [] → (0 ≤ c)%Z → cycle l c (m * length l) ≡ₚ mjoin (replicate m l).
Proof.
  intros Hne. revert c. induction m as [|m IH]; intros c Hc; [done|]. cbn [Nat.mul].
  rewrite cycle_app by done. cbn. rewrite cycle_full by done. f_equiv. apply IH. lia.
Qed.
End cycle.

(** ** Weighted round robin *)

(** [K] consecutive [BackendPool::next] calls. *)
Fixpoint pool_picks (K : nat) (p : BackendPool) : list SocketAddr :=
  match K with
  | 0 => []
  | S K' =>
      match BackendPool_next p with
      | Some (a, p') => a :: pool_picks K' p'
      | None => []
      end
  end.

Lemma pool_picks_cycle K p :
  pool_wf p → (bp_rr p + Z.of_nat K ≤ 2 ^ 64)%Z →
  pool_picks K p = cycle (bp_addrs p) (bp_rr p) K.
Proof.
  revert p. induction K as [|K IH]; intros p Hwf HK; [done|]. cbn [pool_picks cycle].
  pose proof Hwf as [Hne Hrr]. unfold BackendPool_next. rewrite decide_False by done.
  destruct (cycle_lookup_Some (bp_addrs p) (bp_rr p) Hne) as [a Ha].
  rewrite Ha. cbn [mbind option_bind]. f_equal. destruct K as [|K]; [done|].
  rewrite wrap_small by lia. apply IH; cbn; [split; cbn; [done|lia] | lia].
Qed.

(** Occurrences of pool [i] in a schedule of slots. *)
Definition share (i : nat) (slots : list Z) : nat :=
  length (filter (λ b, b = Z.of_nat i) slots).

#[local] Arguments share : simpl never.

#[export] Instance share_perm i : Proper ((≡ₚ) ==> (=)) (share i).
Proof. intros l1 l2 Hl. unfold share. by rewrite Hl. Qed.

Lemma share_app i l1 l2 : share i (l1 ++ l2) = share i l1 + share i l2.
Proof. unfold share. by rewrite filter_app, length_app. Qed.

Lemma share_rounds i m l : share i (mjoin (replicate m l)) = m * share i l.
Proof.
  induction m as [|m IH]; [done|].
  change (mjoin (replicate (S m) l)) with (l ++ mjoin (replicate m l)).
  by rewrite share_app, IH.
Qed.

Section round_robin.
Context {FilterAction UpstreamTls : Type}.
Abbreviation group := (@BackendGroup FilterAction UpstreamTls).
Implicit Types g : group.

(** [K] consecutive [BackendGroup::next_endpoint] calls that all succeed. *)
Fixpoint rr_run (K : nat) g : option (list SocketAddr * group) :=
  match K with
  | 0 => Some ([], g)
  | S K' =>
      match next_endpoint g with
      | Some (Some a, g') =>
          match rr_run K' g' with
          | Some (l, g'') => Some (a :: l, g'')
          | None => None
          end
      | _ => None
      end
  end.

Lemma mjoin_imap_insert {A B} (f h : nat → A → list B) (l : list A) (b : nat) p p' a :
  l !! b = Some p →
  (∀ i q, i ≠ b → f i q = h i q) → f b p = a :: h b p' →
  a :: mjoin (imap h (<[b := p']> l)) ≡ₚ mjoin (imap f l).
Proof.
  revert f h b. induction l as [|q l IH]; intros f h [|b] Hb Hne Heq; simplify_eq/=.
  - rewrite Heq. cbn. do 2 f_equiv.
    rewrite (imap_ext (h ∘ S) (f ∘ S)); [done|]. intros i x _. cbn. by rewrite Hne.
  - rewrite Hne by done. rewrite Permutation_middle. f_equiv.
    apply (IH (f ∘ S) (h ∘ S)); [done| |done]. intros i x Hi. apply Hne. lia.
Qed.

Lemma mjoin_imap_nil {A B} (f : nat → A → list B) (l : list A) :
  (∀ i x, f i x = []) → mjoin (imap f l) = [].
Proof.
  revert f. induction l as [|x l IH]; intros f Hf; [done|]. cbn.
  rewrite Hf. apply (IH (f ∘ S)). intros. apply Hf.
Qed.

Lemma next_endpoint_step g :
  group_wf g → bg_slots g ≠ [] →
  ∃ i p a p' g', next_endpoint g = Some (Some a, g') ∧ group_wf g' ∧
    bg_slots g !! Z.to_nat (bg_slot_counter g mod Z.of_nat (length (bg_slots g)))%Z
      = Some (Z.of_nat i) ∧
    bg_backends g !! i = Some p ∧ BackendPool_next p = Some (a, p') ∧
    g' = with_state g (<[i := p']> (bg_backends g)) (wrap 64 (bg_slot_counter g + 1))
           (bg_lb_endpoints g).
Proof.
  intros Hwf Hne. pose proof (next_endpoint_with_filters_spec g Hwf) as (r & g' & Hn & Hwf' & _).
  unfold next_endpoint. rewrite Hn. unfold next_endpoint_with_filters in Hn.
  rewrite decide_False in Hn by done. destruct (bg_slots g !! _) as [b|] eqn:Hb; [|done].
  cbn [mbind option_bind] in Hn.
  destruct (bg_backends g !! Z.to_nat b) as [p|] eqn:Hp; [|done]. cbn [mbind option_bind] in Hn.
  destruct (BackendPool_next p) as [[a p']|] eqn:Hpn; [|done]. cbn [mbind option_bind] in Hn.
  simplify_eq. pose proof (gw_slots _ Hwf) as Hs.
  pose proof (Forall_lookup_1 _ _ _ _ Hs Hb) as Hr. cbn in Hr.
  exists (Z.to_nat b), p, a, p'. eexists. split_and!; try done. by rewrite Z2Nat.id by lia.
Qed.

Lemma rr_run_schedule K g :
  group_wf g → bg_slots g ≠ [] → (bg_slot_counter g + Z.of_nat K ≤ 2 ^ 64)%Z →
  ∃ l g', rr_run K g = Some (l, g') ∧
    l ≡ₚ mjoin (imap (λ i, pool_picks (share i (cycle (bg_slots g) (bg_slot_counter g) K)))
                     (bg_backends g)).
Proof.
  revert g. induction K as [|K IH]; intros g Hwf Hne HK.
  { exists [], g. split; [done|]. by rewrite mjoin_imap_nil. }
  destruct (next_endpoint_step g Hwf Hne) as (i & p & a & p' & g' & Hn & Hwf' & Hb & Hp & Hpn & Hg').
  cbn [rr_run cycle]. rewrite Hn, Hb.
  assert (∃ l g'', rr_run K g' = Some (l, g'') ∧
    l ≡ₚ mjoin (imap (λ j, pool_picks (share j (cycle (bg_slots g) (bg_slot_counter g + 1) K)))
                     (<[i := p']> (bg_backends g)))) as (l & g'' & -> & Hl).
  { destruct K as [|K].
    - exists [], g'. split; [done|]. by rewrite mjoin_imap_nil.
    - pose proof (gw_counter _ Hwf). subst g'. cbn in IH.
      destruct (IH _ Hwf') as (l & g'' & Hrun & Hl); cbn in *;
        [done | rewrite wrap_small by lia; lia |].
      rewrite wrap_small in Hl by lia. eauto. }
  exists (a :: l), g''. split; [done|]. rewrite Hl.
  apply (mjoin_imap_insert _ _ _ i p); [done| |].
  - intros j q Hj. unfold share. rewrite filter_cons_False; [done|]. lia.
  - unfold share. rewrite filter_cons_True by done. cbn. by rewrite Hpn.
Qed.
End round_robin.

Section exact.
Context {FilterAction UpstreamTls : Type}.
Abbreviation group := (@BackendGroup FilterAction UpstreamTls).
Implicit Types g : group.

(** Declared weights of the refs that resolved addresses. *)
Definition pool_weights g : list Z :=
  wb_weight <$> filter (λ wb, re_addrs (wb_resolved wb) ≠ []) (bg_spec g).

(** What selection never changes. *)
Definition same_static g g' : Prop :=
  bg_spec g' = bg_spec g ∧ bg_slots g' = bg_slots g ∧
  bp_addrs <$> bg_backends g' = bp_addrs <$> bg_backends g.

Lemma next_static g r g' : next_endpoint_with_filters g = Some (r, g') → same_static g g'.
Proof.
  unfold next_endpoint_with_filters. case_decide; [by intros [= <- <-]|].
  destruct (bg_slots g !! _) as [b|] eqn:Hb; [|done]. cbn [mbind option_bind].
  destruct (bg_backends g !! Z.to_nat b) as [p|] eqn:Hp; [|done]. cbn [mbind option_bind].
  destruct (BackendPool_next p) as [[a p']|] eqn:Hpn; [|done]. cbn [mbind option_bind].
  intros [= <- <-]. split_and!; try done. cbn. apply (snapshot_insert _ _ p); [done|].
  revert Hpn. unfold BackendPool_next. case_decide; [done|].
  by destruct (bp_addrs p !! _); intros [= <- <-].
Qed.

Lemma select_static k g r g' : select_upstream k g = Some (r, g') → same_static g g'.
Proof.
  assert (∀ r g', select_round_robin g = Some (r, g') → same_static g g') as Hrr.
  { unfold select_round_robin. intros r' g''.
    destruct (next_endpoint_with_filters g) as [[r0 g0]|] eqn:E; intros [= <- <-].
    by eapply next_static. }
  unfold select_upstream.
  repeat case_match; try apply Hrr; intros [= <- <-]; done.
Qed.

Lemma kept_spec_weights entries :
  wb_weight <$> filter (λ wb, re_addrs (wb_resolved wb) ≠ []) (kept_spec entries) =
  (live_pools entries).*2.
Proof.
  unfold kept_spec, live_pools. induction entries as [|[[r k] w] es IH]; [done|].
  cbn [omap list_omap]. case_decide as H1; case_decide as H3;
    rewrite ?filter_cons; cbn [wb_resolved]; try case_decide;
    rewrite ?fmap_cons, ?IH; naive_solver.
Qed.

(** The slots of a reachable group realise its declared weights. *)
Definition slots_weighted g : Prop :=
  bg_slots g = slots_of (gcd_reduce (pool_weights g)) ∧
  length (pool_weights g) = length (bg_backends g) ∧
  Forall (λ w, 0 < w)%Z (pool_weights g).

Lemma same_static_weighted g g' : same_static g g' → slots_weighted g → slots_weighted g'.
Proof.
  intros (Hspec & Hslots & Haddrs) (H1 & H2 & H3). unfold slots_weighted, pool_weights in *.
  rewrite Hspec, Hslots. split_and!; [done| |done].
  apply (f_equal length) in Haddrs. rewrite !length_fmap in Haddrs. congruence.
Qed.

Lemma reachable_weighted g : reachable g → slots_weighted g.
Proof.
  induction 1; eauto using same_static_weighted, select_static;
    try (eapply same_static_weighted; [|done]; by split_and!).
  - match goal with H : _ = Some _ |- _ => rewrite weighted_with_endpoints_built in H end.
    simplify_eq. unfold slots_weighted, pool_weights. cbn. rewrite kept_spec_weights.
    split_and!; [done|by rewrite !length_fmap|]. apply pools_ok_weights, live_pools_ok.
  - eapply same_static_weighted; [|done]. unfold with_per_backend_filters.
    case_decide; [done|]. by destruct (existsb _ _).
  - eapply same_static_weighted; [|done]. by destruct a.
  - eapply same_static_weighted; [|done]. unfold release. by repeat case_match.
  - eapply same_static_weighted; [|done]. unfold complete. by repeat case_match.
Qed.

Lemma share_replicate_eq n v i : v = Z.of_nat i → share i (replicate n v) = n.
Proof.
  intros ->. unfold share. induction n as [|n IH]; [done|].
  cbn [replicate]. rewrite filter_cons_True by done. cbn. by rewrite IH.
Qed.

Lemma share_none i l : (∀ b, b ∈ l → b ≠ Z.of_nat i) → share i l = 0.
Proof.
  intros Hl. unfold share. apply length_zero_iff_nil, elem_of_nil_inv.
  intros b [-> Hb]%list_elem_of_filter. by apply Hl in Hb.
Qed.

Lemma share_slots_of ws i w :
  (Z.of_nat (length ws) ≤ 2 ^ 16)%Z → ws !! i = Some w →
  share i (slots_of ws) = Z.to_nat w.
Proof.
  intros Hlen Hi. unfold slots_of. pose proof (lookup_lt_Some _ _ _ Hi).
  rewrite <-(take_drop_middle ws i w Hi), imap_app, join_app, imap_cons.
  cbn [mjoin list_join]. rewrite !share_app, share_replicate_eq.
  2:{ rewrite length_take, Nat.add_0_r, Nat.min_l by lia. apply wrap_small. lia. }
  rewrite !share_none; [lia|..].
  - intros b (l & Hb & Hl)%list_elem_of_join.
    apply elem_of_lookup_imap in Hl as (j & v & -> & Hj).
    apply elem_of_replicate in Hb as [-> _]. apply lookup_lt_Some in Hj.
    rewrite length_drop in Hj. rewrite length_take, Nat.min_l by lia.
    cbn. rewrite wrap_small by lia. lia.
  - intros b (l & Hb & Hl)%list_elem_of_join.
    apply elem_of_lookup_imap in Hl as (j & v & -> & Hj).
    apply elem_of_replicate in Hb as [-> _]. apply lookup_lt_Some in Hj.
    rewrite length_take in Hj. rewrite wrap_small by lia. lia.
Qed.
End exact.

(** ** Rendezvous hashing *)

Lemma max_by_key_fmap {A B} (key : B → Z) (f : A → B) l :
  max_by_key key (f <$> l) = f <$> max_by_key (key ∘ f) l.
Proof.
  induction l as [|x l IH]; [done|]. cbn. rewrite IH.
  destruct (max_by_key (key ∘ f) l); cbn; [|done]. unfold compose. by case_zb.
Qed.

Section rendezvous.
Context {FilterAction UpstreamTls : Type}.
Abbreviation group := (@BackendGroup FilterAction UpstreamTls).
Implicit Types g : group.

Definition owner (key : Z) (addrs : list SocketAddr) : option SocketAddr :=
  max_by_key (λ a, rendezvous_score key (affinity_token a)) addrs.

Lemma owner_index {A} (addr : A → SocketAddr) (token : A → Z) key (l : list A) :
  Forall (λ e, token e = affinity_token (addr e)) l →
  addr <$> max_by_key (λ e, rendezvous_score key (token e)) l = owner key (addr <$> l).
Proof.
  intros Hl. unfold owner. rewrite max_by_key_fmap. f_equal. unfold compose.
  induction Hl as [|e l He Hl IH]; [done|]. cbn. rewrite IH. clear IH.
  destruct (max_by_key _ l) as [y|] eqn:E; [|done].
  apply max_by_key_spec in E as (l1 & l2 & -> & _).
  rewrite Forall_forall in Hl. by rewrite He, (Hl y ltac:(set_solver)).
Qed.

Lemma select_hash_owner g src key :
  group_wf g → bg_load_balance g = Hash src →
  ∃ r, select_upstream (Some key) g = Some (r, g) ∧
    sel_addr <$> r = owner key (bg_addrs_snapshot g).
Proof.
  intros Hwf Hlb. unfold select_upstream. rewrite Hlb. pose proof (gw_lb _ Hwf) as Hidx.
  destruct (bg_lb_endpoints g) as [eps|] eqn:E.
  - destruct Hidx as (_ & _ & Hi & Ht). eexists. split; [done|].
    rewrite <-option_fmap_compose.
    rewrite (gw_snapshot _ Hwf), <-pooled_addrs, <-Hi, <-list_fmap_compose.
    by rewrite <-(owner_index lb_addr lb_token).
  - destruct Hidx as [Hrr|Hnil]; [congruence|]. eexists. split; [done|].
    by rewrite (gw_snapshot _ Hwf), Hnil.
Qed.

Lemma endpoint_by_hash_owner g key :
  group_wf g → is_Some (bg_session_affinity g) →
  fst <$> endpoint_by_hash g key = owner key (bg_addrs_snapshot g).
Proof.
  intros Hwf [cfg Hc]. pose proof (gw_affinity _ Hwf) as Hidx. unfold endpoint_by_hash.
  destruct (bg_affinity_endpoints g) as [eps|]; [|congruence]. destruct Hidx as (_ & Hi & Ht).
  rewrite (gw_snapshot _ Hwf), <-pooled_addrs, <-Hi, <-list_fmap_compose.
  rewrite <-(owner_index ae_addr ae_token) by done. cbn [mbind option_bind].
  by destruct (max_by_key _ eps).
Qed.

Lemma owner_filter (P : SocketAddr → Prop) `{∀ a, Decision (P a)} key addrs a :
  owner key addrs = Some a → P a → owner key (filter P addrs) = Some a.
Proof. apply max_by_key_filter. Qed.
End rendezvous.

(** ** Least-connections accounting *)

Section least_conn.
Context {FilterAction UpstreamTls : Type}.
Abbreviation group := (@BackendGroup FilterAction UpstreamTls).
Implicit Types g : group.

(** A group with the track indices of the requests in flight: a selection
    starts one; a retry releases one and a finished request completes one. *)
Inductive lc_step : group * list Z → group * list Z → Prop :=
| lc_select k g infl s t g' :
    select_upstream k g = Some (Some s, g') → sel_track s = Some t →
    lc_step (g, infl) (g', t :: infl)
| lc_release g l1 t l2 : lc_step (g, l1 ++ t :: l2) (release t g, l1 ++ l2)
| lc_complete g l1 t l2 d : lc_step (g, l1 ++ t :: l2) (complete t d g, l1 ++ l2).

(** Active counters mirror the requests in flight. *)
Definition lc_inv (n : nat) (st : group * list Z) : Prop :=
  ∃ eps, bg_load_balance st.1 = LeastConn ∧ bg_lb_endpoints st.1 = Some eps ∧
    length eps = n ∧
    Forall (λ t, 0 ≤ t < Z.of_nat n)%Z st.2 ∧
    ∀ i e, eps !! i = Some e → lb_active e = wrap 32 (Z.of_nat (share i st.2)).

Lemma share_cons t i l : share i (t :: l) = (if decide (t = Z.of_nat i) then 1 else 0) + share i l.
Proof. unfold share. rewrite filter_cons. by case_decide. Qed.

Lemma wrap_add_l w a b : wrap w (wrap w a + b) = wrap w (a + b).
Proof. apply Zplus_mod_idemp_l. Qed.

Lemma lc_inv_drop n g g' eps l1 t l2 :
  lc_inv n (g, l1 ++ t :: l2) → bg_lb_endpoints g = Some eps →
  bg_load_balance g' = LeastConn →
  bg_lb_endpoints g' = Some (dec_active eps (Z.to_nat t)) → lc_inv n (g', l1 ++ l2).
Proof.
  intros (eps' & Hlb & Heps & Hlen & Hr & Hact) Heps' Hlb' Hg'. cbn in *.
  rewrite Heps in Heps'. injection Heps' as ->. subst n.
  apply Forall_app in Hr as [Hr1 [Ht Hr2]%Forall_cons].
  exists (dec_active eps (Z.to_nat t)). split_and!; try done.
  - apply length_alter.
  - cbn. by apply Forall_app.
  - cbn. intros i e. unfold dec_active. destruct (decide (Z.to_nat t = i)) as [<-|Hne].
    + rewrite list_lookup_alter_eq. destruct (eps !! Z.to_nat t) as [e0|] eqn:E; [|done].
      intros [= <-]. cbn. specialize (Hact _ _ E). rewrite Hact.
      rewrite !share_app, share_cons, decide_True by lia.
      unfold Z.sub. rewrite wrap_add_l. f_equal. lia.
    + rewrite list_lookup_alter_ne by done. intros He. rewrite (Hact _ _ He).
      rewrite !share_app, share_cons, decide_False by lia. done.
Qed.

Lemma lc_select_choice n k g infl s g' :
  (Z.of_nat n ≤ 2 ^ 32)%Z → lc_inv n (g, infl) → select_upstream k g = Some (Some s, g') →
  ∃ eps i e, bg_lb_endpoints g = Some eps ∧ eps !! i = Some e ∧
    sel_track s = Some (Z.of_nat i) ∧ sel_addr s = lb_addr e ∧
    bg_load_balance g' = LeastConn ∧
    bg_lb_endpoints g' = Some (alter (λ e, set_active e (wrap 32 (lb_active e + 1))) i eps) ∧
    ∀ j e', eps !! j = Some e' → (lb_active e ≤ lb_active e')%Z ∧ (j < i → (lb_active e < lb_active e')%Z).
Proof.
  intros Hn (eps & Hlb & Heps & Hlen & _) Hsel. cbn in *. unfold select_upstream in Hsel.
  rewrite Hlb, Heps in Hsel.
  assert (eps ≠ []) as Hne by (intros ->; done).
  destruct (min_index_choice lb_active eps Hne) as (i & e & Hmin & Hi & Hleast).
  rewrite Hmin in Hsel. simplify_eq. exists eps, i, e. cbn.
  pose proof (lookup_lt_Some _ _ _ Hi). rewrite wrap_small by lia.
  split_and!; try done. f_equal.
  by apply (insert_alter eps i e (λ e, set_active e (wrap 32 (lb_active e + 1)))).
Qed.

Lemma lc_inv_step n st st' :
  (Z.of_nat n ≤ 2 ^ 32)%Z → lc_inv n st → lc_step st st' → lc_inv n st'.
Proof.
  intros Hn Hinv Hstep. destruct Hstep as [k g infl s t g' Hsel Ht|g l1 t l2|g l1 t l2 d].
  - destruct (lc_select_choice n k g infl s g' Hn Hinv Hsel)
      as (eps & i & e & Heps & Hi & Htr & _ & Hlb' & Heps' & _).
    destruct Hinv as (eps' & Hlb & Heps'' & Hlen & Hr & Hact). cbn in *. simplify_eq.
    pose proof (lookup_lt_Some _ _ _ Hi).
    eexists. split_and!; try done; [apply length_alter| |].
    + cbn. constructor; [lia|done].
    + cbn. intros j e'. destruct (decide (i = j)) as [->|Hne].
      * rewrite list_lookup_alter_eq, Hi. intros [= <-]. cbn.
        rewrite (Hact _ _ Hi), share_cons, decide_True, wrap_add_l by done. f_equal. lia.
      * rewrite list_lookup_alter_ne by done. intros He. rewrite (Hact _ _ He).
        by rewrite share_cons, decide_False by lia.
  - pose proof Hinv as (eps & Hlb & Heps & Hlen & Hr & _). cbn in *.
    apply Forall_app in Hr as [_ [Ht _]%Forall_cons].
    destruct (lookup_lt_is_Some_2 eps (Z.to_nat t)) as [e He]; [lia|].
    eapply lc_inv_drop; [done|done|..]; unfold release; rewrite Heps, He, Hlb; done.
  - pose proof Hinv as (eps & Hlb & Heps & Hlen & Hr & _). cbn in *.
    apply Forall_app in Hr as [_ [Ht _]%Forall_cons].
    destruct (lookup_lt_is_Some_2 eps (Z.to_nat t)) as [e He]; [lia|].
    eapply lc_inv_drop; [done|done|..]; unfold complete; rewrite Heps, He, Hlb; done.
Qed.

Lemma lc_inv_init g :
  group_wf g → bg_backends g ≠ [] →
  lc_inv (length (bg_addrs_snapshot g)) (with_load_balance LeastConn g, []).
Proof.
  intros Hwf Hne. pose proof (gw_pools _ Hwf) as Hp. unfold lc_inv. cbn.
  destruct (_ <$> pooled (bg_backends g)) as [|e l] eqn:E.
  { apply fmap_nil_inv, pooled_nil in E; done. }
  eexists. split_and!; [done|done| |done|].
  - rewrite <-E, length_fmap, (gw_snapshot _ Hwf), <-pooled_addrs. by rewrite length_fmap.
  - intros i e'. rewrite <-E, list_lookup_fmap.
    by destruct (pooled _ !! i) as [[]|]; intros [= <-].
Qed.

Lemma lc_inv_run n st st' :
  (Z.of_nat n ≤ 2 ^ 32)%Z → rtc lc_step st st' → lc_inv n st → lc_inv n st'.
Proof. intros Hn. induction 1; eauto using lc_inv_step. Qed.
End least_conn.

(** ** Main theorems *)

Section main.
Context {FilterAction UpstreamTls : Type}.
Abbreviation group := (@BackendGroup FilterAction UpstreamTls).
Implicit Types g : group.

(** Building a group from backend refs never panics.  The retained spec is
    the positive-weight refs that resolved an address or carry an endpoint key;
    the address snapshot lists the pods of the positive-weight, address-bearing
    refs in order; and the slot array gives each of them its weight divided by
    the gcd of all of them. *)
Theorem group_construction name entries :
  ∃ g, weighted_with_endpoints name entries = Some g ∧ reachable g ∧
    bg_spec g = kept_spec entries ∧
    bg_addrs_snapshot g = mjoin (live_pools entries).*1 ∧
    ((Z.of_nat (length (live_pools entries)) ≤ 2 ^ 16)%Z →
     ∀ i addrs w, live_pools entries !! i = Some (addrs, w) →
       Z.of_nat (share i (bg_slots g)) = (w / gcd_list (live_pools entries).*2)%Z).
Proof.
  pose proof (weighted_with_endpoints_built (FilterAction := FilterAction)
    (UpstreamTls := UpstreamTls) name entries) as Hb.
  eexists. split; [done|]. split; [by econstructor|]. split_and!; [done..|].
  intros Hlen i addrs w Hi. cbn [built bg_slots].
  assert (Forall (λ w, 0 < w)%Z (live_pools entries).*2) as Hpos
    by apply pools_ok_weights, live_pools_ok.
  pose proof (reduced_pos _ Hpos) as Hred. rewrite gcd_reduce_spec in * by done.
  assert (((λ w, w / gcd_list (live_pools entries).*2)%Z <$> (live_pools entries).*2) !! i =
    Some (w / gcd_list (live_pools entries).*2)%Z) as Hl
    by (by rewrite !list_lookup_fmap, Hi).
  erewrite share_slots_of; [|by rewrite !length_fmap|exact Hl].
  pose proof (Forall_lookup_1 _ _ _ _ Hred Hl) as Hw. cbn in Hw. lia.
Qed.

(** C20: On every group a program can build, with any load-balancing algorithm
    and after any history of selections, [select_upstream] does not panic and
    leaves a group of the same kind.  It answers [None] exactly when no pool
    has an address, and otherwise an address of the group, paired (for up to
    65,536 pools) with the filters of a pool that holds it. *)
Theorem select_upstream_sound k g :
  reachable g →
  ∃ r g', select_upstream k g = Some (r, g') ∧ reachable g' ∧ group_wf g' ∧
    (r = None ↔ bg_addrs_snapshot g = []) ∧
    ∀ s, r = Some s →
      sel_addr s ∈ bg_addrs_snapshot g ∧
      ((Z.of_nat (length (bg_backends g)) ≤ 2 ^ 16)%Z →
       selection_of g (sel_addr s) (sel_filters s)).
Proof.
  intros Hr. pose proof (reachable_group_wf g Hr) as Hwf.
  destruct (select_upstream_spec k g Hwf) as (r & g' & Hsel & Hwf' & Hnone & Hs).
  exists r, g'. split_and!; [done|by eapply reach_select|done| |done].
  rewrite Hnone, (gw_snapshot _ Hwf). split; [by intros ->|].
  rewrite <-pooled_addrs. intros Hnil%fmap_nil_inv. by apply pooled_nil, Hnil; apply gw_pools.
Qed.

(** Weighted round robin is exact.  From any state of any group, [m] rounds
    of selections (a round is one pass over the slots, no counter overflow)
    all succeed and return, up to order, [m * (w_i / gcd)] consecutive picks of
    each pool [i] of declared weight [w_i]. *)
Theorem weighted_round_robin_exact g m :
  reachable g → bg_backends g ≠ [] →
  (Z.of_nat (length (bg_backends g)) ≤ 2 ^ 16)%Z →
  (bg_slot_counter g + Z.of_nat (m * length (bg_slots g)) ≤ 2 ^ 64)%Z →
  ∃ picked g', rr_run (m * length (bg_slots g)) g = Some (picked, g') ∧
    picked ≡ₚ mjoin (zip_with
      (λ w, pool_picks (m * Z.to_nat (w / gcd_list (pool_weights g))))
      (pool_weights g) (bg_backends g)).
Proof.
  intros Hr Hne Hlen Hc. pose proof (reachable_group_wf g Hr) as Hwf.
  destruct (reachable_weighted g Hr) as (Hslots & Hwlen & Hpos).
  assert (bg_slots g ≠ []) as Hsne by by rewrite (gw_slots_nil _ Hwf).
  destruct (rr_run_schedule (m * length (bg_slots g)) g Hwf Hsne Hc) as (l & g' & Hrun & Hl).
  exists l, g'. split; [done|]. rewrite Hl.
  apply reflexive_eq. f_equal. apply list_eq. intros i. rewrite list_lookup_imap, lookup_zip_with.
  destruct (pool_weights g !! i) as [w|] eqn:Hw; cbn.
  2:{ apply lookup_ge_None in Hw. by rewrite (lookup_ge_None_2 (bg_backends g)) by lia. }
  destruct (bg_backends g !! i) as [p|]; [cbn|done]. do 2 f_equal.
  rewrite (cycle_rounds (bg_slots g) _ m Hsne) by apply (gw_counter _ Hwf).
  rewrite share_rounds. f_equal. rewrite Hslots, gcd_reduce_spec by done.
  apply share_slots_of; [by rewrite length_fmap, Hwlen|]. by rewrite list_lookup_fmap, Hw.
Qed.

(** Within a pool, any [m] rounds of picks from any counter value (short of
    the 64-bit wrap) return every pod exactly [m] times. *)
Theorem pool_round_robin_fair p m :
  pool_wf p → (bp_rr p + Z.of_nat (m * length (bp_addrs p)) ≤ 2 ^ 64)%Z →
  pool_picks (m * length (bp_addrs p)) p ≡ₚ mjoin (replicate m (bp_addrs p)).
Proof.
  intros Hwf HK. rewrite pool_picks_cycle by done. destruct Hwf as [Hne Hrr].
  apply cycle_rounds; [done|lia].
Qed.

(** Rendezvous hashing disrupts no key it does not have to.  When the pods of
    [g'] are those of [g] that satisfy [P] (pods removed, or read backwards,
    pods added), every key whose owner in [g] is kept has the same owner in
    [g'], in [Hash] mode and in header affinity. *)
Theorem rendezvous_minimal_disruption (P : SocketAddr → Prop) `{∀ a, Decision (P a)} g g' key :
  reachable g → reachable g' →
  bg_addrs_snapshot g' = filter P (bg_addrs_snapshot g) →
  (∀ src src', bg_load_balance g = Hash src → bg_load_balance g' = Hash src' →
   ∀ s g1, select_upstream (Some key) g = Some (Some s, g1) → P (sel_addr s) →
   ∃ s' g2, select_upstream (Some key) g' = Some (Some s', g2) ∧ sel_addr s' = sel_addr s) ∧
  (is_Some (bg_session_affinity g) → is_Some (bg_session_affinity g') →
   ∀ a, fst <$> endpoint_by_hash g key = Some a → P a →
   fst <$> endpoint_by_hash g' key = Some a).
Proof.
  intros Hwf%reachable_group_wf Hwf'%reachable_group_wf Hsub. split.
  - intros src src' Hlb Hlb' s g1 Hsel HP.
    destruct (select_hash_owner g src key Hwf Hlb) as (r & Hr & Hown).
    destruct (select_hash_owner g' src' key Hwf' Hlb') as (r' & Hr' & Hown').
    rewrite Hsel in Hr. simplify_eq. cbn in Hown.
    rewrite Hsub, (owner_filter P key _ (sel_addr s)) in Hown' by done.
    apply fmap_Some in Hown' as (s' & -> & Hs'). eauto.
  - intros Ha Ha' a. rewrite !endpoint_by_hash_owner, Hsub by done. apply owner_filter.
Qed.

(** Least-connections bookkeeping balances.  Starting from any group with
    [LeastConn] configured and following any interleaving of selections,
    releases and completions of requests in flight, every endpoint's counter
    is the number of requests in flight on it (modulo 2^32, so no underflow
    sticks); and below that many requests the next selection picks an endpoint
    with the fewest requests in flight. *)
Theorem least_conn_accounting g g' infl :
  reachable g → bg_backends g ≠ [] →
  (Z.of_nat (length (bg_addrs_snapshot g)) ≤ 2 ^ 32)%Z →
  rtc lc_step (with_load_balance LeastConn g, []) (g', infl) →
  (∀ eps i e, bg_lb_endpoints g' = Some eps → eps !! i = Some e →
     lb_active e = wrap 32 (Z.of_nat (share i infl))) ∧
  ((Z.of_nat (length infl) < 2 ^ 32)%Z → ∀ k s g'',
     select_upstream k g' = Some (Some s, g'') →
     ∃ i, sel_track s = Some (Z.of_nat i) ∧
       ∀ j, j < length (bg_addrs_snapshot g) → share i infl ≤ share j infl).
Proof.
  intros Hr Hne Hn Hrun. apply reachable_group_wf in Hr as Hwf.
  pose proof (lc_inv_run _ _ _ Hn Hrun (lc_inv_init g Hwf Hne)) as Hinv. split.
  - intros eps i e Heps He. destruct Hinv as (eps' & _ & Heps' & _ & _ & Hact). cbn in *.
    simplify_eq. eauto.
  - intros Hin k s g'' Hsel.
    destruct (lc_select_choice _ k g' infl s g'' Hn Hinv Hsel)
      as (eps & i & e & Heps & Hi & Ht & _ & _ & _ & Hleast).
    destruct Hinv as (eps' & _ & Heps' & Hlen & _ & Hact). cbn in *.
    rewrite Heps in Heps'. injection Heps' as ->.
    exists i. split; [done|]. intros j Hj.
    destruct (lookup_lt_is_Some_2 eps' j) as [e' He']; [lia|].
    assert (∀ i, wrap 32 (Z.of_nat (share i infl)) = Z.of_nat (share i infl)) as Hsmall.
    { intros i'. apply wrap_small. pose proof (length_filter (λ b, b = Z.of_nat i') infl).
      unfold share. lia. }
    destruct (Hleast j e' He') as [Hle _].
    rewrite (Hact _ _ Hi), (Hact _ _ He'), !Hsmall in Hle. lia.
Qed.
End main.

(** ** Latency averages, tokens and selectors *)

Lemma ewma_fold_bounds old d :
  (0 ≤ old ≤ u64_max)%Z → (0 ≤ d)%Z →
  let sample := Z.min d u64_max in
  (old = 0 → ewma_fold old d = sample)%Z ∧
  (old ≠ 0 → Z.min old sample ≤ ewma_fold old d ≤ Z.max old sample ∧ ewma_fold old d ≠ 0)%Z.
Proof.
  intros Hold Hd sample. subst sample. unfold ewma_fold, saturating_add, saturating_sub.
  unfold u64_max in *. set (s := Z.min d (2 ^ 64 - 1)). split.
  - by intros ->.
  - intros Hne. destruct (Z.eqb_spec old 0); [done|].
    pose proof (Z.div_mod old 8 ltac:(lia)). pose proof (Z.mod_pos_bound old 8 ltac:(lia)).
    pose proof (Z.div_mod s 8 ltac:(lia)). pose proof (Z.mod_pos_bound s 8 ltac:(lia)). lia.
Qed.

Section pinning.
Context {FilterAction UpstreamTls : Type}.
Abbreviation group := (@BackendGroup FilterAction UpstreamTls).
Implicit Types g : group.

(** A completed request folds its latency into one endpoint only.  The new
    average is the sample when the endpoint was never sampled; otherwise it
    lies between the old average and the sample (clamped to 64 bits), so the
    saturating arithmetic never saturates, and a sampled endpoint never returns
    to the never-sampled value 0. *)
Theorem complete_ewma g eps (i : nat) e d :
  bg_load_balance g = Ewma → bg_lb_endpoints g = Some eps → eps !! i = Some e →
  (0 ≤ lb_ewma_ns e ≤ u64_max)%Z → (0 ≤ d)%Z →
  ∃ eps' e', bg_lb_endpoints (complete (Z.of_nat i) (Some d) g) = Some eps' ∧
    eps' !! i = Some e' ∧ (∀ j, j ≠ i → eps' !! j = eps !! j) ∧
    let sample := Z.min d u64_max in
    if decide (lb_ewma_ns e = 0)%Z then lb_ewma_ns e' = sample
    else (Z.min (lb_ewma_ns e) sample ≤ lb_ewma_ns e' ≤ Z.max (lb_ewma_ns e) sample ∧
          lb_ewma_ns e' ≠ 0)%Z.
Proof.
  intros Hlb Heps Hi Hold Hd. unfold complete. rewrite Heps, Nat2Z.id, Hi, Hlb. cbn.
  eexists _, _. split; [done|]. split.
  { rewrite list_lookup_alter_eq, Hi. done. }
  split; [intros j Hj; by rewrite list_lookup_alter_ne|]. cbn.
  destruct (ewma_fold_bounds (lb_ewma_ns e) d Hold Hd) as [H0 H1].
  case_decide; auto.
Qed.

(** Cookie affinity.  The token of a pooled address resolves to that address
    with the filters of a pool holding it, provided no other pooled address
    shares the token; a token of no pooled address resolves to nothing (the
    proxy then re-balances); and without affinity nothing resolves. *)
Theorem endpoint_by_token_pins g :
  reachable g →
  (bg_session_affinity g = None → ∀ t, endpoint_by_token g t = None) ∧
  (is_Some (bg_session_affinity g) → ∀ a, a ∈ bg_addrs_snapshot g →
   (∀ b, b ∈ bg_addrs_snapshot g → affinity_token b = affinity_token a → b = a) →
   ∃ fs, endpoint_by_token g (affinity_token a) = Some (a, fs) ∧
     ((Z.of_nat (length (bg_backends g)) ≤ 2 ^ 16)%Z → selection_of g a fs)) ∧
  (∀ t, (∀ b, b ∈ bg_addrs_snapshot g → affinity_token b ≠ t) → endpoint_by_token g t = None).
Proof.
  intros Hr. pose proof (reachable_group_wf g Hr) as Hwf.
  pose proof (gw_affinity _ Hwf) as Haff. unfold endpoint_by_token.
  destruct (bg_affinity_endpoints g) as [eps|].
  2:{ rewrite Haff. split_and!; [done|by intros []|done]. }
  destruct Haff as ([cfg Hcfg] & Hi & Ht). rewrite Hcfg.
  assert (bg_addrs_snapshot g = ae_addr <$> eps) as Hsnap.
  { by rewrite (gw_snapshot _ Hwf), <-pooled_addrs, <-Hi, <-list_fmap_compose. }
  rewrite Forall_forall in Ht. cbn [mbind option_bind]. split_and!; [done|..].
  - intros _ a Ha Hinj. rewrite Hsnap in *.
    destruct (find_first _ eps) as [e|] eqn:E.
    + apply find_first_elem in E as [He Htok%Z.eqb_eq]. rewrite (Ht e He) in Htok.
      cbn [mbind option_bind].
      rewrite (Hinj (ae_addr e) (list_elem_of_fmap_2 ae_addr _ _ He) Htok).
      eexists. split; [done|]. intros Hlen.
      assert ((ae_backend_idx e, ae_addr e) ∈ pooled (bg_backends g)) as Hin.
      { rewrite <-Hi. by apply (list_elem_of_fmap_2 (λ e, (ae_backend_idx e, ae_addr e))). }
      apply elem_of_pooled in Hin as (j & p & Hj & Hap & ->).
      pose proof (lookup_lt_Some _ _ _ Hj). rewrite wrap_small, Nat2Z.id by lia.
      exists j, p. split_and!; [done| |done].
      by rewrite <-(Hinj (ae_addr e) (list_elem_of_fmap_2 ae_addr _ _ He) Htok).
    + apply list_elem_of_fmap in Ha as (e & -> & He).
      apply find_first_None in E. rewrite Forall_forall in E. specialize (E e He).
      rewrite (Ht e He) in E. by apply Z.eqb_neq in E.
  - intros t Hno. destruct (find_first _ eps) as [e|] eqn:E; [|done].
    apply find_first_elem in E as [He Htok%Z.eqb_eq]. rewrite (Ht e He) in Htok.
    exfalso. apply (Hno (ae_addr e)); [|done]. rewrite Hsnap. by apply list_elem_of_fmap_2.
Qed.
End pinning.

(** Two distinct IPv6 pods with one 64-bit token. *)
Definition pod_a : SocketAddr := mkSocketAddr (V6 42540766411282592869166827267206478135) 443.
Definition pod_b : SocketAddr := mkSocketAddr (V6 42540766411282592869886005034513621177) 443.

(** Tokens are not injective on addresses: two distinct IPv6 pods have the
    same token, and in a group of both, the cookie minted for the second pins
    the client to the first. *)
Theorem affinity_token_collision :
  pod_a ≠ pod_b ∧ affinity_token pod_a = affinity_token pod_b ∧
  ∀ (FilterAction UpstreamTls : Type) name cookie,
  ∃ g : @BackendGroup FilterAction UpstreamTls,
    BackendGroup_new name [pod_a; pod_b] = Some g ∧
    endpoint_by_token (with_session_affinity (Some (SaCookie cookie)) g) (affinity_token pod_b)
      = Some (pod_a, None).
Proof.
  split; [by vm_compute|]. split; [by vm_compute|].
  intros F U name cookie. eexists. split; [done|]. by vm_compute.
Qed.

(** The streaming hash over parts equals the hash of their concatenation, so
    hashing [path], [?] and [query] separately keys the same endpoint as the
    joined URI. *)
Theorem affinity_hash_parts_concat parts :
  affinity_hash_parts parts = affinity_hash (mjoin parts).
Proof.
  unfold affinity_hash, affinity_hash_parts. by rewrite !foldl_mjoin; cbn; rewrite app_nil_r.
Qed.

(** The documented vocabulary of load-balance selectors. *)
Inductive lb_denotes (header_from_bytes : str → option str) : str → LoadBalance → Prop :=
| den_rr : lb_denotes _ (lit "round_robin") RoundRobin
| den_lc : lb_denotes _ (lit "least_conn") LeastConn
| den_ewma : lb_denotes _ (lit "ewma") Ewma
| den_ip : lb_denotes _ (lit "ip_hash") (Hash HsSourceIp)
| den_uri : lb_denotes _ (lit "hash:uri") (Hash HsUri)
| den_source_ip : lb_denotes _ (lit "hash:source-ip") (Hash HsSourceIp)
| den_header name h :
    name ≠ [] → header_from_bytes name = Some h →
    lb_denotes _ (lit "hash:header=" ++ name) (Hash (HsHeader h))
| den_cookie name :
    name ≠ [] → lb_denotes _ (lit "hash:cookie=" ++ name) (Hash (HsCookie name)).

Lemma strip_prefix_app p s : strip_prefix p (p ++ s) = Some s.
Proof. by apply strip_prefix_Some. Qed.

(** [parse_lenient] accepts exactly the documented selectors, each with its
    documented meaning. *)
Theorem parse_lenient_iff from_bytes s lb :
  parse_lenient from_bytes s = Ok lb ↔ lb_denotes from_bytes s lb.
Proof.
  split.
  - unfold parse_lenient. repeat (case_decide; [intros [= <-]; subst; constructor|]).
    destruct (strip_prefix (lit "hash:") s) as [attr|] eqn:E; [|done].
    apply strip_prefix_Some in E as ->. unfold parse_hash_attribute.
    repeat (case_decide; [intros [= <-]; subst; constructor|]).
    destruct (strip_prefix (lit "header=") attr) as [name|] eqn:E.
    + apply strip_prefix_Some in E as ->. case_decide; [done|].
      destruct (from_bytes name) as [h|] eqn:Eh; intros [= <-]. by constructor.
    + destruct (strip_prefix (lit "cookie=") attr) as [name|] eqn:E'; [|done].
      apply strip_prefix_Some in E' as ->. case_decide; intros [= <-]. by constructor.
  - intros [| | | | | |name h Hne Hh|name Hne]; try done.
    + change (lit "hash:header=") with (lit "hash:" ++ lit "header="). rewrite <-app_assoc.
      unfold parse_lenient. rewrite !decide_False by done. rewrite strip_prefix_app.
      unfold parse_hash_attribute. rewrite !decide_False by done. rewrite strip_prefix_app.
      by rewrite decide_False, Hh by done.
    + change (lit "hash:cookie=") with (lit "hash:" ++ lit "cookie="). rewrite <-app_assoc.
      unfold parse_lenient. rewrite !decide_False by done. rewrite strip_prefix_app.
      unfold parse_hash_attribute. rewrite !decide_False by done.
      destruct (strip_prefix (lit "header=") _) eqn:E; [done|]. rewrite strip_prefix_app.
      by rewrite decide_False by done.
Qed.

(** ** Witnesses *)

Module Demo.
Definition pod (n : Z) : SocketAddr := mkSocketAddr (V4 (167772160 + n)) 8080.

Definition entries : list (ResolvedEndpoints * option EndpointKey * Z) :=
  [(mkResolvedEndpoints [pod 1; pod 2] Http1 true, None, 6%Z);
   (mkResolvedEndpoints [pod 3] Http1 true, None, 2%Z);
   (mkResolvedEndpoints [] Http1 true,
    Some (mkEndpointKey (lit "ns") (lit "svc") 80), 1%Z);
   (mkResolvedEndpoints [pod 4] Http1 true, None, 0%Z)].

Definition group : @BackendGroup Z unit := built (lit "demo") (kept_spec entries) (live_pools entries).

Lemma group_reachable : reachable group.
Proof. apply (reach_construct (lit "demo") entries). apply weighted_with_endpoints_built. Qed.
End Demo.

Lemma select_upstream_sound_witness :
  ∃ r g', select_upstream None Demo.group = Some (r, g') ∧
    sel_addr <$> r = Some (Demo.pod 1).
Proof.
  destruct (select_upstream_sound None Demo.group Demo.group_reachable)
    as (r & g' & Hsel & _). exists r, g'. split; [done|].
  vm_compute in Hsel. injection Hsel as <- _. reflexivity.
Defined.

Lemma weighted_round_robin_exact_witness :
  ∃ picked g', rr_run 8 Demo.group = Some (picked, g') ∧
    picked ≡ₚ [Demo.pod 1; Demo.pod 2; Demo.pod 1; Demo.pod 2; Demo.pod 1; Demo.pod 2;
               Demo.pod 3; Demo.pod 3].
Proof.
  apply (weighted_round_robin_exact Demo.group 2 Demo.group_reachable); vm_compute; congruence.
Defined.

Lemma pool_round_robin_fair_witness :
  pool_picks 4 (mkBackendPool [Demo.pod 1; Demo.pod 2] 7) ≡ₚ
  [Demo.pod 1; Demo.pod 2; Demo.pod 1; Demo.pod 2].
Proof.
  apply (pool_round_robin_fair (mkBackendPool [Demo.pod 1; Demo.pod 2] 7) 2);
    [split; [done|cbn; lia]|cbn; lia].
Defined.

(** Three pods, and the same group after the first is scaled away. *)
Lemma rendezvous_minimal_disruption_witness :
  let g := with_session_affinity (Some (SaHeader (lit "x-user")))
             (with_load_balance (Hash HsUri) Demo.group) in
  let entries' := [(mkResolvedEndpoints [Demo.pod 2] Http1 true, None, 6%Z);
                   (mkResolvedEndpoints [Demo.pod 3] Http1 true, None, 2%Z)] in
  ∃ g0 : @BackendGroup Z unit, weighted_with_endpoints (lit "demo") entries' = Some g0 ∧
  let g' := with_session_affinity (Some (SaHeader (lit "x-user")))
              (with_load_balance (Hash HsUri) g0) in
  ∃ s g1 s' g2, select_upstream (Some 1%Z) g = Some (Some s, g1) ∧
    select_upstream (Some 1%Z) g' = Some (Some s', g2) ∧ sel_addr s' = sel_addr s.
Proof.
  intros g entries'. eexists. split; [reflexivity|]. intros g'.
  destruct (rendezvous_minimal_disruption (λ a, a ≠ Demo.pod 1) g g' 1) as [Hsel _].
  - subst g. repeat constructor. apply Demo.group_reachable.
  - subst g'. do 2 constructor. by apply (reach_construct (lit "demo") entries').
  - reflexivity.
  - edestruct (Hsel HsUri HsUri) as (s' & g2 & Hs' & Heq); [reflexivity|reflexivity| | |].
    + vm_compute. reflexivity.
    + vm_compute. congruence.
    + eexists _, _, s', g2. split; [vm_compute; reflexivity|]. split; [exact Hs'|exact Heq].
Defined.

(** Two selections and a completion of the first. *)
Lemma least_conn_accounting_witness :
  ∃ g' eps e, rtc lc_step (with_load_balance LeastConn Demo.group, []) (g', [1%Z]) ∧
    bg_lb_endpoints g' = Some eps ∧ eps !! 1 = Some e ∧ lb_active e = 1%Z.
Proof.
  assert (∃ g', rtc lc_step (with_load_balance LeastConn Demo.group, []) (g', [1%Z]) ∧
    ∃ eps e, bg_lb_endpoints g' = Some eps ∧ eps !! 1 = Some e) as (g' & Hrun & eps & e & Heps & He).
  { eexists. split.
    - eapply rtc_l; [eapply (lc_select None); [vm_compute; reflexivity|reflexivity]|].
      eapply rtc_l; [eapply (lc_select None); [vm_compute; reflexivity|reflexivity]|].
      apply rtc_once, (lc_complete _ [1%Z] 0%Z [] None).
    - eexists _, _. split; vm_compute; reflexivity. }
  exists g', eps, e. split; [done|]. split; [done|]. split; [done|].
  destruct (least_conn_accounting Demo.group g' [1%Z] Demo.group_reachable) as [Hact _];
    [vm_compute; congruence|vm_compute; congruence|done|].
  by rewrite (Hact eps 1 e Heps He).
Defined.

Lemma complete_ewma_witness :
  let g := complete 0 (Some 800%Z) (with_load_balance Ewma Demo.group) in
  ∃ eps' e', bg_lb_endpoints (complete 0 (Some 1600%Z) g) = Some eps' ∧
    eps' !! 0 = Some e' ∧ (800 ≤ lb_ewma_ns e' ≤ 1600)%Z.
Proof.
  intros g.
  destruct (bg_lb_endpoints g) as [eps|] eqn:Eg; [|by vm_compute in Eg].
  destruct (eps !! 0) as [e|] eqn:E0; [|by vm_compute in Eg; simplify_eq].
  assert (lb_ewma_ns e = 800)%Z as Hold by (vm_compute in Eg; by simplify_eq/=).
  destruct (complete_ewma g eps 0 e 1600) as (eps' & e' & Heps & He & _ & Hb);
    [reflexivity|exact Eg|exact E0|rewrite Hold; unfold u64_max; lia|lia|].
  exists eps', e'. split; [exact Heps|]. split; [exact He|].
  rewrite Hold, decide_False in Hb by done. destruct Hb as [Hb _].
  change (Z.min 1600 u64_max) with 1600%Z in Hb. exact Hb.
Defined.

Lemma endpoint_by_token_pins_witness :
  let g := with_session_affinity (Some (SaCookie (lit "__coxswain_session"))) Demo.group in
  ∃ fs, endpoint_by_token g (affinity_token (Demo.pod 2)) = Some (Demo.pod 2, fs).
Proof.
  intros g. destruct (endpoint_by_token_pins g) as (_ & Hpin & _).
  - constructor. apply Demo.group_reachable.
  - destruct (Hpin ltac:(by eexists) (Demo.pod 2)) as (fs & Hfs & _).
    + vm_compute. apply elem_of_cons. right. left.
    + change (bg_addrs_snapshot g) with [Demo.pod 1; Demo.pod 2; Demo.pod 3].
      intros b. rewrite !elem_of_cons, elem_of_nil.
      intros [->|[->|[->|[]]]]; vm_compute; congruence.
    + exists fs. exact Hfs.
Defined.
