(* ===== verification/External.v ===== *)
(** * Libraries the routing code calls

    The crates [regex], [http], [form_urlencoded] and [matchit] are not part of
    the repository.  Each is a class of the operations the sources use; the
    laws a theorem relies on are a separate class, so that definitions depend
    on no law.  [Sample] instantiates every class with executable functions. *)

From S2P Require Import Prelude.

(** [regex::Regex] / [RegexSet]: bounded compilation, the pattern text,
    matching, and capture expansion of a template. *)
Class RegexLib := {
  Regex : Type;
  regex_compile : str → option Regex;
  regex_as_str : Regex → str;
  regex_is_match : Regex → str → bool;
  regex_expand : Regex → str → str → option str;
}.

(** [http::HeaderName::from_bytes], [HeaderValue::from_str],
    [HeaderValue::to_str] and [form_urlencoded::parse]. *)
Class HttpLib := {
  header_name_from_bytes : str → option str;
  header_value_from_str : str → option str;
  header_value_to_str : str → option str;
  form_urlencoded_parse : str → list (str * str);
}.

(** [matchit::Router]: insertion may fail, lookup returns the value of the
    matched pattern. *)
Class MatchitLib := {
  Router : Type → Type;
  InsertError : Type;
  router_new : ∀ V, Router V;
  router_insert : ∀ {V}, str → V → Router V → result (Router V) InsertError;
  router_at : ∀ {V}, Router V → str → option V;
}.

(** ** What the routing code relies on in matchit *)

(** A path without parameter syntax. *)
Definition plain (s : str) : Prop := "{"%char ∉ s ∧ "}"%char ∉ s.

Definition catch_all_suffix : str := lit "/{*rest}".

(** The two shapes of pattern the host router inserts: a literal path, and a
    literal path followed by the catch-all [/{*rest}]. *)
Inductive Pattern :=
| Static (path : str)
| CatchAll (prefix : str).

#[export] Instance Pattern_eq_dec : EqDecision Pattern.
Proof. solve_decision. Defined.

Definition pattern_text (p : Pattern) : str :=
  match p with
  | Static s => s
  | CatchAll s => s ++ catch_all_suffix
  end.

Definition pattern_plain (p : Pattern) : Prop :=
  match p with Static s | CatchAll s => plain s end.

(** A catch-all matches a non-empty remainder after [prefix/]. *)
Definition pattern_matches (p : Pattern) (path : str) : bool :=
  match p with
  | Static s => bool_decide (s = path)
  | CatchAll s =>
      match strip_prefix (s ++ lit "/") path with
      | Some (_ :: _) => true
      | _ => false
      end
  end.

(** [q] takes precedence over [p] where both match: literals before catch-alls,
    longer literal prefixes before shorter ones. *)
Definition pattern_wins (q p : Pattern) : bool :=
  match q, p with
  | Static _, CatchAll _ => true
  | CatchAll s, CatchAll s' => Nat.ltb (length s') (length s)
  | _, _ => false
  end.

(** The documented behaviour of matchit on these shapes: [holds r es] says that
    [r] holds the patterns [es] with their values.  An insertion of a pattern
    already present is rejected and of a new one succeeds; a lookup returns the
    value of a matching pattern that no other matching pattern outranks, and
    fails only when none matches. *)
Class MatchitLaws `{MatchitLib} := {
  holds : ∀ {V}, Router V → list (Pattern * V) → Prop;
  holds_new V : holds (router_new V) [];
  holds_insert_new {V} (r : Router V) es p v :
    holds r es → pattern_plain p → p ∉ es.*1 →
    ∃ r', router_insert (pattern_text p) v r = Ok r' ∧ holds r' (es ++ [(p, v)]);
  holds_insert_dup {V} (r : Router V) es p v :
    holds r es → pattern_plain p → p ∈ es.*1 →
    ∃ e, router_insert (pattern_text p) v r = Err e;
  holds_at_Some {V} (r : Router V) es path v :
    holds r es → router_at r path = Some v →
    ∃ p, (p, v) ∈ es ∧ pattern_matches p path = true ∧
      ∀ q, q ∈ es.*1 → pattern_matches q path = true → pattern_wins q p = false;
  holds_at_None {V} (r : Router V) es path :
    holds r es → router_at r path = None →
    ∀ q, q ∈ es.*1 → pattern_matches q path = false;
}.

(** ** Executable instances *)

Module Sample.

Definition classify (text : str) : Pattern :=
  match strip_suffix catch_all_suffix text with
  | Some prefix => CatchAll prefix
  | None => Static text
  end.

Definition best {V} (a b : option (Pattern * V)) : option (Pattern * V) :=
  match a, b with
  | None, _ => b
  | Some _, None => a
  | Some (p, _), Some (q, _) => if pattern_wins q p then b else a
  end.

(** An association list of pattern texts; lookup keeps the winning match. *)
Definition at_list {V} (l : list (str * V)) (path : str) : option (Pattern * V) :=
  foldr (λ '(text, v) acc,
    best (if pattern_matches (classify text) path then Some (classify text, v) else None) acc)
    None l.

Definition insert_list {V} (text : str) (v : V) (l : list (str * V)) :
    result (list (str * V)) unit :=
  if decide (text ∈ l.*1) then Err () else Ok (l ++ [(text, v)]).

#[export] Instance matchit : MatchitLib := {|
  Router := λ V, list (str * V);
  InsertError := unit;
  router_new := λ V, [];
  router_insert := λ V, insert_list;
  router_at := λ V r path, snd <$> at_list r path;
|}.

Lemma classify_text p : pattern_plain p → classify (pattern_text p) = p.
Proof.
  unfold classify. destruct p as [s|s]; cbn [pattern_text pattern_plain]; intros [Hl Hr].
  - destruct (strip_suffix catch_all_suffix s) as [r|] eqn:E; [|done].
    apply strip_suffix_Some in E as ->. exfalso. apply Hl, elem_of_app. right. set_solver.
  - assert (strip_suffix catch_all_suffix (s ++ catch_all_suffix) = Some s) as ->; [|done].
    by apply strip_suffix_Some.
Qed.

Definition text_entry {V} (e : Pattern * V) : str * V := (pattern_text e.1, e.2).

Definition holds_list {V} (r : list (str * V)) (es : list (Pattern * V)) : Prop :=
  r = text_entry <$> es ∧ Forall (λ e, pattern_plain e.1) es.

Lemma text_mem {V} (es : list (Pattern * V)) p :
  Forall (λ e, pattern_plain e.1) es → pattern_plain p →
  pattern_text p ∈ (text_entry <$> es).*1 ↔ p ∈ es.*1.
Proof.
  intros Hes Hp. rewrite Forall_forall in Hes. rewrite <-list_fmap_compose, !list_elem_of_fmap.
  split; intros (e & Heq & He); exists e; (split; [|done]).
  - rewrite <-(classify_text p), Heq by done. by apply classify_text, Hes.
  - by rewrite Heq.
Qed.

Lemma wins_not_trans q p p' :
  pattern_wins p' p = false → pattern_wins q p' = false → pattern_wins q p = false.
Proof. destruct p, p', q; cbn [pattern_wins]; try done; rewrite ?Nat.ltb_ge; lia. Qed.

Lemma wins_asym p q : pattern_wins p q = true → pattern_wins q p = false.
Proof. destruct p, q; cbn [pattern_wins]; try done; rewrite ?Nat.ltb_lt, ?Nat.ltb_ge; lia. Qed.

Lemma wins_refl p : pattern_wins p p = false.
Proof. destruct p; cbn [pattern_wins]; try done. by rewrite Nat.ltb_ge. Qed.

(** The fold returns an unbeaten match, or nothing matches. *)
Lemma at_list_spec {V} (es : list (Pattern * V)) path :
  Forall (λ e, pattern_plain e.1) es →
  match at_list (text_entry <$> es) path with
  | None => ∀ q, q ∈ es.*1 → pattern_matches q path = false
  | Some (p, v) => (p, v) ∈ es ∧ pattern_matches p path = true ∧
      ∀ q, q ∈ es.*1 → pattern_matches q path = true → pattern_wins q p = false
  end.
Proof.
  induction 1 as [|[p v] es Hp _ IH]; cbn [fmap list_fmap at_list foldr text_entry fst snd].
  { intros q Hq. by apply elem_of_nil in Hq. }
  fold (at_list (text_entry <$> es) path).
  rewrite (classify_text p Hp). destruct (pattern_matches p path) eqn:Ep;
    destruct (at_list (text_entry <$> es) path) as [[q w]|]; cbn [best].
  - destruct IH as (Hin & Hq & Hmax). destruct (pattern_wins q p) eqn:Ew.
    + split; [by right|]. split; [done|]. intros q' [->|Hq']%elem_of_cons Hm; [|auto].
      by apply wins_asym.
    + split; [by left|]. split; [done|]. intros q' [->|Hq']%elem_of_cons Hm; [apply wins_refl|].
      by eapply wins_not_trans, Hmax.
  - split; [by left|]. split; [done|]. intros q' [->|Hq']%elem_of_cons Hm; [apply wins_refl|].
    by rewrite IH in Hm.
  - destruct IH as (Hin & Hq & Hmax). split; [by right|]. split; [done|].
    intros q' [->|Hq']%elem_of_cons Hm; [cbn in *; congruence|auto].
  - intros q' [->|Hq']%elem_of_cons; auto.
Qed.

#[export] Instance matchit_laws : @MatchitLaws matchit.
Proof.
  unshelve econstructor; [exact (@holds_list)|..]; cbn.
  - by split.
  - intros V r es p v [-> Hes] Hp Hnew. unfold insert_list.
    rewrite decide_False by (rewrite text_mem by done; done).
    eexists. split; [done|]. split; [by rewrite fmap_app|]. apply Forall_app; auto.
  - intros V r es p v [-> Hes] Hp Hdup. unfold insert_list.
    rewrite decide_True by (rewrite text_mem by done; done). eauto.
  - intros V r es path v [-> Hes] Hat. pose proof (at_list_spec es path Hes) as Hspec.
    destruct (at_list _ path) as [[p w]|]; simplify_eq/=. eauto.
  - intros V r es path [-> Hes] Hat. pose proof (at_list_spec es path Hes) as Hspec.
    by destruct (at_list _ path) as [[p w]|]; simplify_eq/=.
Qed.

(** Literal regular expressions: a pattern matches the equal path. *)
#[export] Instance regex : RegexLib := {|
  Regex := str;
  regex_compile := Some;
  regex_as_str := λ r, r;
  regex_is_match := λ r s, bool_decide (r = s);
  regex_expand := λ r s t, if decide (r = s) then Some t else None;
|}.

(** Lower-case tokens as names, any text as value, [k=v] pairs split at [&]. *)
#[export] Instance http : HttpLib := {|
  header_name_from_bytes := λ s, match s with [] => None | _ => Some s end;
  header_value_from_str := Some;
  header_value_to_str := Some;
  form_urlencoded_parse := λ s,
    match find_char "="%char s with
    | Some i => [(take i s, drop (S i) s)]
    | None => []
    end;
|}.

End Sample.
