(* ===== verification/Config.v ===== *)
(** * Per-route configuration

    The configuration records of [crates/coxswain-core/src/routing/common]:
    [rate_limit.rs], [circuit_breaker.rs], [compression.rs], [auth.rs],
    [retry.rs] and [upstream_tls.rs], with the decisions they take.  Durations
    are nanoseconds. *)

From S2P Require Import Prelude Net Backend.

(** ** Rate limiting and circuit breaking *)

Inductive RateLimitKey :=
| ClientIp
| RlHeader (name : str).

Record RateLimitConfig := mkRateLimitConfig {
  rl_requests_per_second : Z;
  rl_burst : Z;
  rl_key : RateLimitKey;
}.

Record CircuitBreakerConfig := mkCircuitBreakerConfig {
  cb_threshold_pct : Z;
  cb_min_requests : Z;
  cb_window : Z;
  cb_open_duration : Z;
  cb_max_open_duration : option Z;
}.

(** ** Compression *)

Record CompressionConfig := mkCompressionConfig {
  cc_gzip : bool;
  cc_brotli : bool;
  cc_level : Z;
  cc_min_size : Z;
  cc_types : list str;
}.

Definition allows_type (cfg : CompressionConfig) (content_type : str) : bool :=
  let media_type := trim_ascii (default [] (head (split_char ";"%char content_type))) in
  existsb (λ t, eq_ignore_ascii_case t media_type) (cc_types cfg).

(** ** Authentication *)

Inductive PasswordHash :=
| Bcrypt (h : str)
| Sha1 (h : str).

Record BasicCredential := mkBasicCredential {
  bc_username : str;
  bc_hash : PasswordHash;
}.

Record JwtHeaderLoc := mkJwtHeaderLoc {
  jh_name : str;
  jh_value_prefix : str;
}.

Record JwtConfig := mkJwtConfig {
  jwt_issuer : str;
  jwt_audiences : list str;
  jwt_jwks : str;
  jwt_from_headers : list JwtHeaderLoc;
  jwt_forward_payload_header : option str;
  jwt_claim_to_headers : list (str * str);
  jwt_forward_token : bool;
}.

Record HttpExtAuthConfig := mkHttpExtAuthConfig {
  hx_allowed_headers : list str;
  hx_response_headers : list str;
  hx_always_set_cookie : bool;
}.

Record GrpcExtAuthConfig := mkGrpcExtAuthConfig {
  gx_allowed_headers : list str;
  gx_response_headers : list str;
}.

Inductive ExtAuthTransport :=
| XHttp (cfg : HttpExtAuthConfig)
| XGrpc (cfg : GrpcExtAuthConfig).

Record ExtAuthConfig := mkExtAuthConfig {
  xa_timeout : Z;
  xa_endpoints : list SocketAddr;
  xa_fail_closed : bool;
  xa_transport : ExtAuthTransport;
}.

Inductive IngressAuthConfig :=
| AuthExternal (cfg : ExtAuthConfig)
| AuthBasic (credentials : list BasicCredential)
| AuthJwt (cfg : JwtConfig)
| AuthUnavailable.

Definition DEFAULT_ALLOWED_HEADERS_HTTP : list str := [lit "authorization"].

Definition DEFAULT_ALLOWED_HEADERS_GRPC : list str :=
  [lit "authorization"; lit "location"; lit "proxy-authenticate"; lit "set-cookie";
   lit "www-authenticate"].

Definition resolve_allowed_headers (raw default : list str) : list str :=
  match raw with
  | [] => default
  | _ => to_ascii_lowercase <$> raw
  end.

(** ** Retries *)

Definition DEFAULT_HTTP_RETRY_CODES : list Z := [502; 503; 504]%Z.
Definition DEFAULT_GRPC_RETRY_CODES : list Z := [14]%Z.

(** [Vec::dedup]: drop consecutive repeats. *)
Fixpoint dedup (l : list Z) : list Z :=
  match l with
  | x :: l' =>
      match l' with
      | y :: _ => if (x =? y)%Z then dedup l' else x :: dedup l'
      | [] => [x]
      end
  | [] => []
  end.

Definition normalize_codes (codes : option (list Z)) (dflt : list Z) : list Z :=
  dedup (sort_by Z.leb (default dflt codes)).

Definition retry_for_http (attempts : Z) (backoff : option Z) (http_codes : option (list Z)) :
    RetryPolicyConfig :=
  mkRetryPolicyConfig attempts backoff (normalize_codes http_codes DEFAULT_HTTP_RETRY_CODES) [].

Definition retry_for_grpc (attempts : Z) (backoff : option Z)
    (http_codes grpc_codes : option (list Z)) : RetryPolicyConfig :=
  mkRetryPolicyConfig attempts backoff (normalize_codes http_codes DEFAULT_HTTP_RETRY_CODES)
    (normalize_codes grpc_codes DEFAULT_GRPC_RETRY_CODES).

Definition is_disabled (p : RetryPolicyConfig) : bool := (rp_attempts p =? 0)%Z.

Definition retries_http (p : RetryPolicyConfig) (status : Z) : bool :=
  existsb (Z.eqb status) (rp_http_codes p).

Definition retries_grpc (p : RetryPolicyConfig) (code : Z) : bool :=
  existsb (Z.eqb code) (rp_grpc_codes p).

(** ** Upstream TLS *)

Inductive SubjectAltName :=
| SanHostname (h : str)
| SanUri (u : str).

Inductive UpstreamCa :=
| CaSystem
| CaBundle (pem : list Z).

Record BackendClientCert := mkBackendClientCert {
  ct_cert_pem : list Z;
  ct_key_pem : list Z;
  ct_source : str;
}.

Record UpstreamTls := mkUpstreamTls {
  ut_sni : str;
  ut_ca : UpstreamCa;
  ut_group_key : Z;
  ut_client_cert : option BackendClientCert;
  ut_subject_alt_names : list SubjectAltName;
}.

Definition dns_san_matches (expected cert_san : str) : bool :=
  match strip_prefix (lit "*.") cert_san with
  | Some wc_suffix =>
      match find_char dot expected with
      | Some dot_pos =>
          let label := take dot_pos expected in
          let rest := drop (dot_pos + 1) expected in
          negb (bool_decide (label = [])) && eq_ignore_ascii_case rest wc_suffix
      | None => false
      end
  | None => eq_ignore_ascii_case cert_san expected
  end.

Definition san_set_matches (expected : list SubjectAltName) (dns_sans uri_sans : list str) : bool :=
  existsb (λ e, match e with
                | SanHostname h => existsb (dns_san_matches h) dns_sans
                | SanUri u => existsb (λ s, bool_decide (s = u)) uri_sans
                end) expected.

Definition is_h2 (p : BackendProtocol) : bool :=
  match p with H2c => true | Http1 | WebSocket => false end.

Definition parse_app_protocol (raw : str) : BackendProtocol :=
  if decide (raw = lit "kubernetes.io/h2c") then H2c
  else if decide (raw = lit "kubernetes.io/ws") then WebSocket
  else Http1.

(** ** Theorems *)

(** RFC 6125 matching of one expected host name against one certificate name. *)
Definition dns_san_spec (expected cert_san : str) : Prop :=
  (∃ label rest suffix, cert_san = lit "*." ++ suffix ∧ expected = label ++ dot :: rest ∧
     label ≠ [] ∧ dot ∉ label ∧ to_ascii_lowercase rest = to_ascii_lowercase suffix) ∨
  ((∀ suffix, cert_san ≠ lit "*." ++ suffix) ∧
   to_ascii_lowercase cert_san = to_ascii_lowercase expected).

Lemma dns_san_matches_spec expected cert_san :
  dns_san_matches expected cert_san = true ↔ dns_san_spec expected cert_san.
Proof.
  unfold dns_san_matches, dns_san_spec. destruct (strip_prefix _ _) as [suffix|] eqn:Es.
  - apply strip_prefix_Some in Es as ->. destruct (find_char dot expected) as [i|] eqn:Ei.
    + apply find_char_Some in Ei as (label & rest & -> & Hnot & Hi).
      rewrite andb_true_iff, negb_true_iff, bool_decide_eq_false, eq_ignore_ascii_case_true.
      subst i. rewrite take_app_length, drop_app_ge by lia.
      replace (length label + 1 - length label) with 1 by lia. cbn [drop]. split.
      * intros [Hne Heq]. left. exists label, rest, suffix. done.
      * intros [(l & r & s & [= <-] & Heq & Hne & Hl & Hlow)|[Hno _]]; [|by destruct (Hno suffix)].
        assert (label = l ∧ rest = r) as [-> ->]; [|done].
        by apply (app_inj_at_fresh dot) in Heq.
    + apply find_char_None in Ei. split; [done|].
      intros [(l & r & s & _ & -> & _)|[Hno _]]; [|by destruct (Hno suffix)]. set_solver.
  - rewrite strip_prefix_None in Es. rewrite eq_ignore_ascii_case_true. split; [auto|].
    intros [(l & r & s & -> & _)|[_ ?]]; [by destruct (Es s)|done].
Qed.

(** Upstream identity.  The SAN check accepts a peer certificate exactly when
    some expected host name matches one of its DNS names (a leading wildcard
    label of the certificate standing for exactly one non-empty label,
    case-insensitively otherwise) or some expected URI is literally one of its
    URI names; with no expectation it accepts nothing. *)
Theorem san_set_matches_iff expected dns_sans uri_sans :
  san_set_matches expected dns_sans uri_sans = true ↔
  (∃ h s, SanHostname h ∈ expected ∧ s ∈ dns_sans ∧ dns_san_spec h s) ∨
  (∃ u, SanUri u ∈ expected ∧ u ∈ uri_sans).
Proof.
  unfold san_set_matches. rewrite existsb_exists. setoid_rewrite <-list_elem_of_In. split.
  - intros ([h|u] & He & Hm).
    + apply existsb_exists in Hm as (s & Hs%list_elem_of_In & Hm%dns_san_matches_spec). eauto 6.
    + apply existsb_exists in Hm as (s & Hs%list_elem_of_In & ->%bool_decide_eq_true). eauto.
  - intros [(h & s & He & Hs & Hm)|(u & He & Hu)].
    + exists (SanHostname h). split; [done|]. apply existsb_exists. exists s.
      by rewrite <-list_elem_of_In, dns_san_matches_spec.
    + exists (SanUri u). split; [done|]. apply existsb_exists. exists u.
      by rewrite <-list_elem_of_In, bool_decide_eq_true.
Qed.

Lemma elem_of_dedup x l : x ∈ dedup l ↔ x ∈ l.
Proof.
  induction l as [|y [|z l] IH]; [done|done|]. cbn [dedup]. destruct (Z.eqb_spec y z) as [->|].
  - rewrite IH. set_solver.
  - rewrite !(elem_of_cons _ x y), IH. done.
Qed.

Lemma dedup_sorted l : StronglySorted Z.leb l → StronglySorted Z.lt (dedup l).
Proof.
  induction l as [|y [|z l] IH]; intros Hs; [constructor|by repeat constructor|].
  inversion Hs as [|? ? Hs' Hy]; subst. cbn [dedup]. destruct (Z.eqb_spec y z) as [->|Hne]; [auto|].
  constructor; [by apply IH|]. apply Forall_forall. intros x Hx.
  apply (elem_of_dedup x (z :: l)) in Hx.
  assert (Z.leb y z) as Hyz by (rewrite Forall_forall in Hy; apply Hy; by left).
  assert (Z.leb z x) as Hzx.
  { apply elem_of_cons in Hx as [->|Hx]; [by apply Is_true_true, Z.leb_refl|].
    inversion Hs' as [|? ? _ Hz]; subst. rewrite Forall_forall in Hz. by apply Hz. }
  apply Is_true_true, Z.leb_le in Hyz, Hzx. lia.
Qed.

(** Retry code lists are normalised: strictly increasing, with the codes the
    policy lists, the documented defaults when it lists none, and no code when
    it lists the empty list; so a status is retried exactly when the policy
    names it. *)
Theorem retry_codes_normalised attempts backoff http grpc :
  let p := retry_for_grpc attempts backoff http grpc in
  StronglySorted Z.lt (rp_http_codes p) ∧ StronglySorted Z.lt (rp_grpc_codes p) ∧
  (∀ status, retries_http p status = true ↔ status ∈ default DEFAULT_HTTP_RETRY_CODES http) ∧
  (∀ code, retries_grpc p code = true ↔ code ∈ default DEFAULT_GRPC_RETRY_CODES grpc) ∧
  retries_http (retry_for_http attempts backoff http) = retries_http p ∧
  ∀ code, retries_grpc (retry_for_http attempts backoff http) code = false.
Proof.
  intros p.
  assert (∀ codes dflt, StronglySorted Z.lt (normalize_codes codes dflt)) as Hsort.
  { intros codes dflt. apply dedup_sorted, sort_by_sorted; intros.
    - rewrite !Z.leb_le. lia.
    - rewrite !Z.leb_le in *. lia. }
  assert (∀ codes dflt s, existsb (Z.eqb s) (normalize_codes codes dflt) = true ↔
    s ∈ default dflt codes) as Hmem.
  { intros codes dflt s. rewrite existsb_exists. unfold normalize_codes. split.
    - intros (x & Hx & ->%Z.eqb_eq). by rewrite <-list_elem_of_In, elem_of_dedup, elem_of_sort_by in Hx.
    - intros Hs. exists s. by rewrite <-list_elem_of_In, elem_of_dedup, elem_of_sort_by, Z.eqb_refl. }
  split_and!; [apply Hsort|apply Hsort|intros; apply Hmem|intros; apply Hmem|done|done].
Qed.
