(* ===== verification/Filters.v ===== *)
(** * Filter actions

    Models [crates/coxswain-core/src/routing/common/filters.rs]: path
    modifiers, header modifications, CORS origins, mirror sampling, and the
    [FilterAction] enum. *)

From S2P Require Import Prelude Net Backend External Config.

Section filters.
Context `{RegexLib, HttpLib}.

(** ** Path modifiers *)

Inductive PathModifier :=
| ReplaceFullPath (p : str)
| ReplacePrefixMatch (prefix replacement : str)
| RegexReplace (regex : Regex) (replacement : str).

Definition modifier_apply (m : PathModifier) (path : str) : str :=
  match m with
  | ReplaceFullPath p => p
  | ReplacePrefixMatch prefix replacement =>
      let prefix_trimmed := trim_end_matches slash prefix in
      if bool_decide (path = prefix_trimmed) || starts_with prefix_trimmed path then
        let suffix := drop (length prefix_trimmed) path in
        let rep := trim_end_matches slash replacement in
        if bool_decide (suffix = []) || bool_decide (suffix = lit "/") then
          match rep with [] => lit "/" | _ => rep end
        else rep ++ suffix
      else path
  | RegexReplace regex replacement => default path (regex_expand regex path replacement)
  end.

(** ** Header modifications *)

Inductive HeaderModError :=
| InvalidName (name : str)
| InvalidValue (name : str).

Record HeaderMod := mkHeaderMod {
  hm_add : list (str * str);
  hm_set : list (str * str);
  hm_remove : list str;
}.

Definition parse_pair (nv : str * str) : result (str * str) HeaderModError :=
  match header_name_from_bytes nv.1 with
  | None => Err (InvalidName nv.1)
  | Some n =>
      match header_value_from_str nv.2 with
      | None => Err (InvalidValue nv.1)
      | Some v => Ok (n, v)
      end
  end.

Definition parse_name (name : str) : result str HeaderModError :=
  match header_name_from_bytes name with
  | None => Err (InvalidName name)
  | Some n => Ok n
  end.

(** [collect::<Result<Vec<_>, _>>]: the first error wins. *)
Fixpoint collect {A B E} (f : A → result B E) (l : list A) : result (list B) E :=
  match l with
  | [] => Ok []
  | x :: l' => y <-? f x ;; ys <-? collect f l' ;; Ok (y :: ys)
  end.

Definition HeaderMod_parse (add set : list (str * str)) (remove : list str) :
    result HeaderMod HeaderModError :=
  a <-? collect parse_pair add ;;
  s <-? collect parse_pair set ;;
  r <-? collect parse_name remove ;;
  Ok (mkHeaderMod a s r).

(** ** CORS *)

Inductive CorsOrigin :=
| CorsExact (origin : str)
| CorsWildcard (prefix suffix : str).

Definition cors_matches (o : CorsOrigin) (request_origin : str) : bool :=
  match o with
  | CorsExact s => eq_ignore_ascii_case request_origin s
  | CorsWildcard prefix suffix =>
      let lower := to_ascii_lowercase request_origin in
      starts_with prefix lower && ends_with suffix lower
  end.

Record CorsConfig := mkCorsConfig {
  cors_allow_origins : list CorsOrigin;
  cors_allow_all_origins : bool;
  cors_allow_credentials : bool;
  cors_allow_methods : option str;
  cors_allow_headers : option str;
  cors_expose_headers : option str;
  cors_max_age : str;
}.

Definition resolve_origin (cfg : CorsConfig) (request_origin : str) : option str :=
  if cors_allow_all_origins cfg ||
     existsb (λ o, cors_matches o request_origin) (cors_allow_origins cfg)
  then header_value_from_str request_origin
  else None.

(** ** Mirroring *)

Record MirrorFraction := mkMirrorFraction {
  mf_numerator : Z;
  mf_denominator : Z;
}.

Definition MirrorFraction_new (numerator denominator : Z) : option MirrorFraction :=
  if (denominator =? 0)%Z || (denominator <? numerator)%Z then None
  else Some (mkMirrorFraction numerator denominator).

(** The remainder panics on a zero denominator. *)
Definition should_sample (f : MirrorFraction) (draw : Z) : option bool :=
  if (mf_denominator f =? 0)%Z then None
  else Some (draw mod mf_denominator f <? mf_numerator f)%Z.

(** ** Actions *)

Inductive FilterAction :=
| RequestHeaderModifier (m : HeaderMod)
| ResponseHeaderModifier (m : HeaderMod)
| RequestRedirect (scheme hostname : option str) (port : option Z) (status_code : Z)
    (path : option PathModifier)
| UrlRewrite (hostname : option str) (path : option PathModifier)
| Mirror (backend : @BackendGroup FilterAction UpstreamTls) (fraction : option MirrorFraction)
| Cors (cfg : CorsConfig).

End filters.

(** ** Theorems *)

Section filter_facts.
Context `{RegexLib, HttpLib}.

Definition absolute_path (s : str) : Prop := ∃ r, s = slash :: r.

Lemma trim_end_absolute s :
  absolute_path s → trim_end_matches slash s = [] ∨ absolute_path (trim_end_matches slash s).
Proof.
  intros [r ->]. destruct (trim_end_matches_spec slash (slash :: r)) as (n & Hs & _).
  destruct (trim_end_matches slash (slash :: r)) as [|c t]; [by left|right].
  injection Hs as <- _. by exists t.
Qed.

(** Prefix rewriting.  On a path made of the trimmed prefix and a remainder
    that is empty or starts with a slash (what prefix routing delivers), the
    result is the trimmed replacement followed by the remainder, a lone slash
    or empty remainder being dropped and an empty result becoming the root; and
    if the replacement is empty or absolute, so that nothing is glued together,
    the result is an absolute path. *)
Theorem replace_prefix_apply prefix replacement rest :
  rest = [] ∨ absolute_path rest →
  let rep := trim_end_matches slash replacement in
  let result := modifier_apply (ReplacePrefixMatch prefix replacement)
                  (trim_end_matches slash prefix ++ rest) in
  result = (if decide (rest = [] ∨ rest = lit "/")
            then match rep with [] => lit "/" | _ => rep end else rep ++ rest) ∧
  (replacement = [] ∨ absolute_path replacement → absolute_path result).
Proof.
  intros Hrest rep result.
  assert (result = (if decide (rest = [] ∨ rest = lit "/")
    then match rep with [] => lit "/" | _ => rep end else rep ++ rest)) as ->.
  { subst result. unfold modifier_apply.
    assert (starts_with (trim_end_matches slash prefix) (trim_end_matches slash prefix ++ rest)
      = true) as -> by (apply starts_with_true; eauto).
    rewrite orb_true_r, drop_app_length. fold rep.
    repeat case_bool_decide; case_decide; cbn [orb]; naive_solver. }
  split; [done|]. intros Hrep.
  assert (rep = [] ∨ absolute_path rep) as Hr.
  { destruct Hrep as [->|?]; [by left|by apply trim_end_absolute]. }
  case_decide as Hd.
  - destruct Hr as [->|[r ->]]; eexists; done.
  - destruct Hr as [->|[r ->]]; [|by eexists].
    destruct Hrest as [->|[r ->]]; [naive_solver|by eexists].
Qed.

Lemma Forall2_equiv {A B} (P Q : A → B → Prop) l k :
  (∀ x y, P x y ↔ Q x y) → Forall2 P l k ↔ Forall2 Q l k.
Proof. intros HPQ. split; intros; eapply Forall2_impl; try done; intros; by apply HPQ. Qed.

Lemma collect_Ok {A B E} (f : A → result B E) l ys :
  collect f l = Ok ys ↔ Forall2 (λ x y, f x = Ok y) l ys.
Proof.
  revert ys. induction l as [|x l IH]; intros ys; cbn.
  - split; [intros [= <-]; constructor|by inversion 1].
  - destruct (f x) as [y|e] eqn:Ef.
    + destruct (collect f l) as [zs|e] eqn:Ec.
      * split; [intros [= <-]; constructor; [done|by apply IH]|].
        inversion 1 as [|? y' ? ys' Hy Hys]; subst. apply IH in Hys. congruence.
      * split; [done|]. inversion 1 as [|? y' ? ys' Hy Hys]; subst.
        apply IH in Hys. congruence.
    + split; [done|]. inversion 1 as [|? y' ? ys' Hy Hys]; subst. congruence.
Qed.

(** A header modification parses exactly when every name and value in it is
    valid, and then holds the parsed names and values in order. *)
Theorem HeaderMod_parse_iff add set remove m :
  HeaderMod_parse add set remove = Ok m ↔
  Forall2 (λ nv nv', header_name_from_bytes nv.1 = Some nv'.1 ∧
                     header_value_from_str nv.2 = Some nv'.2) add (hm_add m) ∧
  Forall2 (λ nv nv', header_name_from_bytes nv.1 = Some nv'.1 ∧
                     header_value_from_str nv.2 = Some nv'.2) set (hm_set m) ∧
  Forall2 (λ n n', header_name_from_bytes n = Some n') remove (hm_remove m).
Proof.
  assert (∀ l l', Forall2 (λ nv nv', header_name_from_bytes nv.1 = Some nv'.1 ∧
    header_value_from_str nv.2 = Some nv'.2) l l' ↔ collect parse_pair l = Ok l') as Hp.
  { intros l l'. rewrite collect_Ok. apply Forall2_equiv. intros [n v] [n' v']. unfold parse_pair.
    cbn. destruct (header_name_from_bytes n), (header_value_from_str v); naive_solver. }
  assert (∀ l l', Forall2 (λ n n', header_name_from_bytes n = Some n') l l' ↔
    collect parse_name l = Ok l') as Hn.
  { intros l l'. rewrite collect_Ok. apply Forall2_equiv. intros n n'. unfold parse_name.
    destruct (header_name_from_bytes n); naive_solver. }
  rewrite !Hp, Hn. unfold HeaderMod_parse. destruct m as [ma ms mr]. cbn.
  destruct (collect parse_pair add), (collect parse_pair set), (collect parse_name remove);
    naive_solver.
Qed.

(** CORS never widens what it is told.  An [Access-Control-Allow-Origin] value
    is produced only for an origin the policy admits, and is that origin; a
    wildcard entry admits exactly the origins with its prefix and its suffix. *)
Theorem resolve_origin_sound cfg origin v :
  resolve_origin cfg origin = Some v ↔
  header_value_from_str origin = Some v ∧
  (cors_allow_all_origins cfg = true ∨
   (∃ s, CorsExact s ∈ cors_allow_origins cfg ∧
      to_ascii_lowercase origin = to_ascii_lowercase s) ∨
   (∃ prefix suffix, CorsWildcard prefix suffix ∈ cors_allow_origins cfg ∧
      (∃ r, to_ascii_lowercase origin = prefix ++ r) ∧
      (∃ r, to_ascii_lowercase origin = r ++ suffix))).
Proof.
  unfold resolve_origin.
  assert (existsb (λ o, cors_matches o origin) (cors_allow_origins cfg) = true ↔
    (∃ s, CorsExact s ∈ cors_allow_origins cfg ∧
      to_ascii_lowercase origin = to_ascii_lowercase s) ∨
    (∃ prefix suffix, CorsWildcard prefix suffix ∈ cors_allow_origins cfg ∧
      (∃ r, to_ascii_lowercase origin = prefix ++ r) ∧
      (∃ r, to_ascii_lowercase origin = r ++ suffix))) as <-.
  { rewrite existsb_exists. setoid_rewrite <-list_elem_of_In. split.
    - intros ([s|p s] & He & Hm); cbn in Hm.
      + apply eq_ignore_ascii_case_true in Hm. eauto.
      + apply andb_true_iff in Hm as [Hp%starts_with_true Hs%ends_with_true]. eauto 6.
    - intros [(s & He & Hm)|(p & s & He & Hp & Hs)].
      + exists (CorsExact s). split; [done|]. by apply eq_ignore_ascii_case_true.
      + exists (CorsWildcard p s). split; [done|]. cbn.
        by rewrite andb_true_iff, starts_with_true, ends_with_true. }
  destruct (cors_allow_all_origins cfg), (existsb _ _); cbn [orb]; naive_solver.
Qed.
End filter_facts.

(** The wildcard halves may overlap: the entry for
    [https://api.*.example.com] admits [https://api.example.com], which no text
    in place of the star produces. *)
Theorem cors_wildcard_overlap :
  let o := CorsWildcard (lit "https://api.") (lit ".example.com") in
  cors_matches o (lit "https://api.example.com") = true ∧
  ¬ ∃ star, lit "https://api.example.com" = lit "https://api." ++ star ++ lit ".example.com".
Proof.
  split; [reflexivity|]. intros [star Heq]. apply (f_equal length) in Heq.
  rewrite !length_app in Heq. cbn in Heq. lia.
Qed.

Lemma count_below d n :
  (0 ≤ n ≤ Z.of_nat d)%Z → length (filter (λ i, Z.of_nat i < n)%Z (seq 0 d)) = Z.to_nat n.
Proof.
  induction d as [|d IH] in n |- *; intros Hn; [cbn; lia|].
  rewrite seq_S, filter_app, length_app. cbn [Nat.add].
  destruct (decide (n ≤ Z.of_nat d)%Z).
  - rewrite IH, filter_cons_False by lia. cbn. lia.
  - rewrite filter_cons_True by lia.
    rewrite (filter_ext_in _ (λ _, True)) by (intros i Hi%elem_of_seq; lia).
    rewrite (filter_ext_in (λ _, True) (λ i, Z.of_nat i < Z.of_nat d)%Z)
      by (intros i Hi%elem_of_seq; lia).
    rewrite IH by lia. cbn. lia.
Qed.

(** Mirror sampling is exact.  A constructed fraction never divides by zero,
    and among any aligned block of [denominator] consecutive draws exactly
    [numerator] are mirrored; zero mirrors none and a full fraction all. *)
Theorem should_sample_exact n d f k :
  MirrorFraction_new n d = Some f → (0 ≤ n)%Z → (0 ≤ d)%Z →
  let block := (λ i, k * d + Z.of_nat i)%Z <$> seq 0 (Z.to_nat d) in
  length (filter (λ draw, should_sample f draw = Some true) block) = Z.to_nat n ∧
  Forall (λ draw, is_Some (should_sample f draw)) block.
Proof.
  unfold MirrorFraction_new. intros Hf Hn Hd. repeat case_zb; simplify_eq/=.
  assert (∀ i, i ∈ seq 0 (Z.to_nat d) →
    should_sample (mkMirrorFraction n d) (k * d + Z.of_nat i) = Some (Z.of_nat i <? n)%Z) as Hs.
  { intros i Hi%elem_of_seq. unfold should_sample. cbn. destruct (Z.eqb_spec d 0); [lia|].
    rewrite Z.add_comm, Z.mod_add, Z.mod_small by lia. done. }
  split.
  - rewrite <-(count_below (Z.to_nat d) n) by lia. rewrite length_filter_fmap.
    f_equal. apply filter_ext_in. intros i Hi. rewrite Hs by done.
    destruct (Z.ltb_spec (Z.of_nat i) n); naive_solver lia.
  - apply Forall_fmap, Forall_forall. intros i Hi. cbn. rewrite Hs by done. eauto.
Qed.

Lemma replace_prefix_apply_witness :
  @modifier_apply Sample.regex (ReplacePrefixMatch (lit "/v1/") (lit "/api")) (lit "/v1/users")
    = lit "/api/users" ∧
  absolute_path (@modifier_apply Sample.regex (ReplacePrefixMatch (lit "/v1/") (lit "/api"))
                   (lit "/v1/users")).
Proof.
  destruct (@replace_prefix_apply Sample.regex (lit "/v1/") (lit "/api") (lit "/users"))
    as [Heq Habs].
  - right. by exists (lit "users").
  - split; [exact Heq|]. apply Habs. right. by exists (lit "api").
Defined.

Lemma should_sample_exact_witness :
  length (filter (λ draw, should_sample (mkMirrorFraction 3 10) draw = Some true)
            ((λ i, 7 * 10 + Z.of_nat i)%Z <$> seq 0 10)) = 3.
Proof.
  by apply (should_sample_exact 3 10 (mkMirrorFraction 3 10) 7 eq_refl ltac:(lia) ltac:(lia)).
Defined.
