(* ===== verification/Entry.v ===== *)
(** * Predicates and route entries

    Models [predicate.rs] (method, header and query conditions) and [entry.rs]
    (the [RouteEntry] candidate, its constructors and builders) of
    [crates/coxswain-core/src/routing/common]. *)

From S2P Require Import Prelude Net Backend External Config Filters.

Section entry.
Context `{RegexLib, HttpLib}.

(** ** Predicates *)

Inductive ValueMatch :=
| VmExact (s : str)
| VmRegex (r : Regex).

Definition value_matches (v : ValueMatch) (value : str) : bool :=
  match v with
  | VmExact s => bool_decide (s = value)
  | VmRegex r => regex_is_match r value
  end.

Record HeaderPredicate := mkHeaderPredicate {
  hp_name : str;
  hp_matcher : ValueMatch;
}.

Record QueryPredicate := mkQueryPredicate {
  qp_name : str;
  qp_matcher : ValueMatch;
}.

Record MatchPredicates := mkMatchPredicates {
  mp_method : option str;
  mp_headers : list HeaderPredicate;
  mp_query : list QueryPredicate;
}.

Definition MatchPredicates_default : MatchPredicates := mkMatchPredicates None [] [].

Definition predicates_is_empty (p : MatchPredicates) : bool :=
  match mp_method p, mp_headers p, mp_query p with
  | None, [], [] => true
  | _, _, _ => false
  end.

(** The request: method, the header map as its name/value entries, and the raw
    query string. *)
Record RequestContext := mkRequestContext {
  rc_method : str;
  rc_headers : list (str * str);
  rc_query : option str;
}.

(** [HeaderMap::get_all] *)
Definition get_all (name : str) (headers : list (str * str)) : list str :=
  snd <$> filter (λ h, h.1 = name) headers.

Definition header_ok (ctx : RequestContext) (h : HeaderPredicate) : bool :=
  existsb (λ v, match header_value_to_str v with
                | Some s => value_matches (hp_matcher h) s
                | None => false
                end) (get_all (hp_name h) (rc_headers ctx)).

Definition query_ok (pairs : list (str * str)) (q : QueryPredicate) : bool :=
  existsb (λ '(k, v), bool_decide (k = qp_name q) && value_matches (qp_matcher q) v) pairs.

(** Method, then every header, then every query parameter. *)
Definition predicates_match (p : MatchPredicates) (ctx : RequestContext) : bool :=
  let method_ok :=
    match mp_method p with
    | Some m => bool_decide (m = rc_method ctx)
    | None => true
    end in
  if negb method_ok then false
  else if negb (forallb (header_ok ctx) (mp_headers p)) then false
  else
    match mp_query p with
    | [] => true
    | qs => forallb (query_ok (form_urlencoded_parse (default [] (rc_query ctx)))) qs
    end.

(** ** Route metadata *)

Record RouteTimeouts := mkRouteTimeouts {
  to_request : option Z;
  to_backend_request : option Z;
  to_connect : option Z;
  to_read : option Z;
  to_send : option Z;
}.

Definition RouteTimeouts_default : RouteTimeouts := mkRouteTimeouts None None None None None.

Inductive RouteKind := KExact | KPrefix | KRegex.

Definition route_kind_as_str (k : RouteKind) : str :=
  match k with
  | KExact => lit "exact"
  | KPrefix => lit "prefix"
  | KRegex => lit "regex"
  end.

(** [ipnet::IpNet]: an address and a prefix length. *)
Record IpNet := mkIpNet { net_addr : IpAddr; net_prefix : Z }.

Record ForwardedForConfig := mkForwardedForConfig {
  ff_header : str;
  ff_trusted_cidrs : list IpNet;
}.

Definition Group : Type := @BackendGroup FilterAction UpstreamTls.

Record RouteInfo := mkRouteInfo {
  ri_path : str;
  ri_kind : RouteKind;
  ri_backend_group : Group;
  ri_route_id : str;
}.

Record RouteConflict := mkRouteConflict {
  cf_port : Z;
  cf_host : str;
  cf_path : str;
  cf_kind : RouteKind;
  cf_rejected_group : str;
  cf_rejected_route_id : str;
  cf_winner_route_id : str;
}.

(** Times are nanoseconds since the epoch; [created_at] may precede it. *)
Record RouteEntry := mkRouteEntry {
  re_backend_group : Group;
  re_predicates : MatchPredicates;
  re_filters : list FilterAction;
  re_timeouts : RouteTimeouts;
  re_route_id : str;
  re_metric_route_id : str;
  re_created_at : option Z;
  re_error_status : option Z;
  re_error_status_endpoint_derived : bool;
  re_path_pattern : str;
  re_max_body_size : option Z;
  re_allow_source_range : option (list IpNet);
  re_deny_source_range : option (list IpNet);
  re_access_log_enabled : option bool;
  re_rate_limit : option RateLimitConfig;
  re_auth : list IngressAuthConfig;
  re_compression : option CompressionConfig;
  re_forwarded_for : option ForwardedForConfig;
  re_circuit_breaker : option CircuitBreakerConfig;
}.

(** ** Constructors *)

Definition entry_with_filters (backend_group : Group) (predicates : MatchPredicates)
    (filters : list FilterAction) (timeouts : RouteTimeouts) (route_id : str)
    (created_at : option Z) : RouteEntry :=
  mkRouteEntry backend_group predicates filters timeouts route_id [] created_at None false []
    None None None None None [] None None None.

Definition entry_new (backend_group : Group) (predicates : MatchPredicates) (route_id : str)
    (created_at : option Z) : RouteEntry :=
  mkRouteEntry backend_group predicates [] RouteTimeouts_default route_id [] created_at None
    false [] None None None None None [] None None None.

Definition path_only (backend_group : Group) (route_id : str) (created_at : option Z) :
    RouteEntry :=
  mkRouteEntry backend_group MatchPredicates_default [] RouteTimeouts_default route_id []
    created_at None false [] None None None None None [] None None None.

(** The backend group is [BackendGroup::new("", vec![])]. *)
Definition redirect_only (predicates : MatchPredicates) (filters : list FilterAction)
    (timeouts : RouteTimeouts) (route_id : str) (created_at : option Z) : option RouteEntry :=
  g ← BackendGroup_new [] [];
  Some (mkRouteEntry g predicates filters timeouts route_id [] created_at None false []
          None None None None None [] None None None).

Definition is_redirect_only (e : RouteEntry) : bool :=
  match bg_name (re_backend_group e) with [] => true | _ => false end.

(** ** Builders *)

Definition with_path_pattern (v : str) (e : RouteEntry) : RouteEntry :=
  mkRouteEntry (re_backend_group e) (re_predicates e) (re_filters e) (re_timeouts e) (re_route_id
    e) (re_metric_route_id e) (re_created_at e) (re_error_status e)
    (re_error_status_endpoint_derived e) v (re_max_body_size e) (re_allow_source_range e)
    (re_deny_source_range e) (re_access_log_enabled e) (re_rate_limit e) (re_auth e) (re_compression
    e) (re_forwarded_for e) (re_circuit_breaker e).

Definition with_metric_route_id (v : str) (e : RouteEntry) : RouteEntry :=
  mkRouteEntry (re_backend_group e) (re_predicates e) (re_filters e) (re_timeouts e) (re_route_id
    e) v (re_created_at e) (re_error_status e) (re_error_status_endpoint_derived e) (re_path_pattern
    e) (re_max_body_size e) (re_allow_source_range e) (re_deny_source_range e)
    (re_access_log_enabled e) (re_rate_limit e) (re_auth e) (re_compression e) (re_forwarded_for e)
    (re_circuit_breaker e).

Definition with_timeouts (v : RouteTimeouts) (e : RouteEntry) : RouteEntry :=
  mkRouteEntry (re_backend_group e) (re_predicates e) (re_filters e) v (re_route_id e)
    (re_metric_route_id e) (re_created_at e) (re_error_status e) (re_error_status_endpoint_derived
    e) (re_path_pattern e) (re_max_body_size e) (re_allow_source_range e) (re_deny_source_range e)
    (re_access_log_enabled e) (re_rate_limit e) (re_auth e) (re_compression e) (re_forwarded_for e)
    (re_circuit_breaker e).

Definition with_filter_actions (v : list FilterAction) (e : RouteEntry) : RouteEntry :=
  mkRouteEntry (re_backend_group e) (re_predicates e) v (re_timeouts e) (re_route_id e)
    (re_metric_route_id e) (re_created_at e) (re_error_status e) (re_error_status_endpoint_derived
    e) (re_path_pattern e) (re_max_body_size e) (re_allow_source_range e) (re_deny_source_range e)
    (re_access_log_enabled e) (re_rate_limit e) (re_auth e) (re_compression e) (re_forwarded_for e)
    (re_circuit_breaker e).

Definition with_max_body_size (v : option Z) (e : RouteEntry) : RouteEntry :=
  mkRouteEntry (re_backend_group e) (re_predicates e) (re_filters e) (re_timeouts e) (re_route_id
    e) (re_metric_route_id e) (re_created_at e) (re_error_status e)
    (re_error_status_endpoint_derived e) (re_path_pattern e) v (re_allow_source_range e)
    (re_deny_source_range e) (re_access_log_enabled e) (re_rate_limit e) (re_auth e) (re_compression
    e) (re_forwarded_for e) (re_circuit_breaker e).

Definition with_allow_source_range (v : option (list IpNet)) (e : RouteEntry) : RouteEntry :=
  mkRouteEntry (re_backend_group e) (re_predicates e) (re_filters e) (re_timeouts e) (re_route_id
    e) (re_metric_route_id e) (re_created_at e) (re_error_status e)
    (re_error_status_endpoint_derived e) (re_path_pattern e) (re_max_body_size e) v
    (re_deny_source_range e) (re_access_log_enabled e) (re_rate_limit e) (re_auth e) (re_compression
    e) (re_forwarded_for e) (re_circuit_breaker e).

Definition with_deny_source_range (v : option (list IpNet)) (e : RouteEntry) : RouteEntry :=
  mkRouteEntry (re_backend_group e) (re_predicates e) (re_filters e) (re_timeouts e) (re_route_id
    e) (re_metric_route_id e) (re_created_at e) (re_error_status e)
    (re_error_status_endpoint_derived e) (re_path_pattern e) (re_max_body_size e)
    (re_allow_source_range e) v (re_access_log_enabled e) (re_rate_limit e) (re_auth e)
    (re_compression e) (re_forwarded_for e) (re_circuit_breaker e).

Definition with_access_log_enabled (v : option bool) (e : RouteEntry) : RouteEntry :=
  mkRouteEntry (re_backend_group e) (re_predicates e) (re_filters e) (re_timeouts e) (re_route_id
    e) (re_metric_route_id e) (re_created_at e) (re_error_status e)
    (re_error_status_endpoint_derived e) (re_path_pattern e) (re_max_body_size e)
    (re_allow_source_range e) (re_deny_source_range e) v (re_rate_limit e) (re_auth e)
    (re_compression e) (re_forwarded_for e) (re_circuit_breaker e).

Definition with_rate_limit (v : option RateLimitConfig) (e : RouteEntry) : RouteEntry :=
  mkRouteEntry (re_backend_group e) (re_predicates e) (re_filters e) (re_timeouts e) (re_route_id
    e) (re_metric_route_id e) (re_created_at e) (re_error_status e)
    (re_error_status_endpoint_derived e) (re_path_pattern e) (re_max_body_size e)
    (re_allow_source_range e) (re_deny_source_range e) (re_access_log_enabled e) v (re_auth e)
    (re_compression e) (re_forwarded_for e) (re_circuit_breaker e).

Definition with_auth_chain (v : list IngressAuthConfig) (e : RouteEntry) : RouteEntry :=
  mkRouteEntry (re_backend_group e) (re_predicates e) (re_filters e) (re_timeouts e) (re_route_id
    e) (re_metric_route_id e) (re_created_at e) (re_error_status e)
    (re_error_status_endpoint_derived e) (re_path_pattern e) (re_max_body_size e)
    (re_allow_source_range e) (re_deny_source_range e) (re_access_log_enabled e) (re_rate_limit e) v
    (re_compression e) (re_forwarded_for e) (re_circuit_breaker e).

Definition with_error_status (v : option Z) (e : RouteEntry) : RouteEntry :=
  mkRouteEntry (re_backend_group e) (re_predicates e) (re_filters e) (re_timeouts e) (re_route_id
    e) (re_metric_route_id e) (re_created_at e) v (re_error_status_endpoint_derived e)
    (re_path_pattern e) (re_max_body_size e) (re_allow_source_range e) (re_deny_source_range e)
    (re_access_log_enabled e) (re_rate_limit e) (re_auth e) (re_compression e) (re_forwarded_for e)
    (re_circuit_breaker e).

Definition with_error_status_endpoint_derived (v : bool) (e : RouteEntry) : RouteEntry :=
  mkRouteEntry (re_backend_group e) (re_predicates e) (re_filters e) (re_timeouts e) (re_route_id
    e) (re_metric_route_id e) (re_created_at e) (re_error_status e) v (re_path_pattern e)
    (re_max_body_size e) (re_allow_source_range e) (re_deny_source_range e) (re_access_log_enabled
    e) (re_rate_limit e) (re_auth e) (re_compression e) (re_forwarded_for e) (re_circuit_breaker e).

Definition with_compression (v : option CompressionConfig) (e : RouteEntry) : RouteEntry :=
  mkRouteEntry (re_backend_group e) (re_predicates e) (re_filters e) (re_timeouts e) (re_route_id
    e) (re_metric_route_id e) (re_created_at e) (re_error_status e)
    (re_error_status_endpoint_derived e) (re_path_pattern e) (re_max_body_size e)
    (re_allow_source_range e) (re_deny_source_range e) (re_access_log_enabled e) (re_rate_limit e)
    (re_auth e) v (re_forwarded_for e) (re_circuit_breaker e).

Definition with_forwarded_for (v : option ForwardedForConfig) (e : RouteEntry) : RouteEntry :=
  mkRouteEntry (re_backend_group e) (re_predicates e) (re_filters e) (re_timeouts e) (re_route_id
    e) (re_metric_route_id e) (re_created_at e) (re_error_status e)
    (re_error_status_endpoint_derived e) (re_path_pattern e) (re_max_body_size e)
    (re_allow_source_range e) (re_deny_source_range e) (re_access_log_enabled e) (re_rate_limit e)
    (re_auth e) (re_compression e) v (re_circuit_breaker e).

Definition with_circuit_breaker (v : option CircuitBreakerConfig) (e : RouteEntry) : RouteEntry :=
  mkRouteEntry (re_backend_group e) (re_predicates e) (re_filters e) (re_timeouts e) (re_route_id
    e) (re_metric_route_id e) (re_created_at e) (re_error_status e)
    (re_error_status_endpoint_derived e) (re_path_pattern e) (re_max_body_size e)
    (re_allow_source_range e) (re_deny_source_range e) (re_access_log_enabled e) (re_rate_limit e)
    (re_auth e) (re_compression e) (re_forwarded_for e) v.

(** ** Theorems *)

Lemma forallb_True {A} (f : A → bool) l : forallb f l = true ↔ ∀ x, x ∈ l → f x = true.
Proof. rewrite forallb_forall. by setoid_rewrite <-list_elem_of_In. Qed.

(** Predicates are a conjunction.  A rule's predicates pass exactly when its
    method (if any) is the request's, every header predicate is met by some
    value of that header that is valid text, and every query predicate by some
    decoded parameter of that name; without query predicates the query string
    is irrelevant. *)
Theorem predicates_match_iff p ctx :
  predicates_match p ctx = true ↔
  (∀ m, mp_method p = Some m → m = rc_method ctx) ∧
  (∀ h, h ∈ mp_headers p → ∃ v s, (hp_name h, v) ∈ rc_headers ctx ∧
     header_value_to_str v = Some s ∧ value_matches (hp_matcher h) s = true) ∧
  (∀ q, q ∈ mp_query p → ∃ v,
     (qp_name q, v) ∈ form_urlencoded_parse (default [] (rc_query ctx)) ∧
     value_matches (qp_matcher q) v = true).
Proof.
  assert (∀ h, header_ok ctx h = true ↔ ∃ v s, (hp_name h, v) ∈ rc_headers ctx ∧
    header_value_to_str v = Some s ∧ value_matches (hp_matcher h) s = true) as Hh.
  { intros h. unfold header_ok, get_all. rewrite existsb_exists.
    setoid_rewrite <-list_elem_of_In. split.
    - intros (v & ([n v'] & -> & [Hn Hin]%list_elem_of_filter)%list_elem_of_fmap & Hm).
      cbn in *. subst n. destruct (header_value_to_str v') eqn:E; [|done]. eauto.
    - intros (v & s & Hin & Hs & Hm). exists v. rewrite Hs. split; [|done].
      apply list_elem_of_fmap. exists (hp_name h, v). by rewrite list_elem_of_filter. }
  assert (∀ pairs q, query_ok pairs q = true ↔ ∃ v, (qp_name q, v) ∈ pairs ∧
    value_matches (qp_matcher q) v = true) as Hq.
  { intros pairs q. unfold query_ok. rewrite existsb_exists.
    setoid_rewrite <-list_elem_of_In. split.
    - intros ([k v] & Hin & [->%bool_decide_eq_true Hm]%andb_true_iff). eauto.
    - intros (v & Hin & Hm). exists (qp_name q, v). by rewrite bool_decide_eq_true_2. }
  unfold predicates_match.
  assert (∀ b c : bool, (if negb b then false else c) = b && c) as Hneg by by intros [].
  rewrite !Hneg, !andb_true_iff.
  assert ((match mp_method p with Some m => bool_decide (m = rc_method ctx) | None => true end)
    = true ↔ ∀ m, mp_method p = Some m → m = rc_method ctx) as ->.
  { destruct (mp_method p); [rewrite bool_decide_eq_true|]; naive_solver. }
  rewrite forallb_True. setoid_rewrite Hh.
  assert ((match mp_query p with [] => true
    | qs => forallb (query_ok (form_urlencoded_parse (default [] (rc_query ctx)))) qs end) =
    forallb (query_ok (form_urlencoded_parse (default [] (rc_query ctx)))) (mp_query p)) as ->
    by by destruct (mp_query p).
  rewrite forallb_True. by setoid_rewrite Hq.
Qed.

(** A request-independent rule: no predicates, every request matches. *)
Lemma predicates_empty_match p ctx : predicates_is_empty p = true → predicates_match p ctx = true.
Proof. destruct p as [[] [] []]; done. Qed.

End entry.
