(* ===== verification/HostRouter.v ===== *)
(** * Per-host path routing

    Models [crates/coxswain-core/src/routing/common/host_router.rs]: grouping of
    rules by path, specificity order, duplicate detection, compilation of exact,
    prefix and regex rules into a matchit router, lookup, and wildcard host
    matching.  A failed insertion leaves the router as it was. *)

From S2P Require Import Prelude PathNormalize Net Backend External Config Filters Entry.

Section host_router.
Context `{RegexLib, HttpLib, MatchitLib}.

(** [RouterError] of [table.rs]; the regex error carries no modelled payload. *)
Inductive RouterError :=
| MatchitInsert (e : InsertError)
| RegexError.

(** ** Match payload *)

Record RouteMatch := mkRouteMatch {
  rm_backend_group : Group;
  rm_filters : list FilterAction;
  rm_timeouts : RouteTimeouts;
  rm_path_pattern : str;
  rm_metric_route_id : str;
  rm_max_body_size : option Z;
  rm_allow_source_range : option (list IpNet);
  rm_deny_source_range : option (list IpNet);
  rm_access_log_enabled : option bool;
  rm_rate_limit : option RateLimitConfig;
  rm_auth : list IngressAuthConfig;
  rm_compression : option CompressionConfig;
  rm_forwarded_for : option ForwardedForConfig;
  rm_circuit_breaker : option CircuitBreakerConfig;
  rm_normalized_path : option str;
  rm_error_status : option Z;
}.

Definition from_entry (e : RouteEntry) : RouteMatch :=
  mkRouteMatch (re_backend_group e) (re_filters e) (re_timeouts e) (re_path_pattern e)
    (re_metric_route_id e) (re_max_body_size e) (re_allow_source_range e)
    (re_deny_source_range e) (re_access_log_enabled e) (re_rate_limit e) (re_auth e)
    (re_compression e) (re_forwarded_for e) (re_circuit_breaker e) None (re_error_status e).

(** [compile_bounded], the size-limited compilation *)
Definition compile_bounded (pattern : str) : option Regex := regex_compile pattern.

(** ** The compiled router *)

Record HostRouter := mkHostRouter {
  hr_router : Router (list RouteEntry);
  hr_regex_routes : list (Regex * list RouteEntry);
  hr_has_query_predicates : bool;
  hr_route_info : list RouteInfo;
  hr_normalize : NormalizeLevel;
  hr_wire_table : list (str * RouteKind * RouteEntry);
}.

(** The first candidate whose predicates pass. *)
Definition first_match (entries : list RouteEntry) (ctx : RequestContext) : option RouteEntry :=
  find_first (λ e, predicates_match (re_predicates e) ctx) entries.

Fixpoint route_regex (routes : list (Regex * list RouteEntry)) (path : str)
    (ctx : RequestContext) : option RouteMatch :=
  match routes with
  | [] => None
  | (set, entries) :: routes' =>
      if regex_is_match set path then
        match first_match entries ctx with
        | Some e => Some (from_entry e)
        | None => route_regex routes' path ctx
        end
      else route_regex routes' path ctx
  end.

Definition host_route (h : HostRouter) (path : str) (ctx : RequestContext) : option RouteMatch :=
  match router_at (hr_router h) path with
  | Some entries =>
      match first_match entries ctx with
      | Some e => Some (from_entry e)
      | None => route_regex (hr_regex_routes h) path ctx
      end
  | None => route_regex (hr_regex_routes h) path ctx
  end.

(** ** Specificity *)

Definition u128_max : Z := (2 ^ 128 - 1)%Z.

(** Milliseconds since the epoch; absent or earlier sorts last. *)
Definition created_ms (e : RouteEntry) : Z :=
  match re_created_at e with
  | Some t => if (0 <=? t)%Z then (t / 1000000)%Z else u128_max
  | None => u128_max
  end.

Record SpecificityKey := mkSpecificityKey {
  sk_has_method : nat;
  sk_headers : nat;
  sk_query : nat;
  sk_ts : Z;
  sk_route_id : str;
  sk_insertion_idx : nat;
}.

Definition specificity_key (e : RouteEntry) (insertion_idx : nat) : SpecificityKey :=
  mkSpecificityKey
    (match mp_method (re_predicates e) with Some _ => 1 | None => 0 end)
    (length (mp_headers (re_predicates e))) (length (mp_query (re_predicates e)))
    (created_ms e) (re_route_id e) insertion_idx.

(** Tuple order: the first three components reversed. *)
Definition key_leb (a b : SpecificityKey) : bool :=
  if negb (sk_has_method a =? sk_has_method b) then sk_has_method b <? sk_has_method a
  else if negb (sk_headers a =? sk_headers b) then sk_headers b <? sk_headers a
  else if negb (sk_query a =? sk_query b) then sk_query b <? sk_query a
  else if negb (sk_ts a =? sk_ts b)%Z then (sk_ts a <? sk_ts b)%Z
  else if negb (bool_decide (sk_route_id a = sk_route_id b))
  then str_leb (sk_route_id a) (sk_route_id b)
  else sk_insertion_idx a <=? sk_insertion_idx b.

Definition indexed_leb (a b : nat * RouteEntry) : bool :=
  key_leb (specificity_key a.2 a.1) (specificity_key b.2 b.1).

Definition sort_and_freeze (entries : list (nat * RouteEntry)) : list RouteEntry :=
  snd <$> sort_by indexed_leb entries.

(** ** Grouping *)

Definition PathGroups : Type := list (str * list (nat * RouteEntry)).

(** Push into the first group with this path, or append a new group. *)
Fixpoint group_push (path : str) (ie : nat * RouteEntry) (groups : PathGroups) : PathGroups :=
  match groups with
  | [] => [(path, [ie])]
  | (p, es) :: groups' =>
      if decide (p = path) then (p, es ++ [ie]) :: groups'
      else (p, es) :: group_push path ie groups'
  end.

Definition group_by_path (routes : list (str * RouteEntry)) : PathGroups :=
  foldl (λ groups '(global_idx, (path, entry)), group_push path (global_idx, entry) groups)
    [] (imap pair routes).

Definition normalize_prefix (path : str) : str :=
  match trim_end_matches slash path with
  | [] => lit "/"
  | trimmed => trimmed
  end.

(** ** Duplicate detection *)

Definition value_sig (v : ValueMatch) : str :=
  match v with
  | VmExact s => lit "e:" ++ s
  | VmRegex r => lit "r:" ++ regex_as_str r
  end.

Definition predicate_signature (p : MatchPredicates) : str :=
  let headers :=
    sort_by str_leb ((λ h, hp_name h ++ lit "=" ++ value_sig (hp_matcher h)) <$> mp_headers p) in
  let query :=
    sort_by str_leb ((λ q, qp_name q ++ lit "=" ++ value_sig (qp_matcher q)) <$> mp_query p) in
  lit "m=" ++ default [] (mp_method p) ++ lit "|h=" ++ join_with (lit ",") headers ++
  lit "|q=" ++ join_with (lit ",") query.

(** The loop over the frozen group, with the winner per signature and the
    rejected ids already reported. *)
Fixpoint dup_conflicts_from (path : str) (kind : RouteKind) (winner : gmap str str)
    (emitted : gset str) (frozen : list RouteEntry) : list RouteConflict :=
  match frozen with
  | [] => []
  | e :: frozen' =>
      let sig := predicate_signature (re_predicates e) in
      match winner !! sig with
      | None => dup_conflicts_from path kind (<[sig := re_route_id e]> winner) emitted frozen'
      | Some win =>
          if decide (win ≠ re_route_id e ∧ re_route_id e ∉ emitted) then
            mkRouteConflict 0 [] path kind (bg_name (re_backend_group e)) (re_route_id e) win
            :: dup_conflicts_from path kind winner ({[re_route_id e]} ∪ emitted) frozen'
          else dup_conflicts_from path kind winner emitted frozen'
      end
  end.

Definition dup_conflicts (path : str) (kind : RouteKind) (frozen : list RouteEntry) :
    list RouteConflict := dup_conflicts_from path kind ∅ ∅ frozen.

(** ** The builder *)

Record HostRouterBuilder := mkHostRouterBuilder {
  hb_exact_routes : list (str * RouteEntry);
  hb_prefix_routes : list (str * RouteEntry);
  hb_regex_routes : list (str * RouteEntry);
  hb_normalize : option NormalizeLevel;
}.

Definition HostRouterBuilder_default : HostRouterBuilder := mkHostRouterBuilder [] [] [] None.

(** The first explicit level wins. *)
Definition set_path_normalize (level : NormalizeLevel) (b : HostRouterBuilder) :
    HostRouterBuilder :=
  match hb_normalize b with
  | Some _ => b
  | None =>
      mkHostRouterBuilder (hb_exact_routes b) (hb_prefix_routes b) (hb_regex_routes b)
        (Some level)
  end.

Definition add_exact_route (path : str) (e : RouteEntry) (b : HostRouterBuilder) :
    HostRouterBuilder :=
  mkHostRouterBuilder (hb_exact_routes b ++ [(path, e)]) (hb_prefix_routes b)
    (hb_regex_routes b) (hb_normalize b).

Definition add_prefix_route (path : str) (e : RouteEntry) (b : HostRouterBuilder) :
    HostRouterBuilder :=
  mkHostRouterBuilder (hb_exact_routes b) (hb_prefix_routes b ++ [(path, e)])
    (hb_regex_routes b) (hb_normalize b).

Definition add_regex_route (pattern : str) (e : RouteEntry) (b : HostRouterBuilder) :
    HostRouterBuilder :=
  mkHostRouterBuilder (hb_exact_routes b) (hb_prefix_routes b)
    (hb_regex_routes b ++ [(pattern, e)]) (hb_normalize b).

(** The locals of [build]. *)
Record BuildState := mkBuildState {
  bs_router : Router (list RouteEntry);
  bs_route_info : list RouteInfo;
  bs_wire_table : list (str * RouteKind * RouteEntry);
  bs_conflicts : list RouteConflict;
  bs_has_query : bool;
  bs_regex : list (Regex * list RouteEntry);
}.

Definition check_query (entries : list (nat * RouteEntry)) : bool :=
  existsb (λ ie, match mp_query (re_predicates ie.2) with [] => false | _ => true end) entries.

Definition info_of (path : str) (kind : RouteKind) (entries : list (nat * RouteEntry)) :
    list RouteInfo :=
  (λ ie, mkRouteInfo path kind (re_backend_group ie.2) (re_route_id ie.2)) <$> entries.

Definition wire_of (path : str) (kind : RouteKind) (entries : list (nat * RouteEntry)) :
    list (str * RouteKind * RouteEntry) := (λ ie, (path, kind, ie.2)) <$> entries.

(** One exact group: a rejected insertion aborts the build. *)
Definition build_exact_group (st : BuildState) (g : str * list (nat * RouteEntry)) :
    result BuildState RouterError :=
  let '(path, entries) := g in
  let frozen := sort_and_freeze entries in
  match router_insert path frozen (bs_router st) with
  | Err e => Err (MatchitInsert e)
  | Ok router =>
      Ok (mkBuildState router
            (bs_route_info st ++ info_of path KExact entries)
            (bs_wire_table st ++ wire_of path KExact entries)
            (bs_conflicts st ++ dup_conflicts path KExact frozen)
            (bs_has_query st || check_query entries) (bs_regex st))
  end.

(** [if let Err(e) = router.insert(..) { log }] *)
Definition insert_or_log (pattern : str) (v : list RouteEntry) (r : Router (list RouteEntry)) :
    Router (list RouteEntry) :=
  match router_insert pattern v r with Ok r' => r' | Err _ => r end.

Definition prefix_patterns (path : str) : list str :=
  if decide (path = lit "/") then [lit "/"; lit "/{*rest}"]
  else [path; path ++ lit "/"; path ++ lit "/{*rest}"].

Definition build_prefix_group (st : BuildState) (g : str * list (nat * RouteEntry)) : BuildState :=
  let '(path, entries) := g in
  let frozen := sort_and_freeze entries in
  mkBuildState
    (foldl (λ r pattern, insert_or_log pattern frozen r) (bs_router st) (prefix_patterns path))
    (bs_route_info st ++ info_of path KPrefix entries)
    (bs_wire_table st ++ wire_of path KPrefix entries)
    (bs_conflicts st ++ dup_conflicts path KPrefix frozen)
    (bs_has_query st || check_query entries) (bs_regex st).

Definition build_regex_group (st : BuildState) (g : str * list (nat * RouteEntry)) :
    result BuildState RouterError :=
  let '(pattern, entries) := g in
  match regex_compile pattern with
  | None => Err RegexError
  | Some set =>
      Ok (mkBuildState (bs_router st)
            (bs_route_info st ++ info_of pattern KRegex entries)
            (bs_wire_table st ++ wire_of pattern KRegex entries)
            (bs_conflicts st) (bs_has_query st || check_query entries)
            (bs_regex st ++ [(set, sort_and_freeze entries)]))
  end.

(** A [for] loop with [?]. *)
Fixpoint foldl_result {A S E} (f : S → A → result S E) (s : S) (l : list A) : result S E :=
  match l with
  | [] => Ok s
  | x :: l' => s' <-? f s x ;; foldl_result f s' l'
  end.

Definition host_build (b : HostRouterBuilder) :
    result (HostRouter * list RouteConflict) RouterError :=
  let st0 := mkBuildState (router_new _) [] [] [] false [] in
  st1 <-? foldl_result build_exact_group st0 (group_by_path (hb_exact_routes b)) ;;
  let prefix_routes := (λ '(p, e), (normalize_prefix p, e)) <$> hb_prefix_routes b in
  let st2 := foldl build_prefix_group st1 (group_by_path prefix_routes) in
  st3 <-? foldl_result build_regex_group st2 (group_by_path (hb_regex_routes b)) ;;
  Ok (mkHostRouter (bs_router st3) (bs_regex st3) (bs_has_query st3) (bs_route_info st3)
        (default Base (hb_normalize b)) (bs_wire_table st3), bs_conflicts st3).
End host_router.

(** ** Wildcard hosts *)

Inductive WildcardKind := SingleLabel | MultiLabel.

#[export] Instance WildcardKind_eq_dec : EqDecision WildcardKind.
Proof. solve_decision. Defined.

#[export] Program Instance WildcardKind_countable : Countable WildcardKind :=
  inj_countable' (λ k, match k with SingleLabel => true | MultiLabel => false end)
    (λ b, if b : bool then SingleLabel else MultiLabel) _.
Next Obligation. by intros []. Qed.

Definition wildcard_matches (host suffix : str) (kind : WildcardKind) : bool :=
  match strip_suffix suffix host with
  | Some rest =>
      match strip_suffix (lit ".") rest with
      | Some prefix =>
          match prefix with
          | [] => false
          | _ =>
              match kind with
              | SingleLabel => negb (contains dot prefix)
              | MultiLabel => true
              end
          end
      | None => false
      end
  | None => false
  end.
