(* ===== verification/HostRouterFacts.v ===== *)
(** * Theorems about per-host routing

    Grouping keeps every rule of a path in order; specificity is a total order
    whose least passing rule is served; the compiled matchit router implements
    exact-then-longest-prefix selection; duplicate detection and the wire table
    are faithful to what was registered. *)

From S2P Require Import Prelude PathNormalize Net Backend External Config Filters Entry HostRouter.

#[local] Arguments first_match : simpl never.

Section facts.
Context `{RegexLib, HttpLib, MatchitLib}.

(** ** Specificity order *)

Lemma key_leb_spec a b :
  key_leb a b = true ↔
  sk_has_method b < sk_has_method a ∨ (sk_has_method a = sk_has_method b ∧
  (sk_headers b < sk_headers a ∨ (sk_headers a = sk_headers b ∧
  (sk_query b < sk_query a ∨ (sk_query a = sk_query b ∧
  ((sk_ts a < sk_ts b)%Z ∨ (sk_ts a = sk_ts b ∧
  ((sk_route_id a ≠ sk_route_id b ∧ str_leb (sk_route_id a) (sk_route_id b) = true) ∨
   (sk_route_id a = sk_route_id b ∧ sk_insertion_idx a ≤ sk_insertion_idx b))))))))).
Proof.
  unfold key_leb.
  destruct (Nat.eqb_spec (sk_has_method a) (sk_has_method b)); cbn [negb];
    [|rewrite Nat.ltb_lt; lia].
  destruct (Nat.eqb_spec (sk_headers a) (sk_headers b)); cbn [negb]; [|rewrite Nat.ltb_lt; lia].
  destruct (Nat.eqb_spec (sk_query a) (sk_query b)); cbn [negb]; [|rewrite Nat.ltb_lt; lia].
  destruct (Z.eqb_spec (sk_ts a) (sk_ts b)); cbn [negb]; [|rewrite Z.ltb_lt; lia].
  case_bool_decide; cbn [negb]; [rewrite Nat.leb_le|]; intuition lia.
Qed.

Lemma key_leb_total a b : key_leb a b = true ∨ key_leb b a = true.
Proof.
  rewrite !key_leb_spec. destruct (str_leb_total (sk_route_id a) (sk_route_id b)),
    (decide (sk_route_id a = sk_route_id b)), (decide (sk_insertion_idx a ≤ sk_insertion_idx b)),
    (Z.lt_total (sk_ts a) (sk_ts b)) as [?|[?|?]],
    (Nat.lt_total (sk_query a) (sk_query b)) as [?|[?|?]],
    (Nat.lt_total (sk_headers a) (sk_headers b)) as [?|[?|?]],
    (Nat.lt_total (sk_has_method a) (sk_has_method b)) as [?|[?|?]];
    first [left; intuition (congruence || lia) | right; intuition (congruence || lia)].
Qed.

Lemma tail_trans (x y z : str) i j k :
  (x ≠ y ∧ str_leb x y = true) ∨ (x = y ∧ i ≤ j) →
  (y ≠ z ∧ str_leb y z = true) ∨ (y = z ∧ j ≤ k) →
  (x ≠ z ∧ str_leb x z = true) ∨ (x = z ∧ i ≤ k).
Proof.
  intros [[Hne Hle]|[-> Hij]] [[Hne' Hle']|[-> Hjk]]; [|by auto..|right; split; [done|lia]].
  left. split; [|by eapply str_leb_trans].
  intros ->. apply Hne. by apply str_leb_antisym.
Qed.

Lemma key_leb_trans a b c : key_leb a b = true → key_leb b c = true → key_leb a c = true.
Proof.
  rewrite !key_leb_spec.
  intros [?|[? [?|[? [?|[? [?|[? Hab]]]]]]]] [?|[? [?|[? [?|[? [?|[? Hbc]]]]]]]]; try lia.
  do 4 (right; split; [congruence|]). by eapply tail_trans.
Qed.

Lemma sort_and_freeze_first es ctx e :
  first_match (sort_and_freeze es) ctx = Some e →
  predicates_match (re_predicates e) ctx = true ∧
  ∃ i, (i, e) ∈ es ∧ ∀ j e', (j, e') ∈ es → predicates_match (re_predicates e') ctx = true →
    key_leb (specificity_key e i) (specificity_key e' j) = true.
Proof.
  unfold first_match, sort_and_freeze. rewrite find_first_fmap. intros He.
  apply fmap_Some in He as ([i e0] & He & ->). cbn.
  pose proof (find_first_elem _ _ _ He) as [Hin Hp]. split; [done|].
  exists i. rewrite elem_of_sort_by in Hin. split; [done|]. intros j e' Hj Hp'.
  change (indexed_leb (i, e0) (j, e') = true).
  eapply (find_first_sort_least indexed_leb); eauto.
  - intros. apply key_leb_total.
  - intros *. apply key_leb_trans.
Qed.

(** ** Grouping by path *)

Definition group_lookup (groups : PathGroups) (p : str) : option (list (nat * RouteEntry)) :=
  snd <$> find_first (λ g, bool_decide (g.1 = p)) groups.

(** The rules registered under one path, in order, with their positions. *)
Definition entries_for (p : str) (il : list (nat * (str * RouteEntry))) : list (nat * RouteEntry) :=
  omap (λ '(i, (q, e)), if decide (q = p) then Some (i, e) else None) il.

Lemma group_lookup_push groups p ie q :
  group_lookup (group_push p ie groups) q =
  if decide (q = p) then Some (default [] (group_lookup groups p) ++ [ie])
  else group_lookup groups q.
Proof.
  unfold group_lookup. induction groups as [|[r es] groups IH]; cbn [group_push].
  - cbn. case_bool_decide; case_decide; naive_solver.
  - destruct (decide (r = p)) as [->|Hrp]; cbn [find_first fst].
    + destruct (decide (q = p)) as [->|Hqp].
      * by rewrite bool_decide_eq_true_2.
      * by rewrite !bool_decide_eq_false_2.
    + rewrite (bool_decide_eq_false_2 (r = p)) by done. destruct (decide (q = p)) as [->|Hqp].
      * by rewrite bool_decide_eq_false_2.
      * case_bool_decide; [done|]. done.
Qed.

Lemma group_push_paths groups p ie q :
  q ∈ (group_push p ie groups).*1 ↔ q = p ∨ q ∈ groups.*1.
Proof.
  induction groups as [|[r es] groups IH]; cbn [group_push]; [set_solver|].
  case_decide; rewrite ?fmap_cons, ?elem_of_cons; cbn; [set_solver|]. rewrite IH. set_solver.
Qed.

Lemma group_push_NoDup groups p ie : NoDup groups.*1 → NoDup (group_push p ie groups).*1.
Proof.
  induction groups as [|[r es] groups IH]; cbn [group_push].
  - intros _. by apply NoDup_singleton.
  - case_decide; rewrite !fmap_cons; cbn; [done|]. intros [Hr Hg]%NoDup_cons.
    apply NoDup_cons. split; [|auto]. rewrite group_push_paths. naive_solver.
Qed.

Lemma group_fold_lookup il groups q :
  group_lookup (foldl (λ groups '(i, (p, e)), group_push p (i, e) groups) groups il) q =
  match group_lookup groups q with
  | Some es => Some (es ++ entries_for q il)
  | None => match entries_for q il with [] => None | es => Some es end
  end.
Proof.
  revert groups. induction il as [|[i [p e]] il IH]; intros groups; cbn [foldl].
  - cbn. destruct (group_lookup groups q); by rewrite ?app_nil_r.
  - rewrite IH, group_lookup_push. unfold entries_for. cbn [omap list_omap].
    destruct (decide (q = p)) as [->|Hne].
    + rewrite decide_True by done. destruct (group_lookup groups p); cbn.
      * by rewrite <-app_assoc.
      * done.
    + rewrite decide_False by congruence. done.
Qed.

Lemma group_fold_NoDup il groups :
  NoDup groups.*1 →
  NoDup (foldl (λ groups '(i, (p, e)), group_push p (i, e) groups) groups il).*1.
Proof.
  revert groups. induction il as [|[i [p e]] il IH]; intros groups Hg; cbn [foldl]; [done|].
  by apply IH, group_push_NoDup.
Qed.

Lemma group_by_path_NoDup routes : NoDup (group_by_path routes).*1.
Proof. apply group_fold_NoDup. constructor. Qed.

Lemma group_lookup_elem groups p es :
  NoDup groups.*1 → group_lookup groups p = Some es ↔ (p, es) ∈ groups.
Proof.
  unfold group_lookup. induction groups as [|[r fs] groups IH]; cbn [fmap list_fmap fst].
  - intros _. cbn. set_solver.
  - intros [Hr Hg]%NoDup_cons. cbn [find_first fst]. rewrite elem_of_cons. case_bool_decide as Hd.
    + subst r. cbn. split; [intros [= ->]; by left|]. intros [[= ->]|Hin]; [done|].
      exfalso. apply Hr. by apply (list_elem_of_fmap_2 fst _ (p, es)).
    + rewrite IH by done. naive_solver.
Qed.

(** A group holds exactly the rules of its path, and every rule is in one. *)
Lemma group_by_path_elem routes p es :
  (p, es) ∈ group_by_path routes ↔ es = entries_for p (imap pair routes) ∧ es ≠ [].
Proof.
  rewrite <-group_lookup_elem by apply group_by_path_NoDup.
  unfold group_by_path. rewrite group_fold_lookup. cbn.
  destruct (entries_for p (imap pair routes)); naive_solver.
Qed.

Lemma elem_of_entries_for p routes i e :
  (i, e) ∈ entries_for p (imap pair routes) ↔ routes !! i = Some (p, e).
Proof.
  unfold entries_for. rewrite list_elem_of_omap. split.
  - intros ([j [q e']] & (k & x & Heq & Hk)%elem_of_lookup_imap & Hd).
    case_decide; simplify_eq. done.
  - intros Hi. exists (i, (p, e)). rewrite decide_True by done. split; [|done].
    apply elem_of_lookup_imap. eauto.
Qed.

Lemma group_by_path_paths routes p :
  p ∈ (group_by_path routes).*1 ↔ ∃ e, (p, e) ∈ routes.
Proof.
  rewrite list_elem_of_fmap. split.
  - intros ([q es] & -> & [-> Hne]%group_by_path_elem). cbn.
    destruct (entries_for q (imap pair routes)) as [|[i e] es] eqn:E; [done|].
    exists e. apply (list_elem_of_lookup_2 _ i), elem_of_entries_for. rewrite E. by left.
  - intros (e & (i & Hi)%list_elem_of_lookup_1).
    exists (p, entries_for p (imap pair routes)). split; [done|]. apply group_by_path_elem.
    split; [done|]. apply elem_of_entries_for in Hi. intros Hnil. rewrite Hnil in Hi.
    by apply elem_of_nil in Hi.
Qed.
End facts.

Section contents.
Context `{RegexLib, HttpLib, MatchitLaws}.
Abbreviation slot := (Pattern * list RouteEntry)%type.

(** ** What the compiled router contains *)

(** The insertions [build] attempts, in order. *)
Definition exact_insertions (b : HostRouterBuilder) : list slot :=
  (λ g, (Static g.1, sort_and_freeze g.2)) <$> group_by_path (hb_exact_routes b).

Definition base_of (n : str) : str := if decide (n = lit "/") then [] else n.

Definition prefix_pats (n : str) : list Pattern :=
  if decide (n = lit "/") then [Static (lit "/"); CatchAll []]
  else [Static n; Static (n ++ lit "/"); CatchAll n].

Definition prefix_routes_of (b : HostRouterBuilder) : list (str * RouteEntry) :=
  (λ '(p, e), (normalize_prefix p, e)) <$> hb_prefix_routes b.

Definition group_insertions (g : str * list (nat * RouteEntry)) : list slot :=
  (λ p, (p, sort_and_freeze g.2)) <$> prefix_pats g.1.

Definition prefix_insertions (b : HostRouterBuilder) : list slot :=
  mjoin (group_insertions <$> group_by_path (prefix_routes_of b)).

(** An insertion is kept when its pattern is new. *)
Definition keep_new (es : list slot) (s : slot) : list slot :=
  if decide (s.1 ∈ es.*1) then es else es ++ [s].

Definition contents (b : HostRouterBuilder) : list slot :=
  foldl keep_new [] (exact_insertions b ++ prefix_insertions b).

Lemma keep_new_fold es ins p v :
  (p, v) ∈ foldl keep_new es ins ↔
  (p, v) ∈ es ∨ (p ∉ es.*1 ∧ find_first (λ s, bool_decide (s.1 = p)) ins = Some (p, v)).
Proof.
  revert es. induction ins as [|[q w] ins IH]; intros es; cbn [foldl find_first fst].
  { naive_solver. }
  rewrite IH. unfold keep_new. cbn. case_decide as Hin; case_bool_decide as Hq.
  - subst q. naive_solver.
  - done.
  - subst q. rewrite fmap_app. cbn. set_solver.
  - rewrite fmap_app. cbn. set_solver.
Qed.

Lemma keep_new_paths es ins p : p ∈ (foldl keep_new es ins).*1 ↔ p ∈ es.*1 ∨ p ∈ ins.*1.
Proof.
  revert es. induction ins as [|[q w] ins IH]; intros es; cbn [foldl fmap list_fmap fst].
  { set_solver. }
  rewrite IH. unfold keep_new. cbn. case_decide; rewrite ?fmap_app; set_solver.
Qed.

Lemma insert_or_log_holds r es p v :
  holds r es → pattern_plain p → holds (insert_or_log (pattern_text p) v r) (keep_new es (p, v)).
Proof.
  intros Hr Hp. unfold insert_or_log, keep_new. cbn. case_decide as Hin.
  - destruct (holds_insert_dup r es p v Hr Hp Hin) as [e ->]. done.
  - destruct (holds_insert_new r es p v Hr Hp Hin) as (r' & -> & Hr'). done.
Qed.

Lemma prefix_patterns_text n : prefix_patterns n = pattern_text <$> prefix_pats n.
Proof. unfold prefix_patterns, prefix_pats. by case_decide. Qed.

Lemma prefix_pats_plain n : plain n → Forall pattern_plain (prefix_pats n).
Proof.
  intros [Hl Hr]. unfold prefix_pats, plain. case_decide; repeat constructor; cbn; set_solver.
Qed.

Lemma insert_all_holds r es v pats :
  holds r es → Forall pattern_plain pats →
  holds (foldl (λ r pattern, insert_or_log pattern v r) r (pattern_text <$> pats))
    (foldl keep_new es ((λ p, (p, v)) <$> pats)).
Proof.
  intros Hr Hp. revert r es Hr.
  induction Hp as [|p pats Hp _ IH]; intros r es Hr; [done|]. cbn [fmap list_fmap foldl].
  apply IH. by apply insert_or_log_holds.
Qed.

Lemma build_prefix_holds st es groups :
  holds (bs_router st) es → Forall (λ g, plain g.1) groups →
  holds (bs_router (foldl build_prefix_group st groups))
    (foldl keep_new es (mjoin (group_insertions <$> groups))).
Proof.
  intros Hr Hg. revert st es Hr.
  induction Hg as [|[n ies] groups Hn _ IH]; intros st es Hr; [done|].
  cbn [fmap list_fmap foldl]. change (mjoin (?x :: ?l)) with (x ++ mjoin l).
  rewrite foldl_app. apply IH. unfold build_prefix_group, group_insertions. cbn [bs_router fst snd].
  rewrite prefix_patterns_text. apply insert_all_holds; [done|]. by apply prefix_pats_plain.
Qed.

Lemma build_exact_holds st es groups :
  holds (bs_router st) es → Forall (λ g, plain g.1) groups →
  NoDup groups.*1 → (∀ p, p ∈ groups.*1 → Static p ∉ es.*1) →
  ∃ st', foldl_result build_exact_group st groups = Ok st' ∧
    holds (bs_router st')
      (foldl keep_new es ((λ g, (Static g.1, sort_and_freeze g.2)) <$> groups)) ∧
    bs_regex st' = bs_regex st.
Proof.
  intros Hr Hg. revert st es Hr.
  induction Hg as [|[p ies] groups Hp _ IH]; intros st es Hr Hnd Hfresh.
  { by exists st. }
  cbn [foldl_result build_exact_group fmap list_fmap foldl fst snd] in *.
  apply NoDup_cons in Hnd as [Hnotin Hnd].
  assert (Static p ∉ es.*1) as Hnew by (apply Hfresh; by left).
  destruct (holds_insert_new (bs_router st) es (Static p) (sort_and_freeze ies) Hr Hp Hnew)
    as (r' & Hins & Hr'). cbn [pattern_text] in Hins. rewrite Hins.
  assert (keep_new es (Static p, sort_and_freeze ies) = es ++ [(Static p, sort_and_freeze ies)])
    as -> by (unfold keep_new; by rewrite decide_False).
  match goal with |- context [foldl_result build_exact_group ?st1 groups] =>
    apply (IH st1 _ Hr' Hnd) end.
  intros q Hq. rewrite fmap_app, elem_of_app. cbn. intros [Hin|Hin].
  - eapply Hfresh; [|done]. by right.
  - apply list_elem_of_singleton in Hin as [= ->]. done.
Qed.

(** Registered exact and prefix paths carry no parameter syntax. *)
Definition plain_builder (b : HostRouterBuilder) : Prop :=
  Forall (λ r, plain r.1) (hb_exact_routes b) ∧ Forall (λ r, plain r.1) (hb_prefix_routes b).

(** The compiled regex slots, or nothing when a pattern does not compile. *)
Definition regex_slots (b : HostRouterBuilder) : option (list (Regex * list RouteEntry)) :=
  mapM (λ g, set ← regex_compile g.1; Some (set, sort_and_freeze g.2))
    (group_by_path (hb_regex_routes b)).

Lemma group_by_path_plain routes :
  Forall (λ r, plain r.1) routes → Forall (λ g, plain g.1) (group_by_path routes).
Proof.
  intros Hr. apply Forall_forall. intros [p es] Hin. cbn.
  apply (list_elem_of_fmap_2 fst) in Hin. apply group_by_path_paths in Hin as [e He].
  rewrite Forall_forall in Hr. by apply (Hr (p, e)).
Qed.

Lemma normalize_prefix_plain p : plain p → plain (normalize_prefix p).
Proof.
  unfold plain, normalize_prefix.
  destruct (trim_end_matches_spec slash p) as (n & Hp & _).
  destruct (trim_end_matches slash p) as [|c t]; [intros _; cbn; set_solver|].
  rewrite Hp. set_solver.
Qed.

Lemma prefix_routes_plain b :
  Forall (λ r, plain r.1) (hb_prefix_routes b) → Forall (λ r, plain r.1) (prefix_routes_of b).
Proof.
  intros Hp. apply Forall_fmap. eapply Forall_impl; [done|]. intros [p e] Hpl.
  by apply normalize_prefix_plain.
Qed.

Lemma build_regex_fold st groups :
  match mapM (λ g, set ← regex_compile g.1; Some (set, sort_and_freeze g.2)) groups with
  | None => foldl_result build_regex_group st groups = Err RegexError
  | Some rs => ∃ st', foldl_result build_regex_group st groups = Ok st' ∧
      bs_router st' = bs_router st ∧ bs_regex st' = bs_regex st ++ rs ∧
      bs_conflicts st' = bs_conflicts st
  end.
Proof.
  revert st. induction groups as [|[p ies] groups IH]; intros st; cbn [mapM foldl_result].
  { exists st. by rewrite app_nil_r. }
  cbn [build_regex_group fst snd]. destruct (regex_compile p) as [set|]; [|done].
  cbn [mbind option_bind].
  match goal with |- context [foldl_result build_regex_group ?st1 groups] =>
    specialize (IH st1) end.
  destruct (mapM _ groups) as [rs|]; [|done]. cbn [mbind option_bind mret option_ret].
  destruct IH as (st' & Hst' & Hr & Hx & Hc). exists st'. split_and!; try done.
  rewrite Hx. cbn. by rewrite <-app_assoc.
Qed.

Lemma build_prefix_regex st groups : bs_regex (foldl build_prefix_group st groups) = bs_regex st.
Proof. revert st. induction groups as [|[p ies] groups IH]; intros st; [done|]. cbn. by rewrite IH. Qed.

(** The build fails only on a regex that does not compile. *)
Lemma host_build_spec b :
  plain_builder b →
  match regex_slots b with
  | None => host_build b = Err RegexError
  | Some rs => ∃ h cs, host_build b = Ok (h, cs) ∧ holds (hr_router h) (contents b) ∧
      hr_regex_routes h = rs ∧ hr_normalize h = default Base (hb_normalize b)
  end.
Proof.
  intros [Hex Hpre]. unfold host_build.
  set (st0 := mkBuildState (router_new (list RouteEntry)) [] [] [] false []).
  destruct (build_exact_holds st0 [] (group_by_path (hb_exact_routes b)))
    as (st1 & -> & Hh1 & Hx1); [apply holds_new|by apply group_by_path_plain|
      apply group_by_path_NoDup|intros p _; cbn; set_solver|].
  fold (prefix_routes_of b).
  pose proof (build_prefix_holds st1 _ (group_by_path (prefix_routes_of b)) Hh1
    ltac:(by apply group_by_path_plain, prefix_routes_plain)) as Hh2.
  set (st2 := foldl build_prefix_group st1 (group_by_path (prefix_routes_of b))) in *.
  pose proof (build_regex_fold st2 (group_by_path (hb_regex_routes b))) as H3.
  unfold regex_slots. destruct (mapM _ _) as [rs|]; [|by rewrite H3].
  destruct H3 as (st3 & -> & Hr3 & Hx3 & _). eexists _, _. split; [done|]. cbn.
  split_and!; [|by rewrite Hx3; unfold st2; rewrite build_prefix_regex, Hx1|done].
  rewrite Hr3. unfold contents. rewrite foldl_app. exact Hh2.
Qed.

(** ** Which slot serves a path *)

(** Element-wise prefix matching: [n] itself, or [n] followed by a slash and
    anything; the root matches every absolute path. *)
Definition prefix_matches (n path : str) : Prop :=
  path = n ∨ ∃ rest, path = base_of n ++ slash :: rest.

Definition normalized (n : str) : Prop := n = lit "/" ∨ (n ≠ [] ∧ last n ≠ Some slash).

Lemma normalize_prefix_normalized p : normalized (normalize_prefix p).
Proof.
  unfold normalize_prefix, normalized. destruct (trim_end_matches_spec slash p) as (n & _ & Hl).
  destruct (trim_end_matches slash p) as [|c t]; [by left|by right].
Qed.

Lemma normalized_not_slash n m : normalized n → m ≠ [] → n ≠ m ++ lit "/".
Proof.
  intros [->|[Hne Hl]] Hm Heq.
  - destruct m as [|c m]; [done|]. injection Heq as _ Heq. by destruct m.
  - subst n. apply Hl. apply last_snoc.
Qed.

Lemma normalized_nonempty n : normalized n → n ≠ [].
Proof. by intros [->|[? _]]. Qed.

Lemma base_of_root : base_of (lit "/") = [].
Proof. done. Qed.

Lemma base_of_other n : n ≠ lit "/" → base_of n = n.
Proof. intros. unfold base_of. by rewrite decide_False. Qed.

Lemma base_of_length n : length (base_of n) ≤ length n.
Proof. unfold base_of. case_decide; cbn; lia. Qed.

Lemma catch_all_matches s path :
  pattern_matches (CatchAll s) path = true ↔ ∃ c rest, path = s ++ slash :: c :: rest.
Proof.
  cbn [pattern_matches]. destruct (strip_prefix (s ++ lit "/") path) as [r|] eqn:E.
  - apply strip_prefix_Some in E as ->. rewrite <-app_assoc. cbn.
    destruct r as [|c r]; split; try done; [|by eauto].
    intros (c & rest & Heq%app_inj_1); [|done]. destruct Heq as [_ [=]].
  - rewrite strip_prefix_None in E. split; [done|]. intros (c & rest & ->).
    destruct (E (c :: rest)). by rewrite <-app_assoc.
Qed.

(** A prefix group's patterns cover exactly its element-wise matches. *)
Lemma prefix_pats_cover n path :
  prefix_matches n path ↔ ∃ p, p ∈ prefix_pats n ∧ pattern_matches p path = true.
Proof.
  unfold prefix_matches, prefix_pats, base_of. case_decide as Hn.
  - subst n. split.
    + intros [->|[[|c rest] ->]]; [exists (Static (lit "/"))..|exists (CatchAll [])];
        (split; [set_solver|]); [done|done|]. apply catch_all_matches. eauto.
    + intros (p & Hp & Hm). rewrite !elem_of_cons, elem_of_nil in Hp.
      destruct Hp as [->|[->|[]]].
      * apply bool_decide_eq_true in Hm. by left.
      * apply catch_all_matches in Hm as (c & rest & ->). right. by eexists.
  - split.
    + intros [->|[[|c rest] ->]].
      * exists (Static n). split; [set_solver|]. by apply bool_decide_eq_true.
      * exists (Static (n ++ lit "/")). split; [set_solver|]. by apply bool_decide_eq_true.
      * exists (CatchAll n). split; [set_solver|]. apply catch_all_matches. eauto.
    + intros (p & Hp & Hm). rewrite !elem_of_cons, elem_of_nil in Hp.
      destruct Hp as [->|[->|[->|[]]]].
      * apply bool_decide_eq_true in Hm. by left.
      * apply bool_decide_eq_true in Hm. right. by exists [].
      * apply catch_all_matches in Hm as (c & rest & ->). right. by eexists.
Qed.

(** The slot a path is served from: the rules of that exact path if there are
    any; otherwise those of the longest matching prefix; otherwise none. *)
Inductive slot_spec (b : HostRouterBuilder) (path : str) : list RouteEntry → Prop :=
| slot_exact es :
    (path, es) ∈ group_by_path (hb_exact_routes b) → slot_spec b path (sort_and_freeze es)
| slot_prefix n es :
    path ∉ (hb_exact_routes b).*1 →
    (n, es) ∈ group_by_path (prefix_routes_of b) → prefix_matches n path →
    (∀ n', n' ∈ (prefix_routes_of b).*1 → prefix_matches n' path → length n' ≤ length n) →
    slot_spec b path (sort_and_freeze es)
| slot_none :
    path ∉ (hb_exact_routes b).*1 →
    (∀ n', n' ∈ (prefix_routes_of b).*1 → ¬ prefix_matches n' path) →
    slot_spec b path [].

Lemma contents_inv b p v :
  (p, v) ∈ contents b →
  (∃ q es, p = Static q ∧ (q, es) ∈ group_by_path (hb_exact_routes b) ∧ v = sort_and_freeze es) ∨
  ((∀ q, p = Static q → q ∉ (hb_exact_routes b).*1) ∧
   ∃ n es, (n, es) ∈ group_by_path (prefix_routes_of b) ∧ p ∈ prefix_pats n ∧
     v = sort_and_freeze es).
Proof.
  unfold contents. rewrite keep_new_fold, find_first_app. intros [Hnil|[_ Hf]].
  { by apply elem_of_nil in Hnil. }
  destruct (find_first _ (exact_insertions b)) as [s|] eqn:E.
  - simplify_eq. left. apply find_first_elem in E as [Hin _].
    apply list_elem_of_fmap in Hin as ([q es] & [= -> ->] & Hin). eauto.
  - right. split.
    + intros q -> Hq. apply find_first_None in E. rewrite Forall_forall in E.
      apply list_elem_of_fmap in Hq as ([q' e] & -> & Hq). cbn in *.
      assert (q' ∈ (group_by_path (hb_exact_routes b)).*1) as Hg
        by (apply group_by_path_paths; eauto).
      apply list_elem_of_fmap in Hg as ([q es] & -> & Hg).
      assert ((Static q, sort_and_freeze es) ∈ exact_insertions b) as Hq'
        by (apply list_elem_of_fmap; by exists (q, es)).
      specialize (E _ Hq'). cbn in E. by rewrite bool_decide_eq_true_2 in E.
    + apply find_first_elem in Hf as [Hin _].
      apply list_elem_of_join in Hin as (l & Hin & Hl).
      apply list_elem_of_fmap in Hl as ([n es] & -> & Hg).
      apply list_elem_of_fmap in Hin as (p' & [= -> ->] & Hp). eauto 6.
Qed.

Lemma contents_exact b q :
  q ∈ (hb_exact_routes b).*1 → Static q ∈ (contents b).*1.
Proof.
  intros Hq. unfold contents. rewrite keep_new_paths, fmap_app, elem_of_app. right. left.
  apply list_elem_of_fmap in Hq as ([q' e] & -> & Hq). cbn.
  assert (q' ∈ (group_by_path (hb_exact_routes b)).*1) as Hg
    by (apply group_by_path_paths; eauto).
  apply list_elem_of_fmap in Hg as ([q es] & -> & Hg). cbn.
  unfold exact_insertions. rewrite <-list_fmap_compose.
  by apply (list_elem_of_fmap_2 (fst ∘ (λ g, (Static g.1, sort_and_freeze g.2))) _ (q, es)).
Qed.

Lemma contents_prefix b n p :
  n ∈ (prefix_routes_of b).*1 → p ∈ prefix_pats n → p ∈ (contents b).*1.
Proof.
  intros Hn Hp. unfold contents. rewrite keep_new_paths, fmap_app, elem_of_app. right. right.
  apply list_elem_of_fmap in Hn as ([n' e] & -> & Hn). cbn in Hp.
  assert (n' ∈ (group_by_path (prefix_routes_of b)).*1) as Hg
    by (apply group_by_path_paths; eauto).
  apply list_elem_of_fmap in Hg as ([n es] & -> & Hg). cbn in Hp.
  apply list_elem_of_fmap. exists (p, sort_and_freeze es). split; [done|].
  apply list_elem_of_join. exists (group_insertions (n, es)). split.
  - by apply (list_elem_of_fmap_2 (λ p, (p, sort_and_freeze es))).
  - by apply list_elem_of_fmap_2.
Qed.

Lemma prefix_routes_normalized b n : n ∈ (prefix_routes_of b).*1 → normalized n.
Proof.
  unfold prefix_routes_of. rewrite <-list_fmap_compose.
  intros ([p e] & -> & _)%list_elem_of_fmap. apply normalize_prefix_normalized.
Qed.

(** A static pattern of a prefix group beats every other matching prefix. *)
Lemma prefix_static_longest n n' path :
  normalized n → normalized n' → path = n ∨ (n ≠ lit "/" ∧ path = n ++ lit "/") →
  prefix_matches n' path → length n' ≤ length n.
Proof.
  intros Hn Hn' Hpath Hm. pose proof (normalized_nonempty n Hn) as Hne.
  assert (0 < length n) by (destruct n; cbn in *; [done|lia]).
  destruct Hpath as [->|[Hroot ->]].
  - destruct Hm as [->|[rest Heq]]; [lia|].
    destruct (decide (n' = lit "/")) as [->|Hn'r]; [cbn; lia|].
    rewrite base_of_other in Heq by done. rewrite Heq, length_app. lia.
  - destruct Hm as [Heq|[rest Heq]].
    + by destruct (normalized_not_slash n' n Hn' Hne).
    + destruct (decide (n' = lit "/")) as [->|Hn'r]; [cbn; lia|].
      rewrite base_of_other in Heq by done. apply (f_equal length) in Heq.
      rewrite !length_app in Heq. cbn in Heq. lia.
Qed.

Lemma prefix_catch_longest n n' :
  normalized n → length (base_of n') ≤ length (base_of n) → length n' ≤ length n.
Proof.
  intros Hn Hle. pose proof (normalized_nonempty n Hn) as Hne.
  assert (0 < length n) by (destruct n; cbn in *; [done|lia]).
  pose proof (base_of_length n). destruct (decide (n' = lit "/")) as [->|Hr]; [cbn; lia|].
  rewrite base_of_other in Hle by done. lia.
Qed.

Lemma prefix_pats_inv n p :
  p ∈ prefix_pats n →
  (∃ s, p = Static s ∧ (s = n ∨ (n ≠ lit "/" ∧ s = n ++ lit "/"))) ∨ p = CatchAll (base_of n).
Proof.
  unfold prefix_pats, base_of. case_decide as Hn; rewrite !elem_of_cons, elem_of_nil; naive_solver.
Qed.

Lemma slot_lookup b r path :
  holds r (contents b) → slot_spec b path (default [] (router_at r path)).
Proof.
  intros Hr. destruct (router_at r path) as [v|] eqn:Hat; cbn.
  - destruct (holds_at_Some r _ path v Hr Hat) as (p & Hin & Hm & Hbest).
    destruct (contents_inv b p v Hin) as [(q & es & -> & Hg & ->)|[Hnex (n & es & Hg & Hp & ->)]].
    { apply bool_decide_eq_true in Hm as ->. by apply slot_exact. }
    assert (n ∈ (prefix_routes_of b).*1) as Hn.
    { apply (list_elem_of_fmap_2 fst) in Hg. apply group_by_path_paths in Hg as [e He].
      by apply (list_elem_of_fmap_2 fst _ (n, e)). }
    apply (slot_prefix b path n); [|done|by apply prefix_pats_cover; eauto|].
    + intros Hex. destruct p as [s|s].
      * apply bool_decide_eq_true in Hm as ->. by apply (Hnex path).
      * specialize (Hbest (Static path) (contents_exact b path Hex)
          ltac:(by apply bool_decide_eq_true)). done.
    + intros n' Hn' Hm'. pose proof (prefix_routes_normalized b n Hn) as Hnn.
      pose proof (prefix_routes_normalized b n' Hn') as Hnn'.
      destruct (prefix_pats_inv n p Hp) as [(s & -> & Hs)| ->].
      * apply bool_decide_eq_true in Hm as ->. by apply (prefix_static_longest n n' path).
      * apply prefix_catch_longest; [done|]. apply prefix_pats_cover in Hm' as (q & Hq & Hqm).
        specialize (Hbest q (contents_prefix b n' q Hn' Hq) Hqm).
        destruct (prefix_pats_inv n' q Hq) as [(s' & -> & _)| ->]; [done|].
        cbn in Hbest. by apply Nat.ltb_ge in Hbest.
  - pose proof (holds_at_None r _ path Hr Hat) as Hnone. apply slot_none.
    + intros Hex. pose proof (Hnone _ (contents_exact b path Hex)) as Hf.
      by apply bool_decide_eq_false in Hf.
    + intros n' Hn' (q & Hq & Hm)%prefix_pats_cover.
      by rewrite (Hnone q (contents_prefix b n' q Hn' Hq)) in Hm.
Qed.

(** The rules of the matching regex groups, in registration order. *)
Definition regex_candidates (rs : list (Regex * list RouteEntry)) (path : str) : list RouteEntry :=
  mjoin (snd <$> filter (λ r, regex_is_match r.1 path = true) rs).

Lemma first_match_app l1 l2 ctx :
  first_match (l1 ++ l2) ctx =
  match first_match l1 ctx with Some e => Some e | None => first_match l2 ctx end.
Proof. apply find_first_app. Qed.

Lemma route_regex_candidates rs path ctx :
  route_regex rs path ctx = from_entry <$> first_match (regex_candidates rs path) ctx.
Proof.
  unfold regex_candidates. induction rs as [|[set es] rs IH]; [done|]. cbn [route_regex].
  rewrite filter_cons. cbn [fst]. destruct (regex_is_match set path).
  - rewrite decide_True by done. rewrite fmap_cons. cbn [snd].
    change (mjoin (es :: ?l)) with (es ++ mjoin l). rewrite first_match_app, IH.
    by destruct (first_match es ctx).
  - by rewrite decide_False.
Qed.

Lemma host_route_candidates h path ctx :
  host_route h path ctx =
  from_entry <$> first_match (default [] (router_at (hr_router h) path) ++
                              regex_candidates (hr_regex_routes h) path) ctx.
Proof.
  unfold host_route. rewrite first_match_app, route_regex_candidates.
  destruct (router_at _ path) as [es|]; cbn; [|done]. by destruct (first_match es ctx).
Qed.
End contents.

(** ** Main theorems *)

Section main.
Context `{RegexLib, HttpLib, MatchitLaws}.

(** A host compiles exactly when every regex pattern of it compiles.  Exact
    rules never collide in matchit, because rules are grouped by path first,
    and a rejected prefix insertion never fails the build. *)
Theorem host_build_succeeds_iff b :
  plain_builder b →
  ((∃ h cs, host_build b = Ok (h, cs)) ↔
   ∀ pattern e, (pattern, e) ∈ hb_regex_routes b → is_Some (regex_compile pattern)) ∧
  ∀ err, host_build b = Err err → err = RegexError.
Proof.
  intros Hb. pose proof (host_build_spec b Hb) as Hspec.
  assert (is_Some (regex_slots b) ↔
    ∀ pattern e, (pattern, e) ∈ hb_regex_routes b → is_Some (regex_compile pattern)) as Hiff.
  { unfold regex_slots. rewrite mapM_is_Some, Forall_forall. split.
    - intros Hall pattern e He.
      assert (pattern ∈ (group_by_path (hb_regex_routes b)).*1) as Hg
        by (apply group_by_path_paths; eauto).
      apply list_elem_of_fmap in Hg as ([p es] & -> & Hg). specialize (Hall _ Hg). cbn in *.
      destruct (regex_compile p); [done|by destruct Hall].
    - intros Hall [p es] Hg. apply (list_elem_of_fmap_2 fst) in Hg.
      apply group_by_path_paths in Hg as [e He]. destruct (Hall _ _ He) as [set Hset].
      cbn in *. rewrite Hset. by eexists. }
  destruct (regex_slots b) as [rs|]; rewrite <-Hiff.
  - destruct Hspec as (h & cs & Hok & _). rewrite Hok. split; [|done]. split; eauto.
  - rewrite Hspec. split; [|by intros ? [= <-]]. split; [by intros (? & ? & [=])|by intros []].
Qed.


(** Within a path the most specific passing rule wins: a rule with a method
    before one without, then more header predicates, then more query
    predicates, then the older rule, then the smaller route id, then the
    earlier registration; and some rule is served whenever one passes. *)
Theorem most_specific_rule_wins es ctx :
  (∀ e, first_match (sort_and_freeze es) ctx = Some e →
     predicates_match (re_predicates e) ctx = true ∧
     ∃ i, (i, e) ∈ es ∧ ∀ j e', (j, e') ∈ es → predicates_match (re_predicates e') ctx = true →
       let k := specificity_key e i in
       let k' := specificity_key e' j in
       sk_has_method k' < sk_has_method k ∨ (sk_has_method k = sk_has_method k' ∧
       (sk_headers k' < sk_headers k ∨ (sk_headers k = sk_headers k' ∧
       (sk_query k' < sk_query k ∨ (sk_query k = sk_query k' ∧
       ((sk_ts k < sk_ts k')%Z ∨ (sk_ts k = sk_ts k' ∧
       ((sk_route_id k ≠ sk_route_id k' ∧ str_leb (sk_route_id k) (sk_route_id k') = true) ∨
        (sk_route_id k = sk_route_id k' ∧ i ≤ j)))))))))) ∧
  (first_match (sort_and_freeze es) ctx = None ↔
   ∀ i e, (i, e) ∈ es → predicates_match (re_predicates e) ctx = false).
Proof.
  split.
  - intros e He. destruct (sort_and_freeze_first es ctx e He) as (Hp & i & Hin & Hleast).
    split; [done|]. exists i. split; [done|]. intros j e' Hj Hp'.
    by apply key_leb_spec, Hleast.
  - unfold first_match. rewrite find_first_None, Forall_forall. unfold sort_and_freeze.
    setoid_rewrite list_elem_of_fmap. split.
    + intros Hall i e Hin. apply (Hall e). exists (i, e). by rewrite elem_of_sort_by.
    + intros Hall e ([i e'] & -> & Hin). rewrite elem_of_sort_by in Hin. by apply (Hall i).
Qed.

(** A predicate miss does not fall back to a shorter path.  When the exact
    rules of a path all fail their predicates, prefix rules covering the path
    are not consulted: only matching regex rules can serve it. *)
Theorem exact_miss_skips_prefixes b h cs path ctx :
  plain_builder b → host_build b = Ok (h, cs) → path ∈ (hb_exact_routes b).*1 →
  (∀ e, (path, e) ∈ hb_exact_routes b → predicates_match (re_predicates e) ctx = false) →
  ∃ rs, regex_slots b = Some rs ∧
    host_route h path ctx = from_entry <$> first_match (regex_candidates rs path) ctx.
Proof.
  intros Hb Hok Hex Hmiss. pose proof (host_build_spec b Hb) as Hspec.
  destruct (regex_slots b) as [rs|]; [|congruence]. exists rs. split; [done|].
  destruct Hspec as (h' & cs' & Hok' & Hholds & Hrx & _). rewrite Hok' in Hok. simplify_eq.
  rewrite host_route_candidates, first_match_app.
  pose proof (slot_lookup b (hr_router h) path Hholds) as Hslot.
  inversion Hslot as [es Hg Heq|? ? Hno|Hno]; [|done..].
  replace (first_match (sort_and_freeze es) ctx) with (@None RouteEntry); [done|].
  symmetry. unfold first_match. apply find_first_None, Forall_forall. intros e He.
  apply list_elem_of_fmap in He as ([i e'] & -> & Hin). rewrite elem_of_sort_by in Hin.
  apply group_by_path_elem in Hg as [-> _]. apply elem_of_entries_for in Hin.
  apply Hmiss. by eapply list_elem_of_lookup_2.
Qed.
End main.

(** ** Duplicate detection *)

Section conflicts.
Context `{RegexLib, HttpLib, MatchitLib}.

Abbreviation sig e := (predicate_signature (re_predicates e)).

(** The first entry of a list with a given signature. *)
Definition sig_winner (s : str) (l : list RouteEntry) : option RouteEntry :=
  find_first (λ e, bool_decide (sig e = s)) l.

Definition winners_of (pre : list RouteEntry) (winner : gmap str str) : Prop :=
  ∀ s, winner !! s = re_route_id <$> sig_winner s pre.

Lemma winners_of_new pre winner e :
  winners_of pre winner → winner !! sig e = None →
  winners_of (pre ++ [e]) (<[sig e := re_route_id e]> winner).
Proof.
  intros Hw Hnone s. unfold sig_winner. rewrite find_first_app.
  destruct (decide (s = sig e)) as [->|Hne].
  - rewrite lookup_insert_eq. rewrite Hw in Hnone. unfold sig_winner in Hnone.
    destruct (find_first _ pre); [done|]. cbn. by rewrite bool_decide_eq_true_2.
  - rewrite lookup_insert_ne by done. rewrite Hw. unfold sig_winner.
    destruct (find_first _ pre); [done|]. cbn. by rewrite bool_decide_eq_false_2.
Qed.

Lemma winners_of_old pre winner e w :
  winners_of pre winner → winner !! sig e = Some w → winners_of (pre ++ [e]) winner.
Proof.
  intros Hw Hsome s. unfold sig_winner. rewrite find_first_app, Hw.
  destruct (decide (s = sig e)) as [->|Hne].
  - rewrite Hw in Hsome. unfold sig_winner in *. by destruct (find_first _ pre).
  - unfold sig_winner. destruct (find_first _ pre); [done|]. cbn. by rewrite bool_decide_eq_false_2.
Qed.

(** What a reported conflict says about the list it was found in. *)
Definition conflict_of (path : str) (kind : RouteKind) (all : list RouteEntry) (e : RouteEntry)
    (c : RouteConflict) : Prop :=
  ∃ w, sig_winner (sig e) all = Some w ∧ re_route_id w ≠ re_route_id e ∧
    c = mkRouteConflict 0 [] path kind (bg_name (re_backend_group e)) (re_route_id e)
          (re_route_id w).

Lemma dup_conflicts_from_sound path kind winner emitted pre l c :
  winners_of pre winner → c ∈ dup_conflicts_from path kind winner emitted l →
  cf_rejected_route_id c ∉ emitted ∧ ∃ e, e ∈ l ∧ conflict_of path kind (pre ++ l) e c.
Proof.
  revert winner emitted pre. induction l as [|e l IH]; intros winner emitted pre Hw Hc.
  { by apply elem_of_nil in Hc. }
  cbn [dup_conflicts_from] in Hc. replace (pre ++ e :: l) with ((pre ++ [e]) ++ l)
    by by rewrite <-app_assoc.
  destruct (winner !! sig e) as [w|] eqn:Ew.
  - assert (winners_of (pre ++ [e]) winner) as Hw' by by eapply winners_of_old.
    case_decide as Hd; [apply elem_of_cons in Hc as [->|Hc]|].
    + destruct Hd as [Hne Hem]. split; [done|]. exists e. split; [by left|].
      rewrite Hw in Ew. apply fmap_Some in Ew as (w0 & Hw0 & ->). exists w0.
      split_and!; [|done|done]. unfold sig_winner in *. by rewrite !find_first_app, Hw0.
    + destruct (IH _ _ _ Hw' Hc) as [Hem (e' & He' & Hco)]. split; [set_solver|].
      exists e'. split; [by right|done].
    + destruct (IH _ _ _ Hw' Hc) as [Hem (e' & He' & Hco)]. split; [done|].
      exists e'. split; [by right|done].
  - destruct (IH _ _ _ (winners_of_new _ _ _ Hw Ew) Hc) as [Hem (e' & He' & Hco)].
    split; [done|]. exists e'. split; [by right|done].
Qed.

Lemma dup_conflicts_from_complete path kind winner emitted pre l e w :
  winners_of pre winner → e ∈ l → sig_winner (sig e) (pre ++ l) = Some w →
  re_route_id w ≠ re_route_id e →
  re_route_id e ∈ emitted ∨
  ∃ c, c ∈ dup_conflicts_from path kind winner emitted l ∧ cf_rejected_route_id c = re_route_id e.
Proof.
  revert winner emitted pre. induction l as [|x l IH]; intros winner emitted pre Hw He Hsw Hne.
  { by apply elem_of_nil in He. }
  cbn [dup_conflicts_from]. replace (pre ++ x :: l) with ((pre ++ [x]) ++ l) in Hsw
    by by rewrite <-app_assoc.
  destruct (winner !! sig x) as [wx|] eqn:Ew.
  - assert (winners_of (pre ++ [x]) winner) as Hw' by by eapply winners_of_old.
    apply elem_of_cons in He as [->|He].
    + assert (wx = re_route_id w) as ->.
      { rewrite Hw in Ew. unfold sig_winner in *. rewrite !find_first_app in Hsw.
        destruct (find_first _ pre); cbn in Ew; congruence. }
      case_decide as Hd; [|destruct (decide (re_route_id x ∈ emitted)); [by left|naive_solver]].
      right. eexists. split; [by left|done].
    + case_decide as Hd.
      * destruct (IH _ ({[re_route_id x]} ∪ emitted) _ Hw' He Hsw Hne) as [Hem|(c & Hc & Hid)].
        -- apply elem_of_union in Hem as [->%elem_of_singleton|?]; [|by left].
           right. eexists. split; [by left|done].
        -- right. exists c. split; [by right|done].
      * by apply (IH winner emitted (pre ++ [x])).
  - apply elem_of_cons in He as [->|He].
    + exfalso. apply Hne. rewrite Hw in Ew. unfold sig_winner in *.
      rewrite !find_first_app in Hsw. destruct (find_first _ pre); [done|].
      cbn in Hsw. rewrite bool_decide_eq_true_2 in Hsw by done. congruence.
    + apply (IH _ emitted (pre ++ [x])); [by apply winners_of_new|done..].
Qed.

Lemma dup_conflicts_from_NoDup path kind winner emitted pre l :
  winners_of pre winner →
  NoDup (cf_rejected_route_id <$> dup_conflicts_from path kind winner emitted l).
Proof.
  revert winner emitted pre. induction l as [|e l IH]; intros winner emitted pre Hw; [constructor|].
  cbn [dup_conflicts_from]. destruct (winner !! sig e) as [w|] eqn:Ew.
  - assert (winners_of (pre ++ [e]) winner) as Hw' by by eapply winners_of_old.
    case_decide; [|by eapply IH]. rewrite fmap_cons. apply NoDup_cons.
    split; [|by eapply IH]. intros (c & Heq & Hc)%list_elem_of_fmap. cbn in Heq.
    apply (dup_conflicts_from_sound _ _ _ _ _ _ _ Hw') in Hc as [Hem _]. set_solver.
  - by eapply IH, winners_of_new.
Qed.

(** Conflict reports are exact with respect to signatures.  For the sorted
    rules of a path, a rule is reported exactly when an earlier rule with the
    same predicate signature comes from another route; the report names the
    first such rule as winner, and each rejected route is reported once. *)
Theorem dup_conflicts_exact path kind frozen :
  (∀ c, c ∈ dup_conflicts path kind frozen → ∃ e, e ∈ frozen ∧ conflict_of path kind frozen e c) ∧
  (∀ e w, e ∈ frozen → sig_winner (sig e) frozen = Some w → re_route_id w ≠ re_route_id e →
     ∃ c, c ∈ dup_conflicts path kind frozen ∧ cf_rejected_route_id c = re_route_id e) ∧
  NoDup (cf_rejected_route_id <$> dup_conflicts path kind frozen).
Proof.
  assert (winners_of [] ∅) as Hw by (intros s; by rewrite lookup_empty).
  unfold dup_conflicts. split_and!.
  - intros c Hc. by apply (dup_conflicts_from_sound path kind ∅ ∅ [] frozen c Hw).
  - intros e w He Hs Hne.
    destruct (dup_conflicts_from_complete path kind ∅ ∅ [] frozen e w Hw He Hs Hne); [set_solver|done].
  - by eapply dup_conflicts_from_NoDup.
Qed.
End conflicts.

Section collision.
Context `{RegexLib, HttpLib, MatchitLib}.

(** Predicates whose signatures coincide: one header with a comma in its value,
    and two headers. *)
Definition comma_preds : MatchPredicates :=
  mkMatchPredicates None [mkHeaderPredicate (lit "a") (VmExact (lit "1,b=e:2"))] [].

Definition pair_preds : MatchPredicates :=
  mkMatchPredicates None [mkHeaderPredicate (lit "a") (VmExact (lit "1"));
                          mkHeaderPredicate (lit "b") (VmExact (lit "2"))] [].

(** Signatures do not separate predicates.  Two rules of different routes on
    one path with different header predicates are reported as a conflict, the
    first as silently shadowed, although each of them is served the requests it
    describes. *)
Theorem signature_collision g id1 id2 path kind :
  id1 ≠ id2 →
  (∀ s, s ∈ [lit "1"; lit "2"; lit "1,b=e:2"] → header_value_to_str s = Some s) →
  let e1 := entry_new g comma_preds id1 None in
  let e2 := entry_new g pair_preds id2 None in
  let frozen := sort_and_freeze [(0, e1); (1, e2)] in
  dup_conflicts path kind frozen = [mkRouteConflict 0 [] path kind (bg_name g) id1 id2] ∧
  first_match frozen (mkRequestContext (lit "GET") [(lit "a", lit "1,b=e:2")] None) = Some e1 ∧
  first_match frozen
    (mkRequestContext (lit "GET") [(lit "a", lit "1"); (lit "b", lit "2")] None) = Some e2.
Proof.
  intros Hne Hstr e1 e2 frozen.
  assert (frozen = [e2; e1]) as -> by done.
  assert (predicate_signature comma_preds = predicate_signature pair_preds) as Hsig by done.
  assert (∀ s, s ∈ [lit "1"; lit "2"; lit "1,b=e:2"] → header_value_to_str s = Some s) as Hv
    by done.
  split_and!.
  - unfold dup_conflicts. cbn [dup_conflicts_from re_predicates entry_new e1 e2].
    rewrite lookup_empty, Hsig, lookup_insert_eq. rewrite decide_True; [done|].
    split; [cbn; congruence|set_solver].
  - unfold first_match. cbn. unfold predicates_match, header_ok. cbn.
    repeat first [rewrite decide_True by done | rewrite decide_False by done]. cbn.
    rewrite !Hv by set_solver. done.
  - unfold first_match. cbn. unfold predicates_match, header_ok. cbn.
    repeat first [rewrite decide_True by done | rewrite decide_False by done]. cbn.
    rewrite !Hv by set_solver. done.
Qed.
End collision.
