(* ===== verification/HostReplay.v ===== *)
(** * The wire side-table rebuilds the same host

    The discovery layer serialises a compiled host as its wire table and
    replays it into a fresh builder on the other side.  Replaying yields the
    same compiled host: grouping and specificity depend only on the order of
    rules within a path, and stored prefixes are already normalized. *)

From S2P Require Import Prelude PathNormalize Net Backend External Config Filters Entry.
From S2P Require Import HostRouter HostRouterFacts.

Section replay.
Context `{RegexLib, HttpLib, MatchitLib}.

(** Re-register every entry of a wire table, in order. *)
Definition replay_entry (b : HostRouterBuilder) (w : str * RouteKind * RouteEntry) :
    HostRouterBuilder :=
  let '(path, kind, e) := w in
  match kind with
  | KExact => add_exact_route path e b
  | KPrefix => add_prefix_route path e b
  | KRegex => add_regex_route path e b
  end.

Definition replay (h : HostRouter) : HostRouterBuilder :=
  foldl replay_entry (set_path_normalize (hr_normalize h) HostRouterBuilder_default)
    (hr_wire_table h).

(** ** Sorting ignores the concrete indices *)

Definition increasing (ies : list (nat * RouteEntry)) : Prop :=
  StronglySorted (λ a b, a.1 < b.1) ies.

Definition entry_leb (a b : RouteEntry) : bool :=
  key_leb (specificity_key a 0) (specificity_key b 0).

Lemma indexed_leb_increasing a b : a.1 < b.1 → indexed_leb a b = entry_leb a.2 b.2.
Proof.
  intros Hlt. unfold indexed_leb, entry_leb. apply eq_true_iff_eq. rewrite !key_leb_spec. cbn.
  intuition lia.
Qed.

Lemma insert_sorted_fmap x l :
  Forall (λ y, x.1 < y.1) l →
  snd <$> insert_sorted indexed_leb x l = insert_sorted entry_leb x.2 (snd <$> l).
Proof.
  induction 1 as [|y l Hxy Hl IH]; [done|]. cbn. rewrite indexed_leb_increasing by done.
  destruct (entry_leb x.2 y.2); [done|]. rewrite fmap_cons. by rewrite IH.
Qed.

Lemma sort_and_freeze_entries ies :
  increasing ies → sort_and_freeze ies = sort_by entry_leb (snd <$> ies).
Proof.
  unfold sort_and_freeze. induction 1 as [|x ies Hs IH Hx]; [done|]. cbn [sort_by fmap list_fmap].
  rewrite insert_sorted_fmap by by rewrite sort_by_perm. by rewrite IH.
Qed.

Lemma entries_for_increasing p il :
  StronglySorted (λ a b : nat * (str * RouteEntry), a.1 < b.1) il →
  increasing (entries_for p il).
Proof.
  unfold entries_for, increasing. induction 1 as [|[i [q e]] il Hs IH Hx]; [constructor|].
  cbn [omap list_omap]. case_decide; [|done]. constructor; [done|].
  apply Forall_forall. intros [j e'] ([k [r e'']] & Hin & Hd)%list_elem_of_omap.
  case_decide; simplify_eq/=. rewrite Forall_forall in Hx. by apply (Hx (j, (p, e'))).
Qed.

Lemma imap_pair_sorted {A} (l : list A) n :
  StronglySorted (λ a b : nat * A, a.1 < b.1) (imap (λ i x, (n + i, x)) l).
Proof.
  revert n. induction l as [|x l IH]; intros n; [constructor|]. cbn. constructor.
  - specialize (IH (S n)). erewrite imap_ext; [exact IH|]. intros i y _. cbn. f_equal. lia.
  - apply Forall_forall. intros [j y] (i & z & Heq & _)%elem_of_lookup_imap. simplify_eq/=. lia.
Qed.

Lemma group_by_path_increasing routes :
  Forall (λ g, increasing g.2) (group_by_path routes).
Proof.
  apply Forall_forall. intros [p es] [-> _]%group_by_path_elem. cbn.
  apply entries_for_increasing. apply (imap_pair_sorted routes 0).
Qed.

(** ** Grouping without indices *)

Definition bare (g : str * list (nat * RouteEntry)) : str * list RouteEntry := (g.1, snd <$> g.2).

Fixpoint bare_push (path : str) (e : RouteEntry) (groups : list (str * list RouteEntry)) :
    list (str * list RouteEntry) :=
  match groups with
  | [] => [(path, [e])]
  | (p, es) :: groups' =>
      if decide (p = path) then (p, es ++ [e]) :: groups' else (p, es) :: bare_push path e groups'
  end.

Definition bare_groups (routes : list (str * RouteEntry)) : list (str * list RouteEntry) :=
  foldl (λ groups '(path, e), bare_push path e groups) [] routes.

Lemma bare_group_push p ie groups :
  bare <$> group_push p ie groups = bare_push p ie.2 (bare <$> groups).
Proof.
  induction groups as [|[q es] groups IH]; [done|]. cbn. case_decide; cbn.
  - unfold bare. cbn. by rewrite fmap_app.
  - by rewrite IH.
Qed.

Lemma bare_fold il groups :
  bare <$> foldl (λ groups '(i, (p, e)), group_push p (i, e) groups) groups il =
  foldl (λ groups '(p, e), bare_push p e groups) (bare <$> groups) (il.*2).
Proof.
  revert groups. induction il as [|[i [p e]] il IH]; intros groups; [done|].
  cbn [foldl fmap list_fmap snd]. by rewrite IH, bare_group_push.
Qed.

Lemma bare_group_by_path routes : bare <$> group_by_path routes = bare_groups routes.
Proof.
  unfold group_by_path, bare_groups. rewrite bare_fold, fmap_imap. f_equal.
  rewrite <-(list_fmap_id routes) at 2. rewrite <-imap_const. by apply imap_ext.
Qed.

(** The rules of a list of groups, group by group. *)
Definition flatten (gs : list (str * list RouteEntry)) : list (str * RouteEntry) :=
  mjoin ((λ g, pair g.1 <$> g.2) <$> gs).

Lemma bare_push_fresh p e groups :
  p ∉ groups.*1 → bare_push p e groups = groups ++ [(p, [e])].
Proof.
  induction groups as [|[q es] groups IH]; cbn; [done|]. intros Hp.
  rewrite decide_False by set_solver. rewrite IH; [done|set_solver].
Qed.

Lemma bare_push_last p e es groups :
  p ∉ groups.*1 → bare_push p e (groups ++ [(p, es)]) = groups ++ [(p, es ++ [e])].
Proof.
  induction groups as [|[q fs] groups IH]; cbn; intros Hp.
  - by rewrite decide_True.
  - rewrite decide_False by set_solver. rewrite IH; [done|set_solver].
Qed.

Lemma bare_fold_group p es fs groups :
  p ∉ groups.*1 →
  foldl (λ groups '(p, e), bare_push p e groups) (groups ++ [(p, fs)]) (pair p <$> es) =
  groups ++ [(p, fs ++ es)].
Proof.
  intros Hp. revert fs. induction es as [|e es IH]; intros fs; cbn [foldl fmap list_fmap].
  - by rewrite app_nil_r.
  - rewrite bare_push_last by done. rewrite IH, <-app_assoc. done.
Qed.

(** Grouping a flattened list of groups gives the groups back. *)
Lemma bare_groups_flatten gs :
  NoDup gs.*1 → Forall (λ g, g.2 ≠ []) gs → bare_groups (flatten gs) = gs.
Proof.
  intros Hnd Hne. unfold bare_groups.
  cut (∀ acc, NoDup (acc ++ gs).*1 →
    foldl (λ groups '(p, e), bare_push p e groups) acc (flatten gs) = acc ++ gs); [by intros ->|].
  clear Hnd. induction Hne as [|[p es] gs Hes _ IH]; intros acc Hnd.
  { by rewrite app_nil_r. }
  unfold flatten. cbn [fmap list_fmap fst snd]. change (mjoin (?x :: ?l)) with (x ++ mjoin l).
  rewrite foldl_app. fold (flatten gs). destruct es as [|e es]; [done|].
  assert (p ∉ acc.*1) as Hp.
  { rewrite fmap_app, NoDup_app in Hnd. destruct Hnd as (_ & Hd & _).
    intros Hin. apply (Hd p Hin). by left. }
  cbn [fmap list_fmap foldl]. rewrite bare_push_fresh, bare_fold_group by done.
  cbn [app]. rewrite IH, <-app_assoc; [done|]. by rewrite <-app_assoc.
Qed.

(** ** Compilation depends on the bare groups only *)

Definition same_group (g g' : str * list (nat * RouteEntry)) : Prop :=
  bare g = bare g' ∧ increasing g.2 ∧ increasing g'.2.

Lemma same_groups routes routes' :
  bare_groups routes = bare_groups routes' →
  Forall2 same_group (group_by_path routes) (group_by_path routes').
Proof.
  rewrite <-!bare_group_by_path. intros Heq.
  pose proof (group_by_path_increasing routes) as Hi.
  pose proof (group_by_path_increasing routes') as Hi'.
  revert Heq Hi Hi'. generalize (group_by_path routes) (group_by_path routes').
  intros l l'. revert l'. induction l as [|g l IH]; intros [|g' l']; cbn; try done.
  intros [= Hg Hs Hl] [Hi1 Hi2]%Forall_cons [Hi3 Hi4]%Forall_cons. constructor; [|by apply IH].
  split; [|done]. unfold bare. by f_equal.
Qed.

Lemma foldl_result_same {S E} (f : S → str * list (nat * RouteEntry) → result S E) s l l' :
  (∀ s g g', same_group g g' → f s g = f s g') → Forall2 same_group l l' →
  foldl_result f s l = foldl_result f s l'.
Proof.
  intros Hf Hl. revert s. induction Hl as [|g g' l l' Hg _ IH]; intros s; [done|]. cbn.
  rewrite (Hf s g g' Hg). by destruct (f s g').
Qed.

Lemma foldl_same {S} (f : S → str * list (nat * RouteEntry) → S) s l l' :
  (∀ s g g', same_group g g' → f s g = f s g') → Forall2 same_group l l' →
  foldl f s l = foldl f s l'.
Proof.
  intros Hf Hl. revert s. induction Hl as [|g g' l l' Hg _ IH]; intros s; [done|]. cbn.
  by rewrite (Hf s g g' Hg).
Qed.

Lemma info_of_bare path kind ies :
  info_of path kind ies =
  (λ e, mkRouteInfo path kind (re_backend_group e) (re_route_id e)) <$> (snd <$> ies).
Proof. unfold info_of. by rewrite <-list_fmap_compose. Qed.

Lemma wire_of_bare path kind ies : wire_of path kind ies = (λ e, (path, kind, e)) <$> (snd <$> ies).
Proof. unfold wire_of. by rewrite <-list_fmap_compose. Qed.

Lemma check_query_bare ies :
  check_query ies =
  existsb (λ e, match mp_query (re_predicates e) with [] => false | _ => true end) (snd <$> ies).
Proof. unfold check_query. induction ies as [|ie ies IH]; [done|]. cbn. by rewrite IH. Qed.

Lemma build_exact_group_same st g g' :
  same_group g g' → build_exact_group st g = build_exact_group st g'.
Proof.
  intros (Hb & Hi & Hi'). destruct g as [p ies], g' as [p' ies']. injection Hb as -> Hs.
  unfold build_exact_group. cbn [snd] in *.
  by rewrite !info_of_bare, !wire_of_bare, !check_query_bare, !sort_and_freeze_entries, Hs by done.
Qed.

Lemma build_prefix_group_same st g g' :
  same_group g g' → build_prefix_group st g = build_prefix_group st g'.
Proof.
  intros (Hb & Hi & Hi'). destruct g as [p ies], g' as [p' ies']. injection Hb as -> Hs.
  unfold build_prefix_group. cbn [snd] in *.
  by rewrite !info_of_bare, !wire_of_bare, !check_query_bare, !sort_and_freeze_entries, Hs by done.
Qed.

Lemma build_regex_group_same st g g' :
  same_group g g' → build_regex_group st g = build_regex_group st g'.
Proof.
  intros (Hb & Hi & Hi'). destruct g as [p ies], g' as [p' ies']. injection Hb as -> Hs.
  unfold build_regex_group. cbn [snd] in *.
  by rewrite !info_of_bare, !wire_of_bare, !check_query_bare, !sort_and_freeze_entries, Hs by done.
Qed.

(** Builders with the same bare groups compile alike. *)
Lemma host_build_same b b' :
  bare_groups (hb_exact_routes b) = bare_groups (hb_exact_routes b') →
  bare_groups (prefix_routes_of b) = bare_groups (prefix_routes_of b') →
  bare_groups (hb_regex_routes b) = bare_groups (hb_regex_routes b') →
  default Base (hb_normalize b) = default Base (hb_normalize b') →
  host_build b = host_build b'.
Proof.
  intros He%same_groups Hp%same_groups Hx%same_groups Hn. unfold host_build.
  rewrite (foldl_result_same _ _ _ _ build_exact_group_same He).
  destruct (foldl_result build_exact_group _ _) as [st1|e]; [|done].
  fold (prefix_routes_of b) (prefix_routes_of b').
  rewrite (foldl_same _ _ _ _ build_prefix_group_same Hp).
  rewrite (foldl_result_same _ _ _ _ build_regex_group_same Hx). by rewrite Hn.
Qed.

(** ** The wire table *)

Definition wire_groups (kind : RouteKind) (gs : list (str * list RouteEntry)) :
    list (str * RouteKind * RouteEntry) := (λ '(p, e), (p, kind, e)) <$> flatten gs.

Lemma wire_groups_cons kind g gs :
  wire_groups kind (bare g :: gs) = wire_of g.1 kind g.2 ++ wire_groups kind gs.
Proof.
  unfold wire_groups, flatten. cbn [fmap list_fmap]. change (mjoin (?x :: ?l)) with (x ++ mjoin l).
  rewrite fmap_app, wire_of_bare. f_equal. unfold bare. cbn [fst snd].
  by rewrite <-list_fmap_compose.
Qed.

Lemma exact_wire st groups st' :
  foldl_result build_exact_group st groups = Ok st' →
  bs_wire_table st' = bs_wire_table st ++ wire_groups KExact (bare <$> groups).
Proof.
  revert st. induction groups as [|[p ies] groups IH]; intros st; cbn [foldl_result].
  { intros [= <-]. by rewrite app_nil_r. }
  unfold build_exact_group at 1. destruct (router_insert p _ _); [|done]. cbv iota beta.
  intros ->%IH. cbn [bs_wire_table]. rewrite fmap_cons, wire_groups_cons. by rewrite <-app_assoc.
Qed.

Lemma prefix_wire st groups :
  bs_wire_table (foldl build_prefix_group st groups) =
  bs_wire_table st ++ wire_groups KPrefix (bare <$> groups).
Proof.
  revert st. induction groups as [|[p ies] groups IH]; intros st; cbn [foldl].
  { by rewrite app_nil_r. }
  rewrite IH. cbn [build_prefix_group bs_wire_table].
  rewrite fmap_cons, wire_groups_cons. by rewrite <-app_assoc.
Qed.

Lemma regex_wire st groups st' :
  foldl_result build_regex_group st groups = Ok st' →
  bs_wire_table st' = bs_wire_table st ++ wire_groups KRegex (bare <$> groups).
Proof.
  revert st. induction groups as [|[p ies] groups IH]; intros st; cbn [foldl_result].
  { intros [= <-]. by rewrite app_nil_r. }
  unfold build_regex_group at 1. destruct (regex_compile p); [|done]. cbv iota beta.
  intros ->%IH. cbn [bs_wire_table]. rewrite fmap_cons, wire_groups_cons. by rewrite <-app_assoc.
Qed.

Lemma host_build_wire b h cs :
  host_build b = Ok (h, cs) →
  hr_wire_table h =
    wire_groups KExact (bare_groups (hb_exact_routes b)) ++
    wire_groups KPrefix (bare_groups (prefix_routes_of b)) ++
    wire_groups KRegex (bare_groups (hb_regex_routes b)) ∧
  hr_normalize h = default Base (hb_normalize b).
Proof.
  unfold host_build. fold (prefix_routes_of b).
  destruct (foldl_result build_exact_group _ _) as [st1|] eqn:E1; [|done].
  destruct (foldl_result build_regex_group _ _) as [st3|] eqn:E3; [|done].
  intros [= <- <-]. cbn. split; [|done].
  rewrite (regex_wire _ _ _ E3), prefix_wire, (exact_wire _ _ _ E1). cbn.
  by rewrite !bare_group_by_path, <-app_assoc.
Qed.

Lemma replay_exact gs b :
  foldl replay_entry b (wire_groups KExact gs) =
  mkHostRouterBuilder (hb_exact_routes b ++ flatten gs) (hb_prefix_routes b) (hb_regex_routes b)
    (hb_normalize b).
Proof.
  unfold wire_groups. revert b. induction (flatten gs) as [|[p e] l IH]; intros b.
  - destruct b. cbn. by rewrite app_nil_r.
  - cbn [fmap list_fmap foldl]. rewrite IH. cbn. by rewrite <-app_assoc.
Qed.

Lemma replay_prefix gs b :
  foldl replay_entry b (wire_groups KPrefix gs) =
  mkHostRouterBuilder (hb_exact_routes b) (hb_prefix_routes b ++ flatten gs) (hb_regex_routes b)
    (hb_normalize b).
Proof.
  unfold wire_groups. revert b. induction (flatten gs) as [|[p e] l IH]; intros b.
  - destruct b. cbn. by rewrite app_nil_r.
  - cbn [fmap list_fmap foldl]. rewrite IH. cbn. by rewrite <-app_assoc.
Qed.

Lemma replay_regex gs b :
  foldl replay_entry b (wire_groups KRegex gs) =
  mkHostRouterBuilder (hb_exact_routes b) (hb_prefix_routes b) (hb_regex_routes b ++ flatten gs)
    (hb_normalize b).
Proof.
  unfold wire_groups. revert b. induction (flatten gs) as [|[p e] l IH]; intros b.
  - destruct b. cbn. by rewrite app_nil_r.
  - cbn [fmap list_fmap foldl]. rewrite IH. cbn. by rewrite <-app_assoc.
Qed.

Lemma bare_groups_regroup routes : bare_groups (flatten (bare_groups routes)) = bare_groups routes.
Proof.
  apply bare_groups_flatten; rewrite <-bare_group_by_path.
  - rewrite <-list_fmap_compose. apply (group_by_path_NoDup routes).
  - apply Forall_fmap, Forall_forall. intros [p es] [-> Hne]%group_by_path_elem. cbn.
    intros Hnil. by apply fmap_nil_inv in Hnil.
Qed.

Lemma trim_end_noop s : last s ≠ Some slash → trim_end_matches slash s = s.
Proof.
  intros Hl. destruct (trim_end_matches_spec slash s) as (n & Hs & _).
  destruct n as [|n]; [by rewrite app_nil_r in Hs|].
  exfalso. apply Hl. rewrite Hs. by rewrite replicate_S_end, app_assoc, last_snoc.
Qed.

Lemma normalize_prefix_fix n : normalized n → normalize_prefix n = n.
Proof.
  intros [->|[Hne Hl]]; [done|]. unfold normalize_prefix. rewrite trim_end_noop by done.
  by destruct n.
Qed.

Lemma flatten_paths gs p e : (p, e) ∈ flatten gs → p ∈ gs.*1.
Proof.
  intros (l & Hin & ([q es] & -> & Hg)%list_elem_of_fmap)%list_elem_of_join.
  apply list_elem_of_fmap in Hin as (e' & [= -> ->] & _). by apply (list_elem_of_fmap_2 fst _ (q, es)).
Qed.

Lemma normalize_flatten routes :
  (∀ n, n ∈ routes.*1 → normalized n) →
  (λ '(p, e), (normalize_prefix p, e)) <$> flatten (bare_groups routes) =
  flatten (bare_groups routes).
Proof.
  intros Hn. rewrite <-(list_fmap_id (flatten (bare_groups routes))) at 2.
  apply list_fmap_ext. intros i [p e] Hi. cbn. f_equal. apply normalize_prefix_fix, Hn.
  apply list_elem_of_lookup_2, flatten_paths in Hi. rewrite <-bare_group_by_path in Hi.
  rewrite <-list_fmap_compose in Hi.
  change (p ∈ (group_by_path routes).*1) in Hi. apply group_by_path_paths in Hi as [e' He'].
  by apply (list_elem_of_fmap_2 fst _ (p, e')).
Qed.

End replay.

(** ** Witnesses *)

Import Sample.

Module HostDemo.

(** An empty backend group as a stand-in upstream. *)
Definition group (name : str) : Group := empty_with_spec name [].

Definition rule (name : str) : RouteEntry := path_only (group name) name None.

Definition header_rule (name : str) : RouteEntry :=
  entry_new (group name)
    (mkMatchPredicates None [mkHeaderPredicate (lit "x") (VmExact (lit "1"))] []) name None.

(** [/foo] exactly (with a header), prefixes [/] and [/foo/], and a regex. *)
Definition builder : HostRouterBuilder :=
  add_regex_route (lit "/re") (rule (lit "regex"))
    (add_prefix_route (lit "/foo/") (rule (lit "foo"))
      (add_prefix_route (lit "/") (rule (lit "root"))
        (add_exact_route (lit "/foo") (header_rule (lit "exact")) HostRouterBuilder_default))).

Definition request : RequestContext := mkRequestContext (lit "GET") [] None.

Lemma builder_plain : plain_builder builder.
Proof.
  split; repeat constructor; apply (bool_decide_unpack _); vm_compute; reflexivity.
Qed.

Definition compiled : HostRouter * list RouteConflict :=
  match host_build builder with
  | Ok hc => hc
  | Err _ => (mkHostRouter [] [] false [] Base [], [])
  end.

Lemma compiled_ok : host_build builder = Ok (compiled.1, compiled.2).
Proof. vm_compute. reflexivity. Qed.
End HostDemo.

Lemma host_build_succeeds_iff_witness : ∃ h cs, host_build HostDemo.builder = Ok (h, cs).
Proof.
  apply (host_build_succeeds_iff HostDemo.builder HostDemo.builder_plain).
  intros pattern e _. cbn. by eexists.
Defined.


(** [/foo] without the header is not served by the prefixes that cover it. *)
Lemma exact_miss_skips_prefixes_witness :
  host_route HostDemo.compiled.1 (lit "/foo") HostDemo.request = None.
Proof.
  destruct (exact_miss_skips_prefixes HostDemo.builder _ _ (lit "/foo") HostDemo.request
    HostDemo.builder_plain HostDemo.compiled_ok) as (rs & Hrs & Hroute).
  - apply (bool_decide_unpack _). vm_compute. reflexivity.
  - intros e He. cbn in He. apply list_elem_of_singleton in He as [= ->]. reflexivity.
  - rewrite Hroute. vm_compute in Hrs. injection Hrs as <-. vm_compute. reflexivity.
Defined.

Lemma signature_collision_witness :
  let e1 := entry_new (HostDemo.group (lit "a")) comma_preds (lit "ns/a") None in
  let e2 := entry_new (HostDemo.group (lit "a")) pair_preds (lit "ns/b") None in
  dup_conflicts (lit "/") KExact (sort_and_freeze [(0, e1); (1, e2)]) ≠ [].
Proof.
  intros e1 e2.
  destruct (signature_collision (HostDemo.group (lit "a")) (lit "ns/a") (lit "ns/b") (lit "/") KExact)
    as [Hc _]; [by vm_compute|intros s _; reflexivity|].
  unfold e1, e2. rewrite Hc. discriminate.
Defined.

