(* ===== verification/Table.v ===== *)
(** * Port and routing tables

    Models [port.rs] and [table.rs] of
    [crates/coxswain-core/src/routing/common]: host selection by exact name,
    wildcard and catch-all, the table builders, and the two lookups [find] and
    [route].  A Rust [HashMap] is a finite map with an unspecified iteration
    order, given by [HashIter]. *)

From S2P Require Import Prelude PathNormalize Net Backend External Config Filters Entry.
From S2P Require Import HostRouter.

(** [str::trim_start_matches(pat)] for a non-empty pattern; each round removes a
    character, so the length bounds the rounds. *)
Fixpoint trim_start_fuel (fuel : nat) (pat s : str) : str :=
  match fuel with
  | 0 => s
  | S fuel =>
      match strip_prefix pat s with
      | Some s' => trim_start_fuel fuel pat s'
      | None => s
      end
  end.

Definition trim_start_matches (pat s : str) : str := trim_start_fuel (length s) pat s.

Section table.
Context `{RegexLib, HttpLib, MatchitLib, HashIter}.

(** ** One port *)

Record PortRoutingTable := mkPortRoutingTable {
  pt_exact_hosts : gmap str HostRouter;
  pt_wildcard_hosts : list (str * WildcardKind * HostRouter);
  pt_catchall : option HostRouter;
}.

Inductive RouteOutcome :=
| Found (m : RouteMatch)
| RouteError (status : Z)
| NoHost
| NoPath.

Definition wildcard_entry_matches (host : str) (w : str * WildcardKind * HostRouter) : bool :=
  wildcard_matches host w.1.1 w.1.2.

(** Exact host, then the first matching wildcard, then the catch-all. *)
Definition select_host (pt : PortRoutingTable) (host : str) : option HostRouter :=
  match pt_exact_hosts pt !! host with
  | Some r => Some r
  | None =>
      match find_first (wildcard_entry_matches host) (pt_wildcard_hosts pt) with
      | Some (_, r) => Some r
      | None => pt_catchall pt
      end
  end.

Definition with_normalized_path (p : option str) (m : RouteMatch) : RouteMatch :=
  mkRouteMatch (rm_backend_group m) (rm_filters m) (rm_timeouts m) (rm_path_pattern m)
    (rm_metric_route_id m) (rm_max_body_size m) (rm_allow_source_range m)
    (rm_deny_source_range m) (rm_access_log_enabled m) (rm_rate_limit m) (rm_auth m)
    (rm_compression m) (rm_forwarded_for m) (rm_circuit_breaker m) p (rm_error_status m).

Definition port_find (pt : PortRoutingTable) (host path : str) (ctx : RequestContext) :
    RouteOutcome :=
  match select_host pt host with
  | None => NoHost
  | Some router =>
      let normalized := PathNormalize.apply (hr_normalize router) path in
      match host_route router (cow_str normalized) ctx with
      | Some m =>
          let m :=
            match normalized with
            | Owned s => with_normalized_path (Some s) m
            | Borrowed _ => m
            end in
          match rm_error_status m with
          | Some status => RouteError status
          | None => Found m
          end
      | None => NoPath
      end
  end.

(** The admin lookup: raw path, and the catch-all as a second chance. *)
Definition port_route (pt : PortRoutingTable) (host path : str) (ctx : RequestContext) :
    option Group :=
  let router :=
    match pt_exact_hosts pt !! host with
    | Some r => Some r
    | None => snd <$> find_first (wildcard_entry_matches host) (pt_wildcard_hosts pt)
    end in
  match (r ← router; host_route r path ctx) with
  | Some m => Some (rm_backend_group m)
  | None => rm_backend_group <$> (r ← pt_catchall pt; host_route r path ctx)
  end.

Definition port_host_routes (pt : PortRoutingTable) : list (str * HostRouter) :=
  hash_iter (pt_exact_hosts pt) ++
  ((λ '(suffix, _, r), (lit "*." ++ suffix, r)) <$> pt_wildcard_hosts pt) ++
  match pt_catchall pt with Some r => [(lit "*", r)] | None => [] end.

Inductive HostPattern :=
| HpExact (h : str)
| HpWildcard (suffix : str) (kind : WildcardKind)
| HpCatchall.

Definition host_views (pt : PortRoutingTable) : list (HostPattern * HostRouter) :=
  ((λ '(h, r), (HpExact h, r)) <$> hash_iter (pt_exact_hosts pt)) ++
  ((λ '(s, k, r), (HpWildcard s k, r)) <$> pt_wildcard_hosts pt) ++
  match pt_catchall pt with Some r => [(HpCatchall, r)] | None => [] end.

Definition port_get_compiled (pt : PortRoutingTable) (hostname_opt : option str)
    (kind : WildcardKind) : option HostRouter :=
  match hostname_opt with
  | None => pt_catchall pt
  | Some h =>
      if starts_with (lit "*.") h then
        let suffix := trim_start_matches (lit "*.") h in
        snd <$> find_first (λ w, bool_decide (w.1.1 = suffix ∧ w.1.2 = kind)) (pt_wildcard_hosts pt)
      else pt_exact_hosts pt !! h
  end.

(** ** Its builder *)

Record PortTableBuilder := mkPortTableBuilder {
  pb_exact_hosts : gmap str HostRouterBuilder;
  pb_wildcard_hosts : gmap (str * WildcardKind) HostRouterBuilder;
  pb_catchall : option HostRouterBuilder;
  pb_compiled_exact_hosts : gmap str HostRouter;
  pb_compiled_wildcard_hosts : list (str * WildcardKind * HostRouter);
  pb_compiled_catchall : option HostRouter;
}.

Definition PortTableBuilder_default : PortTableBuilder :=
  mkPortTableBuilder ∅ ∅ None ∅ [] None.

(** The methods that return [&mut HostRouterBuilder] take what the caller does
    with it. *)
Definition exact_host (hostname : str) (f : HostRouterBuilder → HostRouterBuilder)
    (pb : PortTableBuilder) : PortTableBuilder :=
  mkPortTableBuilder
    (<[hostname := f (default HostRouterBuilder_default (pb_exact_hosts pb !! hostname))]>
       (pb_exact_hosts pb))
    (pb_wildcard_hosts pb) (pb_catchall pb) (pb_compiled_exact_hosts pb)
    (pb_compiled_wildcard_hosts pb) (pb_compiled_catchall pb).

Definition wildcard_host (pattern : str) (kind : WildcardKind)
    (f : HostRouterBuilder → HostRouterBuilder) (pb : PortTableBuilder) : PortTableBuilder :=
  let key := (trim_start_matches (lit "*.") pattern, kind) in
  mkPortTableBuilder (pb_exact_hosts pb)
    (<[key := f (default HostRouterBuilder_default (pb_wildcard_hosts pb !! key))]>
       (pb_wildcard_hosts pb))
    (pb_catchall pb) (pb_compiled_exact_hosts pb) (pb_compiled_wildcard_hosts pb)
    (pb_compiled_catchall pb).

Definition catchall (f : HostRouterBuilder → HostRouterBuilder) (pb : PortTableBuilder) :
    PortTableBuilder :=
  mkPortTableBuilder (pb_exact_hosts pb) (pb_wildcard_hosts pb)
    (Some (f (default HostRouterBuilder_default (pb_catchall pb))))
    (pb_compiled_exact_hosts pb) (pb_compiled_wildcard_hosts pb) (pb_compiled_catchall pb).

Definition insert_compiled_exact_host (hostname : str) (r : HostRouter) (pb : PortTableBuilder) :
    PortTableBuilder :=
  mkPortTableBuilder (pb_exact_hosts pb) (pb_wildcard_hosts pb) (pb_catchall pb)
    (<[hostname := r]> (pb_compiled_exact_hosts pb)) (pb_compiled_wildcard_hosts pb)
    (pb_compiled_catchall pb).

Definition insert_compiled_wildcard_host (pattern : str) (kind : WildcardKind) (r : HostRouter)
    (pb : PortTableBuilder) : PortTableBuilder :=
  mkPortTableBuilder (pb_exact_hosts pb) (pb_wildcard_hosts pb) (pb_catchall pb)
    (pb_compiled_exact_hosts pb)
    (pb_compiled_wildcard_hosts pb ++ [(trim_start_matches (lit "*.") pattern, kind, r)])
    (pb_compiled_catchall pb).

Definition insert_compiled_catchall (r : HostRouter) (pb : PortTableBuilder) : PortTableBuilder :=
  mkPortTableBuilder (pb_exact_hosts pb) (pb_wildcard_hosts pb) (pb_catchall pb)
    (pb_compiled_exact_hosts pb) (pb_compiled_wildcard_hosts pb) (Some r).

Definition host_for (host : option str) (kind : WildcardKind)
    (f : HostRouterBuilder → HostRouterBuilder) (pb : PortTableBuilder) : PortTableBuilder :=
  match host with
  | None => catchall f pb
  | Some h => if starts_with (lit "*.") h then wildcard_host h kind f pb else exact_host h f pb
  end.

Definition stamp (port : Z) (host : str) (c : RouteConflict) : RouteConflict :=
  mkRouteConflict port host (cf_path c) (cf_kind c) (cf_rejected_group c)
    (cf_rejected_route_id c) (cf_winner_route_id c).

(** Compile every host of an iteration; the first error aborts. *)
Fixpoint build_hosts {K} (port : Z) (name : K → str) (l : list (K * HostRouterBuilder)) :
    result (list (K * HostRouter) * list RouteConflict) RouterError :=
  match l with
  | [] => Ok ([], [])
  | (k, b) :: l' =>
      match host_build b with
      | Err e => Err e
      | Ok (router, cs) =>
          match build_hosts port name l' with
          | Err e => Err e
          | Ok (routers, cs') => Ok ((k, router) :: routers, (stamp port (name k) <$> cs) ++ cs')
          end
      end
  end.

(** Longest suffix first, single-label before multi-label. *)
Definition wildcard_leb (a b : str * WildcardKind * HostRouter) : bool :=
  let multi (k : WildcardKind) := match k with MultiLabel => 1 | SingleLabel => 0 end in
  if negb (length a.1.1 =? length b.1.1) then length b.1.1 <? length a.1.1
  else multi a.1.2 <=? multi b.1.2.

Definition port_build (port : Z) (pb : PortTableBuilder) :
    result (PortRoutingTable * list RouteConflict) RouterError :=
  ex <-? build_hosts port (λ h, h) (hash_iter (pb_exact_hosts pb)) ;;
  wi <-? build_hosts port (λ sk : str * WildcardKind, lit "*." ++ sk.1)
           (hash_iter (pb_wildcard_hosts pb)) ;;
  let exact_hosts := pb_compiled_exact_hosts pb ∪ list_to_map ex.1 in
  let wildcard_hosts := sort_by wildcard_leb (wi.1 ++ pb_compiled_wildcard_hosts pb) in
  match pb_compiled_catchall pb, pb_catchall pb with
  | Some compiled, _ =>
      Ok (mkPortRoutingTable exact_hosts wildcard_hosts (Some compiled), ex.2 ++ wi.2)
  | None, Some b =>
      rc <-? host_build b ;;
      Ok (mkPortRoutingTable exact_hosts wildcard_hosts (Some rc.1),
          ex.2 ++ wi.2 ++ (stamp port (lit "*") <$> rc.2))
  | None, None => Ok (mkPortRoutingTable exact_hosts wildcard_hosts None, ex.2 ++ wi.2)
  end.

(** ** All ports *)

Record RoutingTable := mkRoutingTable {
  rt_by_port : gmap Z PortRoutingTable;
  rt_conflicts : list RouteConflict;
}.

Definition table_find (t : RoutingTable) (port : Z) (host path : str) (ctx : RequestContext) :
    RouteOutcome :=
  match rt_by_port t !! port with
  | Some pt => port_find pt host path ctx
  | None => NoHost
  end.

Definition table_route (t : RoutingTable) (port : Z) (host path : str) (ctx : RequestContext) :
    option Group :=
  pt ← rt_by_port t !! port; port_route pt host path ctx.

Definition table_host_routes (t : RoutingTable) : list (Z * str * HostRouter) :=
  mjoin ((λ '(port, pt), (λ '(h, r), (port, h, r)) <$> port_host_routes pt)
           <$> hash_iter (rt_by_port t)).

Definition host_names (t : RoutingTable) : list str :=
  mjoin ((λ '(_, pt), fst <$> port_host_routes pt) <$> hash_iter (rt_by_port t)).

Definition host_count (t : RoutingTable) : nat :=
  sum_list ((λ '(_, pt), size (pt_exact_hosts pt) + length (pt_wildcard_hosts pt))
              <$> hash_iter (rt_by_port t)).

Definition table_get_compiled (t : RoutingTable) (port : Z) (hostname_opt : option str)
    (kind : WildcardKind) : option HostRouter :=
  pt ← rt_by_port t !! port; port_get_compiled pt hostname_opt kind.

Record RoutingTableBuilder := mkRoutingTableBuilder {
  tb_by_port : gmap Z PortTableBuilder;
  tb_extra_conflicts : list RouteConflict;
}.

Definition for_port (port : Z) (f : PortTableBuilder → PortTableBuilder)
    (tb : RoutingTableBuilder) : RoutingTableBuilder :=
  mkRoutingTableBuilder
    (<[port := f (default PortTableBuilder_default (tb_by_port tb !! port))]> (tb_by_port tb))
    (tb_extra_conflicts tb).

Definition extend_conflicts (cs : list RouteConflict) (tb : RoutingTableBuilder) :
    RoutingTableBuilder :=
  mkRoutingTableBuilder (tb_by_port tb) (tb_extra_conflicts tb ++ cs).

Definition table_build (tb : RoutingTableBuilder) : result RoutingTable RouterError :=
  acc <-? foldl_result (λ acc (e : Z * PortTableBuilder),
            r <-? port_build e.1 e.2 ;;
            Ok (<[e.1 := r.1]> acc.1, acc.2 ++ r.2))
          (∅ : gmap Z PortRoutingTable, tb_extra_conflicts tb) (hash_iter (tb_by_port tb)) ;;
  Ok (mkRoutingTable acc.1 acc.2).
End table.
