(* ===== verification/TableFacts.v ===== *)
(** * Theorems about host selection and table lookup

    Wildcard semantics; host priority on built tables; independence of the
    unspecified map iteration order; what each lookup outcome means; and where
    the two lookups differ. *)

From S2P Require Import Prelude PathNormalize Net Backend External Config Filters Entry.
From S2P Require Import HostRouter HostRouterFacts HostReplay Table.

(** ** Wildcards *)

Lemma wildcard_matches_spec host suffix kind :
  wildcard_matches host suffix kind = true ↔
  ∃ prefix, host = prefix ++ dot :: suffix ∧ prefix ≠ [] ∧ (kind = SingleLabel → dot ∉ prefix).
Proof.
  unfold wildcard_matches. destruct (strip_suffix suffix host) as [rest|] eqn:E1.
  2:{ rewrite strip_suffix_None in E1. split; [done|]. intros (p & -> & _).
      destruct (E1 (p ++ [dot])). by rewrite <-app_assoc. }
  apply strip_suffix_Some in E1 as ->.
  destruct (strip_suffix (lit ".") rest) as [prefix|] eqn:E2.
  2:{ rewrite strip_suffix_None in E2. split; [done|]. intros (p & Heq & _).
      change (dot :: suffix) with ([dot] ++ suffix) in Heq. rewrite app_assoc in Heq.
      apply app_inv_tail in Heq. by destruct (E2 p). }
  apply strip_suffix_Some in E2 as ->.
  assert (∀ p, (prefix ++ lit ".") ++ suffix = p ++ dot :: suffix ↔ p = prefix) as Hinj.
  { intros p. change (dot :: suffix) with (lit "." ++ suffix). rewrite app_assoc.
    split; [|by intros ->]. intros Heq%app_inv_tail%app_inv_tail. done. }
  setoid_rewrite Hinj. destruct prefix as [|c prefix]; [naive_solver|].
  destruct kind.
  - rewrite negb_true_iff, contains_false. naive_solver.
  - naive_solver.
Qed.

Lemma wildcard_same_suffix host s k s' k' :
  wildcard_matches host s k = true → wildcard_matches host s' k' = true →
  length s = length s' → s = s'.
Proof.
  rewrite !wildcard_matches_spec. intros (p & -> & _) (p' & Heq & _) Hlen.
  apply app_inj_2 in Heq; [|cbn; by f_equal]. destruct Heq as [_ [= ->]]. done.
Qed.

Lemma NoDup_fst_functional {A B} (l : list (A * B)) x y1 y2 :
  NoDup l.*1 → (x, y1) ∈ l → (x, y2) ∈ l → y1 = y2.
Proof.
  induction l as [|[a b] l IH]; cbn; [set_solver|]. intros [Ha Hl]%NoDup_cons.
  rewrite !elem_of_cons. intros [Hx|Hx] [Hy|Hy]; simplify_eq; [done| | |by apply IH].
  - destruct Ha. by apply (list_elem_of_fmap_2 fst _ (a, y2)).
  - destruct Ha. by apply (list_elem_of_fmap_2 fst _ (a, y1)).
Qed.

Section facts.
Context `{RegexLib, HttpLib, MatchitLib}.

Abbreviation wentry := (str * WildcardKind * HostRouter)%type.

Lemma wildcard_leb_spec (a b : wentry) :
  wildcard_leb a b = true ↔
  length b.1.1 < length a.1.1 ∨
  (length a.1.1 = length b.1.1 ∧ (a.1.2 = SingleLabel ∨ b.1.2 = MultiLabel)).
Proof.
  unfold wildcard_leb. destruct (Nat.eqb_spec (length a.1.1) (length b.1.1)); cbn [negb].
  - destruct a as [[? []] ?], b as [[? []] ?]; cbn in *; rewrite ?Nat.leb_le; naive_solver lia.
  - rewrite Nat.ltb_lt. naive_solver lia.
Qed.

Lemma wildcard_leb_total (a b : wentry) : wildcard_leb a b = true ∨ wildcard_leb b a = true.
Proof.
  rewrite !wildcard_leb_spec. destruct (Nat.lt_total (length a.1.1) (length b.1.1)) as [?|[?|?]];
    destruct a as [[? []] ?], b as [[? []] ?]; cbn in *; naive_solver lia.
Qed.

Lemma wildcard_leb_trans (a b c : wentry) :
  wildcard_leb a b = true → wildcard_leb b c = true → wildcard_leb a c = true.
Proof.
  rewrite !wildcard_leb_spec. destruct a as [[? []] ?], b as [[? []] ?], c as [[? []] ?];
    cbn; intuition (congruence || lia).
Qed.

(** ** Compiling the hosts of a port *)

Lemma build_hosts_Ok {K} port (name : K → str) l rs cs :
  build_hosts port name l = Ok (rs, cs) →
  Forall2 (λ kb kr, kb.1 = kr.1 ∧ ∃ cs, host_build kb.2 = Ok (kr.2, cs)) l rs.
Proof.
  revert rs cs. induction l as [|[k b] l IH]; intros rs cs; cbn.
  { intros [= <- <-]. constructor. }
  destruct (host_build b) as [[r c]|e] eqn:Eb; [|done].
  destruct (build_hosts port name l) as [[rs' cs']|e]; [|done]. intros [= <- <-].
  constructor; [|by eapply IH]. split; [done|]. eauto.
Qed.

Lemma build_hosts_perm {K} port (name : K → str) l l' rs cs :
  l ≡ₚ l' → build_hosts port name l = Ok (rs, cs) →
  ∃ rs' cs', build_hosts port name l' = Ok (rs', cs') ∧ rs ≡ₚ rs' ∧ cs ≡ₚ cs'.
Proof.
  intros Hl. revert rs cs. induction Hl as [|[k b] l l' _ IH|[k b] [k' b'] l|l l' l'' _ IH1 _ IH2];
    intros rs cs; cbn.
  - eauto.
  - destruct (host_build b) as [[r c]|e]; [|done].
    destruct (build_hosts port name l) as [[rs1 cs1]|e]; [|done]. intros [= <- <-].
    destruct (IH rs1 cs1 eq_refl) as (rs' & cs' & -> & Hrs & Hcs).
    eexists _, _. split; [done|]. by rewrite Hrs, Hcs.
  - destruct (host_build b) as [[r c]|e]; [|by destruct (host_build b') as [[]|]].
    destruct (host_build b') as [[r' c']|e]; [|done].
    destruct (build_hosts port name l) as [[rs1 cs1]|e]; [|done]. intros [= <- <-].
    eexists _, _. split; [done|]. split; [apply Permutation_swap|].
    rewrite !app_assoc. f_equiv. apply Permutation_app_comm.
  - intros Hb. destruct (IH1 rs cs Hb) as (rs1 & cs1 & Hb1 & Hr1 & Hc1).
    destruct (IH2 rs1 cs1 Hb1) as (rs2 & cs2 & Hb2 & Hr2 & Hc2).
    exists rs2, cs2. split; [done|]. by rewrite Hr1, Hc1.
Qed.

Lemma build_hosts_keys {K} port (name : K → str) l rs cs :
  build_hosts port name l = Ok (rs, cs) → rs.*1 = l.*1.
Proof.
  intros Hb%build_hosts_Ok. induction Hb as [|[k b] [k' r] l rs [Hk _] _ IH]; [done|].
  cbn in *. by rewrite IH, Hk.
Qed.

(** Searching two sorted permutations for an element that the order determines
    gives the same answer. *)
Lemma find_first_sort_perm {A} (leb : A → A → bool) p (l l' : list A) :
  (∀ x y, leb x y = true ∨ leb y x = true) →
  (∀ x y z, leb x y = true → leb y z = true → leb x z = true) →
  (∀ x y, x ∈ l → y ∈ l → p x = true → p y = true → leb x y = true → leb y x = true → x = y) →
  l ≡ₚ l' → find_first p (sort_by leb l) = find_first p (sort_by leb l').
Proof.
  intros Htot Htrans Hanti Hl.
  destruct (find_first p (sort_by leb l)) as [x|] eqn:Ex,
    (find_first p (sort_by leb l')) as [y|] eqn:Ey; [| | |done].
  - pose proof (find_first_elem _ _ _ Ex) as [Hx Hpx].
    pose proof (find_first_elem _ _ _ Ey) as [Hy Hpy]. rewrite elem_of_sort_by in Hx, Hy.
    f_equal. apply Hanti; [done|by rewrite Hl|done|done|..].
    + eapply find_first_sort_least; eauto. by rewrite Hl.
    + eapply find_first_sort_least; eauto. by rewrite <-Hl.
  - pose proof (find_first_elem _ _ _ Ex) as [Hx Hpx]. rewrite elem_of_sort_by, Hl in Hx.
    apply find_first_None in Ey. rewrite Forall_forall in Ey.
    rewrite Ey in Hpx; [done|]. by rewrite elem_of_sort_by.
  - pose proof (find_first_elem _ _ _ Ey) as [Hy Hpy]. rewrite elem_of_sort_by, <-Hl in Hy.
    apply find_first_None in Ex. rewrite Forall_forall in Ex.
    rewrite Ex in Hpy; [done|]. by rewrite elem_of_sort_by.
Qed.

Lemma wildcard_find_perm host (l l' : list wentry) :
  NoDup l.*1 → l ≡ₚ l' →
  find_first (wildcard_entry_matches host) (sort_by wildcard_leb l) =
  find_first (wildcard_entry_matches host) (sort_by wildcard_leb l').
Proof.
  intros Hnd Hl. apply find_first_sort_perm;
    [apply wildcard_leb_total|apply wildcard_leb_trans| |done].
  intros [[s k] r] [[s' k'] r'] Hx Hy Hpx Hpy Hxy Hyx.
  apply wildcard_leb_spec in Hxy, Hyx. unfold wildcard_entry_matches in *. cbn in *.
  assert (length s = length s') as Hlen by lia.
  assert (s = s') as -> by by eapply wildcard_same_suffix.
  assert (k = k') as -> by (destruct k, k'; naive_solver lia).
  f_equal. by eapply NoDup_fst_functional.
Qed.
End facts.

(** ** Host selection *)

Section selection.
Context `{RegexLib, HttpLib, MatchitLib}.

(** The builder that serves a host: the exact name; else, among the matching
    wildcards, one with the longest suffix, single-label before multi-label;
    else the catch-all. *)
Inductive host_spec (pb : PortTableBuilder) (host : str) : option HostRouterBuilder → Prop :=
| spec_exact b : pb_exact_hosts pb !! host = Some b → host_spec pb host (Some b)
| spec_wildcard s k b :
    pb_exact_hosts pb !! host = None → pb_wildcard_hosts pb !! (s, k) = Some b →
    wildcard_matches host s k = true →
    (∀ s' k', is_Some (pb_wildcard_hosts pb !! (s', k')) → wildcard_matches host s' k' = true →
       length s' < length s ∨ (s' = s ∧ (k = SingleLabel ∨ k' = MultiLabel))) →
    host_spec pb host (Some b)
| spec_catchall :
    pb_exact_hosts pb !! host = None →
    (∀ s k, is_Some (pb_wildcard_hosts pb !! (s, k)) → wildcard_matches host s k = false) →
    host_spec pb host (pb_catchall pb).

(** A builder with nothing spliced in from a previous compilation. *)
Definition fresh_builder (pb : PortTableBuilder) : Prop :=
  pb_compiled_exact_hosts pb = ∅ ∧ pb_compiled_wildcard_hosts pb = [] ∧
  pb_compiled_catchall pb = None.

(** The compiled counterpart of a map of builders. *)
Lemma build_hosts_map `{HashIter, Countable K} port (name : K → str)
    (m : gmap K HostRouterBuilder) rs cs k :
  build_hosts port name (hash_iter m) = Ok (rs, cs) →
  match m !! k with
  | Some b => ∃ r cs, host_build b = Ok (r, cs) ∧ (k, r) ∈ rs
  | None => k ∉ rs.*1
  end.
Proof.
  intros Hb. destruct (m !! k) as [b|] eqn:Em.
  - apply hash_iter_elem, list_elem_of_lookup_1 in Em as [i Hi].
    apply build_hosts_Ok in Hb. destruct (Forall2_lookup_l _ _ _ _ _ Hb Hi) as ([k' r] & Hr & Hk & cs' & Hh).
    cbn in *. subst k'. exists r, cs'. split; [done|]. by eapply list_elem_of_lookup_2.
  - rewrite (build_hosts_keys _ _ _ _ _ Hb). intros ([k' b] & -> & Hin)%list_elem_of_fmap.
    apply hash_iter_elem in Hin. cbn in Em. congruence.
Qed.

(** What searching the sorted compiled wildcards finds. *)
Lemma wildcard_search `{HashIter} (port : Z) (name : str * WildcardKind → str)
    (m : gmap (str * WildcardKind) HostRouterBuilder)
    (wi : list (str * WildcardKind * HostRouter)) (wic : list RouteConflict) (host : str) :
  build_hosts port name (hash_iter m) = Ok (wi, wic) →
  match find_first (wildcard_entry_matches host) (sort_by wildcard_leb wi) with
  | Some (s, k, r) =>
      ∃ b cs, m !! (s, k) = Some b ∧ host_build b = Ok (r, cs) ∧
        wildcard_matches host s k = true ∧
        ∀ s' k', is_Some (m !! (s', k')) → wildcard_matches host s' k' = true →
          length s' < length s ∨ (s' = s ∧ (k = SingleLabel ∨ k' = MultiLabel))
  | None => ∀ s k, is_Some (m !! (s, k)) → wildcard_matches host s k = false
  end.
Proof.
  intros Ew. pose proof (build_hosts_map port name m wi wic) as Hmap.
  assert (NoDup wi.*1) as Hndw by (rewrite (build_hosts_keys _ _ _ _ _ Ew); apply hash_iter_NoDup).
  destruct (find_first _ _) as [[[s k] r]|] eqn:Ef.
  - pose proof (find_first_elem _ _ _ Ef) as [Hin Hm]. rewrite elem_of_sort_by in Hin.
    pose proof (Hmap (s, k) Ew) as Hw. destruct (m !! (s, k)) as [b|] eqn:Eb.
    2:{ destruct Hw. by apply (list_elem_of_fmap_2 fst _ (s, k, r)). }
    destruct Hw as (r' & cs & Hb & Hin').
    assert (r' = r) as -> by by eapply NoDup_fst_functional.
    exists b, cs. split_and!; [done..|]. intros s' k' [b' Hb'] Hm'.
    pose proof (Hmap (s', k') Ew) as Hw. rewrite Hb' in Hw. destruct Hw as (r' & _ & _ & Hin'').
    assert (wildcard_leb (s, k, r) (s', k', r') = true) as Hle%wildcard_leb_spec.
    { eapply (find_first_sort_least wildcard_leb wildcard_leb_total wildcard_leb_trans); eauto. }
    cbn in Hle. destruct Hle as [?|[Hlen Hk]]; [by left|]. right. split; [|done].
    symmetry. by eapply wildcard_same_suffix.
  - intros s k [b Hb]. pose proof (Hmap (s, k) Ew) as Hw. rewrite Hb in Hw.
    destruct Hw as (r & _ & _ & Hin). apply find_first_None in Ef. rewrite Forall_forall in Ef.
    apply (Ef (s, k, r)). by rewrite elem_of_sort_by.
Qed.

(** C28: Host priority.  On a freshly compiled port, whatever order the maps are
    iterated in, a host is served by the router compiled from its exact entry;
    failing that, from the most specific matching wildcard (longest suffix,
    then single-label); failing that, from the catch-all; and by none if there
    is none. *)
Theorem host_selection `{HashIter} port pb pt cs host :
  fresh_builder pb → port_build port pb = Ok (pt, cs) →
  ∃ ob, host_spec pb host ob ∧
    match ob with
    | None => select_host pt host = None
    | Some b => ∃ r cs', host_build b = Ok (r, cs') ∧ select_host pt host = Some r
    end.
Proof.
  intros (Hce & Hcw & Hcc). unfold port_build. rewrite Hce, Hcw, Hcc.
  destruct (build_hosts port _ (hash_iter (pb_exact_hosts pb))) as [[ex exc]|e] eqn:Ee; [|done].
  destruct (build_hosts port _ (hash_iter (pb_wildcard_hosts pb))) as [[wi wic]|e] eqn:Ew; [|done].
  cbn [fst snd]. rewrite app_nil_r, map_empty_union. intros Hok.
  assert (∃ ca, pt = mkPortRoutingTable (list_to_map ex) (sort_by wildcard_leb wi) ca ∧
    match pb_catchall pb with
    | None => ca = None
    | Some b => ∃ r cs', host_build b = Ok (r, cs') ∧ ca = Some r
    end) as (ca & -> & Hca).
  { destruct (pb_catchall pb) as [b|]; [|simplify_eq; eauto].
    destruct (host_build b) as [[r c]|e]; simplify_eq/=. eauto 7. }
  clear Hok. pose proof (build_hosts_map port _ _ _ _ host Ee) as Hx.
  assert (NoDup ex.*1) as Hndx by (rewrite (build_hosts_keys _ _ _ _ _ Ee); apply hash_iter_NoDup).
  unfold select_host. cbn [pt_exact_hosts pt_wildcard_hosts pt_catchall].
  destruct (pb_exact_hosts pb !! host) as [b|] eqn:Eh.
  { exists (Some b). split; [by constructor|]. destruct Hx as (r & cs' & Hb & Hin).
    exists r, cs'. split; [done|]. by rewrite (elem_of_list_to_map_1 ex host r Hndx Hin). }
  rewrite (not_elem_of_list_to_map_1 ex host Hx).
  pose proof (wildcard_search port _ _ _ _ host Ew) as Hw.
  destruct (find_first _ (sort_by wildcard_leb wi)) as [[[s k] r]|].
  - destruct Hw as (b & cs' & Hb & Hbuild & Hm & Hbest). exists (Some b). split; [|by eauto].
    by apply (spec_wildcard _ _ s k).
  - exists (pb_catchall pb). split; [by apply spec_catchall|].
    destruct (pb_catchall pb) as [b|]; [|done]. destruct Hca as (r & cs' & Hb & ->). eauto.
Qed.

(** The unspecified iteration order of the host maps is unobservable.  If a
    port compiles under one order it compiles under any other, with the same
    conflicts up to order, and every lookup on the two tables agrees; reused
    compiled wildcards included, as long as no wildcard is registered twice. *)
Theorem iteration_order_irrelevant (it1 it2 : HashIter) (port : Z) pb pt cs :
  NoDup ((map_to_list (pb_wildcard_hosts pb)).*1 ++ (pb_compiled_wildcard_hosts pb).*1) →
  @port_build _ _ it1 port pb = Ok (pt, cs) →
  ∃ pt' cs', @port_build _ _ it2 port pb = Ok (pt', cs') ∧ cs ≡ₚ cs' ∧
    ∀ host path ctx, port_find pt' host path ctx = port_find pt host path ctx.
Proof.
  intros Hnd. unfold port_build.
  destruct (build_hosts port _ (@hash_iter it1 _ _ _ _ (pb_exact_hosts pb))) as [[ex exc]|e] eqn:Ee; [|done].
  destruct (build_hosts port _ (@hash_iter it1 _ _ _ _ (pb_wildcard_hosts pb))) as [[wi wic]|e] eqn:Ew; [|done].
  destruct (build_hosts_perm port _ _ (@hash_iter it2 _ _ _ _ (pb_exact_hosts pb)) ex exc
    (hash_iter_any it1 it2 _) Ee) as (ex' & exc' & -> & Hex & Hexc).
  destruct (build_hosts_perm port _ _ (@hash_iter it2 _ _ _ _ (pb_wildcard_hosts pb)) wi wic
    (hash_iter_any it1 it2 _) Ew) as (wi' & wic' & -> & Hwi & Hwic).
  assert (NoDup ex.*1) as Hndx by (rewrite (build_hosts_keys _ _ _ _ _ Ee); apply hash_iter_NoDup).
  assert (NoDup (wi ++ pb_compiled_wildcard_hosts pb).*1) as Hndw.
  { rewrite fmap_app, (build_hosts_keys _ _ _ _ _ Ew). by rewrite hash_iter_perm. }
  assert ((list_to_map ex' : gmap str HostRouter) = list_to_map ex) as Hmap.
  { symmetry. by apply list_to_map_proper. }
  cbn [fst snd]. intros Hok.
  assert (∀ ca host, select_host (mkPortRoutingTable (pb_compiled_exact_hosts pb ∪ list_to_map ex')
      (sort_by wildcard_leb (wi' ++ pb_compiled_wildcard_hosts pb)) ca) host =
    select_host (mkPortRoutingTable (pb_compiled_exact_hosts pb ∪ list_to_map ex)
      (sort_by wildcard_leb (wi ++ pb_compiled_wildcard_hosts pb)) ca) host) as Hsel.
  { intros ca host. unfold select_host. cbn. rewrite Hmap.
    by rewrite (wildcard_find_perm host (wi ++ _) (wi' ++ pb_compiled_wildcard_hosts pb)
      Hndw ltac:(by rewrite Hwi)). }
  destruct (pb_compiled_catchall pb) as [c|]; [|destruct (pb_catchall pb) as [b|];
    [destruct (host_build b) as [[r c]|e]; [|done]|]]; simplify_eq/=;
    (eexists _, _; split; [done|]; split; [by rewrite Hexc, Hwic|];
     intros host path ctx; unfold port_find; by rewrite Hsel).
Qed.

(** The path a host's router sees. *)
Definition normal_path (r : HostRouter) (path : str) : str :=
  cow_str (PathNormalize.apply (hr_normalize r) path).

Lemma apply_borrowed_eq level path s : PathNormalize.apply level path = Borrowed s → s = path.
Proof.
  unfold PathNormalize.apply. destruct (negb _); [by intros [= ->]|].
  case_decide; by intros [= ->].
Qed.

Lemma apply_owned_ne level path s : PathNormalize.apply level path = Owned s → s ≠ path.
Proof.
  unfold PathNormalize.apply. destruct (negb _); [done|]. case_decide; [done|]. by intros [= <-].
Qed.

(** What a lookup answers.  A match was found by the selected host's router on
    the path that is forwarded (the normalized path when normalization changed
    it, the request path otherwise) and carries no error status; an error is
    the status of the matched rule; [NoHost] means no host serves the name;
    [NoPath] means the selected host has no passing rule. *)
Theorem port_find_outcome pt host path ctx :
  match port_find pt host path ctx with
  | Found m => ∃ r m0, select_host pt host = Some r ∧ rm_error_status m = None ∧
      default path (rm_normalized_path m) = normal_path r path ∧
      (∀ s, rm_normalized_path m = Some s → s ≠ path) ∧
      host_route r (default path (rm_normalized_path m)) ctx = Some m0 ∧
      m = with_normalized_path (rm_normalized_path m) m0
  | RouteError status => ∃ r m0, select_host pt host = Some r ∧
      host_route r (normal_path r path) ctx = Some m0 ∧ rm_error_status m0 = Some status
  | NoHost => select_host pt host = None
  | NoPath => ∃ r, select_host pt host = Some r ∧
      host_route r (normal_path r path) ctx = None
  end.
Proof.
  assert (∀ r m, host_route r path ctx = Some m → rm_normalized_path m = None) as Hnone.
  { intros r m. rewrite host_route_candidates. destruct (first_match _ ctx); by intros [= <-]. }
  unfold port_find, normal_path. destruct (select_host pt host) as [r|]; [|done].
  destruct (PathNormalize.apply (hr_normalize r) path) as [s|s] eqn:E; cbn [cow_str].
  - pose proof (apply_borrowed_eq _ _ _ E) as ->.
    destruct (host_route r path ctx) as [m|] eqn:Er; [|exists r; by rewrite E].
    pose proof (Hnone r m Er) as Hn.
    destruct (rm_error_status m) eqn:Ee; [exists r, m; by rewrite E|]. exists r, m.
    rewrite Hn, E. split_and!; try done. destruct m. cbn in *. by rewrite Hn.
  - pose proof (apply_owned_ne _ _ _ E) as Hne.
    destruct (host_route r s ctx) as [m|] eqn:Er; [|exists r; by rewrite E].
    cbn [rm_error_status with_normalized_path].
    destruct (rm_error_status m) eqn:Ee; [exists r, m; by rewrite E|]. exists r, m. cbn.
    rewrite E. split_and!; try done. by intros s' [= <-].
Qed.
End selection.

(** ** Witnesses and divergences *)

Import Sample.

#[export] Existing Instance list_order.

Module TableDemo.
Import HostDemo.

Definition host_a : str := lit "a.example.com".

(** [a.example.com] serves [/api]; any other host of the port serves [/]. *)
Definition port_builder : PortTableBuilder :=
  host_for (Some (lit "*.example.com")) MultiLabel (add_prefix_route (lit "/w") (rule (lit "wild")))
    (host_for None MultiLabel (add_prefix_route (lit "/") (rule (lit "fallback")))
      (host_for (Some host_a) MultiLabel (add_prefix_route (lit "/api") (rule (lit "api")))
        PortTableBuilder_default)).

Definition port_table : PortRoutingTable * list RouteConflict :=
  match port_build 80 port_builder with
  | Ok r => r
  | Err _ => (mkPortRoutingTable ∅ [] None, [])
  end.

Lemma port_table_ok : port_build 80 port_builder = Ok (port_table.1, port_table.2).
Proof. vm_compute. reflexivity. Qed.

Definition served (o : RouteOutcome) : option str :=
  match o with Found m => Some (bg_name (rm_backend_group m)) | _ => None end.

(** The host compiled earlier, as a partitioned rebuild would reuse it. *)
Definition cached : HostRouter :=
  match host_build (add_prefix_route (lit "/") (rule (lit "cached")) HostRouterBuilder_default) with
  | Ok (h, _) => h
  | Err _ => mkHostRouter [] [] false [] Base []
  end.

(** Every host both rebuilt and spliced in from the cache. *)
Definition colliding (pattern : str) : PortTableBuilder :=
  let fresh := host_for (Some pattern) MultiLabel (add_prefix_route (lit "/") (rule (lit "rebuilt")))
                 PortTableBuilder_default in
  if starts_with (lit "*.") pattern then insert_compiled_wildcard_host pattern MultiLabel cached fresh
  else insert_compiled_exact_host pattern cached fresh.

Definition find_on (pb : PortTableBuilder) (host : str) : option str :=
  match port_build 80 pb with
  | Ok (pt, _) => served (port_find pt host (lit "/x") request)
  | Err _ => None
  end.
End TableDemo.

Lemma host_selection_witness :
  ∃ ob, host_spec TableDemo.port_builder (lit "b.example.com") ob ∧ ob ≠ None.
Proof.
  destruct (host_selection 80 TableDemo.port_builder _ _ (lit "b.example.com")
    ltac:(split_and!; vm_compute; reflexivity) TableDemo.port_table_ok) as (ob & Hspec & Hob).
  exists ob. split; [exact Hspec|]. intros ->. vm_compute in Hob. discriminate Hob.
Defined.

Lemma iteration_order_irrelevant_witness :
  ∃ pt' cs', @port_build _ _ reverse_order 80 TableDemo.port_builder = Ok (pt', cs') ∧
    TableDemo.served (port_find pt' (lit "b.example.com") (lit "/w/1") HostDemo.request)
      = Some (lit "wild").
Proof.
  destruct (iteration_order_irrelevant list_order reverse_order 80 TableDemo.port_builder
    TableDemo.port_table.1 TableDemo.port_table.2) as (pt' & cs' & Hok & _ & Hfind).
  - apply (bool_decide_unpack _). vm_compute. reflexivity.
  - exact TableDemo.port_table_ok.
  - exists pt', cs'. split; [exact Hok|]. rewrite Hfind. vm_compute. reflexivity.
Defined.

(** The two lookups disagree.  On a host whose own rules do not cover the path,
    [route] falls through to the catch-all host while [find], the lookup of the
    request path, answers [NoPath]; and [route] looks up the raw path, so a
    dot-segment path is served by different rules. *)
Theorem find_and_route_differ :
  let pt := TableDemo.port_table.1 in
  port_find pt TableDemo.host_a (lit "/other") HostDemo.request = NoPath ∧
  bg_name <$> port_route pt TableDemo.host_a (lit "/other") HostDemo.request
    = Some (lit "fallback") ∧
  TableDemo.served (port_find pt TableDemo.host_a (lit "/x/../api") HostDemo.request)
    = Some (lit "api") ∧
  bg_name <$> port_route pt TableDemo.host_a (lit "/x/../api") HostDemo.request
    = Some (lit "fallback").
Proof. split_and!; vm_compute; reflexivity. Qed.

(** A reused compiled host wins over a rebuilt one only for exact names: for a
    wildcard registered both ways the rebuilt router serves the request. *)
Theorem compiled_wildcard_loses :
  TableDemo.find_on (TableDemo.colliding (lit "a.example.com")) (lit "a.example.com")
    = Some (lit "cached") ∧
  TableDemo.find_on (TableDemo.colliding (lit "*.example.com")) (lit "a.example.com")
    = Some (lit "rebuilt").
Proof. split; vm_compute; reflexivity. Qed.
