(* ===== verification/Tls.v ===== *)
(** * TLS material stores

    Models [crates/coxswain-core/src/tls.rs]: the server certificates of a port
    ([TlsStore], [PortTlsStore]), the client-certificate policies ([ClientCertStore])
    and the listener hostnames ([ListenerHostnames]), with their builders.  PEM
    bytes are strings, a [SystemTime] is a number of nanoseconds.  Counters and
    iterators for metrics and serialization are not modelled. *)

From S2P Require Import Prelude.

(** ** Server certificates *)

Inductive KeyAlgorithm := Rsa | Ecdsa | OtherAlgorithm.

#[export] Instance KeyAlgorithm_eq_dec : EqDecision KeyAlgorithm.
Proof. solve_decision. Defined.

Record TlsCert := mkTlsCert {
  cert_pem : str;
  key_pem : str;
  source : str;
  not_after : option Z;
  key_algorithm : KeyAlgorithm;
}.

#[export] Instance TlsCert_eq_dec : EqDecision TlsCert.
Proof. solve_decision. Defined.

Definition TlsCert_new (cert key src : str) : TlsCert :=
  mkTlsCert cert key src None OtherAlgorithm.

Definition with_not_after (t : option Z) (c : TlsCert) : TlsCert :=
  mkTlsCert (cert_pem c) (key_pem c) (source c) t (key_algorithm c).

Definition with_key_algorithm (a : KeyAlgorithm) (c : TlsCert) : TlsCert :=
  mkTlsCert (cert_pem c) (key_pem c) (source c) (not_after c) a.

(** [PartialEq for TlsCert]: the PEM bytes only. *)
Definition same_pem (a b : TlsCert) : bool :=
  bool_decide (cert_pem a = cert_pem b) && bool_decide (key_pem a = key_pem b).

(** [wildcard_matches]: exactly one label before the suffix. *)
Definition sni_wildcard_matches (sni suffix : str) : bool :=
  match strip_suffix suffix sni with
  | Some rest =>
      match strip_suffix (lit ".") rest with
      | Some label => negb (bool_decide (label = [])) && negb (contains dot label)
      | None => false
      end
  | None => false
  end.

Definition algo_sort_key (a : KeyAlgorithm) : Z :=
  match a with Ecdsa => 0 | Rsa => 1 | OtherAlgorithm => 2 end.

(** [Ord for Option<SystemTime>]: [None] is least. *)
Definition expiry_ltb (a b : option Z) : bool :=
  match a, b with
  | None, Some _ => true
  | Some x, Some y => (x <? y)%Z
  | _, None => false
  end.

(** The comparison of [sort_cert_vec] is not [Greater]. *)
Definition cert_leb (a b : TlsCert) : bool :=
  let ka := algo_sort_key (key_algorithm a) in
  let kb := algo_sort_key (key_algorithm b) in
  if negb (ka =? kb)%Z then (ka <? kb)%Z
  else if negb (bool_decide (not_after a = not_after b)) then expiry_ltb (not_after b) (not_after a)
  else str_leb (source a) (source b).

Definition sort_cert_vec (certs : list TlsCert) : list TlsCert := sort_by cert_leb certs.

(** [dedup_cert_vec]: [kept] is [certs[..i]], [rest] is [certs[i..]]. *)
Fixpoint dedup_loop (kept rest : list TlsCert) : list TlsCert :=
  match rest with
  | [] => kept
  | c :: rest' =>
      if existsb (λ d, same_pem d c) kept then dedup_loop kept rest'
      else dedup_loop (kept ++ [c]) rest'
  end.

Definition dedup_cert_vec (certs : list TlsCert) : list TlsCert := dedup_loop [] certs.

(** Where a host pattern is filed, by all three builders. *)
Inductive Bucket :=
| BDefault
| BWildcard (suffix : str)
| BExact (host : str).

#[export] Instance Bucket_eq_dec : EqDecision Bucket.
Proof. solve_decision. Defined.

Definition bucket_of (host_pattern : str) : Bucket :=
  if bool_decide (host_pattern = []) || bool_decide (host_pattern = lit "*") then BDefault
  else match strip_prefix (lit "*.") host_pattern with
       | Some suffix => BWildcard suffix
       | None => BExact host_pattern
       end.

(** Last-writer-wins registrations by bucket: the shape and the [add] of
    [HostConfigsBuilder] and of the SNI routers. *)
Record PatternMap (V : Type) := mkPatternMap {
  pm_exact : gmap str V;
  pm_wildcard : gmap str V;
  pm_default : option V;
}.
Arguments mkPatternMap {V}.
Arguments pm_exact {V}.
Arguments pm_wildcard {V}.
Arguments pm_default {V}.

Definition PatternMap_new {V} : PatternMap V := mkPatternMap ∅ ∅ None.

Definition bucket_add {V} (b : PatternMap V) (host_pattern : str) (v : V) : PatternMap V :=
  match bucket_of host_pattern with
  | BDefault => mkPatternMap (pm_exact b) (pm_wildcard b) (Some v)
  | BWildcard suffix => mkPatternMap (pm_exact b) (<[suffix := v]> (pm_wildcard b)) (pm_default b)
  | BExact host => mkPatternMap (<[host := v]> (pm_exact b)) (pm_wildcard b) (pm_default b)
  end.

Record TlsStore := mkTlsStore {
  ts_exact : gmap str (list TlsCert);
  ts_wildcard : list (str * list TlsCert);
  ts_default : list TlsCert;
}.

Definition find_certs (s : TlsStore) (sni : str) : list TlsCert :=
  match ts_exact s !! sni with
  | Some certs => certs
  | None =>
      match find_first (λ w, sni_wildcard_matches sni w.1) (ts_wildcard s) with
      | Some (_, certs) => certs
      | None => ts_default s
      end
  end.

Definition find_cert (s : TlsStore) (sni : str) : option TlsCert := head (find_certs s sni).

Definition has_specific_cert (s : TlsStore) (sni : str) : bool :=
  match ts_exact s !! sni with Some (_ :: _) => true | _ => false end ||
  existsb (λ w, negb (bool_decide (w.2 = [])) && sni_wildcard_matches sni w.1) (ts_wildcard s).

(** The derived [PartialEq for TlsStore], with [PartialEq for TlsCert] below it. *)
Fixpoint all2 {A} (eqb : A → A → bool) (l k : list A) : bool :=
  match l, k with
  | [], [] => true
  | x :: l', y :: k' => eqb x y && all2 eqb l' k'
  | _, _ => false
  end.

Definition map_eqb {A} (eqb : A → A → bool) (m n : gmap str A) : bool :=
  bool_decide (dom m = dom n) &&
  forallb (λ kv : str * A, match n !! kv.1 with Some v => eqb kv.2 v | None => false end)
    (map_to_list m).

Definition TlsStore_eqb (s t : TlsStore) : bool :=
  map_eqb (all2 same_pem) (ts_exact s) (ts_exact t) &&
  all2 (λ v w, bool_decide (v.1 = w.1) && all2 same_pem v.2 w.2) (ts_wildcard s) (ts_wildcard t) &&
  all2 same_pem (ts_default s) (ts_default t).

Record TlsStoreBuilder := mkTlsStoreBuilder {
  tb_exact : gmap str (list TlsCert);
  tb_wildcard : gmap str (list TlsCert);
  tb_default : list TlsCert;
}.

Definition TlsStoreBuilder_new : TlsStoreBuilder := mkTlsStoreBuilder ∅ ∅ [].

(** [entry(key).or_default().push(c)] *)
Definition push_at (key : str) (c : TlsCert) (m : gmap str (list TlsCert)) :
    gmap str (list TlsCert) :=
  <[key := default [] (m !! key) ++ [c]]> m.

Definition add_cert (b : TlsStoreBuilder) (host_pattern : str) (c : TlsCert) : TlsStoreBuilder :=
  match bucket_of host_pattern with
  | BDefault => mkTlsStoreBuilder (tb_exact b) (tb_wildcard b) (tb_default b ++ [c])
  | BWildcard suffix => mkTlsStoreBuilder (tb_exact b) (push_at suffix c (tb_wildcard b)) (tb_default b)
  | BExact host => mkTlsStoreBuilder (push_at host c (tb_exact b)) (tb_wildcard b) (tb_default b)
  end.

(** [sort_by_key(|(suffix, _)| Reverse(suffix.len()))] *)
Definition longer_first {V} (a b : str * V) : bool := length b.1 <=? length a.1.

Section stores.
Context `{HashIter}.

Definition prepare (certs : list TlsCert) : list TlsCert := sort_cert_vec (dedup_cert_vec certs).

Definition tls_build (b : TlsStoreBuilder) : TlsStore :=
  mkTlsStore (prepare <$> tb_exact b)
    (sort_by longer_first ((λ w, (w.1, prepare w.2)) <$> hash_iter (tb_wildcard b)))
    (prepare (tb_default b)).

(** ** Certificates per port *)

Definition PortTlsStore : Type := gmap Z TlsStore.
Definition PortTlsStoreBuilder : Type := gmap Z TlsStoreBuilder.

Definition port_add_cert (b : PortTlsStoreBuilder) (port : Z) (host_pattern : str) (c : TlsCert) :
    PortTlsStoreBuilder :=
  <[port := add_cert (default TlsStoreBuilder_new (b !! port)) host_pattern c]> b.

Definition port_tls_build (b : PortTlsStoreBuilder) : PortTlsStore := tls_build <$> b.

(** ** Client-certificate policies *)

Record ClientCertConfig := mkClientCertConfig {
  ca_pem : str;
  verify_depth : Z;
  pass_to_upstream : bool;
  allow_insecure_fallback : bool;
}.

Definition ClientCertConfig_new (ca : str) (depth : Z) (pass : bool) : ClientCertConfig :=
  mkClientCertConfig ca depth pass false.

Definition with_insecure_fallback (v : bool) (c : ClientCertConfig) : ClientCertConfig :=
  mkClientCertConfig (ca_pem c) (verify_depth c) (pass_to_upstream c) v.

Inductive ClientCertConfigState :=
| CcConfig (c : ClientCertConfig)
| CcUnavailable.

Record HostClientCertConfigs := mkHostConfigs {
  hc_exact : gmap str ClientCertConfigState;
  hc_wildcard : list (str * ClientCertConfigState);
  hc_default : option ClientCertConfigState;
}.

Definition ClientCertStore : Type := gmap Z HostClientCertConfigs.

Definition host_find_config (m : HostClientCertConfigs) (sni : str) :
    option ClientCertConfigState :=
  match hc_exact m !! sni with
  | Some cfg => Some cfg
  | None =>
      match find_first (λ w, sni_wildcard_matches sni w.1) (hc_wildcard m) with
      | Some (_, cfg) => Some cfg
      | None => hc_default m
      end
  end.

Definition find_config (s : ClientCertStore) (port : Z) (sni : str) :
    option ClientCertConfigState :=
  m ← s !! port; host_find_config m sni.

Definition HostConfigsBuilder : Type := PatternMap ClientCertConfigState.
Definition ClientCertStoreBuilder : Type := gmap Z HostConfigsBuilder.

Definition add_client_cert (b : ClientCertStoreBuilder) (port : Z) (host_pattern : str)
    (cfg : ClientCertConfigState) : ClientCertStoreBuilder :=
  <[port := bucket_add (default PatternMap_new (b !! port)) host_pattern cfg]> b.

Definition host_configs_build (b : HostConfigsBuilder) : HostClientCertConfigs :=
  mkHostConfigs (pm_exact b) (sort_by longer_first (hash_iter (pm_wildcard b))) (pm_default b).

Definition client_cert_build (b : ClientCertStoreBuilder) : ClientCertStore :=
  host_configs_build <$> b.

(** ** Listener hostnames *)

Definition listener_pattern_matches (host pattern : str) : bool :=
  match strip_prefix (lit "*.") pattern with
  | Some suffix => sni_wildcard_matches host suffix
  | None => bool_decide (host = pattern)
  end.

(** [usize] has 64 bits. *)
Definition listener_specificity (pattern : str) : Z :=
  match strip_prefix (lit "*.") pattern with
  | Some suffix => Z.of_nat (length suffix)
  | None => u64_max
  end.

Inductive ListenerId := LPattern (pattern : str) | LMatchAll.

#[export] Instance ListenerId_eq_dec : EqDecision ListenerId.
Proof. solve_decision. Defined.

Record PortListeners := mkPortListeners {
  pl_patterns : list str;
  has_match_all : bool;
}.

Definition ListenerHostnames : Type := gmap Z PortListeners.

Definition resolve_in (p : PortListeners) (host : str) : option ListenerId :=
  match find_first (listener_pattern_matches host) (pl_patterns p) with
  | Some pat => Some (LPattern pat)
  | None => if has_match_all p then Some LMatchAll else None
  end.

Definition resolve (lh : ListenerHostnames) (port : Z) (host : str) : option ListenerId :=
  p ← lh !! port; resolve_in p host.

Definition resolve_sni (lh : ListenerHostnames) (port : Z) (sni : option str) : option ListenerId :=
  p ← lh !! port;
  match sni with
  | Some sni => resolve_in p sni
  | None => if has_match_all p then Some LMatchAll else None
  end.

Definition has_https_port (lh : ListenerHostnames) (port : Z) : bool :=
  bool_decide (is_Some (lh !! port)).

Definition ListenerHostnamesBuilder : Type := gmap Z (list str * bool).

Definition add_listener (b : ListenerHostnamesBuilder) (port : Z) (hostname : str) (is_https : bool) :
    ListenerHostnamesBuilder :=
  if negb is_https then b
  else
    let '(patterns, match_all) := default ([], false) (b !! port) in
    if bool_decide (hostname = []) || bool_decide (hostname = lit "*")
    then <[port := (patterns, true)]> b
    else <[port := (patterns ++ [hostname], match_all)]> b.

Definition more_specific (a b : str) : bool := (listener_specificity b <=? listener_specificity a)%Z.

Definition listener_build (b : ListenerHostnamesBuilder) : ListenerHostnames :=
  (λ '(patterns, match_all), mkPortListeners (sort_by more_specific patterns) match_all) <$> b.

End stores.
