(* ===== verification/TlsFacts.v ===== *)
(** * Facts about the TLS stores

    Every lookup is a function of the registrations alone: the certificates, the
    policy or the listener of a name are those registered for it exactly, else for
    the wildcard over its parent domain, else for every name, on the same port.
    Neither the iteration order of the maps nor another port's registrations are
    observable. *)

From S2P Require Import Prelude Tls.

(** ** One-label wildcards *)

(** What follows the first label. *)
Definition parent (name : str) : option str :=
  match find_char dot name with
  | Some (S i) => Some (drop (S (S i)) name)
  | _ => None
  end.

Lemma parent_Some name s :
  parent name = Some s ↔ ∃ label, name = label ++ dot :: s ∧ label ≠ [] ∧ dot ∉ label.
Proof.
  unfold parent. split.
  - destruct (find_char dot name) as [[|i]|] eqn:E; try discriminate. intros [= <-].
    apply find_char_Some in E as (s1 & s2 & -> & Hin & Hlen). exists s1.
    split_and!; [|by intros ->|done]. f_equal. f_equal. symmetry.
    rewrite (cons_middle dot s1 s2), app_assoc. apply drop_app_length'.
    rewrite length_app. cbn. lia.
  - intros (label & -> & Hne & Hin).
    assert (find_char dot (label ++ dot :: s) = Some (length label)) as ->
      by (apply find_char_Some; eauto).
    destruct label as [|c label]; [done|]. cbn [length]. f_equal.
    rewrite (cons_middle dot (c :: label) s), app_assoc. apply drop_app_length'.
    rewrite length_app. cbn. lia.
Qed.

Lemma sni_wildcard_iff sni suffix :
  sni_wildcard_matches sni suffix = true ↔ parent sni = Some suffix.
Proof.
  unfold sni_wildcard_matches. rewrite parent_Some. split.
  - destruct (strip_suffix suffix sni) as [rest|] eqn:E1; [|done].
    destruct (strip_suffix (lit ".") rest) as [label|] eqn:E2; [|done].
    apply strip_suffix_Some in E1 as ->. apply strip_suffix_Some in E2 as ->.
    rewrite andb_true_iff, !negb_true_iff, bool_decide_eq_false, contains_false.
    intros [? ?]. exists label. by rewrite <-app_assoc.
  - intros (label & -> & Hne & Hin).
    rewrite (proj2 (strip_suffix_Some suffix (label ++ dot :: suffix) (label ++ lit ".")))
      by by rewrite <-app_assoc.
    rewrite (proj2 (strip_suffix_Some (lit ".") (label ++ lit ".") label)) by done.
    by rewrite bool_decide_eq_false_2, (proj2 (contains_false _ _)).
Qed.

(** In a list that holds the entries of a map, the entry a name's wildcard selects is
    the one of its parent, wherever it stands. *)
Lemma find_wildcard {V} (l : list (str * V)) (m : gmap str V) sni :
  (∀ k v, (k, v) ∈ l ↔ m !! k = Some v) →
  find_first (λ w, sni_wildcard_matches sni w.1) l =
    (s ← parent sni; v ← m !! s; Some (s, v)).
Proof.
  intros Hl. destruct (find_first _ l) as [[k v]|] eqn:E.
  - apply find_first_elem in E as [Hin ->%sni_wildcard_iff]. cbn. by apply Hl in Hin as ->.
  - apply find_first_None in E. rewrite Forall_forall in E.
    destruct (parent sni) as [s|] eqn:Hp; [|done]. cbn.
    destruct (m !! s) as [v|] eqn:Hm; [|done]. apply Hl in Hm. specialize (E _ Hm).
    cbn in E. by rewrite (proj2 (sni_wildcard_iff _ _) Hp) in E.
Qed.

(** ** Registrations *)

Section registrations.
Context {V : Type}.
Implicit Types ops : list (str * V).

(** What was registered under a bucket, in order. *)
Definition registered (b : Bucket) ops : list V :=
  (filter (λ o, bucket_of o.1 = b) ops).*2.

(** What governs a name: the exact registrations, else those of the wildcard over its
    parent, else those for every name. *)
Definition governing ops (name : str) : list V :=
  match registered (BExact name) ops,
        match parent name with Some s => registered (BWildcard s) ops | None => [] end with
  | x :: l, _ => x :: l
  | [], x :: l => x :: l
  | [], [] => registered BDefault ops
  end.

Definition nonempty (l : list V) : option (list V) :=
  match l with [] => None | _ => Some l end.

Lemma registered_snoc b ops p v :
  registered b (ops ++ [(p, v)]) =
    registered b ops ++ (if decide (bucket_of p = b) then [v] else []).
Proof.
  unfold registered. rewrite filter_app, fmap_app. f_equal.
  rewrite filter_cons, filter_nil. cbn. by case_decide.
Qed.

Lemma nonempty_snoc l v : nonempty (l ++ [v]) = Some (l ++ [v]).
Proof. by destruct l. Qed.

Lemma default_nonempty l : default [] (nonempty l) = l.
Proof. by destruct l. Qed.

(** The registrations of one port. *)
Definition on_port (port : Z) (ops : list (Z * str * V)) : list (str * V) :=
  (λ o : Z * str * V, (o.1.2, o.2)) <$> filter (λ o, o.1.1 = port) ops.

Lemma on_port_snoc (port : Z) (ops : list (Z * str * V)) (q : Z) (p : str) (v : V) :
  on_port port (ops ++ [(q, p, v)]) =
    on_port port ops ++ (if decide (q = port) then [(p, v)] else []).
Proof.
  unfold on_port. rewrite filter_app, fmap_app. f_equal.
  rewrite filter_cons, filter_nil. cbn. by case_decide.
Qed.

(** A builder per port, each of which only its own registrations reach. *)
Lemma per_port {B : Type} (new : B) (add : B → str → V → B) (ops : list (Z * str * V)) (port : Z) :
  foldl (λ (m : gmap Z B) (o : Z * str * V),
           <[o.1.1 := add (default new (m !! o.1.1)) o.1.2 o.2]> m) ∅ ops !! port =
    match on_port port ops with
    | [] => None
    | l => Some (foldl (λ b o, add b o.1 o.2) new l)
    end.
Proof.
  induction ops as [|[[q p] v] ops IH] using rev_ind; [apply lookup_empty|].
  rewrite foldl_app, on_port_snoc. cbn [foldl fst snd].
  destruct (decide (q = port)) as [->|Hne].
  - rewrite lookup_insert_eq, IH. destruct (on_port port ops) as [|o l]; [done|].
    cbn [default from_option]. change ((o :: l) ++ [(p, v)]) with (o :: (l ++ [(p, v)])).
    cbn [foldl]. by rewrite foldl_app.
  - by rewrite lookup_insert_ne, IH, app_nil_r.
Qed.

End registrations.
Arguments registered : simpl never.

(** ** Sorting and removal of duplicates *)

Lemma cert_leb_total a b : cert_leb a b = true ∨ cert_leb b a = true.
Proof.
  unfold cert_leb. rewrite (Z.eqb_sym (algo_sort_key (key_algorithm b))).
  destruct (Z.eqb_spec (algo_sort_key (key_algorithm a)) (algo_sort_key (key_algorithm b)));
    cbn; [|rewrite !Z.ltb_lt; lia].
  rewrite (bool_decide_ext (not_after b = not_after a) (not_after a = not_after b)) by done.
  case_bool_decide as Hn; cbn; [apply str_leb_total|].
  destruct (not_after a), (not_after b); cbn; rewrite ?Z.ltb_lt; auto; try done.
  assert (z ≠ z0) by congruence. lia.
Qed.

Lemma cert_leb_trans a b c : cert_leb a b = true → cert_leb b c = true → cert_leb a c = true.
Proof.
  unfold cert_leb.
  destruct (Z.eqb_spec (algo_sort_key (key_algorithm a)) (algo_sort_key (key_algorithm b))),
    (Z.eqb_spec (algo_sort_key (key_algorithm b)) (algo_sort_key (key_algorithm c))),
    (Z.eqb_spec (algo_sort_key (key_algorithm a)) (algo_sort_key (key_algorithm c)));
    cbn; rewrite ?Z.ltb_lt; try lia.
  repeat case_bool_decide; cbn; try congruence; try apply str_leb_trans;
    destruct (not_after a), (not_after b), (not_after c);
    simplify_eq/=; rewrite ?Z.ltb_lt; try done; lia.
Qed.

Lemma same_pem_iff a b : same_pem a b = true ↔ cert_pem a = cert_pem b ∧ key_pem a = key_pem b.
Proof. unfold same_pem. by rewrite andb_true_iff, !bool_decide_eq_true. Qed.

Definition pem (c : TlsCert) : str * str := (cert_pem c, key_pem c).

Lemma same_pem_pem a b : same_pem a b = true ↔ pem a = pem b.
Proof. rewrite same_pem_iff. unfold pem. split; [intros [-> ->]; done|intros [= -> ->]; done]. Qed.

Lemma existsb_pem c l : existsb (λ d, same_pem d c) l = true ↔ pem c ∈ pem <$> l.
Proof.
  rewrite existsb_exists, list_elem_of_fmap. split.
  - intros (d & Hd%list_elem_of_In & Hp%same_pem_pem). eauto.
  - intros (d & Hp & Hd). exists d. by rewrite same_pem_pem, <-list_elem_of_In.
Qed.

Lemma dedup_loop_elem kept rest c : c ∈ dedup_loop kept rest → c ∈ kept ∨ c ∈ rest.
Proof.
  revert kept. induction rest as [|x rest IH]; intros kept; cbn; [auto|].
  rewrite elem_of_cons. case_match; intros [Hc|?]%IH; auto.
  apply elem_of_app in Hc as [?| ->%list_elem_of_singleton]; auto.
Qed.

Lemma dedup_loop_covers kept rest c :
  pem c ∈ pem <$> kept ∨ c ∈ rest → pem c ∈ pem <$> dedup_loop kept rest.
Proof.
  revert kept. induction rest as [|x rest IH]; intros kept; cbn;
    [by intros [?|?%elem_of_nil]|].
  rewrite elem_of_cons. destruct (existsb _ kept) eqn:E; intros [H|[->|H]]; apply IH; auto; left.
  - by apply existsb_pem.
  - rewrite fmap_app, elem_of_app. by left.
  - rewrite fmap_app, elem_of_app. right. by apply list_elem_of_singleton.
Qed.

Lemma dedup_loop_NoDup kept rest : NoDup (pem <$> kept) → NoDup (pem <$> dedup_loop kept rest).
Proof.
  revert kept. induction rest as [|x rest IH]; intros kept Hk; cbn; [done|].
  destruct (existsb _ kept) eqn:E; apply IH; [done|]. rewrite fmap_app, NoDup_app.
  split_and!; [done| |apply NoDup_singleton].
  intros p Hp ->%list_elem_of_singleton. apply existsb_pem in Hp. congruence.
Qed.

(** The order of preference, spelled out: ECDSA before RSA before the rest, then the
    one that expires later, then the smaller source. *)
Definition algorithm_before (a b : KeyAlgorithm) : Prop :=
  (a = Ecdsa ∧ b ≠ Ecdsa) ∨ (a = Rsa ∧ b = OtherAlgorithm).

Definition outlives (a b : option Z) : Prop :=
  ∃ x, a = Some x ∧ ∀ y, b = Some y → (y < x)%Z.

Definition preferred (c d : TlsCert) : Prop :=
  algorithm_before (key_algorithm c) (key_algorithm d) ∨
  key_algorithm c = key_algorithm d ∧
    (outlives (not_after c) (not_after d) ∨
     not_after c = not_after d ∧ str_leb (source c) (source d) = true).

Lemma expiry_ltb_outlives a b : expiry_ltb b a = true → outlives a b.
Proof.
  destruct a as [x|], b as [y|]; cbn; try done; [|by exists x].
  intros ?%Z.ltb_lt. exists x. split; [done|]. by intros ? [= <-].
Qed.

Lemma cert_leb_preferred c d : cert_leb c d → preferred c d.
Proof.
  rewrite Is_true_true.
  unfold cert_leb, preferred, algorithm_before.
  destruct (key_algorithm c), (key_algorithm d); cbn; try done; try (intros; by left; auto);
    (case_bool_decide; cbn; [by auto|]); intros ?%expiry_ltb_outlives; auto.
Qed.

Lemma StronglySorted_impl {A} (R S : A → A → Prop) l :
  (∀ a b, R a b → S a b) → StronglySorted R l → StronglySorted S l.
Proof. intros HRS. induction 1; constructor; [done|]. by eapply List.Forall_impl; [|done]; auto. Qed.

(** What a built store keeps of the certificates of one pattern: one of each PEM pair,
    the preferred first. *)
Lemma prepare_spec l :
  (∀ c, c ∈ prepare l → c ∈ l) ∧
  (∀ c, c ∈ l → ∃ d, d ∈ prepare l ∧ same_pem d c = true) ∧
  NoDup (pem <$> prepare l) ∧ StronglySorted preferred (prepare l).
Proof.
  unfold prepare, sort_cert_vec, dedup_cert_vec. split_and!.
  - intros c Hc. rewrite elem_of_sort_by in Hc. by apply dedup_loop_elem in Hc as [?%elem_of_nil|?].
  - intros c Hc. assert (pem c ∈ pem <$> dedup_loop [] l) as (d & Hd & Hin)%list_elem_of_fmap
      by (apply dedup_loop_covers; auto).
    exists d. by rewrite elem_of_sort_by, same_pem_pem.
  - rewrite sort_by_perm. apply dedup_loop_NoDup, NoDup_nil_2.
  - eapply StronglySorted_impl; [apply cert_leb_preferred|].
    apply sort_by_sorted; [apply cert_leb_total|apply cert_leb_trans].
Qed.

(** ** Lookup of certificates *)

Definition registered_certs (ops : list (str * TlsCert)) : TlsStoreBuilder :=
  foldl (λ b o, add_cert b o.1 o.2) TlsStoreBuilder_new ops.

Lemma push_at_lookup k c m k' :
  push_at k c m !! k' = if decide (k = k') then Some (default [] (m !! k) ++ [c]) else m !! k'.
Proof. unfold push_at. case_decide as Hk; subst; [apply lookup_insert_eq|by apply lookup_insert_ne]. Qed.

Lemma registered_certs_spec ops :
  (∀ h, tb_exact (registered_certs ops) !! h = nonempty (registered (BExact h) ops)) ∧
  (∀ s, tb_wildcard (registered_certs ops) !! s = nonempty (registered (BWildcard s) ops)) ∧
  tb_default (registered_certs ops) = registered BDefault ops.
Proof.
  unfold registered_certs. induction ops as [|[p c] ops (IHe & IHw & IHd)] using rev_ind.
  { split_and!; [intros; apply lookup_empty..|done]. }
  rewrite foldl_app. cbn [foldl fst snd]. set (b := foldl _ _ ops) in *. unfold add_cert.
  destruct (bucket_of p) as [|s|h] eqn:Hp; cbn [tb_exact tb_wildcard tb_default];
    (split_and!; [intros k|intros k|]); rewrite ?push_at_lookup, registered_snoc, Hp, ?IHe, ?IHw, ?IHd;
    repeat case_decide; simplify_eq; by rewrite ?app_nil_r, ?default_nonempty, ?nonempty_snoc.
Qed.

Section lookup.
Context `{HashIter}.

Lemma find_certs_governing ops sni :
  find_certs (tls_build (registered_certs ops)) sni = prepare (governing ops sni).
Proof.
  destruct (registered_certs_spec ops) as (He & Hw & Hd).
  unfold find_certs, tls_build, governing. cbn [ts_exact ts_wildcard ts_default].
  rewrite lookup_fmap, He. destruct (registered (BExact sni) ops) as [|x l]; [|done]. cbn [nonempty fmap].
  rewrite (find_wildcard _ (prepare <$> tb_wildcard (registered_certs ops))).
  2:{ intros k v. rewrite elem_of_sort_by, list_elem_of_fmap, lookup_fmap, fmap_Some. split.
      - intros ([k' v'] & [= -> ->] & Hin). exists v'. by rewrite hash_iter_elem in Hin.
      - intros (v' & Hk & ->). exists (k, v'). by rewrite hash_iter_elem. }
  destruct (parent sni) as [s|]; cbn; [|by rewrite Hd].
  rewrite lookup_fmap, Hw. destruct (registered (BWildcard s) ops); cbn; [by rewrite Hd|done].
Qed.

(** Whether a name has a certificate of its own, and then one is served for it. *)
Lemma has_specific_cert_iff ops sni :
  has_specific_cert (tls_build (registered_certs ops)) sni = true ↔
    registered (BExact sni) ops ≠ [] ∨ ∃ s, parent sni = Some s ∧ registered (BWildcard s) ops ≠ [].
Proof.
  destruct (registered_certs_spec ops) as (He & Hw & _).
  assert (∀ l, prepare l = [] ↔ l = []) as Hnil.
  { intros l. unfold prepare, sort_cert_vec, dedup_cert_vec. rewrite sort_by_nil. split; [|by intros ->].
    destruct l as [|c l]; [done|]. intros E.
    assert (pem c ∈ pem <$> dedup_loop [] (c :: l)) as Hin
      by (apply dedup_loop_covers; right; apply elem_of_cons; auto).
    rewrite E in Hin. by apply elem_of_nil in Hin. }
  unfold has_specific_cert. rewrite orb_true_iff. apply Morphisms_Prop.or_iff_morphism.
  - unfold tls_build. cbn [ts_exact]. rewrite lookup_fmap, He.
    destruct (registered (BExact sni) ops) as [|c l]; cbn [nonempty fmap option_fmap option_map]; [by split; [|intros []]|].
    destruct (prepare (c :: l)) eqn:E; [by apply (proj1 (Hnil _)) in E|]. by split.
  - rewrite existsb_exists. setoid_rewrite <-list_elem_of_In.
    unfold tls_build. cbn [ts_wildcard]. setoid_rewrite elem_of_sort_by.
    setoid_rewrite list_elem_of_fmap. split.
    + intros (? & ([s l] & -> & Hin) & [Hne Hm]%andb_true_iff). apply sni_wildcard_iff in Hm.
      exists s. split; [done|]. apply hash_iter_elem in Hin. rewrite Hw in Hin.
      by destruct (registered (BWildcard s) ops).
    + intros (s & Hp & Hne). exists (s, prepare (registered (BWildcard s) ops)).
      split; [exists (s, registered (BWildcard s) ops); split; [done|]|].
      * apply hash_iter_elem. rewrite Hw. by destruct (registered (BWildcard s) ops).
      * cbn. rewrite (proj2 (sni_wildcard_iff _ _) Hp), bool_decide_eq_false_2; [done|].
        by rewrite Hnil.
Qed.

Lemma port_tls_lookup (ops : list (Z * str * TlsCert)) (port : Z) :
  port_tls_build (foldl (λ b o, port_add_cert b o.1.1 o.1.2 o.2) ∅ ops) !! port =
    match on_port port ops with [] => None | l => Some (tls_build (registered_certs l)) end.
Proof.
  unfold port_tls_build, port_add_cert, PortTlsStore, PortTlsStoreBuilder. rewrite lookup_fmap.
  rewrite (per_port TlsStoreBuilder_new add_cert ops port). by destruct (on_port port ops).
Qed.

(** C31: Certificates are selected by port and name, and by nothing else.  Whatever was
    registered and in whatever order the maps are iterated, the certificates served
    for a name on a port are one of each PEM pair among those that govern the name on
    that port (exact, else the one-label wildcard, else the default), ordered by
    algorithm, expiry and source.  Registrations for other ports, so other Gateways,
    never show. *)
Theorem cert_selection (ops : list (Z * str * TlsCert)) (port : Z) (sni : str) :
  let store := port_tls_build (foldl (λ b o, port_add_cert b o.1.1 o.1.2 o.2) ∅ ops) !! port in
  let certs := match store with Some s => find_certs s sni | None => [] end in
  let eligible := governing (on_port port ops) sni in
  (∀ c, c ∈ certs → c ∈ eligible) ∧
  (∀ c, c ∈ eligible → ∃ d, d ∈ certs ∧ same_pem d c = true) ∧
  NoDup (pem <$> certs) ∧ StronglySorted preferred certs.
Proof.
  intros store certs eligible.
  assert (certs = prepare eligible) as ->; [|apply prepare_spec].
  unfold certs, store, eligible. rewrite port_tls_lookup.
  destruct (on_port port ops) as [|o l]; [|apply find_certs_governing].
  unfold governing. cbn. by destruct (parent sni).
Qed.

(** ** Lookup of client-certificate policies *)

Lemma pattern_map_spec {V} (ops : list (str * V)) :
  let b := foldl (λ b o, bucket_add b o.1 o.2) PatternMap_new ops in
  (∀ h, pm_exact b !! h = last (registered (BExact h) ops)) ∧
  (∀ s, pm_wildcard b !! s = last (registered (BWildcard s) ops)) ∧
  pm_default b = last (registered BDefault ops).
Proof.
  induction ops as [|[p c] ops (IHe & IHw & IHd)] using rev_ind.
  { split_and!; [intros; apply lookup_empty..|done]. }
  rewrite foldl_app. cbn [foldl fst snd]. set (b := foldl _ _ ops) in *. unfold bucket_add.
  destruct (bucket_of p) as [|s|h] eqn:Hp; cbn [pm_exact pm_wildcard pm_default];
    (split_and!; [intros k|intros k|]); rewrite registered_snoc, Hp;
    repeat case_decide; simplify_eq; rewrite ?app_nil_r, ?last_snoc, ?lookup_insert_eq; try done;
    rewrite lookup_insert_ne by congruence; done.
Qed.

(** The policy of a name on a port is the last one registered among those that govern
    it there. *)
Lemma find_config_governing (ops : list (Z * str * ClientCertConfigState)) (port : Z) (sni : str) :
  find_config (client_cert_build (foldl (λ b o, add_client_cert b o.1.1 o.1.2 o.2) ∅ ops)) port sni =
    last (governing (on_port port ops) sni).
Proof.
  unfold find_config, client_cert_build, add_client_cert, ClientCertStore, ClientCertStoreBuilder,
    HostConfigsBuilder.
  rewrite lookup_fmap.
  rewrite (per_port PatternMap_new bucket_add ops port).
  destruct (on_port port ops) as [|o l] eqn:E.
  { unfold governing. cbn. by destruct (parent sni). }
  rewrite <-E. clear E o l. destruct (pattern_map_spec (on_port port ops)) as (He & Hw & Hd).
  set (b := foldl _ PatternMap_new _) in *.
  cbn [fmap option_fmap option_map mbind option_bind].
  unfold host_find_config, host_configs_build, governing. cbn [hc_exact hc_wildcard hc_default].
  rewrite He. destruct (registered (BExact sni) _) as [|x l] eqn:Ee.
  2:{ rewrite last_cons. by destruct (last l). }
  cbn [last]. rewrite (find_wildcard _ (pm_wildcard b)).
  2:{ intros k v. by rewrite elem_of_sort_by, hash_iter_elem. }
  destruct (parent sni) as [s|]; cbn; [|by rewrite Hd]. rewrite Hw.
  destruct (registered (BWildcard s) _) as [|x l]; [cbn; by rewrite Hd|].
  rewrite last_cons. by destruct (last l).
Qed.

End lookup.

(** ** Resolution of listeners *)

Lemma bucket_of_wildcard p s : bucket_of p = BWildcard s ↔ p = lit "*." ++ s.
Proof.
  unfold bucket_of. split.
  - destruct (_ || _); [done|]. destruct (strip_prefix _ p) eqn:E; [|done].
    intros [= <-]. by apply strip_prefix_Some in E.
  - intros ->. rewrite !bool_decide_eq_false_2 by done. cbn [orb].
    by rewrite (proj2 (strip_prefix_Some (lit "*.") _ s)).
Qed.

Lemma bucket_of_exact p h : bucket_of p = BExact h → p = h ∧ strip_prefix (lit "*.") p = None.
Proof.
  unfold bucket_of. destruct (_ || _); [done|]. destruct (strip_prefix _ p) eqn:E; [done|].
  by intros [= <-].
Qed.

(** The hostnames of a port's HTTPS listeners. *)
Definition https_hostnames (port : Z) (ops : list (Z * str * bool)) : list str :=
  (filter (λ o : str * bool, o.2 = true) (on_port port ops)).*1.

Definition is_catch_all (h : str) : bool := bool_decide (bucket_of h = BDefault).

Lemma is_catch_all_spec h :
  is_catch_all h = bool_decide (h = []) || bool_decide (h = lit "*").
Proof.
  unfold is_catch_all, bucket_of. destruct (_ || _); [done|].
  by destruct (strip_prefix (lit "*.") h).
Qed.

Definition listeners_of (ops : list (Z * str * bool)) : ListenerHostnamesBuilder :=
  foldl (λ b o, add_listener b o.1.1 o.1.2 o.2) ∅ ops.

(** The patterns of a port and whether it has a listener for every name. *)
Definition port_entry (names : list str) : list str * bool :=
  (filter (λ h, is_catch_all h = false) names, existsb is_catch_all names).

Lemma port_entry_snoc names h :
  port_entry (names ++ [h]) =
    if is_catch_all h then ((port_entry names).1, true)
    else ((port_entry names).1 ++ [h], (port_entry names).2).
Proof.
  unfold port_entry. cbn [fst snd]. rewrite filter_app, existsb_app, filter_cons, filter_nil.
  cbn [existsb]. destruct (is_catch_all h) eqn:E; case_decide; try congruence;
    by rewrite ?orb_true_r, ?orb_false_r, ?app_nil_r.
Qed.

Lemma listeners_of_spec (ops : list (Z * str * bool)) (port : Z) :
  listeners_of ops !! port = port_entry <$> nonempty (https_hostnames port ops).
Proof.
  induction ops as [|[[q h] https] ops IH] using rev_ind; [apply lookup_empty|].
  assert (https_hostnames port (ops ++ [(q, h, https)]) =
    https_hostnames port ops ++ (if decide (q = port) then if https then [h] else [] else [])) as ->.
  { unfold https_hostnames. rewrite on_port_snoc, filter_app, fmap_app. f_equal.
    case_decide; [|done]. rewrite filter_cons, filter_nil. by destruct https. }
  unfold listeners_of in *. rewrite foldl_app. cbn [foldl fst snd]. set (b := foldl _ _ ops) in *.
  unfold add_listener, ListenerHostnamesBuilder in *. rewrite <-is_catch_all_spec.
  destruct https; cbn [negb]; [|rewrite IH; case_decide; by rewrite app_nil_r].
  destruct (decide (q = port)) as [->|Hne].
  - rewrite IH. set (l := https_hostnames port ops).
    assert (default ([], false) (port_entry <$> nonempty l) = port_entry l) as -> by by destruct l.
    rewrite nonempty_snoc. cbn [fmap option_fmap option_map]. rewrite port_entry_snoc. destruct (port_entry l) as [ps ma].
    by destruct (is_catch_all h); rewrite lookup_insert_eq.
  - rewrite app_nil_r, <-IH. destruct (default _ _) as [ps ma].
    by destruct (is_catch_all h); rewrite lookup_insert_ne.
Qed.

(** The listener of a name: its own, else the wildcard's, else the one for every name. *)
Definition listener_for (names : list str) (host : str) : option ListenerId :=
  let bs := bucket_of <$> names in
  if decide (BExact host ∈ bs) then Some (LPattern host)
  else
    let fallback := if decide (BDefault ∈ bs) then Some LMatchAll else None in
    match parent host with
    | Some s => if decide (BWildcard s ∈ bs) then Some (LPattern (lit "*." ++ s)) else fallback
    | None => fallback
    end.

Lemma listener_pattern_matches_iff host p :
  is_catch_all p = false →
  listener_pattern_matches host p = true ↔
    bucket_of p = BExact host ∨ ∃ s, parent host = Some s ∧ bucket_of p = BWildcard s.
Proof.
  intros Hc. unfold is_catch_all in Hc. apply bool_decide_eq_false in Hc.
  unfold listener_pattern_matches. destruct (bucket_of p) as [|s|h] eqn:E; [done| |].
  - apply bucket_of_wildcard in E as ->. rewrite (proj2 (strip_prefix_Some (lit "*.") _ s)) by done.
    rewrite sni_wildcard_iff. split; [eauto|]. intros [?|(s' & ? & [= <-])]; congruence.
  - apply bucket_of_exact in E as [-> ->]. rewrite bool_decide_eq_true.
    split; [intros ->; auto|]. intros [[= ->]|(? & _ & ?)]; congruence.
Qed.

Lemma existsb_catch_all names : existsb is_catch_all names = bool_decide (BDefault ∈ bucket_of <$> names).
Proof.
  apply eq_bool_prop_intro. rewrite !Is_true_true, existsb_exists, bool_decide_eq_true, list_elem_of_fmap.
  setoid_rewrite <-list_elem_of_In. unfold is_catch_all. setoid_rewrite bool_decide_eq_true. naive_solver.
Qed.

Lemma more_specific_total a b : more_specific a b = true ∨ more_specific b a = true.
Proof. unfold more_specific. rewrite !Z.leb_le. lia. Qed.

Lemma more_specific_trans a b c :
  more_specific a b = true → more_specific b c = true → more_specific a c = true.
Proof. unfold more_specific. rewrite !Z.leb_le. lia. Qed.

Lemma parent_length name s : parent name = Some s → length s < length name.
Proof. intros (l & -> & _)%parent_Some. rewrite length_app. cbn. lia. Qed.

(** An exact listener sorts before every wildcard that covers it. *)
Lemma exact_listener_first names host p :
  (Z.of_nat (length host) ≤ u64_max)%Z →
  BExact host ∈ bucket_of <$> names →
  find_first (listener_pattern_matches host)
    (sort_by more_specific (filter (λ h, is_catch_all h = false) names)) = Some p →
  p = host.
Proof.
  intros Hlen (q & Hq & Hin)%list_elem_of_fmap Hf. symmetry in Hq.
  destruct (bucket_of_exact _ _ Hq) as [-> Hpre].
  assert (is_catch_all host = false) as Hc by (unfold is_catch_all; by rewrite Hq).
  assert (more_specific p host = true) as Hs.
  { eapply (find_first_sort_least more_specific more_specific_total more_specific_trans); [done| |].
    - by apply list_elem_of_filter.
    - apply listener_pattern_matches_iff; auto. }
  apply find_first_elem in Hf as [Hp Hm]. rewrite elem_of_sort_by, list_elem_of_filter in Hp.
  destruct Hp as [Hpc _]. apply listener_pattern_matches_iff in Hm as [E|(s & Hs' & E)]; [|exfalso|done].
  - by apply bucket_of_exact in E as [-> _].
  - apply bucket_of_wildcard in E as ->. apply parent_length in Hs'.
    unfold more_specific, listener_specificity in Hs. rewrite Hpre in Hs.
    rewrite (proj2 (strip_prefix_Some (lit "*.") _ s)) in Hs by done. apply Z.leb_le in Hs. lia.
Qed.

Lemma resolve_in_spec names host :
  (Z.of_nat (length host) ≤ u64_max)%Z →
  resolve_in (mkPortListeners (sort_by more_specific (port_entry names).1) (port_entry names).2) host =
    listener_for names host.
Proof.
  intros Hlen. unfold resolve_in, listener_for, port_entry. cbn [pl_patterns has_match_all fst snd].
  rewrite existsb_catch_all. destruct (find_first _ _) as [p|] eqn:E.
  - destruct (decide (BExact host ∈ _)) as [Hex|Hex]; [by rewrite (exact_listener_first _ _ _ Hlen Hex E)|].
    apply find_first_elem in E as [Hp Hm]. rewrite elem_of_sort_by, list_elem_of_filter in Hp.
    destruct Hp as [Hc Hin]. apply listener_pattern_matches_iff in Hm as [E|(s & -> & E)]; [| |done].
    + destruct Hex. apply list_elem_of_fmap. eauto.
    + rewrite decide_True by (apply list_elem_of_fmap; eauto). by apply bucket_of_wildcard in E as ->.
  - apply find_first_None in E. rewrite Forall_forall in E.
    assert (∀ q, q ∈ names → bucket_of q = BExact host ∨
      (∃ s, parent host = Some s ∧ bucket_of q = BWildcard s) → False) as Hno.
    { intros q Hq Hb. assert (is_catch_all q = false) as Hc.
      { unfold is_catch_all. apply bool_decide_eq_false. destruct Hb as [->|(s & _ & ->)]; done. }
      apply (listener_pattern_matches_iff host q Hc) in Hb.
      rewrite (E q) in Hb; [done|]. rewrite elem_of_sort_by. by apply list_elem_of_filter. }
    rewrite decide_False by (intros (q & ? & ?)%list_elem_of_fmap; eauto).
    assert ((if bool_decide (BDefault ∈ bucket_of <$> names) then Some LMatchAll else None) =
      (if decide (BDefault ∈ bucket_of <$> names) then Some LMatchAll else None)) as ->
      by by destruct (decide _); [rewrite bool_decide_eq_true_2|rewrite bool_decide_eq_false_2].
    destruct (parent host) as [s|]; [|done].
    rewrite (decide_False (P := BWildcard s ∈ _)); [done|].
    intros (q & Hq & ?)%list_elem_of_fmap. eapply Hno; eauto.
Qed.

Lemma resolve_spec (ops : list (Z * str * bool)) (port : Z) (host : str) :
  (Z.of_nat (length host) ≤ u64_max)%Z →
  resolve (listener_build (listeners_of ops)) port host =
    listener_for (https_hostnames port ops) host.
Proof.
  intros Hlen. unfold resolve, listener_build, ListenerHostnames, ListenerHostnamesBuilder.
  rewrite lookup_fmap. pose proof (listeners_of_spec ops port) as E.
  unfold ListenerHostnamesBuilder in E. rewrite E.
  destruct (https_hostnames port ops) as [|h l]; cbn [nonempty fmap option_fmap option_map mbind option_bind].
  - unfold listener_for. cbn. destruct (parent host); done.
  - rewrite <-resolve_in_spec by done. by destruct (port_entry (h :: l)).
Qed.

(** A policy is registered for a bucket only when a listener is. *)
Lemma registered_without_listener {V} (ops : list (str * V)) (names : list str) b :
  (∀ h v, (h, v) ∈ ops → bucket_of h ∈ bucket_of <$> names) →
  b ∉ bucket_of <$> names → registered b ops = [].
Proof.
  intros Hops Hb. unfold registered.
  destruct (filter _ ops) as [|[h v] l] eqn:E; [done|]. exfalso. apply Hb.
  assert ((h, v) ∈ filter (λ o : str * V, bucket_of o.1 = b) ops) as [<- Hin]%list_elem_of_filter
    by (rewrite E; apply elem_of_cons; auto).
  eauto.
Qed.

(** Names of one listener are governed by the same policies. *)
Lemma same_listener_same_policy {V} (ops : list (str * V)) (names : list str) (a b : str) :
  (∀ h v, (h, v) ∈ ops → bucket_of h ∈ bucket_of <$> names) →
  listener_for names a = listener_for names b →
  governing ops a = governing ops b.
Proof.
  intros Hops.
  assert (∀ h, BExact h ∈ bucket_of <$> names → bucket_of h = BExact h) as Hself.
  { intros h (q & Hq & _)%list_elem_of_fmap. by destruct (bucket_of_exact q h) as [-> _]. }
  assert (∀ s, bucket_of ("*"%char :: "."%char :: s) = BWildcard s) as Hwild
    by (intros; by apply bucket_of_wildcard).
  assert (∀ n, BExact n ∉ bucket_of <$> names → registered (BExact n) ops = []) as Hno
    by (intros; by eapply registered_without_listener).
  unfold listener_for, governing.
  destruct (decide (BExact a ∈ _)) as [Ha|Ha], (decide (BExact b ∈ _)) as [Hb|Hb].
  - by intros [= ->].
  - destruct (parent b) as [s|]; repeat case_decide; try done.
    intros [= ->]. apply Hself in Ha. by rewrite Hwild in Ha.
  - destruct (parent a) as [s|]; repeat case_decide; try done.
    intros [= <-]. apply Hself in Hb. by rewrite Hwild in Hb.
  - rewrite !Hno by done.
    assert (∀ s, BWildcard s ∉ bucket_of <$> names → registered (BWildcard s) ops = []) as Hw
      by (intros; by eapply registered_without_listener).
    destruct (parent a) as [s|], (parent b) as [t|]; repeat case_decide; try done;
      rewrite ?Hw by done; try done; by intros [= ->].
Qed.

(** ** Where order shows *)

Module TlsDemo.
Definition cert (body src : str) : TlsCert := TlsCert_new body (lit "key") src.
(** One PEM pair held by two secrets, and another pair. *)
Definition held_b : TlsCert := cert (lit "P") (lit "ns/b").
Definition held_z : TlsCert := cert (lit "P") (lit "ns/z").
Definition other : TlsCert := cert (lit "Q") (lit "ns/m").
Definition host : str := lit "app.example.com".
Definition two_wildcards : TlsStoreBuilder :=
  registered_certs [(lit "*.a.com", other); (lit "*.b.com", other)].
End TlsDemo.

(** The order of registration within a pattern can decide which certificate is served:
    of two secrets with one PEM pair the first registered is kept, and its source takes
    part in the sort. *)
Theorem cert_order_observable `{HashIter} :
  let serve cs := cert_pem <$>
    find_cert (tls_build (registered_certs ((λ c, (TlsDemo.host, c)) <$> cs))) TlsDemo.host in
  serve [TlsDemo.held_b; TlsDemo.held_z; TlsDemo.other] = Some (lit "P") ∧
  serve [TlsDemo.held_z; TlsDemo.held_b; TlsDemo.other] = Some (lit "Q").
Proof.
  intros serve. unfold serve, find_cert. rewrite !find_certs_governing.
  split; vm_compute; reflexivity.
Qed.

(** Two builds of the same registrations may compare as different: the wildcards of one
    length keep the order of the map's iteration, which the equality of stores sees.
    Lookups agree nevertheless. *)
Theorem equal_builds_differ :
  let s := @tls_build list_order TlsDemo.two_wildcards in
  let t := @tls_build reverse_order TlsDemo.two_wildcards in
  TlsStore_eqb s t = false ∧ ∀ sni, find_certs s sni = find_certs t sni.
Proof.
  split; [by vm_compute|]. intros sni. unfold TlsDemo.two_wildcards.
  by rewrite !find_certs_governing.
Qed.
