(* ===== verification/Layer4.v ===== *)
(** * Layer-4 routing and the dispatch of TLS connections

    Models [passthrough.rs], [tcp.rs] and [udp.rs] of
    [crates/coxswain-core/src/routing] (the tables for TLS passthrough and terminate
    routes, TCP and UDP) and the decision of [dispatch_tls_l4] in
    [crates/coxswain-proxy/src/edge/accept.rs] for a connection whose server name
    has been read.  A backend group is any type [G]. *)

From S2P Require Import Prelude PathNormalize Net Backend External Config Filters Entry.
From S2P Require Import HostRouter Tls TlsFacts.

Section layer4.
Context {G : Type} `{HashIter}.

(** ** Server-name routers *)

Record SniRouter := mkSniRouter {
  sr_exact : gmap str G;
  sr_wildcard : list (str * G);
  sr_catchall : option G;
}.

Definition TlsPassthroughTable : Type := gmap Z SniRouter.

Definition match_sni (r : SniRouter) (sni : option str) : option G :=
  let fallback := sr_catchall r in
  match sni with
  | None => fallback
  | Some sni =>
      match sr_exact r !! sni with
      | Some g => Some g
      | None =>
          match find_first (λ w, wildcard_matches sni w.1 MultiLabel) (sr_wildcard r) with
          | Some (_, g) => Some g
          | None => fallback
          end
      end
  end.

Definition SniRouterBuilder : Type := PatternMap G.
Definition TlsPassthroughTableBuilder : Type := gmap Z SniRouterBuilder.

Definition passthrough_add_route (b : TlsPassthroughTableBuilder) (port : Z) (hostname_pattern : str)
    (backend : G) : TlsPassthroughTableBuilder :=
  <[port := bucket_add (default PatternMap_new (b !! port)) hostname_pattern backend]> b.

(** [b.len().cmp(&a.len()).then_with(|| a.cmp(b))] is not [Greater]. *)
Definition suffix_leb (a b : str * G) : bool :=
  if negb (length a.1 =? length b.1) then length b.1 <? length a.1 else str_leb a.1 b.1.

Definition sni_router_build (b : SniRouterBuilder) : SniRouter :=
  mkSniRouter (pm_exact b) (sort_by suffix_leb (hash_iter (pm_wildcard b))) (pm_default b).

Definition passthrough_build (b : TlsPassthroughTableBuilder) : TlsPassthroughTable :=
  sni_router_build <$> b.

(** ** TCP and UDP *)

Definition TcpRouteTable : Type := gmap Z G.
Definition tcp_add_route (t : TcpRouteTable) (port : Z) (backend : G) : TcpRouteTable :=
  <[port := backend]> t.

Definition UdpRouteTable : Type := gmap Z G.
Definition udp_add_route (t : UdpRouteTable) (port : Z) (backend : G) : UdpRouteTable :=
  <[port := backend]> t.

(** ** Dispatch *)

(** [SniCertSelector::has_cert_for] on the selector of a port. *)
Definition has_cert_for (tls : PortTlsStore) (port : Z) (sni : option str) : bool :=
  match sni with
  | None => false
  | Some s => match tls !! port with Some store => has_specific_cert store s | None => false end
  end.

Inductive Dispatch :=
| Passthrough (backend : G)
| Terminate (backend : G)
| Https
| Dropped.

(** [peeked] is the outcome of [peek_sni]. *)
Definition dispatch_tls_l4 (passthrough terminate : TlsPassthroughTable) (tls : PortTlsStore)
    (port : Z) (peeked : result (option str) unit) (allow_https_fallthrough : bool) : Dispatch :=
  match peeked with
  | Err _ => Dropped
  | Ok sni =>
      match (r ← passthrough !! port; match_sni r sni) with
      | Some backend => Passthrough backend
      | None =>
          match (r ← terminate !! port; match_sni r sni) with
          | Some backend => Terminate backend
          | None =>
              if allow_https_fallthrough then
                if has_cert_for tls port sni then Https else Dropped
              else Dropped
          end
      end
  end.

(** ** What a router serves *)

Definition multi_suffix (sni s : str) : Prop := ∃ p, sni = p ++ dot :: s ∧ p ≠ [].

(** The route of a server name, in terms of the registrations: the exact one, else that
    of the longest registered suffix below which the name lies, else the catch-all. *)
Definition sni_route (ops : list (str * G)) (sni : option str) (g : option G) : Prop :=
  match sni with
  | None => g = last (registered BDefault ops)
  | Some sni =>
      (registered (BExact sni) ops ≠ [] ∧ g = last (registered (BExact sni) ops)) ∨
      (registered (BExact sni) ops = [] ∧
        ((∃ s, registered (BWildcard s) ops ≠ [] ∧ multi_suffix sni s ∧
           (∀ s', registered (BWildcard s') ops ≠ [] → multi_suffix sni s' → length s' ≤ length s) ∧
           g = last (registered (BWildcard s) ops)) ∨
         ((∀ s, registered (BWildcard s) ops ≠ [] → ¬ multi_suffix sni s) ∧
           g = last (registered BDefault ops))))
  end.

Lemma multi_suffix_matches sni s : wildcard_matches sni s MultiLabel = true ↔ multi_suffix sni s.
Proof.
  unfold wildcard_matches, multi_suffix. split.
  - destruct (strip_suffix s sni) as [rest|] eqn:E1; [|done].
    destruct (strip_suffix (lit ".") rest) as [p|] eqn:E2; [|done].
    apply strip_suffix_Some in E1 as ->. apply strip_suffix_Some in E2 as ->.
    destruct p as [|c p]; [done|]. intros _. exists (c :: p). by rewrite <-app_assoc.
  - intros (p & -> & Hp).
    rewrite (proj2 (strip_suffix_Some s (p ++ dot :: s) (p ++ lit "."))) by by rewrite <-app_assoc.
    rewrite (proj2 (strip_suffix_Some (lit ".") (p ++ lit ".") p)) by done. by destruct p.
Qed.

Lemma suffix_leb_total a b : suffix_leb a b = true ∨ suffix_leb b a = true.
Proof.
  unfold suffix_leb. rewrite (Nat.eqb_sym (length b.1)).
  destruct (Nat.eqb_spec (length a.1) (length b.1)); cbn [negb]; [apply str_leb_total|].
  rewrite !Nat.ltb_lt. lia.
Qed.

Lemma suffix_leb_trans a b c : suffix_leb a b = true → suffix_leb b c = true → suffix_leb a c = true.
Proof.
  unfold suffix_leb.
  destruct (Nat.eqb_spec (length a.1) (length b.1)), (Nat.eqb_spec (length b.1) (length c.1)),
    (Nat.eqb_spec (length a.1) (length c.1)); cbn [negb]; rewrite ?Nat.ltb_lt; try lia.
  apply str_leb_trans.
Qed.

Lemma suffix_leb_length a b : suffix_leb a b = true → length b.1 ≤ length a.1.
Proof.
  unfold suffix_leb. destruct (Nat.eqb_spec (length a.1) (length b.1)); cbn [negb]; [lia|].
  rewrite Nat.ltb_lt. lia.
Qed.

Lemma match_sni_route ops sni :
  sni_route ops sni
    (match_sni (sni_router_build (foldl (λ b o, bucket_add b o.1 o.2) PatternMap_new ops)) sni).
Proof.
  destruct (pattern_map_spec ops) as (He & Hw & Hd). set (b := foldl _ PatternMap_new ops) in *.
  unfold match_sni, sni_router_build. cbn [sr_exact sr_wildcard sr_catchall].
  destruct sni as [sni|]; [|exact Hd]. unfold sni_route.
  assert (∀ l : list G, l ≠ [] ↔ is_Some (last l)) as Hlast.
  { intros l. destruct l as [|x l] using rev_ind; [by split; [|intros []]|].
    rewrite last_snoc. split; [eauto|]. by destruct l. }
  rewrite He. destruct (last (registered (BExact sni) ops)) as [g|] eqn:E.
  { left. split; [|done]. apply Hlast. eauto. }
  right. split; [by apply last_None|].
  destruct (find_first _ _) as [[s g]|] eqn:F.
  - left. pose proof (find_first_elem _ _ _ F) as [Hin Hm]. exists s.
    rewrite elem_of_sort_by, hash_iter_elem, Hw in Hin. split_and!.
    + apply Hlast. eauto.
    + by apply multi_suffix_matches.
    + intros s' [g' Hg']%Hlast Hm'. rewrite <-Hw in Hg'.
      apply (suffix_leb_length (s, g) (s', g')).
      eapply (find_first_sort_least suffix_leb suffix_leb_total suffix_leb_trans); [done| |].
      * by apply hash_iter_elem.
      * by apply multi_suffix_matches.
    + done.
  - right. split; [|exact Hd]. apply find_first_None in F. rewrite Forall_forall in F.
    intros s [g Hg]%Hlast Hm. rewrite <-Hw in Hg. apply multi_suffix_matches in Hm.
    assert ((s, g) ∈ sort_by suffix_leb (hash_iter (pm_wildcard b))) as Hin
      by by rewrite elem_of_sort_by, hash_iter_elem.
    specialize (F _ Hin). cbn in F. congruence.
Qed.

Definition passthrough_of (ops : list (Z * str * G)) : TlsPassthroughTable :=
  passthrough_build (foldl (λ b o, passthrough_add_route b o.1.1 o.1.2 o.2) ∅ ops).

Definition certs_of (ops : list (Z * str * TlsCert)) : PortTlsStore :=
  port_tls_build (foldl (λ b o, port_add_cert b o.1.1 o.1.2 o.2) ∅ ops).

Lemma passthrough_route ops port sni :
  sni_route (on_port port ops) sni (r ← passthrough_of ops !! port; match_sni r sni).
Proof.
  unfold passthrough_of, passthrough_build, passthrough_add_route.
  unfold TlsPassthroughTable, TlsPassthroughTableBuilder, SniRouterBuilder.
  rewrite lookup_fmap, (per_port PatternMap_new bucket_add ops port).
  destruct (on_port port ops) as [|o l]; cbn [fmap option_fmap option_map mbind option_bind].
  - destruct sni as [sni|]; [|done]. right. split; [done|]. right. by split.
  - apply match_sni_route.
Qed.

(** A connection handed to HTTPS on a shared port is served a certificate registered for
    its name, exactly or by wildcard. *)
Lemma specific_cert_served (ops : list (Z * str * TlsCert)) port sni :
  has_cert_for (certs_of ops) port sni = true →
  ∃ name store c, sni = Some name ∧ certs_of ops !! port = Some store ∧
    find_cert store name = Some c ∧
    (c ∈ registered (BExact name) (on_port port ops) ∨
     ∃ s, parent name = Some s ∧ c ∈ registered (BWildcard s) (on_port port ops)).
Proof.
  unfold has_cert_for. destruct sni as [name|]; [|done]. unfold certs_of. rewrite port_tls_lookup.
  destruct (on_port port ops) as [|o l]; [done|]. set (os := o :: l).
  rewrite has_specific_cert_iff. intros Hs. exists name, (tls_build (registered_certs os)).
  unfold find_cert. rewrite find_certs_governing.
  assert (governing os name ≠ [] ∧ ∀ c, c ∈ governing os name →
    c ∈ registered (BExact name) os ∨ ∃ s, parent name = Some s ∧ c ∈ registered (BWildcard s) os)
    as [Hne Hg].
  { unfold governing. destruct (registered (BExact name) os) as [|x xs] eqn:E; [|by auto].
    destruct Hs as [?|(s & Hp & Hw)]; [done|]. rewrite Hp.
    destruct (registered (BWildcard s) os) eqn:E2; [done|]. split; [done|].
    intros c Hc. right. exists s. by rewrite E2. }
  destruct (prepare_spec (governing os name)) as (Hin & Hcov & _).
  destruct (prepare (governing os name)) as [|c cs].
  - exfalso. destruct (governing os name) as [|x xs]; [done|].
    destruct (Hcov x) as (d & Hd & _); [apply elem_of_cons; auto|]. by apply elem_of_nil in Hd.
  - exists c. split_and!; [done|done|done|]. apply Hg, Hin, elem_of_cons. auto.
Qed.

(** A certificate is registered on the port for the name itself or for the wildcard over
    it. *)
Definition named (os : list (str * TlsCert)) (sni : option str) : Prop :=
  ∃ name, sni = Some name ∧
    (registered (BExact name) os ≠ [] ∨ ∃ s, parent name = Some s ∧ registered (BWildcard s) os ≠ []).

Lemma has_cert_for_named (ops : list (Z * str * TlsCert)) port sni :
  has_cert_for (certs_of ops) port sni = true ↔ named (on_port port ops) sni.
Proof.
  unfold has_cert_for, named. destruct sni as [name|]; [|by split; [|intros (? & ? & _)]].
  transitivity (registered (BExact name) (on_port port ops) ≠ [] ∨
    ∃ s, parent name = Some s ∧ registered (BWildcard s) (on_port port ops) ≠ []).
  - unfold certs_of. rewrite port_tls_lookup. destruct (on_port port ops) as [|o l].
    + split; [done|]. by intros [[]|(s & _ & [])].
    + apply has_specific_cert_iff.
  - split; [by eauto|]. by intros (? & [= <-] & ?).
Qed.

(** C33: Dispatch on a TLS port.  Whatever routes and certificates are registered and
    however the maps are iterated, a connection goes to its passthrough route, else to
    its terminate route (exact name, else longest registered suffix, else catch-all).
    Without a route it goes to HTTPS exactly when the port allows it and a certificate
    is registered for its very name or for the wildcard over it, and then it is served
    such a certificate; otherwise it is dropped.  The default certificate never
    captures a connection. *)
Theorem tls_dispatch (pops tops : list (Z * str * G)) (cops : list (Z * str * TlsCert))
    (port : Z) (sni : option str) (allow : bool) :
  let d := dispatch_tls_l4 (passthrough_of pops) (passthrough_of tops) (certs_of cops) port
             (Ok sni) allow in
  ∃ gp gt,
    sni_route (on_port port pops) sni gp ∧ sni_route (on_port port tops) sni gt ∧
    match gp, gt with
    | Some g, _ => d = Passthrough g
    | None, Some g => d = Terminate g
    | None, None =>
        (¬ (allow = true ∧ named (on_port port cops) sni) ∧ d = Dropped) ∨
        ((allow = true ∧ named (on_port port cops) sni) ∧ d = Https ∧ ∃ name store c,
           sni = Some name ∧ certs_of cops !! port = Some store ∧ find_cert store name = Some c ∧
           (c ∈ registered (BExact name) (on_port port cops) ∨
            ∃ s, parent name = Some s ∧ c ∈ registered (BWildcard s) (on_port port cops)))
    end.
Proof.
  intros d. exists (r ← passthrough_of pops !! port; match_sni r sni),
    (r ← passthrough_of tops !! port; match_sni r sni).
  split_and!; [apply passthrough_route..|]. subst d. unfold dispatch_tls_l4.
  destruct (passthrough_of pops !! port ≫= _); [done|].
  destruct (passthrough_of tops !! port ≫= _); [done|].
  setoid_rewrite <-has_cert_for_named.
  destruct allow; [|by left; split; [intros []|]].
  destruct (has_cert_for _ _ _) eqn:E; [right|by left; split; [intros []|]].
  split_and!; [done|done|done|]. by apply specific_cert_served.
Qed.

End layer4.
