(* ===== verification/EdgeTls.v ===== *)
(** * TLS handshakes and the guards on requests

    Models the server side of a handshake, [SniCertSelector] of
    [crates/coxswain-proxy/src/edge/tls.rs], and the two guards that tie a request to
    the connection it came on: [check_misdirected] of
    [crates/coxswain-proxy/src/policy/misdirected.rs] and [enforce_client_cert] of
    [crates/coxswain-proxy/src/policy/client_cert.rs].  BoringSSL is an interface:
    [certificate_callback] yields the settings it leaves on the connection, and the
    library decides what becomes of a handshake under them. *)

From S2P Require Import Prelude Tls TlsFacts.

(** ** The connection's settings *)

Inductive VerifyMode :=
| VerifyNone                 (** no client certificate is requested *)
| VerifyRequired             (** [PEER | FAIL_IF_NO_PEER_CERT] *)
| VerifyPermissive.          (** [PEER], with a callback that accepts everything *)

Record Ssl := mkSsl {
  installed : option TlsCert;
  verify_store : option str;
  ssl_verify_depth : option Z;
  verify_mode : VerifyMode;
}.

Definition fresh_ssl : Ssl := mkSsl None None None VerifyNone.

(** Which steps of the library succeed, which client certificates chain to a CA bundle
    within a depth, how a certificate is rendered as a header, and the outcome of a
    handshake: the settings and the certificate the client presents, if any, give
    [None] when it fails and otherwise the peer certificate. *)
Class TlsLib := {
  ClientCert : Type;
  x509_from_pem : str → bool;
  private_key_from_pem : str → bool;
  ssl_use_certificate : str → bool;
  ssl_use_private_key : str → bool;
  build_ca_store : str → bool;
  ssl_set_verify_cert_store : str → bool;
  chains : str → option Z → ClientCert → bool;
  cert_header : ClientCert → option str;
  handshake : Ssl → option ClientCert → option (option ClientCert);
}.

Class TlsLaws `{TlsLib} := {
  (** Without a server certificate a handshake fails. *)
  handshake_needs_cert ssl c : installed ssl = None → handshake ssl c = None;
  (** A peer certificate is one the client presented, upon request. *)
  handshake_peer ssl c peer : handshake ssl c = Some peer → peer = None ∨ peer = c;
  handshake_unrequested ssl c peer :
    verify_mode ssl = VerifyNone → handshake ssl c = Some peer → peer = None;
  (** A required certificate chains to the CA bundle that is installed. *)
  handshake_required ssl c peer :
    verify_mode ssl = VerifyRequired → handshake ssl c = Some peer →
    ∃ cert ca, c = Some cert ∧ peer = Some cert ∧ verify_store ssl = Some ca ∧
      chains ca (ssl_verify_depth ssl) cert = true;
}.

Section edge.
Context `{TlsLib}.

(** ** Handshakes *)

Record SniCertSelector := mkSelector {
  sel_tls : PortTlsStore;
  sel_client_certs : ClientCertStore;
  sel_port : Z;
}.

(** The client-certificate part of [certificate_callback]. *)
Definition configure_client_certs (state : option ClientCertConfigState) (ssl : Ssl) : Ssl :=
  match state with
  | None => ssl
  | Some (CcConfig cfg) =>
      let ssl :=
        if build_ca_store (ca_pem cfg) then
          mkSsl (installed ssl)
            (if ssl_set_verify_cert_store (ca_pem cfg) then Some (ca_pem cfg) else verify_store ssl)
            (Some (verify_depth cfg)) (verify_mode ssl)
        else ssl in
      mkSsl (installed ssl) (verify_store ssl) (ssl_verify_depth ssl)
        (if allow_insecure_fallback cfg then VerifyPermissive else VerifyRequired)
  | Some CcUnavailable =>
      mkSsl (installed ssl) (verify_store ssl) (ssl_verify_depth ssl) VerifyRequired
  end.

(** [sni] is the name the client sent.  A certificate that is set without its key leaves
    no usable certificate. *)
Definition certificate_callback (sel : SniCertSelector) (sni : option str) (ssl : Ssl) : Ssl :=
  match to_ascii_lowercase <$> sni with
  | None => ssl
  | Some sni =>
      match sel_tls sel !! sel_port sel with
      | None => ssl
      | Some store =>
          match find_certs store sni with
          | [] => ssl
          | cert :: _ =>
              if negb (x509_from_pem (cert_pem cert)) then ssl
              else if negb (private_key_from_pem (key_pem cert)) then ssl
              else if negb (ssl_use_certificate (cert_pem cert)) then ssl
              else if negb (ssl_use_private_key (key_pem cert)) then ssl
              else
                configure_client_certs
                  (find_config (sel_client_certs sel) (sel_port sel) sni)
                  (mkSsl (Some cert) (verify_store ssl) (ssl_verify_depth ssl) (verify_mode ssl))
          end
      end
  end.

Record ConnTlsInfo := mkConnTlsInfo {
  conn_sni : option str;
  client_cert : option str;
}.

Definition handshake_complete_callback (sni : option str) (peer : option ClientCert) : ConnTlsInfo :=
  mkConnTlsInfo (to_ascii_lowercase <$> sni) (c ← peer; cert_header c).

(** ** Guards *)

(** What a request sees of its connection: the TLS digest, if the connection is TLS, and
    in it the extension that the handshake stored. *)
Definition Digest : Type := option (option ConnTlsInfo).

(** [421 Misdirected Request] *)
Definition misdirected : Z := 421.

Definition check_misdirected (lh : ListenerHostnames) (port : Z) (host : str) (https : bool)
    (digest : Digest) : result unit Z :=
  if negb https then Ok tt
  else if negb (has_https_port lh port) then Ok tt
  else
    let sni := (info ← digest; t ← info; conn_sni t) in
    if bool_decide (resolve_sni lh port sni = resolve lh port host) then Ok tt
    else Err misdirected.

(** The header to forward upstream, or the rejection. *)
Definition enforce_client_cert (cc : ClientCertStore) (port : Z) (host : str) (digest : Digest) :
    result (option str) Z :=
  match find_config cc port host with
  | None => Ok None
  | Some state =>
      match digest with
      | None => Ok None
      | Some ext =>
          let cert_info := (t ← ext; client_cert t) in
          let insecure_fallback :=
            match state with CcConfig c => allow_insecure_fallback c | CcUnavailable => false end in
          if negb (bool_decide (is_Some cert_info)) && negb insecure_fallback then Err misdirected
          else
            match state with
            | CcConfig c => Ok (if pass_to_upstream c then cert_info else None)
            | CcUnavailable => Ok None
            end
      end
  end.

(** The two guards in the order of [request_filter]; routing in between does not touch
    the connection. *)
Definition tls_guards (lh : ListenerHostnames) (cc : ClientCertStore) (port : Z) (host : str)
    (https : bool) (digest : Digest) : result (option str) Z :=
  _unit <-? check_misdirected lh port host https digest ;;
  enforce_client_cert cc port host digest.

End edge.

(** ** Mutual TLS, from the handshake to the request *)

Section mutual_tls.
Context `{TlsLaws, HashIter}.

(** A handshake that completes did so under the policy of the name the client sent. *)
Lemma handshake_policy sel sni presented peer :
  handshake (certificate_callback sel sni fresh_ssl) presented = Some peer →
  ∃ name cert, to_ascii_lowercase <$> sni = Some name ∧
    handshake (configure_client_certs (find_config (sel_client_certs sel) (sel_port sel) name)
      (mkSsl (Some cert) None None VerifyNone)) presented = Some peer.
Proof.
  assert (∀ c, handshake fresh_ssl c = None) as Hno by (intros; by apply handshake_needs_cert).
  unfold certificate_callback. destruct (to_ascii_lowercase <$> sni) as [name|]; [|by rewrite Hno].
  destruct (sel_tls sel !! sel_port sel) as [store|]; [|by rewrite Hno].
  destruct (find_certs store name) as [|cert certs]; [by rewrite Hno|].
  repeat (case_ifb; [by rewrite Hno|]). intros Hh. by exists name, cert.
Qed.

(** Under a policy that is not permissive, the client's certificate chains to its CA. *)
Lemma policy_verified state cert presented peer :
  handshake (configure_client_certs (Some state) (mkSsl (Some cert) None None VerifyNone))
    presented = Some peer →
  match state with
  | CcUnavailable => False
  | CcConfig cfg => allow_insecure_fallback cfg = false →
      ∃ c, presented = Some c ∧ peer = Some c ∧
        chains (ca_pem cfg) (Some (verify_depth cfg)) c = true
  end.
Proof.
  intros Hh. destruct state as [cfg|]; cbn [configure_client_certs] in Hh.
  - intros Hf. rewrite Hf in Hh.
    apply handshake_required in Hh as (c & ca & -> & -> & Hca & Hch); [|done].
    destruct (build_ca_store (ca_pem cfg)); [|done]. cbn in Hca, Hch.
    destruct (ssl_set_verify_cert_store (ca_pem cfg)); [|done]. injection Hca as <-. eauto.
  - apply handshake_required in Hh as (c & ca & _ & _ & Hca & _); done.
Qed.

(** On a port whose policies belong to its HTTPS listeners, a request that passes the
    listener check is governed by the policy its handshake ran under. *)
Lemma same_policy (lops : list (Z * str * bool)) (cops : list (Z * str * ClientCertConfigState))
    (port : Z) (name host : str) (info : ConnTlsInfo) :
  (∀ h cfg, (h, cfg) ∈ on_port port cops → bucket_of h ∈ bucket_of <$> https_hostnames port lops) →
  (Z.of_nat (length name) ≤ u64_max)%Z → (Z.of_nat (length host) ≤ u64_max)%Z →
  conn_sni info = Some name →
  check_misdirected (listener_build (listeners_of lops)) port host true (Some (Some info)) = Ok tt →
  governing (on_port port cops) name = governing (on_port port cops) host.
Proof.
  intros Hown Hn Hh Hsni. unfold check_misdirected. cbn [negb mbind option_bind]. rewrite Hsni.
  destruct (has_https_port _ port) eqn:Hp; cbn [negb].
  - assert (∀ lh, resolve_sni lh port (Some name) = resolve lh port name) as -> by done.
    rewrite !resolve_spec by done. case_bool_decide as Heq; [|done].
    intros _. by eapply same_listener_same_policy.
  - intros _. assert (https_hostnames port lops = []) as Hnil.
    { apply bool_decide_eq_false in Hp. unfold listener_build, ListenerHostnames in Hp.
      unfold ListenerHostnamesBuilder in Hp. rewrite lookup_fmap in Hp.
      pose proof (listeners_of_spec lops port) as E. unfold ListenerHostnamesBuilder in E.
      rewrite E in Hp. destruct (https_hostnames port lops) as [|x l]; [done|].
      exfalso. apply Hp. cbn. eauto. }
    destruct (on_port port cops) as [|[h cfg] l].
    + unfold governing. cbn. by destruct (parent name), (parent host).
    + exfalso. specialize (Hown h cfg (list_elem_of_here _ _)). rewrite Hnil in Hown.
      by apply elem_of_nil in Hown.
Qed.

Definition policies_of (cops : list (Z * str * ClientCertConfigState)) : ClientCertStore :=
  client_cert_build (foldl (λ b o, add_client_cert b o.1.1 o.1.2 o.2) ∅ cops).

(** C6: Mutual TLS holds on Gateway ports, whatever name the handshake used.  When every
    client-certificate policy of a port was registered for one of the port's HTTPS
    listeners, a request that passes both guards and whose host demands a client
    certificate arrived on a connection on which the client presented a certificate
    that chains to the CA of that very host; and no request reaches a host whose CA is
    unavailable. *)
Theorem mtls_enforced (lops : list (Z * str * bool)) (cops : list (Z * str * ClientCertConfigState))
    (tls : PortTlsStore) (port : Z) (sni : option str) (presented peer : option ClientCert)
    (host : str) (header : option str) :
  (∀ h cfg, (h, cfg) ∈ on_port port cops → bucket_of h ∈ bucket_of <$> https_hostnames port lops) →
  (∀ name, sni = Some name → Z.of_nat (length name) ≤ u64_max)%Z →
  (Z.of_nat (length host) ≤ u64_max)%Z →
  handshake (certificate_callback (mkSelector tls (policies_of cops) port) sni fresh_ssl) presented
    = Some peer →
  tls_guards (listener_build (listeners_of lops)) (policies_of cops) port host true
    (Some (Some (handshake_complete_callback sni peer))) = Ok header →
  match find_config (policies_of cops) port host with
  | None => True
  | Some CcUnavailable => False
  | Some (CcConfig cfg) => allow_insecure_fallback cfg = false →
      ∃ c, presented = Some c ∧ chains (ca_pem cfg) (Some (verify_depth cfg)) c = true
  end.
Proof.
  intros Hown Hn Hh Hhs Hg. apply handshake_policy in Hhs as (name & cert & Hname & Hhs).
  unfold tls_guards in Hg. destruct (check_misdirected _ _ _ _ _) as [[]|] eqn:Hm; [|done].
  assert (find_config (policies_of cops) port name = find_config (policies_of cops) port host) as Heq.
  { unfold policies_of. rewrite !find_config_governing. f_equal.
    eapply (same_policy lops); [done| |done| |exact Hm]; [|done].
    destruct sni as [n|]; [|done]. injection Hname as <-.
    unfold to_ascii_lowercase. rewrite length_fmap. by apply Hn. }
  cbn [sel_client_certs sel_port] in Hhs. rewrite Heq in Hhs.
  destruct (find_config _ port host) as [state|]; [|done].
  apply policy_verified in Hhs. destruct state as [cfg|]; [|done].
  intros Hf. destruct (Hhs Hf) as (c & ? & _ & ?). eauto.
Qed.

End mutual_tls.

(** ** A concrete library and two hosts *)

Module EdgeDemo.

(** A client certificate is the name of the CA that signed it. *)
#[export] Instance demo_tls : TlsLib := {|
  ClientCert := str;
  x509_from_pem := λ _, true;
  private_key_from_pem := λ _, true;
  ssl_use_certificate := λ _, true;
  ssl_use_private_key := λ _, true;
  build_ca_store := λ _, true;
  ssl_set_verify_cert_store := λ _, true;
  chains := λ ca _ c, bool_decide (c = ca);
  cert_header := λ c, Some c;
  handshake := λ ssl c,
    match installed ssl, verify_mode ssl with
    | None, _ => None
    | Some _, VerifyNone => Some None
    | Some _, VerifyPermissive => Some c
    | Some _, VerifyRequired =>
        match c, verify_store ssl with
        | Some cert, Some ca => if bool_decide (cert = ca) then Some (Some cert) else None
        | _, _ => None
        end
    end;
|}.

#[export] Instance demo_laws : TlsLaws.
Proof.
  split; intros [i vs d m] c.
  - cbn. by intros ->.
  - cbn. destruct i, m; try (intros ? [= <-]; auto; fail); [|done..].
    destruct c as [cert|], vs as [ca|]; try done. case_bool_decide; [|done]. intros peer [= <-]. auto.
  - cbn. intros peer -> . destruct i; [|done]. by intros [= <-].
  - cbn. intros peer ->. destruct i, c as [cert|], vs as [ca|]; try done.
    case_bool_decide as Hc; [|done]. intros [= <-]. exists cert, ca. rewrite bool_decide_eq_true. done.
Qed.

#[export] Existing Instance list_order.

Definition host_a : str := lit "a.example.com".
Definition host_b : str := lit "b.example.com".
Definition host_c : str := lit "c.example.com".
Definition strict (ca : str) : ClientCertConfigState := CcConfig (ClientCertConfig_new ca 1 false).

Definition certs : PortTlsStore :=
  port_tls_build (foldl (λ b h, port_add_cert b 443 h (TlsCert_new h (lit "key") h)) ∅
    [host_a; host_b; host_c]).
(** Each host has its own CA; the CA of the third is missing. *)
Definition policies : list (Z * str * ClientCertConfigState) :=
  [(443%Z, host_a, strict (lit "CA-A")); (443%Z, host_b, strict (lit "CA-B"));
   (443%Z, host_c, CcUnavailable)].
Definition listeners : list (Z * str * bool) :=
  [(443%Z, host_a, true); (443%Z, host_b, true); (443%Z, host_c, true)].
Definition selector : SniCertSelector := mkSelector certs (policies_of policies) 443.

(** A client with a certificate of the first host's CA connects to the first host. *)
Definition connection : option (option str) :=
  handshake (certificate_callback selector (Some host_a) fresh_ssl) (Some (lit "CA-A")).
Definition digest : Digest := Some (Some (handshake_complete_callback (Some host_a) (Some (lit "CA-A")))).

End EdgeDemo.
Import EdgeDemo.

Lemma mtls_enforced_witness :
  ∃ c : ClientCert, Some (lit "CA-A") = Some c ∧ chains (lit "CA-A") (Some 1%Z) c = true.
Proof.
  assert (∀ h cfg, (h, cfg) ∈ on_port 443 policies →
    bucket_of h ∈ bucket_of <$> https_hostnames 443 listeners) as Hown.
  { intros h cfg Hin. vm_compute in Hin.
    repeat (apply elem_of_cons in Hin as [[= -> ->]|Hin];
      [apply (bool_decide_unpack _); vm_compute; reflexivity|]).
    by apply elem_of_nil in Hin. }
  refine (mtls_enforced listeners policies certs 443 (Some host_a) (Some (lit "CA-A"))
    (Some (lit "CA-A")) host_a None Hown _ _ _ _ eq_refl).
  - intros name [= <-]. vm_compute. discriminate.
  - vm_compute. discriminate.
  - vm_compute. reflexivity.
  - vm_compute. reflexivity.
Defined.

(** On a port without Gateway listeners, which is where Ingress hosts live, the guards
    compare no names: a certificate that one host's CA signed opens every other host
    of the connection.  The client below holds a certificate of the first host's CA
    only.  Over its connection to the first host it is admitted to the second, whose CA
    did not sign the certificate, and to the third, which has no CA and refuses every
    handshake of its own.  With listeners on the port the same requests are
    rejected. *)
Theorem mtls_crosses_hosts :
  let cc := policies_of policies in
  let no_listeners := listener_build (listeners_of []) in
  connection = Some (Some (lit "CA-A")) ∧
  find_config cc 443 host_b = Some (strict (lit "CA-B")) ∧
  chains (lit "CA-B") (Some 1%Z) (lit "CA-A") = false ∧
  tls_guards no_listeners cc 443 host_b true digest = Ok None ∧
  find_config cc 443 host_c = Some CcUnavailable ∧
  tls_guards no_listeners cc 443 host_c true digest = Ok None ∧
  tls_guards (listener_build (listeners_of listeners)) cc 443 host_b true digest = Err misdirected.
Proof. split_and!; vm_compute; reflexivity. Qed.
