(* ===== verification/Workqueue.v ===== *)
(** * The controller's work queue

    Models [crates/coxswain-core/src/workqueue.rs]: the de-duplicating,
    rate-limiting queue [RateLimitingWorkqueue].  [Inner] is the state under
    the mutex, and each operation is the code between one [lock] and its
    release.  [wq_step] interleaves those critical sections with the
    notifications that follow them, the consumer's loop in [get], and the clock.

    Time is in nanoseconds.  [tokio::sync::Notify] is a parameter. *)

From S2P Require Import Prelude.

(** ** Backoff *)

(** [Duration::MAX]. *)
Definition duration_max : Z := (2 ^ 64 * 1000000000 - 1)%Z.

Definition duration_saturating_mul (d factor : Z) : Z := Z.min (d * factor) duration_max.

Record RateLimitConfig := mkRateLimitConfig { base : Z; max : Z }.

(** [1u32.checked_shl(n)]. *)
Definition checked_shl_one (n : Z) : option Z :=
  if (n <? 32)%Z then Some (wrap 32 (Z.shiftl 1 n)) else None.

Definition delay_for (c : RateLimitConfig) (attempts : Z) : Z :=
  let factor := default u32_max (checked_shl_one (Z.min attempts 20)) in
  Z.min (duration_saturating_mul (base c) factor) (max c).

Definition default_config : RateLimitConfig :=
  mkRateLimitConfig 500000000 15000000000.

(** ** Delayed entries *)

Record Delayed (K : Type) := mkDelayed { ready_at : Z; dseq : Z; dkey : K }.
Arguments mkDelayed {K}.
Arguments ready_at {K}.
Arguments dseq {K}.
Arguments dkey {K}.

(** [Ord::cmp], reversed: the soonest deadline, then the lowest sequence
    number, is the greatest element. *)
Definition delayed_cmp {K} (a b : Delayed K) : comparison :=
  match Z.compare (ready_at b) (ready_at a) with
  | Eq => Z.compare (dseq b) (dseq a)
  | c => c
  end.

(** [BinaryHeap::pop]: the greatest element and the others. *)
Fixpoint heap_pop {K} (h : list (Delayed K)) : option (Delayed K * list (Delayed K)) :=
  match h with
  | [] => None
  | d :: h' =>
      match heap_pop h' with
      | None => Some (d, [])
      | Some (m, rest) =>
          match delayed_cmp m d with
          | Gt => Some (m, d :: rest)
          | _ => Some (d, h')
          end
      end
  end.

Definition heap_peek {K} (h : list (Delayed K)) : option (Delayed K) := fst <$> heap_pop h.

Section queue.
Context {K : Type} `{Countable K}.

(** ** The state under the mutex *)

Record Inner := mkInner {
  ready : list K;
  queued : gset K;
  processing : gset K;
  dirty : gset K;
  delayed : list (Delayed K);
  attempts : gmap K Z;
  seq : Z;
  is_shutdown : bool;
}.

Definition new : Inner := mkInner [] ∅ ∅ ∅ [] ∅ 0 false.

(** [Inner::enqueue]; the boolean says whether a getter is to be woken. *)
Definition enqueue (key : K) (q : Inner) : Inner * bool :=
  if is_shutdown q then (q, false)
  else if bool_decide (key ∈ processing q) then
    (mkInner (ready q) (queued q) (processing q) ({[key]} ∪ dirty q) (delayed q)
       (attempts q) (seq q) (is_shutdown q), false)
  else if bool_decide (key ∈ queued q) then (q, false)
  else
    (mkInner (ready q ++ [key]) ({[key]} ∪ queued q) (processing q) (dirty q) (delayed q)
       (attempts q) (seq q) (is_shutdown q), true).

Definition with_delayed (d : list (Delayed K)) (q : Inner) : Inner :=
  mkInner (ready q) (queued q) (processing q) (dirty q) d (attempts q) (seq q) (is_shutdown q).

(** [Inner::drain_due]: each round pops an entry, so the heap's size bounds the
    rounds. *)
Fixpoint drain_loop (fuel : nat) (now : Z) (q : Inner) : Inner * bool :=
  match fuel with
  | 0 => (q, false)
  | S fuel =>
      match heap_peek (delayed q) with
      | None => (q, false)
      | Some top =>
          if (now <? ready_at top)%Z then (q, false)
          else
            match heap_pop (delayed q) with
            | Some (entry, rest) =>
                let '(q1, w1) := enqueue (dkey entry) (with_delayed rest q) in
                let '(q2, w2) := drain_loop fuel now q1 in
                (q2, w1 || w2)
            | None => drain_loop fuel now q
            end
      end
  end.

Definition drain_due (now : Z) (q : Inner) : Inner * bool :=
  drain_loop (length (delayed q)) now q.

Definition next_deadline (q : Inner) : option Z := ready_at <$> heap_peek (delayed q).

(** ** The critical sections of the public operations

    Each returns the new state and whether the operation goes on to call
    [notify_one]. *)

Definition add (key : K) (q : Inner) : Inner * bool := enqueue key q.

(** [add_after] with the two readings of the clock ([now], and [now'] should the
    deadline not be representable) and the largest representable instant. *)
Definition add_after (instant_max : Z) (key : K) (delay now now' : Z) (q : Inner)
    : Inner * bool :=
  if (delay =? 0)%Z then add key q
  else if is_shutdown q then (q, false)
  else
    let s := seq q in
    let at_ := if (now + delay <=? instant_max)%Z then (now + delay)%Z else now' in
    (mkInner (ready q) (queued q) (processing q) (dirty q)
       (mkDelayed at_ s key :: delayed q) (attempts q) (wrap 64 (seq q + 1)) (is_shutdown q),
     true).

(** The first critical section of [add_rate_limited]: the delay for the attempts
    so far, and the attempt counted.  The second is [add_after] with that delay. *)
Definition rate_limit_delay (c : RateLimitConfig) (key : K) (q : Inner) : Inner * Z :=
  let n := default 0%Z (attempts q !! key) in
  (mkInner (ready q) (queued q) (processing q) (dirty q) (delayed q)
     (<[key := saturating_add u32_max n 1]> (attempts q)) (seq q) (is_shutdown q),
   delay_for c n).

Definition add_rate_limited (c : RateLimitConfig) (instant_max : Z) (key : K) (now now' : Z)
    (q : Inner) : Inner * bool :=
  let '(q1, delay) := rate_limit_delay c key q in
  add_after instant_max key delay now now' q1.

Inductive GetResult :=
| Got (key : K)
| Closed
| Park (deadline : option Z).

(** One round of [get]: drain what is due, then hand out the front key, stop, or
    wait for a notification or the next deadline. *)
Definition get_round (now : Z) (q : Inner) : Inner * GetResult :=
  let q1 := (drain_due now q).1 in
  match ready q1 with
  | key :: rest =>
      (mkInner rest (queued q1 ∖ {[key]}) ({[key]} ∪ processing q1) (dirty q1) (delayed q1)
         (attempts q1) (seq q1) (is_shutdown q1), Got key)
  | [] => if is_shutdown q1 then (q1, Closed) else (q1, Park (next_deadline q1))
  end.

Definition done (key : K) (q : Inner) : Inner * bool :=
  let q1 := mkInner (ready q) (queued q) (processing q ∖ {[key]}) (dirty q ∖ {[key]})
              (delayed q) (attempts q) (seq q) (is_shutdown q) in
  if bool_decide (key ∈ dirty q) then enqueue key q1 else (q1, false).

Definition forget (key : K) (q : Inner) : Inner :=
  mkInner (ready q) (queued q) (processing q) (dirty q) (delayed q)
    (delete key (attempts q)) (seq q) (is_shutdown q).

Definition len (q : Inner) : nat := length (ready q).

Definition shutdown (q : Inner) : Inner :=
  mkInner (ready q) (queued q) (processing q) (dirty q) (delayed q) (attempts q) (seq q) true.

(** ** Sequences of operations *)

Inductive Op :=
| OpAdd (key : K)
| OpAddAfter (key : K) (delay now now' : Z)
| OpAddRateLimited (key : K) (now now' : Z)
| OpGet (now : Z)
| OpDone (key : K)
| OpForget (key : K)
| OpShutdown.

Context (c : RateLimitConfig) (instant_max : Z).

(** The state after an operation, and the key a [get] hands out. *)
Definition run_op (o : Op) (q : Inner) : Inner * option GetResult :=
  match o with
  | OpAdd k => ((add k q).1, None)
  | OpAddAfter k d t t' => ((add_after instant_max k d t t' q).1, None)
  | OpAddRateLimited k t t' => ((add_rate_limited c instant_max k t t' q).1, None)
  | OpGet t => let '(q', r) := get_round t q in (q', Some r)
  | OpDone k => ((done k q).1, None)
  | OpForget k => (forget k q, None)
  | OpShutdown => (shutdown q, None)
  end.

(** The results of the [get]s of a sequence, in order, and the last state. *)
Fixpoint run_ops (os : list Op) (q : Inner) : Inner * list GetResult :=
  match os with
  | [] => (q, [])
  | o :: os =>
      let '(q1, r) := run_op o q in
      let '(q2, rs) := run_ops os q1 in
      (q2, option_list r ++ rs)
  end.

(** ** Invariant *)

Record wf (q : Inner) : Prop := {
  wf_nodup : NoDup (ready q);
  wf_queued : queued q = list_to_set (ready q);
  wf_disjoint : queued q ## processing q;
  wf_dirty : dirty q ⊆ processing q;
}.

(** ** The contract

    A key is pending or not and running or not.  An addition makes it pending;
    handing it out requires it pending and not running, and makes it running and
    no longer pending; the end of its handler makes it no longer running.  Once
    closed, nothing becomes pending, and a handler that ends drops what was added
    while it ran. *)

Record Contract := mkContract { pending : gset K; running : gset K; closed : bool }.

Inductive Event :=
| EvAdd (key : K)
| EvDue (keys : gset K)
| EvHand (key : K)
| EvDone (key : K)
| EvShutdown.

Definition contract_step (e : Event) (s : Contract) : option Contract :=
  match e with
  | EvAdd k =>
      Some (if closed s then s else mkContract ({[k]} ∪ pending s) (running s) (closed s))
  | EvDue ks =>
      Some (if closed s then s else mkContract (ks ∪ pending s) (running s) (closed s))
  | EvHand k =>
      if bool_decide (k ∈ pending s ∧ k ∉ running s)
      then Some (mkContract (pending s ∖ {[k]}) ({[k]} ∪ running s) (closed s))
      else None
  | EvDone k =>
      Some (mkContract
              (if closed s && bool_decide (k ∈ running s)
               then pending s ∖ {[k]} else pending s)
              (running s ∖ {[k]}) (closed s))
  | EvShutdown => Some (mkContract (pending s) (running s) true)
  end.

Fixpoint contract_run (es : list Event) (s : Contract) : option Contract :=
  match es with
  | [] => Some s
  | e :: es => match contract_step e s with Some s' => contract_run es s' | None => None end
  end.

Definition abstraction (q : Inner) : Contract :=
  mkContract (queued q ∪ dirty q) (processing q) (is_shutdown q).

(** The keys of the delayed entries due at [now]. *)
Definition due_keys (now : Z) (q : Inner) : gset K :=
  list_to_set (dkey <$> filter (λ d, (ready_at d ≤ now)%Z) (delayed q)).

(** What a caller and the consumer observe of an operation. *)
Definition events_of (o : Op) (q : Inner) : list Event :=
  match o with
  | OpAdd k => [EvAdd k]
  | OpAddAfter k d _ _ => if (d =? 0)%Z then [EvAdd k] else []
  | OpAddRateLimited k _ _ =>
      if ((rate_limit_delay c k q).2 =? 0)%Z then [EvAdd k] else []
  | OpGet t =>
      EvDue (due_keys t q)
      :: match (get_round t q).2 with Got k => [EvHand k] | _ => [] end
  | OpDone k => [EvDone k]
  | OpForget _ => []
  | OpShutdown => [EvShutdown]
  end.

Fixpoint trace_of (os : list Op) (q : Inner) : list Event :=
  match os with
  | [] => []
  | o :: os => events_of o q ++ trace_of os (run_op o q).1
  end.

End queue.

Arguments Inner K {_ _}.
Arguments GetResult K : clear implicits.
Arguments Op K : clear implicits.
Arguments Contract K {_ _}.
Arguments Event K {_ _}.

(** ** Interleaved execution

    [tokio::sync::Notify] as its single consumer sees it: [enable] registers a
    fresh [notified()] future, and [notified] says that awaiting it returns. *)
Class NotifyLib := {
  notify_state : Type;
  notify_new : notify_state;
  notify_one : notify_state → notify_state;
  notify_waiters : notify_state → notify_state;
  enable : notify_state → notify_state;
  notified : notify_state → bool;
}.

(** [notify_one] completes the registered future, or stores a permit for the
    next one; a completed future stays completed. *)
Class NotifyLaws `{NotifyLib} := {
  notified_one : ∀ n, notified (notify_one n) = true;
  notified_waiters : ∀ n, notified n = true → notified (notify_waiters n) = true;
}.

Section system.
Context {K : Type} `{Countable K} `{NotifyLib} (c : RateLimitConfig) (instant_max : Z).

(** Where the consumer is: outside [get], registered but not yet at the lock, or
    waiting with the deadline it read. *)
Inductive Consumer :=
| Outside
| Registered
| Waiting (deadline : option Z).

(** The shared queue; [owed] counts the producers that have released the lock
    and have yet to call [notify_one]. *)
Record System := mkSystem {
  inner : Inner K;
  notify : notify_state;
  consumer : Consumer;
  owed : nat;
  clock : Z;
}.

Definition boot (t : Z) : System := mkSystem new notify_new Outside 0 t.

(** Whether a waiting consumer returns from its [select!] or its [await]. *)
Definition wakes (s : System) (deadline : option Z) : bool :=
  notified (notify s)
  || match deadline with Some at_ => (at_ <=? clock s)%Z | None => false end.

Definition after_lock (s : System) (r : Inner K * bool) : System :=
  mkSystem r.1 (notify s) (consumer s) (if r.2 then S (owed s) else owed s) (clock s).

Inductive wq_step : System → System → Prop :=
| step_add s k : wq_step s (after_lock s (add k (inner s)))
| step_add_after s k d t' :
    (clock s ≤ t')%Z →
    wq_step s (after_lock s (add_after instant_max k d (clock s) t' (inner s)))
| step_rate_limit s k :
    wq_step s (after_lock s ((rate_limit_delay c k (inner s)).1, false))
| step_done s k : wq_step s (after_lock s (done k (inner s)))
| step_forget s k : wq_step s (after_lock s (forget k (inner s), false))
| step_shutdown s : wq_step s (after_lock s (shutdown (inner s), true))
| step_notify_waiters s :
    wq_step s (mkSystem (inner s) (notify_waiters (notify s)) (consumer s) (owed s) (clock s))
| step_notify_one s n :
    owed s = S n →
    wq_step s (mkSystem (inner s) (notify_one (notify s)) (consumer s) n (clock s))
| step_clock s t : (clock s ≤ t)%Z →
    wq_step s (mkSystem (inner s) (notify s) (consumer s) (owed s) t)
| step_get s : consumer s = Outside →
    wq_step s (mkSystem (inner s) (enable (notify s)) Registered (owed s) (clock s))
| step_round s q r : consumer s = Registered →
    get_round (clock s) (inner s) = (q, r) →
    wq_step s (mkSystem q (notify s)
                 (match r with Park d => Waiting d | _ => Outside end) (owed s) (clock s))
| step_wake s d : consumer s = Waiting d → wakes s d = true →
    wq_step s (mkSystem (inner s) (enable (notify s)) Registered (owed s) (clock s)).

Inductive reachable (t : Z) : System → Prop :=
| reach_boot : reachable t (boot t)
| reach_step s s' : reachable t s → wq_step s s' → reachable t s'.

End system.
