(* ===== verification/WorkqueueFacts.v ===== *)
(** * Correctness of the work queue

    De-duplication, mutual exclusion of handlers, and the promise that no
    addition is lost, as one refinement of the queue's contract; first-in
    first-out hand-out without starvation; the order in which delayed entries
    become ready; the absence of lost wake-ups; and the backoff ramp. *)

From S2P Require Import Prelude Workqueue.

(** ** The heap of delayed entries *)

Section heap.
Context {K : Type}.
Implicit Types (a b d m : Delayed K) (h rest : list (Delayed K)).

(** [a] leaves the heap no later than [b]. *)
Definition no_later a b : Prop :=
  (ready_at a < ready_at b)%Z ∨ (ready_at a = ready_at b ∧ (dseq a ≤ dseq b)%Z).

#[local] Instance no_later_trans : Transitive no_later.
Proof. unfold no_later. intros a b d. lia. Qed.

Lemma delayed_cmp_Gt a b : delayed_cmp a b = Gt → no_later a b.
Proof.
  unfold delayed_cmp, no_later.
  destruct (Z.compare_spec (ready_at b) (ready_at a)), (Z.compare_spec (dseq b) (dseq a));
    intros ?; try congruence; lia.
Qed.

Lemma delayed_cmp_not_Gt a b : delayed_cmp a b ≠ Gt → no_later b a.
Proof.
  unfold delayed_cmp, no_later.
  destruct (Z.compare_spec (ready_at b) (ready_at a)), (Z.compare_spec (dseq b) (dseq a));
    intros ?; try congruence; lia.
Qed.

Lemma heap_pop_None h : heap_pop h = None ↔ h = [].
Proof.
  destruct h as [|d h]; [done|]. cbn.
  destruct (heap_pop h) as [[m rest]|]; [destruct (delayed_cmp m d)|]; done.
Qed.

Lemma heap_pop_Some h m rest :
  heap_pop h = Some (m, rest) → h ≡ₚ m :: rest ∧ Forall (no_later m) rest.
Proof.
  revert m rest. induction h as [|d h IH]; [done|]. intros m rest. cbn.
  destruct (heap_pop h) as [[m' rest']|] eqn:E.
  - destruct (IH _ _ eq_refl) as [Hp Hle].
    assert (delayed_cmp m' d ≠ Gt → Forall (no_later d) h) as Hd.
    { intros Hn%delayed_cmp_not_Gt. rewrite Hp. constructor; [done|].
      eapply Forall_impl; [exact Hle|]. intros x Hx. etrans; eauto. }
    destruct (delayed_cmp m' d) eqn:Hc; intros; simplify_eq.
    + auto.
    + auto.
    + split; [rewrite Hp; constructor|]. constructor; [by apply delayed_cmp_Gt|done].
  - apply heap_pop_None in E as ->. intros; simplify_eq. auto.
Qed.

End heap.

Section facts.
Context {K : Type} `{Countable K}.
Implicit Types (q : Inner K) (k : K) (now : Z).

Fixpoint enqueue_all (ks : list K) q : Inner K :=
  match ks with
  | [] => q
  | k :: ks => enqueue_all ks (enqueue k q).1
  end.

(** ** What [enqueue] does *)

Lemma enqueue_with_delayed k h q :
  enqueue k (with_delayed h q) = (with_delayed h (enqueue k q).1, (enqueue k q).2).
Proof. unfold enqueue. cbn. repeat case_match; done. Qed.

Lemma enqueue_delayed k q : delayed (enqueue k q).1 = delayed q.
Proof. unfold enqueue. repeat case_match; done. Qed.

Lemma enqueue_shutdown k q : is_shutdown (enqueue k q).1 = is_shutdown q.
Proof. unfold enqueue. repeat case_match; done. Qed.

Lemma enqueue_processing k q : processing (enqueue k q).1 = processing q.
Proof. unfold enqueue. repeat case_match; done. Qed.

Lemma enqueue_ready k q :
  ready (enqueue k q).1 = ready q ++ (if (enqueue k q).2 then [k] else []).
Proof. unfold enqueue. repeat case_match; cbn; by rewrite ?app_nil_r. Qed.

Lemma enqueue_pending k q :
  is_shutdown q = false →
  queued (enqueue k q).1 ∪ dirty (enqueue k q).1 = {[k]} ∪ (queued q ∪ dirty q).
Proof.
  unfold enqueue. intros ->. repeat case_bool_decide; cbn; set_solver.
Qed.

Lemma enqueue_closed k q : is_shutdown q = true → enqueue k q = (q, false).
Proof. unfold enqueue. by intros ->. Qed.

Lemma enqueue_wf k q : wf q → wf (enqueue k q).1.
Proof.
  intros [Hn Hq Hd Hs]. unfold enqueue. repeat case_match; try done.
  - case_bool_decide; [|done]. split; cbn; set_solver.
  - repeat case_bool_decide; try done. split; cbn; [|set_solver..].
    apply NoDup_app. split; [done|]. split; [|apply NoDup_singleton].
    intros x Hx. set_solver.
Qed.

Lemma with_delayed_wf h q : wf q → wf (with_delayed h q).
Proof. intros []. by split. Qed.

Lemma with_delayed_id q : with_delayed (delayed q) q = q.
Proof. by destruct q. Qed.

Lemma with_delayed_twice h h' q : with_delayed h (with_delayed h' q) = with_delayed h q.
Proof. done. Qed.

Lemma enqueue_all_with_delayed ks h q :
  enqueue_all ks (with_delayed h q) = with_delayed h (enqueue_all ks q).
Proof.
  revert q. induction ks as [|k ks IH]; [done|]. intros q. cbn.
  rewrite enqueue_with_delayed. apply IH.
Qed.

Lemma enqueue_all_shutdown ks q : is_shutdown (enqueue_all ks q) = is_shutdown q.
Proof.
  revert q. induction ks as [|k ks IH]; [done|]. intros q. cbn.
  rewrite IH. apply enqueue_shutdown.
Qed.

Lemma enqueue_all_processing ks q : processing (enqueue_all ks q) = processing q.
Proof.
  revert q. induction ks as [|k ks IH]; [done|]. intros q. cbn.
  rewrite IH. apply enqueue_processing.
Qed.

Lemma enqueue_all_pending ks q :
  is_shutdown q = false →
  queued (enqueue_all ks q) ∪ dirty (enqueue_all ks q)
  = list_to_set ks ∪ (queued q ∪ dirty q).
Proof.
  revert q. induction ks as [|k ks IH]; intros q Hs; cbn; [set_solver|].
  rewrite IH; [|by rewrite enqueue_shutdown]. rewrite enqueue_pending by done. set_solver.
Qed.

Lemma enqueue_all_closed ks q : is_shutdown q = true → enqueue_all ks q = q.
Proof.
  intros Hs. induction ks as [|k ks IH]; [done|]. cbn. by rewrite enqueue_closed.
Qed.

Lemma enqueue_all_wf ks q : wf q → wf (enqueue_all ks q).
Proof.
  revert q. induction ks as [|k ks IH]; [done|]. intros q Hq. cbn. apply IH, enqueue_wf, Hq.
Qed.

Lemma enqueue_all_ready ks q : ready q `prefix_of` ready (enqueue_all ks q).
Proof.
  revert q. induction ks as [|k ks IH]; [done|]. intros q. cbn.
  etrans; [|apply IH]. rewrite enqueue_ready. by apply prefix_app_r.
Qed.

(** ** What [drain_due] does *)

Definition due now (h : list (Delayed K)) : list (Delayed K) :=
  filter (λ d, (ready_at d ≤ now)%Z) h.

Definition not_due now (h : list (Delayed K)) : list (Delayed K) :=
  filter (λ d, (now < ready_at d)%Z) h.

Lemma not_due_all now m h :
  (now < ready_at m)%Z → Forall (no_later m) h → due now h = [] ∧ not_due now h = h.
Proof.
  unfold due, not_due, no_later. intros Hm.
  induction 1 as [|d h Hd _ [IH1 IH2]]; [done|].
  rewrite filter_cons_False by lia. rewrite filter_cons_True by lia.
  by rewrite IH2.
Qed.

Lemma drain_loop_spec fuel now q :
  length (delayed q) ≤ fuel →
  ∃ ds rest, ds ≡ₚ due now (delayed q) ∧ StronglySorted no_later ds ∧
    rest ≡ₚ not_due now (delayed q) ∧
    (drain_loop fuel now q).1 = with_delayed rest (enqueue_all (dkey <$> ds) q).
Proof.
  revert q. induction fuel as [|fuel IH]; intros q Hlen.
  { exists [], []. destruct (delayed q) eqn:E; [|cbn in Hlen; lia].
    split_and!; [done|constructor|done|]. cbn. by rewrite <-E, with_delayed_id. }
  cbn [drain_loop]. unfold heap_peek.
  destruct (heap_pop (delayed q)) as [[m rest]|] eqn:E; cbn [fmap option_fmap option_map fst].
  2: { apply heap_pop_None in E. exists [], []. rewrite E.
       split_and!; [done|constructor|done|]. cbn. by rewrite <-E, with_delayed_id. }
  destruct (heap_pop_Some _ _ _ E) as [Hp Hle].
  destruct (Z.ltb_spec now (ready_at m)) as [Hlt|Hge].
  - destruct (not_due_all now m (m :: rest) Hlt) as [H1 H2].
    { constructor; [|done]. right. lia. }
    exists [], (delayed q). unfold due, not_due in *.
    split_and!; [by rewrite Hp, H1|constructor|by rewrite Hp, H2|].
    cbn. by rewrite with_delayed_id.
  - rewrite enqueue_with_delayed.
    destruct (IH (with_delayed rest (enqueue (dkey m) q).1)) as (ds & rest' & H1 & H2 & H3 & H4).
    { apply Permutation_length in Hp. cbn in Hp |- *. lia. }
    destruct (drain_loop fuel now _) as [q2 w2]. cbn in H1, H3, H4 |- *. subst q2.
    exists (m :: ds), rest'. unfold due, not_due in *. split_and!.
    + rewrite Hp, filter_cons_True by lia. by rewrite H1.
    + constructor; [done|]. rewrite H1. rewrite Forall_forall in Hle |- *.
      intros x [_ ?]%list_elem_of_filter. auto.
    + rewrite Hp, filter_cons_False by lia. done.
    + cbn. by rewrite enqueue_all_with_delayed.
Qed.

(** [drain_due] makes ready exactly the delayed entries whose deadline has
    passed, by deadline and then by the order of their scheduling, each through
    the de-duplicating [enqueue]; the entries not yet due, and only they, stay
    delayed. *)
Theorem drain_due_in_deadline_order now q :
  ∃ ds rest, ds ≡ₚ filter (λ d, (ready_at d ≤ now)%Z) (delayed q) ∧
    StronglySorted no_later ds ∧
    rest ≡ₚ filter (λ d, (now < ready_at d)%Z) (delayed q) ∧
    (drain_due now q).1 = with_delayed rest (enqueue_all (dkey <$> ds) q).
Proof. by apply drain_loop_spec. Qed.

(** ** Refinement of the contract *)

Lemma drain_due_wf now q : wf q → wf (drain_due now q).1.
Proof.
  intros Hq. destruct (drain_loop_spec (length (delayed q)) now q) as (ds & rest & _ & _ & _ & E);
    [done|]. unfold drain_due. rewrite E. by apply with_delayed_wf, enqueue_all_wf.
Qed.

Lemma drain_due_ready now q : ready q `prefix_of` ready (drain_due now q).1.
Proof.
  destruct (drain_loop_spec (length (delayed q)) now q) as (ds & rest & _ & _ & _ & E);
    [done|]. unfold drain_due. rewrite E. apply enqueue_all_ready.
Qed.

Lemma drain_due_abstraction now q :
  contract_step (EvDue (due_keys now q)) (abstraction q)
  = Some (abstraction (drain_due now q).1).
Proof.
  destruct (drain_loop_spec (length (delayed q)) now q) as (ds & rest & Hds & _ & _ & E);
    [done|]. unfold drain_due. rewrite E. unfold contract_step, abstraction, due_keys. cbn.
  f_equal. destruct (is_shutdown q) eqn:Hs.
  - by rewrite enqueue_all_closed, Hs.
  - rewrite enqueue_all_pending, enqueue_all_processing, enqueue_all_shutdown, Hs by done.
    f_equal. f_equal. unfold_leibniz. intros x. rewrite !elem_of_list_to_set.
    by rewrite Hds.
Qed.

Lemma enqueue_abstraction k q :
  contract_step (EvAdd k) (abstraction q) = Some (abstraction (enqueue k q).1).
Proof.
  unfold contract_step, abstraction. cbn. f_equal. destruct (is_shutdown q) eqn:Hs.
  - rewrite enqueue_closed by done. cbn. by rewrite Hs.
  - by rewrite enqueue_pending, enqueue_processing, enqueue_shutdown, Hs.
Qed.

Lemma hand_out_abstraction now q k :
  wf q → (get_round now q).2 = Got k →
  contract_step (EvHand k) (abstraction (drain_due now q).1)
  = Some (abstraction (get_round now q).1).
Proof.
  intros Hq%(drain_due_wf now). unfold get_round. destruct Hq as [Hn Hqd Hdj Hdi].
  destruct (ready (drain_due now q).1) as [|k' rest] eqn:E; [by case_match|].
  intros [= ->]. unfold contract_step, abstraction. cbn.
  rewrite bool_decide_eq_true_2 by (rewrite Hqd; set_solver).
  do 2 f_equal. set_solver.
Qed.

Lemma get_round_wf now q : wf q → wf (get_round now q).1.
Proof.
  intros Hq%(drain_due_wf now). unfold get_round.
  destruct (ready (drain_due now q).1) as [|k rest] eqn:E; [by case_match|].
  destruct Hq as [Hn Hqd Hdj Hdi]. rewrite E in Hn, Hqd.
  apply NoDup_cons in Hn as [Hk Hn]. split; cbn; [done|set_solver..].
Qed.

Lemma get_round_abstraction now q :
  wf q →
  contract_run (EvDue (due_keys now q)
                :: match (get_round now q).2 with Got k => [EvHand k] | _ => [] end)
    (abstraction q) = Some (abstraction (get_round now q).1).
Proof.
  intros Hq. cbn [contract_run]. rewrite drain_due_abstraction.
  destruct (get_round now q).2 as [k| |d] eqn:E; cbn [contract_run].
  - by rewrite (hand_out_abstraction _ _ k).
  - unfold get_round in *. by repeat case_match; simplify_eq/=.
  - unfold get_round in *. by repeat case_match; simplify_eq/=.
Qed.

Lemma done_abstraction k q :
  wf q → contract_step (EvDone k) (abstraction q) = Some (abstraction (done k q).1).
Proof.
  intros [_ _ Hdj Hdi]. unfold contract_step, done, abstraction. cbn. f_equal.
  destruct (decide (k ∈ dirty q)) as [Hk|Hk].
  - rewrite (bool_decide_eq_true_2 (k ∈ dirty q)) by done. destruct (is_shutdown q) eqn:Hs.
    + rewrite enqueue_closed by done. cbn. rewrite bool_decide_eq_true_2 by set_solver.
      cbn. f_equal. set_solver.
    + rewrite enqueue_pending, enqueue_processing, enqueue_shutdown by done. cbn.
      f_equal. apply leibniz_equiv. intros x. destruct (decide (x = k)); set_solver.
  - rewrite (bool_decide_eq_false_2 (k ∈ dirty q)) by done. cbn. f_equal.
    case_match eqn:E; [|set_solver].
    apply andb_true_iff in E as [_ E%bool_decide_eq_true]. set_solver.
Qed.

Lemma done_wf k q : wf q → wf (done k q).1.
Proof.
  intros [Hn Hq Hdj Hdi]. unfold done.
  assert (wf (mkInner (ready q) (queued q) (processing q ∖ {[k]}) (dirty q ∖ {[k]})
                (delayed q) (attempts q) (seq q) (is_shutdown q))) by (split; cbn; set_solver).
  case_bool_decide; [by apply enqueue_wf|done].
Qed.

Lemma new_wf : wf (new : Inner K).
Proof. split; cbn; [constructor|done|set_solver..]. Qed.

Lemma add_after_wf im k d t t' q : wf q → wf (add_after im k d t t' q).1.
Proof.
  intros Hq. unfold add_after, add. repeat case_match; [by apply enqueue_wf|done|..];
    destruct Hq; by split.
Qed.

Lemma add_after_ready im k d t t' q : ready q `prefix_of` ready (add_after im k d t t' q).1.
Proof.
  unfold add_after, add. repeat case_match; try done.
  rewrite enqueue_ready. by apply prefix_app_r.
Qed.

Lemma add_after_abstraction im k d t t' q :
  contract_run (if (d =? 0)%Z then [EvAdd k] else []) (abstraction q)
  = Some (abstraction (add_after im k d t t' q).1).
Proof.
  unfold add_after, add. destruct (d =? 0)%Z; cbn [contract_run].
  - by rewrite enqueue_abstraction.
  - unfold abstraction. by destruct (is_shutdown q) eqn:E; cbn; rewrite ?E.
Qed.

Lemma rate_limit_delay_inert c k q :
  (wf q → wf (rate_limit_delay c k q).1) ∧
  abstraction (rate_limit_delay c k q).1 = abstraction q ∧
  ready (rate_limit_delay c k q).1 = ready q.
Proof. split_and!; [|done..]. intros []. by split. Qed.

Section runs.
Context (c : RateLimitConfig) (im : Z).
Implicit Types (o : Op K) (os : list (Op K)).

Lemma run_op_wf o q : wf q → wf (run_op c im o q).1.
Proof.
  intros Hq. destruct o as [k|k d t t'|k t t'|t|k|k|]; cbn.
  - by apply enqueue_wf.
  - by apply add_after_wf.
  - apply (add_after_wf im k _ t t' (rate_limit_delay c k q).1).
    by apply (rate_limit_delay_inert c k q).
  - destruct (get_round t q) as [q' r] eqn:E. cbn.
    replace q' with (get_round t q).1 by by rewrite E. by apply get_round_wf.
  - by apply done_wf.
  - destruct Hq. by split.
  - destruct Hq. by split.
Qed.

Lemma run_op_abstraction o q :
  wf q → contract_run (events_of c o q) (abstraction q) = Some (abstraction (run_op c im o q).1).
Proof.
  intros Hq. destruct o as [k|k d t t'|k t t'|t|k|k|]; cbn [events_of run_op fst].
  - cbn [contract_run]. by rewrite enqueue_abstraction.
  - apply add_after_abstraction.
  - destruct (rate_limit_delay_inert c k q) as (_ & <- & _). apply add_after_abstraction.
  - rewrite get_round_abstraction by done. by destruct (get_round t q).
  - cbn [contract_run]. by rewrite done_abstraction.
  - done.
  - done.
Qed.

Lemma contract_run_app es es' (s : Contract K) :
  contract_run (es ++ es') s = contract_run es s ≫= contract_run es'.
Proof.
  revert s. induction es as [|e es IH]; [done|]. intros s. cbn. by case_match.
Qed.

Lemma run_ops_cons o os q :
  run_ops c im (o :: os) q
  = ((run_ops c im os (run_op c im o q).1).1,
     option_list (run_op c im o q).2 ++ (run_ops c im os (run_op c im o q).1).2).
Proof. cbn. destruct (run_op c im o q). cbn. by destruct (run_ops c im os _). Qed.

Lemma run_ops_refines os q :
  wf q →
  wf (run_ops c im os q).1 ∧
  contract_run (trace_of c im os q) (abstraction q)
  = Some (abstraction (run_ops c im os q).1).
Proof.
  revert q. induction os as [|o os IH]; [done|]. intros q Hq.
  rewrite run_ops_cons. cbn [trace_of fst].
  destruct (IH (run_op c im o q).1) as [IH1 IH2]; [by apply run_op_wf|]. split; [done|].
  by rewrite contract_run_app, run_op_abstraction.
Qed.


(** ** First in, first out *)

Lemma run_op_ready o q i k :
  ready q !! i = Some k →
  match (run_op c im o q).2 with
  | Some r => match i with
              | 0 => r = Got k
              | S i => ready (run_op c im o q).1 !! i = Some k
              end
  | None => ready (run_op c im o q).1 !! i = Some k
  end.
Proof.
  intros Hi.
  assert (∀ q', ready q `prefix_of` ready q' → ready q' !! i = Some k) as Hpre.
  { intros q' Hp. by eapply prefix_lookup_Some. }
  destruct o as [k'|k' d t t'|k' t t'|t|k'|k'|]; cbn.
  - apply Hpre. unfold add. rewrite enqueue_ready. by apply prefix_app_r.
  - apply Hpre, add_after_ready.
  - apply Hpre. apply (add_after_ready im k' _ t t' (rate_limit_delay c k' q).1).
  - pose proof (Hpre _ (drain_due_ready t q)) as Hd. unfold get_round.
    destruct (ready (drain_due t q).1) as [|k0 rest] eqn:E; [done|].
    cbn. by destruct i; cbn in Hd; simplify_eq.
  - apply Hpre. unfold done. case_bool_decide; [|done].
    rewrite enqueue_ready. cbn. by apply prefix_app_r.
  - by apply Hpre.
  - by apply Hpre.
Qed.

(** Hand-out is first in, first out and starves no key: a key that has [i]
    others before it in the ready queue is what the [i]-th following [get] (from 0) returns,
    whatever is added, scheduled, finished, forgotten or shut down in between. *)
Theorem handed_out_in_order os q i k :
  ready q !! i = Some k →
  i < length (run_ops c im os q).2 →
  (run_ops c im os q).2 !! i = Some (Got k).
Proof.
  revert q i. induction os as [|o os IH]; intros q i Hi; [cbn; lia|].
  rewrite run_ops_cons. cbn [snd]. pose proof (run_op_ready o q i k Hi) as Ho.
  destruct (run_op c im o q).2 as [r|]; cbn; [|by apply IH].
  destruct i as [|i]; [by subst|]. cbn. intros Hlt. apply IH; [done|lia].
Qed.

End runs.

End facts.

(** ** Wake-ups *)

Section wakeups.
Context {K : Type} `{Countable K} `{NotifyLaws} (c : RateLimitConfig) (im : Z).
Implicit Types (s : System (K:=K)).

(** Nothing is left for the consumer to pick up before [d]. *)
Definition nothing_before (d : option Z) (q : Inner K) : Prop :=
  ready q = [] ∧ is_shutdown q = false ∧ next_deadline q = d.

Definition wake_inv s : Prop :=
  ∀ d, consumer s = Waiting d → owed s = 0 → notified (notify s) = false →
       nothing_before d (inner s).

Lemma get_round_park now q q' d :
  get_round now q = (q', Park d) → nothing_before d q'.
Proof.
  unfold get_round. intros E. repeat case_match; simplify_eq/=. by split_and!.
Qed.

(** A critical section that owes no notification leaves a waiting consumer
    nothing to pick up. *)
Lemma wake_inv_after_lock s (r : Inner K * bool) :
  wake_inv s →
  (r.2 = false → ∀ d, nothing_before d (inner s) → nothing_before d r.1) →
  wake_inv (after_lock s r).
Proof.
  intros Hs Hr d Hc Ho Hn. unfold after_lock in *. cbn in *.
  destruct r.2; [done|]. apply Hr; [done|]. by apply Hs.
Qed.

Lemma enqueue_quiet k (q : Inner K) d :
  (enqueue k q).2 = false → nothing_before d q → nothing_before d (enqueue k q).1.
Proof.
  unfold nothing_before, next_deadline. intros He (Hr & Hs & Hd).
  by rewrite enqueue_ready, enqueue_delayed, enqueue_shutdown, He, Hr.
Qed.

Lemma wake_inv_step s s' : wake_inv s → wq_step c im s s' → wake_inv s'.
Proof.
  intros Hs. destruct 1.
  - apply wake_inv_after_lock; [done|]. intros ??. by apply enqueue_quiet.
  - apply wake_inv_after_lock; [done|]. unfold add_after.
    repeat case_match; cbn; try done. intros ??. by apply enqueue_quiet.
  - by apply wake_inv_after_lock.
  - apply wake_inv_after_lock; [done|]. unfold done. case_bool_decide; [|done].
    intros ???. by apply enqueue_quiet.
  - by apply wake_inv_after_lock.
  - by apply wake_inv_after_lock.
  - intros d Hc Ho Hn. cbn in *. apply Hs; [done..|].
    destruct (notified (notify s)) eqn:E; [|done].
    by rewrite notified_waiters in Hn.
  - intros d Hc Ho Hn. cbn in *. by rewrite notified_one in Hn.
  - exact Hs.
  - by intros ? [=].
  - intros d Hc _ _. cbn in *. destruct r; simplify_eq. by eapply get_round_park.
  - by intros ? [=].
Qed.

Lemma wake_inv_reachable t s : reachable c im t s → wake_inv s.
Proof. induction 1; [by intros d [=]|]. by eapply wake_inv_step. Qed.

(** C36: No wake-up is lost.  In every interleaving of producers, handlers, clock and
    the consumer, a consumer that waits although a key is ready, the queue is
    shut down or a delayed entry is due is going to wake: its wait ends now, or a
    producer that has released the lock still owes it a notification. *)
Theorem no_lost_wakeup t s d :
  reachable c im t s →
  consumer s = Waiting d →
  ready (inner s) ≠ [] ∨ is_shutdown (inner s) = true
    ∨ (∃ e, e ∈ delayed (inner s) ∧ (ready_at e ≤ clock s)%Z) →
  wakes s d = true ∨ 0 < owed s.
Proof.
  intros Hinv%wake_inv_reachable Hc Hwork. specialize (Hinv d Hc). unfold wakes.
  destruct (owed s) as [|n]; [|right; lia].
  destruct (notified (notify s)); [by left|]. left. cbn.
  destruct (Hinv eq_refl eq_refl) as (Hr & Hs & <-).
  destruct Hwork as [?|[?|(e & He & Hle)]]; [congruence..|].
  unfold next_deadline, heap_peek.
  destruct (heap_pop (delayed (inner s))) as [[m rest]|] eqn:E; cbn.
  - destruct (heap_pop_Some _ _ _ E) as [Hp Hall]. rewrite Forall_forall in Hall.
    apply Z.leb_le. rewrite Hp in He. apply elem_of_cons in He as [->|He%Hall]; [done|].
    unfold no_later in He. lia.
  - apply heap_pop_None in E. rewrite E in He. set_solver.
Qed.

End wakeups.

(** ** The backoff ramp *)

Lemma delay_for_eq c n :
  (0 ≤ n)%Z → (0 ≤ base c)%Z → (max c ≤ duration_max)%Z →
  delay_for c n = Z.min (base c * 2 ^ Z.min n 20) (max c).
Proof.
  intros Hn Hb Hm. unfold delay_for, checked_shl_one, duration_saturating_mul, wrap.
  rewrite (proj2 (Z.ltb_lt _ _)) by lia. cbn [default from_option id].
  rewrite Z.shiftl_1_l, Z.mod_small; [lia|].
  split; [apply Z.pow_nonneg; lia|]. apply Z.pow_lt_mono_r; lia.
Qed.

(** The backoff starts at [base] capped at [max], never exceeds [max], never
    decreases with the attempts, doubles on each of the first twenty until the
    cap, and neither the shift nor the multiplication overflows. *)
Theorem delay_for_ramp c n :
  (0 ≤ n)%Z → (0 ≤ base c)%Z → (0 ≤ max c ≤ duration_max)%Z →
  delay_for c 0 = Z.min (base c) (max c) ∧
  (0 ≤ delay_for c n ≤ max c)%Z ∧
  (delay_for c n ≤ delay_for c (n + 1))%Z ∧
  (n < 20 → delay_for c (n + 1) = Z.min (2 * delay_for c n) (max c))%Z.
Proof.
  intros Hn Hb Hm. rewrite !delay_for_eq by lia.
  assert (∀ k, 0 ≤ k → 0 < 2 ^ k)%Z as Hpos by (intros; apply Z.pow_pos_nonneg; lia).
  pose proof (Hpos (Z.min n 20) ltac:(lia)) as Hp. split_and!.
  - change (Z.min 0 20) with 0%Z. rewrite Z.pow_0_r. lia.
  - nia.
  - nia.
  - assert (2 ^ Z.min n 20 ≤ 2 ^ Z.min (n + 1) 20)%Z by (apply Z.pow_le_mono_r; lia). nia.
  - intros Hlt. replace (Z.min n 20) with n by lia.
    replace (Z.min (n + 1) 20) with (n + 1)%Z by lia.
    rewrite Z.pow_add_r, Z.pow_1_r, Z.mul_assoc by lia. lia.
Qed.

(** ** Witnesses *)

Module WorkqueueDemo.

(** A [Notify] with its permit and its registered future, which a notification
    completes; without one it stores the permit that the next future takes. *)
Record Cell := mkCell { permit : bool; future : option bool }.

#[export] Instance cell_notify : NotifyLib := {
  notify_state := Cell;
  notify_new := mkCell false None;
  notify_one n :=
    match future n with
    | Some false => mkCell (permit n) (Some true)
    | f => mkCell true f
    end;
  notify_waiters n := mkCell (permit n) (const true <$> future n);
  enable n := mkCell false (Some (permit n));
  notified n := default false (future n) || permit n;
}.

#[export] Instance cell_laws : NotifyLaws.
Proof. by split; intros [[] [[]|]]. Qed.

(** Two keys wait; key 1 is also scheduled for later. *)
Definition two_ready : Inner Z :=
  (run_ops default_config 1000 [OpAdd 1%Z; OpAdd 2%Z; OpAddAfter 1%Z 5 0 0] new).1.

(** A producer adds key 7 while the consumer waits on the empty queue, and has
    not yet called [notify_one]. *)
Definition waiting_empty : System (K:=Z) :=
  mkSystem (new : Inner Z) (enable notify_new) (Waiting None) 0 0.

Definition waiting_full : System (K:=Z) :=
  after_lock waiting_empty (add 7%Z (inner waiting_empty)).

End WorkqueueDemo.
Import WorkqueueDemo.

Lemma handed_out_in_order_witness :
  ready two_ready !! 1 = Some 2%Z ∧
  (run_ops default_config 1000 [OpGet 9; OpAdd 3%Z; OpDone 1%Z; OpGet 9]
     two_ready).2 !! 1 = Some (Got 2%Z).
Proof.
  split; [vm_compute; reflexivity|].
  apply (handed_out_in_order default_config 1000 _ two_ready 1 2%Z).
  - vm_compute. reflexivity.
  - vm_compute. lia.
Defined.

Lemma no_lost_wakeup_witness :
  wakes waiting_full None = true ∨ 0 < owed waiting_full.
Proof.
  apply (no_lost_wakeup default_config 1000 0 waiting_full None).
  - eapply reach_step; [|apply step_add].
    eapply reach_step; [eapply reach_step; [apply reach_boot|by apply step_get]|].
    by apply (step_round default_config 1000
                (mkSystem (new : Inner Z) (enable notify_new) Registered 0 0) new (Park None)).
  - reflexivity.
  - left. vm_compute. discriminate.
Defined.

Lemma delay_for_ramp_witness :
  delay_for default_config 0 = 500000000%Z ∧
  delay_for default_config (4 + 1) = Z.min (2 * delay_for default_config 4) 15000000000.
Proof.
  destruct (delay_for_ramp default_config 4) as (H1 & _ & _ & H2);
    [vm_compute; discriminate..|split; vm_compute; discriminate|].
  split; [exact H1|apply H2; reflexivity].
Defined.
