(* ===== verification/Health.v ===== *)
(** * Subsystem health

    Models [crates/coxswain-core/src/health.rs]: the registry of subsystems and
    their named checks, the cached aggregate behind [/readyz], the snapshot behind
    [/status], the change counter, and the one-way liveness gate.  A panic is
    [None]. *)

From S2P Require Import Prelude.

Inductive CheckState :=
| Pending
| Ready
| Degraded (reason : str)
| Failed (reason : str).

#[export] Instance CheckState_eq_dec : EqDecision CheckState.
Proof. solve_decision. Defined.

Definition severity (s : CheckState) : Z :=
  match s with
  | Ready => 0
  | Pending => 1
  | Degraded _ => 2
  | Failed _ => 3
  end.

Definition is_ready (s : CheckState) : bool :=
  match s with Ready | Degraded _ => true | _ => false end.

Definition severity_is_ready (sev : Z) : bool := (sev =? 0)%Z || (sev =? 2)%Z.

Record SubsystemSnapshot := mkSubsystemSnapshot {
  state : CheckState;
  snapshot_checks : gmap str CheckState;
}.

#[export] Instance SubsystemSnapshot_eq_dec : EqDecision SubsystemSnapshot.
Proof. solve_decision. Defined.

Record SubsystemInner := mkSubsystemInner {
  checks : gmap str CheckState;
  aggregate_severity : Z;
}.

Record HealthRegistry := mkHealthRegistry {
  subsystems : gmap str SubsystemInner;
  changed : Z;
}.

Definition new : HealthRegistry := mkHealthRegistry ∅ 0.

Definition btree_values {V} (m : gmap str V) : list V := (btree_iter m).*2.

(** [.map(severity).max().unwrap_or(SEV_READY)]. *)
Definition max_severity (m : gmap str CheckState) : Z :=
  foldr Z.max 0%Z (severity <$> btree_values m).

(** [SubsystemHandle::set] on the handle of [name]. *)
Definition set (name check : str) (st : CheckState) (reg : HealthRegistry)
    : option HealthRegistry :=
  match subsystems reg !! name with
  | None => None
  | Some inner =>
      match checks inner !! check with
      | None => None
      | Some slot =>
          if decide (slot = st) then Some reg
          else
            let cs := <[check := st]> (checks inner) in
            Some (mkHealthRegistry
                    (<[name := mkSubsystemInner cs (max_severity cs)]> (subsystems reg))
                    (wrap 64 (changed reg + 1)))
      end
  end.

Definition register (name : str) (names : list str) (reg : HealthRegistry)
    : option HealthRegistry :=
  match subsystems reg !! name with
  | Some _ => None
  | None =>
      let cs := list_to_map ((λ c, (c, Pending)) <$> names) : gmap str CheckState in
      let initial := if decide (cs = ∅) then 0%Z else 1%Z in
      Some (mkHealthRegistry (<[name := mkSubsystemInner cs initial]> (subsystems reg))
              (wrap 64 (changed reg + 1)))
  end.

Definition registry_is_ready (reg : HealthRegistry) : bool :=
  forallb (λ s, severity_is_ready (aggregate_severity s)) (btree_values (subsystems reg)).

Definition is_subsystem_ready (name : str) (reg : HealthRegistry) : bool :=
  match subsystems reg !! name with
  | Some s => severity_is_ready (aggregate_severity s)
  | None => false
  end.

Definition subsystem_snapshot (s : SubsystemInner) : SubsystemSnapshot :=
  mkSubsystemSnapshot (default Ready (max_by_key severity (btree_values (checks s))))
    (checks s).

Definition snapshot (reg : HealthRegistry) : gmap str SubsystemSnapshot :=
  subsystem_snapshot <$> subsystems reg.

(** [LivenessGate]. *)
Definition gate_new : bool := true.
Definition is_alive (alive : bool) : bool := alive.
Definition trip (_ : bool) : bool := false.

(** The registry after a sequence of registrations and transitions; [None] once
    one of them panics. *)
Inductive HealthOp :=
| HRegister (name : str) (names : list str)
| HSet (name check : str) (st : CheckState).

Definition run_op (o : HealthOp) (reg : HealthRegistry) : option HealthRegistry :=
  match o with
  | HRegister n cs => register n cs reg
  | HSet n c st => set n c st reg
  end.

Fixpoint run_ops (os : list HealthOp) (reg : HealthRegistry) : option HealthRegistry :=
  match os with
  | [] => Some reg
  | o :: os => run_op o reg ≫= run_ops os
  end.

(** ** The cached aggregate *)

Definition cache_ok (reg : HealthRegistry) : Prop :=
  map_Forall (λ _ s, aggregate_severity s = max_severity (checks s)) (subsystems reg).

Lemma severity_range s : (0 ≤ severity s ≤ 3)%Z.
Proof. destruct s; cbn; lia. Qed.

Lemma btree_values_elem {V} (m : gmap str V) v : v ∈ btree_values m ↔ ∃ k, m !! k = Some v.
Proof.
  unfold btree_values. rewrite list_elem_of_fmap. split.
  - intros ([k v'] & -> & Hin%btree_iter_elem). by exists k.
  - intros (k & Hk). exists (k, v). split; [done|]. by apply btree_iter_elem.
Qed.

Lemma foldr_max_ub (l : list Z) x : x ∈ l → (x ≤ foldr Z.max 0 l)%Z.
Proof. induction l as [|y l IH]; [set_solver|]. cbn. intros [->|?%IH]%elem_of_cons; lia. Qed.

Lemma foldr_max_attained (l : list Z) :
  (foldr Z.max 0 l = 0)%Z ∨ foldr Z.max 0%Z l ∈ l.
Proof.
  induction l as [|y l IH]; [by left|]. cbn.
  destruct (Z.max_spec y (foldr Z.max 0%Z l)) as [[? ->]|[? ->]]; set_solver.
Qed.

(** The aggregate as the worst state among the checks. *)
Lemma max_severity_cases m :
  (∀ c st, m !! c = Some st → (severity st ≤ max_severity m)%Z) ∧
  (max_severity m = 0%Z ∨ ∃ c st, m !! c = Some st ∧ severity st = max_severity m).
Proof.
  unfold max_severity. split.
  - intros c st Hc. apply foldr_max_ub, list_elem_of_fmap_2, btree_values_elem. by exists c.
  - destruct (foldr_max_attained (severity <$> btree_values m)) as [?|Hin]; [by left|].
    right. apply list_elem_of_fmap in Hin as (st & Heq & (c & Hc)%btree_values_elem). eauto.
Qed.

Lemma max_severity_pending m :
  (∀ c st, m !! c = Some st → st = Pending) →
  max_severity m = if decide (m = ∅) then 0%Z else 1%Z.
Proof.
  intros Hall. destruct (max_severity_cases m) as [Hub Hat]. case_decide as Hm.
  - subst. done.
  - destruct (map_choose m Hm) as (c & st & Hc).
    pose proof (Hub c st Hc) as Hge. rewrite (Hall c st Hc) in Hge. cbn in Hge.
    destruct Hat as [?|(c' & st' & Hc' & <-)]; [lia|]. by rewrite (Hall _ _ Hc').
Qed.

Lemma run_op_cache_ok o reg reg' : cache_ok reg → run_op o reg = Some reg' → cache_ok reg'.
Proof.
  unfold cache_ok. intros Hok. destruct o as [n cs|n c st]; cbn.
  - unfold register. case_match eqn:E; [done|]. intros [= <-]. cbn.
    apply map_Forall_insert_2; [|done]. cbn. rewrite max_severity_pending; [done|].
    intros c st Hc%elem_of_list_to_map_2. apply list_elem_of_fmap in Hc as (? & [= -> ->] & _).
    done.
  - unfold set. repeat (case_match; [|done]).
    case_decide; intros [= <-]; [done|]. cbn. by apply map_Forall_insert_2.
Qed.

Lemma run_ops_cache_ok os reg reg' : cache_ok reg → run_ops os reg = Some reg' → cache_ok reg'.
Proof.
  revert reg. induction os as [|o os IH]; cbn; [by intros ? ? [= <-]|].
  intros reg Hok (reg1 & H1 & H2)%bind_Some. eapply IH; [|done]. by eapply run_op_cache_ok.
Qed.

Lemma forallb_btree_values {V} (p : V → bool) (m : gmap str V) :
  forallb p (btree_values m) = true ↔ ∀ k v, m !! k = Some v → p v = true.
Proof.
  rewrite forallb_forall. setoid_rewrite <-list_elem_of_In.
  setoid_rewrite btree_values_elem. naive_solver.
Qed.

(** A subsystem counts as ready exactly when no check failed and, should one be
    pending, another is degraded. *)
Definition subsystem_serves (cs : gmap str CheckState) : Prop :=
  (∀ c r, cs !! c ≠ Some (Failed r)) ∧
  ((∃ c r, cs !! c = Some (Degraded r)) ∨ (∀ c, cs !! c ≠ Some Pending)).

Lemma severity_is_ready_iff cs :
  severity_is_ready (max_severity cs) = true ↔ subsystem_serves cs.
Proof.
  destruct (max_severity_cases cs) as [Hub Hat].
  unfold severity_is_ready, subsystem_serves. rewrite orb_true_iff, !Z.eqb_eq. split.
  - intros Hs. split.
    + intros c r Hc%Hub. cbn in Hc. lia.
    + destruct Hs as [Hs|Hs].
      * right. intros c Hc%Hub. cbn in Hc. lia.
      * left. destruct Hat as [?|(c & [| |r|r] & Hc & Hsev)]; cbn in *; try lia. eauto.
  - intros [Hf Hp]. destruct Hat as [?|(c & st & Hc & Hsev)]; [by left|].
    destruct st as [| |r|r]; cbn in Hsev; [|by left|by right|by destruct (Hf c r)].
    destruct Hp as [(c' & r & Hd%Hub)|Hp]; [cbn in Hd; lia|by destruct (Hp c)].
Qed.

Lemma is_ready_severity st : is_ready st = severity_is_ready (severity st).
Proof. by destruct st. Qed.

Lemma snapshot_severity s : severity (state (subsystem_snapshot s)) = max_severity (checks s).
Proof.
  cbn. destruct (max_severity_cases (checks s)) as [Hub Hat].
  destruct (max_by_key severity (btree_values (checks s))) as [st|] eqn:E; cbn.
  - apply max_by_key_max in E as [(c & Hc)%btree_values_elem Hmax].
    pose proof (Hub c st Hc). pose proof (severity_range st).
    destruct Hat as [?|(c' & st' & Hc' & Hs)]; [lia|].
    specialize (Hmax st'). rewrite btree_values_elem in Hmax.
    rewrite <-Hs in *. apply Z.le_antisymm; eauto.
  - apply max_by_key_None in E.
    destruct Hat as [?|(c' & st' & Hc' & <-)]; [done|].
    assert (st' ∈ btree_values (checks s)) by (apply btree_values_elem; eauto).
    rewrite E in *. set_solver.
Qed.

(** Readiness is what the checks say, at any time: after any registrations and
    transitions, the cached aggregates that [/readyz] reads answer ready exactly
    when, in every subsystem, no check failed and either none is still pending or
    one is degraded; and that is also when every aggregate state that [/status]
    shows is [Ready] or [Degraded]. *)
Theorem readiness_exact os reg :
  run_ops os new = Some reg →
  (registry_is_ready reg = true ↔
     ∀ name s, subsystems reg !! name = Some s → subsystem_serves (checks s)) ∧
  (registry_is_ready reg = true ↔
     ∀ name s, snapshot reg !! name = Some s → is_ready (state s) = true).
Proof.
  intros Hrun. assert (cache_ok reg) as Hok.
  { eapply run_ops_cache_ok; [|done]. apply map_Forall_empty. }
  unfold registry_is_ready. rewrite forallb_btree_values. split.
  - split; intros Hr n s Hs; specialize (Hr n s Hs); rewrite (Hok n s Hs) in *;
      by apply severity_is_ready_iff.
  - unfold snapshot. setoid_rewrite lookup_fmap_Some.
    assert (∀ n s, subsystems reg !! n = Some s →
              severity_is_ready (aggregate_severity s) = is_ready (state (subsystem_snapshot s)))
      as Hsame.
    { intros n s Hs. by rewrite (Hok n s Hs), is_ready_severity, snapshot_severity. }
    split.
    + intros Hr n ? (s & <- & Hs). rewrite <-(Hsame n s Hs). eauto.
    + intros Hr n s Hs. rewrite (Hsame n s Hs). apply (Hr n). eauto.
Qed.

(** A registered but never reported check does not keep a subsystem from being
    ready. *)
Definition masked : list HealthOp :=
  [HRegister (lit "discovery") [lit "connected"; lit "snapshot"];
   HSet (lit "discovery") (lit "connected") (Degraded (lit "redialling"))].

(** A subsystem is not held back by a check it has yet to report: with one
    check still [Pending], a [Degraded] one makes the registry ready, since
    [Degraded] outranks [Pending] in the aggregate. *)
Theorem pending_masked_by_degraded :
  ∃ reg s, run_ops masked new = Some reg ∧
    subsystems reg !! lit "discovery" = Some s ∧
    checks s !! lit "snapshot" = Some Pending ∧
    registry_is_ready reg = true ∧ is_subsystem_ready (lit "discovery") reg = true.
Proof. do 2 eexists. split; [vm_compute; reflexivity|]. by vm_compute. Qed.

(** A transition wakes the subscribers of the registry exactly when it changes
    what they read: the change counter moves if and only if the snapshot does. *)
Theorem set_notifies_iff_changed name check st reg reg' :
  set name check st reg = Some reg' →
  (changed reg' ≠ changed reg ↔ snapshot reg' ≠ snapshot reg).
Proof.
  unfold set. destruct (subsystems reg !! name) as [s|] eqn:Es; [|done].
  destruct (checks s !! check) as [slot|] eqn:Ec; [|done].
  case_decide as Hd; intros [= <-]; [done|]. cbn. split.
  - intros _ Heq. apply (f_equal (lookup name)) in Heq. unfold snapshot in Heq. cbn in Heq.
    rewrite !lookup_fmap, lookup_insert_eq, Es in Heq. cbn in Heq.
    injection Heq as _ Heq. apply (f_equal (lookup check)) in Heq.
    rewrite lookup_insert_eq, Ec in Heq. congruence.
  - intros _. by apply wrap_succ_ne.
Qed.

(** ** Witnesses *)

Lemma readiness_exact_witness :
  ∃ reg, run_ops masked new = Some reg ∧
    (registry_is_ready reg = true ↔
       ∀ name s, subsystems reg !! name = Some s → subsystem_serves (checks s)).
Proof.
  eexists. split; [vm_compute; reflexivity|].
  apply (readiness_exact masked). vm_compute. reflexivity.
Defined.

Definition one_check : HealthRegistry :=
  default new (register (lit "tls") [lit "loaded"] new).

Lemma set_notifies_iff_changed_witness :
  ∃ reg', set (lit "tls") (lit "loaded") Ready one_check = Some reg' ∧
    (changed reg' ≠ changed one_check ↔ snapshot reg' ≠ snapshot one_check).
Proof.
  eexists. split; [vm_compute; reflexivity|].
  apply (set_notifies_iff_changed (lit "tls") (lit "loaded") Ready).
  vm_compute. reflexivity.
Defined.
