(* ===== verification/NodeRegistry.v ===== *)
(** * The registry of connected proxy nodes

    Models [crates/coxswain-core/src/node_registry.rs]: the rows of the connected
    proxies and relays, the operations of [NodeRegistryHandle] with the two change
    counters they bump, and the quorum queries behind the [Programmed] condition
    of a Gateway. *)

From S2P Require Import Prelude Health.

Inductive NodeScope :=
| SharedPool
| GatewayScope (namespace name : str)
| NamespaceScope (namespace : str).

#[export] Instance NodeScope_eq_dec : EqDecision NodeScope.
Proof. solve_decision. Defined.

Record NodeHealth := mkNodeHealth {
  nh_version : str;
  nh_snapshot : gmap str SubsystemSnapshot;
  reported_at : Z;
}.

#[export] Instance NodeHealth_eq_dec : EqDecision NodeHealth.
Proof. solve_decision. Defined.

Record NodeEntry := mkNodeEntry {
  node_id : str;
  scope : NodeScope;
  last_acked_version : option str;
  target_version : option str;
  last_ack_at : option Z;
  connected_since : Z;
  bound_ports : option (gset Z);
  last_acked_seq : option Z;
  parent : option str;
  is_relay : bool;
  health : option NodeHealth;
}.

Record RosterChild := mkRosterChild {
  rc_node_id : str;
  rc_scope : NodeScope;
  rc_last_acked_version : option str;
  rc_target_version : option str;
  rc_last_acked_seq : option Z;
  rc_bound_ports : option (gset Z);
  rc_connected_since : Z;
  rc_last_ack_at : option Z;
  rc_health : option NodeHealth;
}.

Definition in_sync (e : NodeEntry) : bool :=
  match last_acked_version e with
  | Some _ => bool_decide (last_acked_version e = target_version e)
  | None => false
  end.

(** The fields of a child's row that the [Programmed] gate reads. *)
Record GateRow := mkGateRow {
  gr_node_id : str;
  gr_scope : NodeScope;
  gr_last_acked_version : option str;
  gr_target_version : option str;
  gr_last_acked_seq : option Z;
  gr_bound_ports : option (gset Z);
}.

#[export] Instance GateRow_eq_dec : EqDecision GateRow.
Proof. solve_decision. Defined.

Notation NodeRegistry := (gmap str NodeEntry).

Section queries.
Context `{HashIter}.

Definition values (nodes : NodeRegistry) : list NodeEntry := (hash_iter nodes).*2.

Definition shared_leaf (e : NodeEntry) : bool :=
  bool_decide (scope e = SharedPool) && negb (is_relay e).

Definition serves_gateway (namespace name : str) (e : NodeEntry) : bool :=
  bool_decide (scope e = GatewayScope namespace name).

Definition in_namespace (namespace : str) (e : NodeEntry) : bool :=
  match scope e with GatewayScope ns _ => bool_decide (ns = namespace) | _ => false end.

Definition namespace_relay (namespace : str) (e : NodeEntry) : bool :=
  is_relay e && bool_decide (scope e = NamespaceScope namespace).

Definition shared_relay (e : NodeEntry) : bool :=
  is_relay e && bool_decide (scope e = SharedPool).

(** [min_by] on the node id: the first of the least. *)
Fixpoint min_node (l : list NodeEntry) : option NodeEntry :=
  match l with
  | [] => None
  | e :: l =>
      match min_node l with
      | Some m => if str_leb (node_id e) (node_id m) then Some e else Some m
      | None => Some e
      end
  end.

Definition controller_version (nodes : NodeRegistry) : option str :=
  min_node (filter shared_leaf (values nodes)) ≫= target_version.

(** The loop of [nodes_bound] and [nodes_acked]. *)
Fixpoint quorum_loop (ok : NodeEntry → bool) (l : list NodeEntry) (any : bool) : bool :=
  match l with
  | [] => any
  | e :: l => if ok e then quorum_loop ok l true else false
  end.

Definition covers (required : gset Z) (e : NodeEntry) : bool :=
  match bound_ports e with Some bound => bool_decide (required ⊆ bound) | None => false end.

Definition reached (min_seq : Z) (e : NodeEntry) : bool :=
  match last_acked_seq e with Some s => negb (s <? min_seq)%Z | None => false end.

Definition nodes_bound (pred : NodeEntry → bool) (required : gset Z) (nodes : NodeRegistry)
    : bool :=
  quorum_loop (covers required) (filter pred (values nodes)) false.

Definition nodes_acked (pred : NodeEntry → bool) (min_seq : Z) (nodes : NodeRegistry) : bool :=
  quorum_loop (reached min_seq) (filter pred (values nodes)) false.

Definition all_shared_nodes_bound (required : gset Z) (nodes : NodeRegistry) : bool :=
  nodes_bound shared_leaf required nodes.

Definition gateway_node_bound (namespace name : str) (required : gset Z) (nodes : NodeRegistry)
    : bool :=
  nodes_bound (serves_gateway namespace name) required nodes.

Definition all_shared_nodes_acked (min_seq : Z) (nodes : NodeRegistry) : bool :=
  nodes_acked shared_leaf min_seq nodes.

Definition gateway_node_acked (namespace name : str) (min_seq : Z) (nodes : NodeRegistry)
    : bool :=
  nodes_acked (serves_gateway namespace name) min_seq nodes.

Definition gateway_node_count (namespace name : str) (nodes : NodeRegistry) : nat :=
  length (filter (serves_gateway namespace name) (values nodes)).

Definition namespace_leaf_count (namespace : str) (nodes : NodeRegistry) : nat :=
  length (filter (in_namespace namespace) (values nodes)).

Definition relay_ready (namespace : str) (nodes : NodeRegistry) : bool :=
  existsb (λ e, namespace_relay namespace e && in_sync e) (values nodes).

Definition shared_pool_relay_ready (nodes : NodeRegistry) : bool :=
  existsb (λ e, shared_relay e && in_sync e) (values nodes).

Definition subscribed (relay_ids : gset str) (e : NodeEntry) : bool :=
  match parent e with Some p => bool_decide (p ∈ relay_ids) | None => false end.

(** The rows whose parent is one of the relays that [relay] selects. *)
Definition subscriber_count (relay : NodeEntry → bool) (nodes : NodeRegistry) : nat :=
  let relay_ids : gset str := list_to_set (node_id <$> filter relay (values nodes)) in
  if decide (relay_ids = ∅) then 0
  else length (filter (subscribed relay_ids) (values nodes)).

Definition relay_subscriber_count (namespace : str) (nodes : NodeRegistry) : nat :=
  subscriber_count (namespace_relay namespace) nodes.

Definition shared_pool_relay_subscriber_count (nodes : NodeRegistry) : nat :=
  subscriber_count shared_relay nodes.

Definition all_in_sync (nodes : NodeRegistry) : bool := forallb in_sync (values nodes).

(** ** The handle *)

(** The rows, the counter of the gate's watch and that of the roster's. *)
Record Handle := mkHandle {
  nodes : NodeRegistry;
  notify : Z;
  roster : Z;
}.

Definition empty_handle : Handle := mkHandle ∅ 0 0.

Definition bump (h : Handle) : Handle := mkHandle (nodes h) (wrap 64 (notify h + 1)) (roster h).
Definition bump_roster (h : Handle) : Handle :=
  mkHandle (nodes h) (notify h) (wrap 64 (roster h + 1)).
Definition with_nodes (m : NodeRegistry) (h : Handle) : Handle := mkHandle m (notify h) (roster h).

Definition connect (id : str) (sc : NodeScope) (now : Z) (h : Handle) : Handle :=
  let entry := mkNodeEntry id sc None None None now None None None false None in
  bump_roster (bump (with_nodes (<[id := entry]> (nodes h)) h)).

Definition max_seq (old : option Z) (seq : Z) : option Z := Some (Z.max (default 0%Z old) seq).

(** Change the row of [id], if there is one, and bump the roster watch. *)
Definition stamp_row (id : str) (f : NodeEntry → NodeEntry) (h : Handle) : Handle :=
  match nodes h !! id with
  | Some e => bump_roster (with_nodes (<[id := f e]> (nodes h)) h)
  | None => h
  end.

Definition record_ack (id version : str) (seq now : Z) : Handle → Handle :=
  stamp_row id (λ e,
    mkNodeEntry (node_id e) (scope e) (Some version) (target_version e) (Some now)
      (connected_since e) (bound_ports e) (max_seq (last_acked_seq e) seq) (parent e)
      (is_relay e) (health e)).

Definition advance_acked_seq (id : str) (seq : Z) : Handle → Handle :=
  stamp_row id (λ e,
    mkNodeEntry (node_id e) (scope e) (last_acked_version e) (target_version e) (last_ack_at e)
      (connected_since e) (bound_ports e) (max_seq (last_acked_seq e) seq) (parent e)
      (is_relay e) (health e)).

Definition record_target (id version : str) : Handle → Handle :=
  stamp_row id (λ e,
    mkNodeEntry (node_id e) (scope e) (last_acked_version e) (Some version) (last_ack_at e)
      (connected_since e) (bound_ports e) (last_acked_seq e) (parent e) (is_relay e) (health e)).

Definition record_bound_ports (id : str) (ports : gset Z) (h : Handle) : Handle :=
  match nodes h !! id with
  | None => h
  | Some e =>
      if bool_decide (bound_ports e = Some ports) then h
      else
        let e' := mkNodeEntry (node_id e) (scope e) (last_acked_version e) (target_version e)
                    (last_ack_at e) (connected_since e) (Some ports) (last_acked_seq e)
                    (parent e) (is_relay e) (health e) in
        bump_roster (bump (with_nodes (<[id := e']> (nodes h)) h))
  end.

Definition record_health (id : str) (hl : NodeHealth) (h : Handle) : Handle :=
  match nodes h !! id with
  | None => h
  | Some e =>
      if bool_decide (health e = Some hl) then h
      else
        let e' := mkNodeEntry (node_id e) (scope e) (last_acked_version e) (target_version e)
                    (last_ack_at e) (connected_since e) (bound_ports e) (last_acked_seq e)
                    (parent e) (is_relay e) (Some hl) in
        bump_roster (with_nodes (<[id := e']> (nodes h)) h)
  end.

Definition gate_row (e : NodeEntry) : GateRow :=
  mkGateRow (node_id e) (scope e) (last_acked_version e) (target_version e) (last_acked_seq e)
    (bound_ports e).

Definition child_of (p : str) (e : NodeEntry) : bool := bool_decide (parent e = Some p).

Definition gate_projection (m : NodeRegistry) (p : str) : list GateRow :=
  sort_by (λ a b, str_leb (gr_node_id a) (gr_node_id b))
    (gate_row <$> filter (child_of p) (values m)).

(** Mark the reporting node as a relay; whether it was not one before. *)
Definition mark_relay (p : str) (m : NodeRegistry) : NodeRegistry * bool :=
  match m !! p with
  | Some e =>
      (<[p := mkNodeEntry (node_id e) (scope e) (last_acked_version e) (target_version e)
                (last_ack_at e) (connected_since e) (bound_ports e) (last_acked_seq e)
                (parent e) true (health e)]> m, negb (is_relay e))
  | None => (m, false)
  end.

Definition entry_of_child (p : str) (c : RosterChild) : NodeEntry :=
  mkNodeEntry (rc_node_id c) (rc_scope c) (rc_last_acked_version c) (rc_target_version c)
    (rc_last_ack_at c) (rc_connected_since c) (rc_bound_ports c) (rc_last_acked_seq c)
    (Some p) false (rc_health c).

(** One round of the loop over the report: a directly connected row stays. *)
Definition fold_child (p : str) (m : NodeRegistry) (c : RosterChild) : NodeRegistry :=
  match m !! rc_node_id c with
  | Some e => if bool_decide (parent e = None) then m
              else <[rc_node_id c := entry_of_child p c]> m
  | None => <[rc_node_id c := entry_of_child p c]> m
  end.

Definition drop_children (p : str) (m : NodeRegistry) : NodeRegistry :=
  filter (λ kv, parent kv.2 ≠ Some p) m.

Definition apply_roster (p : str) (children : list RosterChild) (h : Handle) : Handle :=
  let '(m1, newly_marked) := mark_relay p (nodes h) in
  let before := gate_projection m1 p in
  let m2 := drop_children p m1 in
  let m3 := foldl (fold_child p) m2 children in
  let gate_changed := newly_marked || negb (bool_decide (gate_projection m3 p = before)) in
  let h' := with_nodes m3 h in
  bump_roster (if gate_changed then bump h' else h').

Definition evict_children (p : str) (h : Handle) : Handle :=
  let m := drop_children p (nodes h) in
  if decide (size m = size (nodes h)) then with_nodes m h
  else bump_roster (bump (with_nodes m h)).

Definition disconnect (id : str) (h : Handle) : Handle :=
  match nodes h !! id with
  | Some _ => bump_roster (bump (with_nodes (delete id (nodes h)) h))
  | None => with_nodes (delete id (nodes h)) h
  end.

(** ** Sequences of operations *)

Inductive RegistryOp :=
| OpConnect (id : str) (sc : NodeScope) (now : Z)
| OpAck (id version : str) (seq now : Z)
| OpAdvance (id : str) (seq : Z)
| OpTarget (id version : str)
| OpBound (id : str) (ports : gset Z)
| OpHealth (id : str) (hl : NodeHealth)
| OpRoster (p : str) (children : list RosterChild)
| OpEvict (p : str)
| OpDisconnect (id : str).

Definition run_op (o : RegistryOp) : Handle → Handle :=
  match o with
  | OpConnect id sc now => connect id sc now
  | OpAck id v s now => record_ack id v s now
  | OpAdvance id s => advance_acked_seq id s
  | OpTarget id v => record_target id v
  | OpBound id ports => record_bound_ports id ports
  | OpHealth id hl => record_health id hl
  | OpRoster p cs => apply_roster p cs
  | OpEvict p => evict_children p
  | OpDisconnect id => disconnect id
  end.

Definition run_ops (os : list RegistryOp) (h : Handle) : Handle :=
  foldl (λ h o, run_op o h) h os.

End queries.
