(* ===== verification/NodeRegistryFacts.v ===== *)
(** * Correctness of the node registry

    The quorum queries fail closed; a relay's report changes its own subtree and
    nothing else; whatever moves a quorum other than an acknowledgement wakes the
    gate; and acknowledged sequences never move back. *)

From S2P Require Import Prelude Health NodeRegistry.

Section facts.
Context `{HashIter}.
Implicit Types (m : NodeRegistry) (h : Handle) (e : NodeEntry) (id p : str).

Lemma values_elem m e : e ∈ values m ↔ ∃ id, m !! id = Some e.
Proof.
  unfold values. rewrite list_elem_of_fmap. split.
  - intros ([id e'] & -> & Hin%hash_iter_elem). by exists id.
  - intros (id & Hid). exists (id, e). split; [done|]. by apply hash_iter_elem.
Qed.

(** ** Quorums *)

Lemma quorum_loop_true ok (l : list NodeEntry) any :
  quorum_loop ok l any = true ↔ (any = true ∨ l ≠ []) ∧ ∀ e, e ∈ l → ok e = true.
Proof.
  revert any. induction l as [|e l IH]; intros any; cbn; [set_solver|].
  destruct (ok e) eqn:E.
  - rewrite IH. split; [|naive_solver set_solver].
    intros [_ Hall]. split; [by right|]. intros e' [->|?]%elem_of_cons; auto.
  - split; [done|]. intros [_ Hall]. rewrite Hall in E by set_solver. done.
Qed.

Definition quorum (pred ok : NodeEntry → bool) m : Prop :=
  (∃ id e, m !! id = Some e ∧ pred e = true) ∧
  (∀ id e, m !! id = Some e → pred e = true → ok e = true).

Lemma quorum_loop_iff (pred ok : NodeEntry → bool) m :
  quorum_loop ok (filter pred (values m)) false = true ↔ quorum pred ok m.
Proof.
  rewrite quorum_loop_true. unfold quorum.
  assert (∀ e, e ∈ filter pred (values m) ↔ ∃ id, m !! id = Some e ∧ pred e = true) as Hin.
  { intros e. rewrite list_elem_of_filter, values_elem, Is_true_true. naive_solver. }
  split.
  - intros [[?|Hne] Hall]; [done|]. split; [|naive_solver].
    destruct (filter pred (values m)) as [|e l]; [done|].
    destruct (proj1 (Hin e)) as (id & ? & ?); [set_solver|]. eauto.
  - intros [(id & e & Hid & He) Hall]. split; [|naive_solver].
    right. intros Heq. rewrite Heq in Hin.
    assert (e ∈ []) as ?%not_elem_of_nil by (apply Hin; eauto). done.
Qed.

(** The quorums fail closed and are exact.  A quorum over the shared pool, or
    over the proxies of one Gateway, holds if and only if at least one such leaf
    is connected and every one of them has reported ports that include the
    required ones (respectively has acknowledged at least the required sequence);
    a relay's own row never counts for the pool, whatever the order the rows are
    visited in. *)
Theorem quorums_fail_closed m ns name required min_seq :
  (all_shared_nodes_bound required m = true ↔
     (∃ id e, m !! id = Some e ∧ scope e = SharedPool ∧ is_relay e = false) ∧
     ∀ id e, m !! id = Some e → scope e = SharedPool → is_relay e = false →
       ∃ bound, bound_ports e = Some bound ∧ required ⊆ bound) ∧
  (all_shared_nodes_acked min_seq m = true ↔
     (∃ id e, m !! id = Some e ∧ scope e = SharedPool ∧ is_relay e = false) ∧
     ∀ id e, m !! id = Some e → scope e = SharedPool → is_relay e = false →
       ∃ s, last_acked_seq e = Some s ∧ (min_seq ≤ s)%Z) ∧
  (gateway_node_bound ns name required m = true ↔
     (∃ id e, m !! id = Some e ∧ scope e = GatewayScope ns name) ∧
     ∀ id e, m !! id = Some e → scope e = GatewayScope ns name →
       ∃ bound, bound_ports e = Some bound ∧ required ⊆ bound) ∧
  (gateway_node_acked ns name min_seq m = true ↔
     (∃ id e, m !! id = Some e ∧ scope e = GatewayScope ns name) ∧
     ∀ id e, m !! id = Some e → scope e = GatewayScope ns name →
       ∃ s, last_acked_seq e = Some s ∧ (min_seq ≤ s)%Z).
Proof.
  unfold all_shared_nodes_bound, all_shared_nodes_acked, gateway_node_bound,
    gateway_node_acked, nodes_bound, nodes_acked.
  rewrite !quorum_loop_iff. unfold quorum, shared_leaf, serves_gateway.
  setoid_rewrite andb_true_iff. setoid_rewrite bool_decide_eq_true.
  setoid_rewrite negb_true_iff.
  assert (∀ e, covers required e = true ↔ ∃ bound, bound_ports e = Some bound ∧ required ⊆ bound)
    as Hc.
  { intros e. unfold covers. destruct (bound_ports e); [|naive_solver].
    rewrite bool_decide_eq_true. naive_solver. }
  assert (∀ e, reached min_seq e = true ↔ ∃ s, last_acked_seq e = Some s ∧ (min_seq ≤ s)%Z) as Hr.
  { intros e. unfold reached. destruct (last_acked_seq e) as [s|]; [|naive_solver].
    rewrite negb_true_iff, Z.ltb_ge. naive_solver. }
  setoid_rewrite Hc. setoid_rewrite Hr. naive_solver.
Qed.

(** ** A relay's report *)

(** The last entry of a report for [id]. *)
Definition last_child id (cs : list RosterChild) : option RosterChild :=
  last (filter (λ c, rc_node_id c = id) cs).

Lemma fold_child_lookup p c m id :
  fold_child p m c !! id =
  match m !! id with
  | Some e =>
      if bool_decide (parent e = None) then Some e
      else if decide (rc_node_id c = id) then Some (entry_of_child p c) else Some e
  | None => if decide (rc_node_id c = id) then Some (entry_of_child p c) else None
  end.
Proof.
  unfold fold_child. destruct (decide (rc_node_id c = id)) as [<-|Hne].
  - destruct (m !! rc_node_id c) as [e|] eqn:E; [|by rewrite lookup_insert_eq].
    case_bool_decide; [done|by rewrite lookup_insert_eq].
  - assert (fold_child p m c !! id = m !! id) as Heq.
    { unfold fold_child. repeat case_match; by rewrite ?lookup_insert_ne. }
    unfold fold_child in Heq. rewrite Heq. destruct (m !! id); [by case_bool_decide|done].
Qed.

Lemma last_child_cons id c cs :
  last_child id (c :: cs) =
  match last_child id cs with
  | Some d => Some d
  | None => if decide (rc_node_id c = id) then Some c else None
  end.
Proof.
  unfold last_child. rewrite filter_cons. case_decide; [by rewrite last_cons|].
  by destruct (last _).
Qed.

Lemma fold_children_lookup p cs m id :
  foldl (fold_child p) m cs !! id =
  match m !! id with
  | Some e =>
      if bool_decide (parent e = None) then Some e
      else match last_child id cs with Some c => Some (entry_of_child p c) | None => Some e end
  | None => entry_of_child p <$> last_child id cs
  end.
Proof.
  revert m. induction cs as [|c cs IH]; intros m.
  { cbn. destruct (m !! id); [by case_bool_decide|done]. }
  cbn [foldl]. rewrite IH, fold_child_lookup, last_child_cons.
  destruct (m !! id) as [e|]; [case_bool_decide as Hd|];
    [by rewrite bool_decide_eq_true_2|..];
    case_decide; cbn; rewrite ?(bool_decide_eq_false_2 (parent e = None)) by done;
    by destruct (last_child id cs).
Qed.

(** The rows after [mark_relay]. *)
Definition marked e : NodeEntry :=
  mkNodeEntry (node_id e) (scope e) (last_acked_version e) (target_version e)
    (last_ack_at e) (connected_since e) (bound_ports e) (last_acked_seq e)
    (parent e) true (health e).

Lemma mark_relay_lookup p m id :
  (mark_relay p m).1 !! id = if decide (p = id) then marked <$> m !! id else m !! id.
Proof.
  unfold mark_relay. destruct (m !! p) as [e|] eqn:E; cbn; case_decide as Hd; subst.
  - by rewrite lookup_insert_eq, E.
  - by rewrite lookup_insert_ne.
  - by rewrite E.
  - done.
Qed.

Lemma drop_children_lookup p m id :
  drop_children p m !! id = m !! id ≫= λ e, if decide (parent e = Some p) then None else Some e.
Proof.
  unfold drop_children. destruct (m !! id) as [e|] eqn:E; cbn.
  - case_decide.
    + apply map_lookup_filter_None. right. intros e' He'. simplify_eq/=. naive_solver.
    + by apply map_lookup_filter_Some.
  - apply map_lookup_filter_None. by left.
Qed.

Lemma apply_roster_nodes p cs h :
  nodes (apply_roster p cs h)
  = foldl (fold_child p) (drop_children p (mark_relay p (nodes h)).1) cs.
Proof. unfold apply_roster. destruct (mark_relay p (nodes h)). by case_match. Qed.

Lemma apply_roster_lookup p cs h id :
  nodes (apply_roster p cs h) !! id =
  let before := if decide (p = id) then marked <$> nodes h !! id else nodes h !! id in
  match before with
  | Some e =>
      match parent e with
      | None => Some e
      | Some q =>
          match last_child id cs with
          | Some c => Some (entry_of_child p c)
          | None => if decide (q = p) then None else Some e
          end
      end
  | None => entry_of_child p <$> last_child id cs
  end.
Proof.
  rewrite apply_roster_nodes, fold_children_lookup, drop_children_lookup, mark_relay_lookup.
  cbv zeta. destruct (if decide (p = id) then _ else _) as [e|]; cbn; [|done].
  destruct (parent e) as [q|] eqn:Ep; cbn.
  - destruct (decide (q = p)) as [->|Hne].
    + rewrite decide_True by done. cbn. by destruct (last_child id cs).
    + rewrite decide_False by congruence. rewrite bool_decide_eq_false_2 by congruence. done.
  - rewrite decide_False by done. by rewrite bool_decide_eq_true_2.
Qed.

(** A relay's report replaces that relay's subtree and touches nothing else.
    After it, a directly connected row is as before, except that the reporting
    node's own is marked as a relay; every other id has the row of the last
    report entry for it, tagged with the relay as its parent; and an id absent
    from the report keeps its row only if it was not a child of this relay. *)
Theorem apply_roster_rows p cs h id :
  nodes (apply_roster p cs h) !! id =
  let before := if decide (p = id) then marked <$> nodes h !! id else nodes h !! id in
  match before with
  | Some e =>
      match parent e with
      | None => Some e
      | Some q =>
          match last_child id cs with
          | Some c => Some (entry_of_child p c)
          | None => if decide (q = p) then None else Some e
          end
      end
  | None => entry_of_child p <$> last_child id cs
  end.
Proof. apply apply_roster_lookup. Qed.

(** ** Waking the gate *)

(** What the quorums read of a row. *)
Definition gate_inputs e : NodeScope * option Z * option (gset Z) * bool :=
  (scope e, last_acked_seq e, bound_ports e, is_relay e).

Inductive GateQuery :=
| QSharedBound (required : gset Z)
| QSharedAcked (min_seq : Z)
| QGatewayBound (ns name : str) (required : gset Z)
| QGatewayAcked (ns name : str) (min_seq : Z).

Definition ask (q : GateQuery) m : bool :=
  match q with
  | QSharedBound r => all_shared_nodes_bound r m
  | QSharedAcked s => all_shared_nodes_acked s m
  | QGatewayBound ns n r => gateway_node_bound ns n r m
  | QGatewayAcked ns n s => gateway_node_acked ns n s m
  end.

Definition same_inputs m m' : Prop :=
  ∀ id, gate_inputs <$> m !! id = gate_inputs <$> m' !! id.

Lemma same_inputs_sym m m' : same_inputs m m' → same_inputs m' m.
Proof. intros Hs id. by rewrite Hs. Qed.

Lemma quorum_inputs (pred ok : NodeEntry → bool) m m' :
  (∀ e e', gate_inputs e = gate_inputs e' → pred e = pred e' ∧ ok e = ok e') →
  same_inputs m m' → quorum pred ok m → quorum pred ok m'.
Proof.
  intros Hext Hs [(id & e & Hid & He) Hall].
  assert (∀ id e, m' !! id = Some e → ∃ e0, m !! id = Some e0 ∧ gate_inputs e0 = gate_inputs e)
    as Hback.
  { intros id' e' Hid'. specialize (Hs id'). rewrite Hid' in Hs. cbn in Hs.
    apply fmap_Some in Hs as (e0 & Hm & Heq). eauto. }
  split.
  - specialize (Hs id). rewrite Hid in Hs. cbn in Hs.
    symmetry in Hs. apply fmap_Some in Hs as (e' & Hm' & Heq).
    exists id, e'. split; [done|]. destruct (Hext _ _ Heq) as [<- _]. done.
  - intros id' e' Hid' He'. destruct (Hback _ _ Hid') as (e0 & Hm & Heq).
    destruct (Hext _ _ Heq) as [Hp <-]. apply (Hall id'); [done|]. by rewrite Hp.
Qed.

Lemma quorum_loop_inputs (pred ok : NodeEntry → bool) m m' :
  (∀ e e', gate_inputs e = gate_inputs e' → pred e = pred e' ∧ ok e = ok e') →
  same_inputs m m' →
  quorum_loop ok (filter pred (values m)) false = quorum_loop ok (filter pred (values m')) false.
Proof.
  intros Hext Hs. apply eq_true_iff_eq. rewrite !quorum_loop_iff.
  split; apply quorum_inputs; auto using same_inputs_sym.
Qed.

Lemma ask_inputs q m m' : same_inputs m m' → ask q m = ask q m'.
Proof.
  intros Hs. destruct q; apply quorum_loop_inputs; try done;
    unfold gate_inputs, shared_leaf, serves_gateway, covers, reached;
    intros e e' [= H1 H2 H3 H4]; rewrite ?H1, ?H2, ?H3, ?H4; done.
Qed.

(** Every row is stored under its node's id. *)
Definition keys_ok m : Prop := ∀ id e, m !! id = Some e → node_id e = id.

Lemma keys_ok_insert m id e : keys_ok m → node_id e = id → keys_ok (<[id := e]> m).
Proof. intros Hk He id' e' [[<- <-]|[? ?]]%lookup_insert_Some; [done|by apply Hk]. Qed.

Lemma last_child_id id cs c : last_child id cs = Some c → rc_node_id c = id.
Proof. unfold last_child. by intros [? _]%last_Some_elem_of%list_elem_of_filter. Qed.

Lemma apply_roster_keys_ok p cs h : keys_ok (nodes h) → keys_ok (nodes (apply_roster p cs h)).
Proof.
  intros Hk id e. rewrite apply_roster_lookup. cbv zeta.
  assert (∀ e, (if decide (p = id) then marked <$> nodes h !! id else nodes h !! id) = Some e →
            node_id e = id) as Hb.
  { intros e' He'. case_decide; [|by apply Hk].
    apply fmap_Some in He' as (e0 & He0 & ->). exact (Hk id e0 He0). }
  destruct (if decide (p = id) then _ else _) as [e0|].
  - destruct (parent e0); [|intros [= <-]; by apply Hb].
    destruct (last_child id cs) eqn:El.
    + intros [= <-]. by eapply last_child_id.
    + case_decide; [done|]. intros [= <-]. by apply Hb.
  - intros (c & El & ->)%fmap_Some. by eapply last_child_id.
Qed.

Lemma stamp_row_keys_ok id f h :
  (∀ e, node_id (f e) = node_id e) → keys_ok (nodes h) → keys_ok (nodes (stamp_row id f h)).
Proof.
  intros Hf Hk. unfold stamp_row. destruct (nodes h !! id) eqn:E; [|done]. cbn.
  apply keys_ok_insert; [done|]. rewrite Hf. by apply Hk.
Qed.

Lemma run_op_keys_ok o h : keys_ok (nodes h) → keys_ok (nodes (run_op o h)).
Proof.
  intros Hk. destruct o; cbn [run_op].
  - by apply keys_ok_insert.
  - by apply stamp_row_keys_ok.
  - by apply stamp_row_keys_ok.
  - by apply stamp_row_keys_ok.
  - unfold record_bound_ports. destruct (nodes h !! id) as [e|] eqn:E; [|done].
    case_bool_decide; [done|]. apply keys_ok_insert; [done|]. exact (Hk id e E).
  - unfold record_health. destruct (nodes h !! id) as [e|] eqn:E; [|done].
    case_bool_decide; [done|]. apply keys_ok_insert; [done|]. exact (Hk id e E).
  - by apply apply_roster_keys_ok.
  - unfold evict_children. intros id e Hid. apply Hk.
    assert (drop_children p (nodes h) !! id = Some e) as Hd by (by case_decide).
    rewrite drop_children_lookup in Hd.
    apply bind_Some in Hd as (e0 & He0 & Hd). case_decide; by simplify_eq.
  - unfold disconnect. intros id' e Hid. apply Hk.
    assert (delete id (nodes h) !! id' = Some e) as [_ Hd]%lookup_delete_Some by (by case_match).
    done.
Qed.

Lemma run_ops_keys_ok os h : keys_ok (nodes h) → keys_ok (nodes (run_ops os h)).
Proof.
  revert h. induction os as [|o os IH]; [done|]. intros h Hk. cbn.
  by apply IH, run_op_keys_ok.
Qed.

(** The rows a relay has folded are leaves. *)
Definition children_are_leaves p m : Prop :=
  ∀ id e, m !! id = Some e → parent e = Some p → is_relay e = false.

Lemma gate_projection_elem r m p :
  r ∈ gate_projection m p ↔ ∃ id e, m !! id = Some e ∧ parent e = Some p ∧ gate_row e = r.
Proof.
  unfold gate_projection. rewrite elem_of_sort_by, list_elem_of_fmap.
  setoid_rewrite list_elem_of_filter. setoid_rewrite values_elem.
  unfold child_of. setoid_rewrite bool_decide_spec. naive_solver.
Qed.

(** Equal projections of one relay's subtree before and after mean equal inputs. *)
Lemma projection_determines m m' p id e :
  gate_projection m p = gate_projection m' p → keys_ok m → keys_ok m' →
  m !! id = Some e → parent e = Some p →
  ∃ e', m' !! id = Some e' ∧ parent e' = Some p ∧ gate_row e' = gate_row e.
Proof.
  intros Hp Hk Hk' He Hpar.
  assert (gate_row e ∈ gate_projection m' p) as Hin.
  { rewrite <-Hp. apply gate_projection_elem. eauto. }
  apply gate_projection_elem in Hin as (id' & e' & He' & Hpar' & Hrow).
  assert (id' = id) as ->.
  { rewrite <-(Hk id e He), <-(Hk' id' e' He').
    by apply (f_equal gr_node_id) in Hrow. }
  eauto.
Qed.

Lemma mark_relay_quiet p m :
  (mark_relay p m).2 = false → same_inputs (mark_relay p m).1 m.
Proof.
  unfold mark_relay, same_inputs. destruct (m !! p) as [e|] eqn:E; cbn; [|done].
  intros Hr%negb_false_iff id. destruct (decide (p = id)) as [<-|Hne].
  - rewrite lookup_insert_eq, E. unfold gate_inputs. cbn. by rewrite Hr.
  - by rewrite lookup_insert_ne.
Qed.

Lemma mark_relay_leaves p m :
  (mark_relay p m).2 = false → children_are_leaves p m →
  children_are_leaves p (mark_relay p m).1.
Proof.
  intros Hq Hl id e. rewrite mark_relay_lookup. case_decide as Hd; [subst|by apply Hl].
  intros (e0 & He0 & ->)%fmap_Some Hpar. cbn in Hpar. specialize (Hl _ _ He0 Hpar).
  unfold mark_relay in Hq. rewrite He0 in Hq. cbn in Hq. by rewrite Hl in Hq.
Qed.

Lemma gate_row_inputs e e' :
  gate_row e = gate_row e' → is_relay e = is_relay e' → gate_inputs e = gate_inputs e'.
Proof. unfold gate_row, gate_inputs. intros [=] ?. congruence. Qed.

Lemma mark_relay_keys_ok p m : keys_ok m → keys_ok (mark_relay p m).1.
Proof.
  intros Hk. unfold mark_relay. destruct (m !! p) eqn:E; [|done].
  apply keys_ok_insert; [done|]. exact (Hk _ _ E).
Qed.

(** A report that leaves the projection as it was leaves every input as it was. *)
Lemma apply_roster_same p cs h :
  keys_ok (nodes h) → children_are_leaves p (mark_relay p (nodes h)).1 →
  gate_projection (nodes (apply_roster p cs h)) p
    = gate_projection (mark_relay p (nodes h)).1 p →
  same_inputs (nodes (apply_roster p cs h)) (mark_relay p (nodes h)).1.
Proof.
  intros Hk Hl Hp id.
  assert (keys_ok (mark_relay p (nodes h)).1) as Hk1 by by apply mark_relay_keys_ok.
  assert (keys_ok (nodes (apply_roster p cs h))) as Hk3 by by apply apply_roster_keys_ok.
  pose proof (apply_roster_lookup p cs h id) as Hlk. cbv zeta in Hlk.
  rewrite <-mark_relay_lookup in Hlk.
  assert (∀ c, nodes (apply_roster p cs h) !! id = Some (entry_of_child p c) →
            ∃ e, (mark_relay p (nodes h)).1 !! id = Some e ∧ parent e = Some p ∧
                 gate_inputs (entry_of_child p c) = gate_inputs e) as Hchild.
  { intros c Hc. destruct (projection_determines _ _ p id _ Hp Hk3 Hk1 Hc eq_refl)
      as (e & He & Hpar & Hrow).
    exists e. split_and!; [done..|]. apply gate_row_inputs; [done|].
    cbn. symmetry. by apply (Hl id). }
  destruct ((mark_relay p (nodes h)).1 !! id) as [e|] eqn:Em.
  - destruct (parent e) as [q|] eqn:Epar; [|by rewrite Hlk].
    destruct (last_child id cs) as [c|].
    + destruct (Hchild c Hlk) as (e' & [= <-] & _ & Hin). rewrite Hlk. cbn. by rewrite Hin.
    + case_decide as Hq; [|by rewrite Hlk]. subst q.
      destruct (projection_determines _ _ p id e (eq_sym Hp) Hk1 Hk3 Em Epar)
        as (e' & He' & _). congruence.
  - destruct (last_child id cs) as [c|]; [|by rewrite Hlk].
    destruct (Hchild c Hlk) as (e' & [=] & _).
Qed.

Lemma apply_roster_wakes p cs h :
  keys_ok (nodes h) → children_are_leaves p (nodes h) →
  notify (apply_roster p cs h) = notify h →
  same_inputs (nodes (apply_roster p cs h)) (nodes h).
Proof.
  intros Hk Hl Hn.
  assert ((mark_relay p (nodes h)).2 = false ∧
          gate_projection (nodes (apply_roster p cs h)) p
            = gate_projection (mark_relay p (nodes h)).1 p) as [Hq Hp].
  { rewrite apply_roster_nodes. unfold apply_roster in Hn.
    destruct (mark_relay p (nodes h)) as [m1 newly]. cbn in *.
    destruct newly; cbn in Hn; [by apply wrap_succ_ne in Hn|].
    case_bool_decide; cbn in Hn; [done|by apply wrap_succ_ne in Hn]. }
  intros id. rewrite (apply_roster_same p cs h); [|done| |done].
  - by apply mark_relay_quiet.
  - by apply mark_relay_leaves.
Qed.

Definition is_ack_stamp (o : RegistryOp) : bool :=
  match o with OpAck _ _ _ _ | OpAdvance _ _ => true | _ => false end.

Lemma quiet_op_same o h :
  keys_ok (nodes h) → (∀ p cs, o = OpRoster p cs → children_are_leaves p (nodes h)) →
  is_ack_stamp o = false → notify (run_op o h) = notify h →
  same_inputs (nodes (run_op o h)) (nodes h).
Proof.
  intros Hk Hl Ho Hn. destruct o; cbn [run_op] in *; try done.
  - by apply wrap_succ_ne in Hn.
  - intros id'. unfold record_target, stamp_row. destruct (nodes h !! id) as [e|] eqn:E; [|done].
    cbn. destruct (decide (id = id')) as [<-|?]; [by rewrite lookup_insert_eq, E|].
    by rewrite lookup_insert_ne.
  - unfold record_bound_ports in *. destruct (nodes h !! id); [|done].
    case_bool_decide; [done|]. by apply wrap_succ_ne in Hn.
  - intros id'. unfold record_health. destruct (nodes h !! id) as [e|] eqn:E; [|done].
    case_bool_decide; [done|].
    cbn. destruct (decide (id = id')) as [<-|?]; [by rewrite lookup_insert_eq, E|].
    by rewrite lookup_insert_ne.
  - apply apply_roster_wakes; [done| |done]. by eapply Hl.
  - unfold evict_children in *. case_decide as Hs; [|by apply wrap_succ_ne in Hn].
    cbn. replace (drop_children p (nodes h)) with (nodes h); [done|].
    symmetry. apply map_subseteq_size_eq; [apply map_filter_subseteq|lia].
  - unfold disconnect in *. destruct (nodes h !! id) eqn:E.
    + by apply wrap_succ_ne in Hn.
    + cbn. by rewrite delete_id.
Qed.

(** Nothing but an acknowledgement moves a quorum in silence.  On any registry the
    operations can reach, an operation other than an acknowledgement stamp that
    changes the answer of a quorum query bumps the watch that re-drives the
    [Programmed] gate; for a relay's report this holds as long as the rows that
    relay has folded are leaves. *)
Theorem quorum_change_wakes os o q :
  let h := run_ops os empty_handle in
  (∀ p cs, o = OpRoster p cs → children_are_leaves p (nodes h)) →
  is_ack_stamp o = false →
  ask q (nodes (run_op o h)) ≠ ask q (nodes h) →
  notify (run_op o h) ≠ notify h.
Proof.
  intros h Hl Ho Hask Hn. apply Hask, ask_inputs, quiet_op_same; [|done..].
  apply run_ops_keys_ok. intros id e. cbn. by rewrite lookup_empty.
Qed.

(** ** Acknowledged sequences *)

#[local] Hint Resolve Z.le_refl : core.

(** While a node stays connected its acknowledged sequence never moves back: an
    operation that neither replaces nor removes its row keeps or raises it. *)
Theorem acked_seq_monotone o h id e e' s :
  nodes h !! id = Some e → last_acked_seq e = Some s →
  nodes (run_op o h) !! id = Some e' →
  (∀ sc now, o ≠ OpConnect id sc now) → (∀ p cs, o = OpRoster p cs → parent e = None) →
  ∃ s', last_acked_seq e' = Some s' ∧ (s ≤ s')%Z.
Proof.
  intros He Hs He' Hc Hr.
  assert (∀ id' f, (∀ e, last_acked_seq (f e) = last_acked_seq e ∨
                     ∃ n, last_acked_seq (f e) = max_seq (last_acked_seq e) n) →
            nodes (stamp_row id' f h) !! id = Some e' →
            ∃ s', last_acked_seq e' = Some s' ∧ (s ≤ s')%Z) as Hstamp.
  { intros id' f Hf. unfold stamp_row. destruct (nodes h !! id') as [e0|] eqn:E; [|naive_solver].
    cbn. intros [[<- <-]|[? ?]]%lookup_insert_Some; [|naive_solver].
    simplify_eq. destruct (Hf e) as [->|[n ->]]; [eauto|]. unfold max_seq. rewrite Hs. cbn.
    eexists. split; [done|lia]. }
  destruct o; cbn [run_op] in He'.
  - unfold connect in He'. cbn in He'.
    apply lookup_insert_Some in He' as [[-> _]|[_ ?]]; [by destruct (Hc sc now)|naive_solver].
  - eapply Hstamp; [|exact He']. intros ?. right. by eexists.
  - eapply Hstamp; [|exact He']. intros ?. right. by eexists.
  - eapply Hstamp; [|exact He']. intros ?. by left.
  - unfold record_bound_ports in He'. destruct (nodes h !! id0) eqn:E; [|naive_solver].
    case_bool_decide; [naive_solver|]. cbn in He'.
    apply lookup_insert_Some in He' as [[-> <-]|[_ ?]]; naive_solver.
  - unfold record_health in He'. destruct (nodes h !! id0) eqn:E; [|naive_solver].
    case_bool_decide; [naive_solver|]. cbn in He'.
    apply lookup_insert_Some in He' as [[-> <-]|[_ ?]]; naive_solver.
  - rewrite apply_roster_lookup in He'. cbv zeta in He'. rewrite He in He'.
    specialize (Hr p children eq_refl). case_decide; cbn in He'; rewrite Hr in He'; naive_solver.
  - unfold evict_children in He'.
    assert (drop_children p (nodes h) !! id = Some e') as Hd by (by case_decide).
    rewrite drop_children_lookup, He in Hd. cbn in Hd. case_decide; naive_solver.
  - unfold disconnect in He'.
    assert (delete id0 (nodes h) !! id = Some e') as [_ ?]%lookup_delete_Some by (by case_match).
    naive_solver.
Qed.

End facts.

(** ** Witnesses *)

Module RegistryDemo.

#[export] Existing Instance list_order.

(** A pool proxy that has bound port 80, and a relay that has yet to report. *)
Definition setup : list RegistryOp :=
  [OpConnect (lit "relay") SharedPool 1; OpConnect (lit "proxy") SharedPool 2;
   OpBound (lit "proxy") {[80%Z]}].

Definition acked : Handle :=
  run_ops [OpConnect (lit "proxy") SharedPool 1; OpAck (lit "proxy") (lit "v") 7 2] empty_handle.

End RegistryDemo.
Import RegistryDemo.

Lemma quorum_change_wakes_witness :
  let h := run_ops setup empty_handle in
  notify (run_op (OpRoster (lit "relay") []) h) ≠ notify h.
Proof.
  apply (quorum_change_wakes setup (OpRoster (lit "relay") []) (QSharedBound {[80%Z]})).
  - intros p cs [= <- <-] id e Hid Hpar. exfalso. revert Hpar.
    apply elem_of_map_to_list in Hid. vm_compute in Hid.
    repeat (apply elem_of_cons in Hid as [[= -> ->]|Hid]; [discriminate|]).
    by apply not_elem_of_nil in Hid.
  - reflexivity.
  - vm_compute. discriminate.
Defined.

Lemma acked_seq_monotone_witness :
  ∃ e e' s', nodes acked !! lit "proxy" = Some e ∧
    nodes (run_op (OpAdvance (lit "proxy") 5) acked) !! lit "proxy" = Some e' ∧
    last_acked_seq e' = Some s' ∧ (7 ≤ s')%Z.
Proof.
  do 2 eexists.
  destruct (acked_seq_monotone (OpAdvance (lit "proxy") 5) acked (lit "proxy")
              (mkNodeEntry (lit "proxy") SharedPool (Some (lit "v")) None (Some 2%Z) 1
                 None (Some 7%Z) None false None)
              (mkNodeEntry (lit "proxy") SharedPool (Some (lit "v")) None (Some 2%Z) 1
                 None (Some 7%Z) None false None) 7) as (s' & Hs & Hle).
  - vm_compute. reflexivity.
  - reflexivity.
  - vm_compute. reflexivity.
  - discriminate.
  - discriminate.
  - exists s'. split; [vm_compute; reflexivity|]. split; [vm_compute; reflexivity|]. by split.
Defined.
