(* ===== verification/Sessions.v ===== *)
(** * Stream sessions and their claims on node ids

    Models [crates/coxswain-discovery/src/server/identity.rs] and the way
    [DiscoveryService::stream] opens a session and [run_stream] closes it: the
    claim on the node id, the registry row, and the guarded clean-up.  The steps of
    different sessions interleave; each step is what happens under one lock. *)

From S2P Require Import Prelude Health NodeRegistry NodeRegistryFacts.

(** [LiveNodeIdentities] and [NEXT_GENERATION]: the fingerprint and generation of
    the holder of each node id. *)
Record Claims := mkClaims {
  identities : gmap str (option str * Z);
  next_generation : Z;
}.

Definition no_claims : Claims := mkClaims ∅ 1.

Definition claim_node_id (id : str) (fingerprint : option str) (c : Claims)
    : Claims * option Z :=
  let grant :=
    (mkClaims (<[id := (fingerprint, next_generation c)]> (identities c))
       (wrap 64 (next_generation c + 1)), Some (next_generation c)) in
  match identities c !! id with
  | Some (existing, _) =>
      if bool_decide (existing = fingerprint) then grant else (c, None)
  | None => grant
  end.

Definition release_node_id (id : str) (generation : Z) (c : Claims) : Claims * bool :=
  match identities c !! id with
  | Some (_, g) =>
      if (g =? generation)%Z
      then (mkClaims (delete id (identities c)) (next_generation c), true)
      else (c, false)
  | None => (c, false)
  end.

(** ** Sessions *)

(** Where a session is: claim granted, registered and serving, claim released
    with the row still to remove, row removed with the subtree still to evict, and
    over. *)
Inductive Phase := Claimed | Serving | Closing | Evicting | Over.

Record Session := mkSession {
  s_node : str;
  s_scope : NodeScope;
  s_phase : Phase;
}.

Definition at_phase (ph : Phase) (s : Session) : Session :=
  mkSession (s_node s) (s_scope s) ph.

Section server.
Context `{HashIter}.

(** Sessions are known by the generation of their claim. *)
Record Server := mkServer {
  claims : Claims;
  registry : Handle;
  sessions : gmap Z Session;
}.

Definition boot : Server := mkServer no_claims empty_handle ∅.

(** What a serving session writes to the registry: its own row, or its own
    subtree. *)
Definition own_op (id : str) (o : RegistryOp) : bool :=
  match o with
  | OpAck i _ _ _ | OpAdvance i _ | OpTarget i _ | OpBound i _ | OpHealth i _ | OpRoster i _ =>
      bool_decide (i = id)
  | _ => false
  end.

(** [Some id] labels the grant of a claim on [id]. *)
Inductive server_step : Server → option str → Server → Prop :=
| step_claim s id fp sc c' g :
    claim_node_id id fp (claims s) = (c', Some g) →
    (next_generation (claims s) + 1 < 2 ^ 64)%Z →
    server_step s (Some id)
      (mkServer c' (registry s) (<[g := mkSession id sc Claimed]> (sessions s)))
| step_connect s g x now :
    sessions s !! g = Some x → s_phase x = Claimed →
    server_step s None
      (mkServer (claims s) (connect (s_node x) (s_scope x) now (registry s))
         (<[g := at_phase Serving x]> (sessions s)))
| step_work s g x o :
    sessions s !! g = Some x → s_phase x = Serving → own_op (s_node x) o = true →
    server_step s None (mkServer (claims s) (run_op o (registry s)) (sessions s))
| step_release s g x c' b :
    sessions s !! g = Some x → s_phase x = Serving →
    release_node_id (s_node x) g (claims s) = (c', b) →
    server_step s None
      (mkServer c' (registry s)
         (<[g := at_phase (if b then Closing else Over) x]> (sessions s)))
| step_disconnect s g x :
    sessions s !! g = Some x → s_phase x = Closing →
    server_step s None
      (mkServer (claims s) (disconnect (s_node x) (registry s))
         (<[g := at_phase Evicting x]> (sessions s)))
| step_evict s g x :
    sessions s !! g = Some x → s_phase x = Evicting →
    server_step s None
      (mkServer (claims s) (evict_children (s_node x) (registry s))
         (<[g := at_phase Over x]> (sessions s))).

(** No session on [id] has released its claim with its row still to remove. *)
Definition none_closing (id : str) (s : Server) : Prop :=
  ∀ g x, sessions s !! g = Some x → s_node x = id → s_phase x ≠ Closing.

(** States reached by any interleaving, and by those in which no claim on an id is
    granted between another session's release of it and the removal of that
    session's row. *)
Inductive reachable : Server → Prop :=
| reach_boot : reachable boot
| reach_step s l s' : reachable s → server_step s l s' → reachable s'.

Inductive calmly_reachable : Server → Prop :=
| calm_boot : calmly_reachable boot
| calm_step s l s' :
    calmly_reachable s → server_step s l s' →
    (∀ id, l = Some id → none_closing id s) → calmly_reachable s'.

(** ** The invariant *)

Definition direct_row (id : str) (h : Handle) : Prop :=
  ∃ e, nodes h !! id = Some e ∧ parent e = None.

Record calm_inv (s : Server) : Prop := {
  ci_pos : (0 ≤ next_generation (claims s))%Z;
  ci_fresh : ∀ g x, sessions s !! g = Some x → (g < next_generation (claims s))%Z;
  ci_holder : ∀ id fp g, identities (claims s) !! id = Some (fp, g) →
    ∃ x, sessions s !! g = Some x ∧ s_node x = id ∧ (s_phase x = Claimed ∨ s_phase x = Serving);
  ci_row : ∀ id fp g x, identities (claims s) !! id = Some (fp, g) →
    sessions s !! g = Some x → s_phase x = Serving → direct_row id (registry s);
  ci_closing : ∀ g x, sessions s !! g = Some x → s_phase x = Closing →
    identities (claims s) !! s_node x = None;
}.

Lemma own_op_direct id id' o h :
  own_op id' o = true → direct_row id h → direct_row id (run_op o h).
Proof.
  intros Ho (e & He & Hp).
  assert (∀ i f, (∀ e, parent (f e) = parent e) → direct_row id (stamp_row i f h)) as Hstamp.
  { intros i f Hf. unfold stamp_row, direct_row. destruct (nodes h !! i) as [e0|] eqn:E; [|eauto].
    cbn. destruct (decide (i = id)) as [->|?].
    - rewrite lookup_insert_eq. eexists. split; [done|]. rewrite Hf. congruence.
    - rewrite lookup_insert_ne by done. eauto. }
  destruct o; cbn [run_op]; try done.
  - by apply Hstamp.
  - by apply Hstamp.
  - by apply Hstamp.
  - unfold record_bound_ports, direct_row. destruct (nodes h !! id0) as [e0|] eqn:E; [|eauto].
    case_bool_decide; [eauto|]. cbn. destruct (decide (id0 = id)) as [->|?].
    + rewrite lookup_insert_eq. eexists. split; [done|]. cbn. congruence.
    + rewrite lookup_insert_ne by done. eauto.
  - unfold record_health, direct_row. destruct (nodes h !! id0) as [e0|] eqn:E; [|eauto].
    case_bool_decide; [eauto|]. cbn. destruct (decide (id0 = id)) as [->|?].
    + rewrite lookup_insert_eq. eexists. split; [done|]. cbn. congruence.
    + rewrite lookup_insert_ne by done. eauto.
  - unfold direct_row. rewrite apply_roster_lookup. cbv zeta. rewrite He.
    case_decide; cbn; rewrite Hp; eauto.
Qed.

Lemma evict_direct id p h : direct_row id h → direct_row id (evict_children p h).
Proof.
  intros (e & He & Hp). unfold direct_row.
  assert (nodes (evict_children p h) = drop_children p (nodes h)) as ->.
  { unfold evict_children. by case_decide. }
  rewrite drop_children_lookup, He. cbn. rewrite decide_False by congruence. eauto.
Qed.

Lemma claim_granted id fp c c' g :
  claim_node_id id fp c = (c', Some g) →
  g = next_generation c ∧
  c' = mkClaims (<[id := (fp, g)]> (identities c)) (wrap 64 (next_generation c + 1)).
Proof. unfold claim_node_id. by repeat case_match; intros; simplify_eq. Qed.

Lemma release_cases id g c c' b :
  release_node_id id g c = (c', b) →
  (b = true ∧ (∃ fp, identities c !! id = Some (fp, g)) ∧
   c' = mkClaims (delete id (identities c)) (next_generation c)) ∨
  (b = false ∧ (∀ fp, identities c !! id ≠ Some (fp, g)) ∧ c' = c).
Proof.
  unfold release_node_id. destruct (identities c !! id) as [[fp g']|] eqn:E;
    [destruct (Z.eqb_spec g' g)|]; intros; simplify_eq; naive_solver.
Qed.

Lemma calm_inv_claim s id fp sc c' g :
  calm_inv s → claim_node_id id fp (claims s) = (c', Some g) →
  (next_generation (claims s) + 1 < 2 ^ 64)%Z →
  none_closing id s →
  calm_inv (mkServer c' (registry s) (<[g := mkSession id sc Claimed]> (sessions s))).
Proof.
  intros [H0 Hf Hh Hr Hc] Hcl Hb Hnc. apply claim_granted in Hcl as [-> ->].
  assert (∀ g x, sessions s !! g = Some x → g ≠ next_generation (claims s)) as Hne.
  { intros g x Hg%Hf. lia. }
  split; cbn.
  - unfold wrap. apply Z.mod_pos_bound. lia.
  - intros g x [[<- <-]|[_ Hg]]%lookup_insert_Some; unfold wrap;
      rewrite Z.mod_small by lia; [lia|]. specialize (Hf g x Hg). lia.
  - intros id' fp' g' [[<- [= <- <-]]|[Hid Hid']]%lookup_insert_Some.
    + eexists. rewrite lookup_insert_eq. naive_solver.
    + destruct (Hh _ _ _ Hid') as (x & Hx & Hrest). exists x.
      rewrite lookup_insert_ne by (apply not_eq_sym, (Hne _ _ Hx)). done.
  - intros id' fp' g' x [[<- [= <- <-]]|[Hid Hid']]%lookup_insert_Some.
    + rewrite lookup_insert_eq. by intros [= <-].
    + intros [[<- <-]|[_ Hg]]%lookup_insert_Some; [done|]. by eapply Hr.
  - intros g' x [[<- <-]|[_ Hg]]%lookup_insert_Some; [done|]. intros Hph.
    rewrite lookup_insert_ne; [by eapply Hc|]. intros ->. by apply (Hnc g' x).
Qed.

(** A session that moves to [ph], with the registry [h] it leaves behind. *)
Lemma calm_inv_move s g x ph h :
  calm_inv s → sessions s !! g = Some x →
  (∀ id fp, identities (claims s) !! id = Some (fp, g) → ph = Serving) →
  (ph = Closing → identities (claims s) !! s_node x = None) →
  (∀ id fp g', identities (claims s) !! id = Some (fp, g') →
     (g' = g ∧ ph = Serving) ∨ direct_row id (registry s) → direct_row id h) →
  calm_inv (mkServer (claims s) h (<[g := at_phase ph x]> (sessions s))).
Proof.
  intros [H0 Hf Hh Hr Hc] Hx Hph Hcl Hrow. split; cbn; [done|..].
  - intros g' x' [[<- <-]|[_ Hg]]%lookup_insert_Some; eauto.
  - intros id fp g' Hid. destruct (Hh _ _ _ Hid) as (x' & Hx' & Hn & Hp).
    destruct (decide (g = g')) as [<-|Hne].
    + rewrite lookup_insert_eq. simplify_eq. eexists. split; [done|]. split; [done|].
      right. by eapply Hph.
    + rewrite lookup_insert_ne by done. eauto.
  - intros id fp g' x' Hid [[<- <-]|[Hne Hg]]%lookup_insert_Some Hp.
    + eapply Hrow; [done|]. left. by rewrite (Hph _ _ Hid).
    + eapply Hrow; [done|]. right. by eapply Hr.
  - intros g' x' [[<- <-]|[Hne Hg]]%lookup_insert_Some Hp; [by apply Hcl|]. eauto.
Qed.

Lemma calm_inv_release s g x c' b :
  calm_inv s → sessions s !! g = Some x → s_phase x = Serving →
  release_node_id (s_node x) g (claims s) = (c', b) →
  calm_inv (mkServer c' (registry s)
              (<[g := at_phase (if b then Closing else Over) x]> (sessions s))).
Proof.
  intros Hinv Hx Hp Hrel. apply release_cases in Hrel as [(-> & (fp & Hid) & ->)|(-> & Hnot & ->)].
  - destruct Hinv as [H0 Hf Hh Hr Hc].
    assert (∀ id fp' g', delete (s_node x) (identities (claims s)) !! id = Some (fp', g') →
              g' ≠ g ∧ identities (claims s) !! id = Some (fp', g')) as Hdel.
    { intros id fp' g' [Hne Hid']%lookup_delete_Some. split; [|done]. intros ->.
      destruct (Hh _ _ _ Hid') as (x' & Hx' & Hn & _). simplify_eq. }
    split; cbn; [done|..].
    + intros g' x' [[<- <-]|[_ Hg]]%lookup_insert_Some; eauto.
    + intros id fp' g' (Hne & Hid')%Hdel. rewrite lookup_insert_ne by done. eauto.
    + intros id fp' g' x' (Hne & Hid')%Hdel.
      rewrite lookup_insert_ne by done. eauto.
    + intros g' x' [[<- <-]|[_ Hg]]%lookup_insert_Some Hph; cbn.
      * by rewrite lookup_delete_eq.
      * apply lookup_delete_None. right. eauto.
  - apply calm_inv_move; [done..| |done|naive_solver].
    intros id fp Hid. exfalso.
    destruct (ci_holder _ Hinv _ _ _ Hid) as (x' & Hx' & Hn & _). simplify_eq.
    by apply (Hnot fp).
Qed.

Lemma calm_inv_step s l s' :
  calm_inv s → server_step s l s' → (∀ id, l = Some id → none_closing id s) → calm_inv s'.
Proof.
  intros Hinv Hstep Hcalm. destruct Hstep as
    [s id fp sc c' g Hcl Hb|s g x now Hx Hp|s g x o Hx Hp Ho|s g x c' b Hx Hp Hrel
    |s g x Hx Hp|s g x Hx Hp].
  - eapply calm_inv_claim; eauto.
  - apply calm_inv_move; [done..|].
    intros id fp g' Hid. unfold direct_row. cbn.
    destruct (decide (s_node x = id)) as [<-|Hne].
    + intros _. rewrite lookup_insert_eq. by eexists.
    + intros [[-> _]|Hd]; [|by rewrite lookup_insert_ne].
      destruct (ci_holder _ Hinv _ _ _ Hid) as (x' & Hx' & Hn & _). by simplify_eq.
  - destruct Hinv as [H0 Hf Hh Hr Hc]. split; cbn; [done..| |done].
    intros. eapply own_op_direct; eauto.
  - by apply calm_inv_release.
  - assert (identities (claims s) !! s_node x = None) as Hnone by by eapply ci_closing.
    assert (∀ id fp g', identities (claims s) !! id = Some (fp, g') → id ≠ s_node x) as Hne.
    { intros id fp g' Hid ->. by simplify_eq. }
    apply calm_inv_move; [done..| |done|].
    + intros id fp Hid. destruct (ci_holder _ Hinv _ _ _ Hid) as (x' & Hx' & Hn & _).
      simplify_eq.
    + intros id fp g' Hid [[_ ?]|(e & He & Hpar)]; [done|].
      exists e. split; [|done]. unfold disconnect.
      case_match; cbn; rewrite lookup_delete_ne; eauto using not_eq_sym.
  - apply calm_inv_move; [done..| |done|].
    + intros id fp Hid. destruct (ci_holder _ Hinv _ _ _ Hid) as (x' & Hx' & Hn & [?|?]);
        simplify_eq; congruence.
    + intros id fp g' Hid [[_ ?]|Hd]; [done|]. by apply evict_direct.
Qed.

Lemma calm_inv_reachable s : calmly_reachable s → calm_inv s.
Proof.
  induction 1 as [|s l s' _ IH Hstep Hcalm]; [|by eapply calm_inv_step].
  split; cbn; [done|..]; intros *; by rewrite lookup_empty.
Qed.

(** A superseded session cannot take down its successor: however sessions of the
    same node open, report, fold rosters and close, the session that holds the
    claim on a node id and is serving has its directly connected row in the
    registry, provided no claim on the id is granted between another session's
    release of it and that session's removal of the row. *)
Theorem serving_holder_registered s id fp g x :
  calmly_reachable s →
  identities (claims s) !! id = Some (fp, g) →
  sessions s !! g = Some x → s_phase x = Serving →
  ∃ e, nodes (registry s) !! id = Some e ∧ parent e = None.
Proof. intros Hs%calm_inv_reachable Hid Hx Hp. exact (ci_row _ Hs _ _ _ _ Hid Hx Hp). Qed.

End server.

(** ** Witnesses *)

Module SessionDemo.
Import RegistryDemo.

Definition fp : option str := Some (lit "spiffe://pool/proxy").

Definition granted (id : str) (s : Server) : Server :=
  let r := claim_node_id id fp (claims s) in
  mkServer r.1 (registry s)
    (<[default 0%Z r.2 := mkSession id SharedPool Claimed]> (sessions s)).

Definition connected (g : Z) (id : str) (s : Server) : Server :=
  mkServer (claims s) (connect id SharedPool 0 (registry s))
    (<[g := mkSession id SharedPool Serving]> (sessions s)).

Definition acked (id : str) (seq : Z) (s : Server) : Server :=
  mkServer (claims s) (run_op (OpAck id (lit "v") seq 0) (registry s)) (sessions s).

Definition released (g : Z) (id : str) (s : Server) : Server :=
  mkServer (release_node_id id g (claims s)).1 (registry s)
    (<[g := mkSession id SharedPool Closing]> (sessions s)).

Definition removed (g : Z) (id : str) (s : Server) : Server :=
  mkServer (claims s) (disconnect id (registry s))
    (<[g := mkSession id SharedPool Evicting]> (sessions s)).

(** One proxy has acknowledged sequence 5.  The session of another closes: it
    releases its claim, the proxy reconnects and is registered, and only then
    does the closing session remove the row. *)
Definition n : str := lit "n".
Definition other : Server := acked (lit "m") 5 (connected 1 (lit "m") (granted (lit "m") boot)).
Definition serving : Server := connected 2 n (granted n other).
Definition reconnected : Server := connected 3 n (granted n (released 2 n serving)).
Definition raced : Server := removed 2 n reconnected.

Lemma other_reachable : calmly_reachable other.
Proof.
  eapply calm_step with (l := None); [eapply calm_step with (l := None);
    [eapply calm_step with (l := Some (lit "m")); [apply calm_boot|..]|..]|..].
  - by eapply (step_claim boot).
  - intros id _ g x Hg. cbn in Hg. by rewrite lookup_empty in Hg.
  - by eapply (step_connect (granted (lit "m") boot) 1 (mkSession (lit "m") SharedPool Claimed)).
  - done.
  - by eapply (step_work (connected 1 (lit "m") (granted (lit "m") boot)) 1
                 (mkSession (lit "m") SharedPool Serving)).
  - done.
Qed.

Lemma serving_reachable : calmly_reachable serving.
Proof.
  eapply calm_step with (l := None); [eapply calm_step with (l := Some n);
    [apply other_reachable|..]|..].
  - by eapply (step_claim other n fp SharedPool).
  - intros id [= <-] g x Hg. apply elem_of_map_to_list in Hg. vm_compute in Hg.
    apply elem_of_cons in Hg as [[= -> ->]|Hg%not_elem_of_nil]; done.
  - by eapply (step_connect (granted n other) 2 (mkSession n SharedPool Claimed)).
  - done.
Qed.

Lemma calm_is_reachable s : calmly_reachable s → reachable s.
Proof. induction 1; [apply reach_boot|by eapply reach_step]. Qed.

Lemma raced_reachable : reachable raced.
Proof.
  eapply reach_step; [eapply reach_step; [eapply reach_step; [eapply reach_step;
    [apply calm_is_reachable, serving_reachable|]|]|]|].
  - by eapply (step_release serving 2 (mkSession n SharedPool Serving)).
  - by eapply (step_claim (released 2 n serving) n fp SharedPool).
  - by eapply (step_connect (granted n (released 2 n serving)) 3 (mkSession n SharedPool Claimed)).
  - by eapply (step_disconnect reconnected 2 (mkSession n SharedPool Closing)).
Qed.

End SessionDemo.
Import RegistryDemo SessionDemo.

(** The release of a claim and the removal of the row are separate, and a
    reconnect between them is lost: the closing session then removes the row of
    the session that has just registered.  That session still serves and still
    holds the claim, yet its acknowledgements are dropped and the acknowledgement
    quorum of the pool holds without it. *)
Theorem reconnect_row_lost :
  ∃ s x, reachable s ∧
    identities (claims s) !! n = Some (fp, 3%Z) ∧
    sessions s !! 3%Z = Some x ∧ s_phase x = Serving ∧
    nodes (registry s) !! n = None ∧
    nodes (record_ack n (lit "v") 9 0 (registry s)) !! n = None ∧
    all_shared_nodes_acked 5 (nodes (registry s)) = true.
Proof.
  exists raced, (mkSession n SharedPool Serving). split; [apply raced_reachable|].
  by vm_compute.
Qed.

Lemma serving_holder_registered_witness :
  ∃ e, nodes (registry serving) !! n = Some e ∧ parent e = None.
Proof.
  apply (serving_holder_registered serving n fp 2 (mkSession n SharedPool Serving)).
  - apply serving_reachable.
  - vm_compute. reflexivity.
  - vm_compute. reflexivity.
  - reflexivity.
Defined.
