(* ===== verification/PublishIndex.v ===== *)
(** * The publish index and its publication fence

    Models [crates/coxswain-core/src/publish_index.rs], and around it the two
    sides of the fence it implements: the reflector's [rebuild], which stores
    every routing cell and then stamps the index
    ([crates/coxswain-reflector/src/reconciler/proxy.rs]), and the discovery
    server's [materialize], which captures the sequence and then loads the cells
    ([crates/coxswain-discovery/src/materialize.rs]).  [fence_step] interleaves
    them cell by cell. *)

From S2P Require Import Prelude.

(** [ObjectKey]: namespace and name. *)
Notation ObjectKey := (str * str)%type.

Record PublishStamp := mkPublishStamp {
  generation : Z;
  fingerprint : Z;
  stamp_seq : Z;
}.

Record PublishIndex := mkPublishIndex {
  stamps : gmap ObjectKey PublishStamp;
  counter : Z;
}.

Definition empty_index : PublishIndex := mkPublishIndex ∅ 0.

(** The stamp of one published Gateway: the prior one when nothing of its own
    content changed. *)
Definition stamp_for (prior : gmap ObjectKey PublishStamp) (seq : Z) (p : ObjectKey * Z * Z)
    : PublishStamp :=
  let '(key, gen, fp) := p in
  match prior !! key with
  | Some existing =>
      if (generation existing =? gen)%Z && (fingerprint existing =? fp)%Z then existing
      else mkPublishStamp gen fp seq
  | None => mkPublishStamp gen fp seq
  end.

Definition stamp_one (prior : gmap ObjectKey PublishStamp) (seq : Z)
    (m : gmap ObjectKey PublishStamp) (p : ObjectKey * Z * Z) : gmap ObjectKey PublishStamp :=
  <[p.1.1 := stamp_for prior seq p]> m.

Definition stamp_rebuild (published : list (ObjectKey * Z * Z)) (idx : PublishIndex)
    : PublishIndex * Z :=
  let seq := wrap 64 (counter idx + 1) in
  let next := foldl (stamp_one (stamps idx) seq) ∅ published in
  (mkPublishIndex next seq, seq).

Definition get (key : ObjectKey) (idx : PublishIndex) : option PublishStamp := stamps idx !! key.

Definition current_seq (idx : PublishIndex) : Z := counter idx.

Definition advance_to (seq : Z) (idx : PublishIndex) : PublishIndex :=
  mkPublishIndex (stamps idx) (Z.max (counter idx) seq).

(** ** The fence

    [published r] is what rebuild [r] publishes, counted from 1; a cell holds the
    number of the rebuild that stored it. *)

Section fence.
Context (published : nat → list (ObjectKey * Z * Z)) (all_cells : gset nat).

Record Fence := mkFence {
  index : PublishIndex;
  rebuilds : nat;              (** rebuilds stamped so far *)
  todo : gset nat;             (** cells the running rebuild has yet to store *)
  cells : gmap nat nat;
  captured : Z;                (** the reader's capture *)
  loaded : gmap nat nat;       (** the cells it has loaded since *)
}.

Definition fence_boot : Fence :=
  mkFence empty_index 0 all_cells (gset_to_gmap 0 all_cells) 0 ∅.

Inductive fence_step : Fence → Fence → Prop :=
| step_store s i :
    i ∈ todo s →
    fence_step s (mkFence (index s) (rebuilds s) (todo s ∖ {[i]})
                    (<[i := S (rebuilds s)]> (cells s)) (captured s) (loaded s))
| step_stamp s :
    todo s = ∅ →
    fence_step s (mkFence (stamp_rebuild (published (S (rebuilds s))) (index s)).1
                    (S (rebuilds s)) all_cells (cells s) (captured s) (loaded s))
| step_capture s :
    fence_step s (mkFence (index s) (rebuilds s) (todo s) (cells s)
                    (current_seq (index s)) ∅)
| step_load s i r :
    cells s !! i = Some r →
    fence_step s (mkFence (index s) (rebuilds s) (todo s) (cells s)
                    (captured s) (<[i := r]> (loaded s))).

Inductive fence_reachable : Fence → Prop :=
| fence_reach_boot : fence_reachable fence_boot
| fence_reach_step s s' : fence_reachable s → fence_step s s' → fence_reachable s'.

(** What rebuild [r] published of a Gateway: the last entry for its key. *)
Definition published_for (key : ObjectKey) (l : list (ObjectKey * Z * Z)) : option (Z * Z) :=
  (λ p, (p.1.2, p.2)) <$> last (filter (λ p, p.1.1 = key) l).

End fence.

(** ** Stamping *)

Lemma stamp_fold_lookup (prior : gmap ObjectKey PublishStamp) (seq : Z) (l : list (ObjectKey * Z * Z)) (acc : gmap ObjectKey PublishStamp)
    (key : ObjectKey) :
  foldl (stamp_one prior seq) acc l !! key =
  match last (filter (λ p : ObjectKey * Z * Z, p.1.1 = key) l) with
  | Some p => Some (stamp_for prior seq p)
  | None => acc !! key
  end.
Proof.
  induction l as [|p l IH] using rev_ind; [done|].
  rewrite foldl_snoc, filter_app, filter_cons, filter_nil. unfold stamp_one at 1.
  case_decide as Hp.
  - rewrite last_snoc, <-Hp. by rewrite lookup_insert_eq.
  - rewrite app_nil_r, <-IH. by rewrite lookup_insert_ne.
Qed.

Lemma stamp_rebuild_lookup (l : list (ObjectKey * Z * Z)) (idx : PublishIndex) (key : ObjectKey) :
  get key (stamp_rebuild l idx).1 =
  (λ gf, match get key idx with
         | Some st => if (generation st =? gf.1)%Z && (fingerprint st =? gf.2)%Z then st
                      else mkPublishStamp gf.1 gf.2 (wrap 64 (counter idx + 1))
         | None => mkPublishStamp gf.1 gf.2 (wrap 64 (counter idx + 1))
         end) <$> published_for key l.
Proof.
  unfold get, stamp_rebuild, published_for. cbn [fst stamps]. rewrite stamp_fold_lookup.
  destruct (last (filter _ l)) as [[[k g] f]|] eqn:E; [|done]. cbn.
  apply last_Some_elem_of, list_elem_of_filter in E as [Hk _]. cbn in Hk. by subst k.
Qed.

(** Stamps are sticky, and only by their own Gateway's doing.  A rebuild keeps
    the stamp of a Gateway that it publishes with unchanged generation and
    content, gives one that changed or is new the rebuild's own sequence, and
    drops one it does not publish; the sequences of rebuilds increase. *)
Theorem stamps_sticky (l : list (ObjectKey * Z * Z)) (idx : PublishIndex) (key : ObjectKey) :
  (0 ≤ counter idx < 2 ^ 64 - 1)%Z →
  let '(idx', seq) := stamp_rebuild l idx in
  seq = (counter idx + 1)%Z ∧ current_seq idx' = seq ∧
  match published_for key l with
  | None => get key idx' = None
  | Some (g, f) =>
      match get key idx with
      | Some st =>
          if decide (generation st = g ∧ fingerprint st = f)
          then get key idx' = Some st
          else get key idx' = Some (mkPublishStamp g f seq)
      | None => get key idx' = Some (mkPublishStamp g f seq)
      end
  end.
Proof.
  intros Hb. pose proof (stamp_rebuild_lookup l idx key) as Hl.
  assert (wrap 64 (counter idx + 1) = (counter idx + 1)%Z) as Hw.
  { unfold wrap. apply Z.mod_small. lia. }
  rewrite Hw in Hl. destruct (stamp_rebuild l idx) as [idx' seq] eqn:E.
  unfold stamp_rebuild in E. rewrite Hw in E. injection E as <- <-. cbn [fst] in Hl.
  split; [done|]. split; [done|]. rewrite Hl.
  destruct (published_for key l) as [[g f]|]; [|done]. cbn.
  destruct (get key idx) as [st|]; [|done].
  destruct (Z.eqb_spec (generation st) g), (Z.eqb_spec (fingerprint st) f); cbn;
    case_decide; naive_solver.
Qed.

(** ** The fence holds *)

Section fence_facts.
Context (published : nat → list (ObjectKey * Z * Z)) (all_cells : gset nat).

Record fence_inv (s : Fence) : Prop := {
  fi_counter : counter (index s) = Z.of_nat (rebuilds s);
  fi_todo : todo s ⊆ all_cells;
  fi_cells : ∀ i r, cells s !! i = Some r →
    i ∈ all_cells ∧ rebuilds s ≤ r ≤ S (rebuilds s) ∧ (i ∉ todo s → r = S (rebuilds s));
  fi_captured : (captured s ≤ Z.of_nat (rebuilds s))%Z;
  fi_loaded : ∀ i r, loaded s !! i = Some r →
    (captured s ≤ Z.of_nat r)%Z ∧ r ≤ S (rebuilds s);
  fi_stamps : ∀ key st, get key (index s) = Some st →
    (1 ≤ stamp_seq st ≤ Z.of_nat (rebuilds s))%Z ∧
    ∀ r, (stamp_seq st ≤ Z.of_nat r)%Z → r ≤ rebuilds s →
      published_for key (published r) = Some (generation st, fingerprint st);
}.

Lemma fence_inv_boot : fence_inv (fence_boot all_cells).
Proof.
  split; cbn; try done.
  - intros i r [? <-]%lookup_gset_to_gmap_Some. split; [done|]. split; [lia|done].
Qed.

Lemma stamp_inv s :
  fence_inv s → (Z.of_nat (S (rebuilds s)) < 2 ^ 64)%Z →
  ∀ key st, get key (stamp_rebuild (published (S (rebuilds s))) (index s)).1 = Some st →
    (1 ≤ stamp_seq st ≤ Z.of_nat (S (rebuilds s)))%Z ∧
    ∀ r, (stamp_seq st ≤ Z.of_nat r)%Z → r ≤ S (rebuilds s) →
      published_for key (published r) = Some (generation st, fingerprint st).
Proof.
  intros [Hc _ _ _ _ Hst] Hb key st. rewrite stamp_rebuild_lookup.
  assert (wrap 64 (counter (index s) + 1) = Z.of_nat (S (rebuilds s))) as ->.
  { unfold wrap. rewrite Hc, Z.mod_small; lia. }
  intros ([g f] & Hp & Heq)%fmap_Some. cbn in Heq.
  assert (∀ r, r ≤ S (rebuilds s) → r ≤ rebuilds s ∨ r = S (rebuilds s)) as Hcase by lia.
  destruct (get key (index s)) as [st0|] eqn:E.
  - destruct (Z.eqb_spec (generation st0) g), (Z.eqb_spec (fingerprint st0) f); cbn in Heq;
      subst st; cbn.
    2-4: split; [lia|]; intros r Hr Hr'; replace r with (S (rebuilds s)) by lia; done.
    destruct (Hst key st0 E) as [Hseq Hall]. split; [lia|].
    intros r Hr [Hr'| ->]%Hcase; [by apply Hall|]. rewrite Hp. by subst.
  - subst st. cbn. split; [lia|]. intros r Hr Hr'.
    replace r with (S (rebuilds s)) by lia. done.
Qed.

Lemma fence_inv_step s s' :
  fence_inv s → fence_step published all_cells s s' →
  (Z.of_nat (rebuilds s') < 2 ^ 64)%Z → fence_inv s'.
Proof.
  intros Hinv Hstep. destruct Hstep as [s i Hi|s Htodo|s|s i r Hr]; cbn; intros Hb.
  - destruct Hinv as [Hc Htd Hcells Hcap Hl Hst]. split; cbn; try done.
    { set_solver. }
    intros j r [[<- <-]|[Hne Hj]]%lookup_insert_Some.
    + split; [set_solver|split; [lia|done]].
    + destruct (Hcells j r Hj) as (? & ? & Hd). split_and!; [done|lia|lia|].
      intros ?. apply Hd. set_solver.
  - pose proof (stamp_inv s Hinv Hb) as Hst'. destruct Hinv as [Hc Htd Hcells Hcap Hl Hst].
    split; cbn; try done.
    + rewrite Hc. unfold wrap. rewrite Z.mod_small; lia.
    + intros i r Hr. destruct (Hcells i r Hr) as (? & ? & Hd). rewrite Htodo in Hd.
      specialize (Hd ltac:(set_solver)). split_and!; [done|lia|lia|done].
    + lia.
    + intros i r Hr. destruct (Hl i r Hr). split; [done|lia].
  - destruct Hinv as [Hc Htd Hcells Hcap Hl Hst]. split; cbn; try done.
    unfold current_seq. lia.
  - destruct Hinv as [Hc Htd Hcells Hcap Hl Hst]. split; cbn; try done.
    intros j r' [[<- <-]|[Hne Hj]]%lookup_insert_Some; [|by eapply Hl].
    destruct (Hcells i r Hr) as (? & ? & ?). split; lia.
Qed.

Lemma fence_reachable_inv s :
  fence_reachable published all_cells s → (Z.of_nat (rebuilds s) < 2 ^ 64)%Z → fence_inv s.
Proof.
  induction 1 as [|s s' _ IH Hstep]; intros Hb; [apply fence_inv_boot|].
  eapply fence_inv_step; [apply IH|done..]. destruct Hstep; cbn in *; lia.
Qed.

(** C34: An acknowledged sequence proves content.  In every interleaving of rebuilds
    and snapshot builds, each cell a build loads after capturing sequence [c]
    comes from rebuild [c] or a later one.  So once a Gateway's stamp is at most
    the captured sequence, every loaded cell is from a rebuild that published
    the Gateway with exactly the stamped generation and content, or from the
    rebuild still being stored, which is newer. *)
Theorem captured_seq_proves_content s i r key st :
  fence_reachable published all_cells s →
  (Z.of_nat (rebuilds s) < 2 ^ 64)%Z →
  loaded s !! i = Some r →
  get key (index s) = Some st → (stamp_seq st ≤ captured s)%Z →
  (captured s ≤ Z.of_nat r)%Z ∧
  (r = S (rebuilds s) ∨ published_for key (published r) = Some (generation st, fingerprint st)).
Proof.
  intros Hreach Hb Hl Hst Hseq. pose proof (fence_reachable_inv s Hreach Hb) as Hinv.
  destruct (fi_loaded _ Hinv i r Hl) as [Hge Hle].
  destruct (fi_stamps _ Hinv key st Hst) as [_ Hpub]. split; [done|].
  destruct (decide (r = S (rebuilds s))); [by left|right]. apply Hpub; lia.
Qed.

End fence_facts.

(** ** Witnesses *)

(** One Gateway, unchanged from the first rebuild on; one cell, loaded after the
    capture of sequence 1 and while the second rebuild has yet to store it. *)
Definition gw : ObjectKey := (lit "prod", lit "gw").
Definition demo_published (_ : nat) : list (ObjectKey * Z * Z) := [(gw, 4%Z, 9%Z)].
Definition demo_index : PublishIndex := (stamp_rebuild (demo_published 1) empty_index).1.
Definition demo_cells : gmap nat nat := <[0 := 1]> (gset_to_gmap 0 {[0]}).
Definition demo_fence : Fence := mkFence demo_index 1 {[0]} demo_cells 1 (<[0 := 1]> ∅).

Lemma demo_fence_reachable : fence_reachable demo_published {[0]} demo_fence.
Proof.
  eapply fence_reach_step with (s := mkFence demo_index 1 {[0]} demo_cells 1 ∅);
    [eapply fence_reach_step with (s := mkFence demo_index 1 {[0]} demo_cells 0 ∅);
    [eapply fence_reach_step with (s := mkFence empty_index 0 ({[0]} ∖ {[0]}) demo_cells 0 ∅);
    [eapply fence_reach_step; [apply fence_reach_boot|]|]|]|].
  - refine (step_store demo_published {[0]} (fence_boot {[0]}) 0 _). set_solver.
  - by apply (step_stamp demo_published {[0]}
                (mkFence empty_index 0 ({[0]} ∖ {[0]}) demo_cells 0 ∅)).
  - exact (step_capture demo_published {[0]} (mkFence demo_index 1 {[0]} demo_cells 0 ∅)).
  - by refine (step_load demo_published {[0]} (mkFence demo_index 1 {[0]} demo_cells 1 ∅) 0 1 _).
Qed.

Lemma stamps_sticky_witness :
  let '(idx', seq) := stamp_rebuild (demo_published 2) demo_index in
  seq = 2%Z ∧ get gw idx' = Some (mkPublishStamp 4 9 1).
Proof.
  pose proof (stamps_sticky (demo_published 2) demo_index gw) as Hs.
  destruct (stamp_rebuild (demo_published 2) demo_index) as [idx' seq].
  destruct Hs as (H1 & _ & H2); [vm_compute; split; [discriminate|reflexivity]|].
  split; [exact H1|exact H2].
Defined.

Lemma captured_seq_proves_content_witness :
  (1 ≤ Z.of_nat 1)%Z ∧
  (1 = 2 ∨ published_for gw (demo_published 1) = Some (4%Z, 9%Z)).
Proof.
  apply (captured_seq_proves_content demo_published {[0]} demo_fence 0 1 gw
           (mkPublishStamp 4 9 1)).
  - apply demo_fence_reachable.
  - vm_compute. reflexivity.
  - vm_compute. reflexivity.
  - vm_compute. reflexivity.
  - vm_compute. discriminate.
Defined.
