(* ===== verification/ResourceKey.v ===== *)
(** * Canonical resource keys

    Models [crates/coxswain-discovery/src/wire/resource.rs]: the grammar of the
    keys that address a resource on the discovery wire, its emitter
    [canonical_key] and its parser [parse_canonical_key]; and [ObjectKey]'s textual
    form from [crates/coxswain-core/src/ownership.rs].

    A wire message carries the fields its key is made of and an opaque body of type
    [B], which stands for the rest of the generated message. *)

From S2P Require Import Prelude.

Definition bar : ascii := "|".
Definition fslash : ascii := "/".

(** ** Decimal numbers *)

Definition digit (d : Z) : ascii := ascii_of_nat (Z.to_nat (48 + d)).

Definition digit_value (c : ascii) : option Z :=
  let d := (Z.of_nat (nat_of_ascii c) - 48)%Z in
  if (0 <=? d)%Z && (d <=? 9)%Z then Some d else None.

(** [u64::to_string]: twenty digits hold every [u64]. *)
Fixpoint decimal_fuel (fuel : nat) (n : Z) : str :=
  match fuel with
  | 0 => []
  | S fuel =>
      if (n <? 10)%Z then [digit n]
      else decimal_fuel fuel (n / 10) ++ [digit (n mod 10)]
  end.

Definition decimal (n : Z) : str := decimal_fuel 20 n.

Fixpoint digits_value (acc : Z) (s : str) : option Z :=
  match s with
  | [] => Some acc
  | c :: s =>
      match digit_value c with
      | Some d => digits_value (10 * acc + d) s
      | None => None
      end
  end.

(** [str::parse::<u16>]: an optional plus sign, at least one digit, no overflow. *)
Definition parse_u16 (s : str) : option Z :=
  let ds := match s with "+"%char :: (_ :: _) as rest => tail s | _ => s end in
  match ds with
  | [] => None
  | _ =>
      match digits_value 0 ds with
      | Some n => if (n <=? u16_max)%Z then Some n else None
      | None => None
      end
  end.

(** ** Splitting *)

Fixpoint split_once (c : ascii) (s : str) : option (str * str) :=
  match s with
  | [] => None
  | x :: s =>
      if Ascii.eqb x c then Some ([], s)
      else match split_once c s with Some (a, b) => Some (x :: a, b) | None => None end
  end.

(** [str::splitn]. *)
Fixpoint splitn (n : nat) (c : ascii) (s : str) : list str :=
  match n with
  | 0 => []
  | 1 => [s]
  | S n =>
      match split_once c s with
      | Some (a, b) => a :: splitn n c b
      | None => [s]
      end
  end.

(** ** Wire messages *)

Section messages.
Context {B : Type}.

Inductive HostPattern :=
| Exact (host : str)
| Wildcard (suffix : str) (kind : Z)
| Catchall (flag : bool).

Record HostEntry := mkHostEntry { pattern : option HostPattern; host_body : B }.

Inductive Payload :=
| RouteHost (table : Z) (port : Z) (host : option HostEntry)
| TlsPort (port : Z) (body : B)
| ClientCertPort (port : Z) (body : B)
| ListenerStatus (object_key : str) (body : B)
| TlsPassthroughPort (port : Z) (body : B)
| TlsTerminatePort (port : Z) (body : B)
| TcpPort (port : Z) (body : B)
| UdpPort (port : Z) (body : B)
| Endpoints (namespace service : str) (port : Z) (body : B)
| GatewayMeta (publish_seq : Z) (expected_proxy_sa : str).

Record Resource := mkResource {
  payload : option Payload;
  qualifier_namespace : str;
  qualifier_name : str;
}.

Inductive ResourceKeyError :=
| MissingPayload
| MissingHost
| MissingHostPattern
| UnspecifiedTable
| UnspecifiedWildcardKind
| MalformedKey
| MissingQualifier.

(** [RouteTableKind::try_from] and [WildcardKind::try_from] on the wire's [i32]. *)
Definition table_name (table : Z) : result str ResourceKeyError :=
  if (table =? 1)%Z then Ok (lit "ingress")
  else if (table =? 2)%Z then Ok (lit "gateway")
  else Err UnspecifiedTable.

Definition wildcard_name (kind : Z) : result str ResourceKeyError :=
  if (kind =? 1)%Z then Ok (lit "wildcard-single")
  else if (kind =? 2)%Z then Ok (lit "wildcard-multi")
  else Err UnspecifiedWildcardKind.

Definition route_host_key (table port : Z) (host : option HostEntry)
    : result str ResourceKeyError :=
  t <-? table_name table ;;
  match host with
  | None => Err MissingHost
  | Some h =>
      let head := lit "route|" ++ t ++ lit "|" ++ decimal port in
      match pattern h with
      | None => Err MissingHostPattern
      | Some (Exact name) => Ok (head ++ lit "|exact|" ++ name)
      | Some (Wildcard suffix kind) =>
          k <-? wildcard_name kind ;; Ok (head ++ lit "|" ++ k ++ lit "|" ++ suffix)
      | Some (Catchall _) => Ok (head ++ lit "|catchall")
      end
  end.

(** The qualifier: both fields, or neither. *)
Definition qualifier (r : Resource) : result (option (str * str)) ResourceKeyError :=
  match qualifier_namespace r, qualifier_name r with
  | [], [] => Ok None
  | _ :: _, _ :: _ => Ok (Some (qualifier_namespace r, qualifier_name r))
  | _, _ => Err MissingQualifier
  end.

Definition payload_key (p : Payload) : result str ResourceKeyError :=
  match p with
  | RouteHost table port host => route_host_key table port host
  | TlsPort port _ => Ok (lit "tls|" ++ decimal port)
  | ClientCertPort port _ => Ok (lit "clientcert|" ++ decimal port)
  | ListenerStatus object_key _ => Ok (lit "listener|" ++ object_key)
  | TlsPassthroughPort port _ => Ok (lit "tlspassthrough|" ++ decimal port)
  | TlsTerminatePort port _ => Ok (lit "tlsterminate|" ++ decimal port)
  | TcpPort port _ => Ok (lit "tcp|" ++ decimal port)
  | UdpPort port _ => Ok (lit "udp|" ++ decimal port)
  | Endpoints ns svc port _ =>
      Ok (lit "endpoints|" ++ ns ++ lit "/" ++ svc ++ lit "/" ++ decimal port)
  | GatewayMeta _ _ => Err MissingQualifier
  end.

Definition canonical_key (r : Resource) : result str ResourceKeyError :=
  match payload r with
  | None => Err MissingPayload
  | Some p =>
      q <-? qualifier r ;;
      match p, q with
      | GatewayMeta _ _, Some (ns, name) => Ok (lit "gwmeta|" ++ ns ++ lit "|" ++ name)
      | _, Some (ns, name) =>
          key <-? payload_key p ;;
          Ok (lit "gw|" ++ ns ++ lit "|" ++ name ++ lit "|" ++ key)
      | _, None => payload_key p
      end
  end.

End messages.

Arguments HostEntry B : clear implicits.
Arguments Payload B : clear implicits.
Arguments Resource B : clear implicits.

(** ** Parsing *)

Inductive ParsedHost :=
| PExact (host : str)
| PWildcard (suffix : str) (single_label : bool)
| PCatchall.

Inductive ParsedKey :=
| PRoute (gateway : bool) (port : Z) (host : ParsedHost)
| PTls (port : Z)
| PClientCert (port : Z)
| PListener (object_key : str)
| PTlsPassthrough (port : Z)
| PTlsTerminate (port : Z)
| PTcp (port : Z)
| PUdp (port : Z)
| PEndpoints (namespace service : str) (port : Z)
| PQualified (namespace name : str) (inner : ParsedKey)
| PGatewayMeta (namespace name : str).

Definition parse_canonical_port (s : str) : result Z ResourceKeyError :=
  match parse_u16 s with
  | None => Err MalformedKey
  | Some port => if bool_decide (decimal port = s) then Ok port else Err MalformedKey
  end.

Definition parse_host (pat : str) (host : option str) : result ParsedHost ResourceKeyError :=
  match host with
  | Some (c :: h) =>
      if bool_decide (pat = lit "exact") then Ok (PExact (c :: h))
      else if bool_decide (pat = lit "wildcard-single") then Ok (PWildcard (c :: h) true)
      else if bool_decide (pat = lit "wildcard-multi") then Ok (PWildcard (c :: h) false)
      else Err MalformedKey
  | None => if bool_decide (pat = lit "catchall") then Ok PCatchall else Err MalformedKey
  | Some [] => Err MalformedKey
  end.

Definition parse_table (table : str) : result bool ResourceKeyError :=
  if bool_decide (table = lit "ingress") then Ok false
  else if bool_decide (table = lit "gateway") then Ok true
  else Err UnspecifiedTable.

Definition parse_route_key (rest : str) : result ParsedKey ResourceKeyError :=
  let parts := splitn 4 bar rest in
  gateway <-? parse_table (default [] (head parts)) ;;
  match tail parts with
  | [] => Err MalformedKey
  | p :: parts =>
      port <-? parse_canonical_port p ;;
      match parts with
      | [] => Err MalformedKey
      | pat :: parts => host <-? parse_host pat (head parts) ;; Ok (PRoute gateway port host)
      end
  end.

Definition parse_endpoints_key (rest : str) : result ParsedKey ResourceKeyError :=
  match splitn 3 fslash rest with
  | [(_ :: _) as namespace; (_ :: _) as service; p] =>
      port <-? parse_canonical_port p ;; Ok (PEndpoints namespace service port)
  | _ => Err MalformedKey
  end.

Definition parse_gwmeta_key (rest : str) : result ParsedKey ResourceKeyError :=
  match splitn 2 bar rest with
  | [(_ :: _) as namespace; (_ :: _) as name] => Ok (PGatewayMeta namespace name)
  | _ => Err MalformedKey
  end.

(** A qualified key holds the key it qualifies, which is shorter. *)
Fixpoint parse_fuel (fuel : nat) (key : str) : result ParsedKey ResourceKeyError :=
  match split_once bar key with
  | None => Err MalformedKey
  | Some (prefix, rest) =>
      let port_key (c : Z → ParsedKey) := p <-? parse_canonical_port rest ;; Ok (c p) in
      if bool_decide (prefix = lit "route") then parse_route_key rest
      else if bool_decide (prefix = lit "tls") then port_key PTls
      else if bool_decide (prefix = lit "clientcert") then port_key PClientCert
      else if bool_decide (prefix = lit "tlspassthrough") then port_key PTlsPassthrough
      else if bool_decide (prefix = lit "tlsterminate") then port_key PTlsTerminate
      else if bool_decide (prefix = lit "tcp") then port_key PTcp
      else if bool_decide (prefix = lit "udp") then port_key PUdp
      else if bool_decide (prefix = lit "listener") then
        match rest with [] => Err MalformedKey | _ => Ok (PListener rest) end
      else if bool_decide (prefix = lit "endpoints") then parse_endpoints_key rest
      else if bool_decide (prefix = lit "gwmeta") then parse_gwmeta_key rest
      else if bool_decide (prefix = lit "gw") then
        match fuel, splitn 3 bar rest with
        | S fuel, [(_ :: _) as namespace; (_ :: _) as name; (_ :: _) as inner] =>
            k <-? parse_fuel fuel inner ;; Ok (PQualified namespace name k)
        | _, _ => Err MalformedKey
        end
      else Err MalformedKey
  end.

Definition parse_canonical_key (key : str) : result ParsedKey ResourceKeyError :=
  parse_fuel (length key) key.

(** [ObjectKey]'s [Display] and [FromStr]. *)
Definition object_key_display (k : str * str) : str := k.1 ++ lit "/" ++ k.2.
Definition object_key_from_str (s : str) : option (str * str) := split_once fslash s.
