(* ===== verification/ResourceKeyFacts.v ===== *)
(** * Correctness of the resource keys

    The parser accepts exactly the canonical spellings: it inverts the emitter, and
    no two strings parse to the same key.  So a tombstone names one resource, and
    resources with equal keys are the same resource slot. *)

From S2P Require Import Prelude ResourceKey.

(** ** Decimal numbers *)

Lemma digit_value_digit d : (0 ≤ d ≤ 9)%Z → digit_value (digit d) = Some d.
Proof.
  intros Hd. unfold digit_value, digit. rewrite nat_ascii_embedding by lia.
  replace (Z.of_nat (Z.to_nat (48 + d)) - 48)%Z with d by lia.
  by rewrite (proj2 (Z.leb_le 0 d)), (proj2 (Z.leb_le d 9)) by lia.
Qed.

Lemma digits_value_snoc acc s c :
  digits_value acc (s ++ [c])
  = digits_value acc s ≫= λ v, (λ d, (10 * v + d)%Z) <$> digit_value c.
Proof.
  revert acc. induction s as [|x s IH]; intros acc; cbn.
  - by destruct (digit_value c).
  - destruct (digit_value x); [apply IH|done].
Qed.

Definition is_digit (c : ascii) : Prop := is_Some (digit_value c).

Lemma decimal_fuel_spec f n :
  0 < f → (0 ≤ n < 10 ^ Z.of_nat f)%Z →
  digits_value 0 (decimal_fuel f n) = Some n ∧ Forall is_digit (decimal_fuel f n) ∧
  decimal_fuel f n ≠ [].
Proof.
  revert n. induction f as [|f IH]; [lia|]. intros n _ Hn. cbn [decimal_fuel].
  destruct (Z.ltb_spec n 10) as [Hlt|Hge].
  - cbn. rewrite digit_value_digit by lia. split; [f_equal; lia|]. split; [|done].
    constructor; [|constructor]. unfold is_digit. rewrite digit_value_digit by lia. eauto.
  - rewrite Nat2Z.inj_succ, Z.pow_succ_r in Hn by lia.
    assert (0 < f) as Hf by (destruct f; [cbn in Hn; lia|lia]).
    pose proof (Z.mod_pos_bound n 10 ltac:(lia)).
    destruct (IH (n / 10)%Z Hf) as (IH1 & IH2 & IH3).
    { split; [apply Z.div_pos; lia|]. apply Z.div_lt_upper_bound; lia. }
    rewrite digits_value_snoc, IH1. cbn. rewrite digit_value_digit by lia. cbn.
    split; [f_equal; rewrite (Z.div_mod n 10) at 3 by lia; lia|]. split; [|by destruct (decimal_fuel f _)].
    apply Forall_app. split; [done|]. constructor; [|constructor].
    unfold is_digit. rewrite digit_value_digit by lia. eauto.
Qed.

Lemma decimal_spec n :
  (0 ≤ n ≤ u32_max)%Z →
  digits_value 0 (decimal n) = Some n ∧ Forall is_digit (decimal n) ∧ decimal n ≠ [].
Proof. intros Hn. apply decimal_fuel_spec; [lia|]. unfold u32_max in Hn. cbn. lia. Qed.

Lemma parse_u16_decimal n : (0 ≤ n ≤ u16_max)%Z → parse_u16 (decimal n) = Some n.
Proof.
  intros Hn. destruct (decimal_spec n) as (Hv & Hd & Hne); [unfold u16_max, u32_max in *; lia|].
  destruct (decimal n) as [|c s]; [done|]. apply Forall_cons in Hd as [Hc _].
  assert (parse_u16 (c :: s)
          = match digits_value 0 (c :: s) with
            | Some n => if (n <=? u16_max)%Z then Some n else None
            | None => None
            end) as ->.
  { unfold parse_u16. destruct (decide (c = "+"%char)) as [->|Hplus].
    - destruct Hc as [d Hd]. vm_compute in Hd. done.
    - destruct c as [[] [] [] [] [] [] [] []]; done. }
  rewrite Hv. by rewrite (proj2 (Z.leb_le _ _)) by lia.
Qed.

Lemma parse_u16_range s n : parse_u16 s = Some n → (0 ≤ n ≤ u16_max)%Z.
Proof.
  unfold parse_u16. cbv zeta.
  match goal with |- match ?d with [] => _ | _ => _ end = _ → _ => generalize d end. intros ds.
  assert (∀ l acc v, (0 ≤ acc)%Z → digits_value acc l = Some v → (0 ≤ v)%Z) as Hpos.
  { induction l as [|c l IH]; cbn; intros acc v Hacc; [by intros [= <-]|].
    unfold digit_value. destruct (_ && _) eqn:E; [|done].
    apply andb_true_iff in E as [?%Z.leb_le _]. apply IH. lia. }
  destruct ds as [|c ds]; [done|]. destruct (digits_value 0 (c :: ds)) as [v|] eqn:E; [|done].
  destruct (Z.leb_spec v u16_max); [|done]. intros [= <-]. split; [|done].
  by eapply (Hpos _ 0%Z).
Qed.

Lemma parse_canonical_port_Ok s p :
  parse_canonical_port s = Ok p ↔ (0 ≤ p ≤ u16_max)%Z ∧ s = decimal p.
Proof.
  unfold parse_canonical_port. split.
  - destruct (parse_u16 s) as [q|] eqn:E; [|done]. case_bool_decide; [|done].
    intros [= <-]. split; [by eapply parse_u16_range|done].
  - intros [Hp ->]. rewrite parse_u16_decimal by done. by rewrite bool_decide_eq_true_2.
Qed.

Lemma digit_not_sep c : is_digit c → c ≠ bar ∧ c ≠ fslash.
Proof. intros [d Hd]. split; intros ->; by vm_compute in Hd. Qed.

Lemma decimal_no_sep p : (0 ≤ p ≤ u16_max)%Z → bar ∉ decimal p ∧ fslash ∉ decimal p.
Proof.
  intros Hp. destruct (decimal_spec p) as (_ & Hd & _); [unfold u16_max, u32_max in *; lia|].
  rewrite Forall_forall in Hd. split; intros Hin; by apply Hd, digit_not_sep in Hin as [].
Qed.

(** ** Splitting *)

Lemma split_once_Some c s a b :
  split_once c s = Some (a, b) ↔ s = a ++ c :: b ∧ c ∉ a.
Proof.
  revert a b. induction s as [|x s IH]; intros a b; cbn.
  { split; [done|]. intros [? _]. by destruct a. }
  destruct (Ascii.eqb_spec x c) as [->|Hne].
  - split; [intros [= <- <-]; set_solver|]. intros [Heq Hin].
    destruct a as [|y a]; simplify_eq/=; [done|set_solver].
  - destruct (split_once c s) as [[a' b']|] eqn:E.
    + split.
      * intros [= <- <-]. destruct (proj1 (IH _ _) eq_refl) as [-> Hin].
        split; [done|]. set_solver.
      * intros [Heq Hin]. destruct a as [|y a]; simplify_eq/=.
        assert (Some (a', b') = Some (a, b)) by (apply IH; set_solver). by simplify_eq.
    + split; [done|]. intros [Heq Hin]. destruct a as [|y a]; simplify_eq/=.
      assert (None = Some (a, b)) by (apply IH; set_solver). done.
Qed.

Lemma split_once_None c s : split_once c s = None ↔ c ∉ s.
Proof.
  split.
  - induction s as [|x s IH]; cbn; [set_solver|].
    destruct (Ascii.eqb_spec x c); [done|].
    destruct (split_once c s) as [[]|]; [done|]. set_solver.
  - intros Hin. destruct (split_once c s) as [[a b]|] eqn:E; [|done].
    apply split_once_Some in E as [-> _]. set_solver.
Qed.

Lemma split_once_app c a b : c ∉ a → split_once c (a ++ c :: b) = Some (a, b).
Proof. intros. by apply split_once_Some. Qed.

Lemma splitn2 c s a b : splitn 2 c s = [a; b] ↔ s = a ++ c :: b ∧ c ∉ a.
Proof.
  cbn. destruct (split_once c s) as [[a' b']|] eqn:E.
  - apply split_once_Some in E as E'. split; [by intros [= <- <-]|].
    intros Hs%split_once_Some. by simplify_eq.
  - split; [done|]. intros Hs%split_once_Some. by simplify_eq.
Qed.

Lemma splitn3 c s a b d :
  splitn 3 c s = [a; b; d] ↔ s = a ++ c :: b ++ c :: d ∧ c ∉ a ∧ c ∉ b.
Proof.
  change (splitn 3 c s) with
    (match split_once c s with Some (a, b) => a :: splitn 2 c b | None => [s] end).
  destruct (split_once c s) as [[a' b']|] eqn:E.
  - apply split_once_Some in E as [-> Hin]. split.
    + intros [= -> Hs]. apply splitn2 in Hs as [-> ?]. done.
    + intros (Heq & ? & ?). apply app_inj_at_fresh in Heq as [-> ->]; [|done..].
      f_equal. by apply splitn2.
  - split; [done|]. intros (-> & _). apply split_once_None in E. set_solver.
Qed.

(** ** The grammar *)

Definition render_host (h : ParsedHost) : str :=
  match h with
  | PExact n => lit "exact|" ++ n
  | PWildcard n true => lit "wildcard-single|" ++ n
  | PWildcard n false => lit "wildcard-multi|" ++ n
  | PCatchall => lit "catchall"
  end.

Definition render_table (gateway : bool) : str :=
  if gateway then lit "gateway" else lit "ingress".

Fixpoint render (k : ParsedKey) : str :=
  match k with
  | PRoute g p h => lit "route|" ++ render_table g ++ lit "|" ++ decimal p ++ lit "|" ++ render_host h
  | PTls p => lit "tls|" ++ decimal p
  | PClientCert p => lit "clientcert|" ++ decimal p
  | PListener k => lit "listener|" ++ k
  | PTlsPassthrough p => lit "tlspassthrough|" ++ decimal p
  | PTlsTerminate p => lit "tlsterminate|" ++ decimal p
  | PTcp p => lit "tcp|" ++ decimal p
  | PUdp p => lit "udp|" ++ decimal p
  | PEndpoints ns svc p => lit "endpoints|" ++ ns ++ lit "/" ++ svc ++ lit "/" ++ decimal p
  | PQualified ns name inner => lit "gw|" ++ ns ++ lit "|" ++ name ++ lit "|" ++ render inner
  | PGatewayMeta ns name => lit "gwmeta|" ++ ns ++ lit "|" ++ name
  end.

Definition port_ok (p : Z) : Prop := (0 ≤ p ≤ u16_max)%Z.

Definition host_ok (h : ParsedHost) : Prop :=
  match h with PExact n | PWildcard n _ => n ≠ [] | PCatchall => True end.

(** The keys the grammar can spell. *)
Fixpoint key_ok (k : ParsedKey) : Prop :=
  match k with
  | PRoute _ p h => port_ok p ∧ host_ok h
  | PTls p | PClientCert p | PTlsPassthrough p | PTlsTerminate p | PTcp p | PUdp p => port_ok p
  | PListener k => k ≠ []
  | PEndpoints ns svc p => ns ≠ [] ∧ fslash ∉ ns ∧ svc ≠ [] ∧ fslash ∉ svc ∧ port_ok p
  | PQualified ns name inner =>
      ns ≠ [] ∧ bar ∉ ns ∧ name ≠ [] ∧ bar ∉ name ∧ key_ok inner
  | PGatewayMeta ns name => ns ≠ [] ∧ bar ∉ ns ∧ name ≠ []
  end.

Lemma splitn_step n c s :
  splitn (S (S n)) c s
  = match split_once c s with Some (a, b) => a :: splitn (S n) c b | None => [s] end.
Proof. done. Qed.

Ltac fresh_sep := by apply contains_false.

Lemma parse_table_Ok t g : parse_table t = Ok g ↔ t = render_table g.
Proof.
  unfold parse_table, render_table. repeat case_bool_decide; subst; destruct g; naive_solver.
Qed.

Lemma parse_host_sound pat host h :
  parse_host pat host = Ok h →
  host_ok h ∧ render_host h = match host with Some n => pat ++ bar :: n | None => pat end.
Proof.
  unfold parse_host. destruct host as [[|c n]|]; [done|..];
    repeat case_bool_decide; intros; by simplify_eq/=.
Qed.

Lemma parse_host_complete h :
  host_ok h → ∃ pat host, parse_host pat host = Ok h ∧ bar ∉ pat ∧
    render_host h = match host with Some n => pat ++ bar :: n | None => pat end.
Proof.
  destruct h as [n|n []|]; cbn; intros Hn.
  - exists (lit "exact"), (Some n). split_and!; [by destruct n|fresh_sep|done].
  - exists (lit "wildcard-single"), (Some n). split_and!; [by destruct n|fresh_sep|done].
  - exists (lit "wildcard-multi"), (Some n). split_and!; [by destruct n|fresh_sep|done].
  - exists (lit "catchall"), None. split_and!; [done|fresh_sep|done].
Qed.

Lemma parse_route_key_sound rest k :
  parse_route_key rest = Ok k → key_ok k ∧ lit "route|" ++ rest = render k.
Proof.
  unfold parse_route_key. cbv zeta. rewrite splitn_step.
  destruct (split_once bar rest) as [[t r1]|] eqn:E1; [|cbn; by destruct (parse_table rest)].
  apply split_once_Some in E1 as [-> _]. cbn [head default from_option tail id].
  destruct (parse_table t) as [g|] eqn:Et; [|done]. apply parse_table_Ok in Et as ->.
  rewrite splitn_step. destruct (split_once bar r1) as [[p r2]|] eqn:E2.
  2: { by destruct (parse_canonical_port r1). }
  apply split_once_Some in E2 as [-> _].
  destruct (parse_canonical_port p) as [port|] eqn:Ep; [|done].
  apply parse_canonical_port_Ok in Ep as [Hp ->].
  assert (∃ pat host, splitn 2 bar r2 = pat :: option_list host ∧
            r2 = match host with Some n => pat ++ bar :: n | None => pat end) as (pat & host & -> & ->).
  { cbn. destruct (split_once bar r2) as [[a b]|] eqn:E; [|by exists r2, None].
    apply split_once_Some in E as [-> _]. by exists a, (Some b). }
  replace (head (option_list host)) with host by by destruct host.
  destruct (parse_host pat host) as [h|] eqn:Eh; [|done].
  apply parse_host_sound in Eh as [Hh <-]. intros [= <-]. done.
Qed.

Lemma parse_route_key_complete g p h :
  port_ok p → host_ok h →
  parse_route_key (render_table g ++ lit "|" ++ decimal p ++ lit "|" ++ render_host h)
  = Ok (PRoute g p h).
Proof.
  intros Hp Hh. destruct (parse_host_complete h Hh) as (pat & host & Eh & Hsep & ->).
  assert (bar ∉ render_table g) by (destruct g; fresh_sep).
  assert (bar ∉ decimal p) by by apply decimal_no_sep.
  change (lit "|") with [bar]. cbn [app]. unfold parse_route_key. cbv zeta.
  rewrite splitn_step, split_once_app by done.
  cbn [head default from_option tail id]. rewrite (proj2 (parse_table_Ok _ g)) by done.
  rewrite splitn_step, split_once_app by done.
  rewrite (proj2 (parse_canonical_port_Ok _ p)) by done. rewrite splitn_step.
  destruct host as [n|].
  - rewrite split_once_app by done. cbn [splitn head]. by rewrite Eh.
  - rewrite (proj2 (split_once_None bar pat)) by done. cbn [splitn head]. by rewrite Eh.
Qed.

(** ** The parser and the grammar *)

Lemma parse_port_key_Ok (c : Z → ParsedKey) rest k :
  (p <-? parse_canonical_port rest ;; Ok (c p)) = Ok k ↔
  ∃ p, k = c p ∧ port_ok p ∧ rest = decimal p.
Proof.
  destruct (parse_canonical_port rest) as [p|e] eqn:E.
  - pose proof E as [Hp ->]%parse_canonical_port_Ok.
    split; [intros [= <-]; by exists p|].
    intros (q & -> & Hq & Heq). rewrite Heq in E.
    rewrite (proj2 (parse_canonical_port_Ok _ q)) in E by done. by simplify_eq.
  - split; [done|]. intros (q & -> & Hq & ->).
    rewrite (proj2 (parse_canonical_port_Ok _ q)) in E by done. done.
Qed.

Lemma parse_endpoints_key_Ok rest k :
  parse_endpoints_key rest = Ok k ↔
  ∃ ns svc p, k = PEndpoints ns svc p ∧ key_ok k ∧
    rest = ns ++ lit "/" ++ svc ++ lit "/" ++ decimal p.
Proof.
  unfold parse_endpoints_key. split.
  - destruct (splitn 3 fslash rest) as [|[|x ns] [|[|y svc] [|p []]]] eqn:E; try done.
    apply splitn3 in E as (-> & Hns & Hsvc).
    destruct (parse_canonical_port p) as [q|] eqn:Ep; [|done].
    apply parse_canonical_port_Ok in Ep as [Hq ->]. intros [= <-].
    by exists (x :: ns), (y :: svc), q.
  - intros (ns & svc & p & -> & (Hne & Hns & Hne' & Hsvc & Hp) & ->).
    rewrite (proj2 (splitn3 fslash _ ns svc (decimal p))) by done.
    destruct ns, svc; try done. by rewrite (proj2 (parse_canonical_port_Ok _ p)).
Qed.

Lemma parse_gwmeta_key_Ok rest k :
  parse_gwmeta_key rest = Ok k ↔
  ∃ ns name, k = PGatewayMeta ns name ∧ key_ok k ∧ rest = ns ++ lit "|" ++ name.
Proof.
  unfold parse_gwmeta_key. split.
  - destruct (splitn 2 bar rest) as [|[|x ns] [|[|y name] []]] eqn:E; try done.
    apply splitn2 in E as (-> & Hns). intros [= <-]. by exists (x :: ns), (y :: name).
  - intros (ns & name & -> & (Hne & Hns & Hne') & ->).
    rewrite (proj2 (splitn2 bar _ ns name)) by done. by destruct ns, name.
Qed.

Lemma render_nonempty k : render k ≠ [].
Proof. by destruct k as [[] p h| | | | | | | | | | ]. Qed.

(** The parser, one level deep. *)
Lemma parse_step_sound key prefix rest fuel k :
  split_once bar key = Some (prefix, rest) → prefix ≠ lit "gw" →
  parse_fuel fuel key = Ok k → key_ok k ∧ key = render k.
Proof.
  intros E Hgw. assert (parse_fuel fuel key = parse_fuel 0 key) as ->.
  { destruct fuel; [done|]. cbn [parse_fuel]. rewrite E.
    by rewrite (bool_decide_eq_false_2 (prefix = lit "gw")). }
  cbn [parse_fuel]. rewrite E. apply split_once_Some in E as [-> _].
  case_bool_decide; [subst; by intros [? <-]%parse_route_key_sound|].
  do 6 (case_bool_decide; [subst; by intros (p & -> & ? & ->)%parse_port_key_Ok|]).
  case_bool_decide; [subst; destruct rest; [done|by intros [= <-]]|].
  case_bool_decide; [subst; by intros (ns & svc & p & -> & ? & ->)%parse_endpoints_key_Ok|].
  case_bool_decide; [subst; by intros (ns & name & -> & ? & ->)%parse_gwmeta_key_Ok|].
  by case_bool_decide.
Qed.

Lemma parse_fuel_sound fuel key k :
  parse_fuel fuel key = Ok k → key_ok k ∧ key = render k.
Proof.
  revert key k. induction fuel as [|fuel IH]; intros key k;
    (destruct (split_once bar key) as [[prefix rest]|] eqn:E; [|cbn; by rewrite E]);
    (destruct (decide (prefix = lit "gw")) as [->|Hne]; [|by eapply parse_step_sound]).
  - cbn [parse_fuel]. by rewrite E.
  - cbn [parse_fuel]. rewrite E. apply split_once_Some in E as [-> _].
    repeat (rewrite bool_decide_eq_false_2 by done). rewrite bool_decide_eq_true_2 by done.
    destruct (splitn 3 bar rest) as [|[|x ns] [|[|y name] [|[|z inner] []]]] eqn:E; try done.
    apply splitn3 in E as (-> & Hns & Hname).
    destruct (parse_fuel fuel (z :: inner)) as [k'|] eqn:Ek; [|done].
    apply IH in Ek as [Hk' ->]. intros [= <-]. by split_and!.
Qed.

(** Select the branch of the parser for a literal prefix. *)
Ltac at_prefix f p x :=
  change (parse_fuel _ _) with (parse_fuel (S f) (lit p ++ bar :: x));
  cbn [parse_fuel]; rewrite split_once_app by fresh_sep;
  repeat (rewrite bool_decide_eq_false_2 by done); rewrite bool_decide_eq_true_2 by done.

Lemma parse_fuel_complete fuel k :
  key_ok k → length (render k) ≤ fuel → parse_fuel fuel (render k) = Ok k.
Proof.
  revert k. induction fuel as [|fuel IH]; intros k Hk Hlen.
  { destruct (render k) eqn:E; [by destruct (render_nonempty k)|cbn in Hlen; lia]. }
  assert (∀ c p, port_ok p → (q <-? parse_canonical_port (decimal p) ;; Ok (c q)) = Ok (c p)
            :> result ParsedKey ResourceKeyError) as Hport.
  { intros c p Hp. apply parse_port_key_Ok. eauto. }
  destruct k as [g p h|p|p|o|p|p|p|p|ns svc p|ns name inner|ns name]; cbn [render] in Hlen |- *.
  - at_prefix fuel "route" (render_table g ++ lit "|" ++ decimal p ++ lit "|" ++ render_host h).
    destruct Hk. by apply parse_route_key_complete.
  - at_prefix fuel "tls" (decimal p). by apply Hport.
  - at_prefix fuel "clientcert" (decimal p). by apply Hport.
  - at_prefix fuel "listener" o. by destruct o.
  - at_prefix fuel "tlspassthrough" (decimal p). by apply Hport.
  - at_prefix fuel "tlsterminate" (decimal p). by apply Hport.
  - at_prefix fuel "tcp" (decimal p). by apply Hport.
  - at_prefix fuel "udp" (decimal p). by apply Hport.
  - at_prefix fuel "endpoints" (ns ++ lit "/" ++ svc ++ lit "/" ++ decimal p).
    apply parse_endpoints_key_Ok. by exists ns, svc, p.
  - at_prefix fuel "gw" (ns ++ lit "|" ++ name ++ lit "|" ++ render inner).
    destruct Hk as (Hne & Hns & Hne' & Hname & Hk).
    rewrite (proj2 (splitn3 bar _ ns name (render inner))) by done.
    rewrite !length_app in Hlen. cbn in Hlen.
    specialize (IH inner Hk ltac:(lia)).
    pose proof (render_nonempty inner). destruct ns, name, (render inner); try done.
    by rewrite IH.
  - at_prefix fuel "gwmeta" (ns ++ lit "|" ++ name).
    apply parse_gwmeta_key_Ok. by exists ns, name.
Qed.

(** The key parser and the key grammar agree exactly: a string parses to a key if
    and only if the key is well formed and the string is its one canonical
    spelling.  So parsing inverts rendering and no key has two spellings that
    parse, and the recursion on qualified keys always has enough fuel. *)
Theorem parse_canonical_key_iff key k :
  parse_canonical_key key = Ok k ↔ key_ok k ∧ key = render k.
Proof.
  split; [apply parse_fuel_sound|]. intros [Hk ->]. by apply parse_fuel_complete.
Qed.

(** ** The emitter *)

Section emitter.
Context {B : Type}.
Implicit Types (r : Resource B) (p : Payload B).

(** The identity a resource is addressed by. *)
Definition payload_id p : option ParsedKey :=
  match p with
  | RouteHost table port (Some h) =>
      match pattern h with
      | Some (Exact n) => Some (PRoute (table =? 2)%Z port (PExact n))
      | Some (Wildcard n kind) => Some (PRoute (table =? 2)%Z port (PWildcard n (kind =? 1)%Z))
      | Some (Catchall _) => Some (PRoute (table =? 2)%Z port PCatchall)
      | None => None
      end
  | RouteHost _ _ None => None
  | TlsPort port _ => Some (PTls port)
  | ClientCertPort port _ => Some (PClientCert port)
  | ListenerStatus k _ => Some (PListener k)
  | TlsPassthroughPort port _ => Some (PTlsPassthrough port)
  | TlsTerminatePort port _ => Some (PTlsTerminate port)
  | TcpPort port _ => Some (PTcp port)
  | UdpPort port _ => Some (PUdp port)
  | Endpoints ns svc port _ => Some (PEndpoints ns svc port)
  | GatewayMeta _ _ => None
  end.

Definition resource_id r : option ParsedKey :=
  match payload r with
  | None => None
  | Some p =>
      match p, qualifier_namespace r, qualifier_name r with
      | GatewayMeta _ _, ns, name => Some (PGatewayMeta ns name)
      | _, [], [] => payload_id p
      | _, ns, name => PQualified ns name <$> payload_id p
      end
  end.

Lemma payload_key_render p key :
  payload_key p = Ok key → ∃ k, payload_id p = Some k ∧ key = render k.
Proof.
  destruct p as [table port [h|]| | | | | | | | | ]; cbn [payload_key payload_id];
    try (intros [= <-]; eexists; split; reflexivity); try discriminate.
  - unfold route_host_key, table_name, wildcard_name.
    destruct (Z.eqb_spec table 1) as [->|]; [|destruct (Z.eqb_spec table 2) as [->|]; [|done]];
      (destruct (pattern h) as [[host|host kind|b]|]; [..|done]);
      try (intros [= <-]; eexists; split; [done|]; cbn; by rewrite <- ?app_assoc);
      (destruct (Z.eqb_spec kind 1) as [->|]; [|destruct (Z.eqb_spec kind 2) as [->|]; [|done]]);
      intros [= <-]; eexists; (split; [done|]); cbn; by rewrite <- ?app_assoc.
  - unfold route_host_key. by destruct (table_name table).
Qed.

Lemma canonical_key_render r key :
  canonical_key r = Ok key →
  ∃ k, resource_id r = Some k ∧ key = render k ∧
       (key_ok k → parse_canonical_key key = Ok k).
Proof.
  unfold canonical_key, resource_id, qualifier.
  destruct (payload r) as [p|]; [|done].
  assert (∀ k, key_ok k → parse_canonical_key (render k) = Ok k) as Hparse.
  { intros k Hk. by apply parse_fuel_complete. }
  destruct (qualifier_namespace r) as [|x ns], (qualifier_name r) as [|y name]; try done.
  - destruct p; try done; intros (k & -> & ->)%payload_key_render; eauto.
  - assert (∀ key', payload_key p = Ok key' →
              ∃ k, PQualified (x :: ns) (y :: name) <$> payload_id p = Some k ∧
                lit "gw|" ++ (x :: ns) ++ lit "|" ++ (y :: name) ++ lit "|" ++ key' = render k)
      as Hq.
    { intros key' (k & -> & ->)%payload_key_render. by eexists. }
    destruct (payload_key p) as [key'|] eqn:E.
    + destruct (Hq _ eq_refl) as (k & Hk & Heq).
      destruct p; try done; intros [= Hkey];
        (assert (key = render k) as -> by by rewrite <-Heq, <-Hkey); exists k; auto.
    + destruct p; try done. intros [= <-]. eexists. split; [done|]. split; [done|].
      exact (Hparse (PGatewayMeta (x :: ns) (y :: name))).
Qed.

(** A resource's canonical key spells its identity: whenever the emitter yields a
    key, the resource has an identity and the key is the grammar's spelling of
    it; and when the identity is well formed, the parser recovers it from the key.
    So resources with the same key have the same identity. *)
Theorem canonical_key_roundtrip r key :
  canonical_key r = Ok key →
  ∃ k, resource_id r = Some k ∧ key = render k ∧
       (key_ok k → parse_canonical_key key = Ok k).
Proof. apply canonical_key_render. Qed.

End emitter.

(** A namespaced name need not have exactly one slash to parse: the parser splits
    at the first slash, whatever follows. *)
Theorem object_key_extra_slash :
  object_key_from_str (lit "prod/gw/extra") = Some (lit "prod", lit "gw/extra").
Proof. reflexivity. Qed.

(** ** Witnesses *)

Lemma canonical_key_roundtrip_witness :
  let r := mkResource (B:=unit)
             (Some (RouteHost 2 443 (Some (mkHostEntry (Some (Exact (lit "a.com"))) tt))))
             (lit "prod") (lit "gw") in
  ∃ k, resource_id r = Some k ∧ lit "gw|prod|gw|route|gateway|443|exact|a.com" = render k ∧
       (key_ok k → parse_canonical_key (lit "gw|prod|gw|route|gateway|443|exact|a.com") = Ok k).
Proof.
  intros r. apply (canonical_key_roundtrip r). vm_compute. reflexivity.
Defined.
