(* ===== verification/PortAlloc.v ===== *)
(** * Allocation of internal ports

    Models [allocate_internal_ports] of [crates/coxswain-reflector/src/port_alloc.rs]:
    each listener of a Gateway in shared mode gets a port of its own on the shared
    proxy, and what was allocated before is kept.  Routing, certificates and policies
    are keyed by this port, so two listeners on one port would share them.

    A key is a Gateway with a listener port; the range is inclusive. *)

From S2P Require Import Prelude ResourceKey.

Abbreviation ListenerKey := (str * str * Z)%type.

Record PortAllocation := mkPortAllocation {
  assignments : gmap ListenerKey Z;
  exhausted : list ListenerKey;
}.

Definition allocation_get (a : PortAllocation) (gateway : str * str) (listener_port : Z) : option Z :=
  assignments a !! (gateway, listener_port).

Definition is_gateway_exhausted (a : PortAllocation) (gateway : str * str) : bool :=
  existsb (λ k, bool_decide (k.1 = gateway)) (exhausted a).

(** [RangeInclusive<u16>] *)
Definition port_in (lo hi p : Z) : bool := (lo <=? p)%Z && (p <=? hi)%Z.
Definition port_range (lo hi : Z) : list Z := seqZ lo (hi - lo + 1).

(** [sort_by_key(|(gw, port)| (gw.to_string(), *port))] *)
Definition listener_leb (a b : ListenerKey) : bool :=
  let na := object_key_display a.1 in
  let nb := object_key_display b.1 in
  if negb (bool_decide (na = nb)) then str_leb na nb else (a.2 <=? b.2)%Z.

Section allocate.
Context `{HashIter}.
Context (desired : list ListenerKey) (existing : gmap ListenerKey Z) (lo hi : Z).

(** Pass 1, one key: the assignments and the ports in use. *)
Definition keep_existing (acc : gmap ListenerKey Z * gset Z) (key : ListenerKey) :
    gmap ListenerKey Z * gset Z :=
  let '(assigned, used) := acc in
  match existing !! key with
  | Some port =>
      if port_in lo hi port && bool_decide (port ∉ used)
      then (<[key := port]> assigned, {[port]} ∪ used)
      else (assigned, used)
  | None => (assigned, used)
  end.

(** Ports still held by keys that are no longer desired. *)
Definition reserve (used : gset Z) (kp : ListenerKey * Z) : gset Z :=
  if bool_decide (kp.1 ∉ desired) && port_in lo hi kp.2 then {[kp.2]} ∪ used else used.

(** Pass 2, one key. *)
Definition place (acc : gmap ListenerKey Z * gset Z * list ListenerKey) (key : ListenerKey) :
    gmap ListenerKey Z * gset Z * list ListenerKey :=
  let '(assigned, used, ex) := acc in
  match assigned !! key with
  | Some _ => acc
  | None =>
      match find_first (λ p, bool_decide (p ∉ used)) (port_range lo hi) with
      | Some port => (<[key := port]> assigned, {[port]} ∪ used, ex)
      | None => (assigned, used, ex ++ [key])
      end
  end.

Definition allocate_internal_ports : PortAllocation :=
  let sorted := sort_by listener_leb desired in
  let '(assigned, used) := foldl keep_existing (∅, ∅) sorted in
  let used := foldl reserve used (hash_iter existing) in
  let '(assigned, _, ex) := foldl place (assigned, used, []) sorted in
  mkPortAllocation assigned ex.

(** ** Pass 1 *)

Lemma port_range_elem p : p ∈ port_range lo hi ↔ port_in lo hi p = true.
Proof.
  unfold port_range, port_in. rewrite elem_of_seqZ, andb_true_iff, !Z.leb_le. lia.
Qed.

(** What the first pass has after some keys: distinct ports of the range, each the one
    its key had; and whoever lost its port lost it to another key that has it. *)
Record kept (done : list ListenerKey) (a : gmap ListenerKey Z) (u : gset Z) : Prop := {
  kept_used p : p ∈ u ↔ ∃ k, a !! k = Some p;
  kept_inj k k' p : a !! k = Some p → a !! k' = Some p → k = k';
  kept_old k p : a !! k = Some p → existing !! k = Some p ∧ port_in lo hi p = true ∧ k ∈ done;
  kept_all k p : k ∈ done → existing !! k = Some p → port_in lo hi p = true →
    ∃ k', a !! k' = Some p;
}.

Lemma keep_existing_kept done a u key :
  kept done a u → let '(a', u') := keep_existing (a, u) key in kept (done ++ [key]) a' u'.
Proof.
  intros [Hu Hinj Hold Hall]. unfold keep_existing.
  assert (∀ k, k ∈ done ++ [key] ↔ k ∈ done ∨ k = key) as Hin
    by (intros k; by rewrite elem_of_app, list_elem_of_singleton).
  destruct (existing !! key) as [port|] eqn:E; cycle 1.
  { split; [done|done| |].
    - intros k p (? & ? & ?)%Hold. rewrite Hin. auto.
    - intros k p [?| ->]%Hin He Hr; [by eapply Hall|congruence]. }
  destruct (port_in lo hi port) eqn:Hr; cbn [andb]; cycle 1.
  { split; [done|done| |].
    - intros k p (? & ? & ?)%Hold. rewrite Hin. auto.
    - intros k p [?| ->]%Hin He Hr'; [by eapply Hall|congruence]. }
  case_bool_decide as Hfree; cycle 1.
  { split; [done|done| |].
    - intros k p (? & ? & ?)%Hold. rewrite Hin. auto.
    - intros k p [?| ->]%Hin He Hr'; [by eapply Hall|].
      rewrite E in He. injection He as <-. apply Hu. by destruct (decide (port ∈ u)). }
  assert (a !! key = None) as Hnone.
  { destruct (a !! key) as [p|] eqn:Ea; [|done]. exfalso. destruct (Hold _ _ Ea) as [He _].
    rewrite E in He. injection He as <-. apply Hfree, Hu. eauto. }
  split.
  - intros p. rewrite elem_of_union, elem_of_singleton, Hu. split.
    + intros [->|[k Hk]]; [exists key; apply lookup_insert_eq|].
      exists k. rewrite lookup_insert_ne; [done|]. intros ->. congruence.
    + intros [k Hk]. apply lookup_insert_Some in Hk as [[-> ->]|[_ Hk]]; eauto.
  - intros k k' p Hk Hk'.
    apply lookup_insert_Some in Hk as [[<- <-]|[_ Hk]];
      apply lookup_insert_Some in Hk' as [[-> Hp]|[_ Hk']]; [done| | |by eapply Hinj];
      exfalso; apply Hfree, Hu; [|rewrite Hp]; eauto.
  - intros k p Hk. apply lookup_insert_Some in Hk as [[<- <-]|[_ (? & ? & ?)%Hold]]; rewrite Hin; auto.
  - intros k p [Hk| ->]%Hin He Hr'.
    + destruct (Hall k p Hk He Hr') as [k' Hk']. exists k'. rewrite lookup_insert_ne; [done|].
      intros ->. congruence.
    + rewrite E in He. injection He as <-. exists key. apply lookup_insert_eq.
Qed.

Lemma pass1_kept l :
  let '(a, u) := foldl keep_existing (∅, ∅) l in kept l a u.
Proof.
  induction l as [|key l IH] using rev_ind.
  - split.
    + intros p. rewrite elem_of_empty. split; [done|]. by intros [k ?%lookup_empty_Some].
    + by intros ??? ?%lookup_empty_Some.
    + by intros ?? ?%lookup_empty_Some.
    + by intros ?? ?%elem_of_nil.
  - rewrite foldl_app. destruct (foldl _ _ l) as [a u]. by apply keep_existing_kept.
Qed.

(** ** Reservations *)

(** A port of the range that a key no longer desired still holds. *)
Definition stale (p : Z) : Prop :=
  ∃ k, k ∉ desired ∧ existing !! k = Some p ∧ port_in lo hi p = true.

Lemma reserve_spec u l p :
  p ∈ foldl reserve u l ↔ p ∈ u ∨ ∃ k, (k, p) ∈ l ∧ k ∉ desired ∧ port_in lo hi p = true.
Proof.
  induction l as [|[k q] l IH] using rev_ind; cbn.
  { split; [auto|]. intros [?|(k & ?%elem_of_nil & _)]; done. }
  rewrite foldl_app. cbn [foldl]. unfold reserve at 1. cbn [fst snd].
  assert (∀ k', (k', p) ∈ l ++ [(k, q)] ↔ (k', p) ∈ l ∨ (k' = k ∧ p = q)) as Hin.
  { intros k'. rewrite elem_of_app, list_elem_of_singleton. split; (intros [?|Heq]; [by left|right]).
    - by injection Heq.
    - by destruct Heq as [-> ->]. }
  setoid_rewrite Hin. case_bool_decide as Hk; [destruct (port_in lo hi q) eqn:Hr|]; cbn [andb];
    rewrite ?elem_of_union, ?elem_of_singleton, IH; split.
  - intros [->|[?|(k' & ? & ?)]]; [right; exists k; auto|auto|right; exists k'; auto].
  - intros [?|(k' & [?|[-> ->]] & ? & ?)]; [auto|right; right; exists k'; auto|auto].
  - intros [?|(k' & ? & ?)]; [auto|right; exists k'; auto].
  - intros [?|(k' & [?|[-> ->]] & ? & ?)]; [auto|right; exists k'; auto|congruence].
  - intros [?|(k' & ? & ?)]; [auto|right; exists k'; auto].
  - intros [?|(k' & [?|[-> ->]] & ? & ?)]; [auto|right; exists k'; auto|contradiction].
Qed.

(** ** Pass 2 *)

(** After some keys of the second pass, from the assignments [a1] of the first and the
    ports [u1] then in use. *)
Record placed (a1 : gmap ListenerKey Z) (u1 : gset Z) (done : list ListenerKey)
    (a : gmap ListenerKey Z) (u : gset Z) (ex : list ListenerKey) : Prop := {
  placed_old k p : a1 !! k = Some p → a !! k = Some p;
  placed_inj k k' p : a !! k = Some p → a !! k' = Some p → k = k';
  placed_new k p : a !! k = Some p →
    a1 !! k = Some p ∨ (p ∉ u1 ∧ port_in lo hi p = true ∧ k ∈ done);
  placed_used p : p ∈ u ↔ p ∈ u1 ∨ ∃ k, a !! k = Some p;
  placed_all k : k ∈ done → is_Some (a !! k) ∨ k ∈ ex;
  placed_full k : k ∈ ex → k ∈ done ∧ a !! k = None ∧ ∀ p, port_in lo hi p = true → p ∈ u;
}.

Lemma place_placed a1 u1 done a u ex key :
  placed a1 u1 done a u ex →
  let '(a', u', ex') := place (a, u, ex) key in placed a1 u1 (done ++ [key]) a' u' ex'.
Proof.
  intros [Hold Hinj Hnew Hu Hall Hfull]. unfold place.
  assert (∀ k, k ∈ done ++ [key] ↔ k ∈ done ∨ k = key) as Hin
    by (intros k; by rewrite elem_of_app, list_elem_of_singleton).
  assert (∀ k p, a !! k = Some p →
    a1 !! k = Some p ∨ (p ∉ u1 ∧ port_in lo hi p = true ∧ k ∈ done ++ [key])) as Hnew'.
  { intros k p [?|(? & ? & ?)]%Hnew; [auto|]. rewrite Hin. auto. }
  destruct (a !! key) as [q|] eqn:E.
  { split; [done|done|done|done| |].
    - intros k [?| ->]%Hin; [auto|]. left. eauto.
    - intros k (? & ? & ?)%Hfull. rewrite Hin. auto. }
  destruct (find_first _ _) as [port|] eqn:F.
  - apply find_first_elem in F as [Hr Hfree]. apply port_range_elem in Hr.
    apply bool_decide_eq_true in Hfree. split.
    + intros k p Hk%Hold. rewrite lookup_insert_ne; [done|]. intros ->. congruence.
    + intros k k' p Hk Hk'. apply lookup_insert_Some in Hk as [[<- <-]|[_ Hk]];
        apply lookup_insert_Some in Hk' as [[-> Hp]|[_ Hk']]; [done| | |by eapply Hinj];
        exfalso; apply Hfree, Hu; [|rewrite Hp]; eauto.
    + intros k p Hk. apply lookup_insert_Some in Hk as [[<- <-]|[_ Hk]]; [|by apply Hnew'].
      right. rewrite Hin. split_and!; [|done|auto]. intros ?. apply Hfree, Hu. auto.
    + intros p. rewrite elem_of_union, elem_of_singleton, Hu. split.
      * intros [->|[?|[k Hk]]]; [right; exists key; apply lookup_insert_eq|auto|].
        right. exists k. rewrite lookup_insert_ne; [done|]. intros ->. congruence.
      * intros [?|[k Hk]]; [auto|]. apply lookup_insert_Some in Hk as [[_ ->]|[_ Hk]]; eauto.
    + intros k [[?|?]%Hall| ->]%Hin; [left|auto|left].
      * destruct (decide (key = k)) as [->|]; [rewrite lookup_insert_eq; eauto|].
        by rewrite lookup_insert_ne.
      * rewrite lookup_insert_eq. eauto.
    + intros k (_ & _ & Hk)%Hfull. by destruct Hfree; apply Hk.
  - apply find_first_None in F. rewrite Forall_forall in F. split; [done|done|done|done| |].
    + intros k [[?|?]%Hall| ->]%Hin; [auto|..]; right; rewrite elem_of_app, list_elem_of_singleton; auto.
    + intros k. rewrite elem_of_app, list_elem_of_singleton. intros [(? & ? & ?)%Hfull| ->].
      { rewrite Hin. auto. }
      rewrite Hin. split_and!; [auto|done|]. intros p Hp%port_range_elem%F.
      apply bool_decide_eq_false in Hp. by destruct (decide (p ∈ u)).
Qed.

Lemma pass2_placed a1 u1 l :
  (∀ k p, a1 !! k = Some p → p ∈ u1) →
  (∀ k k' p, a1 !! k = Some p → a1 !! k' = Some p → k = k') →
  let '(a, u, ex) := foldl place (a1, u1, []) l in placed a1 u1 l a u ex.
Proof.
  intros Hsub Hinj. induction l as [|key l IH] using rev_ind.
  - split; [done|done|auto| |by intros ? ?%elem_of_nil|by intros ? ?%elem_of_nil].
    intros p. split; [auto|]. intros [?|[k ?%Hsub]]; done.
  - rewrite foldl_app. destruct (foldl _ _ l) as [[a u] ex]. by apply place_placed.
Qed.

(** ** The allocation *)

Lemma allocate_spec :
  ∃ a1 u1 a u, kept (sort_by listener_leb desired) a1 u1 ∧
    placed a1 (foldl reserve u1 (hash_iter existing)) (sort_by listener_leb desired) a u
      (exhausted allocate_internal_ports) ∧
    assignments allocate_internal_ports = a.
Proof.
  unfold allocate_internal_ports. pose proof (pass1_kept (sort_by listener_leb desired)) as H1.
  destruct (foldl keep_existing _ _) as [a1 u1].
  pose proof (pass2_placed a1 (foldl reserve u1 (hash_iter existing)) (sort_by listener_leb desired)) as H2.
  destruct (foldl place _ _) as [[a u] ex]. exists a1, u1, a, u. split_and!; [done| |done].
  apply H2; [|apply (kept_inj _ _ _ H1)].
  intros k p Hk. apply reserve_spec. left. apply (kept_used _ _ _ H1). eauto.
Qed.

End allocate.

Section sound.
Context `{HashIter}.
Implicit Types (desired : list ListenerKey) (existing : gmap ListenerKey Z).

(** A key keeps a port of the range that no other desired key claims. *)
Lemma allocation_keeps desired existing lo hi k p :
  k ∈ desired → existing !! k = Some p → port_in lo hi p = true →
  (∀ k', k' ∈ desired → existing !! k' = Some p → k' = k) →
  assignments (allocate_internal_ports desired existing lo hi) !! k = Some p.
Proof.
  intros Hk He Hr Hone. destruct (allocate_spec desired existing lo hi) as (a1 & u1 & a & u & H1 & H2 & ->).
  apply (placed_old _ _ _ _ _ _ _ _ H2).
  destruct (kept_all _ _ _ _ _ _ H1 k p) as [k' Hk']; [by rewrite elem_of_sort_by|done|done|].
  destruct (kept_old _ _ _ _ _ _ H1 k' p Hk') as (He' & _ & Hd). rewrite elem_of_sort_by in Hd.
  by rewrite <-(Hone k' Hd He').
Qed.

(** Internal ports isolate Gateways.  For any desired listeners, previous assignments
    and range, no two listeners share a port; every port is of the range and belongs to
    a desired listener; a listener is left without a port only when all ports of the
    range are taken; a port that a departing listener still holds goes to nobody who
    did not already hold it; a listener keeps its port unless another desired one claims
    it too; and allocating again from the result, as after a restart, moves nobody. *)
Theorem port_allocation desired existing (lo hi : Z) :
  let r := allocate_internal_ports desired existing lo hi in
  let a := assignments r in
  (∀ k k' p, a !! k = Some p → a !! k' = Some p → k = k') ∧
  (∀ k p, a !! k = Some p → port_in lo hi p = true ∧ k ∈ desired) ∧
  (∀ k, k ∈ desired → is_Some (a !! k) ∨ k ∈ exhausted r) ∧
  (∀ k, k ∈ exhausted r → a !! k = None ∧
     ∀ p, port_in lo hi p = true → (∃ k', a !! k' = Some p) ∨ stale desired existing lo hi p) ∧
  (∀ k p, a !! k = Some p → stale desired existing lo hi p → existing !! k = Some p) ∧
  (∀ k p, k ∈ desired → existing !! k = Some p → port_in lo hi p = true →
     (∀ k', k' ∈ desired → existing !! k' = Some p → k' = k) → a !! k = Some p) ∧
  (∀ k p, a !! k = Some p → assignments (allocate_internal_ports desired a lo hi) !! k = Some p).
Proof.
  intros r a.
  assert ((∀ k k' p, a !! k = Some p → a !! k' = Some p → k = k') ∧
    (∀ k p, a !! k = Some p → port_in lo hi p = true ∧ k ∈ desired)) as [Hinj Hran].
  { destruct (allocate_spec desired existing lo hi) as (a1 & u1 & a' & u & H1 & H2 & Ha).
    unfold a, r. rewrite Ha. split; [apply (placed_inj _ _ _ _ _ _ _ _ H2)|].
    intros k p [(_ & ? & Hd)%(kept_old _ _ _ _ _ _ H1)|(_ & ? & Hd)]%(placed_new _ _ _ _ _ _ _ _ H2);
      by rewrite elem_of_sort_by in Hd. }
  destruct (allocate_spec desired existing lo hi) as (a1 & u1 & a' & u & H1 & H2 & Ha).
  fold r a in Ha. subst a'. split_and!; [done|done| | | | |].
  - intros k Hk. apply (placed_all _ _ _ _ _ _ _ _ H2). by rewrite elem_of_sort_by.
  - intros k (_ & ? & Hf)%(placed_full _ _ _ _ _ _ _ _ H2). split; [done|].
    intros p Hp%Hf. apply (placed_used _ _ _ _ _ _ _ _ H2) in Hp as [Hp|?]; [|auto].
    apply reserve_spec in Hp as [(k' & Hk')%(kept_used _ _ _ _ _ _ H1)|(k' & Hk' & ? & ?)].
    + left. exists k'. by apply (placed_old _ _ _ _ _ _ _ _ H2).
    + right. exists k'. by rewrite hash_iter_elem in Hk'.
  - intros k p [(? & _)%(kept_old _ _ _ _ _ _ H1)|(Hp & ? & _)]%(placed_new _ _ _ _ _ _ _ _ H2); [done|].
    intros (k' & ? & ? & ?). destruct Hp. apply reserve_spec. right. exists k'.
    by rewrite hash_iter_elem.
  - intros k p. apply allocation_keeps.
  - intros k p Hk. destruct (Hran k p Hk) as [? ?]. apply allocation_keeps; [done..|]. eauto.
Qed.

End sound.
