(* ===== verification/Apply.v ===== *)
(** * The client's resource cache

    Models [crates/coxswain-discovery/src/apply.rs]: staging a full snapshot or a
    delta onto the committed cache, the checks that reject a message, and the
    commit.  The nine typed maps of [ResourceCache] are one map keyed by [Slot],
    whose constructors are the nine kinds.

    Parameters: [resource_hash], the SHA-256 of an encoded resource;
    [sha256_hex], that of a string; [body_refs], the endpoint references that
    the walk over a message body finds; and [compile_error], the outcome of
    compiling a staged world against the committed one. *)

From S2P Require Import Prelude ResourceKey ResourceKeyFacts.

(** ** Slots *)

Inductive HostKey :=
| HExact (host : str)
| HWildcard (suffix : str) (single_label : bool)
| HCatchall.

(** The nine kinds of cached resources with their typed keys. *)
Inductive Slot :=
| SRoute (gateway : bool) (port : Z) (host : HostKey)
| STls (port : Z)
| SClientCert (port : Z)
| SListener (key : str * str)
| SPassthrough (port : Z)
| STerminate (port : Z)
| STcp (port : Z)
| SUdp (port : Z)
| SEndpoints (key : str * str * Z).

#[export] Instance HostKey_eq_dec : EqDecision HostKey.
Proof. solve_decision. Defined.
#[export] Instance Slot_eq_dec : EqDecision Slot.
Proof. solve_decision. Defined.

#[export] Instance HostKey_countable : Countable HostKey.
Proof.
  refine (inj_countable'
    (λ h, match h with HExact n => inl n | HWildcard n b => inr (Some (n, b)) | HCatchall => inr None end)
    (λ x, match x with inl n => HExact n | inr (Some (n, b)) => HWildcard n b | inr None => HCatchall end)
    _).
  by intros [].
Defined.

#[export] Instance Slot_countable : Countable Slot.
Proof.
  refine (inj_countable'
    (λ s : Slot, match s with
       | SRoute g p h => (0%Z, inl (inl (g, p, h)))
       | STls p => (1%Z, inl (inr p)) | SClientCert p => (2%Z, inl (inr p))
       | SListener k => (3%Z, inr (inl k))
       | SPassthrough p => (4%Z, inl (inr p)) | STerminate p => (5%Z, inl (inr p))
       | STcp p => (6%Z, inl (inr p)) | SUdp p => (7%Z, inl (inr p))
       | SEndpoints k => (8%Z, inr (inr k))
       end)
    (λ x : Z * ((bool * Z * HostKey + Z) + (str * str + str * str * Z)), match x with
       | (_, inl (inl (g, p, h))) => SRoute g p h
       | (n, inl (inr p)) =>
           if (n =? 1)%Z then STls p else if (n =? 2)%Z then SClientCert p
           else if (n =? 4)%Z then SPassthrough p else if (n =? 5)%Z then STerminate p
           else if (n =? 6)%Z then STcp p else SUdp p
       | (_, inr (inl k)) => SListener k
       | (_, inr (inr k)) => SEndpoints k
       end) _).
  by intros [].
Defined.

(** The kinds that carry backend groups, and so endpoint references. *)
Definition carries_refs (s : Slot) : bool :=
  match s with
  | SRoute _ _ _ | SPassthrough _ | STerminate _ | STcp _ | SUdp _ => true
  | _ => false
  end.

(** The kinds of the coarse cells, whose whole-map comparison a delta that does not
    touch them skips. *)
Inductive Cell := CTls | CClientCert | CListener | CPassthrough | CTerminate | CTcp | CUdp.

#[export] Instance Cell_eq_dec : EqDecision Cell.
Proof. solve_decision. Defined.

Definition cell_of (s : Slot) : option Cell :=
  match s with
  | STls _ => Some CTls
  | SClientCert _ => Some CClientCert
  | SListener _ => Some CListener
  | SPassthrough _ => Some CPassthrough
  | STerminate _ => Some CTerminate
  | STcp _ => Some CTcp
  | SUdp _ => Some CUdp
  | _ => None
  end.

Inductive WireError :=
| DeltaBeforeFullSnapshot
| UnknownResourceKey
| RemovedEndpointStillReferenced
| VersionMismatch
| CompileError.

Definition wire_from_key_err (_ : ResourceKeyError) : WireError := UnknownResourceKey.

Definition port_u16 (p : Z) : result Z WireError :=
  if (0 <=? p)%Z && (p <=? u16_max)%Z then Ok p else Err UnknownResourceKey.

Section apply.
Context {B : Type}.
Context (resource_hash : Resource B → str) (sha256_hex : str → str).
Context (body_refs : B → gset (str * str * Z)).

(** [route_partition_key]. *)
Definition route_partition_key (table port : Z) (host : option (HostEntry B))
    : result Slot WireError :=
  gateway <-? (if (table =? 1)%Z then Ok false
               else if (table =? 2)%Z then Ok true else Err UnknownResourceKey) ;;
  match host with
  | None => Err UnknownResourceKey
  | Some h =>
      hk <-? match pattern h with
             | None => Err UnknownResourceKey
             | Some (Exact n) =>
                 if starts_with (lit "*.") n then Err UnknownResourceKey else Ok (HExact n)
             | Some (Wildcard suffix kind) =>
                 if (kind =? 1)%Z then Ok (HWildcard suffix true)
                 else if (kind =? 2)%Z then Ok (HWildcard suffix false)
                 else Err UnknownResourceKey
             | Some (Catchall _) => Ok HCatchall
             end ;;
      p <-? port_u16 port ;; Ok (SRoute gateway p hk)
  end.

Definition object_slot (k : str) : result Slot WireError :=
  match object_key_from_str k with
  | Some ok => Ok (SListener ok)
  | None => Err UnknownResourceKey
  end.

(** The slot a resource is staged under. *)
Definition slot_of (p : Payload B) : result Slot WireError :=
  let port_slot (c : Z → Slot) (port : Z) := q <-? port_u16 port ;; Ok (c q) in
  match p with
  | RouteHost table port host => route_partition_key table port host
  | TlsPort port _ => port_slot STls port
  | ClientCertPort port _ => port_slot SClientCert port
  | ListenerStatus k _ => object_slot k
  | TlsPassthroughPort port _ => port_slot SPassthrough port
  | TlsTerminatePort port _ => port_slot STerminate port
  | TcpPort port _ => port_slot STcp port
  | UdpPort port _ => port_slot SUdp port
  | Endpoints ns svc port _ => port_slot (λ q, SEndpoints (ns, svc, q)) port
  | GatewayMeta _ _ => Err UnknownResourceKey
  end.

(** The endpoint references staged with a resource. *)
Definition payload_refs (p : Payload B) : gset (str * str * Z) :=
  match p with
  | RouteHost _ _ (Some h) => body_refs (host_body h)
  | RouteHost _ _ None => ∅
  | TlsPort _ b | ClientCertPort _ b | ListenerStatus _ b | TlsPassthroughPort _ b
  | TlsTerminatePort _ b | TcpPort _ b | UdpPort _ b | Endpoints _ _ _ b => body_refs b
  | GatewayMeta _ _ => ∅
  end.

(** The slot a tombstone's key names. *)
Definition slot_of_parsed (k : ParsedKey) : result Slot WireError :=
  match k with
  | PRoute g p (PExact n) => Ok (SRoute g p (HExact n))
  | PRoute g p (PWildcard n b) => Ok (SRoute g p (HWildcard n b))
  | PRoute g p PCatchall => Ok (SRoute g p HCatchall)
  | PTls p => Ok (STls p)
  | PClientCert p => Ok (SClientCert p)
  | PListener k => object_slot k
  | PTlsPassthrough p => Ok (SPassthrough p)
  | PTlsTerminate p => Ok (STerminate p)
  | PTcp p => Ok (STcp p)
  | PUdp p => Ok (SUdp p)
  | PEndpoints ns svc p => Ok (SEndpoints (ns, svc, p))
  | PQualified _ _ _ | PGatewayMeta _ _ => Err UnknownResourceKey
  end.

(** ** Staging *)

Record Staged := mkStaged {
  slots : gmap Slot (Payload B);
  refs : gmap Slot (gset (str * str * Z));
  digests : gmap str str;
}.

Definition empty_staged : Staged := mkStaged ∅ ∅ ∅.

(** The staged world, the touched cells, and the keys seen in the message. *)
Definition Staging : Type := Staged * list Cell * gset str.

Definition stage_resource (st : Staging) (r : Resource B) : result Staging WireError :=
  let '(s, dirty, seen) := st in
  match canonical_key r with
  | Err e => Err (wire_from_key_err e)
  | Ok key =>
      if bool_decide (key ∈ seen) then Err UnknownResourceKey
      else
        match payload r with
        | None => Err UnknownResourceKey
        | Some p =>
            slot <-? slot_of p ;;
            Ok (mkStaged
                  (<[slot := p]> (slots s))
                  (if carries_refs slot then <[slot := payload_refs p]> (refs s) else refs s)
                  (<[key := resource_hash r]> (digests s)),
                option_list (cell_of slot) ++ dirty, {[key]} ∪ seen)
        end
  end.

Fixpoint stage_all (st : Staging) (rs : list (Resource B)) : result Staging WireError :=
  match rs with
  | [] => Ok st
  | r :: rs => st' <-? stage_resource st r ;; stage_all st' rs
  end.

Definition remove_from_staged (s : Staged) (dirty : list Cell) (key : str) (parsed : ParsedKey)
    : result (Staged * list Cell) WireError :=
  slot <-? slot_of_parsed parsed ;;
  Ok (mkStaged (delete slot (slots s))
        (if carries_refs slot then delete slot (refs s) else refs s)
        (delete key (digests s)),
      option_list (cell_of slot) ++ dirty).

Fixpoint remove_all (seen : gset str) (s : Staged) (dirty : list Cell) (removed : list str)
    : result (Staged * list Cell) WireError :=
  match removed with
  | [] => Ok (s, dirty)
  | key :: removed =>
      if bool_decide (key ∈ seen) then Err UnknownResourceKey
      else
        match parse_canonical_key key with
        | Err e => Err (wire_from_key_err e)
        | Ok parsed =>
            sd <-? remove_from_staged s dirty key parsed ;;
            remove_all seen sd.1 sd.2 removed
        end
  end.

Record Snapshot := mkSnapshot {
  version : str;
  full : bool;
  resources : list (Resource B);
  removed_resources : list str;
  publish_seq : Z;
}.

Record ResourceCache := mkCache {
  committed : Staged;
  ep_index : gmap (str * str * Z) (gset Slot);
  has_full : bool;
}.

Definition new_cache : ResourceCache := mkCache empty_staged ∅ false.

Definition stage_full (msg : Snapshot) : result Staged WireError :=
  st <-? stage_all (empty_staged, [], ∅) (resources msg) ;; Ok st.1.1.

Definition stage_delta (cache : ResourceCache) (msg : Snapshot)
    : result (Staged * list Cell) WireError :=
  st <-? stage_all (committed cache, [], ∅) (resources msg) ;;
  let '(s, dirty, seen) := st in
  remove_all seen s dirty (removed_resources msg).

(** [build_ep_index]: the reverse of the forward references. *)
Definition index_one (slot : Slot) (ks : gset (str * str * Z))
    (index : gmap (str * str * Z) (gset Slot)) : gmap (str * str * Z) (gset Slot) :=
  set_fold (λ k m, <[k := {[slot]} ∪ default ∅ (m !! k)]> m) index ks.

Definition build_ep_index (rs : gmap Slot (gset (str * str * Z)))
    : gmap (str * str * Z) (gset Slot) :=
  map_fold index_one ∅ rs.

Definition endpoint_keys (s : Staged) : gset (str * str * Z) :=
  list_to_set (omap (λ kv, match kv.1 with SEndpoints k => Some k | _ => None end)
                 (map_to_list (slots s))).

(** [validate_removed_endpoints_unreferenced]. *)
Definition removed_endpoints_unreferenced (before after : Staged)
    (index : gmap (str * str * Z) (gset Slot)) : bool :=
  bool_decide (set_Forall
    (λ k, ¬ (k ∉ endpoint_keys after ∧ is_Some (index !! k))) (endpoint_keys before)).

(** ** Versions *)

(** [ContentHash::from_per_resource]. *)
Definition from_per_resource (hashes : list str) : str :=
  sha256_hex (mjoin (sort_by str_leb hashes)).

Definition version_of (ds : gmap str str) : str := from_per_resource (map_to_list ds).*2.

(** ** Apply *)

Context (compile_error : ResourceCache → Staged → list Cell → option WireError).

Definition all_cells : list Cell :=
  [CTls; CClientCert; CListener; CPassthrough; CTerminate; CTcp; CUdp].

(** [apply_message]: the new cache, or the error with which the message is
    rejected; the cache then stays as it was. *)
Definition apply_message (cache : ResourceCache) (msg : Snapshot) (expect_full verify : bool)
    : result ResourceCache WireError :=
  if negb (full msg) && expect_full then Err DeltaBeforeFullSnapshot
  else
    sd <-? (if full msg then s <-? stage_full msg ;; Ok (s, all_cells)
            else stage_delta cache msg) ;;
    let '(staged, dirty) := sd in
    let index := build_ep_index (refs staged) in
    if negb (full msg) && negb (removed_endpoints_unreferenced (committed cache) staged index)
    then Err RemovedEndpointStillReferenced
    else if verify && negb (bool_decide (version_of (digests staged) = version msg))
    then Err VersionMismatch
    else if has_full cache && bool_decide (digests staged = digests (committed cache))
    then Ok cache
    else
      match compile_error cache staged dirty with
      | Some e => Err e
      | None => Ok (mkCache staged index true)
      end.

End apply.

Arguments Staged B : clear implicits.
Arguments Snapshot B : clear implicits.
Arguments ResourceCache B : clear implicits.
