(* ===== verification/ApplyFacts.v ===== *)
(** * Correctness of the client's cache

    A staged world is a faithful image of a set of resources: each is in exactly
    one slot with its digest and its references.  Staging a resource adds it,
    a tombstone removes it, and so a delta yields the very world that a full
    snapshot of the same resources yields. *)

From S2P Require Import Prelude ResourceKey ResourceKeyFacts Apply.

(** The slot that a key names. *)
Definition key_slot (k : str) : option Slot :=
  match parse_canonical_key k with
  | Ok pk => match slot_of_parsed pk with Ok s => Some s | Err _ => None end
  | Err _ => None
  end.

Lemma object_slot_inj a b s : object_slot a = Ok s → object_slot b = Ok s → a = b.
Proof.
  unfold object_slot, object_key_from_str.
  destruct (split_once fslash a) as [[a1 a2]|] eqn:Ea; [|done].
  destruct (split_once fslash b) as [[b1 b2]|] eqn:Eb; [|done].
  apply split_once_Some in Ea as [-> _]. apply split_once_Some in Eb as [-> _].
  intros [= <-] [= <- <-]. done.
Qed.

Lemma slot_of_parsed_inj k1 k2 s :
  slot_of_parsed k1 = Ok s → slot_of_parsed k2 = Ok s → k1 = k2.
Proof.
  assert (∀ o s, object_slot o = Ok s → ∃ k, s = SListener k) as Hl.
  { intros o s'. unfold object_slot. case_match; [|done]. intros [= <-]. eauto. }
  intros H1 H2.
  destruct k1 as [g1 p1 [n1|n1 b1|]| | |o1| | | | | | | ]; cbn in H1; simplify_eq;
  destruct k2 as [g2 p2 [n2|n2 b2|]| | |o2| | | | | | | ]; cbn in H2; simplify_eq; try done;
    try (apply Hl in H1 as [? ?]; done); try (apply Hl in H2 as [? ?]; done).
  f_equal. by eapply object_slot_inj.
Qed.

Lemma key_slot_inj k1 k2 s : key_slot k1 = Some s → key_slot k2 = Some s → k1 = k2.
Proof.
  unfold key_slot, parse_canonical_key.
  destruct (parse_fuel _ k1) as [pk1|] eqn:E1; [|done].
  destruct (parse_fuel _ k2) as [pk2|] eqn:E2; [|done].
  apply parse_fuel_sound in E1 as [_ ->]. apply parse_fuel_sound in E2 as [_ ->].
  destruct (slot_of_parsed pk1) eqn:F1; [|done]. destruct (slot_of_parsed pk2) eqn:F2; [|done].
  intros [= ->] [= ->]. f_equal. by eapply slot_of_parsed_inj.
Qed.

Section facts.
Context {B : Type} (resource_hash : Resource B → str) (body_refs : B → gset (str * str * Z)).
Implicit Types (r : Resource B) (p : Payload B) (w : gmap str (Resource B)).

(** A resource that the server emits for a leaf: unqualified, with a well-formed
    identity and a slot. *)
Definition servable r (k : str) (p : Payload B) (s : Slot) : Prop :=
  canonical_key r = Ok k ∧ payload r = Some p ∧ slot_of p = Ok s ∧
  qualifier_namespace r = [] ∧ qualifier_name r = [] ∧
  (∀ pk, resource_id r = Some pk → key_ok pk).

Lemma port_u16_Ok (n q : Z) : port_u16 n = Ok q → q = n ∧ port_ok n.
Proof.
  unfold port_u16, port_ok. destruct (_ && _) eqn:E; [|done]. intros [= <-].
  apply andb_true_iff in E as [?%Z.leb_le ?%Z.leb_le]. done.
Qed.

(** A servable resource is staged in the slot that its key names. *)
Lemma servable_slot r k p s : servable r k p s → key_slot k = Some s.
Proof.
  intros (Hk & Hp & Hs & Hq1 & Hq2 & Hok).
  destruct (canonical_key_render r k Hk) as (pk & Hid & -> & Hparse).
  unfold key_slot. rewrite (Hparse (Hok pk Hid)). clear Hparse Hok Hk.
  unfold resource_id in Hid. rewrite Hp, Hq1, Hq2 in Hid.
  destruct p as [table port [h|]| | | | | | | | | ]; cbn in Hid, Hs; simplify_eq;
    try (destruct (port_u16 port) as [q|] eqn:E; [|done];
         apply port_u16_Ok in E as [-> _]; by simplify_eq).
  - unfold route_partition_key in Hs.
    destruct (Z.eqb_spec table 1) as [->|]; [|destruct (Z.eqb_spec table 2) as [->|]; [|done]];
      (destruct (pattern h) as [[host|host kind|b]|]; [..|done]); simplify_eq/=;
      repeat case_match; simplify_eq/=; try done;
      repeat match goal with H : port_u16 _ = Ok _ |- _ => apply port_u16_Ok in H as [-> _] end;
      try done;
      repeat match goal with H : (_ =? _)%Z = true |- _ => apply Z.eqb_eq in H; subst end; done.
  - cbn. by rewrite Hs.
Qed.

(** The staged world [st] is the image of the resources [w]. *)
Record represents w (st : Staged B) : Prop := {
  rep_digests : digests st = resource_hash <$> w;
  rep_slots : ∀ s p, slots st !! s = Some p ↔
    ∃ k r, w !! k = Some r ∧ key_slot k = Some s ∧ payload r = Some p;
  rep_refs : ∀ s e, refs st !! s = Some e ↔
    carries_refs s = true ∧ ∃ p, slots st !! s = Some p ∧ e = payload_refs body_refs p;
}.

Definition all_servable w : Prop :=
  ∀ k r, w !! k = Some r → ∃ p s, servable r k p s.

Lemma represents_unique w st st' : represents w st → represents w st' → st = st'.
Proof.
  intros [D1 S1 R1] [D2 S2 R2]. destruct st as [s1 r1 d1], st' as [s2 r2 d2]; cbn in *.
  assert (s1 = s2) as ->.
  { apply map_eq. intros s. apply option_eq. intros p. by rewrite S1, S2. }
  f_equal; [|congruence]. apply map_eq. intros s. apply option_eq. intros e. by rewrite R1, R2.
Qed.

Lemma represents_empty : represents ∅ empty_staged.
Proof.
  split; cbn; [by rewrite fmap_empty|..]; intros *; rewrite lookup_empty; split; try done.
  - intros (k & r & Hk & _). by rewrite lookup_empty in Hk.
  - intros (_ & p & Hp & _). by rewrite lookup_empty in Hp.
Qed.

Lemma represents_insert w st r k p s :
  all_servable w → represents w st → servable r k p s →
  represents (<[k := r]> w)
    (mkStaged (<[s := p]> (slots st))
       (if carries_refs s then <[s := payload_refs body_refs p]> (refs st) else refs st)
       (<[k := resource_hash r]> (digests st))).
Proof.
  intros Hw [D S R] Hsv. pose proof (servable_slot _ _ _ _ Hsv) as Hks.
  destruct Hsv as (_ & Hp & _). split; cbn.
  - by rewrite D, fmap_insert.
  - intros s' p'. destruct (decide (s = s')) as [<-|Hne].
    + rewrite lookup_insert_eq. split.
      * intros [= <-]. exists k, r. by rewrite lookup_insert_eq.
      * intros (k' & r' & Hk' & Hs' & Hp'). rewrite (key_slot_inj k' k s) in Hk' by done.
        rewrite lookup_insert_eq in Hk'. by simplify_eq.
    + rewrite lookup_insert_ne by done. rewrite S.
      apply exist_proper. intros k'. apply exist_proper. intros r'.
      destruct (decide (k = k')) as [<-|Hk].
      * rewrite lookup_insert_eq. naive_solver.
      * by rewrite lookup_insert_ne.
  - intros s' e. destruct (decide (s = s')) as [<-|Hne].
    + rewrite lookup_insert_eq. destruct (carries_refs s) eqn:Ec.
      * rewrite lookup_insert_eq. naive_solver.
      * rewrite R, Ec. naive_solver.
    + rewrite lookup_insert_ne by done. rewrite <-R.
      destruct (carries_refs s); [by rewrite lookup_insert_ne|done].
Qed.

Lemma represents_delete w st k s :
  represents w st → key_slot k = Some s →
  represents (delete k w)
    (mkStaged (delete s (slots st))
       (if carries_refs s then delete s (refs st) else refs st)
       (delete k (digests st))).
Proof.
  intros [D S R] Hks. split; cbn.
  - by rewrite D, fmap_delete.
  - intros s' p'. destruct (decide (s = s')) as [<-|Hne].
    + rewrite lookup_delete_eq. split; [done|].
      intros (k' & r' & Hk' & Hs' & _). rewrite (key_slot_inj k' k s) in Hk' by done.
      by rewrite lookup_delete_eq in Hk'.
    + rewrite lookup_delete_ne by done. rewrite S.
      apply exist_proper. intros k'. apply exist_proper. intros r'.
      destruct (decide (k = k')) as [<-|Hk].
      * rewrite lookup_delete_eq. naive_solver.
      * by rewrite lookup_delete_ne.
  - intros s' e. destruct (decide (s = s')) as [<-|Hne].
    + rewrite lookup_delete_eq. destruct (carries_refs s) eqn:Ec.
      * rewrite lookup_delete_eq. naive_solver.
      * rewrite R, Ec. naive_solver.
    + rewrite lookup_delete_ne by done. rewrite <-R.
      destruct (carries_refs s); [by rewrite lookup_delete_ne|done].
Qed.

(** ** Staging *)

Lemma stage_resource_servable st dirty seen r k p s :
  servable r k p s → k ∉ seen →
  stage_resource resource_hash body_refs (st, dirty, seen) r =
    Ok (mkStaged (<[s := p]> (slots st))
          (if carries_refs s then <[s := payload_refs body_refs p]> (refs st) else refs st)
          (<[k := resource_hash r]> (digests st)),
        option_list (cell_of s) ++ dirty, {[k]} ∪ seen).
Proof.
  intros (Hk & Hp & Hs & _) Hseen. unfold stage_resource.
  rewrite Hk, Hp, Hs, bool_decide_eq_false_2 by done. done.
Qed.

Lemma all_servable_insert w r k p s :
  all_servable w → servable r k p s → all_servable (<[k := r]> w).
Proof.
  intros Hw Hsv k' r'. destruct (decide (k = k')) as [<-|Hne].
  - rewrite lookup_insert_eq. intros [= <-]. eauto.
  - rewrite lookup_insert_ne by done. apply Hw.
Qed.

(** Staging resources with distinct keys adds them to the world. *)
Lemma stage_all_represents (l : list (str * Resource B)) :
  ∀ w st dirty seen,
  all_servable w → represents w st →
  NoDup l.*1 → (∀ k r, (k, r) ∈ l → k ∉ seen ∧ ∃ p s, servable r k p s) →
  ∃ st' dirty',
    stage_all resource_hash body_refs (st, dirty, seen) l.*2 =
      Ok (st', dirty', list_to_set l.*1 ∪ seen) ∧
    represents (list_to_map l ∪ w) st' ∧ all_servable (list_to_map l ∪ w).
Proof.
  induction l as [|[k r] l IH]; intros w st dirty seen Hw Hst Hnd Hl;
    cbn [stage_all fmap list_fmap fst snd list_to_set list_to_map foldr uncurry].
  - exists st, dirty. rewrite !(left_id_L ∅ (∪)). done.
  - apply NoDup_cons in Hnd as [Hk Hnd].
    destruct (Hl k r) as (Hseen & p & s & Hsv); [by left|].
    rewrite (stage_resource_servable _ _ _ _ _ _ _ Hsv Hseen).
    destruct (IH (<[k := r]> w) _ (option_list (cell_of s) ++ dirty) ({[k]} ∪ seen)
      (all_servable_insert _ _ _ _ _ Hw Hsv) (represents_insert _ _ _ _ _ _ Hw Hst Hsv) Hnd)
      as (st' & dirty' & -> & Hrep & Hsv').
    { intros k' r' Hin. destruct (Hl k' r') as (? & ?); [by right|]. split; [|done].
      assert (k' ∈ l.*1) by (apply list_elem_of_fmap; by exists (k', r')). set_solver. }
    assert (list_to_map l !! k = @None (Resource B)) as Hnone by by apply not_elem_of_list_to_map.
    rewrite <-insert_union_r, insert_union_l in Hrep, Hsv' by done.
    exists st', dirty'. split; [|done]. do 2 f_equal. set_solver.
Qed.

Lemma foldr_delete_comm {V} (ks : list str) (k : str) (m : gmap str V) :
  foldr delete (delete k m) ks = delete k (foldr delete m ks).
Proof. induction ks as [|k' ks IH]; cbn; [done|]. rewrite IH. apply delete_delete. Qed.

(** Tombstones take resources away. *)
Lemma remove_all_represents (seen : gset str) (ks : list str) :
  ∀ w st dirty,
  represents w st → (∀ k, k ∈ ks → k ∉ seen ∧ is_Some (key_slot k)) →
  ∃ st' dirty',
    remove_all seen st dirty ks = Ok (st', dirty') ∧
    represents (foldr delete w ks) st'.
Proof.
  induction ks as [|k ks IH]; intros w st dirty Hst Hks; cbn [remove_all foldr].
  - eauto.
  - destruct (Hks k) as (Hseen & s & Hs); [by left|].
    pose proof (represents_delete _ _ _ _ Hst Hs) as Hst'.
    unfold key_slot in Hs. rewrite bool_decide_eq_false_2 by done.
    destruct (parse_canonical_key k) as [pk|]; [|done]. unfold remove_from_staged.
    destruct (slot_of_parsed pk) as [s'|]; [|done]. simplify_eq. cbn.
    rewrite <-foldr_delete_comm. apply IH; [done|]. intros k' Hk'. apply Hks. by right.
Qed.

Lemma stage_full_represents (w : gmap str (Resource B)) (l : list (str * Resource B)) msg :
  all_servable w → resources msg = l.*2 → NoDup l.*1 →
  (∀ k r, (k, r) ∈ l ↔ w !! k = Some r) →
  ∃ st, stage_full resource_hash body_refs msg = Ok st ∧ represents w st.
Proof.
  intros Hw Hmsg Hnd Hl. unfold stage_full. rewrite Hmsg.
  destruct (stage_all_represents l ∅ empty_staged [] ∅) as (st & dirty & -> & Hrep & _).
  - intros k r Hk. by rewrite lookup_empty in Hk.
  - apply represents_empty.
  - done.
  - intros k r Hin%Hl. split; [set_solver|]. by apply Hw.
  - exists st. split; [done|]. rewrite (right_id_L ∅ (∪)) in Hrep.
    replace (list_to_map l) with w in Hrep; [done|].
    apply map_eq. intros k. apply option_eq. intros r.
    rewrite <-elem_of_list_to_map by done. by rewrite Hl.
Qed.

End facts.

(** ** The reverse index of endpoint references *)

Notation ep_map := (gmap (str * str * Z) (gset Slot)).

Definition indexed (m : ep_map) (k : str * str * Z) (s : Slot) : Prop :=
  ∃ ss : gset Slot, m !! k = Some ss ∧ s ∈ ss.

Definition no_empty_entry (m : ep_map) : Prop :=
  ∀ (k : str * str * Z) (ss : gset Slot), m !! k = Some ss → ss ≠ ∅.

Lemma indexed_insert (m : ep_map) (j k : str * str * Z) (s t : Slot) :
  indexed (<[j := {[t]} ∪ default ∅ (m !! j)]> m) k s ↔ (j = k ∧ s = t) ∨ indexed m k s.
Proof.
  unfold indexed. destruct (decide (j = k)) as [<-|Hne].
  - rewrite lookup_insert_eq. split.
    + intros (ss & [= <-] & [->%elem_of_singleton|Hs]%elem_of_union); [by left|right].
      destruct (m !! j) as [ss|]; [eauto|set_solver].
    + intros [[_ ->]|(ss & Hj & Hs)]; eexists; (split; [done|]); [set_solver|].
      rewrite Hj. set_solver.
  - rewrite lookup_insert_ne by done. naive_solver.
Qed.

Lemma no_empty_entry_insert (m : ep_map) (j : str * str * Z) (t : Slot) (ss : gset Slot) :
  no_empty_entry m → no_empty_entry (<[j := {[t]} ∪ ss]> m).
Proof.
  intros Hm k ss'. destruct (decide (j = k)) as [<-|Hne].
  - rewrite lookup_insert_eq. intros [= <-]. set_solver.
  - rewrite lookup_insert_ne by done. apply Hm.
Qed.

Lemma index_one_spec (t : Slot) (ks : gset (str * str * Z)) (m : ep_map) :
  no_empty_entry m →
  no_empty_entry (index_one t ks m) ∧
  ∀ k s, indexed (index_one t ks m) k s ↔ (k ∈ ks ∧ s = t) ∨ indexed m k s.
Proof.
  intros Hm. unfold index_one.
  apply (set_fold_ind_L (λ (m' : ep_map) (ks : gset (str * str * Z)), no_empty_entry m' ∧
    ∀ k s, indexed m' k s ↔ (k ∈ ks ∧ s = t) ∨ indexed m k s)).
  - split; [done|]. set_solver.
  - intros j ks' m' Hj [Hne IH]. split; [by apply no_empty_entry_insert|].
    intros k s. rewrite indexed_insert, IH. set_solver.
Qed.

(** The index holds a key for exactly the slots that refer to it, and only keys
    that some slot refers to. *)
Lemma build_ep_index_spec (rs : gmap Slot (gset (str * str * Z))) :
  no_empty_entry (build_ep_index rs) ∧
  ∀ k s, indexed (build_ep_index rs) k s ↔ ∃ ks, rs !! s = Some ks ∧ k ∈ ks.
Proof.
  unfold build_ep_index.
  apply (map_fold_weak_ind (λ (m' : ep_map) (rs : gmap Slot (gset (str * str * Z))),
    no_empty_entry m' ∧ ∀ k s, indexed m' k s ↔ ∃ ks, rs !! s = Some ks ∧ k ∈ ks)).
  - split; [by intros k ss Hk; rewrite lookup_empty in Hk|].
    intros k s. unfold indexed. setoid_rewrite lookup_empty. naive_solver.
  - intros t ks rs' m' Ht [Hne IH].
    destruct (index_one_spec t ks m' Hne) as [Hne' Hidx]. split; [done|].
    intros k s. rewrite Hidx, IH. destruct (decide (s = t)) as [->|Hst].
    + rewrite lookup_insert_eq, Ht. naive_solver.
    + rewrite lookup_insert_ne by done. naive_solver.
Qed.

Lemma removed_unreferenced_true {B} (before after : Staged B) k s ks :
  removed_endpoints_unreferenced before after (build_ep_index (refs after)) = true →
  k ∈ endpoint_keys before → k ∉ endpoint_keys after →
  refs after !! s = Some ks → k ∉ ks.
Proof.
  unfold removed_endpoints_unreferenced. intros H%bool_decide_eq_true_1 Hb Ha Hs Hk.
  apply (H k Hb). split; [done|].
  destruct (proj2 (proj2 (build_ep_index_spec (refs after)) k s)) as (ss & -> & _); [|done].
  by exists ks.
Qed.

(** ** What an accepted message guarantees *)

Section message.
Context {B : Type} (resource_hash : Resource B → str) (sha256_hex : str → str).
Context (body_refs : B → gset (str * str * Z)).
Context (compile_error : ResourceCache B → Staged B → list Cell → option WireError).

Notation apply := (apply_message resource_hash sha256_hex body_refs compile_error).

(** A message that the cache accepts was allowed and is trustworthy: a delta is
    never the first message of a session; when versions are verified, the content
    hash recomputed over the new cache is the version the server announced; and a
    delta that removes an endpoint leaves no cached route, passthrough, TCP or UDP
    resource that refers to it. *)
Theorem accepted_message_sound cache msg expect_full verify cache' :
  apply cache msg expect_full verify = Ok cache' →
  (full msg = true ∨ expect_full = false) ∧
  (verify = true → version_of sha256_hex (digests (committed cache')) = version msg) ∧
  (full msg = false → ∀ k s ks,
     k ∈ endpoint_keys (committed cache) → k ∉ endpoint_keys (committed cache') →
     refs (committed cache') !! s = Some ks → k ∉ ks).
Proof.
  unfold apply_message.
  destruct (negb (full msg) && expect_full) eqn:Egate; [done|].
  destruct (if full msg then _ else _) as [[staged dirty]|] eqn:Estage; [|done].
  destruct (negb (full msg) && negb _) eqn:Eref; [done|].
  destruct (verify && negb _) eqn:Ever; [done|].
  assert (full msg = true ∨ expect_full = false) as Hgate.
  { by destruct (full msg), expect_full; auto. }
  assert (verify = true → version_of sha256_hex (digests staged) = version msg) as Hver.
  { intros ->. cbn in Ever. by apply negb_false_iff, bool_decide_eq_true_1 in Ever. }
  destruct (has_full cache && _) eqn:Enoop.
  - intros [= <-]. apply andb_true_iff in Enoop as [_ Hd%bool_decide_eq_true_1].
    rewrite <-Hd. naive_solver.
  - destruct (compile_error _ _ _); [done|]. intros [= <-]. cbn.
    split; [done|]. split; [done|]. intros Hf k s ks Hb Ha Hs.
    rewrite Hf in Eref. apply negb_false_iff in Eref.
    by eapply removed_unreferenced_true.
Qed.

End message.

(** ** Dirty cells *)

Section dirty.
Context {B : Type} (resource_hash : Resource B → str) (body_refs : B → gset (str * str * Z)).

(** [st'] differs from [st] in no slot of a cell outside [dirty]. *)
Definition same_outside (dirty : list Cell) (st st' : Staged B) : Prop :=
  ∀ s c, cell_of s = Some c → c ∉ dirty →
    slots st' !! s = slots st !! s ∧ refs st' !! s = refs st !! s.

Lemma same_outside_trans dirty dirty' st1 st2 st3 :
  (∀ c, c ∈ dirty → c ∈ dirty') →
  same_outside dirty st1 st2 → same_outside dirty' st2 st3 → same_outside dirty' st1 st3.
Proof.
  intros Hsub H12 H23 s c Hc Hd. destruct (H23 s c Hc Hd) as [-> ->]. apply (H12 s c Hc). auto.
Qed.

(** A write to the slot [t] that records [t]'s cell. *)
Lemma same_outside_write dirty (st st' : Staged B) t :
  (∀ s, s ≠ t → slots st' !! s = slots st !! s ∧ refs st' !! s = refs st !! s) →
  same_outside (option_list (cell_of t) ++ dirty) st st'.
Proof.
  intros Hw s c Hc Hd. destruct (decide (s = t)) as [->|Hne]; [|by apply Hw].
  rewrite Hc in Hd. exfalso. apply Hd. by left.
Qed.

Lemma stage_resource_outside st dirty seen r st' dirty' seen' :
  stage_resource resource_hash body_refs (st, dirty, seen) r = Ok (st', dirty', seen') →
  same_outside dirty' st st' ∧ ∀ c, c ∈ dirty → c ∈ dirty'.
Proof.
  unfold stage_resource. destruct (canonical_key r) as [key|]; [|done].
  case_bool_decide; [done|]. destruct (payload r) as [p|]; [|done].
  destruct (slot_of p) as [t|]; [|done]. intros [= <- <- <-].
  split; [|set_solver]. apply same_outside_write. intros s Hne. cbn.
  destruct (carries_refs t); by rewrite !lookup_insert_ne by done.
Qed.

Lemma stage_all_outside rs : ∀ st dirty seen st' dirty' seen',
  stage_all resource_hash body_refs (st, dirty, seen) rs = Ok (st', dirty', seen') →
  same_outside dirty' st st' ∧ ∀ c, c ∈ dirty → c ∈ dirty'.
Proof.
  induction rs as [|r rs IH]; intros st dirty seen st' dirty' seen'; cbn [stage_all].
  - by intros [= <- <- <-].
  - destruct (stage_resource _ _ _ _) as [[[st1 dirty1] seen1]|] eqn:E; [|done].
    intros [H1 Hs1]%IH. apply stage_resource_outside in E as [H0 Hs0].
    split; [by eapply same_outside_trans|auto].
Qed.

Lemma remove_all_outside seen ks : ∀ st dirty st' dirty',
  remove_all seen st dirty ks = Ok (st', dirty') →
  same_outside dirty' st st' ∧ ∀ c, c ∈ dirty → c ∈ dirty'.
Proof.
  induction ks as [|k ks IH]; intros st dirty st' dirty'; cbn [remove_all].
  - by intros [= <- <-].
  - case_bool_decide; [done|]. destruct (parse_canonical_key k) as [pk|]; [|done].
    unfold remove_from_staged. destruct (slot_of_parsed pk) as [t|]; [|done].
    cbn. intros [H1 Hs1]%IH. split; [|set_solver].
    eapply (same_outside_trans (option_list (cell_of t) ++ dirty)); [done| |done].
    apply same_outside_write. intros s Hne. cbn.
    destruct (carries_refs t); by rewrite !lookup_delete_ne by done.
Qed.

(** The dirty flags of a delta are sound.  A cell of the TLS, client-certificate,
    listener-status, passthrough, terminate, TCP or UDP kind whose flag the
    staging left unset has, slot for slot, the resources and the references of the
    committed cache, so skipping its comparison loses no change. *)
Theorem dirty_cells_sound cache msg st dirty :
  stage_delta resource_hash body_refs cache msg = Ok (st, dirty) →
  same_outside dirty (committed cache) st.
Proof.
  unfold stage_delta.
  destruct (stage_all _ _ _ _) as [[[st1 dirty1] seen]|] eqn:E; [|done]. cbn.
  intros [H1 Hs1]%remove_all_outside. apply stage_all_outside in E as [H0 _].
  by eapply same_outside_trans.
Qed.

End dirty.
