(* ===== verification/HealthWire.v ===== *)
(** * Health reports on the wire

    Models [crates/coxswain-discovery/src/wire/health.rs] and the timestamps of
    [crates/coxswain-discovery/src/wire/mod.rs]: the encoding of a node's health
    snapshot and its decoding, which never fails.  A [SystemTime] is a number of
    nanoseconds since the epoch. *)

From S2P Require Import Prelude Health NodeRegistry.

Definition i64_max : Z := 2 ^ 63 - 1.
Definition nanos_per_sec : Z := 1000000000.

Definition system_time_to_unix (t : Z) : Z :=
  if (t <? 0)%Z then 0 else Z.min (t / nanos_per_sec) i64_max.

Definition unix_to_system_time (secs : Z) : Z :=
  if (secs <? 0)%Z then 0 else (secs * nanos_per_sec)%Z.

(** The messages [CheckHealth], [SubsystemHealth] and [HealthReport]. *)
Record CheckHealth := mkCheckHealth { ch_name : str; ch_state : Z; ch_reason : str }.
Record SubsystemHealth := mkSubsystemHealth { sh_name : str; sh_checks : list CheckHealth }.
Record HealthReport := mkHealthReport {
  hr_version : str;
  hr_subsystems : list SubsystemHealth;
  reported_at_unix : Z;
}.

(** The discriminants of the wire's [CheckState]. *)
Definition check_state_to_wire (s : CheckState) : Z :=
  match s with Pending => 1 | Ready => 2 | Degraded _ => 3 | Failed _ => 4 end.

Definition check_reason (s : CheckState) : option str :=
  match s with Degraded reason | Failed reason => Some reason | Pending | Ready => None end.

Definition check_state_from_wire (check : CheckHealth) : CheckState :=
  if (ch_state check =? 2)%Z then Ready
  else if (ch_state check =? 3)%Z then Degraded (ch_reason check)
  else if (ch_state check =? 4)%Z then Failed (ch_reason check)
  else Pending.

Definition check_to_wire (kv : str * CheckState) : CheckHealth :=
  mkCheckHealth kv.1 (check_state_to_wire kv.2) (default [] (check_reason kv.2)).

Definition health_to_wire (version : str) (snapshot : gmap str SubsystemSnapshot)
    (reported_at : Z) : HealthReport :=
  mkHealthReport version
    ((λ kv, mkSubsystemHealth kv.1 (check_to_wire <$> btree_iter (snapshot_checks kv.2)))
       <$> btree_iter snapshot)
    (system_time_to_unix reported_at).

(** The aggregate of a subsystem, derived from its checks. *)
Definition derive_state (cs : gmap str CheckState) : CheckState :=
  default Ready (max_by_key severity (btree_values cs)).

Definition decode_checks (cs : list CheckHealth) : gmap str CheckState :=
  foldl (λ m c, <[ch_name c := check_state_from_wire c]> m) ∅ cs.

Definition decode_subsystem (sub : SubsystemHealth) : SubsystemSnapshot :=
  let cs := decode_checks (sh_checks sub) in mkSubsystemSnapshot (derive_state cs) cs.

Definition health_from_wire (dto : HealthReport) : NodeHealth :=
  mkNodeHealth (hr_version dto)
    (foldl (λ m sub, <[sh_name sub := decode_subsystem sub]> m) ∅ (hr_subsystems dto))
    (unix_to_system_time (reported_at_unix dto)).

(** ** Facts *)

(** Inserting the image of a map's entries one by one gives the image of the map. *)
Lemma foldl_insert_fmap {A B C} (key : C → str) (val : C → B) (enc : str * A → C) (dec : A → B)
    (m : gmap str A) :
  (∀ k a, m !! k = Some a → key (enc (k, a)) = k ∧ val (enc (k, a)) = dec a) →
  foldl (λ r c, <[key c := val c]> r) ∅ (enc <$> btree_iter m) = dec <$> m.
Proof.
  intros Henc.
  assert (∀ (l : list (str * A)) (r : gmap str B),
    NoDup l.*1 → (∀ k a, (k, a) ∈ l → key (enc (k, a)) = k ∧ val (enc (k, a)) = dec a) →
    foldl (λ r c, <[key c := val c]> r) r (enc <$> l) = (dec <$> list_to_map l) ∪ r) as Hl.
  { induction l as [|[k a] l IH]; intros r Hnd Hin; cbn [fmap list_fmap foldl].
    - cbn. by rewrite fmap_empty, (left_id_L ∅ (∪)).
    - apply NoDup_cons in Hnd as [Hk Hnd]. destruct (Hin k a) as [-> ->]; [by left|].
      rewrite IH by (try done; intros; apply Hin; by right). cbn [list_to_map foldr uncurry].
      rewrite fmap_insert, <-insert_union_l, insert_union_r; [done|].
      rewrite lookup_fmap, not_elem_of_list_to_map_1; done. }
  rewrite Hl, (right_id_L ∅ (∪)).
  - f_equal. apply map_eq. intros k. apply option_eq. intros a.
    rewrite <-elem_of_list_to_map by apply btree_iter_NoDup. apply btree_iter_elem.
  - apply btree_iter_NoDup.
  - intros k a Hin%btree_iter_elem. by apply Henc.
Qed.

Lemma check_state_roundtrip k s : check_state_from_wire (check_to_wire (k, s)) = s.
Proof. by destruct s. Qed.

Lemma decode_checks_encode (cs : gmap str CheckState) :
  decode_checks (check_to_wire <$> btree_iter cs) = cs.
Proof.
  unfold decode_checks.
  rewrite (foldl_insert_fmap ch_name check_state_from_wire check_to_wire id), map_fmap_id; [done|].
  intros k s _. split; [done|]. apply check_state_roundtrip.
Qed.

Lemma system_time_roundtrip t :
  (0 ≤ t)%Z → (t / nanos_per_sec ≤ i64_max)%Z →
  unix_to_system_time (system_time_to_unix t) = (t - t mod nanos_per_sec)%Z.
Proof.
  intros H0 H1. unfold unix_to_system_time, system_time_to_unix.
  destruct (Z.ltb_spec t 0); [lia|]. rewrite Z.min_l by done.
  assert (0 ≤ t / nanos_per_sec)%Z by (apply Z.div_pos; [done|unfold nanos_per_sec; lia]).
  destruct (Z.ltb_spec (t / nanos_per_sec) 0); [lia|].
  pose proof (Z.div_mod t nanos_per_sec). unfold nanos_per_sec in *. lia.
Qed.

(** A health snapshot of the reporter's registry survives the wire.  The decoder
    rebuilds every subsystem with its checks and reasons; the aggregates, which are
    not sent, are derived again and agree with the reporter's; the report time loses
    only its fraction of a second. *)
Theorem health_roundtrip version reg t :
  (0 ≤ t)%Z → (t / nanos_per_sec ≤ i64_max)%Z →
  health_from_wire (health_to_wire version (snapshot reg) t) =
    mkNodeHealth version (snapshot reg) (t - t mod nanos_per_sec).
Proof.
  intros H0 H1. unfold health_from_wire, health_to_wire. cbn [hr_version hr_subsystems].
  f_equal; [|by apply system_time_roundtrip].
  rewrite (foldl_insert_fmap sh_name decode_subsystem _ id), map_fmap_id; [done|].
  intros k sub Hk. split; [done|]. unfold decode_subsystem. cbn [sh_checks snd].
  rewrite decode_checks_encode. unfold snapshot in Hk. rewrite lookup_fmap in Hk.
  destruct (subsystems reg !! k); by simplify_eq/=.
Qed.

(** Decoding fails closed: a check reads as ready only when its wire state is the
    discriminant of [Ready]; an unspecified or unknown one reads as pending, and so
    does not count towards readiness. *)
Theorem unknown_state_not_ready c :
  (check_state_from_wire c = Ready ↔ ch_state c = 2%Z) ∧
  ((ch_state c < 2 ∨ 4 < ch_state c)%Z → is_ready (check_state_from_wire c) = false).
Proof.
  unfold check_state_from_wire.
  repeat match goal with |- context [(?a =? ?b)%Z] => destruct (Z.eqb_spec a b) end;
    split; try split; naive_solver lia.
Qed.

Lemma health_roundtrip_witness :
  health_from_wire (health_to_wire (lit "1.0") (snapshot (default new
      (Health.run_ops [HRegister (lit "proxy") [lit "a"; lit "b"]; HSet (lit "proxy") (lit "a") Ready]
         new))) 1700000000500000000) =
    mkNodeHealth (lit "1.0") (snapshot (default new
      (Health.run_ops [HRegister (lit "proxy") [lit "a"; lit "b"]; HSet (lit "proxy") (lit "a") Ready]
         new))) (1700000000500000000 - 1700000000500000000 mod nanos_per_sec).
Proof. apply health_roundtrip; unfold i64_max, nanos_per_sec; vm_compute; congruence. Defined.
