(* ===== verification/Roster.v ===== *)
(** * Scopes, node status and roster reports

    Models the scope messages of [crates/coxswain-discovery/src/wire/scope.rs],
    what a client reports ([node_status_message], [roster_report_message] of
    [client.rs]) and how the server folds it into the registry
    ([record_node_status], [roster_child_in_scope], [record_roster_report],
    [directive_targets_leaf] of [server/stream.rs]). *)

From S2P Require Import Prelude Health NodeRegistry NodeRegistryFacts HealthWire.

(** [subscription.rs]. *)
Inductive Scope :=
| ScSharedPool
| ScGateway (name namespace : str)
| ScNamespace (namespace : str).

#[export] Instance Scope_eq_dec : EqDecision Scope.
Proof. solve_decision. Defined.

Definition node_scope_from (s : Scope) : NodeScope :=
  match s with
  | ScSharedPool => SharedPool
  | ScGateway name namespace => GatewayScope namespace name
  | ScNamespace namespace => NamespaceScope namespace
  end.

(** The [kind] of the wire's [Scope]; the message may lack it. *)
Inductive WireScopeKind :=
| WSharedPool
| WGateway (namespace name : str)
| WNamespace (namespace : str).

Notation WireScope := (option WireScopeKind).

Definition scope_to_wire (s : Scope) : WireScope :=
  Some match s with
       | ScSharedPool => WSharedPool
       | ScGateway name namespace => WGateway namespace name
       | ScNamespace namespace => WNamespace namespace
       end.

(** [None] is [MissingRequiredField]. *)
Definition scope_from_wire (dto : WireScope) : option Scope :=
  match dto with
  | Some WSharedPool => Some ScSharedPool
  | Some (WGateway namespace name) => Some (ScGateway name namespace)
  | Some (WNamespace namespace) => Some (ScNamespace namespace)
  | None => None
  end.

Definition node_scope_to_wire (s : NodeScope) : WireScope :=
  Some match s with
       | GatewayScope namespace name => WGateway namespace name
       | NamespaceScope namespace => WNamespace namespace
       | SharedPool => WSharedPool
       end.

(** ** Bound ports *)

(** A [BTreeSet<u16>] in order. *)
Definition sorted_ports (ports : gset Z) : list Z := sort_by Z.leb (elements ports).

Definition in_u16 (raw : Z) : bool := (0 <=? raw)%Z && (raw <=? u16_max)%Z.

Definition node_status_message (ports : gset Z) : list Z := sorted_ports ports.

(** [record_node_status]: values outside [u16] are dropped. *)
Definition decode_ports (raw : list Z) : gset Z := list_to_set (filter in_u16 raw).

Definition record_node_status (id : str) (raw : list Z) (h : Handle) : Handle :=
  record_bound_ports id (decode_ports raw) h.

(** ** Roster reports *)

Record RosterEntry := mkRosterEntry {
  re_node_id : str;
  re_scope : option WireScope;
  acked_version : option str;
  re_target_version : option str;
  acked_seq : option Z;
  bound_reported : bool;
  re_bound_ports : list Z;
  connected_since_unix : Z;
  last_ack_at_unix : option Z;
  re_health : option HealthReport;
}.

(** [unix_secs_to_system_time]: no [i64] overflows the clock. *)
Definition unix_secs_to_system_time (secs : Z) : Z := (Z.max 0 secs * nanos_per_sec)%Z.

Definition roster_child_in_scope (parent_scope : Scope) (child : NodeScope) : bool :=
  match parent_scope with
  | ScNamespace namespace =>
      match child with GatewayScope ns _ => bool_decide (ns = namespace) | _ => false end
  | ScSharedPool => bool_decide (child = SharedPool)
  | ScGateway _ _ => false
  end.

(** What becomes of one entry of a report: kept, outside the relay's scope, or
    undecodable. *)
Inductive Decoded :=
| Kept (c : RosterChild)
| OutOfScope
| Undecodable.

Definition decode_entry (scope : Scope) (e : RosterEntry) : Decoded :=
  match re_scope e ≫= scope_from_wire with
  | None => Undecodable
  | Some s =>
      let child_scope := node_scope_from s in
      if negb (roster_child_in_scope scope child_scope) then OutOfScope
      else
        Kept (mkRosterChild (re_node_id e) child_scope (acked_version e) (re_target_version e)
                (acked_seq e)
                (if bound_reported e then Some (decode_ports (re_bound_ports e)) else None)
                (unix_secs_to_system_time (connected_since_unix e))
                (unix_secs_to_system_time <$> last_ack_at_unix e)
                (health_from_wire <$> re_health e))
  end.

Definition kept (d : Decoded) : option RosterChild :=
  match d with Kept c => Some c | _ => None end.

Definition out_of_scope (d : Decoded) : bool :=
  match d with OutOfScope => true | _ => false end.

Definition decode_report (scope : Scope) (report : list RosterEntry) : list RosterChild :=
  omap (λ e, kept (decode_entry scope e)) report.

Section roster.
Context `{HashIter}.

(** [record_roster_report], with the flag [all_in_scope] it returns. *)
Definition record_roster_report (parent_node_id : str) (scope : Scope)
    (report : list RosterEntry) (h : Handle) : Handle * bool :=
  (apply_roster parent_node_id (decode_report scope report) h,
   negb (existsb (λ e, out_of_scope (decode_entry scope e)) report)).

(** A relay's downstream registry as a report. *)
Definition entry_to_wire (e : NodeEntry) : RosterEntry :=
  mkRosterEntry (node_id e) (Some (node_scope_to_wire (scope e))) (last_acked_version e)
    (target_version e) (last_acked_seq e)
    (match bound_ports e with Some _ => true | None => false end)
    (match bound_ports e with Some ports => sorted_ports ports | None => [] end)
    (system_time_to_unix (connected_since e))
    (system_time_to_unix <$> last_ack_at e)
    ((λ h, health_to_wire (nh_version h) (nh_snapshot h) (reported_at h)) <$> health e).

Definition roster_report_message (registry : NodeRegistry) : list RosterEntry :=
  entry_to_wire <$> values registry.

End roster.

(** ** Upstream directives *)

Record PreferredUpstream := mkPreferredUpstream {
  endpoint : str;
  expected_server_sa : str;
  target_namespace : str;
  target_name : str;
}.

Definition directive_targets_leaf (d : PreferredUpstream) (scope : Scope) : bool :=
  match scope with
  | ScGateway name namespace =>
      bool_decide (target_namespace d = namespace) &&
      (bool_decide (target_name d = []) || bool_decide (target_name d = name))
  | ScSharedPool => true
  | ScNamespace _ => false
  end.
