(* ===== verification/RosterFacts.v ===== *)
(** * Facts about roster reports

    What a relay holds about its leaves reaches the controller's gate unchanged;
    a report adds no row outside the relay's scope; and it can displace a row of
    another relay. *)

From S2P Require Import Prelude Health NodeRegistry NodeRegistryFacts HealthWire Roster.

Lemma node_scope_wire_roundtrip (s : NodeScope) :
  ∃ s', scope_from_wire (node_scope_to_wire s) = Some s' ∧ node_scope_from s' = s.
Proof. destruct s; cbn; eexists; done. Qed.

Lemma decode_sorted_ports (ports : gset Z) :
  (∀ p, p ∈ ports → in_u16 p = true) → decode_ports (sorted_ports ports) = ports.
Proof.
  intros Hp. unfold decode_ports, sorted_ports. apply set_eq. intros p.
  rewrite elem_of_list_to_set, list_elem_of_filter, elem_of_sort_by, elem_of_elements.
  split; [naive_solver|]. intros Hin. split; [|done]. by rewrite Hp.
Qed.

Section facts.
Context `{HashIter}.

(** The fields that the gate reads of a child. *)
Definition child_gate_row (c : RosterChild) : GateRow :=
  mkGateRow (rc_node_id c) (rc_scope c) (rc_last_acked_version c) (rc_target_version c)
    (rc_last_acked_seq c) (rc_bound_ports c).

Definition ports_ok (e : NodeEntry) : Prop :=
  ∀ ports p, bound_ports e = Some ports → p ∈ ports → in_u16 p = true.

(** An entry of a relay's report decodes to its row's gate fields, or to nothing
    when the row is outside the scope. *)
Lemma decode_entry_to_wire sc e :
  ports_ok e →
  if roster_child_in_scope sc (scope e)
  then ∃ c, kept (decode_entry sc (entry_to_wire e)) = Some c ∧ child_gate_row c = gate_row e
  else kept (decode_entry sc (entry_to_wire e)) = None.
Proof.
  intros Hp. unfold decode_entry, entry_to_wire. cbn [re_scope mbind option_bind].
  destruct (node_scope_wire_roundtrip (scope e)) as (s & -> & ->).
  destruct (roster_child_in_scope sc (scope e)); [|done]. eexists. split; [done|].
  unfold child_gate_row, gate_row. cbn. f_equal.
  destruct (bound_ports e) as [ports|] eqn:E; [|done]. f_equal.
  apply decode_sorted_ports. intros p Hin. by eapply Hp.
Qed.

Lemma decode_report_elem sc report c :
  c ∈ decode_report sc report ↔ ∃ e, e ∈ report ∧ kept (decode_entry sc e) = Some c.
Proof. unfold decode_report. apply list_elem_of_omap. Qed.

Lemma kept_in_scope sc e c :
  kept (decode_entry sc e) = Some c → roster_child_in_scope sc (rc_scope c) = true.
Proof.
  unfold decode_entry. destruct (re_scope e ≫= scope_from_wire) as [s|]; [|done].
  destruct (roster_child_in_scope sc (node_scope_from s)) eqn:E; [|done].
  by intros [= <-].
Qed.

Lemma last_child_elem id cs c : last_child id cs = Some c → c ∈ cs ∧ rc_node_id c = id.
Proof.
  unfold last_child. intros Hl%last_Some_elem_of.
  apply list_elem_of_filter in Hl as [? ?]. done.
Qed.

(** The child reported for [id] has the gate fields of the relay's own row. *)
Lemma last_child_report (sc : Scope) (reg : NodeRegistry) (id : str) (e : NodeEntry) :
  (∀ i e, reg !! i = Some e → node_id e = i ∧ ports_ok e) →
  reg !! id = Some e → roster_child_in_scope sc (scope e) = true →
  ∃ c, last_child id (decode_report sc (roster_report_message reg)) = Some c ∧
       child_gate_row c = gate_row e.
Proof.
  intros Hreg He Hsc. destruct (Hreg id e He) as [Hid Hports].
  pose proof (decode_entry_to_wire sc e Hports) as Hdec. rewrite Hsc in Hdec.
  destruct Hdec as (c & Hc & Hrow).
  assert (rc_node_id c = id) as Hcid.
  { apply (f_equal gr_node_id) in Hrow. cbn in Hrow. congruence. }
  destruct (last_child id (decode_report sc (roster_report_message reg))) as [c'|] eqn:El.
  - exists c'. split; [done|]. apply last_child_elem in El as [Hin Hid'].
    apply decode_report_elem in Hin as (w & Hw & Hk).
    apply list_elem_of_fmap in Hw as (e' & -> & He').
    apply values_elem in He' as [i He']. destruct (Hreg i e' He') as [<- Hp'].
    pose proof (decode_entry_to_wire sc e' Hp') as Hdec'.
    destruct (roster_child_in_scope sc (scope e')); [|by rewrite Hdec' in Hk].
    destruct Hdec' as (c'' & Hc'' & Hrow'). assert (c'' = c') as -> by congruence.
    assert (node_id e' = id) as Hi.
    { apply (f_equal gr_node_id) in Hrow'. cbn in Hrow'. congruence. }
    rewrite Hi in He'. simplify_eq. done.
  - exfalso. unfold last_child in El. apply last_None in El.
    assert (c ∈ filter (λ c, rc_node_id c = id) (decode_report sc (roster_report_message reg)))
      as Hin; [|by rewrite El in Hin; apply not_elem_of_nil in Hin].
    apply list_elem_of_filter. split; [done|]. apply decode_report_elem.
    exists (entry_to_wire e). split; [|done]. apply list_elem_of_fmap. exists e.
    split; [done|]. apply values_elem. by exists id.
Qed.

(** The relay tier is transparent to the [Programmed] gate.  When a relay
    reports its downstream registry, the controller's row for each leaf within the
    relay's scope that has no direct stream of its own carries exactly the gate
    inputs of the relay's row (scope, acknowledged and target version, acknowledged
    sequence, bound ports with their unreported/empty distinction), tagged with the
    relay as its parent. *)
Theorem roster_report_faithful (p : str) (sc : Scope) (reg : NodeRegistry) (h : Handle)
    (id : str) (e : NodeEntry) :
  (∀ i e, reg !! i = Some e → node_id e = i ∧ ports_ok e) →
  reg !! id = Some e → roster_child_in_scope sc (scope e) = true →
  (∀ e0, nodes h !! id = Some e0 → parent e0 ≠ None) →
  ∃ e', nodes (record_roster_report p sc (roster_report_message reg) h).1 !! id = Some e' ∧
    gate_row e' = gate_row e ∧ parent e' = Some p ∧ is_relay e' = false.
Proof.
  intros Hreg He Hsc Hdirect. cbn [record_roster_report fst].
  destruct (last_child_report sc reg id e Hreg He Hsc) as (c & Hc & Hrow).
  exists (entry_of_child p c). split; [|by rewrite <-Hrow].
  rewrite apply_roster_lookup, Hc. cbv zeta.
  destruct (nodes h !! id) as [e0|]; [|by case_decide].
  specialize (Hdirect e0 eq_refl).
  case_decide; cbn; by destruct (parent e0).
Qed.

(** A report adds no row outside its relay's reach: after it, whatever the report
    said, every row that has the relay as its parent has a scope that the relay's
    own subscription covers. *)
Theorem roster_report_confined (p : str) (sc : Scope) (report : list RosterEntry) (h : Handle)
    (id : str) (e : NodeEntry) :
  nodes (record_roster_report p sc report h).1 !! id = Some e → parent e = Some p →
  roster_child_in_scope sc (scope e) = true.
Proof.
  cbn [record_roster_report fst]. rewrite apply_roster_lookup. cbv zeta.
  assert (∀ c, last_child id (decode_report sc report) = Some c →
            roster_child_in_scope sc (rc_scope c) = true) as Hc.
  { intros c [Hin _]%last_child_elem. apply decode_report_elem in Hin as (w & _ & Hk).
    by eapply kept_in_scope. }
  destruct (if decide (p = id) then _ else _) as [e0|].
  - destruct (parent e0) as [q|] eqn:Eq; [|by intros [= <-]; rewrite Eq].
    destruct (last_child id _) as [c|] eqn:El; [intros [= <-] _; by apply Hc|].
    case_decide; [done|]. intros [= <-]. congruence.
  - destruct (last_child id _) as [c|] eqn:El; [intros [= <-] _; by apply Hc|done].
Qed.

End facts.

(** ** Instances *)

Import RegistryDemo.

Module RosterDemo.

Definition leaf (id ns : str) (seq : option Z) : NodeEntry :=
  mkNodeEntry id (GatewayScope ns (lit "gw")) (Some (lit "v")) (Some (lit "v")) None 1
    (Some {[80%Z]}) seq None false None.

Definition relay_registry : NodeRegistry := {[lit "l1" := leaf (lit "l1") (lit "b") (Some 5%Z)]}.

Definition report_of (rows : list NodeEntry) : list RosterEntry := entry_to_wire <$> rows.

(** Two relays; that of [b] has a leaf that has not acknowledged anything and one
    that has. *)
Definition controller : Handle :=
  (record_roster_report (lit "relay-b") (ScNamespace (lit "b"))
     (report_of [leaf (lit "l1") (lit "b") None; leaf (lit "l2") (lit "b") (Some 5%Z)])
     (run_ops [OpConnect (lit "relay-a") (NamespaceScope (lit "a")) 1;
               OpConnect (lit "relay-b") (NamespaceScope (lit "b")) 2] empty_handle)).1.

Lemma relay_registry_ok i e : relay_registry !! i = Some e → node_id e = i ∧ ports_ok e.
Proof.
  unfold relay_registry. rewrite lookup_singleton_Some. intros [<- <-]. split; [done|].
  intros ports p [= <-] ->%elem_of_singleton. done.
Qed.

End RosterDemo.

Lemma roster_report_faithful_witness :
  ∃ e', nodes (record_roster_report (lit "relay-b") (ScNamespace (lit "b"))
          (roster_report_message RosterDemo.relay_registry) empty_handle).1 !! lit "l1" = Some e' ∧
    gate_row e' = gate_row (RosterDemo.leaf (lit "l1") (lit "b") (Some 5%Z)) ∧
    parent e' = Some (lit "relay-b") ∧ is_relay e' = false.
Proof.
  apply (roster_report_faithful (lit "relay-b") (ScNamespace (lit "b"))
           RosterDemo.relay_registry empty_handle (lit "l1")).
  - exact RosterDemo.relay_registry_ok.
  - reflexivity.
  - reflexivity.
  - intros e0 He0. cbn in He0. by rewrite lookup_empty in He0.
Defined.

Lemma roster_report_confined_witness :
  roster_child_in_scope (ScNamespace (lit "b")) (GatewayScope (lit "b") (lit "gw")) = true.
Proof.
  refine (roster_report_confined (lit "relay-b") (ScNamespace (lit "b"))
    (roster_report_message RosterDemo.relay_registry) empty_handle (lit "l1")
    (mkNodeEntry (lit "l1") (GatewayScope (lit "b") (lit "gw")) (Some (lit "v")) (Some (lit "v"))
       None 0 (Some {[80%Z]}) (Some 5%Z) (Some (lit "relay-b")) false None) _ _);
    vm_compute; reflexivity.
Defined.

(** A relay can nevertheless change what the gate sees of another namespace.  A
    report of the relay of namespace [a] that names, within its own scope, the node
    id of a leaf of [b]'s relay is accepted as wholly in scope and displaces that
    leaf's row; the acknowledgement quorum of [b]'s Gateway, which that leaf held
    open, turns true. *)
Theorem roster_displaces_foreign_row :
  let h := RosterDemo.controller in
  let '(h', all_in_scope) :=
    record_roster_report (lit "relay-a") (ScNamespace (lit "a"))
      (RosterDemo.report_of [RosterDemo.leaf (lit "l1") (lit "a") None]) h in
  all_in_scope = true ∧
  gateway_node_acked (lit "b") (lit "gw") 5 (nodes h) = false ∧
  gateway_node_acked (lit "b") (lit "gw") 5 (nodes h') = true ∧
  gateway_node_count (lit "b") (lit "gw") (nodes h) = 2 ∧
  gateway_node_count (lit "b") (lit "gw") (nodes h') = 1.
Proof. vm_compute. done. Qed.
