(* ===== verification/Stream.v ===== *)
(** * The discovery stream

    Models the push-after-acknowledgement protocol between the controller and a
    proxy: the materialized view ([fold_resources], [empty_view] of
    [crates/coxswain-discovery/src/materialize.rs]), the per-stream state machine of
    [server/stream.rs] ([build_outbound], [push_if_changed], [handle_ack],
    [handle_nack] and the arms of [run_stream]) and the session loop of
    [client.rs], as one system whose two channels deliver in order.

    A handler yields the next stream state, the registry operations it performs in
    order, and the messages it sends.  The nonce, which neither side acts on, and
    the upstream directives are left out; a channel that closes ends the session.
    Which view [view_for] returns is the environment's choice. *)

From S2P Require Import Prelude Health NodeRegistry HealthWire Roster.
From S2P Require Import ResourceKey ResourceKeyFacts Apply.

Section stream.
Context {B : Type}.
Context (resource_hash : Resource B → str) (sha256_hex : str → str).

(** ** Materialized views *)

Record ResourceEntry := mkResourceEntry { hash : str; resource : Resource B }.

Record MaterializedView := mkView {
  view_version : str;
  view_seq : Z;
  view_resources : gmap str ResourceEntry;
  resource_hashes : gmap str str;
}.

(** The loop of [fold_resources]: a resource without a key is skipped, and a later
    resource replaces an earlier one of the same key. *)
Definition fold_one (acc : gmap str ResourceEntry) (r : Resource B) : gmap str ResourceEntry :=
  match canonical_key r with
  | Ok key => <[key := mkResourceEntry (resource_hash r) r]> acc
  | Err _ => acc
  end.

Definition fold_resources (all : list (Resource B)) (seq : Z) : MaterializedView :=
  let rs := foldl fold_one ∅ all in
  let hashes := hash <$> rs in
  mkView (from_per_resource sha256_hex (btree_iter hashes).*2) seq rs hashes.

Definition empty_view : MaterializedView := mkView (from_per_resource sha256_hex []) 0 ∅ ∅.

(** The views that [materialize] can return. *)
Inductive served : MaterializedView → Prop :=
| served_fold all seq : served (fold_resources all seq)
| served_empty : served empty_view.

(** ** Outbound messages *)

Record PendingWorld := mkWorld {
  world_version : str;
  world_resources : gmap str str;
  world_seq : Z;
}.

Definition world_of (v : MaterializedView) : PendingWorld :=
  mkWorld (view_version v) (resource_hashes v) (view_seq v).

Definition full_message (v : MaterializedView) : Snapshot B :=
  mkSnapshot (view_version v) true (resource <$> (btree_iter (view_resources v)).*2) []
    (view_seq v).

(** The upserts of a delta: the entries whose hash the baseline does not have. *)
Definition upserts (v : MaterializedView) (base : gmap str str) : list (str * ResourceEntry) :=
  filter (λ kv, base !! kv.1 ≠ Some (hash kv.2)) (btree_iter (view_resources v)).

(** The tombstones: the baseline's keys that the view does not have. *)
Definition tombstones (v : MaterializedView) (base : gmap str str) : list str :=
  filter (λ k, view_resources v !! k = None) (btree_iter base).*1.

Definition build_outbound (v : MaterializedView) (acked : option (gmap str str))
    : option (Snapshot B * PendingWorld) :=
  match acked with
  | None => Some (full_message v, world_of v)
  | Some base =>
      match upserts v base, tombstones v base with
      | [], [] => None
      | ups, tombs =>
          Some (mkSnapshot (view_version v) false (resource <$> ups.*2) tombs (view_seq v),
                world_of v)
      end
  end.

(** ** The stream's state machine *)

Record StreamState := mkStream {
  acked_resources : option (gmap str str);
  in_flight : option str;
  pending : option PendingWorld;
  sent_at : option Z;
}.

Definition new_stream : StreamState := mkStream None None None None.

(** [push_if_changed]: the message sent, if any. *)
Definition push_if_changed (now : Z) (v : MaterializedView) (st : StreamState)
    : StreamState * option (Snapshot B) :=
  match build_outbound v (acked_resources st) with
  | None => (st, None)
  | Some (message, world) =>
      (mkStream (acked_resources st) (Some (world_version world)) (Some world) (Some now),
       Some message)
  end.

(** The common tail of the handlers: aim at the view, push it, or else advance the
    node's stamp. *)
Definition push_or_advance (node : str) (now : Z) (v : MaterializedView) (st : StreamState)
    : StreamState * list RegistryOp * list (Snapshot B) :=
  match push_if_changed now v st with
  | (st', Some m) => (st', [OpTarget node (view_version v)], [m])
  | (st', None) => (st', [OpTarget node (view_version v); OpAdvance node (view_seq v)], [])
  end.

(** The opening of [run_stream]: the initial push, which advances nothing. *)
Definition open_stream (node : str) (now : Z) (v : MaterializedView)
    : StreamState * list RegistryOp * list (Snapshot B) :=
  let '(st, m) := push_if_changed now v new_stream in
  (st, [OpTarget node (view_version v)], option_list m).

Definition handle_ack (node : str) (now : Z) (ack_version : str) (v : MaterializedView)
    (st : StreamState) : StreamState * list RegistryOp * list (Snapshot B) :=
  let '(acked_seq, st1) :=
    match pending st with
    | Some w =>
        if bool_decide (world_version w = ack_version)
        then (world_seq w, mkStream (Some (world_resources w)) None None None)
        else (0%Z, st)
    | None => (0%Z, st)
    end in
  let record := OpAck node ack_version acked_seq now in
  match in_flight st1 with
  | None => let '(st2, ops, ms) := push_or_advance node now v st1 in (st2, record :: ops, ms)
  | Some _ => (st1, [record], [])
  end.

Definition handle_nack (node : str) (now : Z) (nack_version : str) (v : MaterializedView)
    (st : StreamState) : StreamState * list RegistryOp * list (Snapshot B) :=
  match build_outbound v None with
  | None => (st, [OpTarget node (view_version v)], [])
  | Some (message, world) =>
      let sent :=
        if negb (bool_decide (world_version world = nack_version)) then Some now
        else match sent_at st with None => Some now | Some t => Some t end in
      (mkStream (acked_resources st) (Some (world_version world)) (Some world) sent,
       [OpTarget node (view_version v)], [message])
  end.

(** The rebuild arm: nothing while a message is in flight. *)
Definition handle_rebuild (node : str) (now : Z) (v : MaterializedView) (st : StreamState)
    : StreamState * list RegistryOp * list (Snapshot B) :=
  match in_flight st with
  | Some _ => (st, [], [])
  | None => push_or_advance node now v st
  end.

Inductive ClientMessage :=
| CAck (version : str)
| CNack (version : str)
| CNodeStatus (ports : list Z)
| CHealthReport (report : HealthReport)
| CRosterReport (children : list RosterEntry)
| CSubscribe
| CUnknown.

(** The inbound arm; [allowed] is what the authorizer says of a roster report. *)
Definition handle_message (node : str) (scope : Scope) (allowed : bool) (now : Z)
    (v : MaterializedView) (msg : ClientMessage) (st : StreamState)
    : StreamState * list RegistryOp * list (Snapshot B) :=
  match msg with
  | CAck version => handle_ack node now version v st
  | CNack version => handle_nack node now version v st
  | CNodeStatus ports => (st, [OpBound node (decode_ports ports)], [])
  | CHealthReport report => (st, [OpHealth node (health_from_wire report)], [])
  | CRosterReport children =>
      (st, if allowed then [OpRoster node (decode_report scope children)] else [], [])
  | CSubscribe | CUnknown => (st, [], [])
  end.

(** ** The client's session *)

Context (body_refs : B → gset (str * str * Z)).
Context (compile_error : ResourceCache B → Staged B → list Cell → option WireError).

Record Client := mkClient { cache : ResourceCache B; expect_full : bool }.

(** A snapshot is applied with its version verified, and answered. *)
Definition client_receive (c : Client) (msg : Snapshot B) : Client * ClientMessage :=
  match apply_message resource_hash sha256_hex body_refs compile_error (cache c) msg
          (expect_full c) true with
  | Ok cache' => (mkClient cache' false, CAck (version msg))
  | Err _ => (c, CNack (version msg))
  end.

(** ** The two ends together *)

Record System := mkSystem {
  server : StreamState;
  down : list (Snapshot B);
  up : list ClientMessage;
  client : Client;
}.

Definition boot : System := mkSystem new_stream [] [] (mkClient new_cache true).

(** A new session: the channels and the stream's state are new, the client's cache
    persists. *)
Definition open_session (node : str) (now : Z) (v : MaterializedView) (s : System)
    : System * list RegistryOp :=
  let '(st, ops, ms) := open_stream node now v in
  (mkSystem st ms [] (mkClient (cache (client s)) true), ops).

Definition rebuild (node : str) (now : Z) (v : MaterializedView) (s : System)
    : System * list RegistryOp :=
  let '(st, ops, ms) := handle_rebuild node now v (server s) in
  (mkSystem st (down s ++ ms) (up s) (client s), ops).

(** The client takes its next message; nothing happens when there is none. *)
Definition deliver (s : System) : System :=
  match down s with
  | [] => s
  | m :: ms =>
      let '(c, reply) := client_receive (client s) m in
      mkSystem (server s) ms (up s ++ [reply]) c
  end.

(** The server takes its next message. *)
Definition serve (node : str) (scope : Scope) (allowed : bool) (now : Z) (v : MaterializedView)
    (s : System) : System * list RegistryOp :=
  match up s with
  | [] => (s, [])
  | msg :: msgs =>
      let '(st, ops, ms) := handle_message node scope allowed now v msg (server s) in
      (mkSystem st (down s ++ ms) msgs (client s), ops)
  end.

Definition is_report (msg : ClientMessage) : bool :=
  match msg with CAck _ | CNack _ => false | _ => true end.

Definition report (msg : ClientMessage) (s : System) : System :=
  mkSystem (server s) (down s) (up s ++ [msg]) (client s).

(** A step, labelled with the registry operations it performs.  Anything the client
    says besides its answers may come at any time. *)
Inductive stream_step (node : str) (scope : Scope) : System → list RegistryOp → System → Prop :=
| step_open now v s s' ops :
    served v → open_session node now v s = (s', ops) → stream_step node scope s ops s'
| step_rebuild now v s s' ops :
    served v → rebuild node now v s = (s', ops) → stream_step node scope s ops s'
| step_deliver s : stream_step node scope s [] (deliver s)
| step_serve allowed now v s s' ops :
    served v → serve node scope allowed now v s = (s', ops) → stream_step node scope s ops s'
| step_report msg s : is_report msg = true → stream_step node scope s [] (report msg s).

(** ** Runs without a change of the world *)

Fixpoint serve_all (node : str) (scope : Scope) (allowed : bool) (now : Z) (v : MaterializedView)
    (n : nat) (s : System) : System :=
  match n with
  | 0 => s
  | S n => serve_all node scope allowed now v n (serve node scope allowed now v s).1
  end.

(** The client takes its message, and then the server all that the client sent. *)
Definition round (node : str) (scope : Scope) (allowed : bool) (now : Z) (v : MaterializedView)
    (s : System) : System :=
  let s' := deliver s in serve_all node scope allowed now v (length (up s')) s'.

Inductive reachable (node : str) (scope : Scope) : System → Prop :=
| reach_boot : reachable node scope boot
| reach_step s ops s' :
    reachable node scope s → stream_step node scope s ops s' → reachable node scope s'.

End stream.
