(* ===== verification/StreamFacts.v ===== *)
(** * Correctness of the discovery stream

    The client's cache after an accepted message is the view the server built the
    message from; at most one message is outstanding; a recorded acknowledgement is
    that of the world the client holds; a delta gives the cache that a full snapshot
    gives; and the two ends converge. *)

From S2P Require Import Prelude Health NodeRegistry HealthWire Roster.
From S2P Require Import ResourceKey ResourceKeyFacts Apply ApplyFacts Stream.

(** ** Generic lemmas *)

Lemma NoDup_fst_filter {K V} (P : K * V → Prop) `{∀ x, Decision (P x)} (l : list (K * V)) :
  NoDup l.*1 → NoDup (filter P l).*1.
Proof.
  induction l as [|[k v] l IH]; cbn [fmap list_fmap fst]; [done|].
  intros [Hk Hl]%NoDup_cons. rewrite filter_cons. case_decide; [|auto].
  cbn. apply NoDup_cons. split; [|auto]. intros Hin. apply Hk.
  apply list_elem_of_fmap in Hin as (y & -> & Hy).
  apply list_elem_of_filter in Hy as [_ Hy]. apply list_elem_of_fmap. by exists y.
Qed.

Lemma list_to_map_fst_snd {V W} (f : V → W) (l : list (str * V)) (k : str) (w : W) :
  NoDup l.*1 →
  (list_to_map ((λ kv, (kv.1, f kv.2)) <$> l) : gmap str W) !! k = Some w ↔
  ∃ v, (k, v) ∈ l ∧ f v = w.
Proof.
  intros Hnd. rewrite <-elem_of_list_to_map.
  - rewrite list_elem_of_fmap. split.
    + intros ([k' v] & [= -> ->] & Hin). by exists v.
    + intros (v & Hin & <-). by exists (k, v).
  - rewrite <-list_fmap_compose. exact Hnd.
Qed.

Lemma foldr_delete_lookup {V} (ks : list str) (m : gmap str V) (k : str) :
  foldr delete m ks !! k = if decide (k ∈ ks) then None else m !! k.
Proof.
  induction ks as [|j ks IH]; cbn.
  - by rewrite decide_False by apply not_elem_of_nil.
  - destruct (decide (j = k)) as [->|Hne].
    + rewrite lookup_delete_eq, decide_True; [done|by left].
    + rewrite lookup_delete_ne, IH by done. repeat case_decide; set_solver.
Qed.

Lemma from_per_resource_perm sha l1 l2 :
  l1 ≡ₚ l2 → from_per_resource sha l1 = from_per_resource sha l2.
Proof.
  intros Hp. unfold from_per_resource. do 2 f_equal.
  apply (sorted_perm_eq str_leb).
  - apply sort_by_sorted; [apply str_leb_total|apply str_leb_trans].
  - apply sort_by_sorted; [apply str_leb_total|apply str_leb_trans].
  - by rewrite !sort_by_perm.
  - intros x y _ _. apply str_leb_antisym.
Qed.

Section facts.
Context {B : Type} (resource_hash : Resource B → str) (sha256_hex : str → str).
Context (body_refs : B → gset (str * str * Z)).
Context (compile_error : ResourceCache B → Staged B → list Cell → option WireError).
Implicit Types (v : @MaterializedView B) (st : @Staged B) (c : ResourceCache B).

Notation apply_msg := (apply_message resource_hash sha256_hex body_refs compile_error).

(** ** Views *)

Record view_ok v : Prop := {
  vo_hashes : resource_hashes v = hash <$> view_resources v;
  vo_entry : ∀ k e, view_resources v !! k = Some e →
    canonical_key (resource e) = Ok k ∧ hash e = resource_hash (resource e);
  vo_version : view_version v = version_of sha256_hex (resource_hashes v);
}.

Lemma served_ok v : served resource_hash sha256_hex v → view_ok v.
Proof.
  intros [all seq|].
  - split; cbn; [done| |].
    + assert (∀ acc, (∀ k e, acc !! k = Some e →
          canonical_key (resource e) = Ok k ∧ hash e = resource_hash (resource e)) →
        ∀ k e, foldl (fold_one resource_hash) acc all !! k = Some e →
          canonical_key (resource e) = Ok k ∧ hash e = resource_hash (resource e)) as Hf.
      { induction all as [|r all IH]; intros acc Hacc; cbn [foldl]; [done|]. apply IH.
        unfold fold_one. destruct (canonical_key r) as [key|] eqn:E; [|done].
        intros k e. destruct (decide (key = k)) as [->|Hne].
        - rewrite lookup_insert_eq. by intros [= <-].
        - rewrite lookup_insert_ne by done. apply Hacc. }
      apply Hf. intros k e Hk. by rewrite lookup_empty in Hk.
    + unfold version_of. apply from_per_resource_perm. unfold btree_iter.
      by rewrite sort_by_perm.
  - split; cbn; [by rewrite fmap_empty| |].
    + intros k e Hk. by rewrite lookup_empty in Hk.
    + unfold version_of. by rewrite map_to_list_empty.
Qed.

(** ** The digests of an accepted message *)

Lemma stage_all_digests (l : list (str * Resource B)) :
  ∀ st dirty seen st' dirty' seen',
  (∀ k r, (k, r) ∈ l → canonical_key r = Ok k) → NoDup l.*1 →
  stage_all resource_hash body_refs (st, dirty, seen) l.*2 = Ok (st', dirty', seen') →
  digests st' = (resource_hash <$> list_to_map l) ∪ digests st.
Proof.
  induction l as [|[k r] l IH]; intros st dirty seen st' dirty' seen' Hl Hnd;
    cbn [stage_all fmap list_fmap fst snd list_to_map foldr uncurry].
  - intros [= <- <- <-]. by rewrite fmap_empty, (left_id_L ∅ (∪)).
  - apply NoDup_cons in Hnd as [Hk Hnd]. unfold stage_resource.
    rewrite (Hl k r) by by left. case_bool_decide; [done|].
    destruct (payload r) as [p|]; [|done]. destruct (slot_of p) as [s|]; [|done]. cbn -[list_to_map].
    intros ->%IH; [|intros; apply Hl; by right|done]. cbn -[list_to_map].
    rewrite fmap_insert, <-insert_union_l, insert_union_r; [done|].
    rewrite lookup_fmap, not_elem_of_list_to_map_1; done.
Qed.

Lemma remove_all_digests seen (ks : list str) : ∀ st dirty st' dirty',
  remove_all seen st dirty ks = Ok (st', dirty') →
  digests st' = foldr delete (digests st) ks.
Proof.
  induction ks as [|k ks IH]; intros st dirty st' dirty'; cbn [remove_all foldr].
  - by intros [= <- <-].
  - case_bool_decide; [done|]. destruct (parse_canonical_key k) as [pk|]; [|done].
    unfold remove_from_staged. destruct (slot_of_parsed pk) as [s|]; [|done]. cbn.
    intros ->%IH. cbn. by rewrite foldr_delete_comm.
Qed.

(** The entries of a view as keyed resources. *)
Definition keyed (l : list (str * ResourceEntry)) : list (str * Resource B) :=
  (λ kv, (kv.1, resource kv.2)) <$> l.

Lemma keyed_snd l : resource <$> l.*2 = (keyed l).*2.
Proof. unfold keyed. by rewrite <-!list_fmap_compose. Qed.

Lemma keyed_fst l : (keyed l).*1 = l.*1.
Proof. unfold keyed. by rewrite <-list_fmap_compose. Qed.

Lemma keyed_canonical v l k r :
  view_ok v → (∀ kv, kv ∈ l → kv ∈ btree_iter (view_resources v)) →
  (k, r) ∈ keyed l → canonical_key r = Ok k.
Proof.
  intros Hv Hl Hin. apply list_elem_of_fmap in Hin as ([k' e] & [= -> ->] & Hin).
  apply Hl, btree_iter_elem in Hin. by apply (vo_entry v Hv).
Qed.

Lemma upserts_elem v base k e :
  (k, e) ∈ upserts v base ↔ view_resources v !! k = Some e ∧ base !! k ≠ Some (hash e).
Proof. unfold upserts. rewrite list_elem_of_filter, btree_iter_elem. naive_solver. Qed.

Lemma tombstones_elem v base k :
  k ∈ tombstones v base ↔ view_resources v !! k = None ∧ is_Some (base !! k).
Proof.
  unfold tombstones. rewrite list_elem_of_filter, list_elem_of_fmap. split.
  - intros (Hn & [k' h] & -> & Hin%btree_iter_elem). eauto.
  - intros (Hn & h & Hh). split; [done|]. exists (k, h). by rewrite btree_iter_elem.
Qed.

(** The baseline, with the upserts written and the tombstones removed, is the
    view. *)
Lemma delta_hashes v base :
  view_ok v →
  foldr delete ((resource_hash <$> list_to_map (keyed (upserts v base))) ∪ base)
    (tombstones v base) = resource_hashes v.
Proof.
  intros Hv. rewrite (vo_hashes v Hv). apply map_eq. intros k.
  assert (NoDup (upserts v base).*1) as Hnd.
  { apply NoDup_fst_filter, btree_iter_NoDup. }
  rewrite foldr_delete_lookup, lookup_fmap.
  destruct (view_resources v !! k) as [e|] eqn:Ev; cbn.
  - rewrite decide_False by (rewrite tombstones_elem; naive_solver).
    destruct (vo_entry v Hv k e Ev) as [_ Hh].
    destruct (decide (base !! k = Some (hash e))) as [Hb|Hb].
    + rewrite lookup_union_r; [done|]. rewrite lookup_fmap, fmap_None.
      apply eq_None_not_Some. intros [r Hr].
      apply list_to_map_fst_snd in Hr as (e' & Hin & _); [|done].
      apply upserts_elem in Hin as [? ?]. naive_solver.
    + apply lookup_union_Some_l. rewrite lookup_fmap, Hh, fmap_Some.
      exists (resource e). split; [|done]. apply list_to_map_fst_snd; [done|].
      exists e. by rewrite upserts_elem.
  - case_decide as Ht; [done|]. rewrite tombstones_elem in Ht.
    destruct (base !! k) eqn:Eb; [naive_solver|].
    rewrite lookup_union_r; [done|]. rewrite lookup_fmap, fmap_None.
    apply eq_None_not_Some. intros [r Hr].
    apply list_to_map_fst_snd in Hr as (e' & Hin & _); [|done].
    apply upserts_elem in Hin as [? ?]. naive_solver.
Qed.

Lemma full_hashes v :
  view_ok v →
  (resource_hash <$> list_to_map (keyed (btree_iter (view_resources v)))) ∪ ∅ = resource_hashes v.
Proof.
  intros Hv. rewrite (right_id_L ∅ (∪)), (vo_hashes v Hv). apply map_eq. intros k.
  apply option_eq. intros h. rewrite !lookup_fmap, !fmap_Some. split.
  - intros (r & Hr & ->). apply list_to_map_fst_snd in Hr as (e & Hin & <-);
      [|apply btree_iter_NoDup].
    apply btree_iter_elem in Hin. exists e. split; [done|]. symmetry. by apply (vo_entry v Hv k e).
  - intros (e & He & ->). exists (resource e). split; [|by apply (vo_entry v Hv k e)].
    apply list_to_map_fst_snd; [apply btree_iter_NoDup|]. exists e. by rewrite btree_iter_elem.
Qed.

(** What the digests of a successfully staged message are. *)
Lemma apply_digests c m ef c' :
  apply_msg c m ef true = Ok c' →
  (full m = true → ∃ s, stage_full resource_hash body_refs m = Ok s ∧
     digests (committed c') = digests s) ∧
  (full m = false → ∃ s d, stage_delta resource_hash body_refs c m = Ok (s, d) ∧
     digests (committed c') = digests s).
Proof.
  unfold apply_message. destruct (negb (full m) && ef); [done|].
  destruct (full m).
  - destruct (stage_full _ _ _) as [s|] eqn:E; [|done]. cbn.
    destruct (negb _); [done|].
    destruct (has_full c && _) eqn:En.
    + apply andb_true_iff in En as [_ Hd%bool_decide_eq_true_1].
      intros [= <-]. split; [|done]. intros _. by exists s.
    + destruct (compile_error _ _ _); [done|]. intros [= <-]. split; [|done]. by exists s.
  - destruct (stage_delta _ _ _ _) as [[s d]|] eqn:E; [|done]. cbn.
    destruct (negb _); [done|]. destruct (negb _); [done|].
    destruct (has_full c && _) eqn:En.
    + apply andb_true_iff in En as [_ Hd%bool_decide_eq_true_1].
      intros [= <-]. split; [done|]. intros _. by exists s, d.
    + destruct (compile_error _ _ _); [done|]. intros [= <-]. split; [done|]. by exists s, d.
Qed.

(** A client that holds the baseline and accepts the message built against it holds
    the view. *)
Lemma outbound_applied v acked m w c ef c' :
  view_ok v → build_outbound v acked = Some (m, w) →
  (∀ base, acked = Some base → digests (committed c) = base) →
  apply_msg c m ef true = Ok c' →
  digests (committed c') = resource_hashes v.
Proof.
  intros Hv Hb Hbase Ha. apply apply_digests in Ha as [Hfull Hdelta].
  destruct acked as [base|]; cbn in Hb.
  - assert (m = mkSnapshot (view_version v) false (resource <$> (upserts v base).*2)
                  (tombstones v base) (view_seq v)) as ->.
    { destruct (upserts v base), (tombstones v base); by simplify_eq/=. }
    destruct Hdelta as (s & d & Hs & ->); [done|]. unfold stage_delta in Hs.
    cbn [resources removed_resources] in Hs. rewrite keyed_snd in Hs.
    destruct (stage_all _ _ _ _) as [[[s1 d1] seen]|] eqn:E; [|done]. cbn in Hs.
    apply remove_all_digests in Hs as ->.
    apply stage_all_digests in E as ->.
    + rewrite (Hbase base eq_refl). by apply delta_hashes.
    + intros k r. apply (keyed_canonical v); [done|].
      intros kv Hin. by apply list_elem_of_filter in Hin as [_ ?].
    + rewrite keyed_fst. apply NoDup_fst_filter, btree_iter_NoDup.
  - simplify_eq. destruct Hfull as (s & Hs & ->); [done|]. unfold stage_full in Hs.
    cbn [resources full_message] in Hs. rewrite keyed_snd in Hs.
    destruct (stage_all _ _ _ _) as [[[s1 d1] seen]|] eqn:E; [|done]. simplify_eq/=.
    apply stage_all_digests in E as ->; cbn [digests empty_staged].
    + by apply full_hashes.
    + intros k r. by apply (keyed_canonical v).
    + rewrite keyed_fst. apply btree_iter_NoDup.
Qed.

Lemma build_outbound_world v acked m w :
  build_outbound v acked = Some (m, w) → w = world_of v ∧ version m = view_version v ∧
  (full m = true ↔ acked = None).
Proof.
  destruct acked as [base|]; cbn.
  - destruct (upserts v base), (tombstones v base); by intros; simplify_eq.
  - by intros [= <- <-].
Qed.

(** Nothing to send: the baseline is the view. *)
Lemma build_outbound_None v acked :
  view_ok v → build_outbound v acked = None → acked = Some (resource_hashes v).
Proof.
  intros Hv. destruct acked as [base|]; cbn; [|done].
  destruct (upserts v base) eqn:Eu, (tombstones v base) eqn:Et; try done. intros _. f_equal.
  rewrite <-(delta_hashes v base Hv), Eu, Et. cbn.
  by rewrite fmap_empty, (left_id_L ∅ (∪)).
Qed.

(** ** The protocol's invariant *)

Notation served_view := (served resource_hash sha256_hex).
Notation Sys := (@System B).
Notation held s := (digests (committed (cache (client s)))).

Definition replies (s : Sys) : list ClientMessage := filter (λ m, is_report m = false) (up s).

(** The client holds the server's baseline. *)
Definition base_held (s : Sys) : Prop :=
  ∀ base, acked_resources (server s) = Some base → held s = base.

(** The message [m] was built for [v] against the server's baseline or as a full. *)
Definition built_for v (m : Snapshot B) (s : Sys) : Prop :=
  ∃ acked, build_outbound v acked = Some (m, world_of v) ∧
    (acked = None ∨ acked = acked_resources (server s)).

(** The four situations of a session: nothing outstanding, a message on its way, its
    acknowledgement on its way, or its rejection. *)
Inductive phase (s : Sys) : Prop :=
| ph_idle :
    pending (server s) = None → in_flight (server s) = None →
    down s = [] → replies s = [] → base_held s → phase s
| ph_sent v m :
    served_view v → pending (server s) = Some (world_of v) →
    in_flight (server s) = Some (view_version v) →
    down s = [m] → replies s = [] → built_for v m s → base_held s → phase s
| ph_acked v :
    served_view v → pending (server s) = Some (world_of v) →
    in_flight (server s) = Some (view_version v) →
    down s = [] → replies s = [CAck (view_version v)] →
    held s = resource_hashes v → phase s
| ph_nacked v ver :
    pending (server s) = Some (world_of v) → in_flight (server s) = Some (view_version v) →
    down s = [] → replies s = [CNack ver] → base_held s → phase s.

Lemma replies_app (s : Sys) l : filter (λ m, is_report m = false) (up s ++ l) =
  replies s ++ filter (λ m, is_report m = false) l.
Proof. apply filter_app. Qed.

(** The world the client holds is that of a served view with this sequence. *)
Definition holds_seq (s : Sys) (seq : Z) : Prop :=
  ∃ v, served_view v ∧ view_seq v = seq ∧ held s = resource_hashes v.

Definition op_honest (s : Sys) (o : RegistryOp) : Prop :=
  match o with
  | OpAck _ _ seq _ => seq = 0%Z ∨ holds_seq s seq
  | OpAdvance _ seq => holds_seq s seq
  | _ => True
  end.

(** Pushing a view from a state with nothing in flight. *)
Lemma push_phase node now v (st st' : StreamState) (ops : list RegistryOp)
    (ms : list (Snapshot B)) (up' : list ClientMessage) (cl : Client) :
  served_view v → pending st = None → in_flight st = None →
  (∀ base, acked_resources st = Some base → digests (committed (cache cl)) = base) →
  filter (λ m, is_report m = false) up' = [] →
  push_or_advance node now v st = (st', ops, ms) →
  phase (mkSystem st' ms up' cl) ∧ Forall (op_honest (mkSystem st' ms up' cl)) ops.
Proof.
  intros Hs Hp Hi Hb Hup. unfold push_or_advance, push_if_changed.
  destruct (build_outbound v (acked_resources st)) as [[m w]|] eqn:E.
  - destruct (build_outbound_world _ _ _ _ E) as (-> & _ & _). intros [= <- <- <-]. split.
    + apply (ph_sent _ v m); cbn; try done. exists (acked_resources st). auto.
    + by repeat constructor.
  - apply build_outbound_None in E; [|by apply served_ok].
    intros [= <- <- <-]. split; [by apply ph_idle|].
    repeat constructor. exists v. split; [done|]. split; [done|]. by apply Hb.
Qed.

Lemma open_phase node now v s s' ops :
  served_view v → open_session node now v s = (s', ops) → phase s'.
Proof.
  intros Hs. unfold open_session, open_stream, push_if_changed. cbn. intros [= <- <-].
  apply (ph_sent _ v (full_message v)); cbn; try done. exists None. auto.
Qed.

Lemma rebuild_phase node now v s s' ops :
  served_view v → phase s → rebuild node now v s = (s', ops) →
  phase s' ∧ Forall (op_honest s) ops.
Proof.
  intros Hs Hph. unfold rebuild, handle_rebuild.
  destruct (in_flight (server s)) as [f|] eqn:Ef.
  - intros [= <- <-]. rewrite app_nil_r. split; [by destruct s|constructor].
  - destruct (push_or_advance node now v (server s)) as [[st' ops'] ms] eqn:E.
    intros [= <- <-].
    destruct Hph as [Hp Hi Hd Hr Hb| | |]; [|congruence..].
    rewrite Hd. by eapply push_phase.
Qed.

(** The client's answer to a message built for [v]. *)
Lemma deliver_sent v m (s : Sys) :
  view_ok v → down s = [m] → replies s = [] → built_for v m s → base_held s →
  let s' := deliver resource_hash sha256_hex body_refs compile_error s in
  server s' = server s ∧ down s' = [] ∧
  ((replies s' = [CAck (view_version v)] ∧ held s' = resource_hashes v) ∨
   (replies s' = [CNack (view_version v)] ∧ client s' = client s ∧
    ∀ c', apply_msg (cache (client s)) m (expect_full (client s)) true ≠ Ok c')).
Proof.
  intros Hv Hd Hr (acked & Hbo & Hacked) Hb. unfold deliver. rewrite Hd.
  destruct (build_outbound_world _ _ _ _ Hbo) as (_ & Hver & _).
  unfold client_receive. destruct (apply_msg _ _ _ _) as [c'|] eqn:Ea; cbn;
    (split; [done|]); (split; [done|]);
    unfold replies; cbn [up]; rewrite replies_app, Hr, Hver; [left|by right].
  split; [done|]. eapply outbound_applied; [done|done| |done].
  intros base ->. destruct Hacked; [done|]. by apply Hb.
Qed.

Lemma deliver_phase s : phase s → phase (deliver resource_hash sha256_hex body_refs compile_error s).
Proof.
  intros Hph. destruct (down s) as [|m ms] eqn:Ed; [by unfold deliver; rewrite Ed|].
  destruct Hph as [|v m' Hs Hp Hi Hd Hr Hbf Hb| |]; try congruence.
  destruct (deliver_sent v m' s (served_ok v Hs) Hd Hr Hbf Hb)
    as (Es & Ed' & [[Hr' Hh]|(Hr' & Ec & _)]).
  - apply (ph_acked _ v); rewrite ?Es; done.
  - apply (ph_nacked _ v (view_version v)); unfold base_held; rewrite ?Es, ?Ec; done.
Qed.

Lemma phase_ext (s s' : Sys) :
  server s' = server s → down s' = down s → replies s' = replies s → client s' = client s →
  phase s → phase s'.
Proof.
  intros E1 E2 E3 E4 [Hp Hi Hd Hr Hb|v m Hs Hp Hi Hd Hr Hbf Hb|v Hs Hp Hi Hd Hr Hh|v ver Hp Hi Hd Hr Hb].
  - apply ph_idle; unfold base_held; rewrite ?E1, ?E2, ?E3, ?E4; done.
  - apply (ph_sent _ v m); unfold built_for, base_held; rewrite ?E1, ?E2, ?E3, ?E4; done.
  - apply (ph_acked _ v); rewrite ?E1, ?E2, ?E3, ?E4; done.
  - apply (ph_nacked _ v ver); unfold base_held; rewrite ?E1, ?E2, ?E3, ?E4; done.
Qed.

(** Answering an acknowledgement. *)
Lemma serve_ack node scope allowed now v ver msgs s s' ops :
  served_view v → phase s → up s = CAck ver :: msgs →
  serve node scope allowed now v s = (s', ops) → phase s' ∧ Forall (op_honest s) ops.
Proof.
  intros Hs Hph Hup. unfold serve. rewrite Hup. cbn [handle_message].
  destruct Hph as [| |v0 Hs0 Hp Hi Hd Hr Hh|];
    try (unfold replies in *; rewrite Hup in *; discriminate).
  unfold replies in Hr. rewrite Hup in Hr. cbn in Hr. injection Hr as -> Hr.
  unfold handle_ack. rewrite Hp. cbn [world_version world_of].
  rewrite bool_decide_eq_true_2 by done. cbn [in_flight].
  destruct (push_or_advance node now v _) as [[st' ops'] ms] eqn:E.
  intros [= <- <-]. rewrite Hd. cbn [app].
  eapply push_phase in E as [Hph' Hadv]; [|done|done|done| |exact Hr];
    [|intros base [= <-]; exact Hh].
  split; [done|]. constructor; [right; by exists v0|exact Hadv].
Qed.

Lemma serve_nack node scope allowed now v ver msgs s s' ops :
  served_view v → phase s → up s = CNack ver :: msgs →
  serve node scope allowed now v s = (s', ops) → phase s' ∧ Forall (op_honest s) ops.
Proof.
  intros Hs Hph Hup. unfold serve. rewrite Hup. cbn [handle_message].
  destruct Hph as [| | |v0 ver0 Hp Hi Hd Hr Hb];
    try (unfold replies in *; rewrite Hup in *; discriminate).
  unfold replies in Hr. rewrite Hup in Hr. cbn in Hr. injection Hr as -> Hr.
  unfold handle_nack. cbn [build_outbound]. intros [= <- <-]. rewrite Hd. split.
  - apply (ph_sent _ v (full_message v)); try done. exists None. auto.
  - by repeat constructor.
Qed.

Lemma serve_phase node scope allowed now v s s' ops :
  served_view v → phase s → serve node scope allowed now v s = (s', ops) →
  phase s' ∧ Forall (op_honest s) ops.
Proof.
  intros Hs Hph Hserve. destruct (up s) as [|msg msgs] eqn:Hup.
  { unfold serve in Hserve. rewrite Hup in Hserve. by simplify_eq. }
  destruct (is_report msg) eqn:Er.
  - unfold serve in Hserve. rewrite Hup in Hserve.
    assert (replies s = filter (λ m, is_report m = false) msgs) as Hr.
    { unfold replies. rewrite Hup, filter_cons_False; [done|]. by rewrite Er. }
    destruct msg; try done; cbn in Hserve; rewrite app_nil_r in Hserve; simplify_eq;
      (split; [by eapply phase_ext, Hph|]); try by repeat constructor.
    destruct allowed; by repeat constructor.
  - destruct msg; try done; [by eapply serve_ack|by eapply serve_nack].
Qed.

Notation step := (stream_step resource_hash sha256_hex body_refs compile_error).
Notation reach := (reachable resource_hash sha256_hex body_refs compile_error).

Lemma step_phase node scope s ops s' :
  phase s → step node scope s ops s' → phase s' ∧ Forall (op_honest s) ops.
Proof.
  intros Hph Hst. revert Hph.
  destruct Hst as [now v s s' ops Hs Ho|now v s s' ops Hs Ho|s|allowed now v s s' ops Hs Ho|msg s Hm];
    intros Hph.
  - split; [by eapply open_phase|]. unfold open_session, open_stream in Ho. cbn in Ho.
    simplify_eq. by repeat constructor.
  - by eapply rebuild_phase.
  - split; [by apply deliver_phase|constructor].
  - by eapply serve_phase.
  - split; [|constructor]. eapply phase_ext, Hph; try done.
    unfold replies, report. cbn [up]. rewrite replies_app, filter_cons_False, filter_nil by by rewrite Hm.
    by rewrite app_nil_r.
Qed.

Lemma reach_phase node scope s : reach node scope s → phase s.
Proof.
  induction 1 as [|s ops s' _ IH Hst]; [by apply ph_idle|].
  by eapply step_phase.
Qed.


(** At most one snapshot is outstanding: in every reachable state, the snapshots
    on their way to the client and the answers on their way back number one when
    the server has a message in flight, and none otherwise. *)
Theorem one_in_flight node scope s :
  reach node scope s →
  length (down s) + length (replies s) = (if in_flight (server s) then 1 else 0) ∧
  in_flight (server s) = world_version <$> pending (server s).
Proof.
  intros [Hp Hi Hd Hr Hb|v m Hs Hp Hi Hd Hr Hbf Hb|v Hs Hp Hi Hd Hr Hh|v ver Hp Hi Hd Hr Hb]%reach_phase;
    by rewrite Hp, Hi, Hd, Hr.
Qed.

(** ** Deltas and full snapshots *)

Definition resources_of v : gmap str (Resource B) := resource <$> view_resources v.

Lemma keyed_view v (k : str) (r : Resource B) :
  (k, r) ∈ keyed (btree_iter (view_resources v)) ↔ resources_of v !! k = Some r.
Proof.
  unfold keyed, resources_of. rewrite list_elem_of_fmap, lookup_fmap, fmap_Some. split.
  - intros ([k' e] & [= -> ->] & Hin%btree_iter_elem). eauto.
  - intros (e & He & ->). exists (k, e). by rewrite btree_iter_elem.
Qed.

(** A view of resources that a leaf can serve. *)
Definition view_servable v : Prop := view_ok v ∧ all_servable (resources_of v).

Lemma stage_full_view v :
  view_servable v →
  ∃ st, stage_full resource_hash body_refs (full_message v) = Ok st ∧
    represents resource_hash body_refs (resources_of v) st.
Proof.
  intros [Hv Hs]. eapply (stage_full_represents _ _ _ (keyed (btree_iter (view_resources v)))).
  - done.
  - cbn [resources full_message]. apply keyed_snd.
  - rewrite keyed_fst. apply btree_iter_NoDup.
  - apply keyed_view.
Qed.

(** The resources of two views agree wherever their hashes do. *)
Definition collision_free v0 v1 : Prop :=
  ∀ (k : str) (r0 r1 : Resource B), resources_of v0 !! k = Some r0 → resources_of v1 !! k = Some r1 →
    resource_hash r0 = resource_hash r1 → r0 = r1.

(** The old resources, with the upserts written and the tombstones removed, are the
    new ones. *)
Lemma delta_resources v0 v1 :
  view_ok v0 → view_ok v1 → collision_free v0 v1 →
  foldr delete (list_to_map (keyed (upserts v1 (resource_hashes v0))) ∪ resources_of v0)
    (tombstones v1 (resource_hashes v0)) = resources_of v1.
Proof.
  intros Hv0 Hv1 Hcf. apply map_eq. intros k.
  assert (NoDup (upserts v1 (resource_hashes v0)).*1) as Hnd.
  { apply NoDup_fst_filter, btree_iter_NoDup. }
  assert (∀ r, (list_to_map (keyed (upserts v1 (resource_hashes v0))) : gmap str _) !! k = Some r ↔
    ∃ e, view_resources v1 !! k = Some e ∧ resource_hashes v0 !! k ≠ Some (hash e) ∧
         resource e = r) as Hup.
  { intros r. unfold keyed. rewrite list_to_map_fst_snd by done.
    setoid_rewrite upserts_elem. naive_solver. }
  rewrite foldr_delete_lookup. unfold resources_of at 2. rewrite lookup_fmap.
  destruct (view_resources v1 !! k) as [e|] eqn:Ev; cbn.
  - rewrite decide_False by (rewrite tombstones_elem; naive_solver).
    destruct (decide (resource_hashes v0 !! k = Some (hash e))) as [Hb|Hb].
    + rewrite lookup_union_r by (apply eq_None_not_Some; intros [r Hr%Hup]; naive_solver).
      rewrite (vo_hashes v0 Hv0), lookup_fmap in Hb.
      destruct (view_resources v0 !! k) as [e0|] eqn:Ev0; [|done]. injection Hb as Hb.
      unfold resources_of. rewrite lookup_fmap, Ev0. cbn. f_equal.
      apply (Hcf k); unfold resources_of; rewrite ?lookup_fmap, ?Ev0, ?Ev; try done.
      destruct (vo_entry v0 Hv0 k e0 Ev0) as [_ <-]. by destruct (vo_entry v1 Hv1 k e Ev) as [_ <-].
    + apply lookup_union_Some_l, Hup. by exists e.
  - case_decide as Ht; [done|]. rewrite tombstones_elem in Ht.
    rewrite lookup_union_r by (apply eq_None_not_Some; intros [r Hr%Hup]; naive_solver).
    unfold resources_of. rewrite lookup_fmap. destruct (view_resources v0 !! k) eqn:Ev0; [|done].
    exfalso. apply Ht. split; [done|]. rewrite (vo_hashes v0 Hv0), lookup_fmap, Ev0. eauto.
Qed.

(** C2: A delta is as good as a full snapshot.  When the client's cache is the image of
    the view that the server has as its baseline, staging the delta from that
    baseline to a new view succeeds and yields the very cache (resources by slot,
    references, digests) that staging a full snapshot of the new view yields, which
    is the image of the new view.  Unchanged hashes must mean unchanged
    resources. *)
Theorem delta_equals_full v0 v1 c m w :
  view_servable v0 → view_servable v1 → collision_free v0 v1 →
  represents resource_hash body_refs (resources_of v0) (committed c) →
  build_outbound v1 (Some (resource_hashes v0)) = Some (m, w) →
  ∃ st dirty,
    stage_delta resource_hash body_refs c m = Ok (st, dirty) ∧
    stage_full resource_hash body_refs (full_message v1) = Ok st ∧
    represents resource_hash body_refs (resources_of v1) st.
Proof.
  intros [Hv0 Hs0] Hvs1 Hcf Hrep Hb. destruct (stage_full_view v1 Hvs1) as (st & Hfull & Hst).
  destruct Hvs1 as [Hv1 Hs1].
  assert (resources m = (keyed (upserts v1 (resource_hashes v0))).*2 ∧
          removed_resources m = tombstones v1 (resource_hashes v0)) as [Hr Ht].
  { rewrite <-keyed_snd. cbn in Hb.
    destruct (upserts _ _), (tombstones _ _); by simplify_eq/=. }
  unfold stage_delta. rewrite Hr, Ht.
  destruct (stage_all_represents resource_hash body_refs
    (keyed (upserts v1 (resource_hashes v0))) (resources_of v0) (committed c) [] ∅ Hs0 Hrep)
    as (st1 & d1 & -> & Hrep1 & _).
  { rewrite keyed_fst. apply NoDup_fst_filter, btree_iter_NoDup. }
  { intros k r Hin. split; [set_solver|]. apply list_elem_of_fmap in Hin as ([k' e] & [= -> ->] & Hin).
    apply upserts_elem in Hin as [He _]. apply Hs1. unfold resources_of. by rewrite lookup_fmap, He. }
  cbn. destruct (remove_all_represents resource_hash body_refs
    (list_to_set (keyed (upserts v1 (resource_hashes v0))).*1 ∪ ∅)
    (tombstones v1 (resource_hashes v0)) _ st1 d1 Hrep1) as (st2 & d2 & -> & Hrep2).
  { intros k Hk%tombstones_elem. destruct Hk as [Hn [h Hh]]. split.
    - rewrite keyed_fst. intros Hin. apply elem_of_union in Hin as [Hin|Hin]; [|set_solver].
      apply elem_of_list_to_set, list_elem_of_fmap in Hin as ([k' e] & -> & Hin).
      apply upserts_elem in Hin as [? _]. cbn in Hn. congruence.
    - rewrite (vo_hashes v0 Hv0), lookup_fmap in Hh.
      destruct (view_resources v0 !! k) as [e|] eqn:Ev0; [|done].
      destruct (Hs0 k (resource e)) as (p & s & Hsv).
      { unfold resources_of. by rewrite lookup_fmap, Ev0. }
      exists s. by eapply servable_slot. }
  rewrite delta_resources in Hrep2 by done.
  exists st2, d2. split; [done|]. split; [|done].
  by rewrite (represents_unique _ _ _ _ _ Hrep2 Hst).
Qed.

(** ** Convergence *)

(** No staged image of the view fails to compile. *)
Definition view_compiles v : Prop :=
  ∀ c st dirty, represents resource_hash body_refs (resources_of v) st →
    compile_error c st dirty = None.

Lemma represents_hashes v st :
  view_ok v → represents resource_hash body_refs (resources_of v) st →
  digests st = resource_hashes v.
Proof.
  intros Hv Hst. rewrite (rep_digests _ _ _ _ Hst), (vo_hashes v Hv). unfold resources_of.
  rewrite <-map_fmap_compose. apply map_fmap_ext. intros k e He. cbn.
  symmetry. by apply (vo_entry v Hv k).
Qed.

(** A client accepts a full snapshot at any time. *)
Lemma full_accepted v c ef :
  view_servable v → view_compiles v → ∃ c', apply_msg c (full_message v) ef true = Ok c'.
Proof.
  intros Hvs Hc. destruct (stage_full_view v Hvs) as (st & Hfull & Hst).
  destruct Hvs as [Hv _]. unfold apply_message. cbn [full full_message negb andb].
  change (mkSnapshot _ _ _ _ _) with (full_message v). rewrite Hfull. cbn.
  rewrite (represents_hashes v st Hv Hst), <-(vo_version v Hv), bool_decide_eq_true_2 by done. cbn.
  destruct (has_full c && _); [eauto|]. rewrite Hc by done. eauto.
Qed.

Section converge.
Context (node : str) (scope : Scope) (allowed : bool) (now : Z) (v : @MaterializedView B).
Context (Hserved : served_view v) (Hservable : view_servable v) (Hcompiles : view_compiles v).

Notation deliver_s := (deliver resource_hash sha256_hex body_refs compile_error).
Notation serve_s := (serve_all node scope allowed now v).
Notation round_s := (round resource_hash sha256_hex body_refs compile_error node scope allowed now v).

Lemma serve_report s msg msgs :
  up s = msg :: msgs → is_report msg = true →
  (serve node scope allowed now v s).1 = mkSystem (server s) (down s) msgs (client s).
Proof. intros Hup Hr. unfold serve. rewrite Hup. by destruct msg; cbn; rewrite ?app_nil_r. Qed.

Lemma serve_all_quiet n : ∀ s : Sys,
  length (up s) = n → replies s = [] →
  serve_s n s = mkSystem (server s) (down s) [] (client s).
Proof.
  induction n as [|n IH]; intros s Hn Hr; cbn [serve_all].
  - destruct s as [? ? [|] ?]; done.
  - destruct (up s) as [|msg msgs] eqn:Hup; [done|]. unfold replies in Hr. rewrite Hup in Hr.
    destruct (is_report msg) eqn:Em; [|by rewrite filter_cons_True in Hr by done].
    rewrite filter_cons_False in Hr by by rewrite Em.
    rewrite (serve_report s msg msgs Hup Em), IH; [done|by injection Hn|done].
Qed.

(** Serving a queue with one answer in it handles that answer. *)
Lemma serve_all_reply n : ∀ (s : Sys) r,
  length (up s) = n → replies s = [r] →
  serve_s n s =
    let '(st, _, ms) := handle_message node scope allowed now v r (server s) in
    mkSystem st (down s ++ ms) [] (client s).
Proof.
  induction n as [|n IH]; intros s r Hn Hr; cbn [serve_all].
  - unfold replies in Hr. by destruct (up s).
  - destruct (up s) as [|msg msgs] eqn:Hup; [done|]. unfold replies in Hr. rewrite Hup in Hr.
    destruct (is_report msg) eqn:Em.
    + rewrite filter_cons_False in Hr by by rewrite Em.
      rewrite (serve_report s msg msgs Hup Em), (IH _ r); [done|by injection Hn|done].
    + rewrite filter_cons_True in Hr by done. injection Hr as -> Hr.
      unfold serve. rewrite Hup.
      destruct (handle_message node scope allowed now v r (server s)) as [[st ops] ms].
      cbn [fst]. by rewrite serve_all_quiet; [|by injection Hn|].
Qed.

(** Both ends are at [v] with nothing outstanding. *)
Definition settled (s : Sys) : Prop :=
  pending (server s) = None ∧ in_flight (server s) = None ∧ down s = [] ∧ replies s = [] ∧
  acked_resources (server s) = Some (resource_hashes v) ∧ held s = resource_hashes v.

(** A message that brings the client to [v] is on its way. *)
Definition sent_v (m : Snapshot B) (s : Sys) : Prop :=
  pending (server s) = Some (world_of v) ∧ down s = [m] ∧ replies s = [] ∧
  built_for v m s ∧ base_held s.

Lemma push_settles (st st' : StreamState) (ops : list RegistryOp) (ms : list (Snapshot B))
    (cl : Client) :
  pending st = None → in_flight st = None →
  (∀ base, acked_resources st = Some base → digests (committed (cache cl)) = base) →
  push_or_advance node now v st = (st', ops, ms) →
  settled (mkSystem st' ms [] cl) ∨ ∃ m, sent_v m (mkSystem st' ms [] cl).
Proof.
  intros Hp Hi Hb. unfold push_or_advance, push_if_changed.
  destruct (build_outbound v (acked_resources st)) as [[m w]|] eqn:E.
  - destruct (build_outbound_world _ _ _ _ E) as (-> & _ & _). intros [= <- <- <-].
    right. exists m. split_and!; try done. exists (acked_resources st). auto.
  - apply build_outbound_None in E; [|apply Hservable]. intros [= <- <- <-].
    left. split_and!; try done. by apply Hb.
Qed.

Lemma ack_settles (s : Sys) w :
  pending (server s) = Some w → down s = [] → held s = world_resources w →
  let '(st, _, ms) := handle_message node scope allowed now v (CAck (world_version w)) (server s) in
  settled (mkSystem st (down s ++ ms) [] (client s)) ∨
  ∃ m, sent_v m (mkSystem st (down s ++ ms) [] (client s)).
Proof.
  intros Hp Hd Hh. cbn [handle_message]. unfold handle_ack.
  rewrite Hp, bool_decide_eq_true_2 by done. cbn [in_flight]. rewrite Hd. cbn [app].
  destruct (push_or_advance node now v _) as [[st' ops'] ms] eqn:E.
  eapply push_settles; [| | |exact E]; [done|done|]. by intros base [= <-].
Qed.

(** Once the server's baseline is [v] itself, an acknowledgement ends the exchange. *)
Lemma ack_done (s : Sys) :
  pending (server s) = Some (world_of v) → down s = [] → held s = resource_hashes v →
  let '(st, _, ms) := handle_message node scope allowed now v (CAck (view_version v)) (server s) in
  settled (mkSystem st (down s ++ ms) [] (client s)).
Proof.
  intros Hp Hd Hh. cbn [handle_message]. unfold handle_ack.
  rewrite Hp, bool_decide_eq_true_2 by done. cbn [in_flight]. rewrite Hd. cbn [app].
  unfold push_or_advance, push_if_changed. cbn [acked_resources world_resources world_of].
  destruct (build_outbound v _) as [[m w]|] eqn:E; [|done]. exfalso. cbn in E.
  assert (upserts v (resource_hashes v) = []) as Hu.
  { apply elem_of_nil_inv. intros [k e] [He Hne]%upserts_elem. apply Hne.
    by rewrite (vo_hashes v (proj1 Hservable)), lookup_fmap, He. }
  assert (tombstones v (resource_hashes v) = []) as Ht.
  { apply elem_of_nil_inv. intros k [Hn [h Hh']]%tombstones_elem.
    by rewrite (vo_hashes v (proj1 Hservable)), lookup_fmap, Hn in Hh'. }
  by rewrite Hu, Ht in E.
Qed.

Lemma nack_resends (s : Sys) ver :
  down s = [] → base_held s →
  let '(st, _, ms) := handle_message node scope allowed now v (CNack ver) (server s) in
  sent_v (full_message v) (mkSystem st (down s ++ ms) [] (client s)).
Proof.
  intros Hd Hb. rewrite Hd. split_and!; try done. exists None. auto.
Qed.

Lemma deliver_idle (s : Sys) : down s = [] → deliver_s s = s.
Proof. intros Hd. unfold deliver. by rewrite Hd. Qed.

(** A round with an answer on its way. *)
Lemma round_reply s r :
  down s = [] → replies s = [r] →
  round_s s = let '(st, _, ms) := handle_message node scope allowed now v r (server s) in
              mkSystem st (down s ++ ms) [] (client s).
Proof. intros Hd Hr. unfold round. rewrite deliver_idle by done. by apply serve_all_reply. Qed.

(** A round with a message on its way is one with the answer to it. *)
Lemma round_deliver s r :
  down (deliver_s s) = [] → replies (deliver_s s) = [r] →
  round_s s = round_s (deliver_s s).
Proof. intros Hd Hr. unfold round. by rewrite (deliver_idle (deliver_s s)). Qed.

Lemma round_settled s : settled s → settled (round_s s).
Proof.
  intros (Hp & Hi & Hd & Hr & Ha & Hh). unfold round. rewrite deliver_idle by done.
  rewrite serve_all_quiet by done. by rewrite Hd.
Qed.

Lemma round_acked s w :
  pending (server s) = Some w → down s = [] → replies s = [CAck (world_version w)] →
  held s = world_resources w → settled (round_s s) ∨ ∃ m, sent_v m (round_s s).
Proof.
  intros Hp Hd Hr Hh. rewrite (round_reply s _ Hd Hr).
  pose proof (ack_settles s w Hp Hd Hh) as H.
  by destruct (handle_message _ _ _ _ _ _ _) as [[st ops] ms].
Qed.

Lemma round_nacked s ver :
  down s = [] → replies s = [CNack ver] → base_held s → sent_v (full_message v) (round_s s).
Proof.
  intros Hd Hr Hb. rewrite (round_reply s _ Hd Hr).
  pose proof (nack_resends s ver Hd Hb) as H.
  by destruct (handle_message _ _ _ _ _ _ _) as [[st ops] ms].
Qed.

(** Whatever is on its way, a round ends with [v] settled or on its way. *)
Lemma round_busy s :
  phase s → in_flight (server s) ≠ None → settled (round_s s) ∨ ∃ m, sent_v m (round_s s).
Proof.
  intros [Hp Hi Hd Hr Hb|v' m Hs Hp Hi Hd Hr Hbf Hb|v' Hs Hp Hi Hd Hr Hh|v' ver Hp Hi Hd Hr Hb] Hne;
    [done|..].
  - destruct (deliver_sent v' m s (served_ok v' Hs) Hd Hr Hbf Hb)
      as (Es & Ed' & [[Hr' Hh]|(Hr' & Ec & _)]); rewrite (round_deliver s _ Ed' Hr').
    + apply (round_acked _ (world_of v')); rewrite ?Es; done.
    + right. eexists. eapply round_nacked; [done|done|]. unfold base_held. by rewrite Es, Ec.
  - by apply (round_acked _ (world_of v')).
  - right. eexists. by eapply round_nacked.
Qed.

(** With a message for [v] on its way, only a rejection, which a full snapshot does
    not meet, keeps the round from settling. *)
Lemma round_sent_v s m :
  sent_v m s → settled (round_s s) ∨ (m ≠ full_message v ∧ sent_v (full_message v) (round_s s)).
Proof.
  intros (Hp & Hd & Hr & Hbf & Hb).
  destruct (deliver_sent v m s (proj1 Hservable) Hd Hr Hbf Hb)
    as (Es & Ed' & [[Hr' Hh]|(Hr' & Ec & Hrej)]); rewrite (round_deliver s _ Ed' Hr').
  - left. rewrite (round_reply _ _ Ed' Hr').
    pose proof (ack_done (deliver_s s)) as H. rewrite Es in H |- *. specialize (H Hp Ed' Hh).
    by destruct (handle_message _ _ _ _ _ _ _) as [[st ops] ms].
  - right. split.
    + intros ->. destruct (full_accepted v (cache (client s)) (expect_full (client s))
        Hservable Hcompiles) as [c' Hc']. by apply (Hrej c').
    + eapply round_nacked; [done|done|]. unfold base_held. by rewrite Es, Ec.
Qed.

Lemma rebuild_starts s :
  phase s →
  let s' := (rebuild node now v s).1 in
  settled s' ∨ (∃ m, sent_v m s') ∨ (phase s' ∧ in_flight (server s') ≠ None).
Proof.
  intros Hph. unfold rebuild, handle_rebuild. destruct (in_flight (server s)) as [f|] eqn:Ef.
  - cbn. rewrite app_nil_r. right. right. split; [by eapply phase_ext, Hph|by rewrite Ef].
  - destruct Hph as [Hp Hi Hd Hr Hb| | |]; [|congruence..].
    destruct (push_or_advance node now v (server s)) as [[st' ops] ms] eqn:E.
    cbn. rewrite Hd. cbn.
    destruct (push_settles _ _ _ _ (client s) Hp Hi Hb E) as [(H1 & H2 & H3 & _ & H4 & H5)|(m & H1 & H2 & _ & H4 & H5)].
    + left. done.
    + right. left. by exists m.
Qed.

(** C3: The proxy converges.  From any reachable state of a session, once the world
    stays at a view that a client can serve and compile, the next rebuild tick and
    three exchanges (the client takes a message, the server takes the answers)
    leave the client's cache equal to that view and nothing in flight; whatever was
    in flight before and even if the client rejects a delta. *)
Theorem stream_converges s :
  reach node scope s →
  settled (round_s (round_s (round_s (rebuild node now v s).1))).
Proof.
  intros Hr%reach_phase.
  assert (∀ s, settled s → settled (round_s (round_s (round_s s)))) as H0.
  { intros s' H. by do 3 apply round_settled. }
  assert (∀ s m, sent_v m s → settled (round_s (round_s s))) as H2.
  { intros s' m Hm. destruct (round_sent_v s' m Hm) as [H|[_ H]]; [by apply round_settled|].
    by destruct (round_sent_v _ _ H) as [?|[? _]]. }
  destruct (rebuild_starts s Hr) as [H|[[m H]|[H Hf]]].
  - by apply H0.
  - eapply round_settled, H2, H.
  - destruct (round_busy _ H Hf) as [H'|[m H']]; [by do 2 apply round_settled|]. by eapply H2.
Qed.

End converge.

End facts.
