(* ===== verification/StreamDemo.v ===== *)
(** * A concrete session

    Two small worlds of TLS ports, with a concrete hash and a compiler that accepts
    everything: the hypotheses of the theorems on the cache and on the stream hold
    there. *)

From S2P Require Import Prelude Health NodeRegistry HealthWire Roster.
From S2P Require Import ResourceKey ResourceKeyFacts Apply ApplyFacts Stream StreamFacts.

Module StreamDemo.

(** The body of a message is a number, and the hash of a resource spells it. *)
Definition demo_hash (r : Resource Z) : str :=
  match payload r with Some (TlsPort port b) => decimal port ++ lit ":" ++ decimal b | _ => [] end.
Definition demo_sha (s : str) : str := s.
Definition demo_refs (b : Z) : gset (str * str * Z) := ∅.
Definition demo_compile (c : ResourceCache Z) (s : Staged Z) (d : list Cell) : option WireError :=
  None.

Definition tls (port body : Z) : Resource Z := mkResource (Some (TlsPort port body)) [] [].

Definition view0 : MaterializedView := fold_resources demo_hash demo_sha [tls 443 1; tls 8443 2] 4.
Definition view1 : MaterializedView := fold_resources demo_hash demo_sha [tls 443 3; tls 9443 2] 5.

Lemma view0_served : served demo_hash demo_sha view0.
Proof. constructor. Qed.
Lemma view1_served : served demo_hash demo_sha view1.
Proof. constructor. Qed.

Lemma tls_servable port b :
  (0 ≤ port ≤ u16_max)%Z → servable (tls port b) (lit "tls|" ++ decimal port) (TlsPort port b) (STls port).
Proof.
  intros Hp. split_and!; try done.
  - cbn. unfold port_u16. destruct (Z.leb_spec 0 port); [|lia].
    destruct (Z.leb_spec port u16_max); [done|lia].
  - intros pk [= <-]. exact Hp.
Qed.

(** The entries of a concrete map, listed. *)
Ltac list_entries H :=
  apply elem_of_map_to_list in H; vm_compute in H;
  repeat (apply elem_of_cons in H as [[= -> ->]|H]); [..|by apply not_elem_of_nil in H].

Lemma view0_servable : view_servable demo_hash demo_sha view0.
Proof.
  split; [apply served_ok, view0_served|]. intros k r Hk. list_entries Hk.
  - exists (TlsPort 443 1%Z), (STls 443). apply (tls_servable 443 1). unfold u16_max. lia.
  - exists (TlsPort 8443 2%Z), (STls 8443). apply (tls_servable 8443 2). unfold u16_max. lia.
Qed.

Lemma view1_servable : view_servable demo_hash demo_sha view1.
Proof.
  split; [apply served_ok, view1_served|]. intros k r Hk. list_entries Hk.
  - exists (TlsPort 443 3%Z), (STls 443). apply (tls_servable 443 3). unfold u16_max. lia.
  - exists (TlsPort 9443 2%Z), (STls 9443). apply (tls_servable 9443 2). unfold u16_max. lia.
Qed.

(** The client's cache after a full snapshot of [view0]. *)
Definition staged0 : Staged Z :=
  match stage_full demo_hash demo_refs (full_message view0) with Ok s => s | Err _ => empty_staged end.
Definition cache0 : ResourceCache Z := mkCache staged0 ∅ true.

Lemma staged0_represents : represents demo_hash demo_refs (resources_of view0) staged0.
Proof.
  destruct (stage_full_view demo_hash demo_sha demo_refs view0 view0_servable) as (st & Hfull & Hst).
  unfold staged0. by rewrite Hfull.
Qed.

Lemma demo_collision_free : collision_free demo_hash view0 view1.
Proof.
  intros k r0 r1 H0 H1 Hh.
  list_entries H0; vm_compute in H1; try done; simplify_eq; by vm_compute in Hh.
Qed.

Definition delta01 : Snapshot Z :=
  match build_outbound view1 (Some (resource_hashes view0)) with
  | Some (m, _) => m | None => full_message view1 end.

(** That delta staged onto the cache, with the cells it dirtied. *)
Definition staged01 : Staged Z * list Cell :=
  match stage_delta demo_hash demo_refs cache0 delta01 with
  | Ok p => p | Err _ => (empty_staged, []) end.

Lemma delta01_staged : stage_delta demo_hash demo_refs cache0 delta01 = Ok (staged01.1, staged01.2).
Proof.
  unfold staged01. assert (∃ p, stage_delta demo_hash demo_refs cache0 delta01 = Ok p) as [[st d] ->];
    [|done]. eexists. vm_compute. reflexivity.
Qed.

(** A session: opened at [view0], delivered, and then answered at [view1]. *)
Definition node : str := lit "proxy".
Definition opened : System := (open_session node 1 view0 boot).1.
Definition delivered : System := deliver demo_hash demo_sha demo_refs demo_compile opened.
Definition answered : System * list RegistryOp :=
  serve node ScSharedPool true 2 view1 delivered.

Lemma delivered_reachable :
  reachable demo_hash demo_sha demo_refs demo_compile node ScSharedPool delivered.
Proof.
  apply (reach_step _ _ _ _ _ _ opened []); [|constructor].
  apply (reach_step _ _ _ _ _ _ boot (open_session node 1 view0 boot).2); [constructor|].
  apply (step_open _ _ _ _ _ _ 1 view0); [apply view0_served|done].
Qed.

End StreamDemo.
Import StreamDemo.

Lemma accepted_message_sound_witness :
  version_of demo_sha (digests staged0) = view_version view0.
Proof.
  destruct (accepted_message_sound demo_hash demo_sha demo_refs demo_compile new_cache
    (full_message view0) true true (mkCache staged0 (build_ep_index (refs staged0)) true))
    as (_ & Hver & _); [vm_compute; reflexivity|].
  exact (Hver eq_refl).
Defined.

Lemma dirty_cells_sound_witness :
  same_outside staged01.2 staged0 staged01.1 ∧
  slots staged01.1 !! STcp 80 = slots staged0 !! STcp 80.
Proof.
  pose proof (dirty_cells_sound demo_hash demo_refs cache0 delta01 staged01.1 staged01.2
    delta01_staged) as H.
  split; [exact H|]. apply (H (STcp 80) CTcp eq_refl).
  apply (bool_decide_unpack _). vm_compute. reflexivity.
Defined.


Lemma one_in_flight_witness :
  length (down delivered) + length (replies delivered) = 1 ∧
  in_flight (server delivered) = world_version <$> pending (server delivered).
Proof.
  exact (one_in_flight demo_hash demo_sha demo_refs demo_compile node ScSharedPool delivered
           delivered_reachable).
Defined.

Lemma delta_equals_full_witness :
  ∃ st dirty,
    stage_delta demo_hash demo_refs cache0 delta01 = Ok (st, dirty) ∧
    stage_full demo_hash demo_refs (full_message view1) = Ok st ∧
    represents demo_hash demo_refs (resources_of view1) st.
Proof.
  apply (delta_equals_full demo_hash demo_sha demo_refs view0 view1 cache0 delta01 (world_of view1)).
  - apply view0_servable.
  - apply view1_servable.
  - apply demo_collision_free.
  - apply staged0_represents.
  - vm_compute. reflexivity.
Defined.

Lemma stream_converges_witness :
  settled view1
    (round demo_hash demo_sha demo_refs demo_compile node ScSharedPool true 9 view1
      (round demo_hash demo_sha demo_refs demo_compile node ScSharedPool true 9 view1
        (round demo_hash demo_sha demo_refs demo_compile node ScSharedPool true 9 view1
          (rebuild node 9 view1 delivered).1))).
Proof.
  apply (stream_converges demo_hash demo_sha demo_refs demo_compile node ScSharedPool true 9 view1).
  - apply view1_servable.
  - by intros c st dirty _.
  - apply delivered_reachable.
Defined.
