(* ===== verification/Identity.v ===== *)
(** * SPIFFE identities

    Models [SpiffeId] of [crates/coxswain-core/src/identity.rs] with its byte
    offsets, the mapping of a reviewed token to an identity in
    [crates/coxswain-controller/src/identity/token_review.rs], and the matching of
    certificate names in [crates/coxswain-discovery/src/auth.rs].  A panic is
    [None]. *)

From S2P Require Import Prelude ResourceKey ResourceKeyFacts.

(** ** [SpiffeId] *)

Inductive SpiffeIdError := InvalidFormat | EmptyTrustDomain.

Record SpiffeOffsets := mkOffsets {
  trust_domain_start : nat;
  trust_domain_end : nat;
  ns_start : nat;
  ns_end : nat;
  sa_start : nat;
}.

Record SpiffeId := mkSpiffeId { uri : str; offsets : SpiffeOffsets }.

Definition scheme : str := lit "spiffe://".

Definition parse_spiffe_offsets (s : str) : result SpiffeOffsets SpiffeIdError :=
  match strip_prefix scheme s with
  | None => Err InvalidFormat
  | Some rest =>
      match split_once fslash rest with
      | None => Err InvalidFormat
      | Some ([], _) => Err EmptyTrustDomain
      | Some (td, after_td) =>
          match strip_prefix (lit "ns/") after_td with
          | None => Err InvalidFormat
          | Some after_ns_kw =>
              match split_once fslash after_ns_kw with
              | None | Some ([], _) => Err InvalidFormat
              | Some (ns, after_ns) =>
                  match strip_prefix (lit "sa/") after_ns with
                  | None | Some [] => Err InvalidFormat
                  | Some sa =>
                      let td_start := length scheme in
                      let td_end := td_start + length td in
                      let n_start := td_end + length (lit "/ns/") in
                      let n_end := n_start + length ns in
                      Ok (mkOffsets td_start td_end n_start n_end (n_end + length (lit "/sa/")))
                  end
              end
          end
      end
  end.

Definition spiffe_parse (s : str) : result SpiffeId SpiffeIdError :=
  o <-? parse_spiffe_offsets s ;; Ok (mkSpiffeId s o).

(** [&s[a..b]] *)
Definition slice (a b : nat) (s : str) : str := take (b - a) (drop a s).

Definition trust_domain (id : SpiffeId) : str :=
  slice (trust_domain_start (offsets id)) (trust_domain_end (offsets id)) (uri id).
Definition namespace (id : SpiffeId) : str :=
  slice (ns_start (offsets id)) (ns_end (offsets id)) (uri id).
Definition service_account (id : SpiffeId) : str := drop (sa_start (offsets id)) (uri id).

Definition spiffe_uri (td ns sa : str) : str :=
  lit "spiffe://" ++ td ++ lit "/ns/" ++ ns ++ lit "/sa/" ++ sa.

(** [SpiffeId::from_parts]: the panic of its [unwrap_or_else] is [None]. *)
Definition from_parts (td ns sa : str) : option SpiffeId :=
  match spiffe_parse (spiffe_uri td ns sa) with Ok id => Some id | Err _ => None end.

(** ** Token reviews *)

Record TokenReviewStatus := mkReview {
  tr_error : option str;
  tr_authenticated : option bool;
  tr_username : option str;
}.

Inductive AuthnError := Unauthenticated | ApiError | InvalidPrincipal.

Definition colon : ascii := ":".

Definition sa_username_to_spiffe_id (username td : str) : option (result SpiffeId AuthnError) :=
  match strip_prefix (lit "system:serviceaccount:") username with
  | None => Some (Err InvalidPrincipal)
  | Some rest =>
      match split_once colon rest with
      | None => Some (Err InvalidPrincipal)
      | Some ([], _) | Some (_, []) => Some (Err InvalidPrincipal)
      | Some (ns, sa) => match from_parts td ns sa with Some id => Some (Ok id) | None => None end
      end
  end.

Definition parse_token_review_status (status : option TokenReviewStatus) (td : str)
    : option (result SpiffeId AuthnError) :=
  match status with
  | None => Some (Err ApiError)
  | Some st =>
      match tr_error st with
      | Some (_ :: _) => Some (Err Unauthenticated)
      | _ =>
          if negb (default false (tr_authenticated st)) then Some (Err Unauthenticated)
          else sa_username_to_spiffe_id (default [] (tr_username st)) td
      end
  end.

(** ** Certificate names *)

Inductive SpiffeMatcher :=
| Exactly (s : str)
| Prefix (p : str).

Definition spiffe_matches (m : SpiffeMatcher) (u : str) : bool :=
  match m with
  | Exactly s => bool_decide (u = s)
  | Prefix p => starts_with p u
  end.

(** [PeerSvid]: the URI names of the peer's certificate. *)
Record PeerSvid := mkPeerSvid { uri_sans : list str }.

Fixpoint join_commas (l : list str) : str :=
  match l with
  | [] => []
  | [s] => s
  | s :: l => s ++ lit "," ++ join_commas l
  end.

Definition fingerprint (p : PeerSvid) : str := join_commas (sort_by str_leb (uri_sans p)).

(** Some name parses to an identity that satisfies the test. *)
Definition any_identity (test : SpiffeId → bool) (sans : list str) : bool :=
  existsb (λ u, match spiffe_parse u with Ok id => test id | Err _ => false end) sans.

Definition svid_matches_dedicated_gateway (sans : list str) (ns expected_sa : str) : bool :=
  any_identity (λ id, bool_decide (namespace id = ns) &&
                      bool_decide (service_account id = expected_sa)) sans.

(** ** Facts *)

Record parts_ok (td ns sa : str) : Prop := {
  po_td : td ≠ [] ∧ fslash ∉ td;
  po_ns : ns ≠ [] ∧ fslash ∉ ns;
  po_sa : sa ≠ [];
}.

Lemma slice_app (a b c : str) (n m : nat) (s : str) :
  s = a ++ b ++ c → n = length a → m = n + length b → slice n m s = b.
Proof.
  intros -> -> ->. unfold slice.
  by rewrite drop_app_length, Nat.add_comm, Nat.add_sub, take_app_length.
Qed.

Definition spiffe_offsets (td ns : str) : SpiffeOffsets :=
  mkOffsets 9 (9 + length td) (9 + length td + 4) (9 + length td + 4 + length ns)
    (9 + length td + 4 + length ns + 4).

(** The offsets of a well-formed name select its parts. *)
Lemma spiffe_slices td ns sa :
  let id := mkSpiffeId (spiffe_uri td ns sa) (spiffe_offsets td ns) in
  trust_domain id = td ∧ namespace id = ns ∧ service_account id = sa.
Proof.
  unfold trust_domain, namespace, service_account, spiffe_uri, spiffe_offsets.
  cbn [uri offsets trust_domain_start trust_domain_end ns_start ns_end sa_start].
  split_and!.
  - by apply (slice_app (lit "spiffe://") td (lit "/ns/" ++ ns ++ lit "/sa/" ++ sa)).
  - apply (slice_app (lit "spiffe://" ++ td ++ lit "/ns/") ns (lit "/sa/" ++ sa)); [|..|done].
    + by rewrite <-!app_assoc.
    + rewrite !length_app. cbn. lia.
  - replace (9 + length td + 4 + length ns + 4)
      with (length (lit "spiffe://" ++ td ++ lit "/ns/" ++ ns ++ lit "/sa/"))
      by (rewrite !length_app; cbn; lia).
    replace (lit "spiffe://" ++ td ++ lit "/ns/" ++ ns ++ lit "/sa/" ++ sa)
      with ((lit "spiffe://" ++ td ++ lit "/ns/" ++ ns ++ lit "/sa/") ++ sa)
      by by rewrite <-!app_assoc.
    apply drop_app_length.
Qed.

Lemma spiffe_parse_sound s id :
  spiffe_parse s = Ok id →
  ∃ td ns sa, s = spiffe_uri td ns sa ∧ parts_ok td ns sa ∧ uri id = s ∧
    trust_domain id = td ∧ namespace id = ns ∧ service_account id = sa.
Proof.
  unfold spiffe_parse, parse_spiffe_offsets.
  destruct (strip_prefix scheme s) as [rest|] eqn:E1; [|done]. apply strip_prefix_Some in E1 as ->.
  destruct (split_once fslash rest) as [[td after]|] eqn:E2; [|done].
  destruct td as [|x td]; [done|]. apply split_once_Some in E2 as [-> Htd].
  destruct (strip_prefix (lit "ns/") after) as [r2|] eqn:E3; [|done].
  apply strip_prefix_Some in E3 as ->.
  destruct (split_once fslash r2) as [[ns after]|] eqn:E4; [|done].
  destruct ns as [|y ns]; [done|]. apply split_once_Some in E4 as [-> Hns].
  destruct (strip_prefix (lit "sa/") after) as [sa|] eqn:E5; [|done].
  destruct sa as [|z sa]; [done|]. apply strip_prefix_Some in E5 as ->.
  intros [= <-]. exists (x :: td), (y :: ns), (z :: sa).
  split; [done|]. split; [split; [done|done|done]|]. split; [done|].
  exact (spiffe_slices (x :: td) (y :: ns) (z :: sa)).
Qed.

Lemma spiffe_parse_complete td ns sa :
  parts_ok td ns sa →
  ∃ id, spiffe_parse (spiffe_uri td ns sa) = Ok id ∧ uri id = spiffe_uri td ns sa ∧
    trust_domain id = td ∧ namespace id = ns ∧ service_account id = sa.
Proof.
  intros [[Htd Htd'] [Hns Hns'] Hsa].
  exists (mkSpiffeId (spiffe_uri td ns sa) (spiffe_offsets td ns)).
  split; [|split; [done|apply spiffe_slices]].
  unfold spiffe_parse, parse_spiffe_offsets, spiffe_uri.
  rewrite (proj2 (strip_prefix_Some scheme _ _) eq_refl).
  change (lit "/ns/" ++ ns ++ lit "/sa/" ++ sa) with (fslash :: (lit "ns/" ++ ns ++ lit "/sa/" ++ sa)).
  rewrite split_once_app by done. destruct td as [|x td]; [done|].
  rewrite (proj2 (strip_prefix_Some (lit "ns/") _ _) eq_refl).
  change (lit "/sa/" ++ sa) with (fslash :: (lit "sa/" ++ sa)).
  rewrite split_once_app by done. destruct ns as [|y ns]; [done|].
  rewrite (proj2 (strip_prefix_Some (lit "sa/") _ _) eq_refl).
  by destruct sa as [|z sa].
Qed.

(** The SPIFFE name grammar, as the parser implements it: a name is accepted
    exactly when it is [spiffe://td/ns/ns/sa/sa] with a non-empty trust domain and
    namespace without slashes and a non-empty service account, and then the three
    getters, which cut the name at precomputed offsets, return those parts. *)
Theorem spiffe_parse_iff s td ns sa :
  (∃ id, spiffe_parse s = Ok id ∧ trust_domain id = td ∧ namespace id = ns ∧
         service_account id = sa) ↔
  s = spiffe_uri td ns sa ∧ parts_ok td ns sa.
Proof.
  split.
  - intros (id & Hp & Htd & Hns & Hsa).
    apply spiffe_parse_sound in Hp as (td' & ns' & sa' & -> & Hok & _ & <- & <- & <-).
    by rewrite <-Htd, <-Hns, <-Hsa.
  - intros [-> Hok]. apply spiffe_parse_complete in Hok as (id & ? & _ & ?). eauto.
Qed.

(** Building a name from its parts is not total, and not always faithful: an empty
    part makes [from_parts] panic, and a namespace that contains a slash yields an
    identity with another namespace. *)
Theorem from_parts_not_total :
  from_parts (lit "cluster.local") [] (lit "proxy") = None ∧
  ∃ id, from_parts (lit "cluster.local") (lit "a/sa/admin") (lit "x") = Some id ∧
    namespace id = lit "a" ∧ service_account id = lit "admin/sa/x".
Proof. split; [reflexivity|]. eexists. split; [reflexivity|]. split; reflexivity. Qed.

Lemma from_parts_ok td ns sa :
  parts_ok td ns sa →
  ∃ id, from_parts td ns sa = Some id ∧ uri id = spiffe_uri td ns sa ∧
    trust_domain id = td ∧ namespace id = ns ∧ service_account id = sa.
Proof.
  intros Hok. apply spiffe_parse_complete in Hok as (id & Hp & ?).
  exists id. unfold from_parts. by rewrite Hp.
Qed.

Lemma any_identity_true test sans :
  any_identity test sans = true ↔
  ∃ u id, u ∈ sans ∧ spiffe_parse u = Ok id ∧ test id = true.
Proof.
  unfold any_identity. rewrite existsb_exists. setoid_rewrite <-list_elem_of_In. split.
  - intros (u & Hu & Ht). destruct (spiffe_parse u) as [id|] eqn:E; [|done]. eauto.
  - intros (u & id & Hu & Hp & Ht). exists u. by rewrite Hp.
Qed.
