(* ===== verification/Upstream.v ===== *)
(** * Routing-stream upstreams

    Models which server a node streams its routing from: the controller's resolver
    ([UpstreamResolverConfig] of [crates/coxswain-discovery/src/bootstrap_server.rs]),
    the directives a stream pushes ([seed_or_push_upstream] of [server/stream.rs]),
    the node's own policy ([crates/coxswain-discovery/src/upstream.rs]) and the
    client's repoint ([apply_repoint] of [client.rs]).

    [http::Uri] is an interface: the scheme and the host of a parsed URI. *)

From S2P Require Import Prelude ResourceKey ResourceKeyFacts Health NodeRegistry Roster Identity.

Record Uri := mkUri { scheme_str : option str; uri_host : option str }.

Class UriLib := { parse_uri : str → option Uri }.

(** ** Service DNS *)

Definition dot : ascii := ".".

(** [str::split] on a character: at least one part. *)
Fixpoint split_on (c : ascii) (s : str) : list str :=
  match s with
  | [] => [[]]
  | x :: s =>
      if Ascii.eqb x c then [] :: split_on c s
      else match split_on c s with
           | part :: parts => (x :: part) :: parts
           | [] => [[x]]
           end
  end.

Record ServiceDns := mkServiceDns {
  service : str;
  dns_namespace : str;
  ends_at_cluster_domain : bool;
  is_https : bool;
}.

Section upstream.
Context `{UriLib}.

Definition service_dns_parts (ep : str) : option ServiceDns :=
  match parse_uri ep with
  | None => None
  | Some u =>
      match uri_host u with
      | None => None
      | Some host =>
          let host := default host (strip_suffix (lit ".") host) in
          match split_on dot host with
          | (_ :: _) as svc :: (_ :: _) as ns :: third :: suffix =>
              if bool_decide (third = lit "svc") then
                Some (mkServiceDns svc ns
                        (bool_decide (suffix = []) ||
                         bool_decide (suffix = [lit "cluster"; lit "local"]))
                        (bool_decide (scheme_str u = Some (lit "https"))))
              else None
          | _ => None
          end
      end
  end.

Definition namespace_from_service_dns (ep : str) : option str :=
  dns_namespace <$> service_dns_parts ep.

Definition expected_server_matcher (td ep sa fallback_namespace : str) : SpiffeMatcher :=
  Exactly (spiffe_uri td (default fallback_namespace (namespace_from_service_dns ep)) sa).

(** ** The node's policy *)

Record UpstreamTarget := mkTarget { endpoints : list str; expected_server : SpiffeMatcher }.

Inductive UpstreamRejection :=
| NotHttps | NotServiceDns | UnknownUpstream | ServiceAccountMismatch.

Record UpstreamNames := mkNames {
  controller_service : str;
  names_controller_sa : str;
  relay_name : str;
  shared_relay_name : str;
}.

Record LegalUpstream := mkLegal {
  legal_service : str;
  legal_namespace : str;
  legal_sa : str;
}.

Record UpstreamPolicy := mkPolicy { policy_trust_domain : str; legal : list LegalUpstream }.

Definition policy_new (td install_namespace pod_namespace : str) (names : UpstreamNames)
    : UpstreamPolicy :=
  mkPolicy td
    [mkLegal (controller_service names) install_namespace (names_controller_sa names);
     mkLegal (relay_name names) pod_namespace (relay_name names);
     mkLegal (shared_relay_name names) install_namespace (shared_relay_name names)].

Definition names_upstream (svc ns : str) (l : LegalUpstream) : bool :=
  bool_decide (legal_service l = svc) && bool_decide (legal_namespace l = ns).

Definition policy_resolve (p : UpstreamPolicy) (ep claimed_sa : str)
    : result UpstreamTarget UpstreamRejection :=
  match service_dns_parts ep with
  | None => Err NotServiceDns
  | Some parts =>
      if negb (is_https parts) then Err NotHttps
      else if negb (ends_at_cluster_domain parts) then Err NotServiceDns
      else
        match find_first (names_upstream (service parts) (dns_namespace parts)) (legal p) with
        | None => Err UnknownUpstream
        | Some l =>
            if bool_decide (claimed_sa = legal_sa l)
            then Ok (mkTarget [ep]
                       (Exactly (spiffe_uri (policy_trust_domain p) (legal_namespace l) (legal_sa l))))
            else Err ServiceAccountMismatch
        end
  end.

(** ** The client's repoint *)

Record ClientConfig := mkClientConfig {
  upstream_policy : option UpstreamPolicy;
  cfg_trust_domain : str;
  fallback_namespace : str;
}.

Definition resolve_directive (cfg : ClientConfig) (d : PreferredUpstream)
    : result UpstreamTarget UpstreamRejection :=
  match upstream_policy cfg with
  | Some p => policy_resolve p (endpoint d) (expected_server_sa d)
  | None =>
      Ok (mkTarget [endpoint d]
            (expected_server_matcher (cfg_trust_domain cfg) (endpoint d) (expected_server_sa d)
               (fallback_namespace cfg)))
  end.

Definition upstream_cell_points_at (cell : option UpstreamTarget) (t : UpstreamTarget) : bool :=
  match cell with Some current => bool_decide (endpoints current = endpoints t) | None => false end.

(** [apply_repoint] on a client with an upstream cell: the cell, and whether the
    stream must reconnect. *)
Definition apply_repoint (cfg : ClientConfig) (d : PreferredUpstream)
    (cell : option UpstreamTarget) : option UpstreamTarget * bool :=
  match endpoint d with
  | [] => (cell, false)
  | _ =>
      match resolve_directive cfg d with
      | Err _ => (cell, false)
      | Ok t => if upstream_cell_points_at cell t then (cell, false) else (Some t, true)
      end
  end.

End upstream.

(** ** The controller's resolver *)

Record ResolvedUpstream := mkResolved { r_endpoint : str; expected_sa : str }.

#[export] Instance ResolvedUpstream_eq_dec : EqDecision ResolvedUpstream.
Proof. solve_decision. Defined.

Record UpstreamResolverConfig := mkResolver {
  controller_endpoint : str;
  controller_sa : str;
  cfg_shared_relay_endpoint : str;
  cfg_shared_relay_sa : str;
  shared_relay_active : bool;
  relay_service_name : str;
  relay_port : Z;
  cfg_relay_sa : str;
  active_relays : gset str;
  resolver_trust_domain : str;
  resolver_install_namespace : str;
}.

Section resolver.
Context (c : UpstreamResolverConfig).

Definition controller_target : ResolvedUpstream :=
  mkResolved (controller_endpoint c) (controller_sa c).

Definition shared_relay_endpoint : ResolvedUpstream :=
  mkResolved (cfg_shared_relay_endpoint c) (cfg_shared_relay_sa c).

Definition namespace_relay_endpoint (ns : str) : ResolvedUpstream :=
  mkResolved
    (lit "https://" ++ relay_service_name c ++ lit "." ++ ns ++ lit ".svc:" ++ decimal (relay_port c))
    (cfg_relay_sa c).

Definition resolve_shared : ResolvedUpstream :=
  if shared_relay_active c then shared_relay_endpoint else controller_target.

Definition resolve_namespace (ns : str) : ResolvedUpstream :=
  if bool_decide (ns ∈ active_relays c) then namespace_relay_endpoint ns else controller_target.

Definition resolver_resolve (id : SpiffeId) (sc : Scope) : ResolvedUpstream :=
  if bool_decide (service_account id = cfg_relay_sa c)
     || bool_decide (service_account id = cfg_shared_relay_sa c)
  then controller_target
  else
    match sc with
    | ScSharedPool => resolve_shared
    | ScGateway _ ns | ScNamespace ns => resolve_namespace ns
    end.

Definition is_shared_relay (peer : option PeerSvid) : bool :=
  match peer with
  | None => false
  | Some p =>
      any_identity (λ id, bool_decide (trust_domain id = resolver_trust_domain c) &&
                          bool_decide (namespace id = resolver_install_namespace c) &&
                          bool_decide (service_account id = cfg_shared_relay_sa c)) (uri_sans p)
  end.

(** The baseline, the target and the forward namespace of a stream. *)
Definition upstream_triple (sc : Scope) (peer : option PeerSvid)
    : ResolvedUpstream * ResolvedUpstream * str :=
  match sc with
  | ScGateway _ ns => (controller_target, resolve_namespace ns, [])
  | ScNamespace ns => (namespace_relay_endpoint ns, resolve_namespace ns, ns)
  | ScSharedPool =>
      (if is_shared_relay peer then shared_relay_endpoint else controller_target,
       resolve_shared, [])
  end.

(** [seed_or_push_upstream] with a resolver: the remembered upstream, and the
    directive sent. *)
Definition seed_or_push_upstream (sc : Scope) (peer : option PeerSvid)
    (last : option ResolvedUpstream) : option ResolvedUpstream * option PreferredUpstream :=
  let '(seed, target, forward) := upstream_triple sc peer in
  let last := match last with None => seed | Some l => l end in
  if bool_decide (last = target) then (Some last, None)
  else (Some target,
        Some (mkPreferredUpstream (r_endpoint target) (expected_sa target) forward [])).

End resolver.
