(* ===== verification/UpstreamFacts.v ===== *)
(** * Facts about upstreams

    A node only ever streams from an upstream that its own configuration names; the
    controller's directives are among those; and a stream is told of its upstream
    exactly when it changes. *)

From S2P Require Import Prelude ResourceKey ResourceKeyFacts Health NodeRegistry Roster Identity.
From S2P Require Import Upstream.

(** ** Splitting *)

Lemma split_on_nonempty c s : split_on c s ≠ [].
Proof. destruct s as [|x s]; cbn; [done|]. destruct (Ascii.eqb x c); [done|]. by destruct (split_on c s). Qed.

Lemma split_on_app c a b : c ∉ a → split_on c (a ++ c :: b) = a :: split_on c b.
Proof.
  induction a as [|x a IH]; cbn; intros Ha.
  - by rewrite Ascii.eqb_refl.
  - destruct (Ascii.eqb_spec x c) as [->|]; [set_solver|]. rewrite IH by set_solver. done.
Qed.

Lemma split_on_single c a : c ∉ a → split_on c a = [a].
Proof.
  induction a as [|x a IH]; cbn; intros Ha; [done|].
  destruct (Ascii.eqb_spec x c) as [->|]; [set_solver|]. by rewrite IH by set_solver.
Qed.

(** [parts] joined by [c]. *)
Fixpoint join_with (c : ascii) (parts : list str) : str :=
  match parts with
  | [] => []
  | [p] => p
  | p :: ps => p ++ c :: join_with c ps
  end.

Lemma join_split c s : join_with c (split_on c s) = s.
Proof.
  induction s as [|x s IH]; cbn; [done|].
  pose proof (split_on_nonempty c s) as Hne.
  destruct (Ascii.eqb_spec x c) as [->|].
  - destruct (split_on c s); [done|]. cbn in *. by rewrite IH.
  - destruct (split_on c s) as [|p ps]; [done|]. destruct ps; cbn in *; by rewrite IH.
Qed.

(** The host names of a service: with and without the cluster domain and the root's
    dot. *)
Definition service_host (svc ns host : str) : Prop :=
  ∃ h, (h = svc ++ lit "." ++ ns ++ lit ".svc" ∨ h = svc ++ lit "." ++ ns ++ lit ".svc.cluster.local") ∧
    (host = h ∨ host = h ++ lit ".").

Section facts.
Context `{UriLib}.

Lemma service_dns_parts_sound ep d :
  service_dns_parts ep = Some d →
  ∃ u host, parse_uri ep = Some u ∧ uri_host u = Some host ∧
    (is_https d = true ↔ scheme_str u = Some (lit "https")) ∧
    (ends_at_cluster_domain d = true → service_host (service d) (dns_namespace d) host).
Proof.
  unfold service_dns_parts. destruct (parse_uri ep) as [u|]; [|done].
  destruct (uri_host u) as [host|] eqn:Eh; [|done]. cbv zeta.
  set (h := default host (strip_suffix (lit ".") host)).
  assert (host = h ∨ host = h ++ lit ".") as Hh.
  { unfold h. destruct (strip_suffix (lit ".") host) as [r|] eqn:E; [|by left].
    apply strip_suffix_Some in E as ->. by right. }
  pose proof (join_split dot h) as Hj.
  destruct (split_on dot h) as [|[|a svc] [|[|b ns] [|third suffix]]]; try done.
  case_bool_decide as Ht; [|done]. subst third. intros [= <-].
  exists u, host. cbn [is_https ends_at_cluster_domain service dns_namespace].
  split; [done|]. split; [done|]. split; [by rewrite bool_decide_eq_true|].
  intros Hs. exists h. split; [|done].
  apply orb_true_iff in Hs as [Hs|Hs]; apply bool_decide_eq_true_1 in Hs as ->; [left|right];
    rewrite <-Hj; done.
Qed.

(** An upstream that the node can name from its own configuration, at an endpoint
    whose host is that upstream's, with that upstream's identity. *)
Definition pinned (p : UpstreamPolicy) (t : UpstreamTarget) : Prop :=
  ∃ l ep u host, l ∈ legal p ∧ endpoints t = [ep] ∧
    expected_server t =
      Exactly (spiffe_uri (policy_trust_domain p) (legal_namespace l) (legal_sa l)) ∧
    parse_uri ep = Some u ∧ scheme_str u = Some (lit "https") ∧ uri_host u = Some host ∧
    service_host (legal_service l) (legal_namespace l) host.

Lemma policy_resolve_pinned p ep sa t : policy_resolve p ep sa = Ok t → pinned p t.
Proof.
  unfold policy_resolve. destruct (service_dns_parts ep) as [d|] eqn:E; [|done].
  destruct (is_https d) eqn:Eh; [|done]. destruct (ends_at_cluster_domain d) eqn:Ec; [|done]. cbn.
  destruct (find_first _ _) as [l|] eqn:Ef; [|done]. case_bool_decide; [|done]. intros [= <-].
  apply service_dns_parts_sound in E as (u & host & Hu & Hhost & Hs & Hd).
  apply find_first_Some in Ef as (l1 & l2 & Hl & Hn & _).
  unfold names_upstream in Hn. apply andb_true_iff in Hn as [H1 H2].
  apply bool_decide_eq_true_1 in H1, H2.
  exists l, ep, u, host. split_and!; try done.
  - rewrite Hl. set_solver.
  - by apply Hs.
  - rewrite H1, H2. by apply Hd.
Qed.

(** Whatever upstream directives a node receives, and from whomever, it only ever
    streams from an upstream its own launch configuration names.  After any sequence
    of directives the upstream cell is the initial one or a pinned one: an [https]
    endpoint whose host is the service DNS name of one of the policy's upstreams,
    with the server identity that the policy (not the sender) derives for it. *)
Theorem repoints_stay_pinned cfg p cell ds :
  upstream_policy cfg = Some p →
  let cell' := foldl (λ c d, (apply_repoint cfg d c).1) cell ds in
  cell' = cell ∨ ∃ t, cell' = Some t ∧ pinned p t.
Proof.
  intros Hp. cbv zeta.
  assert (∀ c, (c = cell ∨ ∃ t, c = Some t ∧ pinned p t) →
    ∀ d, (apply_repoint cfg d c).1 = cell ∨ ∃ t, (apply_repoint cfg d c).1 = Some t ∧ pinned p t)
    as Hstep.
  { intros c Hc d. unfold apply_repoint. destruct (endpoint d) as [|x e] eqn:Ee; [done|].
    unfold resolve_directive. rewrite Hp.
    destruct (policy_resolve p _ _) as [t|] eqn:Et; [|done].
    case_match; [done|]. right. exists t. split; [done|]. by eapply policy_resolve_pinned. }
  assert (∀ c, (c = cell ∨ ∃ t, c = Some t ∧ pinned p t) →
    foldl (λ c d, (apply_repoint cfg d c).1) c ds = cell ∨
    ∃ t, foldl (λ c d, (apply_repoint cfg d c).1) c ds = Some t ∧ pinned p t) as Hfold.
  { induction ds as [|d ds IH]; intros c Hc; cbn [foldl]; [done|]. by apply IH, Hstep. }
  apply Hfold. by left.
Qed.

End facts.

(** ** Pushed directives *)

(** A stream is told of its upstream exactly when it changes.  Each call remembers
    the current target; it sends a directive, with that target's endpoint and
    service account, if and only if the target differs from the remembered upstream
    (on the first call, from the upstream the client is connected to); and so a
    second call with nothing changed sends nothing. *)
Theorem directive_iff_changed c sc peer last :
  let '(seed, target, forward) := upstream_triple c sc peer in
  let '(last', d) := seed_or_push_upstream c sc peer last in
  last' = Some target ∧
  d = (if bool_decide (default seed last = target) then None
       else Some (mkPreferredUpstream (r_endpoint target) (expected_sa target) forward [])) ∧
  seed_or_push_upstream c sc peer last' = (Some target, None).
Proof.
  unfold seed_or_push_upstream. destruct (upstream_triple c sc peer) as [[seed target] forward].
  change (match last with None => seed | Some l => l end) with (default seed last).
  case_bool_decide as Heq; cbn; rewrite ?Heq, bool_decide_eq_true_2 by done; done.
Qed.

(** The teardown of a relay reaches its leaves even through a stream that opens
    after it: on the opening call of a relay's stream, when the relay is no longer
    among the active ones, the server sends the directive to return to the
    controller, addressed to the relay's namespace, unless the relay's endpoint is
    the controller's. *)
Theorem teardown_directive_sent c ns peer :
  ns ∉ active_relays c → namespace_relay_endpoint c ns ≠ controller_target c →
  seed_or_push_upstream c (ScNamespace ns) peer None =
    (Some (controller_target c),
     Some (mkPreferredUpstream (controller_endpoint c) (controller_sa c) ns [])).
Proof.
  intros Hns Hne. unfold seed_or_push_upstream, upstream_triple, resolve_namespace.
  rewrite (bool_decide_eq_false_2 (ns ∈ active_relays c)) by done.
  by rewrite bool_decide_eq_false_2.
Qed.

(** ** Directives that a node accepts *)

Definition label_char (x : ascii) : bool :=
  let n := nat_of_ascii x in
  ((97 <=? n) && (n <=? 122)) || ((48 <=? n) && (n <=? 57)) || (n =? 45).

Definition label_ok (l : str) : Prop := l ≠ [] ∧ Forall (λ x, label_char x = true) l.

(** What is relied on of [http::Uri]: an [https] URI made of a host of labels and a
    port has that scheme and that host. *)
Class UriLaws `{UriLib} := {
  parse_service_uri : ∀ (labels : list str) (port : Z),
    labels ≠ [] → Forall label_ok labels → (0 ≤ port ≤ u16_max)%Z →
    parse_uri (lit "https://" ++ join_with dot labels ++ lit ":" ++ decimal port) =
      Some (mkUri (Some (lit "https")) (Some (join_with dot labels)));
}.

Lemma label_no_dot l : label_ok l → dot ∉ l.
Proof. intros [_ Hl] Hin. rewrite Forall_forall in Hl. by specialize (Hl dot Hin). Qed.

Section accepted.
Context `{UriLaws}.

Lemma service_dns_of_endpoint svc ns port :
  label_ok svc → label_ok ns → (0 ≤ port ≤ u16_max)%Z →
  service_dns_parts (lit "https://" ++ svc ++ lit "." ++ ns ++ lit ".svc:" ++ decimal port) =
    Some (mkServiceDns svc ns true true).
Proof.
  intros Hs Hn Hp.
  replace (lit "https://" ++ svc ++ lit "." ++ ns ++ lit ".svc:" ++ decimal port)
    with (lit "https://" ++ join_with dot [svc; ns; lit "svc"] ++ lit ":" ++ decimal port)
    by (cbn; rewrite <- ?app_assoc; cbn; by rewrite <- ?app_assoc).
  assert (label_ok (lit "svc")) as Hsvc by (split; [done|by repeat constructor]).
  assert (Forall label_ok [svc; ns; lit "svc"]) as Hall by (rewrite !Forall_cons; done).
  unfold service_dns_parts. rewrite parse_service_uri by done.
  cbn [uri_host scheme_str]. cbv zeta.
  assert (strip_suffix (lit ".") (join_with dot [svc; ns; lit "svc"]) = None) as ->.
  { apply strip_suffix_None. intros r Hr. cbn in Hr.
    assert ((svc ++ dot :: ns ++ [dot; "s"; "v"]%char) ++ ["c"%char] = r ++ ["."%char]) as Hr'.
    { rewrite <-Hr, <-app_assoc. cbn. by rewrite <-app_assoc. }
    apply app_inj_tail in Hr' as [_ Hc]. done. }
  cbn [default join_with]. rewrite split_on_app by by apply label_no_dot.
  rewrite split_on_app by by apply label_no_dot. rewrite split_on_single by by apply label_no_dot.
  destruct Hs as [Hs _], Hn as [Hn _]. destruct svc; [done|]. destruct ns; [done|].
  reflexivity.
Qed.

(** A leaf follows its controller to the relay of its namespace.  When the
    controller and the leaf agree on the relay's name, the directive that the
    controller's resolver sends to a leaf of a namespace with an active relay is
    accepted by the leaf's policy: unless the leaf is on that endpoint already, it
    repoints there, expecting the identity of the relay's service account in its own
    namespace. *)
Theorem relay_directive_accepted c names td install ns name peer cfg cell :
  relay_service_name c = relay_name names → cfg_relay_sa c = relay_name names →
  label_ok (relay_name names) → label_ok ns → (0 ≤ relay_port c ≤ u16_max)%Z →
  controller_service names ≠ relay_name names →
  upstream_policy cfg = Some (policy_new td install ns names) →
  ns ∈ active_relays c → namespace_relay_endpoint c ns ≠ controller_target c →
  ∃ d, (seed_or_push_upstream c (ScGateway name ns) peer None).2 = Some d ∧
    let t := mkTarget [r_endpoint (namespace_relay_endpoint c ns)]
               (Exactly (spiffe_uri td ns (relay_name names))) in
    apply_repoint cfg d cell =
      if upstream_cell_points_at cell t then (cell, false) else (Some t, true).
Proof.
  intros Hsvc Hsa Hl Hn Hp Hne Hcfg Hact Htgt.
  unfold seed_or_push_upstream, upstream_triple, resolve_namespace.
  rewrite (bool_decide_eq_true_2 (ns ∈ active_relays c)) by done.
  rewrite bool_decide_eq_false_2 by congruence. eexists. split; [done|]. cbv zeta.
  unfold apply_repoint, resolve_directive. cbn [endpoint expected_server_sa]. rewrite Hcfg.
  destruct (r_endpoint (namespace_relay_endpoint c ns)) as [|x e] eqn:Ee; [done|]. rewrite <-Ee.
  assert (policy_resolve (policy_new td install ns names)
            (r_endpoint (namespace_relay_endpoint c ns)) (expected_sa (namespace_relay_endpoint c ns)) =
          Ok (mkTarget [r_endpoint (namespace_relay_endpoint c ns)]
                (Exactly (spiffe_uri td ns (relay_name names))))) as ->; [|done].
  unfold policy_resolve, namespace_relay_endpoint. cbn [r_endpoint expected_sa].
  rewrite Hsvc, Hsa, service_dns_of_endpoint by done. cbn.
  unfold names_upstream. cbn. rewrite bool_decide_eq_false_2 by done. cbn.
  rewrite !bool_decide_eq_true_2 by done. cbn. by rewrite bool_decide_eq_true_2.
Qed.

End accepted.

(** ** An instance *)

Module UriDemo.

(** A parser of [https] URIs with a host and a port, and nothing else. *)
#[export] Instance demo_uri : UriLib := {|
  parse_uri := λ s,
    match strip_prefix (lit "https://") s with
    | Some rest =>
        match split_once colon rest with
        | Some (host, _) => Some (mkUri (Some (lit "https")) (Some host))
        | None => None
        end
    | None => None
    end |}.

Lemma join_no_colon labels : Forall label_ok labels → colon ∉ join_with dot labels.
Proof.
  assert (∀ l, label_ok l → colon ∉ l) as Hl.
  { intros l [_ Hl] Hin. rewrite Forall_forall in Hl. by specialize (Hl colon Hin). }
  induction 1 as [|l labels Hok Hall IH]; cbn; [set_solver|].
  destruct labels; [by apply Hl|]. rewrite elem_of_app, elem_of_cons.
  intros [?|[?|?]]; [by apply (Hl l)|done|done].
Qed.

#[export] Instance demo_uri_laws : UriLaws.
Proof.
  split. intros labels port Hne Hok Hp. cbn [parse_uri demo_uri].
  rewrite (proj2 (strip_prefix_Some (lit "https://") _ _) eq_refl).
  change (lit ":" ++ decimal port) with (colon :: decimal port).
  by rewrite split_once_app by by apply join_no_colon.
Qed.

Definition names : UpstreamNames :=
  mkNames (lit "coxswain-controller-discovery") (lit "coxswain-controller")
    (lit "coxswain-relay") (lit "coxswain-relay-shared").

Definition policy : UpstreamPolicy := policy_new (lit "cluster.local") (lit "sys") (lit "team") names.
Definition cfg : ClientConfig := mkClientConfig (Some policy) (lit "cluster.local") (lit "sys").

Definition resolver (active : gset str) : UpstreamResolverConfig :=
  mkResolver (lit "https://coxswain-controller-discovery.sys.svc:50051") (lit "coxswain-controller")
    (lit "https://coxswain-relay-shared.sys.svc:50051") (lit "coxswain-relay-shared") false
    (lit "coxswain-relay") 50051 (lit "coxswain-relay") active (lit "cluster.local") (lit "sys").

(** A directive to the node's own relay, and one to another tenant's. *)
Definition directives : list PreferredUpstream :=
  [mkPreferredUpstream (lit "https://coxswain-relay.team.svc:50051") (lit "coxswain-relay") [] [];
   mkPreferredUpstream (lit "https://coxswain-relay.other.svc:50051") (lit "coxswain-relay") [] []].

Lemma label_ok_closed (l : str) : l ≠ [] → forallb label_char l = true → label_ok l.
Proof. intros Hne Hall. split; [done|]. apply Forall_forall. intros x Hx.
  rewrite forallb_forall in Hall. by apply Hall, list_elem_of_In. Qed.

End UriDemo.
Import UriDemo.

Lemma repoints_stay_pinned_witness :
  ∃ t, foldl (λ c d, (apply_repoint cfg d c).1) None directives = Some t ∧ pinned policy t.
Proof.
  destruct (repoints_stay_pinned cfg policy None directives eq_refl) as [H|H]; [|exact H].
  vm_compute in H. discriminate.
Defined.

Lemma teardown_directive_sent_witness :
  seed_or_push_upstream (resolver ∅) (ScNamespace (lit "team")) None None =
    (Some (controller_target (resolver ∅)),
     Some (mkPreferredUpstream (lit "https://coxswain-controller-discovery.sys.svc:50051")
             (lit "coxswain-controller") (lit "team") [])).
Proof. apply (teardown_directive_sent (resolver ∅)); [set_solver|vm_compute; discriminate]. Defined.

Lemma relay_directive_accepted_witness :
  ∃ d, (seed_or_push_upstream (resolver {[lit "team"]}) (ScGateway (lit "gw") (lit "team")) None None).2
         = Some d ∧
    apply_repoint cfg d None =
      (Some (mkTarget [lit "https://coxswain-relay.team.svc:50051"]
               (Exactly (spiffe_uri (lit "cluster.local") (lit "team") (lit "coxswain-relay")))), true).
Proof.
  refine (relay_directive_accepted (resolver {[lit "team"]}) names (lit "cluster.local") (lit "sys")
    (lit "team") (lit "gw") None cfg None eq_refl eq_refl _ _ _ _ eq_refl _ _).
  - by apply label_ok_closed.
  - by apply label_ok_closed.
  - vm_compute. split; discriminate.
  - vm_compute. discriminate.
  - set_solver.
  - vm_compute. discriminate.
Defined.
