(* ===== verification/Authz.v ===== *)
(** * Who may subscribe to what

    Models the authorization of discovery streams: the authorizers of
    [crates/coxswain-discovery/src/server/authz.rs], the checks with which
    [DiscoveryService::stream] of [server/mod.rs] opens a stream, the check of
    [view_for] on every build ([gateway_svid_denied] of [server/view_cache.rs]) and
    the [bootstrap] handler with its allowlist
    ([crates/coxswain-discovery/src/bootstrap_server.rs]).

    A certificate is the list of its URI names; the certificate authority puts the
    authenticated identity there and nothing else ([sign_csr] of
    [crates/coxswain-controller/src/identity/ca.rs]), so what is left of signing is
    its error. *)

From S2P Require Import Prelude ResourceKey ResourceKeyFacts Health NodeRegistry Roster Identity.
From S2P Require Import Upstream Sessions.

(** The trait [ScopeAuthorizer]. *)
Record ScopeAuthorizer := mkAuthorizer {
  allows_namespace : PeerSvid → str → bool;
  allows_shared_pool : PeerSvid → bool;
  allows_roster : PeerSvid → Scope → bool;
}.

Definition deny_all : ScopeAuthorizer :=
  mkAuthorizer (λ _ _, false) (λ _, false) (λ _ _, false).

Record RelayAuthzConfig := mkRelayAuthz {
  provisioned : gset str;
  relay_sa : str;
  az_trust_domain : str;
  shared_relay_sa : str;
  install_namespace : str;
  shared_proxy_sa : str;
}.

Definition is_exactly (td ns sa : str) (id : SpiffeId) : bool :=
  bool_decide (trust_domain id = td) && bool_decide (namespace id = ns) &&
  bool_decide (service_account id = sa).

Section authorizer.
Context (c : RelayAuthzConfig).

Definition matches_install_identity (peer : PeerSvid) (sa : str) : bool :=
  match uri_sans peer with
  | [] => false
  | sans => any_identity (is_exactly (az_trust_domain c) (install_namespace c) sa) sans
  end.

Definition is_shared_relay_identity (peer : PeerSvid) : bool :=
  matches_install_identity peer (shared_relay_sa c).

Definition relay_allows_namespace (peer : PeerSvid) (ns : str) : bool :=
  match uri_sans peer with
  | [] => false
  | sans =>
      if negb (bool_decide (ns ∈ provisioned c)) then false
      else any_identity (is_exactly (az_trust_domain c) ns (relay_sa c)) sans
  end.

Definition relay_allows_shared_pool (peer : PeerSvid) : bool :=
  is_shared_relay_identity peer || matches_install_identity peer (shared_proxy_sa c).

Definition relay_allows_roster (peer : PeerSvid) (sc : Scope) : bool :=
  match sc with
  | ScNamespace ns => relay_allows_namespace peer ns
  | ScSharedPool => is_shared_relay_identity peer
  | ScGateway _ _ => false
  end.

Definition provisioned_relay_authorizer : ScopeAuthorizer :=
  mkAuthorizer relay_allows_namespace relay_allows_shared_pool relay_allows_roster.

End authorizer.

(** ** Opening a stream *)

Inductive Status :=
| FailedPrecondition
| InvalidArgument
| PermissionDenied
| AlreadyExists
| StUnauthenticated
| Internal
| Unavailable.

Definition WIRE_VERSION : Z := 2.

(** What the service knows when a stream opens: whether it leads (if it is gated),
    its authorizer, and the expected service accounts of the dedicated proxies, by
    Gateway, at provisioning and after cut-over. *)
Record Service := mkService {
  leader : option bool;
  authorizer : ScopeAuthorizer;
  dedicated_identities : gmap (str * str) str;
  dedicated : gmap (str * str) str;
}.

Record Subscribe := mkSubscribe {
  sub_node_id : str;
  wire_version : Z;
  sub_scope : option WireScope;
}.

Definition expected_proxy_sa (s : Service) (ns name : str) : option str :=
  match dedicated_identities s !! (ns, name) with
  | Some sa => Some sa
  | None => dedicated s !! (ns, name)
  end.

Definition decode_scope (dto : option WireScope) : result Scope Status :=
  match dto with
  | None => Ok ScSharedPool
  | Some w => match scope_from_wire w with Some sc => Ok sc | None => Err InvalidArgument end
  end.

(** The binding of a Gateway's scope to the peer's identity; skipped without a peer
    certificate. *)
Definition gateway_bound (s : Service) (peer : option PeerSvid) (sc : Scope) : bool :=
  match peer, sc with
  | Some p, ScGateway name ns =>
      match expected_proxy_sa s ns name with
      | Some sa => svid_matches_dedicated_gateway (uri_sans p) ns sa
      | None => false
      end
  | _, _ => true
  end.

Definition scope_authorized (s : Service) (peer : option PeerSvid) (sc : Scope) : bool :=
  let p := default (mkPeerSvid []) peer in
  match sc with
  | ScNamespace ns => allows_namespace (authorizer s) p ns
  | ScSharedPool => allows_shared_pool (authorizer s) p
  | ScGateway _ _ => true
  end.

(** The checks of [stream] before the node id is claimed. *)
Definition authorize_stream (s : Service) (peer : option PeerSvid) (sub : Subscribe)
    : result Scope Status :=
  match leader s with
  | Some false => Err FailedPrecondition
  | _ =>
      if negb (wire_version sub =? WIRE_VERSION)%Z then Err FailedPrecondition
      else
        sc <-? decode_scope (sub_scope sub) ;;
        if negb (gateway_bound s peer sc) then Err PermissionDenied
        else if negb (scope_authorized s peer sc) then Err PermissionDenied
        else Ok sc
  end.

(** [stream] up to the registration of the node: the claims, and the scope and the
    generation of the new session. *)
Definition open_request (s : Service) (peer : option PeerSvid) (sub : Subscribe) (cl : Claims)
    : result (Claims * Scope * Z) Status :=
  sc <-? authorize_stream s peer sub ;;
  match claim_node_id (sub_node_id sub) (fingerprint <$> peer) cl with
  | (cl', Some g) => Ok (cl', sc, g)
  | (_, None) => Err AlreadyExists
  end.

(** [gateway_svid_denied], on every build of a Gateway's view. *)
Definition gateway_svid_denied (s : Service) (ns name : str) (peer : option PeerSvid) : bool :=
  match peer with
  | None => false
  | Some p =>
      match dedicated s !! (ns, name) with
      | Some sa => negb (svid_matches_dedicated_gateway (uri_sans p) ns sa)
      | None => false
      end
  end.

(** ** Bootstrap *)

Record Allowlist := mkAllowlist {
  al_install_namespace : str;
  al_shared_proxy_sa : str;
  al_shared_relay_sa : str;
  al_relay_sa : str;
  al_provisioned : gset str;
  al_dedicated : gmap (str * str) str;
}.

Definition allowlist_allows (a : Allowlist) (id : SpiffeId) : bool :=
  if bool_decide (namespace id = al_install_namespace a) &&
     (bool_decide (service_account id = al_shared_proxy_sa a) ||
      bool_decide (service_account id = al_shared_relay_sa a))
  then true
  else if bool_decide (service_account id = al_relay_sa a) &&
          bool_decide (namespace id ∈ al_provisioned a)
  then true
  else existsb (λ kv, bool_decide (kv.1.1 = namespace id) &&
                      bool_decide (kv.2 = service_account id))
         (map_to_list (al_dedicated a)).

Inductive IssuerError := MalformedCsr | NotReady | Signing.

Record BootstrapRequest := mkBootstrap {
  bs_wire_version : Z;
  bs_review : option TokenReviewStatus;
  bs_csr : option IssuerError;
  bs_scope : option WireScope;
}.

Record BootstrapResponse := mkBootstrapResponse {
  svid_uri_sans : list str;
  upstream : ResolvedUpstream;
}.

Definition status_of_authn (e : AuthnError) : Status :=
  match e with Unauthenticated | InvalidPrincipal => StUnauthenticated | ApiError => Internal end.

Definition status_of_issuer (e : IssuerError) : Status :=
  match e with NotReady => Unavailable | MalformedCsr => InvalidArgument | Signing => Internal end.

(** [bootstrap], with the token review of the request's token and the outcome of
    parsing and signing its request; [None] is a panic. *)
Definition bootstrap (td : str) (allow : option Allowlist)
    (resolver : option UpstreamResolverConfig) (req : BootstrapRequest)
    : option (result BootstrapResponse Status) :=
  if negb (bs_wire_version req =? WIRE_VERSION)%Z then Some (Err FailedPrecondition)
  else
    match parse_token_review_status (bs_review req) td with
    | None => None
    | Some (Err e) => Some (Err (status_of_authn e))
    | Some (Ok id) =>
        if match allow with Some a => negb (allowlist_allows a id) | None => false end
        then Some (Err PermissionDenied)
        else
          match bs_csr req with
          | Some e => Some (Err (status_of_issuer e))
          | None =>
              Some (Ok (mkBootstrapResponse [uri id]
                match resolver with
                | Some r => resolver_resolve r id (default ScSharedPool (bs_scope req ≫= scope_from_wire))
                | None => mkResolved [] []
                end))
          end
    end.
