(* ===== verification/AuthzFacts.v ===== *)
(** * Facts about authorization

    Exactly which identities open which streams, and that a tenant's service account
    cannot reach another tenant's configuration from bootstrap to stream. *)

From S2P Require Import Prelude ResourceKey ResourceKeyFacts Health NodeRegistry Roster Identity.
From S2P Require Import Upstream Sessions Authz.

(** The peer presents the identity of the service account [sa] of [ns], in a trust
    domain that satisfies [td_ok]. *)
Definition presents (td_ok : str → Prop) (p : PeerSvid) (ns sa : str) : Prop :=
  ∃ td, td_ok td ∧ parts_ok td ns sa ∧ spiffe_uri td ns sa ∈ uri_sans p.

Lemma parse_uri_parts u id :
  spiffe_parse u = Ok id →
  u = spiffe_uri (trust_domain id) (namespace id) (service_account id) ∧
  parts_ok (trust_domain id) (namespace id) (service_account id).
Proof. intros H. by apply spiffe_parse_sound in H as (? & ? & ? & -> & ? & _ & -> & -> & ->). Qed.

Lemma svid_matches_iff p ns sa :
  svid_matches_dedicated_gateway (uri_sans p) ns sa = true ↔ presents (λ _, True) p ns sa.
Proof.
  unfold svid_matches_dedicated_gateway. rewrite any_identity_true. split.
  - intros (u & id & Hu & Hp & Ht). apply andb_true_iff in Ht as [H1 H2].
    apply bool_decide_eq_true_1 in H1 as <-, H2 as <-.
    apply parse_uri_parts in Hp as [-> ?]. by exists (trust_domain id).
  - intros (td & _ & Hok & Hu). apply spiffe_parse_complete in Hok as (id & Hp & _ & _ & <- & <-).
    eexists _, id. split; [done|]. split; [done|]. by rewrite !bool_decide_eq_true_2.
Qed.

Lemma exactly_iff p td ns sa :
  any_identity (is_exactly td ns sa) (uri_sans p) = true ↔ presents (λ t, t = td) p ns sa.
Proof.
  rewrite any_identity_true. unfold is_exactly. split.
  - intros (u & id & Hu & Hp & Ht). apply andb_true_iff in Ht as [[H0 H1]%andb_true_iff H2].
    apply bool_decide_eq_true_1 in H0 as <-, H1 as <-, H2 as <-.
    apply parse_uri_parts in Hp as [-> ?]. by exists (trust_domain id).
  - intros (td' & -> & Hok & Hu). apply spiffe_parse_complete in Hok as (id & Hp & _ & <- & <- & <-).
    eexists _, id. split; [done|]. split; [done|]. by rewrite !bool_decide_eq_true_2.
Qed.

Lemma any_identity_nonempty test (p : PeerSvid) :
  match uri_sans p with [] => false | sans => any_identity test sans end =
  any_identity test (uri_sans p).
Proof. by destruct (uri_sans p). Qed.

Section facts.
Context (c : RelayAuthzConfig).

(** Who may open a stream of the scope. *)
Definition entitled (s : Service) (p : PeerSvid) (sc : Scope) : Prop :=
  match sc with
  | ScGateway name ns =>
      ∃ sa, expected_proxy_sa s ns name = Some sa ∧ presents (λ _, True) p ns sa
  | ScNamespace ns =>
      ns ∈ provisioned c ∧ presents (λ t, t = az_trust_domain c) p ns (relay_sa c)
  | ScSharedPool =>
      presents (λ t, t = az_trust_domain c) p (install_namespace c) (shared_relay_sa c) ∨
      presents (λ t, t = az_trust_domain c) p (install_namespace c) (shared_proxy_sa c)
  end.

Lemma entitled_iff s p sc :
  authorizer s = provisioned_relay_authorizer c →
  gateway_bound s (Some p) sc = true ∧ scope_authorized s (Some p) sc = true ↔ entitled s p sc.
Proof.
  intros Ha. unfold gateway_bound, scope_authorized. rewrite Ha. cbn [default].
  destruct sc as [|name ns|ns]; cbn.
  - unfold relay_allows_shared_pool, is_shared_relay_identity, matches_install_identity.
    rewrite !any_identity_nonempty, orb_true_iff, !exactly_iff. naive_solver.
  - destruct (expected_proxy_sa s ns name) as [sa|]; [rewrite svid_matches_iff|]; naive_solver.
  - unfold relay_allows_namespace.
    assert (match uri_sans p with [] => false | sans =>
      if negb (bool_decide (ns ∈ provisioned c)) then false
      else any_identity (is_exactly (az_trust_domain c) ns (relay_sa c)) sans end =
      bool_decide (ns ∈ provisioned c) &&
      any_identity (is_exactly (az_trust_domain c) ns (relay_sa c)) (uri_sans p)) as Heq.
    { destruct (uri_sans p); [by rewrite andb_false_r|]. by destruct (bool_decide _). }
    setoid_rewrite Heq. rewrite andb_true_iff, bool_decide_eq_true, exactly_iff. naive_solver.
Qed.

(** The gate in front of every stream, exactly.  A peer with a certificate opens a
    stream of a scope if and only if the replica leads (or is not gated), the wire
    versions agree, the subscription decodes to that scope, and the peer presents
    the one identity the scope belongs to: the expected service account of a
    Gateway's dedicated proxy in the Gateway's namespace, the relay account of a
    namespace that has a provisioned relay, or one of the two shared accounts of the
    install namespace. *)
Theorem authorize_stream_iff s p sub sc :
  authorizer s = provisioned_relay_authorizer c →
  authorize_stream s (Some p) sub = Ok sc ↔
    leader s ≠ Some false ∧ wire_version sub = WIRE_VERSION ∧
    decode_scope (sub_scope sub) = Ok sc ∧ entitled s p sc.
Proof.
  intros Ha. rewrite <-(entitled_iff s p sc Ha). unfold authorize_stream.
  assert (∀ (P : Prop), ¬ P → ∀ e : Status, @Err Scope Status e = Ok sc ↔ P) as Hno by naive_solver.
  destruct (leader s) as [[]|]; [|apply Hno; naive_solver|];
    (destruct (Z.eqb_spec (wire_version sub) WIRE_VERSION); cbn [negb]; [|apply Hno; naive_solver]);
    (destruct (decode_scope (sub_scope sub)) as [sc'|]; [|apply Hno; naive_solver]);
    (destruct (gateway_bound s (Some p) sc') eqn:Eg; cbn [negb];
       [|apply Hno; intros (_ & _ & ? & ? & _); congruence]);
    (destruct (scope_authorized s (Some p) sc') eqn:Es; cbn [negb];
       [|apply Hno; intros (_ & _ & ? & _ & ?); congruence]);
    (split; [intros [= <-]; done|by intros (_ & _ & ? & _)]).
Qed.

(** ** From bootstrap to stream *)

Definition sa_username (ns sa : str) : str :=
  lit "system:serviceaccount:" ++ ns ++ lit ":" ++ sa.

Lemma review_identity td ns sa id :
  parts_ok td ns sa → colon ∉ ns →
  parse_token_review_status (Some (mkReview None (Some true) (Some (sa_username ns sa)))) td
    = Some (Ok id) →
  uri id = spiffe_uri td ns sa.
Proof.
  intros Hok Hc. change (parse_token_review_status _ td)
    with (sa_username_to_spiffe_id (sa_username ns sa) td).
  unfold sa_username_to_spiffe_id, sa_username.
  rewrite (proj2 (strip_prefix_Some (lit "system:serviceaccount:") _ _) eq_refl).
  change (lit ":" ++ sa) with (colon :: sa). rewrite split_once_app by done.
  destruct (from_parts_ok td ns sa Hok) as (id' & Hp & Hu & _).
  destruct Hok as [_ [Hns _] Hsa]. destruct ns; [done|]. destruct sa; [done|].
  rewrite Hp. by intros [= <-].
Qed.

Lemma spiffe_uri_inj td ns sa td' ns' sa' :
  parts_ok td ns sa → parts_ok td' ns' sa' →
  spiffe_uri td ns sa = spiffe_uri td' ns' sa' → td = td' ∧ ns = ns' ∧ sa = sa'.
Proof.
  intros H1%spiffe_parse_complete H2%spiffe_parse_complete Heq.
  destruct H1 as (id1 & P1 & _ & <- & <- & <-). destruct H2 as (id2 & P2 & _ & <- & <- & <-).
  rewrite Heq in P1. assert (id1 = id2) as -> by congruence. done.
Qed.

(** C5: Tenants are isolated, end to end.  Suppose the token review authenticates a
    pod as a service account of namespace [ns], and bootstrap answers it with a
    certificate.  Whatever scope a stream opened with that certificate then names, it
    is accepted only for a Gateway of [ns], for the namespace [ns] itself, or for
    the shared pool when [ns] is the install namespace. *)
Theorem tenant_isolation td allow resolver version csr wscope ns sa resp s sub sc :
  parts_ok td ns sa → colon ∉ ns →
  authorizer s = provisioned_relay_authorizer c →
  bootstrap td allow resolver
    (mkBootstrap version (Some (mkReview None (Some true) (Some (sa_username ns sa)))) csr wscope)
    = Some (Ok resp) →
  authorize_stream s (Some (mkPeerSvid (svid_uri_sans resp))) sub = Ok sc →
  match sc with
  | ScGateway _ ns' | ScNamespace ns' => ns' = ns
  | ScSharedPool => ns = install_namespace c
  end.
Proof.
  intros Hok Hc Ha Hb Hs. apply authorize_stream_iff in Hs as (_ & _ & _ & He); [|done].
  assert (svid_uri_sans resp = [spiffe_uri td ns sa]) as Hsans.
  { unfold bootstrap in Hb. cbn [bs_wire_version bs_review bs_csr] in Hb.
    destruct (negb _); [done|].
    destruct (parse_token_review_status _ td) as [[id|]|] eqn:E; [|done..].
    destruct (match allow with Some a => _ | None => _ end); [done|].
    destruct csr; [done|]. injection Hb as <-. cbn. f_equal. by eapply review_identity. }
  rewrite Hsans in He.
  assert (∀ td_ok ns' sa', presents td_ok (mkPeerSvid [spiffe_uri td ns sa]) ns' sa' → ns' = ns) as Hp.
  { intros td_ok ns' sa' (td' & _ & Hok' & Hin%list_elem_of_singleton).
    by apply spiffe_uri_inj in Hin as (_ & -> & _). }
  destruct sc as [|name ns'|ns']; cbn in He.
  - destruct He as [He|He]; symmetry; by eapply Hp.
  - destruct He as (? & _ & He). by eapply Hp.
  - destruct He as (_ & He). by eapply Hp.
Qed.

(** Only a relay reports a roster, and only for the scope it may itself subscribe
    to: no peer may report on a Gateway's stream, and whoever may report on another
    stream could have opened it. *)
Theorem roster_needs_subscription s p sc :
  authorizer s = provisioned_relay_authorizer c →
  allows_roster (authorizer s) p sc = true →
  match sc with
  | ScGateway _ _ => False
  | _ => entitled s p sc
  end.
Proof.
  intros Ha. rewrite Ha. intros Hr. destruct sc as [|name ns|ns]; [|done|].
  - apply (entitled_iff s p ScSharedPool Ha). split; [done|]. unfold scope_authorized. rewrite Ha.
    cbn in *. unfold relay_allows_shared_pool. by rewrite Hr.
  - apply (entitled_iff s p (ScNamespace ns) Ha). split; [done|]. unfold scope_authorized.
    by rewrite Ha.
Qed.

End facts.

(** ** An instance *)

Module AuthzDemo.

Definition authz : RelayAuthzConfig :=
  mkRelayAuthz {[lit "team"]} (lit "coxswain-relay") (lit "cluster.local")
    (lit "coxswain-relay-shared") (lit "sys") (lit "coxswain-proxy").

Definition service : Service :=
  mkService (Some true) (provisioned_relay_authorizer authz)
    {[ (lit "team", lit "gw") := lit "gw-class" ]} ∅.

Definition allow : Allowlist :=
  mkAllowlist (lit "sys") (lit "coxswain-proxy") (lit "coxswain-relay-shared") (lit "coxswain-relay")
    {[lit "team"]} {[ (lit "team", lit "gw") := lit "gw-class" ]}.

Definition subscribe : Subscribe :=
  mkSubscribe (lit "pod") 2 (Some (scope_to_wire (ScGateway (lit "gw") (lit "team")))).

Definition response : BootstrapResponse :=
  mkBootstrapResponse [spiffe_uri (lit "cluster.local") (lit "team") (lit "gw-class")]
    (mkResolved [] []).

Lemma demo_parts : parts_ok (lit "cluster.local") (lit "team") (lit "gw-class").
Proof.
  split; [split; [done|]|split; [done|]|done];
    match goal with |- ?x ∉ ?l => exact (bool_decide_eq_false_1 (x ∈ l) eq_refl) end.
Qed.

End AuthzDemo.
Import AuthzDemo.

Lemma authorize_stream_iff_witness :
  entitled authz service (mkPeerSvid (svid_uri_sans response)) (ScGateway (lit "gw") (lit "team")).
Proof.
  apply (authorize_stream_iff authz service (mkPeerSvid (svid_uri_sans response)) subscribe
           (ScGateway (lit "gw") (lit "team")) eq_refl).
  vm_compute. reflexivity.
Defined.

Lemma tenant_isolation_witness : lit "team" = lit "team".
Proof.
  refine (tenant_isolation authz (lit "cluster.local") (Some allow) None 2 None None (lit "team")
    (lit "gw-class") response service subscribe (ScGateway (lit "gw") (lit "team"))
    demo_parts _ eq_refl _ _).
  - exact (bool_decide_eq_false_1 (colon ∈ lit "team") eq_refl).
  - vm_compute. reflexivity.
  - vm_compute. reflexivity.
Defined.

Lemma roster_needs_subscription_witness :
  entitled authz service
    (mkPeerSvid [spiffe_uri (lit "cluster.local") (lit "team") (lit "coxswain-relay")])
    (ScNamespace (lit "team")).
Proof.
  refine (roster_needs_subscription authz service
    (mkPeerSvid [spiffe_uri (lit "cluster.local") (lit "team") (lit "coxswain-relay")])
    (ScNamespace (lit "team")) eq_refl _).
  vm_compute. reflexivity.
Defined.
