(* ===== verification/ViewCache.v ===== *)
(** * The cache of materialized views

    Models [crates/coxswain-discovery/src/server/view_cache.rs]: one slot per scope with
    a view and the rebuild generation it was cached for, the lookup that builds outside
    the lock and checks again before storing, and [view_for] with its filter on the
    peer's identity.  Streams and the reflector run concurrently, as a step relation;
    each access under the lock is one step.

    [stamp] says of a view the last rebuild whose content it is sure to reflect, and
    [builds] which views a build for a scope may yield.  A rebuild stores its content
    and then bumps the generation. *)

From S2P Require Import Prelude ResourceKey ResourceKeyFacts Health NodeRegistry Roster Identity.
From S2P Require Import Upstream Sessions Authz.

Section cache.
Context {View : Type}.

Record ViewCacheState := mkViewCache {
  vc_shared_pool : option (Z * View);
  vc_namespace : gmap str (option (Z * View));
  vc_gateway : gmap (str * str) (option (Z * View));
}.

Definition empty_cache : ViewCacheState := mkViewCache None ∅ ∅.

(** The slot a scope addresses, after [entry(..).or_default()]. *)
Definition slot (sc : Scope) (c : ViewCacheState) : option (Z * View) :=
  match sc with
  | ScSharedPool => vc_shared_pool c
  | ScNamespace ns => default None (vc_namespace c !! ns)
  | ScGateway name ns => default None (vc_gateway c !! (ns, name))
  end.

Definition set_slot (sc : Scope) (x : option (Z * View)) (c : ViewCacheState) : ViewCacheState :=
  match sc with
  | ScSharedPool => mkViewCache x (vc_namespace c) (vc_gateway c)
  | ScNamespace ns => mkViewCache (vc_shared_pool c) (<[ns := x]> (vc_namespace c)) (vc_gateway c)
  | ScGateway name ns =>
      mkViewCache (vc_shared_pool c) (vc_namespace c) (<[(ns, name) := x]> (vc_gateway c))
  end.

(** The view a slot serves for a generation. *)
Definition fresh_view (generation : Z) (x : option (Z * View)) : option View :=
  match x with
  | Some (cached, v) => if (generation <=? cached)%Z then Some v else None
  | None => None
  end.

(** [cached_view], first critical section: the fast path. *)
Definition probe (sc : Scope) (generation : Z) (c : ViewCacheState) : ViewCacheState * option View :=
  (set_slot sc (slot sc c) c, fresh_view generation (slot sc c)).

(** [cached_view], second critical section: check again, else store. *)
Definition finish (sc : Scope) (generation : Z) (v : View) (c : ViewCacheState) :
    ViewCacheState * View :=
  match fresh_view generation (slot sc c) with
  | Some existing => (set_slot sc (slot sc c) c, existing)
  | None => (set_slot sc (Some (generation, v)) c, v)
  end.

(** A call that no other interrupts. *)
Definition cached_view (sc : Scope) (generation : Z) (build : View) (c : ViewCacheState) :
    ViewCacheState * View :=
  match probe sc generation c with
  | (c', Some v) => (c', v)
  | (c', None) => finish sc generation build c'
  end.

Definition view_for (s : Service) (empty_view : View) (sc : Scope) (peer : option PeerSvid)
    (generation : Z) (build : View) (c : ViewCacheState) : ViewCacheState * View :=
  match sc with
  | ScGateway name ns =>
      if gateway_svid_denied s ns name peer then (c, empty_view)
      else cached_view sc generation build c
  | _ => cached_view sc generation build c
  end.

(** ** Streams and rebuilds together *)

Context (stamp : View → Z) (builds : Scope → View → Prop).

(** A build in progress: what it was asked for, and the content when it began. *)
Record Build := mkBuild {
  b_scope : Scope;
  b_generation : Z;
  b_start : Z;
}.

Record System := mkSystem {
  content : Z;
  generation : Z;
  cache : ViewCacheState;
  running : gmap nat Build;
}.

Definition boot : System := mkSystem 0 0 empty_cache ∅.

(** A step, and the views it hands out: scope, generation asked for, view. *)
Inductive cache_step : System → list (Scope * Z * View) → System → Prop :=
| step_store s :
    cache_step s [] (mkSystem (content s + 1) (generation s) (cache s) (running s))
| step_bump s g :
    (generation s ≤ g ≤ content s)%Z →
    cache_step s [] (mkSystem (content s) g (cache s) (running s))
| step_hit s sc g v c' :
    (0 ≤ g ≤ generation s)%Z →
    probe sc g (cache s) = (c', Some v) →
    cache_step s [(sc, g, v)] (mkSystem (content s) (generation s) c' (running s))
| step_miss s t sc g c' :
    (0 ≤ g ≤ generation s)%Z → running s !! t = None →
    probe sc g (cache s) = (c', None) →
    cache_step s []
      (mkSystem (content s) (generation s) c' (<[t := mkBuild sc g (content s)]> (running s)))
| step_finish s t b v c' out :
    running s !! t = Some b →
    builds (b_scope b) v → (b_start b ≤ stamp v ≤ content s)%Z →
    finish (b_scope b) (b_generation b) v (cache s) = (c', out) →
    cache_step s [(b_scope b, b_generation b, out)]
      (mkSystem (content s) (generation s) c' (delete t (running s))).

Inductive reachable : System → Prop :=
| reach_boot : reachable boot
| reach_step s out s' : reachable s → cache_step s out s' → reachable s'.

(** ** Slots *)

Lemma slot_set_eq sc x c : slot sc (set_slot sc x c) = x.
Proof. destruct sc; cbn; [done|by rewrite lookup_insert_eq..]. Qed.

Lemma slot_set_ne sc sc' x c : sc ≠ sc' → slot sc (set_slot sc' x c) = slot sc c.
Proof. destruct sc, sc'; cbn; intros ?; try done; rewrite lookup_insert_ne by congruence; done. Qed.

Lemma slot_touch sc sc' c : slot sc (set_slot sc' (slot sc' c) c) = slot sc c.
Proof. destruct (decide (sc = sc')) as [->|]; [apply slot_set_eq|by apply slot_set_ne]. Qed.

Lemma slot_empty sc : slot sc empty_cache = None.
Proof. by destruct sc. Qed.

Lemma fresh_view_Some g x v :
  fresh_view g x = Some v ↔ ∃ cached, x = Some (cached, v) ∧ (g ≤ cached)%Z.
Proof.
  destruct x as [[cached w]|]; cbn; [|split; [done|by intros (? & ? & _)]].
  case_zb; split; try done.
  - intros [= ->]. eauto.
  - intros (? & [= -> ->] & _). done.
  - intros (? & [= -> ->] & ?). lia.
Qed.

(** ** Freshness *)

(** A cached view belongs to its slot's scope and reflects the generation it is cached
    for, which has been announced; so does a running build. *)
Record cache_inv (s : System) : Prop := {
  inv_generation : (0 ≤ generation s ≤ content s)%Z;
  inv_slot sc g v : slot sc (cache s) = Some (g, v) → builds sc v ∧ (g ≤ stamp v)%Z ∧ (g ≤ generation s)%Z;
  inv_running t b : running s !! t = Some b → (b_generation b ≤ b_start b)%Z ∧ (b_generation b ≤ generation s)%Z;
}.

Lemma cache_step_inv s out s' :
  cache_inv s → cache_step s out s' →
  cache_inv s' ∧ ∀ sc g v, (sc, g, v) ∈ out → builds sc v ∧ (g ≤ stamp v)%Z.
Proof.
  intros [Hg Hslot Hrun].
  destruct 1 as [s|s g Hb|s sc g v c' Hle Hp|s t sc g c' Hle Ht Hp|s t b v c' out Ht Hv Hst Hf].
  - split; [|by intros ??? ?%elem_of_nil]. split; cbn; [lia|done|done].
  - split; [|by intros ??? ?%elem_of_nil]. split; cbn; [lia| |].
    + intros sc' g' v' (? & ? & ?)%Hslot. split_and!; [done|done|lia].
    + intros t b (? & ?)%Hrun. split; [done|lia].
  - injection Hp as <- (cached & Hs & Hle')%fresh_view_Some.
    split; [split; cbn; [done| |done]; intros ???; rewrite slot_touch; apply Hslot|].
    intros sc' g' v' [= -> -> ->]%list_elem_of_singleton.
    destruct (Hslot _ _ _ Hs) as (? & ? & _). split; [done|lia].
  - injection Hp as <- _. split; [|by intros ??? ?%elem_of_nil]. split; cbn; [done| |].
    + intros ???. rewrite slot_touch. apply Hslot.
    + intros t' b'. destruct (decide (t = t')) as [<-|Hne].
      * rewrite lookup_insert_eq. intros [= <-]. cbn. lia.
      * rewrite lookup_insert_ne by done. apply Hrun.
  - destruct (Hrun _ _ Ht) as [Hb1 Hb2]. unfold finish in Hf.
    assert (∀ t' b', delete t (running s) !! t' = Some b' → running s !! t' = Some b') as Hdel
      by (intros t' b' [_ ?]%lookup_delete_Some; done).
    destruct (fresh_view _ _) as [existing|] eqn:E; injection Hf as <- <-.
    + apply fresh_view_Some in E as (cached & Hs & Hle').
      split; [split; cbn; [done|intros ???; rewrite slot_touch; apply Hslot|eauto]|].
      intros sc' g' v' [= -> -> ->]%list_elem_of_singleton.
      destruct (Hslot _ _ _ Hs) as (? & ? & _). split; [done|lia].
    + split; [split; cbn; [done| |eauto]|].
      * intros sc' g' v'. destruct (decide (sc' = b_scope b)) as [->|Hne].
        -- rewrite slot_set_eq. intros [= <- <-]. split_and!; [done|lia|done].
        -- rewrite slot_set_ne by done. apply Hslot.
      * intros sc' g' v' [= -> -> ->]%list_elem_of_singleton. split; [done|lia].
Qed.

Lemma reachable_inv s : reachable s → cache_inv s.
Proof.
  induction 1 as [|s out s' _ IH Hst]; [|by destruct (cache_step_inv s out s')].
  split; cbn; [lia|intros sc g v; by rewrite slot_empty|done].
Qed.


(** A slot never goes back to an older generation. *)
Lemma slot_monotone s out s' sc g v :
  cache_step s out s' → slot sc (cache s) = Some (g, v) →
  ∃ g' v', slot sc (cache s') = Some (g', v') ∧ (g ≤ g')%Z.
Proof.
  intros Hst Hs. destruct Hst as [| |s sc' g' v' c' _ Hp|s t sc' g' c' _ _ Hp|s t b v' c' out _ _ _ Hf];
    cbn; eauto with lia.
  - injection Hp as <- _. rewrite slot_touch. eauto with lia.
  - injection Hp as <- _. rewrite slot_touch. eauto with lia.
  - unfold finish in Hf. destruct (fresh_view _ _) eqn:E; injection Hf as <- _.
    + rewrite slot_touch. eauto with lia.
    + destruct (decide (sc = b_scope b)) as [->|Hne]; [|rewrite slot_set_ne by done; eauto with lia].
      rewrite slot_set_eq. rewrite Hs in E. cbn in E. case_zb; [done|]. eauto with lia.
Qed.

End cache.

(** ** A miss after one rebuild *)

Module CacheDemo.
Definition stamp (v : Z) : Z := v.
Definition builds (_ : Scope) (_ : Z) : Prop := True.
Definition stored : System (View := Z) := mkSystem 1 0 empty_cache (∅ : gmap nat Build).
Definition announced : System (View := Z) := mkSystem 1 1 empty_cache (∅ : gmap nat Build).
Definition building : System (View := Z) :=
  mkSystem 1 1 (probe ScSharedPool 1 empty_cache).1 {[0 := mkBuild ScSharedPool 1 1]}.
Definition served : System (View := Z) :=
  mkSystem 1 1 (finish ScSharedPool 1 1%Z (cache building)).1 (delete 0 (running building)).

Lemma building_reachable : reachable stamp builds building.
Proof.
  apply (reach_step _ _ announced []); [|by apply (step_miss _ _ announced 0 ScSharedPool 1)].
  apply (reach_step _ _ stored []); [|by apply (step_bump _ _ stored 1)].
  apply (reach_step _ _ boot []); [constructor|]. apply (step_store _ _ boot).
Qed.
End CacheDemo.
Import CacheDemo.

