(* ===== verification/Relay.v ===== *)
(** * The namespace relay

    Models [NamespaceDemux] of [crates/coxswain-discovery/src/relay.rs], which takes the
    aggregate stream of a namespace apart into one world per Gateway and serves them as
    the controller would; and, on the controller's side, [build_namespace_view] and the
    Gateway scope of [materialize] in [materialize.rs], the [EndpointCollector] of
    [wire/routing/encode.rs] and [crates/coxswain-core/src/dedicated_registry.rs].

    The cells of a dedicated Gateway are of any type [C].  The class [CellEncoders]
    stands for the walks over them that yield message bodies, and [cells_of] for the
    compilation of a staged world into cells. *)

From S2P Require Import Prelude Health NodeRegistry HealthWire Roster.
From S2P Require Import PublishIndex ResourceKey ResourceKeyFacts Apply Stream.

Notation EndpointKey := (str * str * Z)%type.

(** What the encoders find in a Gateway's cells, in the order they visit it: its hosts
    per port, the endpoints its backends refer to, and the bodies of its certificates,
    client-certificate policies and listener states. *)
Class CellEncoders (C B : Type) := {
  route_hosts : C → list (Z * HostEntry B);
  route_endpoints : C → list (EndpointKey * B);
  tls_ports : C → list (Z * B);
  client_cert_ports : C → list (Z * B);
  listener_entries : C → list (ObjectKey * B);
}.

Section relay.
Context {B C : Type} `{CellEncoders C B, HashIter}.
Context (resource_hash : Resource B → str) (sha256_hex : str → str).
Context (body_refs : B → gset EndpointKey).
Context (compile_error : ResourceCache B → Staged B → list Cell → option WireError).
Context (cells_of : Staged B → C).

(** ** Dedicated Gateways *)

Record DedicatedRoutingSnapshot := mkDedicated {
  snap_cells : C;
  expected_proxy_sa : str;
}.

Record DedicatedRegistryData := mkRegistryData {
  reg_map : gmap ObjectKey DedicatedRoutingSnapshot;
  by_ns : gmap str (list ObjectKey);
}.

Definition index_key (by_ns : gmap str (list ObjectKey)) (key : ObjectKey)
    : gmap str (list ObjectKey) :=
  <[key.1 := default [] (by_ns !! key.1) ++ [key]]> by_ns.

Definition from_map (m : gmap ObjectKey DedicatedRoutingSnapshot) : DedicatedRegistryData :=
  mkRegistryData m (foldl index_key ∅ (hash_iter m).*1).

(** ** Emission *)

Definition plain (p : Payload B) : Resource B := mkResource (Some p) [] [].

(** The Gateway's own resources: routes, certificates, client-certificate policies,
    listener states. *)
Definition gateway_resources (c : C) : list (Resource B) :=
  ((λ h, plain (RouteHost 2 h.1 (Some h.2))) <$> route_hosts c) ++
  ((λ t, plain (TlsPort t.1 t.2)) <$> tls_ports c) ++
  ((λ t, plain (ClientCertPort t.1 t.2)) <$> client_cert_ports c) ++
  ((λ l, plain (ListenerStatus (object_key_display l.1) l.2)) <$> listener_entries c).

(** [EndpointCollector]: the first record of a key wins. *)
Definition EndpointCollector : Type := gmap EndpointKey B.

Definition record (m : EndpointCollector) (e : EndpointKey * B) : EndpointCollector :=
  match m !! e.1 with Some _ => m | None => <[e.1 := e.2]> m end.

Definition endpoint_resource (e : EndpointKey * B) : Resource B :=
  let '(ns, service, port, body) := e in plain (Endpoints ns service port body).

Definition into_resources (m : EndpointCollector) : list (Resource B) :=
  endpoint_resource <$> hash_iter m.

(** ** Views *)

(** [materialize] for [Scope::Gateway]. *)
Definition build_gateway_view (registry : DedicatedRegistryData) (key : ObjectKey) (seq : Z)
    : MaterializedView :=
  match reg_map registry !! key with
  | Some snap =>
      fold_resources resource_hash sha256_hex
        (gateway_resources (snap_cells snap) ++
         into_resources (foldl record ∅ (route_endpoints (snap_cells snap)))) seq
  | None => empty_view sha256_hex
  end.

Definition qualify (key : ObjectKey) (r : Resource B) : Resource B :=
  mkResource (payload r) key.1 key.2.

Definition meta_resource (publish : PublishIndex) (key : ObjectKey)
    (snap : DedicatedRoutingSnapshot) : Resource B :=
  mkResource
    (Some (GatewayMeta (match get key publish with Some st => stamp_seq st | None => 0%Z end)
             (expected_proxy_sa snap))) key.1 key.2.

(** The loop of [build_namespace_view] on one key: the resources so far, the collector
    and [any_gateway]. *)
Definition namespace_one (registry : DedicatedRegistryData) (publish : PublishIndex)
    (acc : list (Resource B) * EndpointCollector * bool) (key : ObjectKey)
    : list (Resource B) * EndpointCollector * bool :=
  let '(all, endpoints, any) := acc in
  match reg_map registry !! key with
  | None => acc
  | Some snap =>
      (all ++ (qualify key <$> gateway_resources (snap_cells snap)) ++ [meta_resource publish key snap],
       foldl record endpoints (route_endpoints (snap_cells snap)), true)
  end.

Definition name_leb (a b : ObjectKey) : bool := str_leb a.2 b.2.

(** [publish] is the index at the time the stamps are read, after the registry has been
    loaded. *)
Definition build_namespace_view (registry : DedicatedRegistryData) (publish : PublishIndex)
    (namespace : str) (seq : Z) : MaterializedView :=
  let keys := sort_by name_leb (default [] (by_ns registry !! namespace)) in
  let '(all, endpoints, any_gateway) :=
    foldl (namespace_one registry publish) ([], ∅, false) keys in
  if negb any_gateway then empty_view sha256_hex
  else fold_resources resource_hash sha256_hex (all ++ into_resources endpoints) seq.

(** ** The relay's world *)

Record NamespaceDemux := mkDemux {
  demux_resources : gmap str (Resource B);
  demux_hashes : gmap str str;
  dedicated : DedicatedRegistryData;
  demux_publish : PublishIndex;
}.

Definition new_demux : NamespaceDemux := mkDemux ∅ ∅ (mkRegistryData ∅ ∅) empty_index.

Notation StagedWorld := (gmap str (Resource B) * gmap str str)%type.

(** The loop of [stage] over the resources of a full. *)
Fixpoint stage_replace (w : StagedWorld) (rs : list (Resource B)) : result StagedWorld WireError :=
  match rs with
  | [] => Ok w
  | r :: rs =>
      match canonical_key r with
      | Err e => Err (wire_from_key_err e)
      | Ok key =>
          match w.1 !! key with
          | Some _ => Err UnknownResourceKey
          | None => stage_replace (<[key := r]> w.1, <[key := resource_hash r]> w.2) rs
          end
      end
  end.

(** The loop over the upserts of a delta. *)
Fixpoint stage_upserts (w : StagedWorld) (seen : gset str) (rs : list (Resource B))
    : result (StagedWorld * gset str) WireError :=
  match rs with
  | [] => Ok (w, seen)
  | r :: rs =>
      match canonical_key r with
      | Err e => Err (wire_from_key_err e)
      | Ok key =>
          if bool_decide (key ∈ seen) then Err UnknownResourceKey
          else stage_upserts (<[key := r]> w.1, <[key := resource_hash r]> w.2) ({[key]} ∪ seen) rs
      end
  end.

(** The loop over its tombstones. *)
Fixpoint stage_removals (w : StagedWorld) (seen : gset str) (ks : list str)
    : result StagedWorld WireError :=
  match ks with
  | [] => Ok w
  | k :: ks =>
      if bool_decide (k ∈ seen) then Err UnknownResourceKey
      else stage_removals (delete k w.1, delete k w.2) seen ks
  end.

Definition demux_stage (d : NamespaceDemux) (msg : Snapshot B) : result StagedWorld WireError :=
  if full msg then stage_replace (∅, ∅) (resources msg)
  else
    ws <-? stage_upserts (demux_resources d, demux_hashes d) ∅ (resources msg) ;;
    stage_removals ws.1 ws.2 (removed_resources msg).

(** ** Rebuilding the registry *)

Record Partition := mkPartition {
  per_gateway : gmap ObjectKey (list (Resource B));
  meta : gmap ObjectKey (Z * str);
  shared_endpoints : list (Resource B);
}.

Definition qualifier_key (r : Resource B) : option ObjectKey :=
  if negb (bool_decide (qualifier_namespace r = [])) && negb (bool_decide (qualifier_name r = []))
  then Some (qualifier_namespace r, qualifier_name r) else None.

Definition dequalify (r : Resource B) : Resource B := mkResource (payload r) [] [].

Definition partition_one (acc : Partition) (r : Resource B) : result Partition WireError :=
  match payload r, qualifier_key r with
  | Some (GatewayMeta seq sa), Some key =>
      Ok (mkPartition (per_gateway acc) (<[key := (seq, sa)]> (meta acc)) (shared_endpoints acc))
  | Some (GatewayMeta _ _), None => Err UnknownResourceKey
  | Some (Endpoints _ _ _ _), None =>
      Ok (mkPartition (per_gateway acc) (meta acc) (shared_endpoints acc ++ [r]))
  | Some _, Some key =>
      Ok (mkPartition
            (<[key := default [] (per_gateway acc !! key) ++ [dequalify r]]> (per_gateway acc))
            (meta acc) (shared_endpoints acc))
  | Some _, None => Err UnknownResourceKey
  | None, _ => Err UnknownResourceKey
  end.

Fixpoint partition_all (acc : Partition) (rs : list (Resource B)) : result Partition WireError :=
  match rs with
  | [] => Ok acc
  | r :: rs => acc' <-? partition_one acc r ;; partition_all acc' rs
  end.

(** The full snapshot made locally is applied to a fresh applier without the version
    check ([apply_trusted]). *)
Definition dedicated_snapshot_from_resources (gateway_resources endpoint_resources : list (Resource B))
    (sa : str) : result DedicatedRoutingSnapshot WireError :=
  let synthetic := mkSnapshot [] true (gateway_resources ++ endpoint_resources) [] 0 in
  cache <-? apply_message resource_hash sha256_hex body_refs compile_error new_cache synthetic true false ;;
  Ok (mkDedicated (cells_of (committed cache)) sa).

(** The derived order of [ObjectKey]. *)
Definition object_key_leb (a b : ObjectKey) : bool :=
  if bool_decide (a.1 = b.1) then str_leb a.2 b.2 else str_leb a.1 b.1.

(** [Vec::dedup] *)
Fixpoint dedup (l : list ObjectKey) : list ObjectKey :=
  match l with
  | a :: (b :: _) as rest => if bool_decide (a = b) then dedup rest else a :: dedup rest
  | _ => l
  end.

Fixpoint rebuild_loop (p : Partition) (registry : gmap ObjectKey DedicatedRoutingSnapshot)
    (gateways : list ObjectKey) : result (gmap ObjectKey DedicatedRoutingSnapshot) WireError :=
  match gateways with
  | [] => Ok registry
  | key :: gateways =>
      snap <-? dedicated_snapshot_from_resources (default [] (per_gateway p !! key))
                 (shared_endpoints p) (default [] (snd <$> meta p !! key)) ;;
      rebuild_loop p (<[key := snap]> registry) gateways
  end.

(** The registry and the greatest sequence, 0 if there is none. *)
Definition rebuild_registry (world : gmap str (Resource B))
    : result (gmap ObjectKey DedicatedRoutingSnapshot * Z) WireError :=
  p <-? partition_all (mkPartition ∅ ∅ []) (hash_iter world).*2 ;;
  let gateways :=
    dedup (sort_by object_key_leb ((hash_iter (meta p)).*1 ++ (hash_iter (per_gateway p)).*1)) in
  registry <-? rebuild_loop p ∅ gateways ;;
  Ok (registry, foldr (λ m, Z.max m.2.1) 0%Z (hash_iter (meta p))).

(** [SnapshotApplier::apply] for the relay: the new state, or the error with which the
    message is rejected; the state then stays as it was. *)
Definition demux_apply (d : NamespaceDemux) (msg : Snapshot B) (expect_full : bool)
    : result NamespaceDemux WireError :=
  if negb (full msg) && expect_full then Err DeltaBeforeFullSnapshot
  else
    staged <-? demux_stage d msg ;;
    let computed := from_per_resource sha256_hex (hash_iter staged.2).*2 in
    if negb (bool_decide (computed = version msg)) then Err VersionMismatch
    else
      rebuilt <-? rebuild_registry staged.1 ;;
      Ok (mkDemux staged.1 staged.2 (from_map rebuilt.1)
            (advance_to rebuilt.2 (demux_publish d))).

End relay.

Arguments DedicatedRoutingSnapshot C : clear implicits.
Arguments DedicatedRegistryData C : clear implicits.
Arguments NamespaceDemux B C : clear implicits.
Arguments Partition B : clear implicits.
