(* ===== verification/RelayViews.v ===== *)
(** * The views that a namespace relay is fed

    Worlds of keyed resources; the resources that the controller emits for a namespace
    and that their keys never collide. *)

From S2P Require Import Prelude Health NodeRegistry HealthWire Roster.
From S2P Require Import PublishIndex ResourceKey ResourceKeyFacts Apply ApplyFacts Stream StreamFacts.
From S2P Require Import Relay.

(** ** Worlds of keyed resources *)

Section worlds.
Context {B : Type} (resource_hash : Resource B → str) (sha256_hex : str → str).
Context (body_refs : B → gset EndpointKey).
Implicit Types (r : Resource B) (rs : list (Resource B)).

(** No two resources of a list share a key. *)
Definition distinct_keys rs : Prop :=
  ∀ r r' k, r ∈ rs → r' ∈ rs → canonical_key r = Ok k → canonical_key r' = Ok k → r = r'.

(** The resources by key, as a view holds them. *)
Definition rworld rs : gmap str (Resource B) := resource <$> foldl (fold_one resource_hash) ∅ rs.

Lemma fold_one_lookup rs k e :
  distinct_keys rs →
  foldl (fold_one resource_hash) ∅ rs !! k = Some e ↔
    ∃ r, r ∈ rs ∧ canonical_key r = Ok k ∧ e = mkResourceEntry (resource_hash r) r.
Proof.
  induction rs as [|r rs IH] using rev_ind; intros Hd.
  { cbn. rewrite lookup_empty. split; [done|]. by intros (r & Hr%elem_of_nil & _). }
  assert (distinct_keys rs) as Hd'.
  { intros a b k' Ha Hb. apply Hd; apply elem_of_app; by left. }
  specialize (IH Hd'). rewrite foldl_app. cbn [foldl]. unfold fold_one at 1.
  destruct (canonical_key r) as [key|] eqn:Er.
  - destruct (decide (key = k)) as [->|Hne].
    + rewrite lookup_insert_eq. split.
      * intros [= <-]. exists r. split_and!; [|done|done]. apply elem_of_app. right. by left.
      * intros (r' & Hr' & Hk & ->). rewrite (Hd r r' k); [done| |done|done|done].
        apply elem_of_app. right. by left.
    + rewrite lookup_insert_ne, IH by done. split.
      * intros (r' & ? & ?). exists r'. rewrite elem_of_app. auto.
      * intros (r' & [?|Hr'%list_elem_of_singleton]%elem_of_app & Hk & ?); [by eauto|].
        subst r'. rewrite Er in Hk. by injection Hk.
  - rewrite IH. split.
    + intros (r' & ? & ?). exists r'. rewrite elem_of_app. auto.
    + intros (r' & [?|Hr'%list_elem_of_singleton]%elem_of_app & Hk & ?); [by eauto|].
      subst r'. by rewrite Er in Hk.
Qed.

Lemma rworld_lookup rs k r :
  distinct_keys rs → rworld rs !! k = Some r ↔ r ∈ rs ∧ canonical_key r = Ok k.
Proof.
  intros Hd. unfold rworld. rewrite lookup_fmap, fmap_Some. split.
  - intros (e & (r' & ? & ? & ->)%fold_one_lookup & ->); [done|done].
  - intros [? ?]. exists (mkResourceEntry (resource_hash r) r). split; [|done].
    apply fold_one_lookup; eauto.
Qed.

Lemma distinct_keys_sub rs rs' :
  distinct_keys rs → (∀ r, r ∈ rs' → r ∈ rs) → distinct_keys rs'.
Proof. intros Hd Hs r r' k Hr Hr'. apply Hd; auto. Qed.

Lemma rworld_ext rs rs' :
  distinct_keys rs → (∀ r, r ∈ rs' ↔ r ∈ rs) → rworld rs' = rworld rs.
Proof.
  intros Hd Heq. assert (distinct_keys rs') as Hd' by (apply (distinct_keys_sub rs); [done|]; intros r; apply Heq).
  apply map_eq. intros k. apply option_eq. intros r.
  rewrite !rworld_lookup by done. by rewrite Heq.
Qed.

(** Staging distinct servable resources yields the image of their world. *)
Lemma stage_full_rworld rs msg :
  NoDup rs → distinct_keys rs → (∀ r, r ∈ rs → ∃ k p s, servable r k p s) →
  resources msg = rs →
  ∃ st, stage_full resource_hash body_refs msg = Ok st ∧ represents resource_hash body_refs (rworld rs) st.
Proof.
  intros Hnd Hd Hs Hmsg.
  set (key r := match canonical_key r with Ok k => k | Err _ => [] end).
  assert (∀ r, r ∈ rs → canonical_key r = Ok (key r)) as Hkey.
  { intros r (k & p & s & Hk & _)%Hs. unfold key. by rewrite Hk. }
  apply (stage_full_represents resource_hash body_refs (rworld rs) ((λ r, (key r, r)) <$> rs)).
  - intros k r [Hr Hk]%rworld_lookup; [|done]. destruct (Hs r Hr) as (k' & p & s & Hsv).
    exists p, s. destruct Hsv as [Hk' ?]. rewrite Hk in Hk'. by injection Hk' as <-.
  - rewrite Hmsg, <-list_fmap_compose. symmetry. apply list_fmap_id.
  - rewrite <-list_fmap_compose. apply NoDup_fmap_2_strong; [|done].
    intros r r' Hr Hr' Heq. apply (Hd r r' (key r)); [done|done|by apply Hkey|].
    cbn in Heq. rewrite Heq. by apply Hkey.
  - intros k r. rewrite rworld_lookup, list_elem_of_fmap by done. split.
    + intros (r' & [= -> ->] & Hr). split; [done|by apply Hkey].
    + intros [Hr Hk]. exists r. rewrite (Hkey r Hr) in Hk. injection Hk as <-. done.
Qed.

End worlds.

(** ** The controller's side *)

Section controller.
Context {B C : Type} `{CellEncoders C B, HashIter}.
Context (resource_hash : Resource B → str) (sha256_hex : str → str).
Implicit Types (m : gmap ObjectKey (DedicatedRoutingSnapshot C)) (r : Resource B).

Lemma index_key_fold (l : list ObjectKey) (ns : str) :
  default [] (foldl index_key ∅ l !! ns) = filter (λ k, k.1 = ns) l.
Proof.
  induction l as [|k l IH] using rev_ind; [done|].
  rewrite foldl_app, filter_app. cbn [foldl]. unfold index_key at 1.
  destruct (decide (k.1 = ns)) as [<-|Hne].
  - rewrite lookup_insert_eq. cbn [default from_option id]. by rewrite IH, filter_cons_True.
  - by rewrite lookup_insert_ne, IH, filter_cons_False, filter_nil, app_nil_r.
Qed.

(** The keys of a namespace, in the order of the view. *)
Definition namespace_keys m (ns : str) : list ObjectKey :=
  sort_by name_leb (default [] (by_ns (from_map m) !! ns)).

Lemma namespace_keys_elem m ns key :
  key ∈ namespace_keys m ns ↔ key.1 = ns ∧ is_Some (m !! key).
Proof.
  unfold namespace_keys, from_map. cbn [by_ns].
  rewrite elem_of_sort_by, index_key_fold, list_elem_of_filter, list_elem_of_fmap.
  apply and_iff_compat_l. split.
  - intros ([k snap] & -> & Hin). apply hash_iter_elem in Hin. by exists snap.
  - intros [snap Hk]. exists (key, snap). split; [done|]. by apply hash_iter_elem.
Qed.

Lemma collector_sound (l : list (EndpointKey * B)) : ∀ (acc : gmap EndpointKey B) k b,
  foldl record acc l !! k = Some b → acc !! k = Some b ∨ (k, b) ∈ l.
Proof.
  induction l as [|[j c] l IH]; intros acc k b; cbn [foldl]; [by left|].
  intros [Hacc|Hin]%IH; [|right; by right]. unfold record, EndpointCollector in Hacc. cbn [fst snd] in Hacc.
  destruct (acc !! j) eqn:E; [by left|]. destruct (decide (j = k)) as [->|Hne].
  - rewrite lookup_insert_eq in Hacc. injection Hacc as ->. right. by left.
  - rewrite lookup_insert_ne in Hacc by done. by left.
Qed.

Lemma record_keeps (acc : gmap EndpointKey B) e k : is_Some (acc !! k) → is_Some (record acc e !! k).
Proof.
  intros Hk. unfold record, EndpointCollector. destruct (acc !! e.1) eqn:E; [done|].
  rewrite lookup_insert_is_Some. destruct (decide (e.1 = k)); auto.
Qed.

Lemma collector_complete (l : list (EndpointKey * B)) : ∀ (acc : gmap EndpointKey B) k,
  is_Some (acc !! k) ∨ k ∈ l.*1 → is_Some (foldl record acc l !! k).
Proof.
  induction l as [|e l IH]; intros acc k; cbn [foldl fmap list_fmap].
  - intros [?|?%elem_of_nil]; done.
  - intros [Hk|[->|Hk]%elem_of_cons]; apply IH; [left; by apply record_keeps| |by right].
    left. unfold record, EndpointCollector. destruct (acc !! e.1) eqn:E; [by eauto|]. rewrite lookup_insert_eq. eauto.
Qed.

(** The resources of the namespace view: a block per Gateway, then the endpoints. *)
Definition block m (publish : PublishIndex) (key : ObjectKey) : list (Resource B) :=
  match m !! key with
  | Some snap => (qualify key <$> gateway_resources (snap_cells snap)) ++ [meta_resource publish key snap]
  | None => []
  end.

Definition key_endpoints m (key : ObjectKey) : list (EndpointKey * B) :=
  match m !! key with Some snap => route_endpoints (snap_cells snap) | None => [] end.

Definition namespace_endpoints m (ns : str) : gmap EndpointKey B :=
  foldl record ∅ (namespace_keys m ns ≫= key_endpoints m).

Definition namespace_resources m publish ns : list (Resource B) :=
  (namespace_keys m ns ≫= block m publish) ++ into_resources (namespace_endpoints m ns).

Lemma namespace_fold m publish (keys : list ObjectKey) : ∀ all eps any,
  foldl (namespace_one (from_map m) publish) (all, eps, any) keys =
    (all ++ (keys ≫= block m publish), foldl record eps (keys ≫= key_endpoints m),
     any || existsb (λ k, bool_decide (is_Some (m !! k))) keys).
Proof.
  induction keys as [|k keys IH]; intros all eps any; cbn [foldl mbind list_bind existsb].
  { by rewrite app_nil_r, orb_false_r. }
  unfold namespace_one at 2. cbn [from_map reg_map]. unfold block at 1, key_endpoints at 1.
  destruct (m !! k) as [snap|] eqn:E; cbn [app]; rewrite IH.
  - rewrite foldl_app, bool_decide_eq_true_2, orb_true_r by eauto. by rewrite !app_assoc.
  - by rewrite bool_decide_eq_false_2 by (by intros [? ?]).
Qed.

Lemma into_resources_empty : into_resources (∅ : gmap EndpointKey B) = [].
Proof.
  unfold into_resources. destruct (hash_iter _) as [|[k b] l] eqn:E; [done|].
  assert ((k, b) ∈ hash_iter (∅ : gmap EndpointKey B)) as Hin by (rewrite E; by left).
  apply hash_iter_elem in Hin. by rewrite lookup_empty in Hin.
Qed.

(** The view holds these resources, whether the namespace is empty or not. *)
Lemma namespace_view_spec m publish ns seq :
  let v := build_namespace_view resource_hash sha256_hex (from_map m) publish ns seq in
  served resource_hash sha256_hex v ∧
  view_resources v = foldl (fold_one resource_hash) ∅ (namespace_resources m publish ns).
Proof.
  cbn zeta. unfold build_namespace_view. fold (namespace_keys m ns).
  rewrite namespace_fold. cbn [app orb].
  destruct (existsb _ _) eqn:E; cbn [negb]; [split; [constructor|done]|]. split; [constructor|].
  unfold namespace_resources, namespace_endpoints.
  destruct (namespace_keys m ns) as [|k keys] eqn:Ek.
  - exact (eq_sym (f_equal (foldl (fold_one resource_hash) ∅) into_resources_empty)).
  - exfalso. apply not_true_iff_false in E. apply E. cbn [existsb].
    rewrite bool_decide_eq_true_2; [done|]. apply (namespace_keys_elem m ns). rewrite Ek. by left.
Qed.

End controller.

(** ** Well-formed registries *)

Section well_formed.
Context {B C : Type} `{CellEncoders C B, HashIter}.
Implicit Types (m : gmap ObjectKey (DedicatedRoutingSnapshot C)) (r : Resource B) (p : Payload B).

(** Names as Kubernetes admits them: not empty, without the separator of keys. *)
Definition name_ok (key : ObjectKey) : Prop :=
  key.1 ≠ [] ∧ bar ∉ key.1 ∧ key.2 ≠ [] ∧ bar ∉ key.2.

(** What the encoders yield for a Gateway has well-formed keys, no two alike. *)
Record cells_ok (c : C) : Prop := {
  own_servable : ∀ r, r ∈ gateway_resources c → ∃ k p s, servable r k p s;
  own_distinct : distinct_keys (gateway_resources c);
  own_NoDup : NoDup (gateway_resources c);
  endpoints_servable : ∀ e, e ∈ route_endpoints c → ∃ k p s, servable (endpoint_resource e) k p s;
}.

Definition registry_ok m : Prop :=
  ∀ key snap, m !! key = Some snap → name_ok key ∧ cells_ok (snap_cells snap).

Definition own_payload p : bool :=
  match p with Endpoints _ _ _ _ | GatewayMeta _ _ => false | _ => true end.

Lemma gateway_resources_plain c r :
  r ∈ gateway_resources c → ∃ p, r = plain p ∧ own_payload p = true.
Proof.
  unfold gateway_resources. rewrite !elem_of_app, !list_elem_of_fmap.
  intros [(x & -> & _)|[(x & -> & _)|[(x & -> & _)|(x & -> & _)]]]; by eexists.
Qed.

(** A resource with a well-formed identity, spelled by its key. *)
Definition identified r (id : ParsedKey) : Prop :=
  resource_id r = Some id ∧ key_ok id ∧ ∃ k, canonical_key r = Ok k.

Lemma identified_key r r' id id' k :
  identified r id → identified r' id' → canonical_key r = Ok k → canonical_key r' = Ok k → id = id'.
Proof.
  intros (Hid & Hok & _) (Hid' & Hok' & _) Hk Hk'.
  destruct (canonical_key_render r k Hk) as (x & Hx & _ & Hp).
  destruct (canonical_key_render r' k Hk') as (x' & Hx' & _ & Hp').
  rewrite Hid in Hx. injection Hx as <-. rewrite Hid' in Hx'. injection Hx' as <-.
  specialize (Hp Hok). rewrite (Hp' Hok') in Hp. by injection Hp.
Qed.

Lemma servable_identified r k p s : servable r k p s → ∃ id, identified r id.
Proof.
  intros (Hk & _ & _ & _ & _ & Hok). destruct (canonical_key_render r k Hk) as (id & Hid & _).
  exists id. split; [done|]. split; [by apply Hok|by exists k].
Qed.

Lemma plain_identified p id :
  own_payload p = true → identified (plain p) id →
  payload_id p = Some id ∧ key_ok id ∧ ∃ k, payload_key p = Ok k.
Proof. intros Ho (Hid & Hok & k & Hk). by destruct p; try done; (split_and!; [done|done|]); exists k. Qed.

Lemma qualify_identified key p id :
  name_ok key → own_payload p = true → identified (plain p) id →
  identified (qualify key (plain p)) (PQualified key.1 key.2 id).
Proof.
  intros (H1 & H2 & H3 & H4) Ho (Hid & Hok & k & Hk)%plain_identified; [|done].
  destruct key as [ns name]; cbn [fst snd] in *.
  destruct ns as [|x ns]; [done|]. destruct name as [|y name]; [done|]. split_and!.
  - unfold resource_id. cbn [qualify plain payload qualifier_namespace qualifier_name fst snd].
    by destruct p; try done; rewrite Hid.
  - done.
  - exists (lit "gw|" ++ (x :: ns) ++ lit "|" ++ (y :: name) ++ lit "|" ++ k).
    unfold canonical_key, qualifier.
    cbn [qualify plain payload qualifier_namespace qualifier_name fst snd].
    destruct p; try done; rewrite Hk; reflexivity.
Qed.

Lemma meta_identified publish key (snap : DedicatedRoutingSnapshot C) :
  name_ok key → identified (meta_resource publish key snap : Resource B) (PGatewayMeta key.1 key.2).
Proof.
  intros (H1 & H2 & H3 & H4). destruct key as [[|x ns] [|y name]]; try done.
  split_and!; [done|done|]. by eexists.
Qed.

Lemma endpoint_identified e k p s :
  servable (endpoint_resource e : Resource B) k p s →
  identified (endpoint_resource e) (PEndpoints e.1.1.1 e.1.1.2 e.1.2).
Proof.
  destruct e as [[[ns svc] port] b]. intros (Hk & _ & _ & _ & _ & Hok).
  split_and!; [done|by apply Hok|by exists k].
Qed.

End well_formed.

(** ** The namespace view *)

Section namespace_view.
Context {B C : Type} `{CellEncoders C B, HashIter}.
Context (m : gmap ObjectKey (DedicatedRoutingSnapshot C)) (publish : PublishIndex) (ns : str).
Implicit Types (r : Resource B).

Definition own_of key r : Prop :=
  ∃ snap q, key.1 = ns ∧ m !! key = Some snap ∧ q ∈ gateway_resources (snap_cells snap) ∧
    r = qualify key q.

Definition meta_of key r : Prop :=
  ∃ snap, key.1 = ns ∧ m !! key = Some snap ∧ r = meta_resource publish key snap.

Definition endpoint_of r : Prop :=
  ∃ e b, namespace_endpoints m ns !! e = Some b ∧ r = endpoint_resource (e, b).

Lemma into_resources_elem (eps : gmap EndpointKey B) r :
  r ∈ into_resources eps ↔ ∃ e b, eps !! e = Some b ∧ r = endpoint_resource (e, b).
Proof.
  unfold into_resources. rewrite list_elem_of_fmap. split.
  - intros ([e b] & -> & Hin). apply hash_iter_elem in Hin. by exists e, b.
  - intros (e & b & He & ->). exists (e, b). split; [done|]. by apply hash_iter_elem.
Qed.

Lemma namespace_resources_elem r :
  r ∈ namespace_resources m publish ns ↔
    (∃ key, own_of key r) ∨ (∃ key, meta_of key r) ∨ endpoint_of r.
Proof.
  unfold namespace_resources. rewrite elem_of_app, into_resources_elem, list_elem_of_bind. split.
  - intros [(key & Hr & [Hns [snap Hk]]%namespace_keys_elem)|?]; [|by auto].
    unfold block in Hr. rewrite Hk in Hr.
    apply elem_of_app in Hr as [(q & -> & Hq)%list_elem_of_fmap| ->%list_elem_of_singleton].
    + left. exists key, snap, q. done.
    + right. left. exists key, snap. done.
  - intros [(key & snap & q & Hns & Hk & Hq & ->)|[(key & snap & Hns & Hk & ->)|?]]; [| |by auto];
      left; exists key; (split; [|apply namespace_keys_elem; eauto]); unfold block; rewrite Hk;
      apply elem_of_app; [left; by apply list_elem_of_fmap_2|right; by left].
Qed.

Context (Hok : registry_ok m).

Lemma own_identified key r :
  own_of key r → ∃ p id, r = qualify key (plain p) ∧ own_payload p = true ∧
    identified (plain p) id ∧ identified r (PQualified key.1 key.2 id).
Proof.
  intros (snap & q & _ & Hk & Hq & ->). destruct (Hok key snap Hk) as [Hn Hc].
  destruct (own_servable _ Hc q Hq) as (k & p' & s & Hs).
  destruct (gateway_resources_plain _ _ Hq) as (p & -> & Ho).
  destruct (servable_identified _ _ _ _ Hs) as [id Hid]. exists p, id.
  split_and!; [done|done|done|]. by apply qualify_identified.
Qed.

Lemma meta_of_identified key r : meta_of key r → identified r (PGatewayMeta key.1 key.2).
Proof. intros (snap & _ & Hk & ->). by apply meta_identified, (Hok key snap). Qed.

Lemma namespace_endpoints_servable e b :
  namespace_endpoints m ns !! e = Some b → ∃ k p s, servable (endpoint_resource (e, b)) k p s.
Proof.
  intros [Hn|Hin]%collector_sound; [by rewrite lookup_empty in Hn|].
  apply list_elem_of_bind in Hin as (key & Hin & [_ [snap Hk]]%namespace_keys_elem).
  unfold key_endpoints in Hin. rewrite Hk in Hin.
  by apply (endpoints_servable _ (proj2 (Hok key snap Hk))).
Qed.

Lemma endpoint_of_identified e b :
  namespace_endpoints m ns !! e = Some b →
  identified (endpoint_resource (e, b)) (PEndpoints e.1.1 e.1.2 e.2).
Proof.
  intros (k & p & s & Hs)%namespace_endpoints_servable. by apply (endpoint_identified (e, b) k p s).
Qed.

Lemma own_distinct_keys key r r' k :
  own_of key r → own_of key r' → canonical_key r = Ok k → canonical_key r' = Ok k → r = r'.
Proof.
  intros Ho Ho' Hk Hk'.
  destruct (own_identified key r Ho) as (p & id & -> & Hp & Hi & Hq).
  destruct (own_identified key r' Ho') as (p' & id' & -> & Hp' & Hi' & Hq').
  assert (id = id') as <- by (by pose proof (identified_key _ _ _ _ k Hq Hq' Hk Hk') as [= ->]).
  destruct Ho as (snap & q & _ & Hm & Hin & Heq), Ho' as (snap' & q' & _ & Hm' & Hin' & Heq').
  rewrite Hm in Hm'. injection Hm' as <-.
  destruct (gateway_resources_plain _ _ Hin) as (x & -> & _). injection Heq as ->.
  destruct (gateway_resources_plain _ _ Hin') as (x' & -> & _). injection Heq' as ->.
  destruct Hi as (Hid & Hkok & k1 & Hk1), Hi' as (Hid' & _ & k2 & Hk2).
  rewrite (own_distinct _ (proj2 (Hok key snap Hm)) (plain x) (plain x') k1); [done|done|done|done|].
  destruct (canonical_key_render _ _ Hk1) as (y & Hy & -> & _).
  destruct (canonical_key_render _ _ Hk2) as (y' & Hy' & -> & _).
  rewrite Hid in Hy. injection Hy as <-. rewrite Hid' in Hy'. by injection Hy' as <-.
Qed.

(** The three kinds of resources have identities of three kinds. *)
Lemma namespace_identified r :
  r ∈ namespace_resources m publish ns →
  ∃ id, identified r id ∧
    ((∃ key i, own_of key r ∧ id = PQualified key.1 key.2 i) ∨
     (∃ key, meta_of key r ∧ id = PGatewayMeta key.1 key.2) ∨
     (∃ e b, namespace_endpoints m ns !! e = Some b ∧ r = endpoint_resource (e, b) ∧
        id = PEndpoints e.1.1 e.1.2 e.2)).
Proof.
  intros [[key Ho]|[[key Ho]|(e & b & He & ->)]]%namespace_resources_elem.
  - destruct (own_identified key r Ho) as (p & i & _ & _ & _ & Hi). eexists. split; [done|]. eauto.
  - eexists. split; [by apply meta_of_identified|]. eauto.
  - eexists. split; [by apply endpoint_of_identified|]. right. right. eauto.
Qed.

Lemma namespace_distinct : distinct_keys (namespace_resources m publish ns).
Proof.
  intros r r' k Hr Hr' Hk Hk'.
  destruct (namespace_identified r Hr) as (id & Hi & Hc), (namespace_identified r' Hr') as (id' & Hi' & Hc').
  pose proof (identified_key _ _ _ _ k Hi Hi' Hk Hk') as <-. clear Hi Hi'.
  destruct Hc as [([n g] & i & Ho & ->)|[([n g] & Ho & ->)|([[en es] ep] & b & He & -> & ->)]],
    Hc' as [([n' g'] & i' & Ho' & [= -> -> ->])|[([n' g'] & Ho' & [= -> ->])|
      ([[en' es'] ep'] & b' & He' & -> & [= -> -> ->])]].
  - by apply (own_distinct_keys (n', g') r r' k).
  - destruct Ho as (snap & _ & Hm & ->), Ho' as (snap' & _ & Hm' & ->).
    rewrite Hm in Hm'. by injection Hm' as <-.
  - rewrite He in He'. by injection He' as <-.
Qed.

End namespace_view.
