(* ===== verification/RelayFacts.v ===== *)
(** * Facts about the namespace relay

    The aggregate view of a namespace taken apart again: every Gateway of the namespace
    and no other is served from the relay, with the world that a direct subscription
    would give it; and the sequences that the relay hands on, with the interleaving in
    which one of them runs ahead of its content. *)

From S2P Require Import Prelude Health NodeRegistry HealthWire Roster.
From S2P Require Import PublishIndex ResourceKey ResourceKeyFacts Apply ApplyFacts Stream StreamFacts.
From S2P Require Import Relay RelayViews.

(** ** Staging at the relay *)

Section staging.
Context {B C : Type} `{HashIter}.
Context (resource_hash : Resource B → str) (sha256_hex : str → str).
Implicit Types (r : Resource B) (d : NamespaceDemux B C).

Lemma stage_replace_spec (l : list (str * Resource B)) : ∀ w : gmap str (Resource B) * gmap str str,
  (∀ k r, (k, r) ∈ l → canonical_key r = Ok k ∧ w.1 !! k = None) → NoDup l.*1 →
  stage_replace resource_hash w l.*2 =
    Ok (foldl (λ acc kr, <[kr.1 := kr.2]> acc) w.1 l,
        foldl (λ acc kr, <[kr.1 := resource_hash kr.2]> acc) w.2 l).
Proof.
  induction l as [|[k r] l IH]; intros [w hs] Hl; cbn [fmap list_fmap fst snd]; intros Hnd;
    cbn [stage_replace foldl fst snd]; [done|].
  apply NoDup_cons in Hnd as [Hk Hnd]. destruct (Hl k r) as [-> Hw]; [by left|]. cbn [fst] in Hw.
  rewrite Hw. apply (IH (_, _)); [|done]. intros k' r' Hin.
  destruct (Hl k' r') as [Hc Hn]; [by right|]. split; [done|]. cbn [fst] in Hn |- *.
  rewrite lookup_insert_ne; [done|]. intros ->. apply Hk. apply list_elem_of_fmap. by exists (k', r').
Qed.

Lemma foldl_insert_list_to_map {V W} (f : V → W) (l : list (str * V)) : ∀ acc : gmap str W,
  NoDup l.*1 →
  foldl (λ acc kr, <[kr.1 := f kr.2]> acc) acc l = (f <$> list_to_map l) ∪ acc.
Proof.
  induction l as [|[k v] l IH]; intros acc; cbn [fmap list_fmap fst]; intros Hnd; cbn [foldl].
  - cbn. by rewrite fmap_empty, (left_id_L ∅ (∪)).
  - apply NoDup_cons in Hnd as [Hk Hnd]. rewrite IH by done. cbn [list_to_map foldr uncurry fst snd].
    rewrite fmap_insert, <-insert_union_l, insert_union_r; [done|].
    rewrite lookup_fmap, not_elem_of_list_to_map_1; done.
Qed.

Lemma list_to_map_btree {V W} (f : V → W) (w : gmap str V) :
  (list_to_map ((λ kv, (kv.1, f kv.2)) <$> btree_iter w) : gmap str W) = f <$> w.
Proof.
  apply map_eq. intros k. apply option_eq. intros x.
  rewrite list_to_map_fst_snd by apply btree_iter_NoDup. rewrite lookup_fmap, fmap_Some.
  split; intros (v & Hv & Hx); exists v; rewrite btree_iter_elem in *; by subst.
Qed.

(** A full message replaces the relay's world with the view's, and its version
    matches. *)
Lemma demux_stage_full d v :
  served resource_hash sha256_hex v →
  demux_stage resource_hash d (full_message v) = Ok (resource <$> view_resources v, resource_hashes v) ∧
  from_per_resource sha256_hex (hash_iter (resource_hashes v)).*2 = view_version v.
Proof.
  intros Hs. pose proof (served_ok resource_hash sha256_hex v Hs) as Hv. split.
  - unfold demux_stage. cbn [full full_message resources]. rewrite keyed_snd, stage_replace_spec.
    + rewrite (foldl_insert_list_to_map (λ r, r)), foldl_insert_list_to_map
        by (rewrite keyed_fst; apply btree_iter_NoDup).
      rewrite map_fmap_id. cbn [fst snd]. rewrite !(right_id_L ∅ (∪)).
      unfold keyed. rewrite (list_to_map_btree resource). do 2 f_equal.
      rewrite (vo_hashes _ _ v Hv), <-map_fmap_compose.
      apply map_fmap_ext. intros k e He. cbn. symmetry. by apply (vo_entry _ _ v Hv k).
    + intros k r Hin. split; [|apply lookup_empty].
      by apply (keyed_canonical resource_hash sha256_hex v (btree_iter (view_resources v))).
    + rewrite keyed_fst. apply btree_iter_NoDup.
  - rewrite (vo_version _ _ v Hv). unfold version_of. apply from_per_resource_perm.
    by rewrite hash_iter_perm.
Qed.

(** Deltas. *)
Lemma stage_upserts_spec (l : list (str * Resource B)) : ∀ (w : gmap str (Resource B) * gmap str str) seen,
  (∀ k r, (k, r) ∈ l → canonical_key r = Ok k ∧ k ∉ seen) → NoDup l.*1 →
  stage_upserts resource_hash w seen l.*2 =
    Ok ((foldl (λ acc kr, <[kr.1 := kr.2]> acc) w.1 l,
         foldl (λ acc kr, <[kr.1 := resource_hash kr.2]> acc) w.2 l), list_to_set l.*1 ∪ seen).
Proof.
  induction l as [|[k r] l IH]; intros [w hs] seen Hl; cbn [fmap list_fmap fst snd]; intros Hnd;
    cbn [stage_upserts foldl fst snd list_to_set foldr].
  { by rewrite (left_id_L ∅ (∪)). }
  apply NoDup_cons in Hnd as [Hk Hnd]. destruct (Hl k r) as [-> Hw]; [by left|].
  rewrite bool_decide_eq_false_2 by done. rewrite (IH (_, _)); [|intros k' r' Hin|done].
  - do 2 f_equal. set_solver.
  - destruct (Hl k' r') as [Hc Hn]; [by right|]. split; [done|].
    intros [->%elem_of_singleton|?]%elem_of_union; [|done].
    apply Hk, list_elem_of_fmap. by exists (k, r').
Qed.

Lemma stage_removals_spec (seen : gset str) (ks : list str) : ∀ w : gmap str (Resource B) * gmap str str,
  (∀ k, k ∈ ks → k ∉ seen) →
  stage_removals w seen ks = Ok (foldr delete w.1 ks, foldr delete w.2 ks).
Proof.
  induction ks as [|k ks IH]; intros [w hs] Hk; cbn [stage_removals foldr fst snd]; [done|].
  rewrite bool_decide_eq_false_2 by (apply Hk; by left). rewrite (IH (_, _)) by (intros; apply Hk; by right).
  cbn [fst snd]. by rewrite !foldr_delete_comm.
Qed.

Lemma fmap_foldr_delete {V W} (f : V → W) (ks : list str) (w : gmap str V) :
  f <$> foldr delete w ks = foldr delete (f <$> w) ks.
Proof. induction ks as [|k ks IH]; cbn; [done|]. by rewrite fmap_delete, IH. Qed.

(** The relay holds a view. *)
Definition holds d (v : MaterializedView) : Prop :=
  demux_resources d = resources_of v ∧ demux_hashes d = resource_hashes v.

Lemma served_hashes v :
  served resource_hash sha256_hex v → resource_hashes v = resource_hash <$> resources_of v.
Proof.
  intros Hv%served_ok. unfold resources_of. rewrite (vo_hashes _ _ v Hv), <-map_fmap_compose.
  apply map_fmap_ext. intros k e He. by apply (vo_entry _ _ v Hv k).
Qed.

Lemma demux_stage_delta d v0 v1 msg w :
  served resource_hash sha256_hex v0 → served resource_hash sha256_hex v1 →
  collision_free resource_hash v0 v1 → holds d v0 →
  build_outbound v1 (Some (resource_hashes v0)) = Some (msg, w) →
  full msg = false ∧ version msg = view_version v1 ∧
  demux_stage resource_hash d msg = Ok (resources_of v1, resource_hashes v1).
Proof.
  intros Hv0 Hv1 Hcf [Hr Hh] Hb.
  pose proof (served_ok _ _ _ Hv0) as Ho0. pose proof (served_ok _ _ _ Hv1) as Ho1.
  set (ups := keyed (upserts v1 (resource_hashes v0))).
  assert (full msg = false ∧ version msg = view_version v1 ∧ resources msg = ups.*2 ∧
          removed_resources msg = tombstones v1 (resource_hashes v0)) as (Hf & Hver & Hm & Ht).
  { unfold ups. rewrite <-keyed_snd. cbn in Hb.
    destruct (upserts _ _), (tombstones _ _); by simplify_eq/=. }
  assert (NoDup ups.*1) as Hnd by (unfold ups; rewrite keyed_fst; apply NoDup_fst_filter, btree_iter_NoDup).
  split_and!; [done|done|]. unfold demux_stage. rewrite Hf, Hm, Ht, Hr, Hh. rewrite stage_upserts_spec.
  - cbn [fst snd]. rewrite stage_removals_spec.
    + cbn [fst snd]. rewrite (foldl_insert_list_to_map (λ r, r)), foldl_insert_list_to_map by done.
      pose proof (delta_resources resource_hash sha256_hex v0 v1 Ho0 Ho1 Hcf) as Hd.
      fold ups in Hd. set (tombs := tombstones _ _) in *.
      by rewrite map_fmap_id, (served_hashes v0 Hv0), <-map_fmap_union, <-fmap_foldr_delete, Hd,
        (served_hashes v1 Hv1).
    + intros k [Hn _]%tombstones_elem [Hin|?]%elem_of_union; [|set_solver].
      unfold ups in Hin. rewrite keyed_fst in Hin.
      apply elem_of_list_to_set, list_elem_of_fmap in Hin as ([k' e] & -> & Hin).
      apply (upserts_elem sha256_hex) in Hin as [? _]. cbn in Hn. congruence.
  - intros k r Hin. split; [|set_solver].
    apply (keyed_canonical resource_hash sha256_hex v1 (upserts v1 (resource_hashes v0)));
      [done| |done]. intros kv [_ ?]%list_elem_of_filter. done.
  - done.
Qed.

End staging.

(** ** Partition *)

Section partition.
Context {B C : Type}.
Implicit Types (r : Resource B) (l : list (Resource B)).

(** The part of a list that belongs to a Gateway, without the qualifiers; the records of
    its metadata; and the shared endpoints. *)
Definition is_own (key : ObjectKey) r : bool :=
  match payload r with
  | Some (GatewayMeta _ _) | None => false
  | Some _ => bool_decide (qualifier_key r = Some key)
  end.

Definition meta_entry (key : ObjectKey) r : option (Z * str) :=
  match payload r with
  | Some (GatewayMeta seq sa) => if bool_decide (qualifier_key r = Some key) then Some (seq, sa) else None
  | _ => None
  end.

Definition is_shared r : bool :=
  match payload r with
  | Some (Endpoints _ _ _ _) => bool_decide (qualifier_key r = None)
  | _ => false
  end.

(** The resources a relay accepts: qualified, or endpoints. *)
Definition sorted_out r : bool :=
  match payload r with
  | None => false
  | Some (Endpoints _ _ _ _) => true
  | Some _ => bool_decide (is_Some (qualifier_key r))
  end.

Definition parts (p : Partition B) l : Prop :=
  (∀ key, default [] (per_gateway p !! key) = dequalify <$> filter (is_own key) l) ∧
  (∀ key, is_Some (per_gateway p !! key) → ∃ r, r ∈ l ∧ is_own key r = true) ∧
  (∀ key, meta p !! key = last (omap (meta_entry key) l)) ∧
  shared_endpoints p = filter is_shared l.

Lemma partition_all_snoc acc l r :
  partition_all acc (l ++ [r]) = (acc' <-? partition_all acc l ;; partition_one acc' r).
Proof.
  revert acc. induction l as [|x l IH]; intros acc; cbn [app partition_all].
  - cbn. by destruct (partition_one acc r).
  - destruct (partition_one acc x); cbn; [apply IH|done].
Qed.

Lemma filter_bool_snoc (f : Resource B → bool) l r :
  filter f (l ++ [r]) = filter f l ++ (if f r then [r] else []).
Proof.
  rewrite filter_app. f_equal. destruct (f r) eqn:E.
  - by rewrite filter_cons_True by (rewrite E; done).
  - by rewrite filter_cons_False by (rewrite E; auto).
Qed.

Lemma omap_snoc {X Y} (f : X → option Y) (l : list X) x :
  omap f (l ++ [x]) = omap f l ++ option_list (f x).
Proof. apply (omap_app f l [x]). Qed.

Lemma parts_snoc p p' l r :
  parts p l →
  (∀ key, default [] (per_gateway p' !! key) =
     default [] (per_gateway p !! key) ++ (if is_own key r then [dequalify r] else [])) →
  (∀ key, is_Some (per_gateway p' !! key) → is_Some (per_gateway p !! key) ∨ is_own key r = true) →
  (∀ key, meta p' !! key = match meta_entry key r with Some x => Some x | None => meta p !! key end) →
  shared_endpoints p' = shared_endpoints p ++ (if is_shared r then [r] else []) →
  parts p' (l ++ [r]).
Proof.
  intros (Hg & Hs & Hm & He) Hg' Hs' Hm' He'. split_and!.
  - intros key. rewrite Hg', Hg, filter_bool_snoc, fmap_app. by destruct (is_own key r).
  - intros key [Hk|Hk]%Hs'.
    + destruct (Hs key Hk) as (x & ? & ?). exists x. rewrite elem_of_app. auto.
    + exists r. split; [|done]. apply elem_of_app. right. by left.
  - intros key. rewrite Hm', Hm, omap_snoc.
    destruct (meta_entry key r) as [x|]; [|by rewrite app_nil_r].
    symmetry. apply (last_snoc x).
  - by rewrite He', He, filter_bool_snoc.
Qed.

(** One resource is filed where it belongs. *)
Lemma partition_one_parts p l r :
  parts p l → sorted_out r = true → ∃ p', partition_one p r = Ok p' ∧ parts p' (l ++ [r]).
Proof.
  intros Hp. unfold sorted_out, partition_one.
  destruct (payload r) as [pl|] eqn:Epl; [|done]. destruct (qualifier_key r) as [key|] eqn:Eq.
  - destruct pl; intros _; eexists; (split; [reflexivity|]);
      (apply (parts_snoc p); [done|..]); unfold is_own, meta_entry, is_shared;
      rewrite ?Epl; cbn [per_gateway meta shared_endpoints];
      try (by rewrite app_nil_r); try (by rewrite bool_decide_eq_false_2, app_nil_r by congruence);
      intros key'; rewrite ?Eq, ?app_nil_r; try done; try (by left);
      (destruct (decide (key = key')) as [->|Hne];
       [rewrite bool_decide_eq_true_2, ?lookup_insert_eq by done
       |rewrite bool_decide_eq_false_2, ?lookup_insert_ne, ?app_nil_r by congruence]); auto.
  - destruct pl; try (by rewrite bool_decide_eq_false_2 by (by intros [])). intros _. eexists.
    split; [reflexivity|]. apply (parts_snoc p); [done|..]; unfold is_own, meta_entry, is_shared;
      rewrite Epl; cbn [per_gateway meta shared_endpoints]; try intros key; rewrite ?Eq; try done.
    + by rewrite app_nil_r.
    + by left.
Qed.

Lemma partition_all_parts l :
  (∀ r, r ∈ l → sorted_out r = true) →
  ∃ p, partition_all (mkPartition ∅ ∅ []) l = Ok p ∧ parts p l.
Proof.
  induction l as [|r l IH] using rev_ind; intros Hl.
  - eexists. split; [done|]. split_and!; try done. intros key. cbn. rewrite lookup_empty. by intros [].
  - destruct IH as (p & Hp & Hparts); [intros; apply Hl, elem_of_app; by left|].
    destruct (partition_one_parts p l r Hparts) as (p' & Hp' & ?).
    { apply Hl, elem_of_app. right. by left. }
    exists p'. by rewrite partition_all_snoc, Hp.
Qed.

End partition.

(** ** The parts of a namespace *)

Section demultiplexed.
Context {B C : Type} `{CellEncoders C B, HashIter}.
Context (m : gmap ObjectKey (DedicatedRoutingSnapshot C)) (publish : PublishIndex) (ns : str).
Context (Hok : registry_ok m).
Implicit Types (r : Resource B) (l : list (Resource B)) (key : ObjectKey).

Lemma qualifier_key_qualified pl key :
  name_ok key → qualifier_key (mkResource pl key.1 key.2 : Resource B) = Some key.
Proof.
  intros (H1 & _ & H3 & _). unfold qualifier_key. cbn [qualifier_namespace qualifier_name].
  rewrite !bool_decide_eq_false_2 by done. by destruct key.
Qed.

Lemma own_classified k r :
  own_of m ns k r →
  (∀ key, is_own key r = true ↔ key = k) ∧ (∀ key, meta_entry key r = None) ∧
  is_shared r = false ∧ sorted_out r = true ∧
  ∃ snap, m !! k = Some snap ∧ dequalify r ∈ gateway_resources (snap_cells snap).
Proof.
  intros (snap & q & _ & Hm & Hq & ->). destruct (Hok k snap Hm) as [Hn _].
  destruct (gateway_resources_plain _ _ Hq) as (p & -> & Hp).
  unfold is_own, meta_entry, is_shared, sorted_out, qualify. cbn [payload plain].
  rewrite (qualifier_key_qualified _ k Hn).
  destruct p; try done; (split_and!; [|done|done|by rewrite bool_decide_eq_true_2|by exists snap]);
    intros key; rewrite bool_decide_eq_true; naive_solver.
Qed.

Lemma meta_classified k r :
  meta_of m publish ns k r →
  (∀ key, is_own key r = false) ∧ is_shared r = false ∧ sorted_out r = true ∧
  ∃ snap, m !! k = Some snap ∧ ∀ key, meta_entry key r =
    if bool_decide (key = k)
    then Some (match get k publish with Some st => stamp_seq st | None => 0%Z end, expected_proxy_sa snap)
    else None.
Proof.
  intros (snap & _ & Hm & ->). destruct (Hok k snap Hm) as [Hn _].
  unfold is_own, meta_entry, is_shared, sorted_out, meta_resource. cbn [payload].
  rewrite (qualifier_key_qualified _ k Hn). split_and!; [done|done|by rewrite bool_decide_eq_true_2|].
  exists snap. split; [done|]. intros key.
  repeat case_bool_decide; naive_solver.
Qed.

Lemma endpoint_classified e (b : B) :
  let r := endpoint_resource (e, b) in
  (∀ key, is_own key r = false) ∧ (∀ key, meta_entry key r = None) ∧
  is_shared r = true ∧ sorted_out r = true.
Proof. destruct e as [[? ?] ?]. cbn. by split_and!. Qed.

(** [l] is an enumeration of the namespace's resources. *)
Context (l : list (Resource B)) (Hnd : NoDup l).
Context (Hl : ∀ r, r ∈ l ↔ r ∈ namespace_resources m publish ns).

Lemma all_sorted_out r : r ∈ l → sorted_out r = true.
Proof.
  intros [[k Ho]|[[k Ho]|(e & b & _ & ->)]]%Hl%namespace_resources_elem.
  - by apply (own_classified k).
  - by apply (meta_classified k).
  - apply endpoint_classified.
Qed.

Lemma own_part_elem key snap r :
  key.1 = ns → m !! key = Some snap →
  r ∈ dequalify <$> filter (is_own key) l ↔ r ∈ gateway_resources (snap_cells snap).
Proof.
  intros Hns Hm. rewrite list_elem_of_fmap. split.
  - intros (q & -> & [Hq%Is_true_true Hin]%list_elem_of_filter).
    apply Hl, namespace_resources_elem in Hin as [[k Ho]|[[k Ho]|(e & b & _ & ->)]].
    + destruct (own_classified k q Ho) as (Hk & _ & _ & _ & snap' & Hm' & ?).
      apply Hk in Hq as ->. rewrite Hm in Hm'. by injection Hm' as <-.
    + destruct (meta_classified k q Ho) as [Hf _]. by rewrite Hf in Hq.
    + by rewrite (proj1 (endpoint_classified e b)) in Hq.
  - intros Hr. assert (own_of m ns key (qualify key r)) as Ho by (exists snap, r; done).
    exists (qualify key r). split.
    + by destruct (gateway_resources_plain _ _ Hr) as (p & -> & _).
    + apply list_elem_of_filter. split.
      * apply Is_true_true. by apply (own_classified key _ Ho).
      * apply Hl, namespace_resources_elem. eauto.
Qed.

Lemma own_part_NoDup key : NoDup (dequalify <$> filter (is_own key) l).
Proof.
  apply NoDup_fmap_2_strong; [|by apply NoDup_filter].
  assert (∀ r, r ∈ filter (is_own key) l → qualifier_key r = Some key) as Hq.
  { intros r [Hr%Is_true_true _]%list_elem_of_filter. unfold is_own in Hr.
    destruct (payload r) as [[]|]; try done; by apply bool_decide_eq_true in Hr. }
  intros [p n g] [p' n' g'] Hr%Hq Hr'%Hq [= ->].
  unfold qualifier_key in Hr, Hr'. cbn [qualifier_namespace qualifier_name] in Hr, Hr'.
  do 2 (case_match; [|done]). congruence.
Qed.

Lemma shared_part_elem r :
  r ∈ filter is_shared l ↔ r ∈ into_resources (namespace_endpoints m ns).
Proof.
  rewrite list_elem_of_filter, Is_true_true, Hl, namespace_resources_elem, into_resources_elem. split.
  - intros [Hs [[k Ho]|[[k Ho]|?]]]; [..|done].
    + destruct (own_classified k r Ho) as (_ & _ & Hf & _). by rewrite Hf in Hs.
    + destruct (meta_classified k r Ho) as (_ & Hf & _). by rewrite Hf in Hs.
  - intros (e & b & He & ->). split; [apply endpoint_classified|]. right. right. by exists e, b.
Qed.

Lemma meta_part key :
  last (omap (meta_entry key) l) =
    if bool_decide (key.1 = ns)
    then (λ snap, (match get key publish with Some st => stamp_seq st | None => 0%Z end,
                   expected_proxy_sa snap)) <$> m !! key
    else None.
Proof.
  assert (∀ x, x ∈ omap (meta_entry key) l ↔ key.1 = ns ∧ ∃ snap, m !! key = Some snap ∧
    x = (match get key publish with Some st => stamp_seq st | None => 0%Z end, expected_proxy_sa snap))
    as Hx.
  { intros x. rewrite list_elem_of_omap. split.
    - intros (r & Hin & Hr). apply Hl, namespace_resources_elem in Hin as [[k Ho]|[[k Ho]|(e & b & _ & ->)]].
      + destruct (own_classified k r Ho) as (_ & Hf & _). by rewrite Hf in Hr.
      + destruct (meta_classified k r Ho) as (_ & _ & _ & snap & Hm & He). rewrite He in Hr.
        case_bool_decide; [subst|done]. injection Hr as <-. destruct Ho as (? & ? & _). eauto.
      + by rewrite (proj1 (proj2 (endpoint_classified e b))) in Hr.
    - intros (Hns & snap & Hm & ->).
      set (r := meta_resource publish key snap : Resource B).
      assert (meta_of m publish ns key r) as Ho by (by exists snap).
      exists r. split.
      + apply Hl, namespace_resources_elem. eauto.
      + destruct (meta_classified key _ Ho) as (_ & _ & _ & snap' & Hm' & ->).
        rewrite bool_decide_eq_true_2 by done. rewrite Hm in Hm'. by injection Hm' as <-. }
  destruct (last (omap (meta_entry key) l)) as [x|] eqn:E.
  - apply last_Some_elem_of, Hx in E as (Hns & snap & -> & ->). by rewrite bool_decide_eq_true_2.
  - apply last_None in E. case_bool_decide as Hns; [|done]. destruct (m !! key) as [snap|] eqn:Hm; [|done].
    exfalso. eapply not_elem_of_nil. rewrite <-E. apply Hx. eauto.
Qed.

End demultiplexed.

(** ** The world of one Gateway *)

Section gateway_world.
Context {B C : Type} `{CellEncoders C B, HashIter}.
Context (resource_hash : Resource B → str) (body_refs : B → gset EndpointKey).
Implicit Types (c : C) (eps : gmap EndpointKey B) (r : Resource B).

(** A Gateway's own resources with a set of endpoints. *)
Definition gateway_list c eps : list (Resource B) := gateway_resources c ++ into_resources eps.

Definition endpoints_ok eps : Prop :=
  ∀ e b, eps !! e = Some b → ∃ k p s, servable (endpoint_resource (e, b)) k p s.

Lemma endpoint_resource_inj : Inj (=) (=) (endpoint_resource (B := B)).
Proof. intros [[[? ?] ?] ?] [[[? ?] ?] ?] [= -> -> -> ->]. done. Qed.

Lemma into_resources_NoDup eps : NoDup (into_resources eps).
Proof.
  unfold into_resources. apply (NoDup_fmap_2_strong endpoint_resource).
  - intros x y _ _. apply endpoint_resource_inj.
  - eapply NoDup_fmap_1, hash_iter_NoDup.
Qed.

Lemma gateway_list_servable c eps r :
  cells_ok c → endpoints_ok eps → r ∈ gateway_list c eps → ∃ k p s, servable r k p s.
Proof.
  intros Hc He [Hr|(e & b & Hb & ->)%into_resources_elem]%elem_of_app; [by apply (own_servable c)|by apply He].
Qed.

Lemma own_id_not_endpoints (p : Payload B) ns svc port :
  own_payload p = true → payload_id p ≠ Some (PEndpoints ns svc port).
Proof.
  destruct p as [table prt [h|]| | | | | | | | | ]; try done. cbn.
  intros _. repeat case_match; simplify_eq/=; done.
Qed.

Lemma own_not_endpoint c eps r r' k :
  cells_ok c → endpoints_ok eps → r ∈ gateway_resources c → r' ∈ into_resources eps →
  canonical_key r = Ok k → canonical_key r' = Ok k → False.
Proof.
  intros Hc He Hr (e & b & Hb & ->)%into_resources_elem Hk Hk'.
  destruct (own_servable c Hc r Hr) as (? & ? & ? & Hs). destruct (He e b Hb) as (? & ? & ? & Hs').
  destruct (servable_identified _ _ _ _ Hs) as [id Hid]. apply endpoint_identified in Hs'.
  pose proof (identified_key _ _ _ _ k Hid Hs' Hk Hk') as ->.
  destruct (gateway_resources_plain c r Hr) as (p & -> & Hp).
  apply plain_identified in Hid as [Hid _]; [|done]. by apply own_id_not_endpoints in Hid.
Qed.

Lemma gateway_list_distinct c eps :
  cells_ok c → endpoints_ok eps → distinct_keys (gateway_list c eps).
Proof.
  intros Hc He r r' k [Hr|Hr]%elem_of_app [Hr'|Hr']%elem_of_app Hk Hk'.
  - by apply (own_distinct c Hc r r' k).
  - by destruct (own_not_endpoint c eps r r' k).
  - by destruct (own_not_endpoint c eps r' r k).
  - apply into_resources_elem in Hr as (e & b & Hb & ->), Hr' as (e' & b' & Hb' & ->).
    destruct (He e b Hb) as (? & ? & ? & Hs), (He e' b' Hb') as (? & ? & ? & Hs').
    apply endpoint_identified in Hs, Hs'. pose proof (identified_key _ _ _ _ k Hs Hs' Hk Hk') as Heq.
    destruct e as [[? ?] ?], e' as [[? ?] ?]. injection Heq as -> -> ->.
    rewrite Hb in Hb'. by injection Hb' as ->.
Qed.

Lemma gateway_list_NoDup c eps : cells_ok c → NoDup (gateway_list c eps).
Proof.
  intros Hc. apply NoDup_app. split_and!; [by apply own_NoDup| |apply into_resources_NoDup].
  intros r Hr (e & b & _ & ->)%into_resources_elem.
  apply gateway_resources_plain in Hr as (p & Heq & Hp). destruct e as [[? ?] ?].
  injection Heq as <-. done.
Qed.

(** What two worlds of one Gateway have in common, when their endpoints differ. *)
Definition same_but_endpoints (st st' : Staged B) : Prop :=
  (∀ s, (∀ e, s ≠ SEndpoints e) → slots st !! s = slots st' !! s) ∧ refs st = refs st'.

Lemma endpoint_slot e b k p s :
  servable (endpoint_resource (e, b) : Resource B) k p s → s = SEndpoints e.
Proof.
  destruct e as [[n g] port]. intros (_ & [= <-] & Hs & _). cbn in Hs.
  destruct (port_u16 port) as [q|] eqn:E; [|done]. apply port_u16_Ok in E as [-> _].
  by injection Hs as <-.
Qed.

Lemma represents_own c eps st s p :
  cells_ok c → endpoints_ok eps → represents resource_hash body_refs (rworld resource_hash (gateway_list c eps)) st →
  (∀ e, s ≠ SEndpoints e) →
  slots st !! s = Some p ↔
    ∃ r k, r ∈ gateway_resources c ∧ canonical_key r = Ok k ∧ key_slot k = Some s ∧ payload r = Some p.
Proof.
  intros Hc He Hrep Hs. rewrite (rep_slots _ _ _ _ Hrep). split.
  - intros (k & r & Hk & Hsl & Hp). apply rworld_lookup in Hk as [Hr Hk]; [|by apply gateway_list_distinct].
    apply elem_of_app in Hr as [Hr|(e & b & Hb & ->)%into_resources_elem]; [by exists r, k|].
    destruct (He e b Hb) as (k' & p' & s' & Hsv). exfalso.
    pose proof (endpoint_slot _ _ _ _ _ Hsv) as ->. apply (Hs e).
    assert (k' = k) as -> by (destruct Hsv as [Hk' _]; rewrite Hk in Hk'; by injection Hk').
    apply servable_slot in Hsv. rewrite Hsl in Hsv. by injection Hsv.
  - intros (r & k & Hr & Hk & Hsl & Hp). exists k, r. split_and!; [|done|done].
    apply rworld_lookup; [by apply gateway_list_distinct|]. split; [|done]. apply elem_of_app. by left.
Qed.

Lemma represents_endpoint c eps st e :
  cells_ok c → endpoints_ok eps → represents resource_hash body_refs (rworld resource_hash (gateway_list c eps)) st →
  is_Some (eps !! e) → is_Some (slots st !! SEndpoints e).
Proof.
  intros Hc He Hrep [b Hb]. destruct (He e b Hb) as (k & p & s & Hsv).
  exists p. apply (rep_slots _ _ _ _ Hrep). exists k, (endpoint_resource (e, b)).
  pose proof (endpoint_slot _ _ _ _ _ Hsv) as ->. pose proof (servable_slot _ _ _ _ Hsv) as Hks.
  destruct Hsv as (Hk & Hp & _). split_and!; [|done|done].
  apply rworld_lookup; [by apply gateway_list_distinct|]. split; [|done]. apply elem_of_app. right.
  apply into_resources_elem. eauto.
Qed.

Lemma represents_same c eps eps' st st' :
  cells_ok c → endpoints_ok eps → endpoints_ok eps' →
  represents resource_hash body_refs (rworld resource_hash (gateway_list c eps)) st →
  represents resource_hash body_refs (rworld resource_hash (gateway_list c eps')) st' →
  same_but_endpoints st st'.
Proof.
  intros Hc He He' Hr Hr'.
  assert (∀ s, (∀ e, s ≠ SEndpoints e) → slots st !! s = slots st' !! s) as Hsl.
  { intros s Hs. apply option_eq. intros p.
    by rewrite (represents_own c eps), (represents_own c eps'). }
  split; [done|]. apply map_eq. intros s. apply option_eq. intros x.
  rewrite (rep_refs _ _ _ _ Hr), (rep_refs _ _ _ _ Hr').
  destruct (carries_refs s) eqn:E; [|by split; intros []]. rewrite Hsl; [done|].
  intros e ->. done.
Qed.

Lemma own_slot (p : Payload B) s e : own_payload p = true → slot_of p = Ok s → s ≠ SEndpoints e.
Proof.
  intros Hp Hs ->. destruct p; try done; cbn in Hs;
    unfold route_partition_key, object_slot in Hs; repeat (case_match; simplify_eq/=).
Qed.

Lemma represents_endpoint_inv c eps st e p :
  cells_ok c → endpoints_ok eps → represents resource_hash body_refs (rworld resource_hash (gateway_list c eps)) st →
  slots st !! SEndpoints e = Some p →
  ∃ b, eps !! e = Some b ∧ payload (endpoint_resource (e, b)) = Some p.
Proof.
  intros Hc He Hrep (k & r & Hk & Hsl & Hp)%(rep_slots _ _ _ _ Hrep).
  apply rworld_lookup in Hk as [Hr Hk]; [|by apply gateway_list_distinct].
  destruct (gateway_list_servable c eps r Hc He Hr) as (k' & p' & s & Hsv).
  pose proof Hsv as (Hk' & Hp' & Hslot & _). rewrite Hk in Hk'. injection Hk' as <-.
  rewrite Hp in Hp'. injection Hp' as <-.
  pose proof (servable_slot _ _ _ _ Hsv) as Hs. rewrite Hsl in Hs. injection Hs as <-.
  apply elem_of_app in Hr as [Hr|(e' & b & Hb & ->)%into_resources_elem].
  - destruct (gateway_resources_plain c r Hr) as (x & -> & Hx). injection Hp as ->.
    by destruct (own_slot p _ e Hx Hslot).
  - pose proof (endpoint_slot _ _ _ _ _ Hsv) as [= ->]. by exists b.
Qed.

End gateway_world.

(** ** Rebuilding *)

Lemma dedup_elem (l : list ObjectKey) k : k ∈ dedup l ↔ k ∈ l.
Proof.
  induction l as [|a [|b l] IH]; [done|done|].
  change (dedup (a :: b :: l)) with (if bool_decide (a = b) then dedup (b :: l) else a :: dedup (b :: l)).
  case_bool_decide as E.
  - subst b. etransitivity; [apply IH|]. rewrite !elem_of_cons. tauto.
  - by rewrite elem_of_cons, IH, (elem_of_cons (b :: l)).
Qed.

Section rebuilding.
Context {B C : Type} `{CellEncoders C B, HashIter}.
Context (resource_hash : Resource B → str) (sha256_hex : str → str).
Context (body_refs : B → gset EndpointKey).
Context (compile_error : ResourceCache B → Staged B → list Cell → option WireError).
Context (cells_of : Staged B → C).
Implicit Types (c : C) (eps : gmap EndpointKey B) (p : Partition B).

Notation snapshot_of :=
  (dedicated_snapshot_from_resources resource_hash sha256_hex body_refs compile_error cells_of).

(** A direct subscriber stages the Gateway's world. *)
Lemma stage_direct c eps seq :
  cells_ok c → endpoints_ok eps →
  ∃ st, stage_full resource_hash body_refs
          (full_message (fold_resources resource_hash sha256_hex (gateway_list c eps) seq)) = Ok st ∧
    represents resource_hash body_refs (rworld resource_hash (gateway_list c eps)) st.
Proof.
  intros Hc He. pose proof (gateway_list_distinct c eps Hc He) as Hd.
  set (v := fold_resources resource_hash sha256_hex (gateway_list c eps) seq).
  apply (stage_full_represents resource_hash body_refs _ (keyed (btree_iter (view_resources v)))).
  - intros k r [Hr Hk]%rworld_lookup; [|done].
    destruct (gateway_list_servable c eps r Hc He Hr) as (k' & p & s & Hsv).
    exists p, s. pose proof Hsv as [Hk' _]. rewrite Hk in Hk'. by injection Hk' as ->.
  - apply keyed_snd.
  - rewrite keyed_fst. apply btree_iter_NoDup.
  - intros k r. unfold keyed, rworld. rewrite list_elem_of_fmap, lookup_fmap, fmap_Some. split.
    + intros ([k' e] & [= -> ->] & Hin%btree_iter_elem). by exists e.
    + intros (e & He' & ->). exists (k, e). split; [done|]. by apply btree_iter_elem.
Qed.

(** The relay compiles the same world from its parts, in whatever order they come. *)
Lemma snapshot_of_parts c eps own shared sa :
  cells_ok c → endpoints_ok eps → NoDup own → NoDup shared →
  (∀ r, r ∈ own ↔ r ∈ gateway_resources c) → (∀ r, r ∈ shared ↔ r ∈ into_resources eps) →
  ∃ st, represents resource_hash body_refs (rworld resource_hash (gateway_list c eps)) st ∧
    snapshot_of own shared sa =
      match compile_error new_cache st all_cells with
      | Some e => Err e
      | None => Ok (mkDedicated (cells_of st) sa)
      end.
Proof.
  intros Hc He Hno Hns Ho Hs.
  assert (∀ r, r ∈ own ++ shared ↔ r ∈ gateway_list c eps) as Heq.
  { intros r. unfold gateway_list. by rewrite !elem_of_app, Ho, Hs. }
  pose proof (gateway_list_distinct c eps Hc He) as Hd.
  destruct (stage_full_rworld resource_hash body_refs (own ++ shared)
    (mkSnapshot [] true (own ++ shared) [] 0)) as (st & Hst & Hrep).
  - pose proof (gateway_list_NoDup c eps Hc) as Hnd. apply NoDup_app in Hnd as (_ & Hdis & _).
    apply NoDup_app. split_and!; [done| |done]. intros r Hr%Ho Hr'%Hs. by apply (Hdis r).
  - apply (distinct_keys_sub (gateway_list c eps)); [done|]. intros r. apply Heq.
  - intros r Hr%Heq. by apply (gateway_list_servable c eps).
  - done.
  - rewrite (rworld_ext _ (gateway_list c eps)) in Hrep by done.
    exists st. split; [done|]. unfold dedicated_snapshot_from_resources, apply_message.
    cbn [full negb andb]. rewrite Hst. cbn [new_cache has_full andb].
    by destruct (compile_error _ _ _).
Qed.

Lemma rebuild_loop_spec p (gs : list ObjectKey) : ∀ acc,
  match rebuild_loop resource_hash sha256_hex body_refs compile_error cells_of p acc gs with
  | Err e => ∃ key, key ∈ gs ∧ snapshot_of (default [] (per_gateway p !! key)) (shared_endpoints p)
      (default [] (snd <$> meta p !! key)) = Err e
  | Ok registry =>
      (∀ key, key ∉ gs → registry !! key = acc !! key) ∧
      ∀ key, key ∈ gs → ∃ snap, registry !! key = Some snap ∧
        snapshot_of (default [] (per_gateway p !! key)) (shared_endpoints p)
          (default [] (snd <$> meta p !! key)) = Ok snap
  end.
Proof.
  induction gs as [|g gs IH]; intros acc; cbn [rebuild_loop].
  { split; [done|]. by intros key ?%elem_of_nil. }
  destruct (snapshot_of _ _ _) as [snap|e] eqn:E; cbn; [|exists g; split; [by left|done]].
  specialize (IH (<[g := snap]> acc)).
  destruct (rebuild_loop _ _ _ _ _ p _ gs) as [registry|e].
  - destruct IH as [Hold Hnew]. split.
    + intros key [Hne Hk]%not_elem_of_cons. rewrite Hold by done. by rewrite lookup_insert_ne.
    + intros key [->|Hk]%elem_of_cons; [|by apply Hnew].
      destruct (decide (g ∈ gs)) as [?|Hg]; [by apply Hnew|]. exists snap. split; [|done].
      rewrite Hold by done. by rewrite lookup_insert_eq.
  - destruct IH as (key & Hk & ?). exists key. split; [by right|done].
Qed.

Lemma max_seq_ge (l : list (ObjectKey * (Z * str))) key x :
  (key, x) ∈ l → (x.1 ≤ foldr (λ m, Z.max m.2.1) 0 l)%Z.
Proof.
  induction l as [|y l IH]; [by intros ?%elem_of_nil|]. cbn [foldr].
  intros [<-|Hin%IH]%elem_of_cons; cbn; lia.
Qed.

End rebuilding.

(** ** The relay serves the namespace *)

Section relayed.
Context {B C : Type} `{CellEncoders C B, HashIter}.
Context (resource_hash : Resource B → str) (sha256_hex : str → str).
Context (body_refs : B → gset EndpointKey).
Context (compile_error : ResourceCache B → Staged B → list Cell → option WireError).
Context (cells_of : Staged B → C).
Context (m : gmap ObjectKey (DedicatedRoutingSnapshot C)) (publish : PublishIndex) (ns : str).

(** The world of a Gateway as the relay sees it. *)
Definition relayed_world (snap : DedicatedRoutingSnapshot C) (st : Staged B) : Prop :=
  represents resource_hash body_refs
    (rworld resource_hash (gateway_list (snap_cells snap) (namespace_endpoints m ns))) st.

Definition in_namespace (key : ObjectKey) snap : Prop := key.1 = ns ∧ m !! key = Some snap.

Context (Hok : registry_ok m).

Lemma namespace_endpoints_ok : endpoints_ok (namespace_endpoints m ns).
Proof. intros e b. by apply namespace_endpoints_servable. Qed.

Notation world := (rworld resource_hash (namespace_resources m publish ns)).

Lemma world_values r : r ∈ (hash_iter world).*2 ↔ r ∈ namespace_resources m publish ns.
Proof.
  pose proof (namespace_distinct m publish ns Hok) as Hd.
  rewrite list_elem_of_fmap. split.
  - intros ([k r'] & -> & Hin). apply hash_iter_elem, rworld_lookup in Hin as [? _]; done.
  - intros Hr. destruct (namespace_identified m publish ns Hok r Hr) as (id & (_ & _ & k & Hk) & _).
    exists (k, r). split; [done|]. apply hash_iter_elem, rworld_lookup; done.
Qed.

Lemma world_values_NoDup : NoDup (hash_iter world).*2.
Proof.
  pose proof (namespace_distinct m publish ns Hok) as Hd.
  apply NoDup_fmap_2_strong; [|eapply NoDup_fmap_1, hash_iter_NoDup].
  intros [k r] [k' r'] Hin Hin' Heq. cbn in Heq. subst r'.
  apply hash_iter_elem, rworld_lookup in Hin as [_ Hk]; [|done].
  apply hash_iter_elem, rworld_lookup in Hin' as [_ Hk']; [|done].
  rewrite Hk in Hk'. by injection Hk' as ->.
Qed.

Definition stamped (key : ObjectKey) : Z :=
  match get key publish with Some st => stamp_seq st | None => 0%Z end.

Record namespace_parts (p : Partition B) : Prop := {
  np_own : ∀ key snap, in_namespace key snap →
    NoDup (default [] (per_gateway p !! key)) ∧
    ∀ r, r ∈ default [] (per_gateway p !! key) ↔ r ∈ gateway_resources (snap_cells snap);
  np_own_keys : ∀ key, is_Some (per_gateway p !! key) → ∃ snap, in_namespace key snap;
  np_meta : ∀ key x, meta p !! key = Some x ↔
    ∃ snap, in_namespace key snap ∧ x = (stamped key, expected_proxy_sa snap);
  np_shared : NoDup (shared_endpoints p) ∧
    ∀ r, r ∈ shared_endpoints p ↔ r ∈ into_resources (namespace_endpoints m ns);
}.

Lemma partition_namespace :
  ∃ p, partition_all (mkPartition ∅ ∅ []) (hash_iter world).*2 = Ok p ∧ namespace_parts p.
Proof.
  pose proof world_values as Hl. pose proof world_values_NoDup as Hnd.
  set (l := (hash_iter world).*2) in *.
  destruct (partition_all_parts l) as (p & Hp & Hg & Hgs & Hm & Hs).
  { intros r. by apply (all_sorted_out m publish ns Hok l Hl). }
  exists p. split; [done|]. split.
  - intros key snap [Hns Hk]. rewrite Hg. split; [by apply own_part_NoDup|].
    intros r. by apply (own_part_elem m publish ns Hok l Hl).
  - intros key (r & Hr & Ho)%Hgs.
    apply Hl, namespace_resources_elem in Hr as [[k Hr]|[[k Hr]|(e & b & _ & ->)]].
    + pose proof Hr as (snap & _ & Hns & Hk & _).
      apply (own_classified m ns Hok k r Hr) in Ho as ->. by exists snap.
    + by rewrite (proj1 (meta_classified m publish ns Hok k r Hr)) in Ho.
    + by rewrite (proj1 (endpoint_classified e b)) in Ho.
  - intros key x. rewrite Hm, (meta_part m publish ns Hok l Hl). unfold in_namespace.
    case_bool_decide; [|naive_solver]. rewrite fmap_Some. naive_solver.
  - rewrite Hs. split; [by apply NoDup_filter|]. intros r.
    by apply (shared_part_elem m publish ns Hok l Hl).
Qed.

Lemma snapshot_of_namespace p key snap :
  namespace_parts p → in_namespace key snap →
  ∃ st, relayed_world snap st ∧
    dedicated_snapshot_from_resources resource_hash sha256_hex body_refs compile_error cells_of
      (default [] (per_gateway p !! key)) (shared_endpoints p) (default [] (snd <$> meta p !! key)) =
    match compile_error new_cache st all_cells with
    | Some e => Err e
    | None => Ok (mkDedicated (cells_of st) (expected_proxy_sa snap))
    end.
Proof.
  intros Hp Hin. destruct (np_own p Hp key snap Hin) as [Ho1 Ho2], (np_shared p Hp) as [Hs1 Hs2].
  rewrite (proj2 (np_meta p Hp key _)) by (by exists snap).
  apply snapshot_of_parts; [by apply (Hok key), Hin|apply namespace_endpoints_ok|done..].
Qed.

Lemma namespace_gateways p key :
  namespace_parts p →
  key ∈ dedup (sort_by object_key_leb ((hash_iter (meta p)).*1 ++ (hash_iter (per_gateway p)).*1)) ↔
    ∃ snap, in_namespace key snap.
Proof.
  intros Hp. rewrite dedup_elem, elem_of_sort_by, elem_of_app, !list_elem_of_fmap. split.
  - intros [([k x] & -> & Hin)|([k x] & -> & Hin)]; apply hash_iter_elem in Hin.
    + apply (np_meta p Hp) in Hin as (snap & ? & _). by exists snap.
    + apply (np_own_keys p Hp). by exists x.
  - intros [snap Hin]. left. exists (key, (stamped key, expected_proxy_sa snap)). split; [done|].
    apply hash_iter_elem, (np_meta p Hp). by exists snap.
Qed.

Lemma rebuild_namespace :
  match rebuild_registry resource_hash sha256_hex body_refs compile_error cells_of world with
  | Err e => ∃ key snap st, in_namespace key snap ∧ relayed_world snap st ∧
      compile_error new_cache st all_cells = Some e
  | Ok (registry, seq) =>
      (∀ key, is_Some (registry !! key) → ∃ snap, in_namespace key snap) ∧
      (∀ key snap, in_namespace key snap → ∃ st, relayed_world snap st ∧
         registry !! key = Some (mkDedicated (cells_of st) (expected_proxy_sa snap))) ∧
      (∀ key snap, in_namespace key snap → (stamped key ≤ seq)%Z)
  end.
Proof.
  destruct partition_namespace as (p & Hpart & Hp). unfold rebuild_registry. rewrite Hpart. cbn.
  pose proof (namespace_gateways p) as Hgs. set (gs := dedup _) in *.
  pose proof (rebuild_loop_spec resource_hash sha256_hex body_refs compile_error cells_of p gs ∅) as Hloop.
  destruct (rebuild_loop _ _ _ _ _ p ∅ gs) as [registry|e]; cbn.
  - destruct Hloop as [Hold Hnew]. split_and!.
    + intros key [snap Hk]. apply (Hgs key Hp). destruct (decide (key ∈ gs)) as [?|Hn]; [done|].
      rewrite (Hold key Hn), lookup_empty in Hk. done.
    + intros key snap Hin. destruct (Hnew key) as (snap' & -> & Hs); [apply (Hgs key Hp); by exists snap|].
      destruct (snapshot_of_namespace p key snap Hp Hin) as (st & Hst & Heq). exists st. split; [done|].
      rewrite Hs in Heq. destruct (compile_error _ _ _); [done|]. by injection Heq as ->.
    + intros key snap Hin. apply (max_seq_ge _ key (stamped key, expected_proxy_sa snap)).
      apply hash_iter_elem, (np_meta p Hp). by exists snap.
  - destruct Hloop as (key & [snap Hin]%(Hgs key Hp) & Hs).
    destruct (snapshot_of_namespace p key snap Hp Hin) as (st & Hst & Heq).
    exists key, snap, st. split_and!; [done|done|]. rewrite Hs in Heq.
    destruct (compile_error _ _ _); [|done]. by injection Heq as ->.
Qed.

Lemma direct_endpoints_ok c : cells_ok c → endpoints_ok (foldl record ∅ (route_endpoints c)).
Proof.
  intros Hc e b [Hn|Hin]%collector_sound; [by rewrite lookup_empty in Hn|]. by apply (endpoints_servable c).
Qed.

Lemma direct_endpoints_relayed key snap e :
  in_namespace key snap → is_Some (foldl record (∅ : gmap EndpointKey B) (route_endpoints (snap_cells snap)) !! e) →
  is_Some (namespace_endpoints m ns !! e).
Proof.
  intros [Hns Hk] [b [Hn|Hin]%collector_sound]; [by rewrite lookup_empty in Hn|].
  apply collector_complete. right. apply list_elem_of_fmap. exists (e, b). split; [done|].
  apply list_elem_of_bind. exists key. split; [|apply namespace_keys_elem; eauto].
  unfold key_endpoints. by rewrite Hk.
Qed.

Lemma relayed_endpoint e (b : B) :
  namespace_endpoints m ns !! e = Some b →
  ∃ key snap, in_namespace key snap ∧ (e, b) ∈ route_endpoints (snap_cells snap).
Proof.
  intros [Hn|Hin]%collector_sound; [by rewrite lookup_empty in Hn|].
  apply list_elem_of_bind in Hin as (key & Hin & [Hns [snap Hk]]%namespace_keys_elem).
  exists key, snap. unfold key_endpoints in Hin. rewrite Hk in Hin. done.
Qed.

(** The world that the relay compiles for a Gateway, [st], against the world that a
    direct subscriber stages, [direct]: they agree but for the endpoints, of which the
    relay's has every one of the direct one's, and only such as a Gateway of the
    namespace refers to. *)
Definition faithful (st direct : Staged B) : Prop :=
  same_but_endpoints st direct ∧
  (∀ e, is_Some (slots direct !! SEndpoints e) → is_Some (slots st !! SEndpoints e)) ∧
  (∀ e p, slots st !! SEndpoints e = Some p → ∃ key snap b, in_namespace key snap ∧
     (e, b) ∈ route_endpoints (snap_cells snap) ∧ payload (endpoint_resource (e, b)) = Some p).

Lemma relayed_faithful key snap st seq :
  in_namespace key snap → relayed_world snap st →
  ∃ direct,
    stage_full resource_hash body_refs
      (full_message (build_gateway_view resource_hash sha256_hex (from_map m) key seq)) = Ok direct ∧
    faithful st direct.
Proof.
  intros Hin Hst. pose proof (proj2 (Hok key snap (proj2 Hin))) as Hc.
  pose proof (direct_endpoints_ok _ Hc) as Hd. pose proof namespace_endpoints_ok as Hn.
  unfold build_gateway_view. cbn [from_map reg_map]. rewrite (proj2 Hin).
  destruct (stage_direct resource_hash sha256_hex body_refs (snap_cells snap) _ seq Hc Hd)
    as (direct & Hdirect & Hrep).
  exists direct. split; [exact Hdirect|]. split_and!.
  - eapply represents_same; [exact Hc|exact Hn|exact Hd|exact Hst|exact Hrep].
  - intros e [p Hp]. apply (represents_endpoint_inv _ _ _ _ _ _ _ Hc Hd Hrep) in Hp as (b & Hb & _).
    apply (represents_endpoint _ _ _ _ _ _ Hc Hn Hst).
    apply (direct_endpoints_relayed key snap); [done|by exists b].
  - intros e p Hp. apply (represents_endpoint_inv _ _ _ _ _ _ _ Hc Hn Hst) in Hp as (b & Hb & Hp).
    destruct (relayed_endpoint e b Hb) as (key' & snap' & ? & ?). by exists key', snap', b.
Qed.

(** What a full of the namespace view does to the relay. *)
Lemma demux_apply_namespace (d : NamespaceDemux B C) (seq : Z) (expect_full : bool) :
  match demux_apply resource_hash sha256_hex body_refs compile_error cells_of d
          (full_message (build_namespace_view resource_hash sha256_hex (from_map m) publish ns seq))
          expect_full with
  | Err e => ∃ key snap st, in_namespace key snap ∧ relayed_world snap st ∧
      compile_error new_cache st all_cells = Some e
  | Ok d' =>
      (∀ key, is_Some (reg_map (dedicated d') !! key) → ∃ snap, in_namespace key snap) ∧
      (∀ key snap, in_namespace key snap → ∃ st, relayed_world snap st ∧
         reg_map (dedicated d') !! key = Some (mkDedicated (cells_of st) (expected_proxy_sa snap))) ∧
      (∀ key snap, in_namespace key snap → (stamped key ≤ current_seq (demux_publish d'))%Z)
  end.
Proof.
  destruct (namespace_view_spec resource_hash sha256_hex m publish ns seq) as [Hserved Hres].
  set (v := build_namespace_view _ _ _ _ _ _) in *.
  destruct (demux_stage_full resource_hash sha256_hex d v Hserved) as [Hstage Hver].
  unfold demux_apply. rewrite Hstage. cbn [full_message full version negb andb fst snd].
  rewrite Hver, bool_decide_eq_true_2 by done. cbn [negb]. rewrite Hres.
  pose proof rebuild_namespace as Hr. unfold rworld in Hr.
  destruct (rebuild_registry _ _ _ _ _ _) as [[registry s]|e]; cbn; [|done].
  destruct Hr as (Hdom & Hall & Hseq). split_and!; [done|done|].
  intros key snap Hin. specialize (Hseq key snap Hin). unfold current_seq, advance_to. cbn. lia.
Qed.

(** C4: A namespace relay is transparent.  The aggregate view of a namespace, sent in
    full, is refused by the relay only when the world of one of its Gateways does not
    compile.  Otherwise the relay serves exactly the Gateways of the namespace, each
    under its own service account and compiled from the world that a direct
    subscription to the controller would stage, whatever the relay held before and in
    whatever order the maps are iterated: nothing of one Gateway reaches another, save
    the endpoints of shared services.  And the sequence that its leaves acknowledge is
    at least every stamp that the view carries. *)
Theorem relay_transparent (d : NamespaceDemux B C) (seq : Z) (expect_full : bool) :
  let v := build_namespace_view resource_hash sha256_hex (from_map m) publish ns seq in
  match demux_apply resource_hash sha256_hex body_refs compile_error cells_of d
          (full_message v) expect_full with
  | Err e => ∃ key snap st direct, in_namespace key snap ∧
      stage_full resource_hash body_refs
        (full_message (build_gateway_view resource_hash sha256_hex (from_map m) key seq)) = Ok direct ∧
      faithful st direct ∧ compile_error new_cache st all_cells = Some e
  | Ok d' =>
      (∀ key, is_Some (reg_map (dedicated d') !! key) ↔ ∃ snap, in_namespace key snap) ∧
      (∀ key snap, in_namespace key snap → ∃ st direct,
         reg_map (dedicated d') !! key = Some (mkDedicated (cells_of st) (expected_proxy_sa snap)) ∧
         stage_full resource_hash body_refs
           (full_message (build_gateway_view resource_hash sha256_hex (from_map m) key seq)) = Ok direct ∧
         faithful st direct) ∧
      (∀ key snap stamp, in_namespace key snap → get key publish = Some stamp →
         (stamp_seq stamp ≤ current_seq (demux_publish d'))%Z)
  end.
Proof.
  intros v. pose proof (demux_apply_namespace d seq expect_full) as Hr. fold v in Hr.
  destruct (demux_apply _ _ _ _ _ _ _ _) as [d'|e].
  - destruct Hr as (Hdom & Hall & Hseq). split_and!.
    + intros key. split; [apply Hdom|]. intros [snap Hin]. destruct (Hall key snap Hin) as (st & _ & ->). eauto.
    + intros key snap Hin. destruct (Hall key snap Hin) as (st & Hst & Heq).
      destruct (relayed_faithful key snap st seq Hin Hst) as (direct & ? & ?). by exists st, direct.
    + intros key snap stamp Hin Hg. specialize (Hseq key snap Hin). unfold stamped in Hseq.
      by rewrite Hg in Hseq.
  - destruct Hr as (key & snap & st & Hin & Hst & He).
    destruct (relayed_faithful key snap st seq Hin Hst) as (direct & ? & ?). by exists key, snap, st, direct.
Qed.

End relayed.

(** ** Deltas at the relay *)

Section relayed_deltas.
Context {B C : Type} `{HashIter}.
Context (resource_hash : Resource B → str) (sha256_hex : str → str).
Context (body_refs : B → gset EndpointKey).
Context (compile_error : ResourceCache B → Staged B → list Cell → option WireError).
Context (cells_of : Staged B → C).

Notation apply_at := (demux_apply resource_hash sha256_hex body_refs compile_error cells_of).

(** At a relay, too, a delta is as good as a full snapshot.  When the relay holds
    the view that the server has as its baseline, applying the delta to a new view has
    the very outcome of applying the new view in full, be it a registry or an error;
    and when it succeeds, the relay holds the new view, ready for the next delta.
    Unchanged hashes must mean unchanged resources. *)
Theorem relay_delta_equals_full (d : NamespaceDemux B C) v0 v1 msg w :
  served resource_hash sha256_hex v0 → served resource_hash sha256_hex v1 →
  collision_free resource_hash v0 v1 → holds d v0 →
  build_outbound v1 (Some (resource_hashes v0)) = Some (msg, w) →
  apply_at d msg false = apply_at d (full_message v1) false ∧
  ∀ d', apply_at d msg false = Ok d' → holds d' v1.
Proof.
  intros Hv0 Hv1 Hcf Hh Hb.
  destruct (demux_stage_delta resource_hash sha256_hex d v0 v1 msg w) as (Hf & Hver & Hst); try done.
  destruct (demux_stage_full resource_hash sha256_hex d v1 Hv1) as [Hfull _].
  unfold demux_apply. rewrite Hf, Hst, Hfull, Hver. cbn. split; [done|].
  intros d'. case_bool_decide; [|done]. cbn.
  destruct (rebuild_registry _ _ _ _ _ _) as [rebuilt|e]; cbn; [|done]. by intros [= <-].
Qed.

End relayed_deltas.

(** ** A stamp that overtakes its content *)

(** One Gateway whose content is the number of the rebuild that published it, shown in
    the body of its certificates. *)
Module RelayDemo.
#[export] Existing Instance list_order.
#[export] Instance encoders : CellEncoders Z Z := {
  route_hosts _ := [];
  route_endpoints _ := [((lit "prod", lit "api", 80%Z), 0%Z)];
  tls_ports c := [(443%Z, c)];
  client_cert_ports _ := [];
  listener_entries _ := [];
}.
Definition resource_hash (r : Resource Z) : str :=
  match payload r with
  | Some (TlsPort _ c) => lit "t" ++ decimal c
  | Some (GatewayMeta seq _) => lit "m" ++ decimal seq
  | _ => []
  end.
Definition sha256_hex (s : str) : str := s.
Definition body_refs (_ : Z) : gset EndpointKey := ∅.
Definition compile_error (_ : ResourceCache Z) (_ : Staged Z) (_ : list Cell) : option WireError := None.
Definition cells_of (st : Staged Z) : Z :=
  match slots st !! STls 443 with Some (TlsPort _ c) => c | _ => 0%Z end.
Definition registry (rebuild : Z) : gmap ObjectKey (DedicatedRoutingSnapshot Z) :=
  {[gw := mkDedicated rebuild (lit "gw-coxswain")]}.
Definition published (rebuild : nat) : list (ObjectKey * Z * Z) := [(gw, 1%Z, Z.of_nat rebuild)].
Definition index_after (rebuilds : nat) : PublishIndex :=
  foldl (λ idx r, (stamp_rebuild (published r) idx).1) empty_index (seq 1 rebuilds).
Definition relay (rebuild : Z) (index : PublishIndex) (seq : Z) : result (NamespaceDemux Z Z) WireError :=
  demux_apply resource_hash sha256_hex body_refs compile_error cells_of new_demux
    (full_message (build_namespace_view resource_hash sha256_hex (from_map (registry rebuild)) index
       (lit "prod") seq)) true.
Definition view (rebuild : nat) : @MaterializedView Z :=
  build_namespace_view resource_hash sha256_hex (from_map (registry (Z.of_nat rebuild)))
    (index_after rebuild) (lit "prod") (Z.of_nat rebuild).
Definition first : NamespaceDemux Z Z :=
  mkDemux (resources_of (view 1)) (resource_hashes (view 1)) (mkRegistryData ∅ ∅) empty_index.
Definition delta : Snapshot Z :=
  match build_outbound (view 2) (Some (resource_hashes (view 1))) with
  | Some (msg, _) => msg
  | None => full_message (view 2)
  end.

(** The registry is one cell.  The controller's build has captured sequence 1 and loaded
    the registry of the first rebuild; then the second rebuild was stored and stamped. *)
Definition raced : Fence :=
  mkFence (index_after 2) 2 {[0]} {[0 := 2]} 1 {[0 := 1]}.

Lemma overtaken_reachable : fence_reachable published {[0]} raced.
Proof.
  assert (∀ s s', fence_reachable published {[0]} s → fence_step published {[0]} s s' →
    fence_reachable published {[0]} s') as step by (intros s s'; apply fence_reach_step).
  assert (({[0]} : gset nat) ∖ {[0]} = ∅) as Hd by set_solver.
  assert (∀ n k, <[0 := n]> ({[0 := k]} : gmap nat nat) = {[0 := n]}) as Hi
    by (intros; apply insert_singleton_eq).
  assert (fence_reachable published {[0]} (mkFence empty_index 0 ∅ {[0 := 1]} 0 ∅)) as H1.
  { eapply step; [apply fence_reach_boot|].
    pose proof (step_store published {[0]} (fence_boot {[0]}) 0 ltac:(set_solver)) as Hs.
    cbn in Hs. rewrite Hd in Hs. exact Hs. }
  assert (fence_reachable published {[0]} (mkFence (index_after 1) 1 {[0]} {[0 := 1]} 0 ∅)) as H2
    by (eapply step; [exact H1|exact (step_stamp published {[0]} (mkFence empty_index 0 ∅ {[0 := 1]} 0 ∅) eq_refl)]).
  assert (fence_reachable published {[0]} (mkFence (index_after 1) 1 {[0]} {[0 := 1]} 1 ∅)) as H3
    by (eapply step; [exact H2|exact (step_capture published {[0]} (mkFence (index_after 1) 1 {[0]} {[0 := 1]} 0 ∅))]).
  assert (fence_reachable published {[0]} (mkFence (index_after 1) 1 {[0]} {[0 := 1]} 1 {[0 := 1]})) as H4
    by (eapply step; [exact H3|exact (step_load published {[0]} (mkFence (index_after 1) 1 {[0]} {[0 := 1]} 1 ∅) 0 1 eq_refl)]).
  assert (fence_reachable published {[0]} (mkFence (index_after 1) 1 ∅ {[0 := 2]} 1 {[0 := 1]})) as H5.
  { eapply step; [exact H4|].
    pose proof (step_store published {[0]} (mkFence (index_after 1) 1 {[0]} {[0 := 1]} 1 {[0 := 1]}) 0
      ltac:(set_solver)) as Hs.
    cbn in Hs. rewrite Hd, Hi in Hs. exact Hs. }
  eapply step; [exact H5|]. exact (step_stamp published {[0]} (mkFence (index_after 1) 1 ∅ {[0 := 2]} 1 {[0 := 1]}) eq_refl).
Qed.

Lemma registry_well_formed rebuild : registry_ok (registry rebuild).
Proof.
  intros key snap Hk. unfold registry in Hk. apply lookup_singleton_Some in Hk as [<- <-]. split.
  - split_and!; try done; by apply contains_false.
  - assert (servable (plain (TlsPort 443 rebuild)) (lit "tls|443") (TlsPort 443 rebuild) (STls 443)) as Hs.
    { split_and!; try done. by intros pk [= <-]. }
    split; cbn [gateway_resources snap_cells].
    + intros r ->%list_elem_of_singleton. eauto.
    + intros r r' k ->%list_elem_of_singleton ->%list_elem_of_singleton. done.
    + apply NoDup_singleton.
    + intros e ->%list_elem_of_singleton. eexists _, _, _. split_and!; try done.
      intros pk [= <-]. split_and!; try done; by apply contains_false.
Qed.
Lemma view_served rebuild : served resource_hash sha256_hex (view rebuild).
Proof. apply namespace_view_spec. Qed.

Lemma views_collision_free : collision_free resource_hash (view 1) (view 2).
Proof.
  intros k r0 r1 H0 H1 Hh. apply elem_of_map_to_list in H0. vm_compute in H0.
  repeat (apply elem_of_cons in H0 as [[= -> ->]|H0];
    [vm_compute in H1; injection H1 as <-; first [reflexivity|vm_compute in Hh; discriminate Hh]|]).
  apply elem_of_nil in H0. destruct H0.
Qed.

Lemma gw_registered rebuild :
  in_namespace (registry rebuild) (lit "prod") gw (mkDedicated rebuild (lit "gw-coxswain")).
Proof. split; [done|]. apply lookup_singleton_eq. Qed.

Lemma relayed_cells rebuild st :
  relayed_world resource_hash body_refs (registry rebuild) (lit "prod")
    (mkDedicated rebuild (lit "gw-coxswain")) st → cells_of st = rebuild.
Proof.
  intros Hst. assert (slots st !! STls 443 = Some (TlsPort 443 rebuild)) as Hs; [|unfold cells_of; by rewrite Hs].
  apply (represents_own resource_hash body_refs rebuild (namespace_endpoints (registry rebuild) (lit "prod"))).
  - apply (registry_well_formed rebuild gw _ (proj2 (gw_registered rebuild))).
  - apply namespace_endpoints_ok, registry_well_formed.
  - exact Hst.
  - done.
  - exists (plain (TlsPort 443 rebuild)), (lit "tls|443"). split_and!; try done. by left.
Qed.

Lemma first_holds : holds first (view 1).
Proof. by split. Qed.

Lemma delta_built :
  build_outbound (view 2) (Some (resource_hashes (view 1))) = Some (delta, world_of (view 2)).
Proof. vm_compute. reflexivity. Qed.
End RelayDemo.
Import RelayDemo.

Lemma relay_transparent_witness :
  is_Some (reg_map (dedicated
    (match RelayDemo.relay 1 (RelayDemo.index_after 1) 1 with Ok d => d | Err _ => new_demux end)) !! gw).
Proof.
  pose proof (relay_transparent RelayDemo.resource_hash RelayDemo.sha256_hex RelayDemo.body_refs
    RelayDemo.compile_error RelayDemo.cells_of (RelayDemo.registry 1) (RelayDemo.index_after 1)
    (lit "prod") (RelayDemo.registry_well_formed 1) new_demux 1 true) as Ht.
  cbn zeta in Ht. unfold RelayDemo.relay.
  destruct (demux_apply _ _ _ _ _ _ _ _) as [d|e].
  - destruct Ht as [Hdom _]. apply Hdom. eexists. by split.
  - destruct Ht as (key & snap & st & direct & _ & _ & _ & He). discriminate He.
Defined.

Lemma relay_delta_equals_full_witness :
  demux_apply RelayDemo.resource_hash RelayDemo.sha256_hex RelayDemo.body_refs RelayDemo.compile_error
    RelayDemo.cells_of RelayDemo.first RelayDemo.delta false =
  demux_apply RelayDemo.resource_hash RelayDemo.sha256_hex RelayDemo.body_refs RelayDemo.compile_error
    RelayDemo.cells_of RelayDemo.first (full_message (RelayDemo.view 2)) false.
Proof.
  exact (proj1 (relay_delta_equals_full RelayDemo.resource_hash RelayDemo.sha256_hex RelayDemo.body_refs
    RelayDemo.compile_error RelayDemo.cells_of RelayDemo.first (RelayDemo.view 1) (RelayDemo.view 2)
    RelayDemo.delta (world_of (RelayDemo.view 2)) (RelayDemo.view_served 1) (RelayDemo.view_served 2)
    RelayDemo.views_collision_free RelayDemo.first_holds RelayDemo.delta_built)).
Defined.

(** A relay can vouch for content it does not have.  The namespace view reads a
    Gateway's stamp after it has loaded the registry.  When a rebuild is stored and
    stamped in between, the view carries the stamp of the new content with the old
    content; the relay, which takes its sequence from the stamps and not from the
    sequence captured before the load, then lets its leaves acknowledge the new
    sequence while it serves them the old content.  A relay that went by the captured
    sequence would not: it is below the stamp. *)
Theorem relay_seq_overtakes :
  fence_reachable RelayDemo.published {[0]} RelayDemo.raced ∧
  loaded RelayDemo.raced !! 0 = Some 1 ∧
  get gw (index RelayDemo.raced) = Some (mkPublishStamp 1 2 2) ∧
  published_for gw (RelayDemo.published 1) = Some (1, 1)%Z ∧
  (captured RelayDemo.raced < 2)%Z ∧
  ∃ d, RelayDemo.relay 1 (index RelayDemo.raced) (captured RelayDemo.raced) = Ok d ∧
    (2 ≤ current_seq (demux_publish d))%Z ∧
    reg_map (dedicated d) !! gw = Some (mkDedicated 1%Z (lit "gw-coxswain")).
Proof.
  split; [apply RelayDemo.overtaken_reachable|]. split_and!; [done|done|done|done|].
  pose proof (demux_apply_namespace RelayDemo.resource_hash RelayDemo.sha256_hex RelayDemo.body_refs
    RelayDemo.compile_error RelayDemo.cells_of (RelayDemo.registry 1) (index RelayDemo.raced) (lit "prod")
    (RelayDemo.registry_well_formed 1) new_demux (captured RelayDemo.raced) true) as Hr.
  unfold RelayDemo.relay. destruct (demux_apply _ _ _ _ _ _ _ _) as [d|e].
  - exists d. destruct Hr as (_ & Hall & Hseq). split_and!; [done| |].
    + exact (Hseq gw _ (RelayDemo.gw_registered 1)).
    + destruct (Hall gw _ (RelayDemo.gw_registered 1)) as (st & Hst & ->).
      by rewrite (RelayDemo.relayed_cells 1 st Hst).
  - destruct Hr as (key & snap & st & _ & _ & He). discriminate He.
Qed.
