(* ===== verification/RelayScaler.v ===== *)
(** * The relay autoscaler

    Models [crates/coxswain-controller/src/operator/relay_autoscaler.rs], the pure control
    loop that turns a relay on and off and sizes it, with [RelayAutoscaling] of
    [crates/coxswain-core/src/crd/relay_policy.rs] and the resolution of a namespace's
    policy in [relay_params.rs].

    Instants and durations are nanoseconds, replica counts and signals are [u32] values
    in [Z].  Binary floating point is the IEEE 754 specification of the Standard
    Library at the format of [f64]. *)

From Stdlib Require Import SpecFloat.
From S2P Require Import Prelude.

(** ** Double precision *)

Notation f64 := spec_float.

(** [f64::from] on a [u32], which is exact. *)
Definition f64_from (n : Z) : f64 := binary_normalize 53 1024 n 0 false.
Definition f64_mul : f64 → f64 → f64 := SFmul 53 1024.
Definition f64_div : f64 → f64 → f64 := SFdiv 53 1024.
Definition f64_sub : f64 → f64 → f64 := SFsub 53 1024.

(** [f64::max]: the other operand when one is not a number. *)
Definition f64_max (a b : f64) : f64 :=
  match SFcompare a b with
  | Some Lt => b
  | Some _ => a
  | None => match a with S754_nan => b | _ => a end
  end.

(** ** Policies *)

Record RelayAutoscaling := mkAutoscaling {
  as_enabled : bool;
  min_replicas : option Z;
  max_replicas : option Z;
  target_proxies_per_replica : option Z;
  scale_down_stabilization_seconds : option Z;
  cooldown_seconds : option Z;
  as_tolerance : option f64;
}.

Definition capped (min max target : Z) : RelayAutoscaling :=
  mkAutoscaling true (Some min) (Some max) (Some target) None None None.

(** [EffectiveRelayPolicy] without the pod resources and template, which only the
    rendering of the Deployment reads. *)
Record EffectiveRelayPolicy := mkPolicy {
  pol_enabled : option bool;
  pol_replicas : option Z;
  pol_autoscaling : option RelayAutoscaling;
  source_name : option str;
}.

Definition default_policy : EffectiveRelayPolicy := mkPolicy None None None None.

(** A [CoxswainRelayPolicy] object: namespace and name as in its metadata, and the
    fields of its spec. *)
Record CoxswainRelayPolicy := mkRelayPolicy {
  crp_namespace : option str;
  crp_name : option str;
  spec_enabled : option bool;
  spec_replicas : option Z;
  spec_autoscaling : option RelayAutoscaling;
}.

Definition policy_name (p : CoxswainRelayPolicy) : str := default [] (crp_name p).

Definition namespace_policy (namespace : str) (policies : list CoxswainRelayPolicy) :
    option CoxswainRelayPolicy :=
  head (sort_by (λ a b, str_leb (policy_name a) (policy_name b))
    (filter (λ p, crp_namespace p = Some namespace) policies)).

(** [relay_params::resolve] *)
Definition resolve_policy (namespace : str) (policies : list CoxswainRelayPolicy) :
    EffectiveRelayPolicy :=
  match namespace_policy namespace policies with
  | Some p => mkPolicy (spec_enabled p) (spec_replicas p) (spec_autoscaling p) (Some (policy_name p))
  | None => default_policy
  end.

(** ** Tuning *)

Record RelayTuning := mkTuning {
  activation_threshold : Z;
  cooldown : Z;
  stabilization : Z;
  tolerance : f64;
  target : Z;
  static_replicas : Z;
  autoscaling : option RelayAutoscaling;
  enabled_override : option bool;
}.

Record RelayTuningDefaults := mkDefaults {
  def_activation_threshold : Z;
  def_cooldown : Z;
  def_stabilization : Z;
  def_tolerance : f64;
  def_target : Z;
  def_static_replicas : Z;
}.

Definition from_secs (s : Z) : Z := (s * 1000000000)%Z.

(** [RelayTuning::resolve] *)
Definition resolve_tuning (policy : EffectiveRelayPolicy) (d : RelayTuningDefaults) : RelayTuning :=
  let overrides := pol_autoscaling policy in
  let autoscaling :=
    a ← overrides; if as_enabled a && bool_decide (is_Some (max_replicas a)) then Some a else None in
  mkTuning
    (Z.max (def_activation_threshold d) 1)
    (from_option from_secs (def_cooldown d) (a ← overrides; cooldown_seconds a))
    (from_option from_secs (def_stabilization d) (a ← overrides; scale_down_stabilization_seconds a))
    (f64_max
       (default (def_tolerance d)
          (t ← (a ← overrides; as_tolerance a); if SFleb (S754_zero false) t then Some t else None))
       (S754_zero false))
    (Z.max (default (def_target d) (a ← overrides; target_proxies_per_replica a)) 1)
    (Z.max (default (def_static_replicas d) (pol_replicas policy)) 1)
    autoscaling
    (pol_enabled policy).

(** ** Records *)

Inductive RelayState := Provisioning | Active | Draining.

#[export] Instance RelayState_eq_dec : EqDecision RelayState.
Proof. solve_decision. Defined.

Inductive RelayAction :=
| ActNone
| Activate
| Resize (replicas pdb_ceiling : Z)
| StartDrain
| Delete.

Record RelayInputs := mkInputs {
  signal : Z;
  ready : bool;
  subscribers : Z;
  demand_present : bool;
}.

Record RelayRecord := mkRecord {
  state : RelayState;
  current_replicas : Z;
  history : list (Z * Z);
  below_since : option Z;
}.

Record RelayDecision := mkDecision {
  next_state : RelayState;
  action : RelayAction;
  replicas : option Z;
}.

Definition decision_new (s : RelayState) (a : RelayAction) : RelayDecision := mkDecision s a None.
Definition hold (s : RelayState) : RelayDecision := decision_new s ActNone.
Definition delete_decision : RelayDecision := decision_new Draining Delete.

Definition existing (s : RelayState) (replicas : Z) : RelayRecord :=
  mkRecord s (Z.max replicas 1) [] None.

(** [Instant::duration_since], which saturates at zero. *)
Definition duration_since (now t : Z) : Z := Z.max 0 (now - t).

(** The loop that pops expired samples off the front. *)
Fixpoint prune (now window : Z) (h : list (Z * Z)) : list (Z * Z) :=
  match h with
  | [] => []
  | (t, s) :: rest => if (duration_since now t <=? window)%Z then h else prune now window rest
  end.

Definition observe (now sig : Z) (tuning : RelayTuning) (r : RelayRecord) : RelayRecord :=
  mkRecord (state r) (current_replicas r)
    (prune now (stabilization tuning) (history r ++ [(now, sig)]))
    (if (activation_threshold tuning <=? sig)%Z then None
     else match below_since r with None => Some now | Some t => Some t end).

(** [Iterator::max] over signals, 0 when there is none. *)
Definition stabilized_signal (r : RelayRecord) : Z := foldr (λ h, Z.max h.2) 0%Z (history r).

Definition latest_signal (r : RelayRecord) : Z := from_option snd 0%Z (last (history r)).

(** ** Decisions *)

Definition should_deactivate (now sig : Z) (demand : bool) (tuning : RelayTuning) (r : RelayRecord) : bool :=
  if bool_decide (enabled_override tuning = Some false) then true
  else if negb demand then true
  else if bool_decide (enabled_override tuning = Some true) then false
  else if (activation_threshold tuning <=? sig)%Z then false
  else match below_since r with
       | Some since => (cooldown tuning <=? duration_since now since)%Z
       | None => false
       end.

Definition should_activate (sig : Z) (tuning : RelayTuning) : bool :=
  match enabled_override tuning with
  | Some false => false
  | Some true => (1 <=? sig)%Z
  | None => (activation_threshold tuning <=? sig)%Z
  end.

(** [Ord::clamp] *)
Definition clamp (x lo hi : Z) : Z := if (x <? lo)%Z then lo else if (hi <? x)%Z then hi else x.

(** [u32::div_ceil] *)
Definition div_ceil (a b : Z) : Z := if (a mod b =? 0)%Z then (a / b)%Z else (a / b + 1)%Z.

Definition autoscaling_bounds (tuning : RelayTuning) : option (Z * Z * Z) :=
  a ← autoscaling tuning;
  max ← max_replicas a;
  let max := Z.max max 1 in
  let min := clamp (default (static_replicas tuning) (min_replicas a)) 1 max in
  let tgt := Z.max (default (target tuning) (target_proxies_per_replica a)) 1 in
  Some (min, max, tgt).

Definition f64_gt0 (x : f64) : bool := SFltb (S754_zero false) x.

(** The usage ratio is within the tolerance of 1. *)
Definition in_deadband (sig tgt current : Z) (tol : f64) : bool :=
  let capacity := f64_mul (f64_from current) (f64_from tgt) in
  f64_gt0 capacity &&
  SFleb (SFabs (f64_sub (f64_div (f64_from sig) capacity) (f64_from 1))) tol.

Definition desired_from_signal (sig tgt min max current : Z) (tol : f64) : Z :=
  if (min <=? current)%Z && (current <=? max)%Z && (0 <? current)%Z && in_deadband sig tgt current tol
  then current
  else clamp (div_ceil sig tgt) min max.

Definition autoscaled_size (tuning : RelayTuning) (r : RelayRecord) : Z * Z :=
  match autoscaling_bounds tuning with
  | None => (static_replicas tuning, static_replicas tuning)
  | Some (min, max, tgt) =>
      let current := clamp (current_replicas r) min max in
      let up := desired_from_signal (latest_signal r) tgt min max current (tolerance tuning) in
      (if (current <=? up)%Z then up
       else desired_from_signal (stabilized_signal r) tgt min max current (tolerance tuning), max)
  end.

Definition initial_size (sig : Z) (tuning : RelayTuning) : Z * Z :=
  match autoscaling_bounds tuning with
  | None => (static_replicas tuning, static_replicas tuning)
  | Some (min, max, tgt) => (clamp (div_ceil sig tgt) min max, max)
  end.

Definition should_provision (sig : Z) (tuning : RelayTuning) : bool := should_activate sig tuning.

Definition decide_provisioning (now : Z) (i : RelayInputs) (tuning : RelayTuning) (r : RelayRecord) : RelayDecision :=
  if should_deactivate now (signal i) (demand_present i) tuning r then delete_decision
  else if ready i then decision_new Active Activate
  else hold Provisioning.

Definition decide_active (now : Z) (i : RelayInputs) (tuning : RelayTuning) (r : RelayRecord) : RelayDecision :=
  if should_deactivate now (signal i) (demand_present i) tuning r then decision_new Draining StartDrain
  else
    let '(size, pdb_ceiling) := autoscaled_size tuning r in
    if (size =? current_replicas r)%Z then hold Active
    else mkDecision Active (Resize size pdb_ceiling) (Some size).

Definition decide_draining (i : RelayInputs) (tuning : RelayTuning) : RelayDecision :=
  if demand_present i && should_activate (signal i) tuning then
    if ready i then decision_new Active Activate else hold Draining
  else if (subscribers i =? 0)%Z then delete_decision
  else hold Draining.

(** [RelayRecord::decide]: one arm per state. *)
Definition decide_relay (now : Z) (i : RelayInputs) (tuning : RelayTuning) (r : RelayRecord) : RelayDecision :=
  match state r with
  | Provisioning => decide_provisioning now i tuning r
  | Active => decide_active now i tuning r
  | Draining => decide_draining i tuning
  end.
