(* ===== verification/RelayScalerFacts.v ===== *)
(** * Facts of the relay autoscaler

    The replica counts it chooses stay within the policy's bounds and carry the load
    they were chosen for; the window holds exactly the recent samples. *)

From Stdlib Require Import SpecFloat.
From S2P Require Import Prelude RelayScaler.

Open Scope Z_scope.

(** ** Arithmetic *)

Lemma clamp_range x lo hi : lo ≤ hi → lo ≤ clamp x lo hi ≤ hi.
Proof. unfold clamp. repeat case_zb; lia. Qed.

Lemma clamp_id x lo hi : lo ≤ x ≤ hi → clamp x lo hi = x.
Proof. unfold clamp. repeat case_zb; lia. Qed.

Lemma clamp_mono x y lo hi : lo ≤ hi → x ≤ y → clamp x lo hi ≤ clamp y lo hi.
Proof. unfold clamp. repeat case_zb; lia. Qed.

(** [div_ceil] is the least count whose capacity covers the load. *)
Lemma div_ceil_spec a b : 0 ≤ a → 0 < b → a ≤ b * div_ceil a b ∧ b * (div_ceil a b - 1) < a ∨ a = 0 ∧ div_ceil a b = 0.
Proof.
  intros. unfold div_ceil. pose proof (Z.div_mod a b ltac:(lia)). pose proof (Z.mod_pos_bound a b ltac:(lia)).
  case_zb; nia.
Qed.

Lemma div_ceil_bounds a b : 0 ≤ a → 0 < b → 0 ≤ div_ceil a b ≤ a.
Proof. intros. destruct (div_ceil_spec a b); nia. Qed.

(** A count chosen for a load carries it, unless the cap binds. *)
Lemma clamp_div_ceil_covers a b lo hi :
  0 ≤ a → 0 < b → 1 ≤ lo ≤ hi → a ≤ b * clamp (div_ceil a b) lo hi ∨ clamp (div_ceil a b) lo hi = hi.
Proof. intros. pose proof (div_ceil_spec a b). unfold clamp. repeat case_zb; nia. Qed.

Lemma clamp_div_ceil_least a b lo hi :
  0 ≤ a → 0 < b → 1 ≤ lo ≤ hi → b * (clamp (div_ceil a b) lo hi - 1) < a ∨ clamp (div_ceil a b) lo hi = lo.
Proof. intros. pose proof (div_ceil_spec a b). unfold clamp. repeat case_zb; nia. Qed.

(** ** Bounds *)

Definition u32 (n : Z) : Prop := 0 ≤ n ≤ u32_max.
Definition opt_u32 (n : option Z) : Prop := from_option u32 True n.

Record u32_policy (p : EffectiveRelayPolicy) : Prop := {
  u32_replicas : opt_u32 (pol_replicas p);
  u32_max_replicas a : pol_autoscaling p = Some a → opt_u32 (max_replicas a);
}.

(** The static count of a policy, and the range its autoscaling spans. *)
Definition static_count (p : EffectiveRelayPolicy) (d : RelayTuningDefaults) : Z :=
  Z.max (default (def_static_replicas d) (pol_replicas p)) 1.

Definition replica_range (p : EffectiveRelayPolicy) (d : RelayTuningDefaults) : Z * Z :=
  let n := static_count p d in
  match pol_autoscaling p with
  | Some a =>
      match as_enabled a, max_replicas a with
      | true, Some m =>
          let cap := Z.max m 1 in (Z.max 1 (Z.min cap (default n (min_replicas a))), cap)
      | _, _ => (n, n)
      end
  | None => (n, n)
  end.

Lemma autoscaling_bounds_valid t lo hi tgt :
  autoscaling_bounds t = Some (lo, hi, tgt) → 1 ≤ lo ≤ hi ∧ 1 ≤ tgt.
Proof.
  unfold autoscaling_bounds. intros (a & _ & (m & _ & [= <- <- <-])%bind_Some)%bind_Some.
  pose proof (clamp_range (default (static_replicas t) (min_replicas a)) 1 (Z.max m 1)). lia.
Qed.

Lemma resolved_range p d :
  replica_range p d =
  match autoscaling_bounds (resolve_tuning p d) with
  | Some (lo, hi, _) => (lo, hi)
  | None => (static_count p d, static_count p d)
  end.
Proof.
  unfold replica_range, autoscaling_bounds, resolve_tuning; simpl.
  destruct (pol_autoscaling p) as [a|]; simpl; [|done].
  destruct (as_enabled a) eqn:Ee; simpl; [|done].
  destruct (max_replicas a) as [m|] eqn:Em; simpl; [|done]. rewrite Em; simpl.
  fold (static_count p d). f_equal.
  unfold clamp. repeat case_zb; lia.
Qed.

Lemma desired_range sig tgt lo hi cur tol :
  lo ≤ hi → lo ≤ desired_from_signal sig tgt lo hi cur tol ≤ hi.
Proof.
  intros. unfold desired_from_signal.
  destruct (lo <=? cur) eqn:?, (cur <=? hi) eqn:?, (0 <? cur), (in_deadband _ _ _ _); simpl;
    try (apply clamp_range; done); lia.
Qed.

Lemma autoscaled_size_range p d r :
  let '(size, ceiling) := autoscaled_size (resolve_tuning p d) r in
  (replica_range p d).1 ≤ size ≤ ceiling ∧ ceiling = (replica_range p d).2.
Proof.
  rewrite resolved_range. unfold autoscaled_size.
  destruct (autoscaling_bounds _) as [[[lo hi] tgt]|] eqn:E; simpl.
  - apply autoscaling_bounds_valid in E as [? ?].
    case_match; (split; [apply desired_range; lia|done]).
  - unfold static_count. lia.
Qed.

Lemma initial_size_range p d sig :
  let '(size, ceiling) := initial_size sig (resolve_tuning p d) in
  (replica_range p d).1 ≤ size ≤ ceiling ∧ ceiling = (replica_range p d).2.
Proof.
  rewrite resolved_range. unfold initial_size.
  destruct (autoscaling_bounds _) as [[[lo hi] tgt]|] eqn:E; simpl.
  - apply autoscaling_bounds_valid in E as [? ?]. split; [apply clamp_range; lia|done].
  - unfold static_count. lia.
Qed.

Lemma replica_range_u32 p d :
  u32_policy p → u32 (def_static_replicas d) →
  1 ≤ (replica_range p d).1 ∧ (replica_range p d).2 ≤ u32_max.
Proof.
  intros [Hr Ha] Hd. unfold replica_range, static_count, u32, u32_max in *.
  assert (1 ≤ Z.max (default (def_static_replicas d) (pol_replicas p)) 1 ≤ 2 ^ 32 - 1).
  { destruct (pol_replicas p); simpl in *; unfold u32, u32_max in *; lia. }
  destruct (pol_autoscaling p) as [a|]; simpl; [|lia].
  specialize (Ha a eq_refl).
  destruct (as_enabled a), (max_replicas a); simpl in *; unfold u32, u32_max in *; lia.
Qed.

Lemma decide_resize now i t r size ceiling :
  action (decide_relay now i t r) = Resize size ceiling →
  state r = Active ∧ autoscaled_size t r = (size, ceiling) ∧ size ≠ current_replicas r ∧
  should_deactivate now (signal i) (demand_present i) t r = false ∧
  decide_relay now i t r = mkDecision Active (Resize size ceiling) (Some size).
Proof.
  unfold decide_relay, decide_provisioning, decide_active, decide_draining.
  destruct (state r) eqn:Es; repeat case_match; simpl; intros; simplify_eq; try done.
  repeat split; try done. by apply Z.eqb_neq.
Qed.

(** Every replica count handed to the cluster, at provisioning or at a resize, lies
    between the policy's floor and cap and fits the integer. *)
Theorem replica_bounds p d now i r size ceiling :
  u32_policy p → u32 (def_static_replicas d) →
  initial_size (signal i) (resolve_tuning p d) = (size, ceiling) ∨
  action (decide_relay now i (resolve_tuning p d) r) = Resize size ceiling →
  1 ≤ (replica_range p d).1 ≤ size ∧ size ≤ ceiling ∧
  ceiling = (replica_range p d).2 ∧ ceiling ≤ u32_max.
Proof.
  intros Hp Hd Hsize. pose proof (replica_range_u32 p d Hp Hd).
  assert ((replica_range p d).1 ≤ size ≤ ceiling ∧ ceiling = (replica_range p d).2) as [? ->]; [|lia].
  destruct Hsize as [E|(_ & E & _)%decide_resize].
  - pose proof (initial_size_range p d (signal i)) as Hs. by rewrite E in Hs.
  - pose proof (autoscaled_size_range p d r) as Hs. by rewrite E in Hs.
Qed.

(** ** Samples *)

(** Samples in time order. *)
Definition in_order (l : list (Z * Z)) : Prop := StronglySorted (λ a b, a.1 ≤ b.1) l.

Definition recent (now window : Z) (s : Z * Z) : Prop := now - s.1 ≤ window.

#[export] Instance recent_dec now window s : Decision (recent now window s).
Proof. unfold recent. apply _. Defined.

Lemma filter_all_recent now window l : Forall (recent now window) l → filter (recent now window) l = l.
Proof. induction 1; [done|]. rewrite filter_cons_True by done. by f_equal. Qed.

Lemma prune_filter now window h :
  0 ≤ window → in_order h → prune now window h = filter (recent now window) h.
Proof.
  intros Hw. induction 1 as [|[t s] h Hs IH Hall]; [done|]. simpl. unfold duration_since.
  rewrite filter_cons. unfold recent at 1; simpl.
  case_zb; case_decide; try lia; [|done].
  f_equal. symmetry. apply filter_all_recent.
  eapply Forall_impl; [exact Hall|]. intros [t' s']; unfold recent; simpl. lia.
Qed.

Lemma stabilized_ge r t s : (t, s) ∈ history r → s ≤ stabilized_signal r.
Proof.
  unfold stabilized_signal. induction (history r) as [|x h IH]; simpl; [by intros ?%elem_of_nil|].
  intros [<-|?]%elem_of_cons; simpl; [lia|]. specialize (IH H). lia.
Qed.

Lemma stabilized_nonneg r : 0 ≤ stabilized_signal r.
Proof. unfold stabilized_signal. induction (history r); simpl; lia. Qed.

(** ** Scaling down *)

Lemma desired_changed sig tgt lo hi cur tol :
  desired_from_signal sig tgt lo hi cur tol ≠ cur →
  desired_from_signal sig tgt lo hi cur tol = clamp (div_ceil sig tgt) lo hi.
Proof. unfold desired_from_signal. by case_match. Qed.

(** A relay that is shrunk within its range keeps the capacity for every sample of the
    window, and is not larger than the window's peak needs. *)
Lemma scale_down_spec t r lo hi tgt size ceiling :
  autoscaling_bounds t = Some (lo, hi, tgt) → current_replicas r ≤ hi →
  autoscaled_size t r = (size, ceiling) → size < current_replicas r →
  (∀ at_ s, (at_, s) ∈ history r → s ≤ tgt * size) ∧
  (tgt * (size - 1) < stabilized_signal r ∨ size = lo).
Proof.
  intros Eb Hcur Es Hlt. pose proof (autoscaling_bounds_valid _ _ _ _ Eb) as [? ?].
  unfold autoscaled_size in Es. rewrite Eb in Es.
  destruct (decide (lo ≤ current_replicas r)) as [Hlo|]; cycle 1.
  { exfalso. assert (lo ≤ size); [|lia].
    case_match; simplify_eq; apply desired_range; lia. }
  rewrite clamp_id in Es by lia.
  case_match eqn:Eup; injection Es as <- <-; [case_zb; lia|].
  rewrite desired_changed in * by lia. pose proof (stabilized_nonneg r). split.
  - intros at_ s Hin. pose proof (stabilized_ge _ _ _ Hin).
    destruct (clamp_div_ceil_covers (stabilized_signal r) tgt lo hi); lia.
  - apply clamp_div_ceil_least; lia.
Qed.

Definition demo_policy : EffectiveRelayPolicy := mkPolicy None None (Some (capped 2 4 10)) None.
Definition demo_defaults : RelayTuningDefaults := mkDefaults 3 0 0 (f64_from 0) 250 2.

Lemma replica_bounds_witness :
  1 ≤ (replica_range demo_policy demo_defaults).1 ≤ 4 ∧ 4 ≤ 4 ∧
  4 = (replica_range demo_policy demo_defaults).2 ∧ 4 ≤ u32_max.
Proof.
  apply (replica_bounds demo_policy demo_defaults 0 (mkInputs 35 true 0 true) (existing Provisioning 2)).
  - split; [exact I|]. intros ? [= <-]. split; vm_compute; discriminate.
  - split; vm_compute; discriminate.
  - left. vm_compute. reflexivity.
Defined.
