(* ===== verification/RelayLoop.v ===== *)
(** * The relay control loop

    Models the loop that acts on the decisions of [RelayScaler]: the driver shared by
    both tiers ([operator/relay_converge.rs]), the pass over the namespaces
    ([operator/relay_reconcile.rs]), the relay of the shared pool
    ([operator/shared_install.rs]), the publication of the relay sets and the
    rehydration from the cluster ([operator/reconciler.rs]) and the sequence of calls
    that applies or deletes a relay's objects ([operator/apply.rs]), all under
    [crates/coxswain-controller/src].

    A call to the API server succeeds, fails without effect, or takes effect while its
    reply is lost; a step of the model fixes the replies.  A namespace is processed
    without interruption.  Logs and metrics are left out. *)

From S2P Require Import Prelude Health NodeRegistry RelayScaler.

(** ** The objects of one relay *)

Record RelayObjects := mkObjects {
  deployment : option Z;
  service : bool;
  relay_account : bool;
  pdb : bool;
  network_policy : bool;
}.

Definition no_objects : RelayObjects := mkObjects None false false false false.

Inductive ApplyError :=
| ErrServiceAccount | ErrService | ErrDeployment | ErrHpa | ErrPdb | ErrNetworkPolicy.

#[export] Instance ApplyError_eq_dec : EqDecision ApplyError.
Proof. solve_decision. Defined.

Inductive Reply := Replied | Failed | Lost.

(** The replies to the calls of one apply or delete, by the object addressed. *)
Definition Replies := ApplyError → Reply.

Definition all_replied : Replies := λ _, Replied.

(** One call: its effect happens unless it failed, its error is raised unless it
    was answered. *)
Definition call (rs : Replies) (e : ApplyError) (effect : RelayObjects → RelayObjects)
    (o : RelayObjects) : RelayObjects * option ApplyError :=
  match rs e with
  | Replied => (effect o, None)
  | Failed => (o, Some e)
  | Lost => (effect o, Some e)
  end.

(** Calls in sequence, with the early return of [?]. *)
Definition and_then (c1 c2 : RelayObjects → RelayObjects * option ApplyError)
    (o : RelayObjects) : RelayObjects * option ApplyError :=
  match c1 o with
  | (o', None) => c2 o'
  | (o', Some e) => (o', Some e)
  end.

Infix ";;?" := and_then (at level 60, right associativity).

Definition set_deployment (d : option Z) (o : RelayObjects) : RelayObjects :=
  mkObjects d (service o) (relay_account o) (pdb o) (network_policy o).
Definition set_service (b : bool) (o : RelayObjects) : RelayObjects :=
  mkObjects (deployment o) b (relay_account o) (pdb o) (network_policy o).
Definition set_account (b : bool) (o : RelayObjects) : RelayObjects :=
  mkObjects (deployment o) (service o) b (pdb o) (network_policy o).
Definition set_pdb (b : bool) (o : RelayObjects) : RelayObjects :=
  mkObjects (deployment o) (service o) (relay_account o) b (network_policy o).
Definition set_network_policy (b : bool) (o : RelayObjects) : RelayObjects :=
  mkObjects (deployment o) (service o) (relay_account o) (pdb o) b.

Definition i32_max : Z := (2 ^ 31 - 1)%Z.
Definition clamp_usize_to_u32 (v : nat) : Z := Z.min (Z.of_nat v) u32_max.
Definition clamp_u32_to_i32 (v : Z) : Z := Z.min v i32_max.

(** A disruption budget is rendered for a relay that can run two replicas. *)
Definition render_relay_pdb (ceiling : Z) : bool := negb (ceiling <? 2)%Z.

Definition apply_relay (rs : Replies) (fence : bool) (replicas ceiling : Z) :
    RelayObjects → RelayObjects * option ApplyError :=
  call rs ErrServiceAccount (set_account true) ;;?
  call rs ErrService (set_service true) ;;?
  call rs ErrDeployment (set_deployment (Some replicas)) ;;?
  call rs ErrPdb (set_pdb (render_relay_pdb ceiling)) ;;?
  call rs ErrNetworkPolicy (set_network_policy fence).

(** [NotFound] counts as success, so deleting what is not there is [Replied]. *)
Definition delete_relay_resources (rs : Replies) : RelayObjects → RelayObjects * option ApplyError :=
  call rs ErrDeployment (set_deployment None) ;;?
  call rs ErrService (set_service false) ;;?
  call rs ErrServiceAccount (set_account false) ;;?
  call rs ErrPdb (set_pdb false) ;;?
  call rs ErrNetworkPolicy (set_network_policy false).

(** ** The driver *)

(** The trait [RelayCell] over a world [W]. *)
Record RelayCell (W : Type) := mkCell {
  load : W → option RelayRecord;
  store : RelayRecord → W → W;
  clear : W → W;
  cell_apply : Z → Z → W → W * option ApplyError;
  cell_delete : W → W * option ApplyError;
}.
Arguments mkCell {_}.
Arguments load {_}.
Arguments store {_}.
Arguments clear {_}.
Arguments cell_apply {_}.
Arguments cell_delete {_}.

(** What the driver relies on: the record is storage, and I/O does not touch it. *)
Class RelayCellLaws {W} (c : RelayCell W) := {
  load_store r w : load c (store c r w) = Some r;
  load_clear w : load c (clear c w) = None;
  load_apply n m w : load c (cell_apply c n m w).1 = load c w;
  load_delete w : load c (cell_delete c w).1 = load c w;
}.

Inductive Converge := Done | Retry.

Definition committed (r : RelayRecord) (s : RelayState) (n : option Z) : RelayRecord :=
  mkRecord s (default (current_replicas r) n) (history r) (below_since r).

Section driver.
Context {W : Type} (c : RelayCell W).

Definition commit (r : RelayRecord) (s : RelayState) (n : option Z) : W → W :=
  store c (committed r s n).

Definition provision (i : RelayInputs) (tuning : RelayTuning) (now : Z) (w : W) : W * Converge :=
  if negb (should_provision (signal i) tuning) then (w, Done)
  else
    let '(n, ceiling) := initial_size (signal i) tuning in
    match cell_apply c n ceiling w with
    | (w', Some _) => (w', Retry)
    | (w', None) => (store c (observe now (signal i) tuning (existing Provisioning n)) w', Done)
    end.

(** The arm of [transition] for a cell that holds a record. *)
Definition act (r : RelayRecord) (d : RelayDecision) (w : W) : W * Converge :=
  match action d with
  | ActNone | Activate | StartDrain => (commit r (next_state d) None w, Done)
  | Resize n ceiling =>
      match cell_apply c n ceiling w with
      | (w', Some _) => (w', Retry)
      | (w', None) => (commit r (next_state d) (Some n) w', Done)
      end
  | Delete =>
      match cell_delete c w with
      | (w', Some _) => (w', Retry)
      | (w', None) => (clear c w', Done)
      end
  end.

Definition transition (i : RelayInputs) (tuning : RelayTuning) (now : Z) (w : W) : W * Converge :=
  match load c w with
  | None => provision i tuning now w
  | Some r =>
      let r := observe now (signal i) tuning r in
      act r (decide_relay now i tuning r) w
  end.

End driver.

(** ** The controller's world *)

Record RelayConfig := mkRelayConfig {
  relay_enabled : bool;
  cfg_replicas : Z;
  min_proxy_replicas : Z;
  cfg_target : Z;
  cfg_max_replicas : Z;
  cfg_cooldown : Z;
  cfg_stabilization : Z;
  cfg_tolerance : f64;
  telemetry_fence : bool;
}.

(** The relay fields of [ReconcileContext], and the objects in the cluster. *)
Record World := mkWorld {
  relay_states : gmap str RelayRecord;
  provisioned_relays : gset str;
  active_relays : gset str;
  relay_changed : Z;
  shared_relay_state : option RelayRecord;
  shared_relay_active : bool;
  cluster : gmap str RelayObjects;
  shared_objects : RelayObjects;
}.

Definition set_states (m : gmap str RelayRecord) (w : World) : World :=
  mkWorld m (provisioned_relays w) (active_relays w) (relay_changed w)
    (shared_relay_state w) (shared_relay_active w) (cluster w) (shared_objects w).
Definition set_cluster (m : gmap str RelayObjects) (w : World) : World :=
  mkWorld (relay_states w) (provisioned_relays w) (active_relays w) (relay_changed w)
    (shared_relay_state w) (shared_relay_active w) m (shared_objects w).
Definition set_shared_state (r : option RelayRecord) (w : World) : World :=
  mkWorld (relay_states w) (provisioned_relays w) (active_relays w) (relay_changed w)
    r (shared_relay_active w) (cluster w) (shared_objects w).
Definition set_shared_objects (o : RelayObjects) (w : World) : World :=
  mkWorld (relay_states w) (provisioned_relays w) (active_relays w) (relay_changed w)
    (shared_relay_state w) (shared_relay_active w) (cluster w) o.

Definition objects_in (ns : str) (w : World) : RelayObjects := default no_objects (cluster w !! ns).

Definition on_namespace (ns : str) (f : RelayObjects → RelayObjects * option ApplyError) (w : World) :
    World * option ApplyError :=
  let '(o, e) := f (objects_in ns w) in (set_cluster (<[ns := o]> (cluster w)) w, e).

Definition on_shared (f : RelayObjects → RelayObjects * option ApplyError) (w : World) :
    World * option ApplyError :=
  let '(o, e) := f (shared_objects w) in (set_shared_objects o w, e).

Section context.
Context `{HashIter} (cfg : RelayConfig).

Definition NamespaceCell (rs : Replies) (ns : str) : RelayCell World :=
  mkCell (λ w, relay_states w !! ns)
    (λ r w, set_states (<[ns := r]> (relay_states w)) w)
    (λ w, set_states (delete ns (relay_states w)) w)
    (λ n ceiling, on_namespace ns
       (apply_relay rs (telemetry_fence cfg) (clamp_u32_to_i32 n) (clamp_u32_to_i32 ceiling)))
    (on_namespace ns (delete_relay_resources rs)).

Definition SharedCell (rs : Replies) : RelayCell World :=
  mkCell shared_relay_state
    (λ r, set_shared_state (Some r))
    (set_shared_state None)
    (λ n ceiling, on_shared
       (apply_relay rs (telemetry_fence cfg) (clamp_u32_to_i32 n) (clamp_u32_to_i32 ceiling)))
    (on_shared (delete_relay_resources rs)).

Definition relay_tuning_defaults : RelayTuningDefaults :=
  mkDefaults (min_proxy_replicas cfg) (cfg_cooldown cfg) (cfg_stabilization cfg)
    (cfg_tolerance cfg) (cfg_target cfg) (cfg_replicas cfg).

(** ** The pass over the namespaces *)

(** What processing one namespace reads from outside. *)
Record Env := mkEnv {
  terminating : bool;
  policies : list CoxswainRelayPolicy;
  registry : option NodeRegistry;
  replies : Replies;
}.

Definition registry_signal (reg : option NodeRegistry) (ns : str) : Z * bool * Z :=
  match reg with
  | None => (0%Z, false, 0%Z)
  | Some nodes =>
      (clamp_usize_to_u32 (namespace_leaf_count ns nodes), relay_ready ns nodes,
       clamp_usize_to_u32 (relay_subscriber_count ns nodes))
  end.

Definition namespace_tuning (ns : str) (ps : list CoxswainRelayPolicy) : RelayTuning :=
  let p := resolve_policy ns ps in
  let p := if relay_enabled cfg then p
           else mkPolicy (Some false) (pol_replicas p) (pol_autoscaling p) (source_name p) in
  resolve_tuning p relay_tuning_defaults.

Definition namespace_inputs (ns : str) (demand : bool) (reg : option NodeRegistry) : RelayInputs :=
  let '(sig, rdy, subs) := registry_signal reg ns in mkInputs sig rdy subs demand.

Definition process_namespace (e : Env) (ns : str) (demand : bool) (now : Z) (w : World) : World :=
  if terminating e then set_states (delete ns (relay_states w)) w
  else
    (transition (NamespaceCell (replies e) ns) (namespace_inputs ns demand (registry e))
       (namespace_tuning ns (policies e)) now w).1.

(** [publish_relay_sets]; the counter of the watch wraps. *)
Definition active_namespaces (m : gmap str RelayRecord) : gset str :=
  dom (filter (λ kv, state kv.2 = Active) m).

Definition publish_relay_sets (w : World) : World :=
  let repoint := active_namespaces (relay_states w) in
  let changed := negb (bool_decide (active_relays w = repoint)) in
  mkWorld (relay_states w) (dom (relay_states w)) repoint
    (if changed then wrap 64 (relay_changed w + 1) else relay_changed w)
    (shared_relay_state w) (shared_relay_active w) (cluster w) (shared_objects w).

(** The namespaces of a pass in the order of the [BTreeSet]. *)
Definition pass_namespaces (gateways : gset str) (w : World) : list str :=
  sort_by str_leb (elements (gateways ∪ dom (relay_states w))).

Definition process_all (env : str → Env) (gateways : gset str) (now : Z) (l : list str) (w : World) : World :=
  foldl (λ w ns, process_namespace (env ns) ns (bool_decide (ns ∈ gateways)) now w) w l.

Definition relay_pass (env : str → Env) (gateways : gset str) (now : Z) (w : World) : World :=
  publish_relay_sets (process_all env gateways now (pass_namespaces gateways w) w).

(** ** Rehydration *)

(** The fields of a [Deployment] that are read. *)
Record Deployment := mkDeployment {
  dep_namespace : option str;
  dep_replicas : option Z;
}.

(** [u32::try_from] of the [i32], 1 when absent or negative. *)
Definition replicas_of (r : option Z) : Z :=
  match r with Some n => if (n <? 0)%Z then 1%Z else n | None => 1%Z end.

Definition records_from_relay_deployments (items : list Deployment) : gmap str RelayRecord :=
  foldl (λ m d, match dep_namespace d with
                | None => m
                | Some ns => <[ns := existing Active (replicas_of (dep_replicas d))]> m
                end) ∅ items.

Definition rehydrate_provisioned_relays (listed : option (list Deployment)) (w : World) : World :=
  match listed with
  | None => w
  | Some items => publish_relay_sets (set_states (records_from_relay_deployments items) w)
  end.

(** ** The shared pool *)

Record SharedProxyConfig := mkSharedProxy {
  sp_enabled : bool;
  selector_empty : bool;
  sp_autoscaling_enabled : bool;
  sp_replicas : Z;
  autoscaling_min_replicas : Z;
}.

Definition shared_relay_tuning : RelayTuning :=
  let floor := Z.max (cfg_replicas cfg) 1 in
  resolve_tuning
    (mkPolicy (if relay_enabled cfg then None else Some false) None
       (Some (capped floor (Z.max (cfg_max_replicas cfg) floor) (Z.max (cfg_target cfg) 1))) None)
    relay_tuning_defaults.

(** [dep] is the reply to the read of the pool's Deployment: an error, or its
    replicas when it has any. *)
Definition shared_pool_replica_signal (sp : SharedProxyConfig) (dep : option (option Z)) : Z :=
  if negb (sp_enabled sp) || selector_empty sp then 0%Z
  else if negb (sp_autoscaling_enabled sp) then sp_replicas sp
  else match dep with
       | Some (Some n) => if (n <? 0)%Z then autoscaling_min_replicas sp else n
       | _ => autoscaling_min_replicas sp
       end.

Definition publish_shared_relay (w : World) : World :=
  let active := match shared_relay_state w with
                | Some r => bool_decide (state r = Active)
                | None => false
                end in
  mkWorld (relay_states w) (provisioned_relays w) (active_relays w)
    (if Bool.eqb (shared_relay_active w) active then relay_changed w
     else wrap 64 (relay_changed w + 1))
    (shared_relay_state w) active (cluster w) (shared_objects w).

Definition shared_inputs (sp : SharedProxyConfig) (dep : option (option Z)) (reg : option NodeRegistry) :
    RelayInputs :=
  let '(rdy, subs) :=
    match reg with
    | Some nodes => (shared_pool_relay_ready nodes,
                     clamp_usize_to_u32 (shared_pool_relay_subscriber_count nodes))
    | None => (false, 0%Z)
    end in
  mkInputs (shared_pool_replica_signal sp dep) rdy subs (sp_enabled sp && negb (selector_empty sp)).

Definition converge_shared_pool (sp : SharedProxyConfig) (dep : option (option Z))
    (reg : option NodeRegistry) (rs : Replies) (now : Z) (w : World) : World :=
  match transition (SharedCell rs) (shared_inputs sp dep reg) shared_relay_tuning now w with
  | (w', Done) => publish_shared_relay w'
  | (w', Retry) => w'
  end.

(** [get]: the reply to the read of the relay's Deployment. *)
Definition rehydrate_shared_relay (get : option (option (option Z))) (w : World) : World :=
  match get with
  | None => w
  | Some d => publish_shared_relay
                (set_shared_state ((λ r, existing Active (replicas_of r)) <$> d) w)
  end.

End context.

#[export] Instance NamespaceCell_laws cfg rs ns : RelayCellLaws (NamespaceCell cfg rs ns).
Proof.
  split; simpl.
  - intros. by rewrite lookup_insert_eq.
  - intros. by rewrite lookup_delete_eq.
  - intros. unfold on_namespace. by case_match.
  - intros. unfold on_namespace. by case_match.
Qed.

#[export] Instance SharedCell_laws cfg rs : RelayCellLaws (SharedCell cfg rs).
Proof. split; simpl; intros; try done; unfold on_shared; by case_match. Qed.
