(* ===== verification/RelayRuns.v ===== *)
(** * The life of one relay

    The driver of [RelayLoop] refines a function on records, and what a record holds
    after any sequence of settled passes: the samples of the stabilization window and
    the start of the stretch below the threshold.  From these, the cooldown and the
    scale-down guarantee. *)

From S2P Require Import Prelude Health NodeRegistry RelayScaler RelayScalerFacts RelayLoop.

Open Scope Z_scope.

(** ** Refinement *)

(** What a settled pass does to the record, I/O apart. *)
Definition advance_record (t : RelayTuning) (now : Z) (i : RelayInputs) (o : option RelayRecord) :
    option RelayRecord :=
  match o with
  | None =>
      if should_provision (signal i) t
      then Some (observe now (signal i) t (existing Provisioning (initial_size (signal i) t).1))
      else None
  | Some r =>
      let r := observe now (signal i) t r in
      let d := decide_relay now i t r in
      match action d with
      | Delete => None
      | Resize n _ => Some (committed r (next_state d) (Some n))
      | _ => Some (committed r (next_state d) None)
      end
  end.

(** A pass that settles advances the record, one that must be retried leaves it,
    on every cell that keeps the interface. *)
Lemma transition_refines {W} (c : RelayCell W) `{!RelayCellLaws c} i t now w :
  load c (transition c i t now w).1 =
  match (transition c i t now w).2 with
  | Done => advance_record t now i (load c w)
  | Retry => load c w
  end.
Proof.
  unfold transition. destruct (load c w) as [r|] eqn:El; simpl.
  - unfold act. destruct (action _) eqn:Ea; simpl; unfold commit; rewrite ?load_store; try done.
    + pose proof (load_apply replicas pdb_ceiling w) as Hl. destruct (cell_apply _ _ _ _) as [w' [e|]]; simpl in *.
      * by rewrite Hl.
      * by rewrite load_store.
    + pose proof (load_delete w) as Hl. destruct (cell_delete _ _) as [w' [e|]]; simpl in *.
      * by rewrite Hl.
      * by rewrite load_clear.
  - unfold provision. destruct (should_provision _ _); simpl; [|done].
    destruct (initial_size _ _) as [n m]. pose proof (load_apply n m w) as Hl.
    destruct (cell_apply _ _ _ _) as [w' [e|]]; simpl in *; [by rewrite Hl|by rewrite load_store].
Qed.

(** ** Runs *)

Record Pass := mkPass { p_replies : Replies; p_inputs : RelayInputs; p_now : Z }.

Definition sample (p : Pass) : Z * Z := (p_now p, signal (p_inputs p)).

(** The cells of one relay: the replies differ from pass to pass, the storage does not. *)
Class CellFamily {W} (cell : Replies → RelayCell W) := {
  family_laws rs : RelayCellLaws (cell rs);
  family_load rs rs' w : load (cell rs) w = load (cell rs') w;
}.

#[export] Instance NamespaceCell_family cfg ns : CellFamily (λ rs, NamespaceCell cfg rs ns).
Proof. split; [apply _|done]. Qed.

#[export] Instance SharedCell_family cfg : CellFamily (SharedCell cfg).
Proof. split; [apply _|done]. Qed.

(** What [resolve_tuning] guarantees. *)
Definition tuning_wf (t : RelayTuning) : Prop := 1 ≤ static_replicas t ∧ 0 ≤ stabilization t.

Section run.
Context {W : Type} (cell : Replies → RelayCell W) (t : RelayTuning).

Definition held (w : W) : option RelayRecord := load (cell all_replied) w.

Definition pass_step (p : Pass) (w : W) : W * Converge :=
  transition (cell (p_replies p)) (p_inputs p) t (p_now p) w.

(** The world after the passes, oldest first, and whether all of them settled. *)
Fixpoint run (l : list Pass) (w : W) : W * bool :=
  match l with
  | [] => (w, true)
  | p :: l =>
      let '(w1, o) := pass_step p w in
      let '(w2, b) := run l w1 in
      (w2, match o with Done => b | Retry => false end)
  end.

(** The passes since the relay of the cell was last absent. *)
Definition extend_life (before after : option RelayRecord) (life : list Pass) (p : Pass) : list Pass :=
  match after with
  | None => []
  | Some _ => match before with None => [p] | Some _ => life ++ [p] end
  end.

Fixpoint lifetime (l : list Pass) (life : list Pass) (w : W) : list Pass :=
  match l with
  | [] => life
  | p :: l =>
      let w1 := (pass_step p w).1 in
      lifetime l (extend_life (held w) (held w1) life p) w1
  end.

(** ** What a record knows *)

Definition below (p : Pass) : Prop := signal (p_inputs p) < activation_threshold t.

Definition replica_ceiling : Z :=
  match autoscaling_bounds t with Some (_, hi, _) => hi | None => static_replicas t end.

Record tracks (life : list Pass) (r : RelayRecord) : Prop := {
  tracks_seen x : x ∈ history r → x ∈ sample <$> life;
  tracks_order : in_order (history r);
  tracks_recent now x :
    (∀ y, y ∈ sample <$> life → y.1 ≤ now) →
    x ∈ sample <$> life → recent now (stabilization t) x → x ∈ history r;
  tracks_below since : below_since r = Some since →
    ∃ l1 p l2, life = l1 ++ p :: l2 ∧ p_now p = since ∧ Forall below (p :: l2);
}.

Lemma tracks_fresh s n : tracks [] (existing s n).
Proof. split; simpl; try done; constructor. Qed.

Lemma tracks_committed life r s n : tracks life r → tracks life (committed r s n).
Proof. by intros []. Qed.

Lemma in_order_snoc h x : in_order h → (∀ y, y ∈ h → y.1 ≤ x.1) → in_order (h ++ [x]).
Proof.
  induction 1 as [|y h Hs IH Hall]; intros Hx; simpl; [repeat constructor|].
  constructor; [apply IH; set_solver|].
  apply Forall_app; split; [done|]. constructor; [|done]. apply Hx. set_solver.
Qed.

Lemma in_order_app_r h1 h2 : in_order (h1 ++ h2) → in_order h2.
Proof. induction h1; simpl; [done|]. inversion 1; auto. Qed.

Lemma in_order_app_l h1 h2 : in_order (h1 ++ h2) → in_order h1.
Proof.
  induction h1 as [|x h1 IH]; simpl; [constructor|]. inversion 1 as [|?? ? Hall]; subst.
  constructor; [by apply IH|]. by apply Forall_app in Hall as [? _].
Qed.

Lemma in_order_app_le h1 h2 x y : in_order (h1 ++ h2) → x ∈ h1 → y ∈ h2 → x.1 ≤ y.1.
Proof.
  induction h1 as [|z h1 IH]; simpl; [by intros _ ?%elem_of_nil|]. inversion 1 as [|?? Hs Hall]; subst.
  intros [->|?]%elem_of_cons Hy; [|by apply IH].
  eapply Forall_forall in Hall; [exact Hall|]. apply elem_of_app. by right.
Qed.

Lemma in_order_filter now window h : in_order h → in_order (filter (recent now window) h).
Proof.
  induction 1 as [|y h Hs IH Hall]; [constructor|]. rewrite filter_cons. case_decide; [|done].
  constructor; [done|]. apply Forall_forall. intros z [_ Hz]%list_elem_of_filter.
  by eapply Forall_forall in Hall.
Qed.

Lemma tracks_observe life r p :
  0 ≤ stabilization t → tracks life r → (∀ q, q ∈ life → p_now q ≤ p_now p) →
  tracks (life ++ [p]) (observe (p_now p) (signal (p_inputs p)) t r).
Proof.
  intros Hw [Hseen Hord Hrec Hbel] Hlast.
  assert (∀ y, y ∈ sample <$> life → y.1 ≤ p_now p) as Hle.
  { intros y (q & -> & Hq)%list_elem_of_fmap. by apply Hlast. }
  assert (in_order (history r ++ [sample p])) as Hord'.
  { apply in_order_snoc; [done|]. intros y Hy. apply Hle, Hseen, Hy. }
  split; simpl.
  - rewrite prune_filter by done. intros x [_ Hx]%list_elem_of_filter.
    rewrite fmap_app. apply elem_of_app in Hx as [Hx|Hx]; apply elem_of_app; [left; by apply Hseen|by right].
  - rewrite prune_filter by done. by apply in_order_filter.
  - intros now x Hnow Hx Hr. rewrite prune_filter by done. apply list_elem_of_filter.
    rewrite fmap_app in Hnow, Hx. split.
    + unfold recent in *. assert (p_now p ≤ now); [|lia].
      apply (Hnow (sample p)). apply elem_of_app. right. by apply list_elem_of_singleton.
    + apply elem_of_app in Hx as [Hx|Hx]; apply elem_of_app; [left|by right].
      apply (Hrec now); [|done|done]. intros y Hy. apply Hnow, elem_of_app. by left.
  - intros since. case_zb; [done|].
    destruct (below_since r) as [s0|] eqn:Eb; intros [= <-].
    + destruct (Hbel _ eq_refl) as (l1 & q & l2 & -> & Hq & Hall).
      exists l1, q, (l2 ++ [p]). split; [by rewrite <-app_assoc|]. split; [done|].
      rewrite app_comm_cons. apply Forall_app. split; [done|]. constructor; [|done]. unfold below. lia.
    + exists life, p, []. split_and!; [done..|]. constructor; [|done]. unfold below. lia.
Qed.

(** ** Invariant of a run *)

Definition known (w : W) (life : list Pass) : Prop :=
  match held w with
  | None => life = []
  | Some r => tracks life r ∧ current_replicas r ≤ replica_ceiling
  end.

Lemma initial_size_ceiling sig : tuning_wf t → Z.max (initial_size sig t).1 1 ≤ replica_ceiling.
Proof.
  intros [? ?]. unfold initial_size, replica_ceiling.
  destruct (autoscaling_bounds t) as [[[lo hi] tgt]|] eqn:E; simpl; [|lia].
  apply autoscaling_bounds_valid in E as [? ?]. pose proof (clamp_range (div_ceil sig tgt) lo hi). lia.
Qed.

Lemma autoscaled_size_ceiling r : (autoscaled_size t r).1 ≤ replica_ceiling.
Proof.
  unfold autoscaled_size, replica_ceiling.
  destruct (autoscaling_bounds t) as [[[lo hi] tgt]|] eqn:E; simpl; [|lia].
  apply autoscaling_bounds_valid in E as [? ?]. case_match; apply desired_range; lia.
Qed.

Context `{!CellFamily cell}.

Lemma pass_step_settled p w w' : pass_step p w = (w', Done) →
  held w' = advance_record t (p_now p) (p_inputs p) (held w).
Proof.
  intros E. unfold held. rewrite !(family_load all_replied (p_replies p)).
  pose proof (family_laws (p_replies p)).
  pose proof (transition_refines (cell (p_replies p)) (p_inputs p) t (p_now p) w) as Hr.
  unfold pass_step in E. by rewrite E in Hr.
Qed.

Lemma known_step p w w' life :
  tuning_wf t → known w life → (∀ q, q ∈ life → p_now q ≤ p_now p) → pass_step p w = (w', Done) →
  known w' (extend_life (held w) (held w') life p).
Proof.
  intros Hwf Hk Hlast E%pass_step_settled. unfold known in *. rewrite E.
  destruct (held w) as [r|]; simpl.
  - destruct Hk as [Htr Hc]. apply (tracks_observe _ _ p) in Htr; [|apply Hwf|done].
    destruct (action _) eqn:Ea; simpl; try done; (split; [by apply tracks_committed|]); try done.
    apply decide_resize in Ea as (_ & Ea & _).
    match type of Ea with autoscaled_size _ ?r = _ => pose proof (autoscaled_size_ceiling r) as Hs end.
    by rewrite Ea in Hs.
  - destruct (should_provision _ _); simpl; [|done]. split; [|by apply initial_size_ceiling].
    apply (tracks_observe []); [apply Hwf|apply tracks_fresh|by intros ? ?%elem_of_nil].
Qed.

Lemma known_run l : ∀ w w' life,
  tuning_wf t → known w life → in_order (sample <$> life ++ l) → run l w = (w', true) →
  known w' (lifetime l life w).
Proof.
  induction l as [|p l IH]; simpl; intros w w' life Hwf Hk Hord E; [by simplify_eq|].
  destruct (pass_step p w) as [w1 o] eqn:Ep. destruct (run l w1) as [w2 b] eqn:Er.
  destruct o; simplify_eq. rewrite fmap_app, fmap_cons in Hord.
  assert (∀ q, q ∈ life → p_now q ≤ p_now p) as Hlast.
  { intros q Hq. eapply (in_order_app_le _ _ (sample q) (sample p) Hord); [|left].
    by apply list_elem_of_fmap_2. }
  apply IH; [done|by eapply known_step| |done].
  unfold extend_life. apply in_order_app_r in Hord as Hord'.
  repeat case_match; simpl; [by rewrite <-app_assoc, fmap_app|done|by inversion Hord'].
Qed.

Lemma lifetime_suffix l : ∀ w life, lifetime l life w `suffix_of` life ++ l.
Proof.
  induction l as [|p l IH]; simpl; intros w life; [by rewrite app_nil_r|].
  etrans; [apply IH|]. unfold extend_life. repeat case_match.
  - by rewrite <-app_assoc.
  - by apply suffix_app_r.
  - rewrite (cons_middle p). rewrite app_assoc. by apply suffix_app_r.
Qed.
End run.

(** ** Guarantees *)

Lemma advance_drains t now i r r' :
  advance_record t now i (Some r) = Some r' → state r = Active → state r' = Draining →
  should_deactivate now (signal i) (demand_present i) t (observe now (signal i) t r) = true.
Proof.
  intros E Ha Hd. simpl in E. unfold decide_relay, decide_active in E. simpl in E. rewrite Ha in E.
  destruct (should_deactivate _ _ _ _ _); [done|].
  repeat case_match; simplify_eq/=; done.
Qed.

Lemma advance_resizes t now i r r' :
  advance_record t now i (Some r) = Some r' → current_replicas r' ≠ current_replicas r →
  ∃ ceiling, autoscaled_size t (observe now (signal i) t r) = (current_replicas r', ceiling).
Proof.
  intros E Hne. simpl in E. destruct (action _) eqn:Ea; simplify_eq/=; try done.
  apply decide_resize in Ea as (_ & Ea & _). by eexists.
Qed.

(** What the record knows when a pass decides on it. *)
Lemma run_observed {W} (cell : Replies → RelayCell W) `{!CellFamily cell} t w0 l w r p :
  tuning_wf t → held cell w0 = None → in_order (sample <$> l ++ [p]) →
  run cell t l w0 = (w, true) → held cell w = Some r →
  tracks t (lifetime cell t l [] w0 ++ [p]) (observe (p_now p) (signal (p_inputs p)) t r) ∧
  current_replicas r ≤ replica_ceiling t ∧ (∀ q, q ∈ l → p_now q ≤ p_now p).
Proof.
  intros Hwf H0 Hord Hrun Hr. rewrite fmap_app in Hord.
  assert (∀ q, q ∈ l → p_now q ≤ p_now p) as Hlast.
  { intros q Hq. eapply (in_order_app_le _ _ (sample q) (sample p) Hord); [by apply list_elem_of_fmap_2|left]. }
  assert (known cell t w (lifetime cell t l [] w0)) as Hk.
  { apply (known_run cell t l w0 w []); [done|by unfold known; rewrite H0| |done].
    by eapply in_order_app_l. }
  unfold known in Hk. rewrite Hr in Hk. destruct Hk as [Htr Hc]. split_and!; [|done|done].
  apply tracks_observe; [apply Hwf|done|]. intros q Hq. apply Hlast.
  destruct (lifetime_suffix cell t l w0 []) as [l0 Hsuf]. simpl in Hsuf. rewrite Hsuf.
  apply elem_of_app. by right.
Qed.

Lemma deactivates_below now sig t r :
  enabled_override t = None → should_deactivate now sig true t r = true →
  ∃ since, below_since r = Some since ∧ cooldown t ≤ duration_since now since.
Proof.
  unfold should_deactivate. intros ->. rewrite !bool_decide_eq_false_2 by done. simpl.
  case_match; [done|]. destruct (below_since r) as [since|]; [|done].
  intros ?%Z.leb_le. by exists since.
Qed.

(** An automatic relay with demand is torn down only after the signal was below the
    threshold at every pass for the whole cooldown: the passes end in a stretch, at
    least the cooldown long, of readings below the threshold. *)
Theorem cooldown_respected {W} (cell : Replies → RelayCell W) `{!CellFamily cell} t w0 l w r p w' r' :
  tuning_wf t → held cell w0 = None → in_order (sample <$> l ++ [p]) →
  run cell t l w0 = (w, true) → held cell w = Some r → state r = Active →
  pass_step cell t p w = (w', Done) → held cell w' = Some r' → state r' = Draining →
  demand_present (p_inputs p) = true → enabled_override t = None →
  ∃ l1 q l2, l ++ [p] = l1 ++ q :: l2 ∧ Forall (below t) (q :: l2) ∧ cooldown t ≤ p_now p - p_now q.
Proof.
  intros Hwf H0 Hord Hrun Hr Ha Hp Hr' Hd Hdem Hen.
  apply pass_step_settled in Hp; [|done]. rewrite Hr, Hr' in Hp. symmetry in Hp.
  apply advance_drains in Hp; [|done..]. rewrite Hdem in Hp.
  apply deactivates_below in Hp as (since & Hs & Hcd); [|done].
  destruct (run_observed cell t w0 l w r p) as (Htr & _ & Hlast); [done..|].
  destruct (tracks_below _ _ _ Htr since Hs) as (l1 & q & l2 & Hlife & <- & Hall).
  destruct (lifetime_suffix cell t l w0 []) as [l0 Hsuf]. simpl in Hsuf.
  assert (l ++ [p] = (l0 ++ l1) ++ q :: l2) as Hl by (by rewrite Hsuf at 1; rewrite <-!app_assoc, Hlife).
  exists (l0 ++ l1), q, l2. split_and!; [done..|].
  assert (p_now q ≤ p_now p); [|unfold duration_since in Hcd].
  - assert (q ∈ l ++ [p]) as Hq by (rewrite Hl; set_solver).
    apply elem_of_app in Hq as [Hq|Hq]; [by apply Hlast|]. apply list_elem_of_singleton in Hq. by subst.
  - destruct (decide (cooldown t ≤ 0)); lia.
Qed.

(** A relay is shrunk only to a size whose capacity covers every signal read during
    the stabilization window of its life. *)
Theorem scale_down_covers_window {W} (cell : Replies → RelayCell W) `{!CellFamily cell}
    t w0 l w r p w' r' lo hi tgt :
  tuning_wf t → autoscaling_bounds t = Some (lo, hi, tgt) →
  held cell w0 = None → in_order (sample <$> l ++ [p]) →
  run cell t l w0 = (w, true) → held cell w = Some r →
  pass_step cell t p w = (w', Done) → held cell w' = Some r' →
  current_replicas r' < current_replicas r →
  ∀ q, q ∈ lifetime cell t l [] w0 ++ [p] → p_now p - p_now q ≤ stabilization t →
       signal (p_inputs q) ≤ tgt * current_replicas r'.
Proof.
  intros Hwf Hb H0 Hord Hrun Hr Hp Hr' Hlt q Hq Hrec.
  apply pass_step_settled in Hp; [|done]. rewrite Hr, Hr' in Hp. symmetry in Hp.
  apply advance_resizes in Hp as [ceiling Hs]; [|lia].
  destruct (run_observed cell t w0 l w r p) as (Htr & Hc & Hlast); [done..|].
  unfold replica_ceiling in Hc. rewrite Hb in Hc.
  destruct (scale_down_spec t (observe (p_now p) (signal (p_inputs p)) t r) lo hi tgt _ ceiling Hb Hc Hs Hlt) as [Hcov _].
  apply (Hcov (p_now q)). apply (tracks_recent _ _ _ Htr (p_now p)); [|by apply (list_elem_of_fmap_2 sample)|done].
  intros y (z & -> & Hz)%list_elem_of_fmap.
  apply elem_of_app in Hz as [Hz|Hz]; [|apply list_elem_of_singleton in Hz; by subst].
  apply Hlast. destruct (lifetime_suffix cell t l w0 []) as [l0 Hsuf]. simpl in Hsuf. rewrite Hsuf.
  apply elem_of_app. by right.
Qed.

(** ** Concrete runs of the shared pool's relay *)

Module SharedDemo.

Definition cfg : RelayConfig :=
  mkRelayConfig true 1 3 1 10 (from_secs 10) (from_secs 5) (f64_div (f64_from 1) (f64_from 10)) true.
Definition tuning : RelayTuning := shared_relay_tuning cfg.
Definition world0 : World := mkWorld ∅ ∅ ∅ 0 None false ∅ no_objects.

Definition at_sec (rs : Replies) (sec sig : Z) : Pass :=
  mkPass rs (mkInputs sig true 0 true) (from_secs sec).
Definition no_deployment : Replies := λ e, if decide (e = ErrDeployment) then Failed else Replied.

(** Provisioned for five proxies, activated, then two readings below three. *)
Definition quiet : list Pass :=
  [at_sec all_replied 0 5; at_sec all_replied 1 5; at_sec all_replied 2 2].
Definition after (l : list Pass) : World := (run (SharedCell cfg) tuning l world0).1.
Definition record_after (l : list Pass) : RelayRecord :=
  default (existing Draining 0) (held (SharedCell cfg) (after l)).

Lemma quiet_order p : from_secs 2 ≤ p_now p → in_order (sample <$> quiet ++ [p]).
Proof.
  intros. unfold in_order, quiet, from_secs in *. simpl.
  repeat first [apply SSorted_nil | apply SSorted_cons | apply Forall_cons | apply Forall_nil | split | lia]; simpl; unfold from_secs; lia.
Qed.

Lemma tuning_ok : tuning_wf tuning.
Proof. split; vm_compute; discriminate. Qed.

End SharedDemo.

Import SharedDemo.

Lemma cooldown_respected_witness :
  ∃ l1 q l2, quiet ++ [at_sec all_replied 12 1] = l1 ++ q :: l2 ∧
    Forall (below tuning) (q :: l2) ∧ cooldown tuning ≤ from_secs 12 - p_now q.
Proof.
  apply (cooldown_respected (SharedCell cfg) tuning world0 quiet (after quiet) (record_after quiet)
           (at_sec all_replied 12 1) (after (quiet ++ [at_sec all_replied 12 1]))
           (record_after (quiet ++ [at_sec all_replied 12 1]))).
  all: try (vm_compute; reflexivity).
  - exact tuning_ok.
  - apply quiet_order. vm_compute. discriminate.
Defined.

Lemma scale_down_covers_window_witness :
  signal (p_inputs (at_sec all_replied 9 3)) ≤
  1 * current_replicas (record_after (quiet ++ [at_sec all_replied 9 3])).
Proof.
  apply (scale_down_covers_window (SharedCell cfg) tuning world0 quiet (after quiet) (record_after quiet)
           (at_sec all_replied 9 3) (after (quiet ++ [at_sec all_replied 9 3]))
           (record_after (quiet ++ [at_sec all_replied 9 3])) 1 10 1).
  all: try (vm_compute; reflexivity).
  - exact tuning_ok.
  - apply quiet_order. vm_compute. discriminate.
  - vm_compute. repeat constructor.
  - vm_compute. discriminate.
Defined.

(** A failed resize discards the reading that would have reset the cooldown: the relay
    drains two seconds after a reading at three times the threshold. *)
Theorem failed_resize_defeats_cooldown :
  let l := quiet ++ [at_sec no_deployment 10 9] in
  let p := at_sec all_replied 12 1 in
  state (record_after l) = Active ∧
  (pass_step (SharedCell cfg) tuning p (after l)).2 = Done ∧
  (state <$> held (SharedCell cfg) (pass_step (SharedCell cfg) tuning p (after l)).1) = Some Draining ∧
  demand_present (p_inputs p) = true ∧ enabled_override tuning = None ∧
  Exists (λ q, activation_threshold tuning ≤ signal (p_inputs q) ∧
               p_now p - p_now q < cooldown tuning) l.
Proof.
  intros l p. do 5 (split; [vm_compute; reflexivity|]).
  apply Exists_app. right. apply Exists_cons_hd. split; vm_compute; [discriminate|reflexivity].
Qed.
