(* ===== verification/RelayLoopFacts.v ===== *)
(** * Make before break

    The relay sets that the loop of [RelayLoop] publishes, over every sequence of
    passes, rehydrations and changes of the cluster: a namespace whose proxies are
    pointed at its relay has one, deployed and authorized; a disabled tier is
    reclaimed.  Then where the loop falls short of it. *)

From S2P Require Import Prelude Health NodeRegistry ResourceKey Identity Upstream Roster Sessions Authz.
From S2P Require Import AuthzFacts RelayScaler RelayScalerFacts RelayLoop RelayRuns.

Open Scope Z_scope.

Definition deployed (ns : str) (w : World) : Prop := is_Some (deployment (objects_in ns w)).

(** A delete that fails leaves the Deployment in place. *)
Definition whole_delete (rs : Replies) : Prop := rs ErrDeployment = Failed ∨ ∀ e, rs e = Replied.

Lemma relay_allowed az p ns :
  ns ∈ provisioned az → presents (λ td, td = az_trust_domain az) p ns (relay_sa az) →
  relay_allows_namespace az p ns = true.
Proof.
  intros Hns Hp. apply exactly_iff in Hp. unfold relay_allows_namespace.
  rewrite (bool_decide_eq_true_2 _ Hns). by destruct (uri_sans p).
Qed.

(** ** One apply, one delete *)

Lemma apply_relay_ok rs fence n m o o' : apply_relay rs fence n m o = (o', None) → deployment o' = Some n.
Proof. unfold apply_relay, and_then, call. repeat case_match; intros; by simplify_eq/=. Qed.

Lemma apply_relay_keeps rs fence n m o :
  is_Some (deployment o) → is_Some (deployment (apply_relay rs fence n m o).1).
Proof. unfold apply_relay, and_then, call. intros. repeat case_match; simplify_eq/=; done. Qed.

Lemma delete_whole rs o o' e :
  whole_delete rs → delete_relay_resources rs o = (o', Some e) → deployment o' = deployment o.
Proof.
  unfold delete_relay_resources, and_then, call.
  intros [E|E]; rewrite ?E; repeat case_match; intros; by simplify_eq/=.
Qed.

Lemma delete_all_replied o :
  (delete_relay_resources all_replied o).2 = None ∧
  deployment (delete_relay_resources all_replied o).1 = None.
Proof. done. Qed.

(** ** One namespace *)

Section loop.
Context `{HashIter} (cfg : RelayConfig).

Lemma objects_in_insert ns o w : objects_in ns (set_cluster (<[ns := o]> (cluster w)) w) = o.
Proof. unfold objects_in; simpl. by rewrite lookup_insert_eq. Qed.

(** Processing one namespace leaves the others, and what is published, alone. *)
Record frame (ns : str) (w w' : World) : Prop := {
  frame_states k : k ≠ ns → relay_states w' !! k = relay_states w !! k;
  frame_objects k : k ≠ ns → objects_in k w' = objects_in k w;
  frame_active : active_relays w' = active_relays w;
  frame_provisioned : provisioned_relays w' = provisioned_relays w;
}.

Lemma frame_refl ns w : frame ns w w.
Proof. done. Qed.

Lemma frame_trans ns w1 w2 w3 : frame ns w1 w2 → frame ns w2 w3 → frame ns w1 w3.
Proof. intros [A1 A2 A3 A4] [B1 B2 B3 B4]. split; intros; [rewrite B1|rewrite B2| |]; auto; congruence. Qed.

Lemma frame_set (ns : str) (m : gmap str RelayRecord) w :
  (∀ k, k ≠ ns → m !! k = relay_states w !! k) → frame ns w (set_states m w).
Proof. by split. Qed.

Lemma frame_store rs ns r w : frame ns w (store (NamespaceCell cfg rs ns) r w).
Proof. apply frame_set. intros. by rewrite lookup_insert_ne. Qed.

Lemma frame_clear rs ns w : frame ns w (clear (NamespaceCell cfg rs ns) w).
Proof. apply frame_set. intros. by rewrite lookup_delete_ne. Qed.

Lemma frame_io ns f w : frame ns w (on_namespace ns f w).1.
Proof.
  unfold on_namespace. case_match. split; try done. simpl. intros k ?. unfold objects_in; simpl.
  by rewrite lookup_insert_ne.
Qed.

Lemma frame_io_eq ns f w w' e : on_namespace ns f w = (w', e) → frame ns w w'.
Proof. intros E. pose proof (frame_io ns f w) as F. by rewrite E in F. Qed.

Lemma frame_transition rs ns i t now w : frame ns w (transition (NamespaceCell cfg rs ns) i t now w).1.
Proof.
  unfold transition, provision, act, commit.
  repeat case_match; subst; cbn [fst]; try apply frame_refl; try apply frame_store;
    match goal with
    | E : _ = (?w', _) |- frame _ w _ => apply frame_io_eq in E
    end; try done; (eapply frame_trans; [done|]); first [apply frame_store|apply (frame_clear rs)].
Qed.

Lemma frame_process e ns d now w : frame ns w (process_namespace cfg e ns d now w).
Proof.
  unfold process_namespace. destruct (terminating e); [apply (frame_clear all_replied)|apply frame_transition].
Qed.

Lemma on_namespace_objects ns f w : objects_in ns (on_namespace ns f w).1 = (f (objects_in ns w)).1.
Proof. unfold on_namespace. case_match. apply objects_in_insert. Qed.

Lemma applied_deployed ns rs n m w w' e :
  on_namespace ns (apply_relay rs (telemetry_fence cfg) n m) w = (w', e) →
  e = None ∨ deployed ns w → deployed ns w'.
Proof.
  intros E He. unfold deployed. change w' with (w', e).1. rewrite <-E, on_namespace_objects.
  unfold on_namespace in E. destruct (apply_relay _ _ _ _ _) as [o e'] eqn:Ea. simplify_eq/=.
  destruct He as [->|Hd]; [by rewrite (apply_relay_ok _ _ _ _ _ _ Ea)|].
  change o with (o, e).1. rewrite <-Ea. by apply apply_relay_keeps.
Qed.

Lemma failed_delete_deployed ns rs w w' e :
  whole_delete rs → on_namespace ns (delete_relay_resources rs) w = (w', Some e) →
  deployed ns w → deployed ns w'.
Proof.
  intros Hrs E. unfold deployed. change w' with (w', Some e).1. rewrite <-E, on_namespace_objects.
  unfold on_namespace in E. destruct (delete_relay_resources _ _) as [o e'] eqn:Ed. simplify_eq/=.
  by rewrite (delete_whole _ _ _ _ Hrs Ed).
Qed.

(** A record has a Deployment, if failed deletes leave it. *)
Lemma process_keeps e ns d now w :
  whole_delete (replies e) →
  (is_Some (relay_states w !! ns) → deployed ns w) →
  is_Some (relay_states (process_namespace cfg e ns d now w) !! ns) →
  deployed ns (process_namespace cfg e ns d now w).
Proof.
  intros Hrs Hw. unfold process_namespace.
  destruct (terminating e); simpl; [rewrite lookup_delete_eq; by intros []|].
  unfold transition, provision, act, commit; simpl.
  destruct (relay_states w !! ns) as [r|] eqn:Er; [specialize (Hw ltac:(done))|clear Hw].
  - destruct (action _); simpl; try done.
    + destruct (on_namespace _ _ _) as [w' [err|]] eqn:E; simpl; intros _;
        (eapply applied_deployed in E; [exact E|by auto]).
    + destruct (on_namespace _ _ _) as [w' [err|]] eqn:E; simpl.
      * intros _. by eapply failed_delete_deployed.
      * rewrite lookup_delete_eq. by intros [].
  - destruct (should_provision _ _); simpl; [|by rewrite Er; intros []].
    destruct (initial_size _ _) as [n m]. destruct (on_namespace _ _ _) as [w' [err|]] eqn:E; simpl.
    + assert (relay_states w' !! ns = None) as ->; [|by intros []].
      unfold on_namespace in E. case_match. by simplify_eq/=.
    + intros _. eapply applied_deployed in E; [exact E|by auto].
Qed.

Lemma decide_active_keeps now i t r : state r = Active → action (decide_relay now i t r) ≠ Delete.
Proof. unfold decide_relay, decide_active. intros ->. by repeat case_match. Qed.

(** An active relay is not deleted, whatever the cluster replies. *)
Lemma process_active_keeps e ns d now w r :
  relay_states w !! ns = Some r → state r = Active → deployed ns w →
  deployed ns (process_namespace cfg e ns d now w).
Proof.
  intros Er Ha Hd. unfold process_namespace. destruct (terminating e); [done|].
  unfold transition, act, commit; simpl. rewrite Er.
  destruct (action _) eqn:Ea; simpl; try done.
  - destruct (on_namespace _ _ _) as [w' [err|]] eqn:E; simpl; (eapply applied_deployed in E; [exact E|by auto]).
  - by apply decide_active_keeps in Ea.
Qed.

Lemma decide_activates now i t r :
  next_state (decide_relay now i t r) = Active → state r = Active ∨ ready i = true.
Proof.
  unfold decide_relay, decide_provisioning, decide_draining.
  destruct (state r); [|by left|]; repeat case_match; simpl; auto; done.
Qed.

(** A relay becomes active only when it reports ready. *)
Lemma process_ready e ns d now w r' :
  relay_states (process_namespace cfg e ns d now w) !! ns = Some r' → state r' = Active →
  (∃ r, relay_states w !! ns = Some r ∧ state r = Active) ∨
  ready (namespace_inputs ns d (registry e)) = true.
Proof.
  unfold process_namespace. destruct (terminating e); simpl; [by rewrite lookup_delete_eq|].
  set (i := namespace_inputs _ _ _). set (t := namespace_tuning _ _ _).
  pose proof (transition_refines (NamespaceCell cfg (replies e) ns) i t now w) as Ht. simpl in Ht.
  rewrite Ht. destruct (transition _ _ _ _ _).2; [|by eauto].
  unfold advance_record. destruct (relay_states w !! ns) as [r|]; [|by case_match; intros [= <-]].
  intros Hr Ha. assert (next_state (decide_relay now i t (observe now (signal i) t r)) = Active) as Hn.
  { destruct (action _); by simplify_eq/=. }
  apply decide_activates in Hn as [Hn|]; [left; by exists r|by right].
Qed.

(** ** A pass *)

Lemma process_all_frame env gw now l : ∀ w k, k ∉ l →
  relay_states (process_all cfg env gw now l w) !! k = relay_states w !! k ∧
  objects_in k (process_all cfg env gw now l w) = objects_in k w.
Proof.
  induction l as [|ns l IH]; simpl; intros w k Hk; [done|].
  apply not_elem_of_cons in Hk as [Hne Hk].
  pose proof (frame_process (env ns) ns (bool_decide (ns ∈ gw)) now w) as [F1 F2 _ _].
  destruct (IH (process_namespace cfg (env ns) ns (bool_decide (ns ∈ gw)) now w) k Hk) as [-> ->]. auto.
Qed.

Lemma process_all_published env gw now l : ∀ w,
  active_relays (process_all cfg env gw now l w) = active_relays w ∧
  provisioned_relays (process_all cfg env gw now l w) = provisioned_relays w.
Proof.
  induction l as [|ns l IH]; simpl; intros w; [done|].
  pose proof (frame_process (env ns) ns (bool_decide (ns ∈ gw)) now w) as [_ _ F3 F4].
  destruct (IH (process_namespace cfg (env ns) ns (bool_decide (ns ∈ gw)) now w)) as [-> ->]. auto.
Qed.

(** A pass processes a namespace once, from what it found. *)
Lemma process_all_once env gw now l ns w : NoDup l → ns ∈ l → ∃ w1,
  relay_states w1 !! ns = relay_states w !! ns ∧ objects_in ns w1 = objects_in ns w ∧
  let w2 := process_namespace cfg (env ns) ns (bool_decide (ns ∈ gw)) now w1 in
  relay_states (process_all cfg env gw now l w) !! ns = relay_states w2 !! ns ∧
  objects_in ns (process_all cfg env gw now l w) = objects_in ns w2.
Proof.
  intros Hnd (l1 & l2 & ->)%list_elem_of_split.
  apply NoDup_app in Hnd as (_ & H1 & [H2 _]%NoDup_cons).
  assert (ns ∉ l1) as H1' by (intros Hin; eapply H1; [done|left]).
  exists (process_all cfg env gw now l1 w). destruct (process_all_frame env gw now l1 w ns H1') as [? ?].
  split; [done|]. split; [done|].
  assert (process_all cfg env gw now (l1 ++ ns :: l2) w =
    process_all cfg env gw now l2 (process_namespace cfg (env ns) ns (bool_decide (ns ∈ gw)) now
      (process_all cfg env gw now l1 w))) as -> by (unfold process_all; by rewrite foldl_app).
  by apply process_all_frame.
Qed.

Lemma pass_namespaces_spec gw w ns : ns ∈ pass_namespaces gw w ↔ ns ∈ gw ∨ is_Some (relay_states w !! ns).
Proof. unfold pass_namespaces. rewrite elem_of_sort_by, elem_of_elements, elem_of_union, elem_of_dom. done. Qed.

Lemma pass_namespaces_NoDup gw w : NoDup (pass_namespaces gw w).
Proof. unfold pass_namespaces. rewrite sort_by_perm. apply NoDup_elements. Qed.

Lemma active_namespaces_spec m ns :
  ns ∈ active_namespaces m ↔ ∃ r, m !! ns = Some r ∧ state r = Active.
Proof.
  unfold active_namespaces. rewrite elem_of_dom. split.
  - intros [r [? ?]%map_lookup_filter_Some]. by exists r.
  - intros (r & ? & ?). exists r. by apply map_lookup_filter_Some.
Qed.

(** ** Reachable worlds *)

(** The Deployments the API server lists. *)
Definition list_deployments (w : World) : list Deployment :=
  omap (λ kv, n ← deployment kv.2; Some (mkDeployment (Some kv.1) (Some n))) (map_to_list (cluster w)).

(** One step: a pass, a rehydration, the shared pool's loop, or a change made by
    others to the objects of a namespace in [G]. *)
Inductive step (G : gset str) : World → World → Prop :=
| step_pass env gw now w :
    (∀ ns, whole_delete (replies (env ns))) → step G w (relay_pass cfg env gw now w)
| step_rehydrate w : step G w (rehydrate_provisioned_relays (Some (list_deployments w)) w)
| step_shared sp dep reg rs now w : step G w (converge_shared_pool cfg sp dep reg rs now w)
| step_rehydrate_shared get w : step G w (rehydrate_shared_relay get w)
| step_external ns o w : ns ∈ G → step G w (set_cluster (<[ns := o]> (cluster w)) w).

Definition initial (w : World) : Prop :=
  relay_states w = ∅ ∧ provisioned_relays w = ∅ ∧ active_relays w = ∅.

Inductive reachable (G : gset str) : World → Prop :=
| reach_initial w : initial w → reachable G w
| reach_step w w' : reachable G w → step G w w' → reachable G w'.

Record invariant (G : gset str) (w : World) : Prop := {
  inv_deployed ns : ns ∉ G → is_Some (relay_states w !! ns) → deployed ns w;
  inv_active : active_relays w = active_namespaces (relay_states w);
  inv_provisioned : provisioned_relays w = dom (relay_states w);
}.

Lemma records_lookup items ns r :
  records_from_relay_deployments items !! ns = Some r →
  ∃ d, d ∈ items ∧ dep_namespace d = Some ns ∧ state r = Active.
Proof.
  unfold records_from_relay_deployments. revert r.
  induction items as [|d items IH] using rev_ind; intros r; simpl; [by rewrite lookup_empty|].
  rewrite foldl_snoc. destruct (dep_namespace d) as [k|] eqn:Ed; cycle 1.
  { intros (d' & ? & ?)%IH. exists d'. split; [set_solver|done]. }
  destruct (decide (k = ns)) as [->|]; [rewrite lookup_insert_eq|rewrite lookup_insert_ne by done].
  - intros [= <-]. exists d. split; [set_solver|done].
  - intros (d' & ? & ?)%IH. exists d'. split; [set_solver|done].
Qed.

Lemma list_deployments_spec d w :
  d ∈ list_deployments w → ∃ ns, dep_namespace d = Some ns ∧ deployed ns w.
Proof.
  unfold list_deployments. intros ([ns o] & Hin & Hd)%list_elem_of_omap.
  apply elem_of_map_to_list in Hin. simpl in Hd. apply bind_Some in Hd as (n & Hn & [= <-]).
  exists ns. split; [done|]. unfold deployed, objects_in. rewrite Hin. by exists n.
Qed.

Lemma invariant_processed G env gw now l w :
  (∀ ns, whole_delete (replies (env ns))) → NoDup l → invariant G w →
  ∀ ns, ns ∉ G → is_Some (relay_states (process_all cfg env gw now l w) !! ns) →
  deployed ns (process_all cfg env gw now l w).
Proof.
  intros Hrs Hnd Hinv ns Hg. unfold deployed. destruct (decide (ns ∈ l)) as [Hin|Hin].
  - destruct (process_all_once env gw now l ns w Hnd Hin) as (w1 & Es & Eo & -> & ->).
    apply process_keeps; [done|]. unfold deployed. rewrite Es, Eo. by apply Hinv.
  - destruct (process_all_frame env gw now l w ns Hin) as [-> ->]. by apply Hinv.
Qed.

Lemma invariant_shared G w w' :
  relay_states w' = relay_states w → provisioned_relays w' = provisioned_relays w →
  active_relays w' = active_relays w → cluster w' = cluster w → invariant G w → invariant G w'.
Proof.
  intros E1 E2 E3 E4 [I1 I2 I3]. split; unfold deployed, objects_in in *; rewrite ?E1, ?E2, ?E3, ?E4; done.
Qed.

Lemma shared_transition rs i t now w :
  let w' := (transition (SharedCell cfg rs) i t now w).1 in
  relay_states w' = relay_states w ∧ provisioned_relays w' = provisioned_relays w ∧
  active_relays w' = active_relays w ∧ cluster w' = cluster w.
Proof.
  unfold transition, provision, act, commit; simpl. unfold on_shared. by repeat case_match; simplify_eq/=.
Qed.

Lemma invariant_step G w w' : step G w w' → invariant G w → invariant G w'.
Proof.
  intros [env gw now w0 Hrs|w0|sp dep reg rs now w0|get w0|ns o w0 Hg] Hinv.
  - split; [|done|done]. simpl. apply (invariant_processed G env gw now); [done|apply pass_namespaces_NoDup|done].
  - split; [|done|done]. simpl. intros ns _ [r Hr].
    apply records_lookup in Hr as (d & Hd & Hns & _).
    apply list_deployments_spec in Hd as (k & Hk & Hdep). by simplify_eq.
  - unfold converge_shared_pool.
    pose proof (shared_transition rs (shared_inputs sp dep reg) (shared_relay_tuning cfg) now w0) as Hs.
    destruct (transition _ _ _ _ _) as [w1 []]; destruct Hs as (?&?&?&?);
      by apply (invariant_shared G w0).
  - unfold rehydrate_shared_relay. destruct get; [by apply (invariant_shared G w0)|done].
  - destruct Hinv as [I1 I2 I3]. split; [|done|done]. intros k Hk Hr. specialize (I1 k Hk Hr).
    unfold deployed, objects_in in *; simpl. rewrite lookup_insert_ne; [done|]. by intros ->.
Qed.

Lemma reachable_invariant G w : reachable G w → invariant G w.
Proof.
  induction 1 as [w (E1 & E2 & E3)|w w' _ IH Hs]; [|by eapply invariant_step].
  split; rewrite ?E1, ?E2, ?E3; [intros ns _; rewrite lookup_empty; by intros []|done|by rewrite dom_empty_L].
Qed.

(** ** The guarantee *)

Lemma pass_deployed G env gw now w l l' ns :
  reachable G w → ns ∉ G → (∀ k, whole_delete (replies (env k))) → pass_namespaces gw w = l ++ l' →
  ns ∈ active_relays w → deployed ns (process_all cfg env gw now l w) ∧ ns ∈ provisioned_relays w.
Proof.
  intros Hreach Hg Hrs Hl Hact. apply reachable_invariant in Hreach as [I1 I2 I3].
  rewrite I2 in Hact. apply active_namespaces_spec in Hact as (r & Hr & Ha).
  split; [|by rewrite I3; apply elem_of_dom].
  assert (deployed ns w) as Hd by (apply I1; [done|by exists r]).
  pose proof (pass_namespaces_NoDup gw w) as Hnd. rewrite Hl in Hnd. apply NoDup_app in Hnd as (Hnd & _).
  unfold deployed. destruct (decide (ns ∈ l)) as [Hin|Hin].
  - destruct (process_all_once env gw now l ns w Hnd Hin) as (w1 & Es & Eo & _ & ->).
    eapply process_active_keeps; [by rewrite Es|done|]. unfold deployed. by rewrite Eo.
  - by destruct (process_all_frame env gw now l w ns Hin) as [_ ->].
Qed.



(** ** Progress *)

Lemma activate_not_deactivate now sig t r :
  should_activate sig t = true → should_deactivate now sig true t r = false.
Proof.
  unfold should_activate, should_deactivate. destruct (enabled_override t) as [[]|]; [|done|]; intros E.
  - by rewrite bool_decide_eq_false_2, bool_decide_eq_true_2.
  - rewrite !bool_decide_eq_false_2 by done. simpl. by rewrite E.
Qed.

Lemma namespace_inputs_demand ns d reg : demand_present (namespace_inputs ns d reg) = d.
Proof. unfold namespace_inputs. by destruct (registry_signal _ _) as [[? ?] ?]. Qed.

Lemma advance_activates t now i r :
  state r = Provisioning → should_activate (signal i) t = true → demand_present i = true → ready i = true →
  advance_record t now i (Some r) = Some (committed (observe now (signal i) t r) Active None).
Proof.
  intros Hs Ha Hd Hr. unfold advance_record, decide_relay, decide_provisioning; simpl.
  rewrite Hs, Hd, Hr. by rewrite activate_not_deactivate.
Qed.

Lemma process_quiet e ns d now w :
  terminating e = false → replies e = all_replied →
  let i := namespace_inputs ns d (registry e) in
  let t := namespace_tuning cfg ns (policies e) in
  relay_states (process_namespace cfg e ns d now w) !! ns =
    advance_record t now i (relay_states w !! ns).
Proof.
  intros Ht Hrs i t. unfold process_namespace. rewrite Ht, Hrs. fold i t.
  pose proof (transition_refines (NamespaceCell cfg all_replied ns) i t now w) as Hr. simpl in Hr.
  rewrite Hr. unfold transition, provision, act, on_namespace; simpl. by repeat case_match; simplify_eq/=.
Qed.

Lemma pass_quiet env gw now w ns :
  terminating (env ns) = false → replies (env ns) = all_replied →
  relay_states (relay_pass cfg env gw now w) !! ns =
  if decide (ns ∈ pass_namespaces gw w) then
    advance_record (namespace_tuning cfg ns (policies (env ns))) now
      (namespace_inputs ns (bool_decide (ns ∈ gw)) (registry (env ns))) (relay_states w !! ns)
  else None.
Proof.
  intros Ht Hrs. simpl. case_decide as Hin.
  - destruct (process_all_once env gw now _ ns w (pass_namespaces_NoDup gw w) Hin) as (w1 & Es & _ & -> & _).
    by rewrite process_quiet, Es.
  - destruct (process_all_frame env gw now _ w ns Hin) as [-> _].
    rewrite pass_namespaces_spec in Hin. destruct (relay_states w !! ns) eqn:E; [|done].
    exfalso. apply Hin. right. by eexists.
Qed.

(** A relay comes up: with demand above the threshold and an API server that answers,
    the first pass provisions it and the first later pass that finds it ready directs
    the namespace to it. *)
Theorem demanded_relay_comes_up env1 env2 gw1 gw2 now1 now2 w ns :
  let t k := namespace_tuning cfg ns (policies (k ns)) in
  let i k := namespace_inputs ns true (registry (k ns)) in
  relay_states w !! ns = None → ns ∈ gw1 → ns ∈ gw2 →
  (∀ k, k = env1 ∨ k = env2 → terminating (k ns) = false ∧ replies (k ns) = all_replied ∧
        should_activate (signal (i k)) (t k) = true) →
  ready (i env2) = true →
  ns ∈ provisioned_relays (relay_pass cfg env1 gw1 now1 w) ∧
  ns ∉ active_relays (relay_pass cfg env1 gw1 now1 w) ∧
  ns ∈ active_relays (relay_pass cfg env2 gw2 now2 (relay_pass cfg env1 gw1 now1 w)).
Proof.
  intros t i H0 Hg1 Hg2 Hk Hready.
  destruct (Hk env1) as (T1 & R1 & A1); [by left|]. destruct (Hk env2) as (T2 & R2 & A2); [by right|].
  pose proof (pass_quiet env1 gw1 now1 w ns T1 R1) as P1.
  rewrite decide_True in P1 by (apply pass_namespaces_spec; by left).
  rewrite bool_decide_eq_true_2, H0 in P1 by done. unfold advance_record in P1.
  unfold i, t in A1. unfold should_provision in P1. rewrite A1 in P1.
  set (w1 := relay_pass cfg env1 gw1 now1 w) in *.
  pose proof (pass_quiet env2 gw2 now2 w1 ns T2 R2) as P2.
  rewrite decide_True in P2 by (apply pass_namespaces_spec; by left).
  rewrite bool_decide_eq_true_2, P1 in P2 by done.
  split_and!.
  - unfold w1. simpl. apply elem_of_dom. by eexists.
  - unfold w1. simpl. rewrite active_namespaces_spec. intros (r & Hr & Ha). unfold w1 in P1. simpl in P1.
    rewrite P1 in Hr. by simplify_eq.
  - rewrite advance_activates in P2; [|done|done|by apply namespace_inputs_demand|done].
    simpl. apply active_namespaces_spec. eexists. split; [exact P2|done].
Qed.

(** ** A disabled tier *)

Lemma off_tuning ns ps : relay_enabled cfg = false → enabled_override (namespace_tuning cfg ns ps) = Some false.
Proof. unfold namespace_tuning. by intros ->. Qed.

Lemma off_advance t now i o :
  enabled_override t = Some false →
  advance_record t now i o =
  r ← o;
  match state r with
  | Provisioning => None
  | Active => Some (committed (observe now (signal i) t r) Draining None)
  | Draining => if subscribers i =? 0 then None
                else Some (committed (observe now (signal i) t r) Draining None)
  end.
Proof.
  intros E. destruct o as [r|]; simpl; [|unfold should_provision, should_activate; by rewrite E].
  unfold decide_relay, decide_provisioning, decide_active, decide_draining, should_deactivate, should_activate.
  simpl. rewrite E, bool_decide_eq_true_2, andb_false_r by done. simpl.
  destruct (state r); [done|done|]. by destruct (subscribers i =? 0).
Qed.

(** With the tier off, a namespace without a relay is left alone and one whose record
    goes has lost its Deployment. *)
Lemma off_process e ns d now w :
  relay_enabled cfg = false → terminating e = false → replies e = all_replied →
  let w' := process_namespace cfg e ns d now w in
  (relay_states w !! ns = None → objects_in ns w' = objects_in ns w) ∧
  (is_Some (relay_states w !! ns) → relay_states w' !! ns = None → ¬ deployed ns w').
Proof.
  intros Hoff Ht Hrs. unfold process_namespace. rewrite Ht, Hrs.
  pose proof (off_tuning ns (policies e) Hoff) as E. revert E. generalize (namespace_tuning cfg ns (policies e)).
  intros t E. unfold transition, provision, act, commit, should_provision, should_activate; simpl.
  destruct (relay_states w !! ns) as [r|] eqn:Er; simpl; [split; [done|]|by rewrite E; split; [done|intros []]].
  intros _. destruct (action _) eqn:Ea; simpl; rewrite ?lookup_insert_eq; try done.
  unfold on_namespace; simpl. intros _ [n Hn]. unfold objects_in in Hn; simpl in Hn.
  by rewrite lookup_insert_eq in Hn.
Qed.

Lemma off_pass env gw now w ns :
  relay_enabled cfg = false → terminating (env ns) = false → replies (env ns) = all_replied →
  let w' := relay_pass cfg env gw now w in
  (relay_states w !! ns = None → objects_in ns w' = objects_in ns w) ∧
  (is_Some (relay_states w !! ns) → relay_states w' !! ns = None → ¬ deployed ns w').
Proof.
  intros Hoff Ht Hrs w'. unfold deployed.
  change (objects_in ns w') with (objects_in ns (process_all cfg env gw now (pass_namespaces gw w) w)).
  change (relay_states w') with (relay_states (process_all cfg env gw now (pass_namespaces gw w) w)).
  destruct (decide (ns ∈ pass_namespaces gw w)) as [Hin|Hin].
  - destruct (process_all_once env gw now _ ns w (pass_namespaces_NoDup gw w) Hin) as (w1 & Es & Eo & -> & ->).
    rewrite <-Es, <-Eo. by apply off_process.
  - destruct (process_all_frame env gw now _ w ns Hin) as [-> ->]. split; [done|]. by intros [? ->].
Qed.

(** Turning the tier off reclaims it: from any world, two passes with an API server
    that answers and no subscriber left at the second leave no record, no published
    namespace, and no Deployment of a relay that was tracked. *)
Theorem disabled_tier_reclaimed env1 env2 gw1 gw2 now1 now2 w :
  relay_enabled cfg = false →
  (∀ k ns, k = env1 ∨ k = env2 → terminating (k ns) = false ∧ replies (k ns) = all_replied) →
  (∀ ns d, subscribers (namespace_inputs ns d (registry (env2 ns))) = 0) →
  let w2 := relay_pass cfg env2 gw2 now2 (relay_pass cfg env1 gw1 now1 w) in
  relay_states w2 = ∅ ∧ provisioned_relays w2 = ∅ ∧ active_relays w2 = ∅ ∧
  ∀ ns, is_Some (relay_states w !! ns) → ¬ deployed ns w2.
Proof.
  intros Hoff Hk Hsub. set (w1 := relay_pass cfg env1 gw1 now1 w). intros w2.
  assert (∀ ns r, relay_states w1 !! ns = Some r → state r = Draining) as Hd1.
  { intros ns r. destruct (Hk env1 ns) as [T R]; [by left|]. unfold w1.
    rewrite pass_quiet, off_advance by (done || by apply off_tuning). case_decide; [|done].
    destruct (relay_states w !! ns) as [r0|]; simpl; [|done]. repeat case_match; by intros [= <-]. }
  assert (∀ ns, relay_states w2 !! ns = None) as Hnone.
  { intros ns. destruct (Hk env2 ns) as [T R]; [by right|]. unfold w2.
    rewrite pass_quiet, off_advance by (done || by apply off_tuning). case_decide; [|done].
    destruct (relay_states w1 !! ns) as [r|] eqn:Er; simpl; [|done].
    by rewrite (Hd1 _ _ Er), Hsub. }
  assert (relay_states w2 = ∅) as He by by apply map_empty.
  assert (provisioned_relays w2 = dom (relay_states w2) ∧ active_relays w2 = active_namespaces (relay_states w2))
    as [-> ->] by done.
  rewrite He.
  split_and!; [done|by rewrite dom_empty_L|done|]. intros ns Hw.
  destruct (Hk env1 ns) as [T1 R1]; [by left|]. destruct (Hk env2 ns) as [T2 R2]; [by right|].
  destruct (off_pass env1 gw1 now1 w ns Hoff T1 R1) as [_ G1].
  destruct (off_pass env2 gw2 now2 w1 ns Hoff T2 R2) as [N2 G2].
  destruct (relay_states w1 !! ns) as [r|] eqn:Er.
  - apply G2; [by eexists|apply Hnone].
  - unfold deployed. unfold w2. rewrite N2 by done. by apply G1.
Qed.

(** ** Where the loop falls short *)

(** A relay's Deployment is the first object a teardown deletes.  When a later delete
    fails the record stays, draining; if demand returns while the dying relay still
    reports ready, the namespace is directed to a relay without a Deployment. *)
Theorem half_delete_strands_namespace ns r i1 i2 t now1 now2 w :
  let fails := λ e, if decide (e = ErrService) then Failed else Replied in
  let w1 := (transition (NamespaceCell cfg fails ns) i1 t now1 w).1 in
  let w2 := (transition (NamespaceCell cfg all_replied ns) i2 t now2 w1).1 in
  relay_states w !! ns = Some r → state r = Draining →
  demand_present i1 = false → subscribers i1 = 0 →
  demand_present i2 = true → should_activate (signal i2) t = true → ready i2 = true →
  ns ∈ active_relays (publish_relay_sets w2) ∧ ¬ deployed ns (publish_relay_sets w2).
Proof.
  intros fails w1 w2 Hr Hs Hd1 Hs1 Hd2 Ha Hready.
  assert (w1 = (on_namespace ns (delete_relay_resources fails) w).1) as Hw1.
  { unfold w1, transition, act; simpl. rewrite Hr. unfold decide_relay, decide_draining; simpl.
    by rewrite Hs, Hd1, Hs1. }
  assert (relay_states w1 !! ns = Some r) as Hr1 by by rewrite Hw1.
  assert (w2 = set_states (<[ns := committed (observe now2 (signal i2) t r) Active None]> (relay_states w1)) w1) as ->.
  { unfold w2, transition, act; simpl. rewrite Hr1. unfold decide_relay, decide_draining; simpl.
    by rewrite Hs, Hd2, Ha, Hready. }
  split.
  - simpl. apply active_namespaces_spec. eexists. by rewrite lookup_insert_eq.
  - rewrite Hw1. intros [n Hn]. unfold objects_in in Hn; simpl in Hn. by rewrite lookup_insert_eq in Hn.
Qed.

Lemma records_active items d ns :
  d ∈ items → dep_namespace d = Some ns →
  ∃ r, records_from_relay_deployments items !! ns = Some r ∧ state r = Active.
Proof.
  unfold records_from_relay_deployments.
  induction items as [|d' items IH] using rev_ind; [by intros ?%elem_of_nil|]. rewrite foldl_snoc.
  intros Hin Hd. destruct (dep_namespace d') as [k|] eqn:Ek.
  - destruct (decide (k = ns)) as [->|]; [rewrite lookup_insert_eq; by eexists|rewrite lookup_insert_ne by done].
    apply elem_of_app in Hin as [?|Hin]; [by apply IH|]. apply list_elem_of_singleton in Hin. congruence.
  - apply elem_of_app in Hin as [?|Hin]; [by apply IH|]. apply list_elem_of_singleton in Hin. congruence.
Qed.

Lemma rehydrated_active ns w :
  deployed ns w → ns ∈ active_relays (rehydrate_provisioned_relays (Some (list_deployments w)) w).
Proof.
  intros [n Hn]. simpl. apply active_namespaces_spec.
  apply (records_active _ (mkDeployment (Some ns) (Some n))); [|done].
  unfold list_deployments. apply list_elem_of_omap. unfold objects_in in Hn.
  destruct (cluster w !! ns) as [o|] eqn:E; [|done]. exists (ns, o).
  split; [by apply elem_of_map_to_list|]. simpl in *. by rewrite Hn.
Qed.

(** Rehydration directs a namespace to its relay whatever the relay's state was: one
    that never became ready, or that is being drained, is directed to at once. *)
Theorem rehydrate_repoints_unready G w ns :
  reachable G w → ns ∉ G → is_Some (relay_states w !! ns) → ns ∉ active_relays w →
  ns ∈ active_relays (rehydrate_provisioned_relays (Some (list_deployments w)) w).
Proof. intros Hreach Hg Hr _. by apply rehydrated_active, (inv_deployed G); [apply reachable_invariant|..]. Qed.
End loop.

(** ** Witnesses *)

Module LoopDemo.
#[export] Existing Instance list_order.

Definition a : str := lit "a".
Definition cfg : RelayConfig := mkRelayConfig true 1 1 10 10 0 0 (f64_from 0) true.
Definition off : RelayConfig := mkRelayConfig false 1 1 10 10 0 0 (f64_from 0) true.

(** A proxy of the namespace, and its relay in sync. *)
Definition leaf : NodeEntry :=
  mkNodeEntry (lit "p") (GatewayScope a (lit "g")) None None None 0 None None None false None.
Definition relay : NodeEntry :=
  mkNodeEntry (lit "r") (NamespaceScope a) (Some (lit "v")) (Some (lit "v")) None 0 None None None true None.
Definition rows : NodeRegistry := {[ lit "p" := leaf; lit "r" := relay ]}.

Definition env : str → Env := λ _, mkEnv false [] (Some rows) all_replied.
Definition bare : str → Env := λ _, mkEnv false [] None all_replied.
Definition world0 : World :=
  mkWorld ∅ ∅ ∅ 0 None false {[ a := mkObjects (Some 1) true true false true ]} no_objects.
Definition world1 : World := rehydrate_provisioned_relays (Some (list_deployments world0)) world0.

Lemma world1_reachable : reachable cfg ∅ world1.
Proof. apply (reach_step _ _ world0); [by apply reach_initial|apply step_rehydrate]. Qed.

Lemma world1_active : a ∈ active_relays world1.
Proof. apply rehydrated_active. exists 1. vm_compute. reflexivity. Qed.

Lemma inputs_a : namespace_inputs a true (Some rows) = mkInputs 1 true 0 true.
Proof. vm_compute. reflexivity. Qed.

(** Provisioned by a pass that saw the proxy. *)
Definition empty_world : World := mkWorld ∅ ∅ ∅ 0 None false ∅ no_objects.
Definition world2 : World := relay_pass cfg env {[a]} 0 empty_world.

Lemma env_whole k : whole_delete (replies (env k)).
Proof. by right. Qed.

Lemma world2_reachable : reachable cfg ∅ world2.
Proof. apply (reach_step _ _ empty_world); [by apply reach_initial|apply step_pass, env_whole]. Qed.

Lemma world2_record :
  relay_states world2 !! a = Some (observe 0 1 (namespace_tuning cfg a []) (existing Provisioning 1)).
Proof.
  unfold world2. rewrite pass_quiet by done. rewrite decide_True by (apply pass_namespaces_spec; left; set_solver).
  rewrite bool_decide_eq_true_2 by set_solver. change (registry (env a)) with (Some rows). by rewrite inputs_a.
Qed.

Lemma world2_inactive : a ∉ active_relays world2.
Proof. unfold world2. simpl. rewrite active_namespaces_spec. intros (r & Hr & Ha). pose proof world2_record as E.
  unfold world2 in E. simpl in E. rewrite E in Hr. apply Some_inj in Hr. rewrite <-Hr in Ha.
  change (Provisioning = Active) in Ha. discriminate Ha. Qed.
End LoopDemo.
Import LoopDemo.



Lemma demanded_relay_comes_up_witness :
  a ∈ provisioned_relays world2 ∧ a ∉ active_relays world2 ∧
  a ∈ active_relays (relay_pass cfg env {[a]} 5 world2).
Proof.
  apply (demanded_relay_comes_up cfg env env {[a]} {[a]} 0 5 empty_world a).
  - reflexivity.
  - set_solver.
  - set_solver.
  - intros k Hk. assert (k = env) as -> by (by destruct Hk). split; [done|]. split; [done|].
    change (registry (env a)) with (Some rows). rewrite inputs_a. reflexivity.
  - change (registry (env a)) with (Some rows). rewrite inputs_a. reflexivity.
Defined.

Lemma disabled_tier_reclaimed_witness :
  let w2 := relay_pass off bare {[a]} 6 (relay_pass off bare {[a]} 5 world1) in
  relay_states w2 = ∅ ∧ ¬ deployed a w2.
Proof.
  destruct (disabled_tier_reclaimed off bare bare {[a]} {[a]} 5 6 world1) as (E & _ & _ & Hd).
  - reflexivity.
  - intros k ns Hk. assert (k = bare) as -> by (by destruct Hk). done.
  - reflexivity.
  - split; [exact E|]. apply Hd. pose proof world1_active as Ha. unfold world1 in Ha. simpl in Ha.
    apply active_namespaces_spec in Ha as (r & Hr & _). exists r. exact Hr.
Defined.

Lemma half_delete_strands_namespace_witness :
  ∃ w, a ∈ active_relays (publish_relay_sets w) ∧ ¬ deployed a (publish_relay_sets w).
Proof.
  eexists.
  apply (half_delete_strands_namespace cfg a (existing Draining 1) (mkInputs 0 true 0 false)
           (mkInputs 1 true 0 true) (namespace_tuning cfg a []) 5 6
           (set_states {[ a := existing Draining 1 ]} world0)); try reflexivity.
Defined.

Lemma rehydrate_repoints_unready_witness :
  a ∈ active_relays (rehydrate_provisioned_relays (Some (list_deployments world2)) world2).
Proof.
  apply (rehydrate_repoints_unready cfg ∅ world2 a); [exact world2_reachable|set_solver| |exact world2_inactive].
  rewrite world2_record. by eexists.
Defined.
