(* ===== verification/AccessControl.v ===== *)
(** * Source-address access control

    Models [crates/coxswain-proxy/src/policy/access_control.rs]: the effective address
    of a client behind trusted proxies and the lists it is checked against, in the order
    of [request_filter] in [hooks.rs].  The address parser of [std::net] is written out;
    the crate [ipnet] is a class. *)

From S2P Require Import Prelude Net External Config Filters Entry.

(** ** The crate ipnet *)

Class IpnetLib := {
  net_parse : str → option IpNet;
  net_contains : IpNet → IpAddr → bool;
}.

(** ** std::net parsing *)

(** [char::to_digit] *)
Definition to_digit (radix : Z) (c : ascii) : option Z :=
  let n := Z.of_N (N_of_ascii c) in
  let d := if (48 <=? n)%Z && (n <=? 57)%Z then (n - 48)%Z
           else if (97 <=? n)%Z && (n <=? 122)%Z then (n - 87)%Z
           else if (65 <=? n)%Z && (n <=? 90)%Z then (n - 55)%Z
           else radix in
  if (d <? radix)%Z then Some d else None.

(** The digits that follow: value and count, or [None] when the value leaves [max] or
    more than [digits] are read.  The parser returns the text that is left. *)
Fixpoint read_digits (radix max : Z) (digits : nat) (acc : Z) (count : nat) (s : str) :
    option (Z * nat * str) :=
  match s with
  | [] => Some (acc, count, [])
  | c :: s' =>
      match to_digit radix c with
      | None => Some (acc, count, s)
      | Some d =>
          if (max <? acc * radix)%Z || (max <? acc * radix + d)%Z then None
          else if Nat.ltb digits (S count) then None
          else read_digits radix max digits (acc * radix + d) (S count) s'
      end
  end.

(** [Parser::read_number] *)
Definition read_number (radix max : Z) (digits : nat) (zero_prefix : bool) (s : str) : option (Z * str) :=
  let leading_zero := match s with c :: _ => c =c "0"%char | [] => false end in
  match read_digits radix max digits 0 0 s with
  | None => None
  | Some (n, count, rest) =>
      if Nat.eqb count 0 then None
      else if negb zero_prefix && leading_zero && Nat.ltb 1 count then None
      else Some (n, rest)
  end.

Definition read_given_char (c : ascii) (s : str) : option str :=
  match s with
  | d :: s' => if d =c c then Some s' else None
  | [] => None
  end.

(** [Parser::read_separator] *)
Definition read_separator {A} (sep : ascii) (index : nat) (inner : str → option (A * str)) (s : str) :
    option (A * str) :=
  match index with
  | 0%nat => inner s
  | _ => s' ← read_given_char sep s; inner s'
  end.

Fixpoint read_octets (n index : nat) (acc : Z) (s : str) : option (Z * str) :=
  match n with
  | 0%nat => Some (acc, s)
  | S n' =>
      match read_separator "."%char index (read_number 10 255 3 false) s with
      | None => None
      | Some (o, s') => read_octets n' (S index) (acc * 256 + o) s'
      end
  end.

Definition read_ipv4_addr (s : str) : option (Z * str) := read_octets 4 0 0 s.

(** The loop of [read_groups] over the remaining slots: the groups read, whether they
    end in a dotted address, and the text left. *)
Fixpoint read_groups (slots index : nat) (s : str) : list Z * bool * str :=
  match slots with
  | 0%nat => ([], false, s)
  | S slots' =>
      let v4 := if Nat.eqb slots' 0 then None else read_separator ":"%char index read_ipv4_addr s in
      match v4 with
      | Some (z, s') => ([Z.shiftr z 16; Z.land z 65535], true, s')
      | None =>
          match read_separator ":"%char index (read_number 16 65535 4 true) s with
          | None => ([], false, s)
          | Some (g, s') => let '(gs, b, s'') := read_groups slots' (S index) s' in (g :: gs, b, s'')
          end
      end
  end.

Definition of_groups (gs : list Z) : Z := foldl (λ acc g, acc * 65536 + g)%Z 0%Z gs.

(** [Parser::read_ipv6_addr] *)
Definition read_ipv6_addr (s : str) : option (Z * str) :=
  let '(head, head_ipv4, s1) := read_groups 8 0 s in
  if Nat.eqb (length head) 8 then Some (of_groups head, s1)
  else if head_ipv4 then None
  else
    s2 ← read_given_char ":"%char s1;
    s3 ← read_given_char ":"%char s2;
    let '(tail, _, s4) := read_groups (7 - length head) 0 s3 in
    Some (of_groups (head ++ repeat 0%Z (8 - length head - length tail) ++ tail), s4).

(** [IpAddr::from_str] *)
Definition parse_ip (s : str) : option IpAddr :=
  let parsed := match read_ipv4_addr s with
                | Some (z, rest) => Some (V4 z, rest)
                | None => match read_ipv6_addr s with
                          | Some (z, rest) => Some (V6 z, rest)
                          | None => None
                          end
                end in
  match parsed with
  | Some (ip, []) => Some ip
  | _ => None
  end.

(** [IpAddr::to_canonical] *)
Definition to_canonical (ip : IpAddr) : IpAddr :=
  match ip with
  | V6 z => if (Z.shiftr z 32 =? 65535)%Z then V4 (Z.land z 4294967295) else ip
  | V4 _ => ip
  end.

(** [str::trim] on the text of a header, which is ASCII. *)
Definition is_whitespace (c : ascii) : bool :=
  let n := N_of_ascii c in (n =? 32)%N || ((9 <=? n)%N && (n <=? 13)%N).
Definition trim (s : str) : str :=
  reverse (trim_start_by is_whitespace (reverse (trim_start_by is_whitespace s))).

(** ** Access control *)

Section policy.
Context `{IpnetLib, HttpLib}.

(** The ranges of [PRIVATE_NETS]; [None] is the panic of an entry that does not parse. *)
Definition PRIVATE_NETS : option (list IpNet) :=
  mapM net_parse
    [lit "10.0.0.0/8"; lit "172.16.0.0/12"; lit "192.168.0.0/16"; lit "127.0.0.0/8";
     lit "169.254.0.0/16"; lit "::1/128"; lit "fe80::/10"; lit "fc00::/7"; lit "::/128"].

Definition in_nets (nets : list IpNet) (ip : IpAddr) : bool := existsb (λ n, net_contains n ip) nets.

(** The address a hop's token stands for, if it is one to report. *)
Definition untrusted_token (private trusted : list IpNet) (t : str) : option IpAddr :=
  match trim t with
  | [] => None
  | t => ip ← parse_ip t;
         let ip := to_canonical ip in
         if negb (in_nets trusted ip) && negb (in_nets private ip) then Some ip else None
  end.

(** [rsplit], then the first token that survives. *)
Definition rightmost_untrusted_ip (private : list IpNet) (header_value : str) (trusted : list IpNet) :
    option IpAddr :=
  head (omap (untrusted_token private trusted) (reverse (split_char ","%char header_value))).

(** The request as the policy sees it: the address from the PROXY header, the peer of
    the connection, and the header lines, whose names are in lower case. *)
Record Session := mkSession {
  real_client_addr : option IpAddr;
  client_addr : option IpAddr;
  header_lines : list (str * str);
}.

(** [HeaderMap::get]: the first line of that name. *)
Definition header_get (name : str) (s : Session) : option str := head (get_all name (header_lines s)).

Definition l4_ip (s : Session) : option IpAddr :=
  match real_client_addr s with Some a => Some a | None => client_addr s end.

Definition l4_trusted (cfg : ForwardedForConfig) (s : Session) : bool :=
  match l4_ip s with Some ip => in_nets (ff_trusted_cidrs cfg) ip | None => false end.

Definition resolve_client_ip (private : list IpNet) (s : Session) (fwd : option ForwardedForConfig) :
    option IpAddr :=
  match fwd with
  | None => l4_ip s
  | Some cfg =>
      if negb (l4_trusted cfg s) then l4_ip s
      else
        let header_ip :=
          v ← header_get (ff_header cfg) s;
          hv ← header_value_to_str v;
          rightmost_untrusted_ip private hv (ff_trusted_cidrs cfg) in
        match header_ip with Some ip => Some ip | None => l4_ip s end
  end.

Definition ip_allowed (client_ip : option IpAddr) (nets : list IpNet) : bool :=
  match client_ip with Some ip => in_nets nets (to_canonical ip) | None => false end.

Definition ip_denied (client_ip : option IpAddr) (nets : list IpNet) : bool :=
  match client_ip with Some ip => in_nets nets (to_canonical ip) | None => false end.

(** [true]: a 403 was written. *)
Definition enforce_ip_access (deny allow : option (list IpNet)) (client_ip : option IpAddr) : bool :=
  match deny with Some nets => ip_denied client_ip nets | None => false end ||
  match allow with Some nets => negb (ip_allowed client_ip nets) | None => false end.

(** The two steps of [request_filter]. *)
Definition source_guard (private : list IpNet) (fwd : option ForwardedForConfig)
    (deny allow : option (list IpNet)) (s : Session) : bool :=
  enforce_ip_access deny allow (resolve_client_ip private s fwd).

End policy.
