(* ===== verification/AccessControlFacts.v ===== *)
(** * Facts of source-address access control

    Which part of a forwarded header decides the client's address, and that every
    address compared with a list is a well-formed one. *)

From S2P Require Import Prelude Net External Config Filters Entry AccessControl.

Open Scope Z_scope.

(** ** Well-formed addresses *)

Definition ip_wf (ip : IpAddr) : Prop :=
  match ip with V4 z => 0 ≤ z < 2 ^ 32 | V6 z => 0 ≤ z < 2 ^ 128 end.

Lemma to_digit_range radix c d : to_digit radix c = Some d → 0 ≤ d < radix.
Proof.
  unfold to_digit. pose proof (N2Z.is_nonneg (N_of_ascii c)).
  repeat case_match; intros [= <-]; repeat case_zb; lia.
Qed.

Lemma read_digits_range radix max digits s : ∀ acc count n k rest,
  0 < radix → 0 ≤ acc ≤ max → read_digits radix max digits acc count s = Some (n, k, rest) → 0 ≤ n ≤ max.
Proof.
  induction s as [|c s IH]; simpl; intros acc count n k rest Hr Ha; [by intros [= <- _ _]|].
  destruct (to_digit radix c) as [d|] eqn:Ed; [|by intros [= <- _ _]].
  apply to_digit_range in Ed. destruct (_ || _) eqn:Em; [done|]. case_match; [done|].
  apply orb_false_iff in Em as [_ ?%Z.ltb_ge]. apply IH; [done|nia].
Qed.

Lemma read_number_range radix max digits zp s n rest :
  0 < radix → 0 ≤ max → read_number radix max digits zp s = Some (n, rest) → 0 ≤ n ≤ max.
Proof.
  intros Hr Hm. unfold read_number. destruct (read_digits _ _ _ _ _ _) as [[[v k] r]|] eqn:E; [|done].
  repeat case_match; intros [= <- _]; by eapply read_digits_range in E.
Qed.

Lemma read_separator_Some {A} sep i (inner : str → option (A * str)) s x rest :
  read_separator sep i inner s = Some (x, rest) → ∃ s', inner s' = Some (x, rest).
Proof. destruct i; simpl; [by exists s|]. intros (s' & _ & ?)%bind_Some. by exists s'. Qed.

Lemma read_octets_range n : ∀ i acc s z rest k,
  0 ≤ acc < 256 ^ Z.of_nat k → read_octets n i acc s = Some (z, rest) → 0 ≤ z < 256 ^ Z.of_nat (n + k).
Proof.
  induction n as [|n IH]; simpl; intros i acc s z rest k Ha; [by intros [= <- _]|].
  destruct (read_separator _ _ _ _) as [[o s']|] eqn:E; [|done].
  apply read_separator_Some in E as (s'' & E). apply read_number_range in E; [|lia..].
  intros Ho%(IH _ _ _ _ _ (S k)); [by replace (S (n + k)) with (n + S k)%nat by lia|].
  rewrite Nat2Z.inj_succ, Z.pow_succ_r by lia. lia.
Qed.

Lemma read_ipv4_range s z rest : read_ipv4_addr s = Some (z, rest) → 0 ≤ z < 2 ^ 32.
Proof. intros E. apply (read_octets_range 4 0 0 s z rest 0) in E; [exact E|simpl; lia]. Qed.

Definition group_ok (g : Z) : Prop := 0 ≤ g < 65536.

Lemma read_groups_ok slots : ∀ i s gs b rest,
  read_groups slots i s = (gs, b, rest) → Forall group_ok gs ∧ (length gs ≤ slots)%nat.
Proof.
  induction slots as [|slots IH]; simpl; intros i s gs b rest; [by intros [= <- _ _]|].
  destruct (if Nat.eqb slots 0 then None else _) as [[z s']|] eqn:Ev.
  - destruct slots; [done|]. simpl in Ev. apply read_separator_Some in Ev as (s'' & Ev).
    apply read_ipv4_range in Ev. intros [= <- _ _]. split; [|simpl; lia].
    change 65535 with (Z.ones 16). rewrite Z.shiftr_div_pow2, Z.land_ones by lia. unfold group_ok.
    repeat constructor; try apply Z.mod_pos_bound; try apply Z.div_pos; try apply Z.div_lt_upper_bound; lia.
  - destruct (read_separator _ _ (read_number _ _ _ _) _) as [[g s']|] eqn:Eg; [|by intros [= <- _ _]; split; [|simpl; lia]].
    apply read_separator_Some in Eg as (s'' & Eg). apply read_number_range in Eg; [|lia..].
    destruct (read_groups slots (S i) s') as [[gs' b'] s3] eqn:Er. intros [= <- _ _].
    apply IH in Er as [? ?]. split; [constructor; [unfold group_ok; lia|done]|simpl; lia].
Qed.

Lemma of_groups_range gs : Forall group_ok gs → 0 ≤ of_groups gs < 65536 ^ Z.of_nat (length gs).
Proof.
  induction gs as [|g gs IH] using rev_ind; [done|]. intros [Hgs [Hg _]%Forall_cons]%Forall_app.
  unfold of_groups in *. rewrite foldl_snoc, length_app. simpl.
  rewrite Nat2Z.inj_add, Z.pow_add_r by lia. simpl Z.of_nat. change (65536 ^ 1) with 65536.
  specialize (IH Hgs). unfold group_ok in Hg. nia.
Qed.

Lemma read_ipv6_range s z rest : read_ipv6_addr s = Some (z, rest) → 0 ≤ z < 2 ^ 128.
Proof.
  unfold read_ipv6_addr. destruct (read_groups 8 0 s) as [[hd hb] s1] eqn:Eh.
  apply read_groups_ok in Eh as [Hh Hl]. destruct (Nat.eqb_spec (length hd) 8) as [E8|N8].
  { intros [= <- _]. apply of_groups_range in Hh. by rewrite E8 in Hh. }
  destruct hb; [done|]. intros (s2 & _ & (s3 & _ & Ht)%bind_Some)%bind_Some.
  destruct (read_groups (7 - length hd) 0 s3) as [[tl tb] s4] eqn:Et. injection Ht as <- _.
  apply read_groups_ok in Et as [Htl Htn].
  assert (Forall group_ok (hd ++ repeat 0 (8 - length hd - length tl) ++ tl)) as Hall.
  { rewrite !Forall_app. split_and!; [done| |done]. apply Forall_forall. intros x Hx.
    apply list_elem_of_In, repeat_spec in Hx as ->. unfold group_ok. lia. }
  apply of_groups_range in Hall. rewrite !length_app, repeat_length in Hall.
  by replace (length hd + (8 - length hd - length tl + length tl))%nat with 8%nat in Hall by lia.
Qed.

Lemma parse_ip_wf s ip : parse_ip s = Some ip → ip_wf ip.
Proof.
  unfold parse_ip. destruct (read_ipv4_addr s) as [[z rest]|] eqn:E4.
  { destruct rest; [|done]. intros [= <-]. by apply read_ipv4_range in E4. }
  destruct (read_ipv6_addr s) as [[z rest]|] eqn:E6; [|done].
  destruct rest; [|done]. intros [= <-]. by apply read_ipv6_range in E6.
Qed.

Lemma to_canonical_wf ip : ip_wf ip → ip_wf (to_canonical ip).
Proof.
  destruct ip as [z|z]; [exact id|]. intros Hz. unfold to_canonical. case_match; [|exact Hz].
  unfold ip_wf. change 4294967295 with (Z.ones 32). rewrite Z.land_ones by lia.
  apply Z.mod_pos_bound. lia.
Qed.

Lemma to_canonical_idem ip : to_canonical (to_canonical ip) = to_canonical ip.
Proof. destruct ip as [z|z]; [reflexivity|]. unfold to_canonical. destruct (Z.shiftr z 32 =? 65535) eqn:E; [reflexivity|]. by rewrite E. Qed.

(** ** Forwarded headers *)

Lemma split_char_nonempty c s : split_char c s ≠ [].
Proof. destruct s; simpl; [done|]. repeat case_match; done. Qed.

Lemma split_char_single c s : c ∉ s → split_char c s = [s].
Proof.
  induction s as [|d s IH]; simpl; [done|]. intros [Hne Hs]%not_elem_of_cons. rewrite IH by done.
  case_eqc; congruence.
Qed.

Lemma split_char_app c a b : split_char c (a ++ c :: b) = split_char c a ++ split_char c b.
Proof.
  induction a as [|d a IH]; simpl; [by case_eqc|]. case_eqc; simpl; [by rewrite IH|].
  rewrite IH. pose proof (split_char_nonempty c a). by destruct (split_char c a).
Qed.

Section facts.
Context `{IpnetLib, HttpLib} (private : list IpNet).

Lemma rightmost_app trusted a b :
  rightmost_untrusted_ip private (a ++ lit "," ++ b) trusted =
  match rightmost_untrusted_ip private b trusted with
  | Some ip => Some ip
  | None => rightmost_untrusted_ip private a trusted
  end.
Proof.
  unfold rightmost_untrusted_ip. change (a ++ lit "," ++ b) with (a ++ ","%char :: b).
  rewrite split_char_app, reverse_app, omap_app. by destruct (omap _ (reverse (split_char _ b))).
Qed.

Lemma rightmost_attested trusted b t ip :
  t ∈ split_char ","%char b → untrusted_token private trusted t = Some ip →
  is_Some (rightmost_untrusted_ip private b trusted).
Proof.
  intros Ht Hip. unfold rightmost_untrusted_ip.
  assert (ip ∈ omap (untrusted_token private trusted) (reverse (split_char ","%char b))) as Hin.
  { apply list_elem_of_omap. exists t. by rewrite elem_of_reverse. }
  destruct (omap _ _); [by apply elem_of_nil in Hin|]. by eexists.
Qed.

(** The text of the forwarded header of a request. *)
Definition forwarded (cfg : ForwardedForConfig) (s : Session) : option str :=
  header_get (ff_header cfg) s ≫= header_value_to_str.

Lemma resolve_forwarded cfg s :
  resolve_client_ip private s (Some cfg) =
  if l4_trusted cfg s then
    match hv ← forwarded cfg s; rightmost_untrusted_ip private hv (ff_trusted_cidrs cfg) with
    | Some ip => Some ip
    | None => l4_ip s
    end
  else l4_ip s.
Proof.
  unfold resolve_client_ip, forwarded. destruct (l4_trusted cfg s); [|done]. simpl.
  by destruct (header_get _ s).
Qed.

(** C18: A client cannot forge its address.  Two requests over the same connection whose
    forwarded headers end in the same hops, as its proxies appended them, are judged
    alike whatever the client wrote before them, as long as the peer is not trusted or
    one of the hops names a public address outside the trusted ranges. *)
Theorem client_ip_unforgeable cfg deny allow s s' forged forged' hops :
  real_client_addr s = real_client_addr s' → client_addr s = client_addr s' →
  forwarded cfg s = Some (forged ++ lit "," ++ hops) →
  forwarded cfg s' = Some (forged' ++ lit "," ++ hops) →
  l4_trusted cfg s = false ∨
    (∃ t ip, t ∈ split_char ","%char hops ∧ untrusted_token private (ff_trusted_cidrs cfg) t = Some ip) →
  resolve_client_ip private s (Some cfg) = resolve_client_ip private s' (Some cfg) ∧
  source_guard private (Some cfg) deny allow s = source_guard private (Some cfg) deny allow s'.
Proof.
  intros E1 E2 F1 F2 Hc.
  assert (l4_ip s = l4_ip s') as El by (unfold l4_ip; by rewrite E1, E2).
  assert (l4_trusted cfg s = l4_trusted cfg s') as Et by (unfold l4_trusted; by rewrite El).
  assert (resolve_client_ip private s (Some cfg) = resolve_client_ip private s' (Some cfg)) as Hr;
    [|split; [done|unfold source_guard; by rewrite Hr]].
  rewrite !resolve_forwarded, <-Et, El, F1, F2. destruct Hc as [-> |(t & ip & Ht & Hip)]; [done|].
  destruct (l4_trusted cfg s); [|done]. cbn [mbind option_bind]. rewrite !rightmost_app.
  by destruct (rightmost_attested _ _ _ _ Ht Hip) as [x ->].
Qed.


(** The scan passes over a hop that is not a bare address, so a trusted proxy that
    appends the client's address with its port leaves the choice to the client. *)
Theorem hop_with_port_forgeable cfg s forged hop ip :
  l4_trusted cfg s = true → forwarded cfg s = Some (forged ++ lit "," ++ hop) →
  ","%char ∉ hop → parse_ip (trim hop) = None →
  rightmost_untrusted_ip private forged (ff_trusted_cidrs cfg) = Some ip →
  resolve_client_ip private s (Some cfg) = Some ip.
Proof.
  intros Ht Hf Hc Hp Hip. rewrite resolve_forwarded, Ht, Hf. cbn [mbind option_bind]. rewrite rightmost_app.
  assert (rightmost_untrusted_ip private hop (ff_trusted_cidrs cfg) = None) as ->; [|by rewrite Hip].
  unfold rightmost_untrusted_ip. rewrite split_char_single by done. simpl. unfold untrusted_token.
  destruct (trim hop); [done|]. by rewrite Hp.
Qed.
End facts.

(** ** An instance *)

Module AccessDemo.

(** Ranges of the form [address/length], which contain the addresses of their family
    with the same leading bits. *)
Definition prefix_contains (n : IpNet) (ip : IpAddr) : bool :=
  match net_addr n, ip with
  | V4 a, V4 b => Z.shiftr a (32 - net_prefix n) =? Z.shiftr b (32 - net_prefix n)
  | V6 a, V6 b => Z.shiftr a (128 - net_prefix n) =? Z.shiftr b (128 - net_prefix n)
  | _, _ => false
  end.

Definition parse_net (s : str) : option IpNet :=
  match split_char "/"%char s with
  | [a; l] => ip ← parse_ip a; n ← read_number 10 128 3 false l; Some (mkIpNet ip n.1)
  | _ => None
  end.

#[export] Instance demo_ipnet : IpnetLib := {| net_parse := parse_net; net_contains := prefix_contains |}.
#[export] Instance demo_http : HttpLib :=
  {| header_name_from_bytes := Some; header_value_from_str := Some; header_value_to_str := Some;
     form_urlencoded_parse := λ _, [] |}.

Definition private : list IpNet := default [] PRIVATE_NETS.
Definition ip_of (s : string) : IpAddr := default (V4 0) (parse_ip (lit s)).
Definition cfg : ForwardedForConfig :=
  mkForwardedForConfig (lit "x-forwarded-for") [mkIpNet (ip_of "192.0.2.0") 24].
Definition request (value : string) : Session :=
  mkSession None (Some (ip_of "192.0.2.1")) [(lit "x-forwarded-for", lit value)].

End AccessDemo.
Import AccessDemo.

(** The table of private ranges is built. *)
Lemma private_nets_parse : PRIVATE_NETS = Some private ∧ length private = 9%nat.
Proof. vm_compute. split; reflexivity. Qed.

Lemma client_ip_unforgeable_witness :
  resolve_client_ip private (request "1.1.1.1, 203.0.113.7") (Some cfg) =
    resolve_client_ip private (request "8.8.8.8, 203.0.113.7") (Some cfg) ∧
  source_guard private (Some cfg) None (Some [mkIpNet (ip_of "1.1.1.1") 32]) (request "1.1.1.1, 203.0.113.7") =
    source_guard private (Some cfg) None (Some [mkIpNet (ip_of "1.1.1.1") 32]) (request "8.8.8.8, 203.0.113.7").
Proof.
  apply (client_ip_unforgeable private cfg None (Some [mkIpNet (ip_of "1.1.1.1") 32])
           (request "1.1.1.1, 203.0.113.7") (request "8.8.8.8, 203.0.113.7")
           (lit "1.1.1.1") (lit "8.8.8.8") (lit " 203.0.113.7")); try reflexivity.
  right. exists (lit " 203.0.113.7"), (ip_of "203.0.113.7"). split; [by left|]. vm_compute. reflexivity.
Defined.


(** With an allow-list of the forged address the request is admitted. *)
Lemma hop_with_port_forgeable_witness :
  let s := request "1.1.1.1, 203.0.113.7:4711" in
  resolve_client_ip private s (Some cfg) = Some (ip_of "1.1.1.1") ∧
  source_guard private (Some cfg) None (Some [mkIpNet (ip_of "1.1.1.1") 32]) s = false.
Proof.
  intros s. split; [|vm_compute; reflexivity].
  apply (hop_with_port_forgeable private cfg s (lit "1.1.1.1") (lit " 203.0.113.7:4711")).
  - vm_compute. reflexivity.
  - reflexivity.
  - exact (bool_decide_eq_false_1 (","%char ∈ lit " 203.0.113.7:4711") eq_refl).
  - vm_compute. reflexivity.
  - vm_compute. reflexivity.
Defined.
