(* ===== verification/Bindings.v ===== *)
(** * Attaching routes to listeners

    Models, of [crates/coxswain-reflector/src]: hostname intersection
    ([gateway_api/hostnames.rs]), the listeners and hostnames a route is served on
    ([gateway_api/bindings.rs], [keys.rs]) and the references that cross namespaces
    ([reference_grants.rs], with [crates/coxswain-core/src/reference_grants.rs]). *)

From S2P Require Import Prelude Backend HostRouter.

(** ** Hostnames *)

Definition wildcard_prefix : str := lit "*.".
Definition is_wildcard (h : str) : bool := starts_with wildcard_prefix h.

(** [usize::MAX] is that of a 64-bit target. *)
Definition host_specificity (hostname : str) : Z :=
  match hostname with
  | [] => 0%Z
  | _ => if is_wildcard hostname then Z.of_nat (length hostname) else u64_max
  end.

(** The labels before [suffix] in [host], without the dot. *)
Definition labels_before (suffix host : str) : option str :=
  rest ← strip_suffix suffix host; strip_suffix (lit ".") rest.

(** [s] ends with [t] after a dot. *)
Definition subdomain (s t : str) : bool :=
  match strip_suffix t s with
  | Some rest => ends_with (lit ".") rest
  | None => false
  end.

Definition hostname_matches (route_host listener_host : str) : bool :=
  bool_decide (route_host = listener_host) ||
  match strip_prefix wildcard_prefix route_host with
  | Some suffix =>
      match labels_before suffix listener_host with
      | Some prefix => negb (bool_decide (prefix = [])) && negb (contains "."%char prefix)
      | None => false
      end
  | None => false
  end ||
  match strip_prefix wildcard_prefix listener_host with
  | Some suffix =>
      match labels_before suffix route_host with
      | Some prefix => negb (bool_decide (prefix = []))
      | None => false
      end
  | None => false
  end ||
  match strip_prefix wildcard_prefix route_host, strip_prefix wildcard_prefix listener_host with
  | Some rs, Some ls => bool_decide (rs = ls) || subdomain rs ls || subdomain ls rs
  | _, _ => false
  end.

Definition hostnames_intersect (route_hostnames : list str) (listener_hostname : str) : bool :=
  match listener_hostname, route_hostnames with
  | [], _ => true
  | _, [] => true
  | _, _ => existsb (λ rh, hostname_matches rh listener_hostname) route_hostnames
  end.

(** ** Listeners and parent references *)

Inductive ListenerSource :=
| SrcGateway
| SrcListenerSet (ns name : str).

#[export] Instance ListenerSource_eq_dec : EqDecision ListenerSource.
Proof. solve_decision. Defined.

#[export] Instance ListenerSource_countable : Countable ListenerSource.
Proof.
  apply (inj_countable' (λ s, match s with SrcGateway => None | SrcListenerSet a b => Some (a, b) end)
           (λ o, match o with None => SrcGateway | Some (a, b) => SrcListenerSet a b end)).
  by intros [].
Defined.

Record ListenerKey := mkListenerKey {
  lk_source : ListenerSource;
  gw_ns : str;
  gw_name : str;
  lk_listener : str;
}.

#[export] Instance ListenerKey_eq_dec : EqDecision ListenerKey.
Proof. solve_decision. Defined.

#[export] Instance ListenerKey_countable : Countable ListenerKey.
Proof.
  apply (inj_countable' (λ k, (lk_source k, gw_ns k, gw_name k, lk_listener k))
           (λ '(a, b, c, d), mkListenerKey a b c d)).
  by intros [].
Defined.

Inductive RouteNamespaceSet :=
| AllNamespaces
| OnlyNamespaces (set : gset str).

Definition namespace_allows (s : RouteNamespaceSet) (ns : str) : bool :=
  match s with AllNamespaces => true | OnlyNamespaces set => bool_decide (ns ∈ set) end.

Record ListenerBinding := mkBinding {
  lb_hostname : str;
  lb_port : Z;
  bind_port : Z;
  route_namespaces : RouteNamespaceSet;
}.

(** A [parentRef]; the port is the [i32] of the generated type. *)
Record ParentRef := mkParentRef {
  pr_group : option str;
  pr_kind : option str;
  pr_namespace : option str;
  pr_name : str;
  pr_port : option Z;
  pr_section_name : option str;
}.

(** [ParentRefLike::port]: [as u16]. *)
Definition parent_port (pr : ParentRef) : option Z := wrap 16 <$> pr_port pr.

Definition parent_listener_source (group kind : option str) (ref_ns ref_name : str) : ListenerSource :=
  let gw_api_group := match group with
                      | None => true
                      | Some g => bool_decide (g = []) || bool_decide (g = lit "gateway.networking.k8s.io")
                      end in
  if gw_api_group && bool_decide (kind = Some (lit "ListenerSet")) then SrcListenerSet ref_ns ref_name
  else SrcGateway.

Definition listener_key (source : ListenerSource) (ref_ns ref_name listener : str) : ListenerKey :=
  match source with
  | SrcGateway => mkListenerKey SrcGateway ref_ns ref_name listener
  | SrcListenerSet ns name => mkListenerKey source ns name listener
  end.

Notation ListenerInfo := (gmap ListenerKey ListenerBinding).
Notation BindingMap := (gmap (option str) (gset Z)).

(** ** Bindings *)

(** The macro [add!]. *)
Definition add_binding (h : option str) (port : Z) (b : BindingMap) : BindingMap :=
  <[h := {[port]} ∪ default ∅ (b !! h)]> b.

Definition add_bindings (hs : list (option str)) (port : Z) (b : BindingMap) : BindingMap :=
  foldl (λ b h, add_binding h port b) b hs.

(** The more specific of two hostnames that intersect. *)
Definition effective_host (rh lh : str) : str :=
  if is_wildcard rh && negb (is_wildcard lh) then lh
  else if is_wildcard rh && is_wildcard lh && Nat.ltb (length rh) (length lh) then lh
  else rh.

(** The hostnames a route has on a listener; [None] is the catch-all. *)
Definition effective_hosts (route_hostnames : list str) (lh : str) : list (option str) :=
  match lh, route_hostnames with
  | [], [] => [None]
  | [], _ => Some <$> route_hostnames
  | _, [] => [Some lh]
  | _, _ => (λ rh, Some (effective_host rh lh)) <$> filter (λ rh, hostname_matches rh lh = true) route_hostnames
  end.

Section bindings.
Context `{HashIter} (route_hostnames : list str) (route_ns : str) (listener_info : ListenerInfo).

Definition parent_ns (pr : ParentRef) : str := default route_ns (pr_namespace pr).
Definition parent_source (pr : ParentRef) : ListenerSource :=
  parent_listener_source (pr_group pr) (pr_kind pr) (parent_ns pr) (pr_name pr).

(** The listener serves the reference's port and admits the route's namespace. *)
Definition binds (pr : ParentRef) (info : ListenerBinding) : bool :=
  match parent_port pr with None => true | Some p => (p =? lb_port info)%Z end &&
  namespace_allows (route_namespaces info) route_ns.

Definition of_parent (pr : ParentRef) (k : ListenerKey) : bool :=
  bool_decide (lk_source k = parent_source pr) && bool_decide (gw_ns k = parent_ns pr) &&
  bool_decide (gw_name k = pr_name pr).

(** [l_bindings]: the port and hostname of each listener a reference binds to. *)
Definition listener_pairs (pr : ParentRef) : list (Z * str) :=
  match pr_section_name pr with
  | Some sn =>
      match listener_info !! listener_key (parent_source pr) (parent_ns pr) (pr_name pr) sn with
      | Some info => if binds pr info then [(bind_port info, lb_hostname info)] else []
      | None => []
      end
  | None =>
      omap (λ kv, if of_parent pr kv.1 && binds pr kv.2
                  then Some (bind_port kv.2, lb_hostname kv.2) else None)
        (hash_iter listener_info)
  end.

Definition bind_pair (b : BindingMap) (pair : Z * str) : BindingMap :=
  add_bindings (effective_hosts route_hostnames pair.2) pair.1 b.

Definition bind_parent (b : BindingMap) (pr : ParentRef) : BindingMap :=
  foldl bind_pair b (listener_pairs pr).

(** Listener isolation: another listener of the reference's resource, more specific
    than the one it names, claims the hostname. *)
Definition dominated_by (e : str) (pr : ParentRef) : bool :=
  match pr_section_name pr with
  | None | Some [] => false
  | Some our_sn =>
      let our_spec :=
        from_option (λ info, host_specificity (lb_hostname info)) 0%Z
          (listener_info !! listener_key (parent_source pr) (parent_ns pr) (pr_name pr) our_sn) in
      existsb (λ kv, of_parent pr kv.1 && negb (bool_decide (lk_listener kv.1 = our_sn)) &&
                     (our_spec <? host_specificity (lb_hostname kv.2))%Z &&
                     (if is_wildcard e then bool_decide (lb_hostname kv.2 = e)
                      else hostname_matches e (lb_hostname kv.2)))
        (hash_iter listener_info)
  end.

Definition keeps (parent_refs : list ParentRef) (h : option str) : bool :=
  match h with
  | None => true
  | Some e => negb (existsb (dominated_by e) parent_refs)
  end.

Definition compute_listener_bindings (parent_refs : list ParentRef) : list (option str * Z) :=
  let bindings :=
    if bool_decide (listener_info = ∅) then
      add_bindings (match route_hostnames with [] => [None] | _ => Some <$> route_hostnames end) 80 ∅
    else
      filter (λ kv, keeps parent_refs kv.1 = true) (foldl bind_parent ∅ parent_refs) in
  '(h, ports) ← hash_iter bindings; (λ p, (h, p)) <$> elements ports.

End bindings.

(** ** References across namespaces *)

Record ReferenceGrantKey := mkGrantKey {
  from_ns : str;
  to_ns : str;
  to_name : option str;
}.

#[export] Instance ReferenceGrantKey_eq_dec : EqDecision ReferenceGrantKey.
Proof. solve_decision. Defined.

#[export] Instance ReferenceGrantKey_countable : Countable ReferenceGrantKey.
Proof.
  apply (inj_countable' (λ k, (from_ns k, to_ns k, to_name k)) (λ '(a, b, c), mkGrantKey a b c)).
  by intros [].
Defined.

Record ReferenceGrantFrom := mkFrom { gf_group : str; gf_kind : str; gf_namespace : str }.
Record ReferenceGrantTo := mkTo { gt_group : str; gt_kind : str; gt_name : option str }.
Record ReferenceGrant := mkGrant {
  rg_namespace : option str;
  rg_from : list ReferenceGrantFrom;
  rg_to : list ReferenceGrantTo;
}.

Definition from_matches (group kind : str) (f : ReferenceGrantFrom) : Prop :=
  gf_group f = group ∧ gf_kind f = kind.
Definition to_matches (kind : str) (t : ReferenceGrantTo) : Prop :=
  (gt_group t = [] ∨ gt_group t = lit "core") ∧ gt_kind t = kind.

#[export] Instance from_matches_dec group kind f : Decision (from_matches group kind f).
Proof. unfold from_matches. apply _. Defined.
#[export] Instance to_matches_dec kind t : Decision (to_matches kind t).
Proof. unfold to_matches. apply _. Defined.

Definition flatten_one (from_group from_kind to_kind : str) (g : ReferenceGrant) : list ReferenceGrantKey :=
  match rg_namespace g with
  | None => []
  | Some ns =>
      f ← filter (from_matches from_group from_kind) (rg_from g);
      t ← filter (to_matches to_kind) (rg_to g);
      [mkGrantKey (gf_namespace f) ns (gt_name t)]
  end.

(** A [GrantSet] carries as its type the triple it was flattened for. *)
Definition flatten (grants : list ReferenceGrant) (from_group from_kind to_kind : str) : gset ReferenceGrantKey :=
  list_to_set (grants ≫= flatten_one from_group from_kind to_kind).

Definition backend_ref_allowed (from to name : str) (grants : gset ReferenceGrantKey) : bool :=
  bool_decide (mkGrantKey from to None ∈ grants) ||
  bool_decide (mkGrantKey from to (Some name) ∈ grants).

(** The triples of the [flatten_*] functions. *)
Definition GATEWAY_API_GROUP : str := lit "gateway.networking.k8s.io".
Definition COXSWAIN_GROUP : str := lit "gateway.coxswain-labs.dev".

Inductive GrantKind :=
| HttpRouteBackend | GrpcRouteBackend | TlsRouteBackend | TcpRouteBackend | UdpRouteBackend
| GatewayCert | ListenerSetCert | GatewayCa | BasicAuthSecret | ExternalAuthBackend.

Definition grant_triple (k : GrantKind) : str * str * str :=
  match k with
  | HttpRouteBackend => (GATEWAY_API_GROUP, lit "HTTPRoute", lit "Service")
  | GrpcRouteBackend => (GATEWAY_API_GROUP, lit "GRPCRoute", lit "Service")
  | TlsRouteBackend => (GATEWAY_API_GROUP, lit "TLSRoute", lit "Service")
  | TcpRouteBackend => (GATEWAY_API_GROUP, lit "TCPRoute", lit "Service")
  | UdpRouteBackend => (GATEWAY_API_GROUP, lit "UDPRoute", lit "Service")
  | GatewayCert => (GATEWAY_API_GROUP, lit "Gateway", lit "Secret")
  | ListenerSetCert => (GATEWAY_API_GROUP, lit "ListenerSet", lit "Secret")
  | GatewayCa => (GATEWAY_API_GROUP, lit "Gateway", lit "ConfigMap")
  | BasicAuthSecret => (COXSWAIN_GROUP, lit "BasicAuth", lit "Secret")
  | ExternalAuthBackend => (COXSWAIN_GROUP, lit "CoxswainExternalAuth", lit "Service")
  end.

Definition flatten_grants (k : GrantKind) (grants : list ReferenceGrant) : gset ReferenceGrantKey :=
  let '(g, f, t) := grant_triple k in flatten grants g f t.
