(* ===== verification/BindingsFacts.v ===== *)
(** * Facts about attachment

    A route is served exactly on the hosts that it and a listener admitting it have in
    common; references cross namespaces exactly where a grant of their kind says so. *)

From S2P Require Import Prelude Backend HostRouter Bindings.

(** ** The hosts of a pattern *)

(** The hosts a hostname stands for in the routing tables. *)
Definition covers (p h : str) : Prop :=
  match strip_prefix wildcard_prefix p with
  | Some s => wildcard_matches h s MultiLabel = true
  | None => h = p
  end.

Lemma labels_before_Some s h p : labels_before s h = Some p ↔ h = p ++ lit "." ++ s.
Proof.
  unfold labels_before. split.
  - intros (rest & Hr & Hp)%bind_Some. apply strip_suffix_Some in Hr as ->. apply strip_suffix_Some in Hp as ->.
    by rewrite <-app_assoc.
  - intros ->. rewrite app_assoc. apply bind_Some. eexists. split; by apply strip_suffix_Some.
Qed.

Lemma wildcard_multi h s : wildcard_matches h s MultiLabel = true ↔ ∃ p, p ≠ [] ∧ h = p ++ lit "." ++ s.
Proof.
  assert (wildcard_matches h s MultiLabel =
    match labels_before s h with Some (_ :: _) => true | _ => false end) as ->.
  { unfold wildcard_matches, labels_before. destruct (strip_suffix s h) as [rest|]; simpl; [|done].
    by destruct (strip_suffix _ rest) as [[]|]. }
  split.
  - destruct (labels_before s h) as [[|c p]|] eqn:E; [done| |done]. intros _.
    apply labels_before_Some in E. by exists (c :: p).
  - intros (p & Hp & ->%labels_before_Some). by destruct p.
Qed.

Lemma covers_wild s h : covers (wildcard_prefix ++ s) h ↔ ∃ p, p ≠ [] ∧ h = p ++ lit "." ++ s.
Proof.
  unfold covers. assert (strip_prefix wildcard_prefix (wildcard_prefix ++ s) = Some s) as ->
    by by apply strip_prefix_Some.
  apply wildcard_multi.
Qed.

Lemma is_wildcard_true h : is_wildcard h = true ↔ ∃ s, h = wildcard_prefix ++ s.
Proof. apply starts_with_true. Qed.

Lemma is_wildcard_false h : is_wildcard h = false → strip_prefix wildcard_prefix h = None.
Proof.
  intros E. destruct (strip_prefix wildcard_prefix h) as [s|] eqn:Es; [|done].
  apply strip_prefix_Some in Es. assert (is_wildcard h = true) by (apply is_wildcard_true; by exists s). congruence.
Qed.

Lemma covers_exact p h : is_wildcard p = false → covers p h ↔ h = p.
Proof. intros E%is_wildcard_false. unfold covers. by rewrite E. Qed.

Lemma subdomain_true s t : subdomain s t = true ↔ ∃ q, s = q ++ lit "." ++ t.
Proof.
  unfold subdomain. split.
  - destruct (strip_suffix t s) as [rest|] eqn:E; [|done]. apply strip_suffix_Some in E as ->.
    intros (q & ->)%ends_with_true. exists q. by rewrite <-app_assoc.
  - intros (q & ->). rewrite app_assoc.
    assert (strip_suffix t ((q ++ lit ".") ++ t) = Some (q ++ lit ".")) as -> by by apply strip_suffix_Some.
    apply ends_with_true. by exists q.
Qed.

(** ** Intersection *)

(** A wildcard that ends another pattern: the labels in front of it. *)
Lemma wildcard_ends p s t :
  p ≠ [] → wildcard_prefix ++ s = p ++ lit "." ++ t → s = t ∨ ∃ q, s = q ++ lit "." ++ t.
Proof.
  intros Hp. change wildcard_prefix with (["*"%char] ++ lit "."). destruct p as [|c p]; [done|].
  simpl. intros [= <- E]. destruct p as [|d p]; simpl in E; [left; by simplify_eq|].
  right. exists p. by simplify_eq.
Qed.

(** What it takes for two hostnames to match, by kind. *)
Definition meets (rh lh : str) : Prop :=
  match strip_prefix wildcard_prefix rh, strip_prefix wildcard_prefix lh with
  | Some rs, Some ls => rs = ls ∨ (∃ q, rs = q ++ lit "." ++ ls) ∨ (∃ q, ls = q ++ lit "." ++ rs)
  | Some rs, None => ∃ p, p ≠ [] ∧ "."%char ∉ p ∧ lh = p ++ lit "." ++ rs
  | None, Some ls => ∃ p, p ≠ [] ∧ rh = p ++ lit "." ++ ls
  | None, None => rh = lh
  end.

Lemma strip_wild h s : strip_prefix wildcard_prefix h = Some s ↔ h = wildcard_prefix ++ s.
Proof. apply strip_prefix_Some. Qed.

Lemma route_wildcard_true s h :
  match labels_before s h with
  | Some p => negb (bool_decide (p = [])) && negb (contains "."%char p)
  | None => false
  end = true ↔ ∃ p, p ≠ [] ∧ "."%char ∉ p ∧ h = p ++ lit "." ++ s.
Proof.
  split.
  - destruct (labels_before s h) as [p|] eqn:E; [|done]. apply labels_before_Some in E.
    intros [H1%negb_true_iff H2%negb_true_iff]%andb_true_iff. exists p.
    split_and!; [by apply bool_decide_eq_false_1 in H1|by apply contains_false|done].
  - intros (p & Hp & Hd & ->%labels_before_Some). apply andb_true_iff. split; apply negb_true_iff;
      [by apply bool_decide_eq_false_2|by apply contains_false].
Qed.

Lemma listener_wildcard_true s h :
  match labels_before s h with Some p => negb (bool_decide (p = [])) | None => false end = true ↔
  ∃ p, p ≠ [] ∧ h = p ++ lit "." ++ s.
Proof.
  split.
  - destruct (labels_before s h) as [p|] eqn:E; [|done]. apply labels_before_Some in E.
    intros H1%negb_true_iff. exists p. split; [by apply bool_decide_eq_false_1 in H1|done].
  - intros (p & Hp & ->%labels_before_Some). apply negb_true_iff. by apply bool_decide_eq_false_2.
Qed.

Lemma hostname_matches_meets rh lh : hostname_matches rh lh = true ↔ meets rh lh.
Proof.
  unfold hostname_matches, meets. rewrite !orb_true_iff, bool_decide_eq_true.
  destruct (strip_prefix wildcard_prefix rh) as [rs|] eqn:Er, (strip_prefix wildcard_prefix lh) as [ls|] eqn:El;
    try apply strip_wild in Er as Er'; try apply strip_wild in El as El'.
  - rewrite route_wildcard_true, listener_wildcard_true, !orb_true_iff, bool_decide_eq_true, !subdomain_true.
    split; [|tauto]. intros [[[->|(p & Hp & _ & E)]|(p & Hp & E)]|]; [| | |tauto].
    + rewrite Er in El. left. by simplify_eq.
    + rewrite El' in E. apply wildcard_ends in E as [->|]; [by left|by right; right|done].
    + rewrite Er' in E. apply wildcard_ends in E as [->|]; [by left|by right; left|done].
  - rewrite route_wildcard_true. split; [|tauto]. intros [[[->|]|]|]; try done. by rewrite Er in El.
  - rewrite listener_wildcard_true. split; [|tauto]. intros [[[->|]|]|]; try done. by rewrite Er in El.
  - split; [|tauto]. by intros [[[|]|]|].
Qed.

Lemma app_cons_ne {A} (p q : list A) x : p ++ x :: q ≠ [].
Proof. by destruct p. Qed.

(** A longer wildcard covers less. *)
Lemma covers_narrower q s h : covers (wildcard_prefix ++ q ++ lit "." ++ s) h → covers (wildcard_prefix ++ s) h.
Proof.
  rewrite !covers_wild. intros (p & Hp & ->). exists (p ++ lit "." ++ q). split; [apply app_cons_ne|].
  by rewrite <-!app_assoc.
Qed.

Lemma strip_wild_app s : strip_prefix wildcard_prefix (wildcard_prefix ++ s) = Some s.
Proof. by apply strip_wild. Qed.

(** Resolve the prefixes of patterns known to be wildcards or not. *)
Ltac strip_wildcards :=
  repeat match goal with
  | W : is_wildcard _ = true |- _ => apply is_wildcard_true in W as [? ->]; rewrite ?strip_wild_app
  | W : is_wildcard ?h = false |- context [strip_prefix wildcard_prefix ?h] => rewrite (is_wildcard_false h W)
  end.

(** The effective hostname covers the hosts that both hostnames cover. *)
Lemma effective_intersection rh lh h :
  hostname_matches rh lh = true → covers (effective_host rh lh) h ↔ covers rh h ∧ covers lh h.
Proof.
  rewrite hostname_matches_meets. unfold meets, effective_host.
  destruct (is_wildcard rh) eqn:Wr, (is_wildcard lh) eqn:Wl; cbn [andb negb];
    strip_wildcards.
  - rewrite !length_app. intros [->|[(q & ->)|(q & ->)]].
    + rewrite (proj2 (Nat.ltb_ge _ _)) by lia. tauto.
    + rewrite (proj2 (Nat.ltb_ge _ _)) by (rewrite !length_app; simpl; lia).
      split; [|tauto]. intros Hc. split; [done|by eapply covers_narrower].
    + rewrite (proj2 (Nat.ltb_lt _ _)) by (rewrite !length_app; simpl; lia).
      split; [|tauto]. intros Hc. split; [by eapply covers_narrower|done].
  - intros (p & Hp & _ & E). rewrite (covers_exact lh h) by done. split; [|tauto].
    intros ->. split; [|done]. apply covers_wild. by exists p.
  - intros (p & Hp & E). rewrite (covers_exact rh h) by done. split; [|tauto].
    intros ->. split; [done|]. apply covers_wild. by exists p.
  - intros ->. tauto.
Qed.

(** A route wildcard against an exact listener hostname more than one label deeper. *)
Definition deep (rh lh : str) : Prop :=
  is_wildcard lh = false ∧ ∃ s p, rh = wildcard_prefix ++ s ∧ lh = p ++ lit "." ++ s ∧ "."%char ∈ p.

Lemma suffix_compare (p1 s1 p2 s2 : str) :
  p1 ++ lit "." ++ s1 = p2 ++ lit "." ++ s2 →
  s1 = s2 ∨ (∃ q, s1 = q ++ lit "." ++ s2) ∨ (∃ q, s2 = q ++ lit "." ++ s1).
Proof.
  revert p2. induction p1 as [|c p1 IH]; intros [|d p2]; simpl; intros E.
  - injection E as ->. by left.
  - injection E as _ ->. right. left. by exists p2.
  - injection E as _ E. right. right. by exists p1.
  - injection E as _ E. by apply IH in E.
Qed.

(** Hostnames with a host in common match, the deep case apart. *)
Lemma hostname_matches_complete rh lh h :
  covers rh h → covers lh h → ¬ deep rh lh → hostname_matches rh lh = true.
Proof.
  rewrite hostname_matches_meets. unfold meets.
  destruct (is_wildcard rh) eqn:Wr, (is_wildcard lh) eqn:Wl;
    strip_wildcards.
  - rewrite !covers_wild. intros (p1 & _ & ->) (p2 & _ & E) _. by apply suffix_compare in E.
  - rewrite covers_wild, covers_exact by done. intros (p & Hp & ->) <- Hd. exists p.
    split_and!; [done| |done]. intros Hin. apply Hd. split; [done|]. by eexists _, p.
  - rewrite covers_wild, covers_exact by done. by intros -> ? _.
  - rewrite !covers_exact by done. by intros -> ? _.
Qed.

(** ** Membership *)

Definition has (b : BindingMap) (h : option str) (p : Z) : Prop := p ∈ default ∅ (b !! h).

Lemma has_add h0 port b h p : has (add_binding h0 port b) h p ↔ has b h p ∨ h = h0 ∧ p = port.
Proof.
  unfold has, add_binding. destruct (decide (h0 = h)) as [->|].
  - rewrite lookup_insert_eq; simpl. rewrite elem_of_union, elem_of_singleton. tauto.
  - rewrite lookup_insert_ne by done. intuition congruence.
Qed.

Lemma has_add_all hs port : ∀ b h p, has (add_bindings hs port b) h p ↔ has b h p ∨ h ∈ hs ∧ p = port.
Proof.
  unfold add_bindings. induction hs as [|h0 hs IH]; simpl; intros b h p; [set_solver|].
  rewrite IH, has_add, elem_of_cons. tauto.
Qed.

Section facts.
Context `{HashIter} (route_hostnames : list str) (route_ns : str) (listener_info : ListenerInfo).

Notation pairs := (listener_pairs route_ns listener_info).
Notation compute := (compute_listener_bindings route_hostnames route_ns listener_info).

Lemma has_pairs l : ∀ b h p,
  has (foldl (bind_pair route_hostnames) b l) h p ↔
  has b h p ∨ ∃ lh, (p, lh) ∈ l ∧ h ∈ effective_hosts route_hostnames lh.
Proof.
  induction l as [|[port lh] l IH]; simpl; intros b h p; [set_solver|].
  rewrite IH. unfold bind_pair; simpl. rewrite has_add_all. split.
  - intros [[?|[? ->]]|(lh' & ? & ?)]; [by left|right; exists lh; set_solver|right; exists lh'; set_solver].
  - intros [?|(lh' & [[= -> ->]|?]%elem_of_cons & ?)]; [by left; left|by left; right|right; by exists lh'].
Qed.

Lemma has_parents prs : ∀ b h p,
  has (foldl (bind_parent route_hostnames route_ns listener_info) b prs) h p ↔
  has b h p ∨ ∃ pr lh, pr ∈ prs ∧ (p, lh) ∈ pairs pr ∧ h ∈ effective_hosts route_hostnames lh.
Proof.
  induction prs as [|pr prs IH]; simpl; intros b h p; [set_solver|].
  rewrite IH. unfold bind_parent at 1. rewrite has_pairs. split.
  - intros [[?|(lh & ? & ?)]|(pr' & lh & ? & ? & ?)]; [by left|right; exists pr, lh; set_solver|].
    right. exists pr', lh. set_solver.
  - intros [?|(pr' & lh & [->|?]%elem_of_cons & ? & ?)]; [by left; left|left; right; by exists lh|].
    right. by exists pr', lh.
Qed.

Lemma compute_elem prs h p : listener_info ≠ ∅ →
  (h, p) ∈ compute prs ↔
  keeps route_ns listener_info prs h = true ∧
  ∃ pr lh, pr ∈ prs ∧ (p, lh) ∈ pairs pr ∧ h ∈ effective_hosts route_hostnames lh.
Proof.
  intros Hne. unfold compute_listener_bindings. rewrite bool_decide_eq_false_2 by done.
  set (m := foldl _ _ _).
  assert ((∃ pr lh, pr ∈ prs ∧ (p, lh) ∈ pairs pr ∧ h ∈ effective_hosts route_hostnames lh) ↔ has m h p) as ->.
  { unfold m. rewrite has_parents. unfold has at 1. rewrite lookup_empty. set_solver. }
  rewrite list_elem_of_bind. split.
  - intros ([h' ports] & Hin & Hm). apply list_elem_of_fmap in Hin as (q & [= -> ->] & Hq).
    apply hash_iter_elem, map_lookup_filter_Some in Hm as [Hm Hk]. split; [done|].
    unfold has. rewrite Hm. by apply elem_of_elements in Hq.
  - unfold has. intros [Hk Hp]. destruct (m !! h) as [ports|] eqn:E; [|set_solver]. simpl in Hp.
    exists (h, ports). split; [apply list_elem_of_fmap; exists p; by rewrite elem_of_elements|].
    by apply hash_iter_elem, map_lookup_filter_Some.
Qed.

(** ** Which hosts are served *)

(** The reference attaches to the listener: it names it, or its resource. *)
Definition attaches (pr : ParentRef) (k : ListenerKey) : Prop :=
  match pr_section_name pr with
  | Some sn => k = listener_key (parent_source route_ns pr) (parent_ns route_ns pr) (pr_name pr) sn
  | None => of_parent route_ns pr k = true
  end.

Lemma pairs_elem pr p lh : (p, lh) ∈ pairs pr ↔
  ∃ k info, listener_info !! k = Some info ∧ attaches pr k ∧ binds route_ns pr info = true ∧
            p = bind_port info ∧ lh = lb_hostname info.
Proof.
  unfold listener_pairs, attaches. destruct (pr_section_name pr) as [sn|].
  - set (key := listener_key _ _ _ _). split.
    + destruct (listener_info !! key) as [info|] eqn:E; [|set_solver].
      destruct (binds route_ns pr info) eqn:Eb; [|set_solver].
      intros [= -> ->]%list_elem_of_singleton. by exists key, info.
    + intros (k & info & E & -> & Eb & -> & ->). rewrite E, Eb. by left.
  - rewrite list_elem_of_omap. split.
    + intros ([k info] & Hin%hash_iter_elem & E). simpl in E.
      destruct (of_parent route_ns pr k) eqn:Eo; [|done].
      destruct (binds route_ns pr info) eqn:Eb; [|done]. simpl in E. simplify_eq. by exists k, info.
    + intros (k & info & E & Ho & Eb & -> & ->). exists (k, info). split; [by apply hash_iter_elem|].
      simpl. by rewrite Ho, Eb.
Qed.

Definition serves (e : option str) (host : str) : Prop := from_option (λ p, covers p host) True e.
Definition listener_covers (lh host : str) : Prop := lh = [] ∨ covers lh host.
Definition route_covers (host : str) : Prop :=
  route_hostnames = [] ∨ ∃ rh, rh ∈ route_hostnames ∧ covers rh host.

Lemma effective_sound lh e host :
  e ∈ effective_hosts route_hostnames lh → serves e host → listener_covers lh host ∧ route_covers host.
Proof.
  unfold effective_hosts, listener_covers, route_covers.
  destruct lh as [|c lh], route_hostnames as [|r rs] eqn:Er.
  - auto.
  - intros (rh & -> & Hin)%list_elem_of_fmap Hs. split; [by left|]. right. by exists rh.
  - intros ->%list_elem_of_singleton Hs. split; [by right|by left].
  - intros (rh & -> & [Hm Hin]%list_elem_of_filter)%list_elem_of_fmap Hs. simpl in Hs.
    apply (effective_intersection _ _ _ Hm) in Hs as [? ?]. split; [by right|]. right. by exists rh.
Qed.

Lemma effective_complete lh host :
  listener_covers lh host → route_covers host → (∀ rh, rh ∈ route_hostnames → ¬ deep rh lh) →
  ∃ e, e ∈ effective_hosts route_hostnames lh ∧ serves e host.
Proof.
  unfold effective_hosts, listener_covers, route_covers. intros Hl Hr Hd.
  destruct lh as [|c lh], route_hostnames as [|r rs] eqn:Er.
  - exists None. split; [by left|done].
  - destruct Hr as [|(rh & Hin & Hc)]; [done|]. exists (Some rh). split; [by apply list_elem_of_fmap_2|done].
  - destruct Hl as [|Hl]; [done|]. exists (Some (c :: lh)). split; [by left|done].
  - destruct Hl as [|Hl]; [done|]. destruct Hr as [|(rh & Hin & Hc)]; [done|].
    assert (hostname_matches rh (c :: lh) = true) as Hm by (eapply hostname_matches_complete; eauto).
    exists (Some (effective_host rh (c :: lh))). split; [|by apply effective_intersection].
    apply list_elem_of_fmap. exists rh. split; [done|]. by apply list_elem_of_filter.
Qed.

(** A listener serves the host at the port to the route. *)
Definition offered (prs : list ParentRef) (host : str) (p : Z) : Prop :=
  ∃ pr k info, pr ∈ prs ∧ listener_info !! k = Some info ∧ attaches pr k ∧
    binds route_ns pr info = true ∧ p = bind_port info ∧ listener_covers (lb_hostname info) host.

(** A route stays within its listeners: a host it is bound to at a port is one of its own
    and one of a listener of that port that a parent reference attaches it to and
    that admits its namespace. *)
Theorem bindings_confined prs e p host :
  listener_info ≠ ∅ → (e, p) ∈ compute prs → serves e host → offered prs host p ∧ route_covers host.
Proof.
  intros Hne Hin Hs. apply compute_elem in Hin as (_ & pr & lh & Hpr & Hpair & He); [|done].
  apply pairs_elem in Hpair as (k & info & Hk & Ha & Hb & -> & ->).
  destruct (effective_sound _ _ _ He Hs) as [Hl Hr]. split; [by exists pr, k, info|done].
Qed.

(** C29: A route whose references name no listener is served exactly on the hosts that it
    shares with the listeners that admit it, if its wildcards meet no exact listener
    hostname more than one label deeper. *)
Theorem bindings_exact prs p host :
  listener_info ≠ ∅ → (∀ pr, pr ∈ prs → pr_section_name pr = None) →
  (∀ k info rh, listener_info !! k = Some info → rh ∈ route_hostnames → ¬ deep rh (lb_hostname info)) →
  (∃ e, (e, p) ∈ compute prs ∧ serves e host) ↔ offered prs host p ∧ route_covers host.
Proof.
  intros Hne Hsn Hd. split.
  - intros (e & Hin & Hs). apply compute_elem in Hin as (_ & pr & lh & Hpr & Hpair & He); [|done].
    apply pairs_elem in Hpair as (k & info & Hk & Ha & Hb & -> & ->).
    destruct (effective_sound _ _ _ He Hs) as [Hl Hr]. split; [by exists pr, k, info|done].
  - intros [(pr & k & info & Hpr & Hk & Ha & Hb & -> & Hl) Hr].
    destruct (effective_complete (lb_hostname info) host Hl Hr) as (e & He & Hs); [eauto|].
    exists e. split; [|done]. apply compute_elem; [done|]. split.
    + destruct e as [e|]; [|done]. simpl. apply negb_true_iff, not_true_is_false.
      intros (pr' & Hin & Hdom)%existsb_exists. apply list_elem_of_In in Hin.
      unfold dominated_by in Hdom. by rewrite (Hsn pr' Hin) in Hdom.
    + exists pr, (lb_hostname info). split; [done|]. split; [|done]. apply pairs_elem. by exists k, info.
Qed.

(** Listener isolation disregards ports and the other references of the route: a
    hostname that a sibling listener has is bound nowhere for a route that names a less
    specific listener, also where the sibling is on another port or named as well. *)
Theorem isolation_ignores_ports prs pr sn e k info p :
  listener_info ≠ ∅ → pr ∈ prs → pr_section_name pr = Some sn → sn ≠ [] →
  e ≠ [] → is_wildcard e = false →
  listener_info !! k = Some info → lb_hostname info = e → of_parent route_ns pr k = true →
  lk_listener k ≠ sn →
  (from_option (λ i, host_specificity (lb_hostname i)) 0
    (listener_info !! listener_key (parent_source route_ns pr) (parent_ns route_ns pr) (pr_name pr) sn)
    < u64_max)%Z →
  (Some e, p) ∉ compute prs.
Proof.
  intros Hne Hpr Hsn Hsn0 He Hw Hk Hh Ho Hl Hs Hin.
  apply compute_elem in Hin as [Hkeep _]; [|done]. simpl in Hkeep.
  apply negb_true_iff, not_true_iff_false in Hkeep. apply Hkeep, existsb_exists. exists pr.
  split; [by apply list_elem_of_In|]. unfold dominated_by. rewrite Hsn. destruct sn as [|c sn]; [done|].
  apply existsb_exists. exists (k, info). split; [by apply list_elem_of_In, hash_iter_elem|]. simpl fst. simpl snd.
  rewrite Ho, (bool_decide_eq_false_2 _ Hl), Hh, Hw.
  assert (host_specificity e = u64_max) as -> by (unfold host_specificity; destruct e; [done|]; by rewrite Hw).
  rewrite (proj2 (Z.ltb_lt _ _)) by lia. simpl. apply hostname_matches_meets. unfold meets.
  by rewrite (is_wildcard_false _ Hw).
Qed.
End facts.

(** ** Grants *)

(** C30: A reference across namespaces is allowed exactly when a grant in the target's
    namespace lists the referrer's group, kind and namespace, and the target's kind
    with its name or with none. *)
Theorem reference_grants_exact kind grants from to name :
  let '(g, fk, tk) := grant_triple kind in
  backend_ref_allowed from to name (flatten_grants kind grants) = true ↔
  ∃ grant f t, grant ∈ grants ∧ rg_namespace grant = Some to ∧
    f ∈ rg_from grant ∧ gf_group f = g ∧ gf_kind f = fk ∧ gf_namespace f = from ∧
    t ∈ rg_to grant ∧ (gt_group t = [] ∨ gt_group t = lit "core") ∧ gt_kind t = tk ∧
    (gt_name t = None ∨ gt_name t = Some name).
Proof.
  unfold flatten_grants. destruct (grant_triple kind) as [[g fk] tk].
  assert (∀ n, mkGrantKey from to n ∈ flatten grants g fk tk ↔
    ∃ grant f t, grant ∈ grants ∧ rg_namespace grant = Some to ∧ f ∈ rg_from grant ∧
      from_matches g fk f ∧ gf_namespace f = from ∧ t ∈ rg_to grant ∧ to_matches tk t ∧ gt_name t = n) as Hf.
  { intros n. unfold flatten. rewrite elem_of_list_to_set, list_elem_of_bind. unfold flatten_one. split.
    - intros (grant & Hin & Hg). destruct (rg_namespace grant) as [ns|] eqn:Ens; [|by apply elem_of_nil in Hin].
      apply list_elem_of_bind in Hin as (f & Hin & [? ?]%list_elem_of_filter).
      apply list_elem_of_bind in Hin as (t & Hin & [? ?]%list_elem_of_filter).
      apply list_elem_of_singleton in Hin. injection Hin as -> -> ->. by exists grant, f, t.
    - intros (grant & f & t & Hg & Ens & Hf & Hfm & <- & Ht & Htm & <-). exists grant. split; [|done].
      rewrite Ens. apply list_elem_of_bind. exists f. split; [|by apply list_elem_of_filter].
      apply list_elem_of_bind. exists t. split; [by left|by apply list_elem_of_filter]. }
  unfold backend_ref_allowed. rewrite orb_true_iff, !bool_decide_eq_true, !Hf.
  unfold from_matches, to_matches. split.
  - intros [(grant & f & t & ?)|(grant & f & t & ?)]; exists grant, f, t; tauto.
  - intros (grant & f & t & ? & ? & ? & ? & ? & ? & ? & ? & ? & [?|?]);
      [left|right]; exists grant, f, t; tauto.
Qed.

(** ** An instance: a Gateway with an HTTP and an HTTPS listener *)

Module AttachDemo.
#[export] Existing Instance list_order.

Definition key (l : string) : ListenerKey := mkListenerKey SrcGateway (lit "n") (lit "g") (lit l).
Definition http : ListenerBinding := mkBinding [] 80 80 AllNamespaces.
Definition https : ListenerBinding := mkBinding (lit "a.b") 443 443 (OnlyNamespaces {[lit "n"]}).
Definition listeners : ListenerInfo := {[ key "h" := http; key "s" := https ]}.
Definition to_gateway (section : option string) : ParentRef :=
  mkParentRef None None None (lit "g") None (lit <$> section).

Lemma listeners_http : listeners !! key "h" = Some http.
Proof. unfold listeners. by rewrite lookup_insert_eq. Qed.
Lemma listeners_https : listeners !! key "s" = Some https.
Proof. unfold listeners. rewrite lookup_insert_ne by done. by rewrite lookup_singleton_eq. Qed.

Lemma listeners_ne : listeners ≠ ∅.
Proof. intros E. pose proof listeners_http as Hk. rewrite E in Hk. by rewrite lookup_empty in Hk. Qed.

Lemma listeners_shallow k info rh :
  listeners !! k = Some info → rh ∈ [lit "a.b"] → ¬ deep rh (lb_hostname info).
Proof. intros _ ->%list_elem_of_singleton (_ & s & p & E & _). done. Qed.
End AttachDemo.
Import AttachDemo.

Lemma bindings_exact_witness :
  ∃ e, (e, 80%Z) ∈ compute_listener_bindings [lit "a.b"] (lit "n") listeners [to_gateway None] ∧
       serves e (lit "a.b").
Proof.
  apply (bindings_exact [lit "a.b"] (lit "n") listeners [to_gateway None] 80 (lit "a.b")).
  - exact listeners_ne.
  - by intros pr ->%list_elem_of_singleton.
  - exact listeners_shallow.
  - split; [|right; exists (lit "a.b"); split; [by left|reflexivity]].
    exists (to_gateway None), (key "h"), http. split; [by left|]. split; [exact listeners_http|].
    split; [reflexivity|]. split; [reflexivity|]. split; [reflexivity|by left].
Defined.

Lemma bindings_confined_witness :
  offered (lit "n") listeners [to_gateway (Some "s")] (lit "a.b") 443 ∧ route_covers [lit "a.b"] (lit "a.b").
Proof.
  apply (bindings_confined [lit "a.b"] (lit "n") listeners [to_gateway (Some "s")] (Some (lit "a.b")) 443).
  - exact listeners_ne.
  - vm_compute. by left.
  - reflexivity.
Defined.

(** The route is offered its host by the listener it names, and not bound. *)
Lemma isolation_ignores_ports_witness :
  offered (lit "n") listeners [to_gateway (Some "h")] (lit "a.b") 80 ∧
  (Some (lit "a.b"), 80%Z) ∉
    compute_listener_bindings [lit "a.b"] (lit "n") listeners [to_gateway (Some "h")].
Proof.
  split.
  - exists (to_gateway (Some "h")), (key "h"), http. split; [by left|]. split; [exact listeners_http|].
    split; [reflexivity|]. split; [reflexivity|]. split; [reflexivity|by left].
  - apply (isolation_ignores_ports [lit "a.b"] (lit "n") listeners [to_gateway (Some "h")]
             (to_gateway (Some "h")) (lit "h") (lit "a.b") (key "s") https 80); 
      try reflexivity; try exact listeners_ne; try exact listeners_https; try discriminate.
    by left.
Defined.
