(* ===== verification/EdgePeek.v ===== *)
(** * Reading the preamble of a connection

    Models the peek loops of [crates/coxswain-proxy/src/edge]: the back-off of
    [peek.rs], the server name of a ClientHello in [passthrough.rs] and the PROXY
    header in [accept.rs].  The bytes of a connection arrive in segments at given
    times; a peek leaves them in the queue, a read takes them out.  The crates
    [tls_parser] and [ppp] are classes.  Times are milliseconds. *)

From S2P Require Import Prelude Net.

(** ** The receive queue *)

Inductive StreamEnd := Fin | Rst.

(** The segments in stream order with their arrival times, and the end of the stream,
    which is seen after every byte before it. *)
Record Inbound := mkInbound {
  segments : list (Z * str);
  ending : option (Z * StreamEnd);
}.

(** The bytes of the stream that are there at time [t]. *)
Fixpoint delivered (l : list (Z * str)) (t : Z) : str :=
  match l with
  | [] => []
  | (a, b) :: l' => if (a <=? t)%Z then b ++ delivered l' t else []
  end.

(** The first time from [t] on at which byte [off] of the stream or its end is there. *)
Fixpoint ready_at (l : list (Z * str)) (e : option (Z * StreamEnd)) (off : nat) (t : Z) : option Z :=
  match l with
  | [] => match e with Some (c, _) => Some (Z.max t c) | None => None end
  | (a, b) :: l' =>
      if Nat.ltb off (length b) then Some (Z.max t a)
      else ready_at l' e (off - length b) (Z.max t a)
  end.

(** The queue at time [t], once [off] bytes have been read. *)
Definition queue (i : Inbound) (off : nat) (t : Z) : str := drop off (delivered (segments i) t).

Inductive PeekOutcome :=
| Blocked
| PeekedAt (t : Z) (bytes : str)
| PeekFailed (t : Z).

(** [TcpStream::peek] *)
Definition peek (i : Inbound) (off : nat) (buf_len : Z) (now : Z) : PeekOutcome :=
  match ready_at (segments i) (ending i) off now with
  | None => Blocked
  | Some t =>
      match queue i off t, ending i with
      | [], Some (_, Rst) => PeekFailed t
      | q, _ => PeekedAt t (take (Z.to_nat buf_len) q)
      end
  end.

(** [read_exact]: when the bytes are there, if the stream has them. *)
Definition read_exact (i : Inbound) (off len : nat) (now : Z) : option (option Z) :=
  match len with
  | 0%nat => Some (Some now)
  | S len' =>
      match ready_at (segments i) (ending i) (off + len') now with
      | None => None
      | Some t => Some (if Nat.leb len (length (queue i off t)) then Some t else None)
      end
  end.

(** ** peek.rs *)

Definition PEEK_POLL_MIN : Z := 1.
Definition PEEK_POLL_MAX : Z := 32.

Record PeekBackoff := mkBackoff { last_n : Z; delay : Z }.

Definition PeekBackoff_new : PeekBackoff := mkBackoff 0 PEEK_POLL_MIN.

(** [PeekBackoff::wait]: the time slept and the back-off after it. *)
Definition wait (b : PeekBackoff) (n : Z) : Z * PeekBackoff :=
  let b := if negb (n =? last_n b)%Z then mkBackoff n PEEK_POLL_MIN else b in
  (delay b, mkBackoff (last_n b) (Z.min (delay b * 2) PEEK_POLL_MAX)).

(** ** The loop *)

Inductive Probe (A E : Type) :=
| NeedMore
| Done (a : A)
| Reject (e : E).
Arguments NeedMore {A E}.
Arguments Done {A E}.
Arguments Reject {A E}.

Inductive PeekError (E : Type) :=
| TimedOut
| Eof
| Io
| TooLarge
| Rejected (e : E).
Arguments TimedOut {E}.
Arguments Eof {E}.
Arguments Io {E}.
Arguments TooLarge {E}.
Arguments Rejected {E}.

(** When the loop ended, how often it had peeked, and with what. *)
Record Peeked (A E : Type) := mkPeeked {
  pk_at : Z;
  pk_peeks : Z;
  pk_value : result A (PeekError E);
}.
Arguments mkPeeked {A E}.
Arguments pk_at {A E}.
Arguments pk_peeks {A E}.
Arguments pk_value {A E}.

Section loop.
Context {A E : Type} (probe : str → Probe A E) (cap deadline : Z) (i : Inbound) (off : nat).

(** The loop of both readers under its timeout, which looks at the body first. *)
Fixpoint peek_loop (fuel : nat) (buf_len : Z) (b : PeekBackoff) (now peeks : Z) : option (Peeked A E) :=
  match fuel with
  | 0%nat => None
  | S fuel' =>
      match peek i off buf_len now with
      | Blocked => Some (mkPeeked deadline (peeks + 1) (Err TimedOut))
      | PeekFailed t =>
          if (deadline <? t)%Z then Some (mkPeeked deadline (peeks + 1) (Err TimedOut))
          else Some (mkPeeked t (peeks + 1) (Err Io))
      | PeekedAt t data =>
          let n := Z.of_nat (length data) in
          if (deadline <? t)%Z then Some (mkPeeked deadline (peeks + 1) (Err TimedOut))
          else if (n =? 0)%Z then Some (mkPeeked t (peeks + 1) (Err Eof))
          else
            match probe data with
            | NeedMore =>
                if (n =? buf_len)%Z then
                  if (cap <=? buf_len)%Z then Some (mkPeeked t (peeks + 1) (Err TooLarge))
                  else peek_loop fuel' (Z.min (buf_len * 2) cap) b t (peeks + 1)
                else
                  let '(slept, b') := wait b n in
                  if (deadline <? t + slept)%Z then Some (mkPeeked deadline (peeks + 1) (Err TimedOut))
                  else peek_loop fuel' buf_len b' (t + slept)%Z (peeks + 1)
            | Done a => Some (mkPeeked t (peeks + 1) (Ok a))
            | Reject e => Some (mkPeeked t (peeks + 1) (Err (Rejected e)))
            end
      end
  end.

(** Every turn grows the buffer or lets a millisecond pass. *)
Definition peek_until (buf_len now : Z) : option (Peeked A E) :=
  peek_loop (Z.to_nat (cap - buf_len + (deadline - now) + 1)) buf_len PeekBackoff_new now 0.

End loop.

(** ** passthrough.rs *)

(** [std::str::from_utf8] *)
Definition in_range (lo hi : N) (c : ascii) : bool := ((lo <=? N_of_ascii c) && (N_of_ascii c <=? hi))%N.
Definition utf8_cont : ascii → bool := in_range 128 191.

Fixpoint utf8_valid (s : str) : bool :=
  match s with
  | [] => true
  | a :: s1 =>
      if in_range 0 127 a then utf8_valid s1 else
      match s1 with
      | [] => false
      | b :: s2 =>
          if in_range 194 223 a then utf8_cont b && utf8_valid s2 else
          match s2 with
          | [] => false
          | c :: s3 =>
              if in_range 224 239 a then
                in_range (if in_range 224 224 a then 160 else 128) (if in_range 237 237 a then 159 else 191) b
                && utf8_cont c && utf8_valid s3
              else
                match s3 with
                | [] => false
                | d :: s4 =>
                    in_range 240 244 a
                    && in_range (if in_range 240 240 a then 144 else 128) (if in_range 244 244 a then 143 else 191) b
                    && utf8_cont c && utf8_cont d && utf8_valid s4
                end
          end
      end
  end.

Inductive NomResult (A : Type) :=
| NomOk (a : A)
| NomIncomplete
| NomError.
Arguments NomOk {A}.
Arguments NomIncomplete {A}.
Arguments NomError {A}.

(** The messages of a record, as far as they are told apart: a ClientHello with its
    extension bytes. *)
Inductive TlsMessage :=
| ClientHello (ext : option str)
| OtherMessage.

Inductive TlsExtension :=
| SNI (names : list (Z * str))
| OtherExtension.

Class TlsParser := {
  parse_tls_plaintext : str → NomResult (list TlsMessage);
  (* The rest of the input and the extension. *)
  parse_tls_extension : str → NomResult (str * TlsExtension);
}.

(** Streaming parsers: more input does not change a result, and an extension is at least
    its type and length. *)
Class TlsParserLaws `{TlsParser} := {
  plaintext_stable : ∀ b c, parse_tls_plaintext b ≠ NomIncomplete →
    parse_tls_plaintext (b ++ c) = parse_tls_plaintext b;
  extension_consumes : ∀ b rest e, parse_tls_extension b = NomOk (rest, e) → length rest < length b;
}.

Inductive SniPeek :=
| Incomplete
| Found (host : str)
| NoSni.

Inductive SniParseError := NotClientHello | InvalidUtf8.

Definition first_client_hello (msgs : list TlsMessage) : option (option str) :=
  match find_first (λ m, match m with ClientHello _ => true | OtherMessage => false end) msgs with
  | Some (ClientHello ext) => Some ext
  | _ => None
  end.

(** The walk over the extensions; each turn consumes input. *)
Fixpoint sni_of_extensions `{TlsParser} (fuel : nat) (remaining : str) : option (result SniPeek SniParseError) :=
  match remaining with
  | [] => Some (Ok NoSni)
  | _ :: _ =>
      match fuel with
      | 0%nat => None
      | S fuel' =>
          match parse_tls_extension remaining with
          | NomOk (rest, SNI names) =>
              match names with
              | (_, name) :: _ =>
                  if utf8_valid name then Some (Ok (Found (to_ascii_lowercase name)))
                  else Some (Err InvalidUtf8)
              | [] => sni_of_extensions fuel' rest
              end
          | NomOk (rest, _) => sni_of_extensions fuel' rest
          | _ => Some (Ok NoSni)
          end
      end
  end.

Definition handshake_record : ascii := "022".

Definition client_hello_sni `{TlsParser} (buf : str) : option (result SniPeek SniParseError) :=
  match buf with
  | [] => Some (Ok Incomplete)
  | b :: _ =>
      if negb (b =c handshake_record) then Some (Err NotClientHello)
      else
        match parse_tls_plaintext buf with
        | NomIncomplete => Some (Ok Incomplete)
        | NomError => Some (Err NotClientHello)
        | NomOk msgs =>
            match first_client_hello msgs with
            | None => Some (Err NotClientHello)
            | Some None => Some (Ok NoSni)
            | Some (Some ext) => sni_of_extensions (length ext) ext
            end
        end
  end.

Definition MAX_PEEK : Z := 16 * 1024.
Definition PEEK_TIMEOUT : Z := 10000.

(** The arms of [peek_sni] over what the buffer holds; [None] is a walk over the
    extensions that did not end. *)
Definition sni_probe `{TlsParser} (buf : str) : Probe (option (option str)) SniParseError :=
  match client_hello_sni buf with
  | None => Done None
  | Some (Ok Incomplete) => NeedMore
  | Some (Ok (Found host)) => Done (Some (Some host))
  | Some (Ok NoSni) => Done (Some None)
  | Some (Err e) => Reject e
  end.

Definition peek_sni `{TlsParser} (i : Inbound) (off : nat) (now : Z) :
    option (Peeked (option (option str)) SniParseError) :=
  peek_until sni_probe MAX_PEEK (now + PEEK_TIMEOUT) i off 512 now.

(** ** PROXY headers in accept.rs *)

Inductive V1Addresses :=
| V1Tcp4 (source_address source_port : Z)
| V1Tcp6 (source_address source_port : Z)
| V1Unknown.

Inductive Command := Local | Proxy.

Inductive V2Addresses :=
| V2Unspecified
| V2IPv4 (source_address source_port : Z)
| V2IPv6 (source_address source_port : Z)
| V2Unix.

(** A parsed header: the length of its bytes and what it says. *)
Record V1Header := mkV1Header { v1_addresses : V1Addresses; v1_len : nat }.
Record V2Header := mkV2Header { v2_command : Command; v2_addresses : V2Addresses; v2_len : nat }.

Inductive HeaderResult (E : Type) :=
| V1 (r : result V1Header E)
| V2 (r : result V2Header E).
Arguments V1 {E}.
Arguments V2 {E}.

Class PppLib := {
  ppp_error : Type;
  ppp_parse : str → HeaderResult ppp_error;
  is_incomplete : HeaderResult ppp_error → bool;
}.

Definition header_length {E} (r : HeaderResult E) : option nat :=
  match r with
  | V1 (Ok h) => Some (v1_len h)
  | V2 (Ok h) => Some (v2_len h)
  | _ => None
  end.

(** [PartialResult] of [ppp]: a result that is not incomplete does not change with more
    input, and a success is complete.  A header is a part of the input it was parsed
    from and begins with the signature of its version. *)
Class PppLaws `{PppLib} := {
  ppp_stable : ∀ b c, is_incomplete (ppp_parse b) = false → ppp_parse (b ++ c) = ppp_parse b;
  ppp_complete : ∀ b n, header_length (ppp_parse b) = Some n → is_incomplete (ppp_parse b) = false;
  ppp_within : ∀ b n, header_length (ppp_parse b) = Some n → n ≤ length b;
  ppp_signature : ∀ b n, header_length (ppp_parse b) = Some n →
    ∃ b', b = "P"%char :: b' ∨ b = "013"%char :: b';
}.

Definition MAX_PROXY_PEEK : Z := 552.
Definition PROXY_TIMEOUT : Z := 5000.

Definition proxy_source (fallback : SocketAddr) {E} (r : HeaderResult E) : option (SocketAddr * nat) :=
  match r with
  | V1 (Ok h) =>
      let addr := match v1_addresses h with
                  | V1Tcp4 a p => mkSocketAddr (V4 a) p
                  | V1Tcp6 a p => mkSocketAddr (V6 a) p
                  | V1Unknown => fallback
                  end in
      Some (addr, v1_len h)
  | V2 (Ok h) =>
      let addr := match v2_command h with
                  | Local => fallback
                  | Proxy =>
                      match v2_addresses h with
                      | V2IPv4 a p => mkSocketAddr (V4 a) p
                      | V2IPv6 a p => mkSocketAddr (V6 a) p
                      | _ => fallback
                      end
                  end in
      Some (addr, v2_len h)
  | V1 (Err _) | V2 (Err _) => None
  end.

Definition proxy_probe `{PppLib} (fallback : SocketAddr) (buf : str) : Probe (SocketAddr * nat) unit :=
  let result := ppp_parse buf in
  if is_incomplete result then NeedMore
  else match proxy_source fallback result with
       | Some found => Done found
       | None => Reject ()
       end.

(** The address, and the offset and time after the header has been drained.  [None]
    is only a loop out of fuel. *)
Definition peek_and_drain_proxy_header `{PppLib} (i : Inbound) (off : nat) (fallback : SocketAddr) (now : Z) :
    option (Peeked (SocketAddr * nat) unit) :=
  match peek_until (proxy_probe fallback) MAX_PROXY_PEEK (now + PROXY_TIMEOUT) i off 32 now with
  | None => None
  | Some r =>
      match pk_value r with
      | Err _ => Some r
      | Ok (real_addr, header_len) =>
          match read_exact i off header_len (pk_at r) with
          | Some (Some t) =>
              if (now + PROXY_TIMEOUT <? t)%Z then Some (mkPeeked (now + PROXY_TIMEOUT) (pk_peeks r) (Err TimedOut))
              else Some (mkPeeked t (pk_peeks r) (Ok (real_addr, off + header_len)))
          | Some None => Some (mkPeeked (pk_at r) (pk_peeks r) (Err Io))
          | None => Some (mkPeeked (now + PROXY_TIMEOUT) (pk_peeks r) (Err TimedOut))
          end
      end
  end.
