(* ===== verification/EdgePeekFacts.v ===== *)
(** * Facts about reading preambles

    A peek loop ends, wakes up a bounded number of times, and sees the same preamble in
    whatever segments it arrives; a PROXY header is taken off the stream and nothing
    else. *)

From S2P Require Import Prelude Net EdgePeek.

(** ** The receive queue *)

Lemma delivered_mono l t t' : (t ≤ t')%Z → delivered l t `prefix_of` delivered l t'.
Proof.
  intros Ht. induction l as [|[a b] l IH]; simpl; [done|]. repeat case_zb; try lia.
  - by apply prefix_app.
  - apply prefix_nil.
  - done.
Qed.

Lemma queue_mono i off t t' : (t ≤ t')%Z → queue i off t `prefix_of` queue i off t'.
Proof.
  intros [k E]%(delivered_mono (segments i)). unfold queue. rewrite E, drop_app. by eexists.
Qed.

Lemma ready_at_le l e off t T :
  (off < length (delivered l T))%nat →
  ∃ t', ready_at l e off t = Some t' ∧ (t ≤ t' ≤ Z.max t T)%Z ∧ (off < length (delivered l t'))%nat.
Proof.
  induction l as [|[a b] l IH] in off, t |- *; simpl; [lia|]. case_zb; simpl; [|lia]. rewrite length_app. intros Hoff.
  destruct (Nat.ltb_spec off (length b)).
  - eexists. split; [done|]. split; [lia|]. case_zb; [|lia]. rewrite length_app. lia.
  - destruct (IH (off - length b)%nat (Z.max t a)) as (t' & -> & Ht' & Hlen); [lia|].
    exists t'. split; [done|]. split; [lia|]. case_zb; [|lia]. rewrite length_app. lia.
Qed.

Lemma ready_at_ge l e off t t' : ready_at l e off t = Some t' → (t ≤ t')%Z.
Proof.
  induction l as [|[a b] l IH] in off, t |- *; simpl.
  - destruct e as [[c ?]|]; [|done]. intros [= <-]. lia.
  - case_match; [intros [= <-]; lia|]. intros ?%IH. lia.
Qed.

(** A peek once a byte is or will be there. *)
Lemma peek_ready i off buf_len now T :
  queue i off T ≠ [] →
  ∃ t, peek i off buf_len now = PeekedAt t (take (Z.to_nat buf_len) (queue i off t)) ∧
    (now ≤ t ≤ Z.max now T)%Z ∧ queue i off t ≠ [].
Proof.
  intros Hq. assert (off < length (delivered (segments i) T))%nat as Hoff.
  { destruct (decide (off < length (delivered (segments i) T))%nat); [done|]. destruct Hq. unfold queue.
    apply drop_ge. lia. }
  destruct (ready_at_le (segments i) (ending i) off now T Hoff) as (t & E & Ht & Hlen). exists t.
  assert (queue i off t ≠ []) as Hne.
  { unfold queue. intros E'. apply (f_equal length) in E'. rewrite length_drop in E'. simpl in E'. lia. }
  split; [|done]. unfold peek. rewrite E. by destruct (queue i off t).
Qed.

(** What a peek returns is the front of the queue at that time. *)
Lemma peek_front i off buf_len now t data :
  peek i off buf_len now = PeekedAt t data → (now ≤ t)%Z ∧ data = take (Z.to_nat buf_len) (queue i off t).
Proof.
  unfold peek. destruct (ready_at _ _ _ _) as [t0|] eqn:E; [|done]. apply ready_at_ge in E.
  destruct (queue i off t0) eqn:Eq; destruct (ending i) as [[? []]|]; intros [= -> <-]; by rewrite ?Eq.
Qed.

Lemma peek_failed_ge i off buf_len now t : peek i off buf_len now = PeekFailed t → (now ≤ t)%Z.
Proof.
  unfold peek. destruct (ready_at _ _ _ _) as [t0|] eqn:E; [|done]. apply ready_at_ge in E.
  repeat case_match; intros [= <-]; done.
Qed.

(** ** The back-off *)

Definition backoff_ok (b : PeekBackoff) : Prop := delay b ∈ [1; 2; 4; 8; 16; 32]%Z.

Lemma backoff_new_ok : backoff_ok PeekBackoff_new.
Proof. left. Qed.

Lemma wait_ok b n : backoff_ok b → backoff_ok (wait b n).2 ∧ (1 ≤ (wait b n).1 ≤ PEEK_POLL_MAX)%Z.
Proof.
  unfold wait, backoff_ok, PEEK_POLL_MAX, PEEK_POLL_MIN. rewrite !elem_of_cons, elem_of_nil. intros Hd.
  destruct (negb _); simpl; [|destruct Hd as [->|[->|[->|[->|[->|[->|[]]]]]]]; simpl; (split; [|lia]); tauto].
  split; [tauto|lia].
Qed.

Section loop.
Context {A E : Type} (probe : str → Probe A E) (cap deadline : Z) (i : Inbound) (off : nat).

Abbreviation loop := (peek_loop probe cap deadline i off).

(** ** Termination *)

(** Enough turns are left for the room of the buffer and the time to the deadline. *)
Lemma peek_loop_total fuel buf_len b now peeks :
  (1 ≤ buf_len ≤ cap)%Z → backoff_ok b → (now ≤ deadline)%Z →
  (cap - buf_len + (deadline - now) < Z.of_nat fuel)%Z →
  ∃ r, loop fuel buf_len b now peeks = Some r ∧ (now ≤ pk_at r ≤ deadline)%Z.
Proof.
  induction fuel as [|fuel IH] in buf_len, b, now, peeks |- *; cbn [peek_loop]; intros Hb Hok Hn Hf; [lia|].
  destruct (peek i off buf_len now) as [|t data|t] eqn:Ep.
  - eexists. split; [done|]. simpl. lia.
  - apply peek_front in Ep as [Ht Hd]. destruct (Z.ltb_spec deadline t); [eexists; split; [done|simpl; lia]|].
    destruct (Z.eqb_spec (Z.of_nat (length data)) 0); [eexists; split; [done|simpl; lia]|].
    destruct (probe data); [|eexists; split; [done|simpl; lia]..].
    destruct (Z.eqb_spec (Z.of_nat (length data)) buf_len).
    + destruct (Z.leb_spec cap buf_len); [eexists; split; [done|simpl; lia]|].
      destruct (IH (Z.min (buf_len * 2) cap) b t (peeks + 1)%Z) as (r & -> & Hr); [lia|done|lia|lia|].
      exists r. split; [done|lia].
    + pose proof (wait_ok b (Z.of_nat (length data)) Hok) as [Hok' Hw]. destruct (wait b _) as [slept b']. simpl in *.
      destruct (Z.ltb_spec deadline (t + slept)); [eexists; split; [done|simpl; lia]|].
      destruct (IH buf_len b' (t + slept)%Z (peeks + 1)%Z) as (r & -> & Hr); [lia|done|lia|lia|].
      exists r. split; [done|lia].
  - apply peek_failed_ge in Ep. destruct (Z.ltb_spec deadline t); eexists; (split; [done|]); simpl; lia.
Qed.

(** ** Fragmentation *)

Section whole.
Context (probe_stable : ∀ d d', probe d ≠ NeedMore → probe (d ++ d') = probe d).
(** By time [T] the queue holds a preamble of [m] bytes the probe decides. *)
Context (T : Z) (m : nat) (verdict : Probe A E).
Context (Hm : (0 < m)%nat ∧ (m ≤ length (queue i off T))%nat ∧ (Z.of_nat m ≤ cap)%Z).
Context (Hv : probe (take m (queue i off T)) = verdict) (Hnm : verdict ≠ NeedMore).
Context (HT : (T + PEEK_POLL_MAX ≤ deadline)%Z).

Lemma prefix_verdict d d' : d `prefix_of` d' → probe d ≠ NeedMore → probe d' ≠ NeedMore → probe d = probe d'.
Proof. intros [k ->] H1 _. by rewrite probe_stable. Qed.

(** What a peek sees is the preamble's front or continues it. *)
Lemma seen_verdict t n :
  probe (take n (queue i off t)) = NeedMore ∧ (length (take n (queue i off t)) < m)%nat ∨
  probe (take n (queue i off t)) = verdict.
Proof.
  set (d := take n (queue i off t)). set (h := take m (queue i off T)) in *.
  assert (d `prefix_of` h ∨ h `prefix_of` d) as Hpre.
  { assert (∃ s, d `prefix_of` s ∧ h `prefix_of` s) as (s & H1 & H2).
    { destruct (Z.le_ge_cases t T).
      - exists (queue i off T). split; [|apply prefix_take]. etrans; [apply prefix_take|by apply queue_mono].
      - exists (queue i off t). split; [apply prefix_take|]. etrans; [apply prefix_take|apply queue_mono; lia]. }
    by eapply prefix_weak_total. }
  destruct (probe d) as [|a|e] eqn:Ed.
  - left. split; [done|]. destruct Hpre as [Hp|[k Hk]].
    + assert (length d ≤ m)%nat by (apply prefix_length in Hp; unfold h in Hp; rewrite length_take in Hp; lia).
      destruct (decide (length d = m)) as [El|]; [|lia]. exfalso. apply Hnm. rewrite <-Hv, <-Ed. f_equal.
      symmetry. apply prefix_length_eq; [done|]. unfold h. rewrite length_take. lia.
    + exfalso. apply Hnm. rewrite <-Hv, <-Ed, Hk, probe_stable; [done|]. by rewrite Hv.
  - right. rewrite <-Hv, <-Ed. destruct Hpre as [Hp|[k Hk]].
    + apply prefix_verdict; [done|by rewrite Ed|by rewrite Hv].
    + rewrite Hk, probe_stable; [done|]. by rewrite Hv.
  - right. rewrite <-Hv, <-Ed. destruct Hpre as [Hp|[k Hk]].
    + apply prefix_verdict; [done|by rewrite Ed|by rewrite Hv].
    + rewrite Hk, probe_stable; [done|]. by rewrite Hv.
Qed.

Definition outcome (p : Probe A E) : result A (PeekError E) :=
  match p with Done a => Ok a | Reject e => Err (Rejected e) | NeedMore => Err TimedOut end.

Lemma peek_loop_whole fuel buf_len b now peeks r :
  (1 ≤ buf_len ≤ cap)%Z → backoff_ok b → (now ≤ T + PEEK_POLL_MAX)%Z →
  loop fuel buf_len b now peeks = Some r → pk_value r = outcome verdict ∧ (pk_at r ≤ T + PEEK_POLL_MAX)%Z.
Proof.
  destruct Hm as (Hm0 & HmT & Hmc).
  induction fuel as [|fuel IH] in buf_len, b, now, peeks |- *; cbn [peek_loop]; intros Hb Hok Hn; [done|].
  assert (queue i off T ≠ []) as Hne by (intros Eq; rewrite Eq in HmT; simpl in HmT; lia).
  destruct (peek_ready i off buf_len now T Hne) as (t & -> & Ht & Hqt). cbv zeta.
  assert (t ≤ T + PEEK_POLL_MAX)%Z by (unfold PEEK_POLL_MAX in *; lia).
  destruct (Z.ltb_spec deadline t); [lia|]. set (d := take (Z.to_nat buf_len) (queue i off t)).
  assert (1 ≤ length d ≤ Z.to_nat buf_len)%nat as Hd.
  { unfold d. rewrite length_take. destruct (queue i off t); [done|simpl; lia]. }
  destruct (Z.eqb_spec (Z.of_nat (length d)) 0); [lia|].
  pose proof (seen_verdict t (Z.to_nat buf_len)) as Hsv. fold d in Hsv. destruct Hsv as [[-> Hlt]| ->].
  - destruct (Z.eqb_spec (Z.of_nat (length d)) buf_len).
    + destruct (Z.leb_spec cap buf_len); [lia|]. apply IH; [lia|done|lia].
    + assert (d = queue i off t) as Edq.
      { unfold d in *. rewrite length_take in *. apply take_ge. lia. }
      assert (t < T)%Z as HtT.
      { destruct (Z.lt_ge_cases t T) as [|Hge]; [done|]. pose proof (prefix_length _ _ (queue_mono i off T t ltac:(lia))).
        rewrite <-Edq in *. lia. }
      pose proof (wait_ok b (Z.of_nat (length d)) Hok) as [Hok' Hw]. destruct (wait b _) as [slept b']. cbn [fst snd] in *.
      destruct (Z.ltb_spec deadline (t + slept)); [lia|]. apply IH; [lia|done|lia].
  - destruct verdict as [|a|e]; [done|..]; intros [= <-]; done.
Qed.

Lemma peek_until_whole buf_len now :
  (1 ≤ buf_len ≤ cap)%Z → (now ≤ T)%Z →
  ∃ r, peek_until probe cap deadline i off buf_len now = Some r ∧ pk_value r = outcome verdict ∧
    (pk_at r ≤ T + PEEK_POLL_MAX)%Z.
Proof.
  intros Hb Hn. unfold PEEK_POLL_MAX in *. unfold peek_until.
  destruct (peek_loop_total (Z.to_nat (cap - buf_len + (deadline - now) + 1)) buf_len PeekBackoff_new now 0)
    as (r & Hr & _); [done|apply backoff_new_ok|lia|lia|].
  exists r. split; [done|]. eapply peek_loop_whole; [done|apply backoff_new_ok| |exact Hr]. unfold PEEK_POLL_MAX. lia.
Qed.

End whole.

(** What a loop returns it has seen at the front of the queue. *)
Lemma peek_loop_sound fuel buf_len b now peeks r a :
  backoff_ok b → loop fuel buf_len b now peeks = Some r → pk_value r = Ok a →
  (now ≤ pk_at r ≤ deadline)%Z ∧ ∃ n, probe (take n (queue i off (pk_at r))) = Done a.
Proof.
  induction fuel as [|fuel IH] in buf_len, b, now, peeks |- *; cbn [peek_loop]; [done|]. intros Hok.
  destruct (peek i off buf_len now) as [|t data|t] eqn:Ep; [by intros [= <-]| |by case_match; intros [= <-]].
  apply peek_front in Ep as [Ht Hd]. destruct (Z.ltb_spec deadline t); [by intros [= <-]|].
  destruct (Z.eqb_spec (Z.of_nat (length data)) 0); [by intros [= <-]|]. destruct (probe data) as [|a'|e] eqn:Epr.
  - destruct (Z.eqb_spec (Z.of_nat (length data)) buf_len).
    + destruct (Z.leb_spec cap buf_len); [by intros [= <-]|]. intros Hl Hv. destruct (IH _ _ _ _ Hok Hl Hv) as [? ?].
      split; [lia|done].
    + pose proof (wait_ok b (Z.of_nat (length data)) Hok) as [Hok' Hw]. destruct (wait b _) as [slept b']. cbn [fst snd] in *.
      destruct (Z.ltb_spec deadline (t + slept)); [by intros [= <-]|]. intros Hl Hv.
      destruct (IH _ _ _ _ Hok' Hl Hv) as [? ?]. split; [lia|done].
  - intros [= <-] [= <-]. split; [simpl; lia|]. exists (Z.to_nat buf_len). simpl. by rewrite <-Hd.
  - by intros [= <-].
Qed.

(** ** Wake-ups *)

(** The segments still to come. *)
Fixpoint pending (l : list (Z * str)) (t : Z) : Z :=
  match l with
  | [] => 0
  | (a, _) :: l' => if (a <=? t)%Z then pending l' t else Z.of_nat (length l)
  end.

Lemma pending_bounds l t : (0 ≤ pending l t ≤ Z.of_nat (length l))%Z.
Proof. induction l as [|[a b] l IH]; simpl; [lia|]. case_zb; lia. Qed.

Lemma pending_mono l t t' :
  (t ≤ t')%Z → (pending l t' < pending l t)%Z ∨ (pending l t' = pending l t ∧ delivered l t' = delivered l t).
Proof.
  intros Ht. induction l as [|[a b] l IH]; simpl; [by right|]. repeat case_zb; try lia.
  - destruct IH as [?|[? ->]]; [by left|by right].
  - left. pose proof (pending_bounds l t'). lia.
  - by right.
Qed.

(** Progress the peer can still make: segments to come, and bytes not yet seen by the
    back-off. *)
Definition progress (last : Z) (t : Z) : Z :=
  pending (segments i) t + (if (last =? Z.of_nat (length (queue i off t)))%Z then 0 else 1).

Lemma progress_mono last t t' : (t ≤ t')%Z → (progress last t' ≤ progress last t)%Z.
Proof.
  intros Ht. unfold progress, queue. destruct (pending_mono (segments i) t t' Ht) as [?|[-> ->]]; [|lia].
  repeat case_zb; lia.
Qed.

Lemma progress_seen n t : n = Z.of_nat (length (queue i off t)) → progress n t = pending (segments i) t.
Proof. intros ->. unfold progress. rewrite Z.eqb_refl. lia. Qed.

(** Doublings left until the delay is at its ceiling. *)
Definition ramp (d : Z) : Z :=
  if (d =? 1)%Z then 5 else if (d =? 2)%Z then 4 else if (d =? 4)%Z then 3 else if (d =? 8)%Z then 2
  else if (d =? 16)%Z then 1 else 0.

Lemma wait_pays b n t :
  backoff_ok b → n = Z.of_nat (length (queue i off t)) →
  (5 * progress (last_n (wait b n).2) (t + (wait b n).1) + ramp (delay (wait b n).2) +
    (deadline - (t + (wait b n).1)) / 32 < 5 * progress (last_n b) t + ramp (delay b) + (deadline - t) / 32)%Z.
Proof.
  intros Hok Hn. unfold wait, PEEK_POLL_MIN, PEEK_POLL_MAX. destruct (Z.eqb_spec n (last_n b)) as [El|El]; simpl.
  - unfold backoff_ok in Hok. rewrite !elem_of_cons, elem_of_nil in Hok. pose proof (progress_mono (last_n b) t).
    assert (∀ d, (0 ≤ d)%Z → (deadline - (t + d)) / 32 ≤ (deadline - t) / 32)%Z as Hdiv
      by (intros; apply Z.div_le_mono; lia).
    destruct Hok as [E1|[E1|[E1|[E1|[E1|[E1|[]]]]]]]; rewrite E1.
    1-5: specialize (H (t + delay b)%Z ltac:(lia)); specialize (Hdiv (delay b) ltac:(lia)); rewrite E1 in H, Hdiv;
      unfold ramp; simpl; lia.
    assert ((deadline - (t + 32)) / 32 = (deadline - t) / 32 - 1)%Z as ->.
    { replace (deadline - (t + 32))%Z with (deadline - t + (-1) * 32)%Z by lia. rewrite Z.div_add by lia. lia. }
    specialize (H (t + 32)%Z ltac:(lia)). unfold ramp. simpl. lia.
  - pose proof (progress_mono n t (t + 1) ltac:(lia)) as Hp. rewrite (progress_seen n t Hn) in Hp.
    assert (progress (last_n b) t = pending (segments i) t + 1)%Z as ->.
    { unfold progress. destruct (Z.eqb_spec (last_n b) (Z.of_nat (length (queue i off t)))); [congruence|done]. }
    assert ((deadline - (t + 1)) / 32 ≤ (deadline - t) / 32)%Z by (apply Z.div_le_mono; lia).
    assert (0 ≤ ramp (delay b))%Z by (unfold ramp; repeat case_zb; lia). unfold ramp in *. simpl. lia.
Qed.

Lemma peek_loop_wakeups fuel g buf_len b now peeks r :
  (1 ≤ buf_len ≤ cap)%Z → (cap ≤ buf_len * 2 ^ Z.of_nat g)%Z → backoff_ok b → (now ≤ deadline)%Z →
  loop fuel buf_len b now peeks = Some r →
  (pk_peeks r ≤ peeks + 1 + Z.of_nat g + 5 * progress (last_n b) now + ramp (delay b) + (deadline - now) / 32)%Z.
Proof.
  assert (∀ last t, 0 ≤ progress last t)%Z as Hpr.
  { intros last t. unfold progress. pose proof (pending_bounds (segments i) t). case_zb; lia. }
  assert (∀ d, 0 ≤ ramp d)%Z as Hra by (intros; unfold ramp; repeat case_zb; lia).
  induction fuel as [|fuel IH] in g, buf_len, b, now, peeks |- *; cbn [peek_loop]; intros Hb Hg Hok Hn; [done|].
  assert (∀ t, t ≤ deadline → 0 ≤ (deadline - t) / 32)%Z as Hdv by (intros; apply Z.div_pos; lia).
  assert (∀ v t, Some (mkPeeked t (peeks + 1)%Z v) = Some r →
    (pk_peeks r ≤ peeks + 1 + Z.of_nat g + 5 * progress (last_n b) now + ramp (delay b) + (deadline - now) / 32)%Z) as Hend.
  { intros v t [= <-]. simpl. specialize (Hpr (last_n b) now). specialize (Hra (delay b)). specialize (Hdv now Hn). lia. }
  destruct (peek i off buf_len now) as [|t data|t] eqn:Ep; [apply Hend| |case_match; apply Hend].
  apply peek_front in Ep as [Ht Hd]. destruct (Z.ltb_spec deadline t); [apply Hend|].
  destruct (Z.eqb_spec (Z.of_nat (length data)) 0); [apply Hend|]. destruct (probe data); [|apply Hend..].
  pose proof (progress_mono (last_n b) now t Ht) as Hpm.
  assert ((deadline - t) / 32 ≤ (deadline - now) / 32)%Z by (apply Z.div_le_mono; lia).
  destruct (Z.eqb_spec (Z.of_nat (length data)) buf_len).
  - destruct (Z.leb_spec cap buf_len) as [|Hlt]; [apply Hend|]. intros Hl. destruct g as [|g]; [simpl in Hg; lia|].
    rewrite Nat2Z.inj_succ, Z.pow_succ_r in Hg by lia.
    eapply (IH g) in Hl; [lia|lia| |done|done]. pose proof (Z.pow_pos_nonneg 2 (Z.of_nat g) ltac:(lia) ltac:(lia)).
    destruct (Z.min_spec (buf_len * 2) cap) as [[? ->]|[? ->]]; nia.
  - assert (Z.of_nat (length data) = Z.of_nat (length (queue i off t))) as Hfull.
    { rewrite Hd in *. rewrite length_take in *. lia. }
    pose proof (wait_ok b (Z.of_nat (length data)) Hok) as [Hok' _].
    pose proof (wait_pays b (Z.of_nat (length data)) t Hok Hfull) as Hpay.
    destruct (wait b _) as [slept b']. cbn [fst snd] in *.
    destruct (Z.ltb_spec deadline (t + slept)); [apply Hend|]. intros Hl.
    eapply (IH g) in Hl; [lia|done..].
Qed.

Lemma progress_start now : (progress 0 now ≤ Z.of_nat (length (segments i)))%Z.
Proof.
  unfold progress, queue. pose proof (pending_bounds (segments i) now) as Hb.
  destruct (segments i) as [|[a b] l]; cbn [pending delivered length] in *; [by rewrite drop_nil|].
  destruct (Z.leb_spec a now); [|rewrite drop_nil; simpl; lia].
  pose proof (pending_bounds l now). case_zb; lia.
Qed.

(** A peek loop ends by its deadline, and a peer cannot make it wake up often: at
    most once for each doubling of the buffer, five times for each segment it sends, and
    once every 32 milliseconds. *)
Theorem peek_wakeups_bounded (g : nat) (buf_len now : Z) :
  (1 ≤ buf_len ≤ cap)%Z → (cap ≤ buf_len * 2 ^ Z.of_nat g)%Z → (now ≤ deadline)%Z →
  ∃ r, peek_until probe cap deadline i off buf_len now = Some r ∧ (now ≤ pk_at r ≤ deadline)%Z ∧
    (pk_peeks r ≤ 6 + Z.of_nat g + 5 * Z.of_nat (length (segments i)) + (deadline - now) / PEEK_POLL_MAX)%Z.
Proof.
  intros Hb Hg Hn. unfold peek_until.
  destruct (peek_loop_total (Z.to_nat (cap - buf_len + (deadline - now) + 1)) buf_len PeekBackoff_new now 0)
    as (r & Hr & Hat); [done|apply backoff_new_ok|done|lia|].
  exists r. split; [done|]. split; [done|]. apply (peek_loop_wakeups _ g) in Hr; [|done|done|apply backoff_new_ok|done].
  pose proof (progress_start now). simpl in Hr. unfold ramp in Hr. simpl in Hr. unfold PEEK_POLL_MAX. lia.
Qed.

End loop.

(** ** PROXY headers *)

Section proxy.
Context `{PppLaws}.

Lemma proxy_source_length fallback b addr n :
  proxy_source fallback (ppp_parse b) = Some (addr, n) → header_length (ppp_parse b) = Some n.
Proof. unfold proxy_source, header_length. by destruct (ppp_parse b) as [[]|[]]; intros [= _ <-]. Qed.

Lemma length_proxy_source fallback b n :
  header_length (ppp_parse b) = Some n → ∃ addr, proxy_source fallback (ppp_parse b) = Some (addr, n).
Proof. unfold proxy_source, header_length. destruct (ppp_parse b) as [[]|[]]; intros [= <-]; by eexists. Qed.

Lemma proxy_probe_stable fallback d d' :
  proxy_probe fallback d ≠ NeedMore → proxy_probe fallback (d ++ d') = proxy_probe fallback d.
Proof.
  unfold proxy_probe. destruct (is_incomplete (ppp_parse d)) eqn:E; [done|]. intros _. by rewrite ppp_stable, E.
Qed.

Lemma proxy_probe_done fallback d addr n :
  proxy_probe fallback d = Done (addr, n) ↔ proxy_source fallback (ppp_parse d) = Some (addr, n).
Proof.
  unfold proxy_probe. split.
  - destruct (is_incomplete _); [done|]. destruct (proxy_source _ _); [by intros [= ->]|done].
  - intros E. rewrite (ppp_complete d n) by by eapply proxy_source_length. by rewrite E.
Qed.

Lemma read_exact_there i off len t :
  (len ≤ length (queue i off t))%nat → read_exact i off len t = Some (Some t).
Proof.
  intros Hl. unfold read_exact. destruct len as [|len]; [done|]. unfold queue in Hl. rewrite length_drop in Hl.
  destruct (ready_at_le (segments i) (ending i) (off + len) t t) as (t' & -> & Ht' & _); [lia|].
  assert (t' = t) as -> by lia. unfold queue. rewrite length_drop. destruct (Nat.leb_spec (S len) (length (delivered (segments i) t) - off)); [done|lia].
Qed.

(** The header a read drains is what the front of the queue parses to. *)
Lemma proxy_header_sound i off fallback now r addr off' :
  peek_and_drain_proxy_header i off fallback now = Some r → pk_value r = Ok (addr, off') →
  (now ≤ pk_at r ≤ now + PROXY_TIMEOUT)%Z ∧
  ∃ n k, proxy_source fallback (ppp_parse (take k (queue i off (pk_at r)))) = Some (addr, n) ∧
    off' = (off + n)%nat ∧ (n ≤ length (queue i off (pk_at r)))%nat.
Proof.
  unfold peek_and_drain_proxy_header, peek_until. destruct (peek_loop _ _ _ _ _ _ _ _ _ _) as [r0|] eqn:El; [|done].
  destruct (pk_value r0) as [[addr0 n]|] eqn:Ev; [|intros [= <-]; congruence].
  destruct (peek_loop_sound _ _ _ _ _ _ _ _ _ _ _ _ backoff_new_ok El Ev) as (Hat & k & Hp). apply proxy_probe_done in Hp.
  assert (n ≤ length (queue i off (pk_at r0)))%nat as Hn.
  { pose proof (ppp_within _ _ (proxy_source_length _ _ _ _ Hp)) as Hw. rewrite length_take in Hw. lia. }
  rewrite read_exact_there by done. destruct (Z.ltb_spec (now + PROXY_TIMEOUT) (pk_at r0)); [lia|].
  intros [= <-] [= <- <-]. simpl. split; [done|]. by exists n, k.
Qed.

(** A PROXY header is read the same in whatever segments it arrives: if its bytes
    are at the front of the queue by some time that leaves one poll before the timeout,
    the source it names is returned at most one poll later, and exactly its bytes are
    taken off the stream, so that what follows is next in the queue. *)
Lemma proxy_header_fragmented (i : Inbound) (off : nat) (fallback : SocketAddr) (now T : Z) (hb payload : str) :
  queue i off T = hb ++ payload → header_length (ppp_parse hb) = Some (length hb) →
  (Z.of_nat (length hb) ≤ MAX_PROXY_PEEK)%Z → (now ≤ T)%Z → (T + PEEK_POLL_MAX ≤ now + PROXY_TIMEOUT)%Z →
  ∃ r addr, peek_and_drain_proxy_header i off fallback now = Some r ∧ (pk_at r ≤ T + PEEK_POLL_MAX)%Z ∧
    proxy_source fallback (ppp_parse hb) = Some (addr, length hb) ∧
    pk_value r = Ok (addr, (off + length hb)%nat) ∧
    queue i (off + length hb) T = payload.
Proof.
  intros Hq Hh Hcap Hnow HT. destruct (length_proxy_source fallback hb _ Hh) as [addr Hs].
  assert (0 < length hb)%nat as Hpos by (destruct (ppp_signature hb _ Hh) as (b' & [-> | ->]); simpl; lia).
  destruct (peek_until_whole (proxy_probe fallback) MAX_PROXY_PEEK (now + PROXY_TIMEOUT) i off
    (proxy_probe_stable fallback) T (length hb) (Done (addr, length hb))) with (buf_len := 32%Z) (now := now)
    as (r & Hr & Hv & Hle); try done.
  { rewrite Hq, length_app. lia. }
  { rewrite Hq, take_app_length. by apply proxy_probe_done. }
  pose proof Hr as Hr'. unfold peek_until in Hr'.
  destruct (peek_loop_sound _ _ _ _ _ _ _ _ _ _ r _ backoff_new_ok Hr' Hv) as (Hat & k & Hp%proxy_probe_done).
  assert (length hb ≤ length (queue i off (pk_at r)))%nat as Hn.
  { pose proof (ppp_within _ _ (proxy_source_length _ _ _ _ Hp)) as Hw. rewrite length_take in Hw. lia. }
  eexists (mkPeeked (pk_at r) (pk_peeks r) (Ok (addr, (off + length hb)%nat))), addr.
  split; [|split; [done|split; [done|split; [done|]]]].
  - unfold peek_and_drain_proxy_header. rewrite Hr, Hv. cbn [outcome]. rewrite read_exact_there by done.
    destruct (Z.ltb_spec (now + PROXY_TIMEOUT) (pk_at r)); [lia|done].
  - unfold queue in *. rewrite <-drop_drop, Hq. apply drop_app_length.
Qed.

End proxy.

(** ** Server names *)

Section sni.
Context `{TlsParserLaws}.

Lemma extensions_walk_ends fuel ext : (length ext ≤ fuel)%nat → ∃ r, sni_of_extensions fuel ext = Some r.
Proof.
  induction fuel as [|fuel IH] in ext |- *; intros Hl; destruct ext as [|c ext]; simpl in Hl; try lia; [by eexists..|].
  cbn [sni_of_extensions]. destruct (parse_tls_extension (c :: ext)) as [[rest e]| |] eqn:Ep; [|by eexists..].
  apply extension_consumes in Ep. simpl in Ep. destruct e as [[|[ty name] names]|]; [apply IH; lia| |apply IH; lia].
  destruct (utf8_valid name); by eexists.
Qed.

Lemma client_hello_sni_ends buf : ∃ r, client_hello_sni buf = Some r.
Proof.
  unfold client_hello_sni. destruct buf as [|b buf]; [by eexists|]. destruct (negb _); [by eexists|].
  destruct (parse_tls_plaintext _) as [msgs| |]; [|by eexists..]. destruct (first_client_hello msgs) as [[ext|]|];
    [|by eexists..]. by apply extensions_walk_ends.
Qed.

Lemma client_hello_stable d d' :
  client_hello_sni d ≠ Some (Ok Incomplete) → client_hello_sni (d ++ d') = client_hello_sni d.
Proof.
  unfold client_hello_sni. destruct d as [|b d]; [done|]. cbn [app]. destruct (negb _); [done|].
  destruct (parse_tls_plaintext (b :: d)) as [msgs| |] eqn:Ep; intros Hn; [|done|].
  - change (b :: d ++ d') with ((b :: d) ++ d'). by rewrite plaintext_stable, Ep by by rewrite Ep.
  - change (b :: d ++ d') with ((b :: d) ++ d'). by rewrite plaintext_stable, Ep by by rewrite Ep.
Qed.

Lemma sni_probe_stable d d' : sni_probe d ≠ NeedMore → sni_probe (d ++ d') = sni_probe d.
Proof.
  unfold sni_probe. intros Hn. rewrite client_hello_stable; [done|]. intros E. by rewrite E in Hn.
Qed.

(** The server name of a ClientHello is read the same in whatever segments it
    arrives, within the peek limit, and nothing is taken off the stream. *)
Lemma sni_fragmented (i : Inbound) (off : nat) (now T : Z) (hello rest : str) (sni : option str) :
  queue i off T = hello ++ rest →
  client_hello_sni hello = Some (Ok match sni with Some h => Found h | None => NoSni end) →
  (Z.of_nat (length hello) ≤ MAX_PEEK)%Z → (now ≤ T)%Z → (T + PEEK_POLL_MAX ≤ now + PEEK_TIMEOUT)%Z →
  ∃ r, peek_sni i off now = Some r ∧ (pk_at r ≤ T + PEEK_POLL_MAX)%Z ∧ pk_value r = Ok (Some sni).
Proof.
  intros Hq Hh Hcap Hnow HT. assert (0 < length hello)%nat as Hpos by (destruct hello; [by destruct sni|simpl; lia]).
  assert (sni_probe hello = Done (Some sni)) as Hp by (unfold sni_probe; rewrite Hh; by destruct sni).
  apply (peek_until_whole sni_probe MAX_PEEK (now + PEEK_TIMEOUT) i off sni_probe_stable T (length hello)
    (Done (Some sni))) with (buf_len := 512%Z) (now := now) in Hnow as (r & ? & ? & ?); try done; [by exists r|..].
  - rewrite Hq, length_app. lia.
  - by rewrite Hq, take_app_length.
Qed.

End sni.

(** ** Witnesses *)

(** Version 2 of the PROXY protocol for IPv4, and records and extensions of TLS whose
    ClientHello is its extensions. *)
Module PeekDemo.

Definition byte (c : ascii) : Z := Z.of_N (N_of_ascii c).
Definition be (s : str) : Z := foldl (λ acc c, acc * 256 + byte c)%Z 0%Z s.

Definition v2_signature : str :=
  ["013"; "010"; "013"; "010"; "000"; "013"; "010"; "Q"; "U"; "I"; "T"; "010"]%char.

Definition v2_fields (rest : str) : HeaderResult bool :=
  match rest with
  | cmd :: fam :: l1 :: l0 :: body =>
      let n := Z.to_nat (be [l1; l0]) in
      if Nat.leb n (length body) then
        V2 (Ok (mkV2Header (if cmd =c " "%char then Local else Proxy)
          (if (fam =c "017"%char) && Nat.leb 12 n then V2IPv4 (be (take 4 body)) (be (take 2 (drop 8 body)))
           else V2Unspecified) (16 + n)))
      else V2 (Err true)
  | _ => V2 (Err true)
  end.

Definition v2_parse (b : str) : HeaderResult bool :=
  match strip_prefix v2_signature b with
  | Some rest => v2_fields rest
  | None => V2 (Err (starts_with b v2_signature))
  end.

Definition ppp : PppLib :=
  {| ppp_error := bool; ppp_parse := v2_parse;
     is_incomplete := λ r, match r with V1 (Err b) | V2 (Err b) => b | _ => false end |}.

Lemma v2_fields_stable rest c :
  v2_fields rest ≠ V2 (Err true) → v2_fields (rest ++ c) = v2_fields rest.
Proof.
  destruct rest as [|cmd [|fam [|l1 [|l0 body]]]]; try done. cbn [app v2_fields].
  destruct (Nat.leb_spec (Z.to_nat (be [l1; l0])) (length body)) as [Hn|]; [|done]. intros _.
  rewrite length_app. destruct (Nat.leb_spec (Z.to_nat (be [l1; l0])) (length body + length c)); [|lia].
  destruct (Nat.leb_spec 12 (Z.to_nat (be [l1; l0]))); [|by rewrite !andb_false_r].
  rewrite take_app_le by lia. rewrite drop_app_le by lia. rewrite take_app_le; [done|]. rewrite length_drop. lia.
Qed.

Lemma v2_fields_length rest n : header_length (v2_fields rest) = Some n → (n ≤ 12 + length rest)%nat.
Proof.
  destruct rest as [|cmd [|fam [|l1 [|l0 body]]]]; try done. cbn [v2_fields].
  destruct (Nat.leb_spec (Z.to_nat (be [l1; l0])) (length body)); [|done]. intros [= <-]. simpl. lia.
Qed.

Definition ppp_laws : @PppLaws ppp.
Proof.
  split; simpl.
  - intros b c. unfold v2_parse. destruct (strip_prefix v2_signature b) as [rest|] eqn:Es.
    + apply strip_prefix_Some in Es as ->. rewrite <-app_assoc.
      rewrite (proj2 (strip_prefix_Some v2_signature (v2_signature ++ rest ++ c) (rest ++ c))) by done.
      intros Hi. apply v2_fields_stable. intros E. by rewrite E in Hi.
    + destruct (starts_with b v2_signature) eqn:Eb; [done|]. intros _.
      assert (¬ b `prefix_of` v2_signature ∧ ¬ v2_signature `prefix_of` b) as [N1 N2].
      { split; [|intros [k E]; by apply (proj1 (strip_prefix_None _ _) Es k)].
        intros [k E]. assert (starts_with b v2_signature = true) by (apply starts_with_true; by exists k). congruence. }
      destruct (strip_prefix v2_signature (b ++ c)) as [rest|] eqn:Es'.
      * apply strip_prefix_Some in Es'. exfalso.
        destruct (prefix_weak_total b v2_signature (b ++ c)); [by eexists|by exists rest|done..].
      * do 2 f_equal. destruct (starts_with (b ++ c) v2_signature) eqn:E; [|done]. exfalso.
        apply starts_with_true in E as [k E]. apply N1. exists (c ++ k). by rewrite E, app_assoc.
  - intros b n. unfold v2_parse. destruct (strip_prefix v2_signature b) as [rest|]; [|done].
    by destruct (v2_fields rest) as [[]|[]].
  - intros b n. unfold v2_parse. destruct (strip_prefix v2_signature b) as [rest|] eqn:Es; [|done].
    apply strip_prefix_Some in Es as ->. intros Hn%v2_fields_length. rewrite length_app. simpl. lia.
  - intros b n. unfold v2_parse. destruct (strip_prefix v2_signature b) as [rest|] eqn:Es; [|done].
    apply strip_prefix_Some in Es as ->. intros _. by eexists; right.
Qed.

Definition plaintext (b : str) : NomResult (list TlsMessage) :=
  match b with
  | _ :: _ :: _ :: l1 :: l0 :: body =>
      let n := Z.to_nat (be [l1; l0]) in
      if Nat.leb n (length body) then NomOk [ClientHello (Some (take n body))] else NomIncomplete
  | _ => NomIncomplete
  end.

Definition extension (b : str) : NomResult (str * TlsExtension) :=
  match b with
  | t1 :: t0 :: l1 :: l0 :: body =>
      let n := Z.to_nat (be [l1; l0]) in
      if Nat.leb n (length body) then
        NomOk (drop n body, if (be [t1; t0] =? 0)%Z then SNI [(0%Z, take n body)] else OtherExtension)
      else NomIncomplete
  | _ => NomIncomplete
  end.

Definition tls : TlsParser := {| parse_tls_plaintext := plaintext; parse_tls_extension := extension |}.

Definition tls_laws : @TlsParserLaws tls.
Proof.
  split; simpl.
  - intros b c. destruct b as [|? [|? [|? [|l1 [|l0 body]]]]]; try done. cbn [app plaintext].
    destruct (Nat.leb_spec (Z.to_nat (be [l1; l0])) (length body)) as [Hn|]; [|done]. intros _.
    rewrite length_app. destruct (Nat.leb_spec (Z.to_nat (be [l1; l0])) (length body + length c)); [|lia].
    by rewrite take_app_le.
  - intros b rest e. destruct b as [|t1 [|t0 [|l1 [|l0 body]]]]; try done. cbn [extension].
    destruct (Nat.leb_spec (Z.to_nat (be [l1; l0])) (length body)); [|done]. intros [= <- _].
    rewrite length_drop. simpl. lia.
Qed.

(** A header from 10.0.0.7:8080 and a ClientHello for [A.example], cut in three. *)
Definition header : str :=
  v2_signature ++ ["!"; "017"; "000"; "012"; "010"; "000"; "000"; "007"; "010"; "000"; "000"; "001";
    "031"; "144"; "001"; "187"]%char.
Definition hello : str := ["022"; "003"; "001"; "000"; "013"; "000"; "000"; "000"; "009"]%char ++ lit "A.example".
Definition client : Inbound :=
  mkInbound [(3%Z, take 5 header); (40%Z, drop 5 header ++ take 4 hello); (90%Z, drop 4 hello)] None.
Definition balancer : SocketAddr := mkSocketAddr (V4 1) 4000.
End PeekDemo.
Import PeekDemo.

Lemma peek_wakeups_bounded_witness :
  ∃ r, peek_until (@proxy_probe ppp balancer) MAX_PROXY_PEEK PROXY_TIMEOUT client 0 32 0 = Some r ∧
    (0 ≤ pk_at r ≤ PROXY_TIMEOUT)%Z ∧ (pk_peeks r ≤ 6 + 5 + 5 * 3 + (PROXY_TIMEOUT - 0) / PEEK_POLL_MAX)%Z.
Proof.
  apply (peek_wakeups_bounded (@proxy_probe ppp balancer) MAX_PROXY_PEEK PROXY_TIMEOUT client 0 5 32 0);
    unfold MAX_PROXY_PEEK, PROXY_TIMEOUT; simpl; lia.
Defined.
