(* ===== verification/ListenerMerge.v ===== *)
(** * The listeners of a Gateway

    Models [crates/coxswain-reflector/src/reconciler/listener_merge.rs]: the effective
    listeners of each owned Gateway, its own and those of the ListenerSets it admits, in
    order of precedence, with the port conflicts among them, and the Service ports of
    the programmed ones.  The two generated listener types have the same fields and are
    one record here, as are their selectors. *)

From S2P Require Import Prelude Backend HostRouter ResourceKey Bindings.

Notation ObjectKey := (str * str)%type.

(** ** Kubernetes objects *)

Record MatchExpression := mkExpr {
  me_key : str;
  me_operator : str;
  me_values : option (list str);
}.

Record LabelSelector := mkLabelSelector {
  match_labels : option (gmap str str);
  match_expressions : option (list MatchExpression);
}.

Record Namespace := mkNamespace {
  ns_name : option str;
  ns_labels : option (gmap str str);
}.

Inductive NamespacesFrom := FromNone | FromAll | FromSame | FromSelector.

(** [allowedListeners.namespaces] and [allowedRoutes.namespaces]; the latter have no
    [None]. *)
Record FromNamespaces := mkFromNamespaces {
  fn_from : option NamespacesFrom;
  fn_selector : option LabelSelector;
}.

Record CertRef := mkCertRef {
  cr_group : option str;
  cr_kind : option str;
  cr_name : str;
  cr_namespace : option str;
}.

Inductive TlsMode := TerminateMode | PassthroughMode.

Record SpecTls := mkSpecTls {
  tls_mode : option TlsMode;
  spec_certificate_refs : option (list CertRef);
}.

Record AllowedRoutes := mkAllowedRoutes {
  ar_namespaces : option FromNamespaces;
  ar_kinds : option (list (option str * str));
}.

Record SpecListener := mkSpecListener {
  sl_name : str;
  sl_port : Z;
  sl_protocol : str;
  sl_hostname : option str;
  sl_tls : option SpecTls;
  sl_allowed_routes : option AllowedRoutes;
}.

Record Gateway := mkGateway {
  g_namespace : option str;
  g_name : option str;
  gateway_class_name : str;
  g_listeners : list SpecListener;
  (* [spec.allowedListeners], whose [namespaces] may be absent. *)
  allowed_listeners : option (option FromNamespaces);
}.

Record ListenerSet := mkListenerSet {
  ls_namespace : option str;
  ls_name : option str;
  creation_timestamp : option Z;
  parent_name : str;
  parent_namespace : option str;
  ls_listeners : list SpecListener;
}.

(** ** Effective listeners *)

Inductive ConflictReason := NoConflict | HostnameConflict | ProtocolConflict.

#[export] Instance ConflictReason_eq_dec : EqDecision ConflictReason.
Proof. solve_decision. Defined.

Definition is_conflicted (c : ConflictReason) : bool :=
  match c with NoConflict => false | _ => true end.

Record EffectiveTls := mkEffectiveTls {
  passthrough : bool;
  certificate_refs : list CertRef;
}.

Record EffectiveListener := mkEffective {
  el_source : ListenerSource;
  owning_namespace : str;
  el_name : str;
  el_port : Z;
  el_protocol : str;
  el_hostname : option str;
  el_tls : option EffectiveTls;
  el_route_namespaces : RouteNamespaceSet;
  allowed_route_kinds : list (option str * str);
  el_conflict : ConflictReason;
}.

Definition set_conflict (c : ConflictReason) (l : EffectiveListener) : EffectiveListener :=
  mkEffective (el_source l) (owning_namespace l) (el_name l) (el_port l) (el_protocol l) (el_hostname l)
    (el_tls l) (el_route_namespaces l) (allowed_route_kinds l) c.

Record EffectiveGateway := mkEffectiveGateway {
  eg_gateway : Gateway;
  eg_listeners : list EffectiveListener;
}.

(** ** Selectors *)

(** [NamespaceView::labels]; a later namespace of the same name replaces an earlier. *)
Definition namespace_labels (snapshot : list Namespace) (name : str) : gmap str str :=
  default ∅ (find_first (λ ns, bool_decide (ns_name ns = Some name)) (reverse snapshot) ≫= ns_labels).

Definition expression_matches (labels : gmap str str) (e : MatchExpression) : bool :=
  let present := labels !! me_key e in
  let values := default [] (me_values e) in
  if bool_decide (me_operator e = lit "In") then
    match present with Some v => bool_decide (v ∈ values) | None => false end
  else if bool_decide (me_operator e = lit "NotIn") then
    match present with Some v => negb (bool_decide (v ∈ values)) | None => true end
  else if bool_decide (me_operator e = lit "Exists") then bool_decide (is_Some present)
  else if bool_decide (me_operator e = lit "DoesNotExist") then bool_decide (present = None)
  else false.

Definition labels_match_selector (sel_labels : option (gmap str str)) (exprs : list MatchExpression)
    (labels : gmap str str) : bool :=
  match sel_labels with
  | Some ml => bool_decide (map_Forall (λ k v, labels !! k = Some v) ml)
  | None => true
  end && forallb (expression_matches labels) exprs.

Definition selector_matches (s : LabelSelector) (labels : gmap str str) : bool :=
  labels_match_selector (match_labels s) (default [] (match_expressions s)) labels.

Definition listener_set_allowed (parent : Gateway) (ls_ns : str) (namespaces : list Namespace) : bool :=
  let cfg := al ← allowed_listeners parent; al in
  match cfg ≫= fn_from with
  | None | Some FromNone => false
  | Some FromAll => true
  | Some FromSame => bool_decide (g_namespace parent = Some ls_ns)
  | Some FromSelector =>
      match cfg ≫= fn_selector with
      | None => false
      | Some selector => selector_matches selector (namespace_labels namespaces ls_ns)
      end
  end.

(** [gw_route_namespaces] and [ls_route_namespaces] with [resolve_route_namespaces]; an
    absent selector is one without terms. *)
Definition resolve_route_namespaces (l : SpecListener) (owning_ns : str) (namespaces : list Namespace) :
    RouteNamespaceSet :=
  let cfg := sl_allowed_routes l ≫= ar_namespaces in
  let selector := cfg ≫= fn_selector in
  match cfg ≫= fn_from with
  | Some FromAll => AllNamespaces
  | Some FromSelector =>
      OnlyNamespaces (list_to_set (omap (λ ns,
        if labels_match_selector (selector ≫= match_labels) (default [] (selector ≫= match_expressions))
             (default ∅ (ns_labels ns))
        then ns_name ns else None) namespaces))
  | _ => OnlyNamespaces {[owning_ns]}
  end.

(** [from_gateway_listener] and [from_listenerset_listener] *)
Definition from_listener (source : ListenerSource) (ns : str) (namespaces : list Namespace) (l : SpecListener) :
    EffectiveListener :=
  mkEffective source ns (sl_name l) (sl_port l) (sl_protocol l) (sl_hostname l)
    ((λ t, mkEffectiveTls (match tls_mode t with Some PassthroughMode => true | _ => false end)
             (default [] (spec_certificate_refs t))) <$> sl_tls l)
    (resolve_route_namespaces l ns namespaces)
    (default [] (sl_allowed_routes l ≫= ar_kinds)) NoConflict.

(** ** Conflicts *)

Definition el_host (l : EffectiveListener) : str := default [] (el_hostname l).

(** One step of [flag_conflicts]; [entry] is what has been claimed on the port. *)
Definition flag_one (claimed : gmap Z (list (str * str))) (l : EffectiveListener) :
    gmap Z (list (str * str)) * EffectiveListener :=
  let entry := default [] (claimed !! el_port l) in
  if forallb (λ c, bool_decide (c.1 = el_protocol l) && negb (bool_decide (c.2 = el_host l))) entry then
    (<[el_port l := entry ++ [(el_protocol l, el_host l)]]> claimed, l)
  else
    (<[el_port l := entry]> claimed,
     set_conflict (if existsb (λ c, negb (bool_decide (c.1 = el_protocol l))) entry
                   then ProtocolConflict else HostnameConflict) l).

Fixpoint flag_from (claimed : gmap Z (list (str * str))) (ls : list EffectiveListener) : list EffectiveListener :=
  match ls with
  | [] => []
  | l :: ls' => let '(claimed', l') := flag_one claimed l in l' :: flag_from claimed' ls'
  end.

Definition flag_conflicts (listeners : list EffectiveListener) : list EffectiveListener := flag_from ∅ listeners.

(** ** The merge *)

Definition parent_key (ls : ListenerSet) (ls_ns : str) : ObjectKey :=
  (default ls_ns (parent_namespace ls), parent_name ls).
Definition ls_object_key (ls : ListenerSet) : ObjectKey :=
  (default [] (ls_namespace ls), default [] (ls_name ls)).
Definition ls_key (ls : ListenerSet) : str := object_key_display (ls_object_key ls).

(** [Option<Time>] orders [None] first. *)
Definition timestamp_ltb (a b : option Z) : bool :=
  match a, b with
  | Some a, Some b => (a <? b)%Z
  | None, Some _ => true
  | _, None => false
  end.

(** The order of [sort_by_cached_key]. *)
Definition ls_leb (a b : ListenerSet) : bool :=
  if timestamp_ltb (creation_timestamp a) (creation_timestamp b) then true
  else if timestamp_ltb (creation_timestamp b) (creation_timestamp a) then false
  else str_leb (ls_key a) (ls_key b).

Section merge.
Context `{HashIter} (owned_gateway_classes : gset str) (namespaces : list Namespace).

(** Step 1: the owned Gateways with their own listeners. *)
Definition seed_gateway (eff : gmap ObjectKey EffectiveGateway) (gw : Gateway) : gmap ObjectKey EffectiveGateway :=
  if negb (bool_decide (gateway_class_name gw ∈ owned_gateway_classes)) then eff
  else match g_namespace gw, g_name gw with
       | Some ns, Some name =>
           <[(ns, name) := mkEffectiveGateway gw (from_listener SrcGateway ns namespaces <$> g_listeners gw)]> eff
       | _, _ => eff
       end.

(** Step 2: the admitted ListenerSets of each parent. *)
Definition admit_set (eff : gmap ObjectKey EffectiveGateway) (by_parent : gmap ObjectKey (list ListenerSet))
    (ls : ListenerSet) : gmap ObjectKey (list ListenerSet) :=
  match ls_namespace ls, ls_name ls with
  | Some ls_ns, Some _ =>
      let parent := parent_key ls ls_ns in
      match eff !! parent with
      | None => by_parent
      | Some parent_gw =>
          if negb (listener_set_allowed (eg_gateway parent_gw) ls_ns namespaces) then by_parent
          else <[parent := default [] (by_parent !! parent) ++ [ls]]> by_parent
      end
  | _, _ => by_parent
  end.

Definition set_listeners (ls : ListenerSet) : list EffectiveListener :=
  let key := ls_object_key ls in
  from_listener (SrcListenerSet key.1 key.2) (default [] (ls_namespace ls)) namespaces <$> ls_listeners ls.

(** Step 3: their listeners after the parent's own. *)
Definition append_sets (eff : gmap ObjectKey EffectiveGateway) (e : ObjectKey * list ListenerSet) :
    gmap ObjectKey EffectiveGateway :=
  let sets := sort_by ls_leb e.2 in
  match eff !! e.1 with
  | None => eff
  | Some g => <[e.1 := mkEffectiveGateway (eg_gateway g) (eg_listeners g ++ (sets ≫= set_listeners))]> eff
  end.

Definition merge_effective_gateways (gateways : list Gateway) (listener_sets : list ListenerSet) :
    gmap ObjectKey EffectiveGateway :=
  let effective := foldl seed_gateway ∅ gateways in
  let by_parent := foldl (admit_set effective) ∅ listener_sets in
  let effective := foldl append_sets effective (hash_iter by_parent) in
  (λ g, mkEffectiveGateway (eg_gateway g) (flag_conflicts (eg_listeners g))) <$> effective.

End merge.

(** ** Service ports *)

Record EffectiveListenerPort := mkPort {
  elp_name : str;
  elp_port : Z;
  elp_protocol : str;
}.

Definition try_u16 (p : Z) : option Z := if ((0 <=? p) && (p <=? u16_max))%Z then Some p else None.

Fixpoint show_pos (fuel : nat) (n : Z) (acc : str) : str :=
  match fuel with
  | 0%nat => acc
  | S fuel' =>
      let acc := ascii_of_N (48 + Z.to_N (n mod 10)) :: acc in
      if (n <? 10)%Z then acc else show_pos fuel' (n / 10) acc
  end.

(** Display of a [u16], of five digits at most. *)
Definition show_u16 (n : Z) : str := show_pos 5 n [].

Definition port_step (st : gset Z * gset str * list EffectiveListenerPort) (l : EffectiveListener) :
    gset Z * gset str * list EffectiveListenerPort :=
  let '(seen_ports, seen_names, ports) := st in
  if is_conflicted (el_conflict l) then st
  else match try_u16 (el_port l) with
       | None => st
       | Some port =>
           if bool_decide (port ∈ seen_ports) then st
           else
             let name := if bool_decide (el_name l ∈ seen_names)
                         then el_name l ++ lit "-" ++ show_u16 port else el_name l in
             ({[port]} ∪ seen_ports, {[name]} ∪ ({[el_name l]} ∪ seen_names),
              ports ++ [mkPort name port (el_protocol l)])
       end.

Definition ports_of_listeners (ls : list EffectiveListener) : list EffectiveListenerPort :=
  (foldl port_step (∅, ∅, []) ls).2.

Definition effective_listener_ports `{HashIter} (owned : gset str) (namespaces : list Namespace)
    (gateways : list Gateway) (listener_sets : list ListenerSet) : gmap ObjectKey (list EffectiveListenerPort) :=
  (λ g, ports_of_listeners (eg_listeners g)) <$> merge_effective_gateways owned namespaces gateways listener_sets.
