(* ===== verification/ListenerMergeFacts.v ===== *)
(** * Facts about merged listeners

    Which listeners a Gateway ends up with, which of them lose a port conflict, and what
    Service ports the others get. *)

From S2P Require Import Prelude Backend HostRouter ResourceKey Bindings ListenerMerge.

(** ** Conflicts *)

(** A listener that won keeps its claim on its port. *)
Definition claims (ws : list EffectiveListener) (port : Z) : list (str * str) :=
  (λ w, (el_protocol w, el_host w)) <$>
    filter (λ w, is_conflicted (el_conflict w) = false ∧ el_port w = port) ws.

(** Two listeners can share a port: one protocol, two hostnames. *)
Definition compatible (a b : EffectiveListener) : Prop := el_protocol a = el_protocol b ∧ el_host a ≠ el_host b.

#[export] Instance compatible_dec a b : Decision (compatible a b).
Proof. unfold compatible. apply _. Defined.

(** The listeners before, that won the port of [l]. *)
Definition rivals (ws : list EffectiveListener) (l : EffectiveListener) : list EffectiveListener :=
  filter (λ w, is_conflicted (el_conflict w) = false ∧ el_port w = el_port l) ws.

(** The verdict on a listener, given those of higher precedence and their verdicts. *)
Definition verdict (ws : list EffectiveListener) (l : EffectiveListener) : ConflictReason :=
  if decide (Forall (λ w, compatible w l) (rivals ws l)) then NoConflict
  else if decide (Exists (λ w, el_protocol w ≠ el_protocol l) (rivals ws l)) then ProtocolConflict
  else HostnameConflict.

Lemma claims_rivals ws l : claims ws (el_port l) = (λ w, (el_protocol w, el_host w)) <$> rivals ws l.
Proof. done. Qed.

Lemma forallb_rivals ws l :
  forallb (λ c, bool_decide (c.1 = el_protocol l) && negb (bool_decide (c.2 = el_host l))) (claims ws (el_port l)) =
    bool_decide (Forall (λ w, compatible w l) (rivals ws l)).
Proof.
  rewrite claims_rivals. apply eq_bool_prop_intro. rewrite bool_decide_spec, Is_true_true, forallb_forall.
  rewrite Forall_forall. unfold compatible. split.
  - intros Hall w Hw. specialize (Hall (el_protocol w, el_host w)).
    rewrite <-list_elem_of_In, list_elem_of_fmap in Hall. specialize (Hall (ex_intro _ w (conj eq_refl Hw))).
    apply andb_true_iff in Hall as [?%bool_decide_eq_true_1 ?%negb_true_iff%bool_decide_eq_false_1]. done.
  - intros Hall c Hc. rewrite <-list_elem_of_In in Hc. apply list_elem_of_fmap in Hc as (w & -> & Hw).
    destruct (Hall w Hw). simpl. by rewrite bool_decide_eq_true_2, bool_decide_eq_false_2.
Qed.

Lemma existsb_rivals ws l :
  existsb (λ c, negb (bool_decide (c.1 = el_protocol l))) (claims ws (el_port l)) =
    bool_decide (Exists (λ w, el_protocol w ≠ el_protocol l) (rivals ws l)).
Proof.
  rewrite claims_rivals. apply eq_bool_prop_intro. rewrite bool_decide_spec, Is_true_true, existsb_exists, Exists_exists.
  split.
  - intros (c & Hc & Hn%negb_true_iff%bool_decide_eq_false_1). rewrite <-list_elem_of_In in Hc.
    apply list_elem_of_fmap in Hc as (w & -> & Hw). by exists w.
  - intros (w & Hw & Hn). exists (el_protocol w, el_host w). rewrite <-list_elem_of_In. split.
    + by apply (list_elem_of_fmap_2 (λ w, (el_protocol w, el_host w))).
    + by apply negb_true_iff, bool_decide_eq_false_2.
Qed.

Lemma claims_snoc ws l port :
  claims (ws ++ [l]) port =
    claims ws port ++ (if decide (is_conflicted (el_conflict l) = false ∧ el_port l = port)
                       then [(el_protocol l, el_host l)] else []).
Proof.
  unfold claims. rewrite filter_app, fmap_app. f_equal. rewrite filter_cons, filter_nil. by case_decide.
Qed.

(** The verdicts in order. *)
Fixpoint judge (ws ls : list EffectiveListener) : list EffectiveListener :=
  match ls with
  | [] => []
  | l :: ls' => let l' := set_conflict (verdict ws l) l in l' :: judge (ws ++ [l']) ls'
  end.

Lemma set_conflict_id l : el_conflict l = NoConflict → set_conflict NoConflict l = l.
Proof. by destruct l; simpl; intros ->. Qed.

Lemma flag_from_judge ws claimed ls :
  Forall (λ l, el_conflict l = NoConflict) ls → (∀ p, default [] (claimed !! p) = claims ws p) →
  flag_from claimed ls = judge ws ls.
Proof.
  intros Hls. induction Hls as [|l ls Hl Hls IH] in ws, claimed |- *; intros Hc; simpl; [done|].
  unfold flag_one. rewrite Hc, forallb_rivals, existsb_rivals. unfold verdict.
  assert (∀ x, default [] (<[el_port l:=x]> claimed !! el_port l) = x) as Hi by (intros; by rewrite lookup_insert_eq).
  case_bool_decide as Hall.
  - rewrite decide_True, set_conflict_id by done. f_equal. apply IH. intros p. rewrite claims_snoc, Hl. simpl.
    destruct (decide (el_port l = p)) as [<-|Hne].
    + rewrite Hi. by rewrite decide_True.
    + rewrite lookup_insert_ne by done. rewrite decide_False by naive_solver. by rewrite app_nil_r.
  - rewrite decide_False by done. f_equal; [by case_bool_decide; case_decide|].
    apply IH. intros p. rewrite claims_snoc, decide_False, app_nil_r.
    2: { simpl. intros [Hx _]. revert Hx. by case_decide. }
    destruct (decide (el_port l = p)) as [<-|Hne]; [by rewrite Hi|by rewrite lookup_insert_ne].
Qed.

Lemma flag_conflicts_judge ls :
  Forall (λ l, el_conflict l = NoConflict) ls → flag_conflicts ls = judge [] ls.
Proof. intros Hls. by apply flag_from_judge. Qed.

Lemma judge_lookup ws ls j :
  judge ws ls !! j = (λ l, set_conflict (verdict (ws ++ take j (judge ws ls)) l) l) <$> ls !! j.
Proof.
  induction ls as [|l ls IH] in ws, j |- *; simpl; [done|]. destruct j as [|j]; simpl.
  - by rewrite app_nil_r.
  - rewrite IH. by rewrite <-app_assoc.
Qed.

(** Listeners left on a port are compatible. *)
Lemma judge_compatible ls i j a b :
  Forall (λ l, el_conflict l = NoConflict) ls → (i < j)%nat →
  flag_conflicts ls !! i = Some a → flag_conflicts ls !! j = Some b →
  is_conflicted (el_conflict a) = false → is_conflicted (el_conflict b) = false → el_port a = el_port b →
  compatible a b.
Proof.
  intros Hls Hlt. rewrite (flag_conflicts_judge ls Hls). intros Ha Hb Hca Hcb Hp.
  rewrite judge_lookup in Hb. apply fmap_Some in Hb as (l & Hl & ->).
  simpl in Hcb. unfold verdict in Hcb. destruct (decide (Forall _ _)) as [Hall|]; [|by case_decide].
  rewrite Forall_forall in Hall. apply (Hall a). apply list_elem_of_filter. split; [done|].
  apply list_elem_of_lookup. exists i. by rewrite lookup_take_lt.
Qed.


(** ** The merge *)

Section merge.
Context `{HashIter} (owned : gset str) (namespaces : list Namespace).

(** The Gateway of a key: the last one given for it, of an owned class. *)
Definition is_gateway (k : ObjectKey) (gw : Gateway) : bool :=
  bool_decide (gateway_class_name gw ∈ owned ∧ g_namespace gw = Some k.1 ∧ g_name gw = Some k.2).
Definition gateway_of (gateways : list Gateway) (k : ObjectKey) : option Gateway :=
  find_first (is_gateway k) (reverse gateways).

Definition own_listeners (k : ObjectKey) (gw : Gateway) : list EffectiveListener :=
  from_listener SrcGateway k.1 namespaces <$> g_listeners gw.

(** A ListenerSet that names the Gateway as its parent and that the Gateway admits. *)
Definition admits (k : ObjectKey) (gw : Gateway) (ls : ListenerSet) : Prop :=
  match ls_namespace ls, ls_name ls with
  | Some ns, Some _ => parent_key ls ns = k ∧ listener_set_allowed gw ns namespaces = true
  | _, _ => False
  end.

#[export] Instance admits_dec k gw ls : Decision (admits k gw ls).
Proof. unfold admits. destruct (ls_namespace ls), (ls_name ls); apply _. Defined.

Lemma seed_lookup gateways k :
  foldl (seed_gateway owned namespaces) ∅ gateways !! k =
    (λ gw, mkEffectiveGateway gw (own_listeners k gw)) <$> gateway_of gateways k.
Proof.
  unfold gateway_of. induction gateways as [|gw gws IH] using rev_ind; [done|].
  rewrite foldl_snoc, reverse_snoc. simpl. unfold seed_gateway at 1, is_gateway at 1.
  destruct (bool_decide_reflect (gateway_class_name gw ∈ owned)) as [Hc|Hc]; simpl.
  - destruct (g_namespace gw) as [ns|] eqn:En; [|rewrite bool_decide_eq_false_2 by naive_solver; done].
    destruct (g_name gw) as [name|] eqn:Em; [|rewrite bool_decide_eq_false_2 by naive_solver; done].
    destruct (decide ((ns, name) = k)) as [<-|Hne].
    + rewrite bool_decide_eq_true_2 by done. by rewrite lookup_insert_eq.
    + rewrite bool_decide_eq_false_2 by (intros (_ & ? & ?); destruct k; simplify_eq/=).
      by rewrite lookup_insert_ne.
  - rewrite bool_decide_eq_false_2 by naive_solver. done.
Qed.

Lemma admit_lookup eff sets k g :
  eff !! k = Some g →
  default [] (foldl (admit_set namespaces eff) ∅ sets !! k) = filter (admits k (eg_gateway g)) sets.
Proof.
  intros Hk. induction sets as [|ls sets IH] using rev_ind; [done|].
  rewrite foldl_snoc, filter_app, <-IH, filter_cons, filter_nil. unfold admit_set at 1.
  destruct (ls_namespace ls) as [ns|] eqn:En;
    [|rewrite decide_False, app_nil_r; [done|]; unfold admits; rewrite En; tauto].
  destruct (ls_name ls) as [nm|] eqn:Em;
    [|rewrite decide_False, app_nil_r; [done|]; unfold admits; rewrite En, Em; tauto].
  destruct (decide (parent_key ls ns = k)) as [Ep|Ep].
  - rewrite Ep, Hk. destruct (listener_set_allowed (eg_gateway g) ns namespaces) eqn:Ea; simpl.
    + rewrite decide_True by (unfold admits; by rewrite En, Em). by rewrite lookup_insert_eq.
    + rewrite decide_False by (unfold admits; rewrite En, Em; intros [? ?]; congruence). by rewrite app_nil_r.
  - rewrite decide_False by (unfold admits; rewrite En, Em; intros [? ?]; congruence). rewrite app_nil_r.
    repeat case_match; simpl; try done. by rewrite lookup_insert_ne.
Qed.

Lemma append_lookup l eff k :
  NoDup l.*1 →
  foldl (append_sets namespaces) eff l !! k =
    (λ g, mkEffectiveGateway (eg_gateway g)
            (eg_listeners g ++ (sort_by ls_leb (default [] (snd <$> find_first (λ e, bool_decide (e.1 = k)) l))
               ≫= set_listeners namespaces))) <$> eff !! k.
Proof.
  induction l as [|[k0 sets] l IH] in eff |- *; simpl; intros Hnd.
  - destruct (eff !! k) as [[]|]; simpl; [|done]. by rewrite app_nil_r.
  - apply NoDup_cons in Hnd as [Hx Hnd]. rewrite IH by done. unfold append_sets at 1. simpl. case_bool_decide as E.
    + subst k0. assert (find_first (λ e, bool_decide (e.1 = k)) l = None) as ->.
      { apply find_first_None, Forall_forall. intros e He. apply bool_decide_eq_false_2. intros E. apply Hx.
        rewrite <-E. by apply (list_elem_of_fmap_2 fst). }
      destruct (eff !! k) as [g|] eqn:Ek; [|by rewrite Ek]. rewrite lookup_insert_eq. simpl. by rewrite app_nil_r.
    + destruct (eff !! k0); [|done]. by rewrite lookup_insert_ne.
Qed.

Lemma find_hash_iter {V} (m : gmap ObjectKey V) k :
  snd <$> find_first (λ e, bool_decide (e.1 = k)) (hash_iter m) = m !! k.
Proof.
  destruct (find_first _ _) as [[k' v]|] eqn:E; simpl.
  - apply find_first_elem in E as [Hin%hash_iter_elem Hk%bool_decide_eq_true_1]. simpl in Hk. by subst.
  - destruct (m !! k) as [v|] eqn:Ek; [|done]. apply find_first_None in E. rewrite Forall_forall in E.
    specialize (E (k, v)). rewrite hash_iter_elem in E. specialize (E Ek). by apply bool_decide_eq_false_1 in E.
Qed.

(** C22: The effective listeners of a Gateway are its own, then those of the
    ListenerSets that name it as parent and that it admits, oldest set first, with the
    verdicts of [flag_conflicts] over that order; a Gateway of a class that is not owned
    has none.  No iteration order of a hash map shows. *)
Theorem listener_merge_exact (gateways : list Gateway) (listener_sets : list ListenerSet) (k : ObjectKey) :
  merge_effective_gateways owned namespaces gateways listener_sets !! k =
    (λ gw, mkEffectiveGateway gw (flag_conflicts (own_listeners k gw ++
       (sort_by ls_leb (filter (admits k gw) listener_sets) ≫= set_listeners namespaces)))) <$> gateway_of gateways k.
Proof.
  unfold merge_effective_gateways. rewrite lookup_fmap, append_lookup by apply hash_iter_NoDup.
  rewrite find_hash_iter, !seed_lookup. destruct (gateway_of gateways k) as [gw|] eqn:Eg; simpl; [|done].
  rewrite (admit_lookup _ _ _ (mkEffectiveGateway gw (own_listeners k gw))); [done|].
  by rewrite seed_lookup, Eg.
Qed.

(** A listener that a ListenerSet contributed is one the parent admits. *)
Lemma set_listener_admitted gateways listener_sets k g l ns name :
  merge_effective_gateways owned namespaces gateways listener_sets !! k = Some g → l ∈ eg_listeners g →
  el_source l = SrcListenerSet ns name →
  listener_set_allowed (eg_gateway g) ns namespaces = true ∧ owning_namespace l = ns ∧
  ∃ ls, ls ∈ listener_sets ∧ ls_object_key ls = (ns, name) ∧ parent_key ls ns = k.
Proof.
  unfold merge_effective_gateways. rewrite lookup_fmap, append_lookup by apply hash_iter_NoDup.
  rewrite find_hash_iter, !seed_lookup. destruct (gateway_of gateways k) as [gw|] eqn:Eg; simpl; [|done].
  rewrite (admit_lookup _ _ _ (mkEffectiveGateway gw (own_listeners k gw))) by by rewrite seed_lookup, Eg.
  intros [= <-]. simpl. rewrite flag_conflicts_judge.
  2: { apply Forall_forall. intros x [(y & -> & _)%list_elem_of_fmap|Hx]%elem_of_app; [done|].
       apply list_elem_of_bind in Hx as (ls & (y & -> & _)%list_elem_of_fmap & _). done. }
  intros [j Hj]%list_elem_of_lookup Hs. rewrite judge_lookup in Hj. apply fmap_Some in Hj as (l0 & Hl0 & ->). simpl in *.
  apply list_elem_of_lookup_2 in Hl0. apply elem_of_app in Hl0 as [(y & -> & _)%list_elem_of_fmap|Hl0]; [done|].
  apply list_elem_of_bind in Hl0 as (ls & (y & -> & _)%list_elem_of_fmap & Hls). simpl in *.
  rewrite elem_of_sort_by in Hls. apply list_elem_of_filter in Hls as [Ha Hin]. unfold admits in Ha.
  unfold ls_object_key in *. destruct (ls_namespace ls) as [n|] eqn:En, (ls_name ls) as [m|] eqn:Em; try done.
  simpl in *. simplify_eq. destruct Ha. split_and!; [done..|]. exists ls. by rewrite En, Em.
Qed.

End merge.

(** ** Service ports *)

Lemma try_u16_Some p q : try_u16 p = Some q ↔ p = q ∧ (0 ≤ p ≤ u16_max)%Z.
Proof. unfold try_u16. repeat case_zb; simpl; naive_solver lia. Qed.

(** Each port of a programmed listener is exposed once. *)
Lemma service_ports_exact ls :
  NoDup (elp_port <$> ports_of_listeners ls) ∧
  ∀ p, p ∈ elp_port <$> ports_of_listeners ls ↔
    ∃ l, l ∈ ls ∧ is_conflicted (el_conflict l) = false ∧ el_port l = p ∧ (0 ≤ p ≤ u16_max)%Z.
Proof.
  unfold ports_of_listeners.
  assert (let st := foldl port_step (∅, ∅, []) ls in
    NoDup (elp_port <$> st.2) ∧ (∀ p, p ∈ st.1.1 ↔ p ∈ elp_port <$> st.2) ∧
    ∀ p, p ∈ elp_port <$> st.2 ↔
      ∃ l, l ∈ ls ∧ is_conflicted (el_conflict l) = false ∧ el_port l = p ∧ (0 ≤ p ≤ u16_max)%Z) as Hall;
    [|simpl in Hall; tauto].
  induction ls as [|l ls IH] using rev_ind; simpl.
  { split_and!; [by constructor|set_solver|]. intros p. split; [by intros ?%elem_of_nil|].
    by intros (? & ?%elem_of_nil & _). }
  rewrite foldl_snoc. destruct (foldl port_step (∅, ∅, []) ls) as [[sp sn] ports]. simpl in IH |- *.
  destruct IH as (IH1 & IH2 & IH3). setoid_rewrite elem_of_app. setoid_rewrite list_elem_of_singleton.
  destruct (is_conflicted (el_conflict l)) eqn:Ec; simpl.
  { split_and!; [done..|]. intros p. rewrite IH3. split; [intros (l' & ? & ? & ? & ?); exists l'; tauto|].
    intros (l' & [?| ->] & ? & ? & ?); [by exists l'|congruence]. }
  destruct (try_u16 (el_port l)) as [q|] eqn:Eq; simpl.
  2: { split_and!; [done..|]. intros p. rewrite IH3. split; [intros (l' & ? & ? & ? & ?); exists l'; tauto|].
       intros (l' & [?| ->] & ? & <- & Hr); [by exists l'|]. exfalso.
       assert (try_u16 (el_port l) = Some (el_port l)) by by apply try_u16_Some. congruence. }
  apply try_u16_Some in Eq as [<- Hr]. case_bool_decide as Hin; simpl.
  { split_and!; [done..|]. intros p. rewrite IH3. split; [intros (l' & ? & ? & ? & ?); exists l'; tauto|].
    intros (l' & [?| ->] & ? & <- & ?); [by exists l'|]. by apply IH3, IH2. }
  rewrite fmap_app. simpl. split_and!.
  - apply NoDup_app. split_and!; [done| |apply NoDup_singleton]. intros p Hp ->%list_elem_of_singleton.
    by apply Hin, IH2.
  - intros p. rewrite elem_of_union, elem_of_singleton, IH2, elem_of_app, list_elem_of_singleton. tauto.
  - intros p. rewrite elem_of_app, list_elem_of_singleton, IH3. split.
    + intros [(l' & ? & ? & ? & ?)| ->]; [exists l'|exists l]; tauto.
    + intros (l' & [?| ->] & ? & <- & ?); [left; by exists l'|by right].
Qed.

Module MergeDemo.
#[local] Existing Instance list_order.

Definition listener (name : string) (port : Z) : SpecListener :=
  mkSpecListener (lit name) port (lit "HTTP") None None None.
Definition gateway : Gateway :=
  mkGateway (Some (lit "infra")) (Some (lit "gw")) (lit "cox") [listener "a-81" 82; listener "a" 80]
    (Some (Some (mkFromNamespaces (Some FromAll) None))).
Definition team : ListenerSet :=
  mkListenerSet (Some (lit "team")) (Some (lit "set")) None (lit "gw") (Some (lit "infra")) [listener "a" 81].

Definition ports : gmap ObjectKey (list EffectiveListenerPort) :=
  effective_listener_ports {[lit "cox"]} [] [gateway] [team].
End MergeDemo.

(** The name made up for a second listener of a name may itself be taken. *)
Theorem service_port_names_collide :
  ∃ ps, MergeDemo.ports !! (lit "infra", lit "gw") = Some ps ∧ ¬ NoDup (elp_name <$> ps).
Proof.
  assert (elp_name <$> default [] (MergeDemo.ports !! (lit "infra", lit "gw")) = [lit "a-81"; lit "a"; lit "a-81"])
    as E by by vm_compute.
  destruct (MergeDemo.ports !! _) as [ps|]; [|done]. exists ps. split; [done|]. simpl in E. rewrite E.
  intros [Hn _]%NoDup_cons. apply Hn. right. left.
Qed.

