(* ===== verification/EdgeListeners.v ===== *)
(** * The listeners of a proxy

    Models the listener life cycle of [crates/coxswain-proxy/src/edge/accept.rs]: the
    plan that takes the bound listeners to the desired ones, the reconcile that carries
    it out, the report of bound ports and the accept loop and drain of each listener, as
    one interleaved system.  The handle of a listener and its task share the drain token
    and the watch channels, which are kept with the task.  A step of the system fixes
    which binds succeed.  Panics of a task are left out. *)

From S2P Require Import Prelude Net External Config Filters Entry AccessControl.

(** ** Listener specifications *)

Inductive ListenerProtocol := LHttp | LHttps | LTlsL4 | LTlsHybrid | LTcp | LUdp.

#[export] Instance ListenerProtocol_eq_dec : EqDecision ListenerProtocol.
Proof. solve_decision. Defined.

Record ProxyProtocolListenerConfig := mkProxyProtocol {
  pp_enabled : bool;
  trusted_sources : list IpNet;
}.

#[export] Instance IpNet_eq_dec : EqDecision IpNet.
Proof. solve_decision. Defined.
#[export] Instance ProxyProtocolListenerConfig_eq_dec : EqDecision ProxyProtocolListenerConfig.
Proof. solve_decision. Defined.

Definition is_trusted `{IpnetLib} (pp : ProxyProtocolListenerConfig) (ip : IpAddr) : bool :=
  existsb (λ n, net_contains n ip) (trusted_sources pp).

#[export] Instance SocketAddr_countable : Countable SocketAddr.
Proof.
  apply (inj_countable'
    (λ a, (match sa_ip a with V4 z => inl z | V6 z => inr z end, sa_port a))
    (λ '(i, p), mkSocketAddr (match i with inl z => V4 z | inr z => V6 z end) p)).
  by intros [[] ?].
Defined.

Record ListenerSpec := mkSpec {
  spec_addr : SocketAddr;
  spec_protocol : ListenerProtocol;
  spec_proxy : option ProxyProtocolListenerConfig;
}.

#[export] Instance ListenerSpec_eq_dec : EqDecision ListenerSpec.
Proof. solve_decision. Defined.

(** ** The plan *)

Record ActiveListenerState := mkActiveState {
  as_protocol : ListenerProtocol;
  as_proxy : option ProxyProtocolListenerConfig;
}.

#[export] Instance ActiveListenerState_eq_dec : EqDecision ActiveListenerState.
Proof. solve_decision. Defined.

Record ListenerPlan := mkPlan {
  plan_remove : list SocketAddr;
  plan_reprotocol : list ListenerSpec;
  plan_reproxy : list ListenerSpec;
  plan_add : list ListenerSpec;
}.

Definition is_udp (p : ListenerProtocol) : bool := bool_decide (p = LUdp).

Section plan.
Context `{HashIter}.

Definition plan_spec (active : gmap SocketAddr ActiveListenerState) (plan : ListenerPlan) (spec : ListenerSpec) :
    ListenerPlan :=
  match active !! spec_addr spec with
  | None =>
      mkPlan (plan_remove plan) (plan_reprotocol plan) (plan_reproxy plan) (plan_add plan ++ [spec])
  | Some state =>
      if negb (eqb (is_udp (as_protocol state)) (is_udp (spec_protocol spec))) then
        mkPlan (plan_remove plan ++ [spec_addr spec]) (plan_reprotocol plan) (plan_reproxy plan)
          (plan_add plan ++ [spec])
      else if negb (bool_decide (as_protocol state = spec_protocol spec)) then
        mkPlan (plan_remove plan) (plan_reprotocol plan ++ [spec]) (plan_reproxy plan) (plan_add plan)
      else if negb (bool_decide (as_proxy state = spec_proxy spec)) then
        mkPlan (plan_remove plan) (plan_reprotocol plan) (plan_reproxy plan ++ [spec]) (plan_add plan)
      else plan
  end.

Definition plan_listener_changes (active : gmap SocketAddr ActiveListenerState) (desired : list ListenerSpec) :
    ListenerPlan :=
  let desired_addrs := spec_addr <$> desired in
  let gone := filter (λ a, a ∉ desired_addrs) (hash_iter active).*1 in
  foldl (plan_spec active) (mkPlan gone [] [] []) desired.

(** ** Listener tasks *)

Inductive TaskPhase := Accepting | Draining | Exited.

#[export] Instance TaskPhase_eq_dec : EqDecision TaskPhase.
Proof. solve_decision. Defined.

(** A connection keeps the protocol and PROXY configuration it was accepted with. *)
Record Connection := mkConnection {
  cn_protocol : ListenerProtocol;
  cn_proxy : option ProxyProtocolListenerConfig;
}.

(** [lt_datagram] tells a UDP socket from a stream socket; [lt_cancelled] is the drain
    token. *)
Record ListenerTask := mkTask {
  lt_addr : SocketAddr;
  lt_datagram : bool;
  lt_cancelled : bool;
  lt_conn_shutdown : bool;
  lt_protocol : ListenerProtocol;
  lt_proxy : option ProxyProtocolListenerConfig;
  lt_phase : TaskPhase;
  lt_conns : list Connection;
}.

Definition task_new (spec : ListenerSpec) : ListenerTask :=
  mkTask (spec_addr spec) (is_udp (spec_protocol spec)) false false (spec_protocol spec) (spec_proxy spec)
    Accepting [].

(** [drain_token.cancel()] and [conn_shutdown_tx.send(true)] *)
Definition task_cancel (t : ListenerTask) : ListenerTask :=
  mkTask (lt_addr t) (lt_datagram t) true true (lt_protocol t) (lt_proxy t) (lt_phase t) (lt_conns t).
Definition task_push (p : ListenerProtocol) (pp : option ProxyProtocolListenerConfig) (t : ListenerTask) :
    ListenerTask :=
  mkTask (lt_addr t) (lt_datagram t) (lt_cancelled t) (lt_conn_shutdown t) p pp (lt_phase t) (lt_conns t).
Definition task_at (ph : TaskPhase) (conns : list Connection) (t : ListenerTask) : ListenerTask :=
  mkTask (lt_addr t) (lt_datagram t) (lt_cancelled t) (lt_conn_shutdown t) (lt_protocol t) (lt_proxy t) ph conns.

Definition MAX_CONCURRENT_CONNECTIONS : nat := 4096.

(** The accept branch of [run_listener]: a permit is held by each connection. *)
Definition task_accept (t : ListenerTask) : ListenerTask :=
  if Nat.ltb (length (lt_conns t)) MAX_CONCURRENT_CONNECTIONS
  then task_at (lt_phase t) (lt_conns t ++ [mkConnection (lt_protocol t) (lt_proxy t)]) t
  else t.

(** ** The acceptor *)

(** A handle in [active] is the task it was made with.  [bound_ports] is the watch
    channel of [with_bound_ports_tx] and the number of its notifications. *)
Record Edge := mkEdge {
  active : gmap SocketAddr nat;
  tasks : gmap nat ListenerTask;
  next_task : nat;
  serving : Z;
  draining : Z;
  bound_ports : option (gset Z * Z);
  running : bool;
  shutdown : bool;
}.

Definition Edge_new (reports : bool) : Edge :=
  mkEdge ∅ ∅ 0 0 0 (if reports then Some (∅, 0%Z) else None) true false.

Definition set_tasks (f : gmap nat ListenerTask → gmap nat ListenerTask) (s : Edge) : Edge :=
  mkEdge (active s) (f (tasks s)) (next_task s) (serving s) (draining s) (bound_ports s) (running s) (shutdown s).

(** [active_state] of [reconcile_listeners] *)
Definition active_state (s : Edge) : gmap SocketAddr ActiveListenerState :=
  omap (λ id, (λ t, mkActiveState (lt_protocol t) (lt_proxy t)) <$> tasks s !! id) (active s).

Definition remove_listener (s : Edge) (addr : SocketAddr) : Edge :=
  match active s !! addr with
  | None => s
  | Some id =>
      mkEdge (delete addr (active s)) (alter task_cancel id (tasks s)) (next_task s) (serving s - 1)
        (draining s + 1) (bound_ports s) (running s) (shutdown s)
  end.

Definition push_spec (s : Edge) (spec : ListenerSpec) : Edge :=
  match active s !! spec_addr spec with
  | None => s
  | Some id => set_tasks (alter (task_push (spec_protocol spec) (spec_proxy spec)) id) s
  end.

Definition push_proxy (s : Edge) (spec : ListenerSpec) : Edge :=
  match active s !! spec_addr spec with
  | None => s
  | Some id => set_tasks (alter (λ t, task_push (lt_protocol t) (spec_proxy spec) t) id) s
  end.

(** A task that still accepts on the address and has not been told to stop. *)
Definition holds_socket (addr : SocketAddr) (datagram : bool) (t : ListenerTask) : bool :=
  bool_decide (lt_addr t = addr) && eqb (lt_datagram t) datagram && bool_decide (lt_phase t = Accepting) &&
  negb (lt_cancelled t).

(** The system does not grant an address to two sockets of a kind; beyond that [bind]
    says whether the bind succeeds. *)
Definition add_listener (bind : ListenerSpec → bool) (s : Edge) (spec : ListenerSpec) : Edge :=
  if bind spec &&
     negb (existsb (λ e, holds_socket (spec_addr spec) (is_udp (spec_protocol spec)) e.2) (map_to_list (tasks s)))
  then
    mkEdge (<[spec_addr spec := next_task s]> (active s)) (<[next_task s := task_new spec]> (tasks s))
      (S (next_task s)) (serving s + 1) (draining s) (bound_ports s) (running s) (shutdown s)
  else s.

Definition reconcile_listeners (bind : ListenerSpec → bool) (desired : list ListenerSpec) (s : Edge) : Edge :=
  let plan := plan_listener_changes (active_state s) desired in
  let s := foldl remove_listener s (plan_remove plan) in
  let s := foldl push_spec s (plan_reprotocol plan) in
  let s := foldl push_proxy s (plan_reproxy plan) in
  foldl (add_listener bind) s (plan_add plan).

Definition active_ports (s : Edge) : gset Z := set_map sa_port (dom (active s)).

Definition publish_bound_ports (s : Edge) : Edge :=
  mkEdge (active s) (tasks s) (next_task s) (serving s) (draining s)
    ((λ tx, if bool_decide (tx.1 = active_ports s) then tx else (active_ports s, (tx.2 + 1)%Z)) <$> bound_ports s)
    (running s) (shutdown s).

Definition signal_all_drain (s : Edge) : Edge :=
  set_tasks (λ ts, foldl (λ ts id, alter task_cancel id ts) ts (hash_iter (active s)).*2) s.

Definition stop_running (s : Edge) : Edge :=
  mkEdge (active s) (tasks s) (next_task s) (serving s) (draining s) (bound_ports s) false (shutdown s).

Definition raise_shutdown (s : Edge) : Edge :=
  mkEdge (active s) (tasks s) (next_task s) (serving s) (draining s) (bound_ports s) (running s) true.

Definition release_listener_slot (cancelled : bool) (s : Edge) : Edge :=
  if cancelled then
    mkEdge (active s) (tasks s) (next_task s) (serving s) (draining s - 1) (bound_ports s) (running s) (shutdown s)
  else
    mkEdge (active s) (tasks s) (next_task s) (serving s - 1) (draining s) (bound_ports s) (running s) (shutdown s).

(** The end of a listener task, its connections finished or aborted. *)
Definition task_exit (id : nat) (t : ListenerTask) (s : Edge) : Edge :=
  release_listener_slot (lt_cancelled t) (set_tasks <[id := task_at Exited [] t]> s).

(** ** The system

    The loop of [start_service] over its select, and the loop and drain of
    [run_listener] (and of [run_udp_listener], which has no connections). *)

Inductive edge_step : Edge → Edge → Prop :=
| es_reconcile bind desired s :
    running s = true → shutdown s = false → NoDup (spec_addr <$> desired) →
    edge_step s (publish_bound_ports (reconcile_listeners bind desired s))
| es_shutdown s : edge_step s (raise_shutdown s)
| es_signal s : running s = true → shutdown s = true → edge_step s (stop_running (signal_all_drain s))
| es_accept id t s :
    tasks s !! id = Some t → lt_phase t = Accepting → lt_datagram t = false →
    edge_step s (set_tasks <[id := task_accept t]> s)
| es_conn_done id t i s :
    tasks s !! id = Some t → edge_step s (set_tasks <[id := task_at (lt_phase t) (delete i (lt_conns t)) t]> s)
| es_stop id t s :
    tasks s !! id = Some t → lt_phase t = Accepting → lt_cancelled t = true ∨ shutdown s = true →
    edge_step s (set_tasks <[id := task_at Draining (lt_conns t) t]> s)
| es_drained id t s :
    tasks s !! id = Some t → lt_phase t = Draining → lt_conns t = [] → edge_step s (task_exit id t s)
| es_drain_timeout id t s :
    tasks s !! id = Some t → lt_phase t = Draining → lt_datagram t = false → edge_step s (task_exit id t s).

Definition edge_run (s : Edge) : Prop := ∃ reports, rtc edge_step (Edge_new reports) s.

End plan.
