(* ===== verification/EdgeListenersFacts.v ===== *)
(** * Facts about the listeners of a proxy

    A reconcile takes the bound listeners to the desired ones without rebinding those
    that stay; the gauges and the report of bound ports tell the truth until shutdown. *)

From S2P Require Import Prelude Net External Config Filters Entry AccessControl EdgeListeners.

Section facts.
Context `{HashIter}.

(** ** Well-formed acceptors *)

(** The listener bound at an address: its task. *)
Definition view (s : Edge) (a : SocketAddr) : option (nat * ListenerTask) :=
  id ← active s !! a; t ← tasks s !! id; Some (id, t).

Definition live (t : ListenerTask) : bool := negb (bool_decide (lt_phase t = Exited)).
Definition live_serving (t : ListenerTask) : bool := live t && negb (lt_cancelled t).
Definition live_draining (t : ListenerTask) : bool := live t && lt_cancelled t.

(** Handles and tasks agree: a handle's task is there, and an uncancelled task has its
    handle.  A task stops accepting only when told to, its connections are bounded and
    gone when it exits, and the gauges count the tasks. *)
Record edge_wf (s : Edge) : Prop := {
  wf_active a id : active s !! a = Some id →
    ∃ t, tasks s !! id = Some t ∧ lt_addr t = a ∧ lt_cancelled t = negb (running s);
  wf_tasks id t : tasks s !! id = Some t →
    (id < next_task s)%nat ∧ (lt_cancelled t = false → active s !! lt_addr t = Some id);
  wf_phase id t : tasks s !! id = Some t → lt_phase t ≠ Accepting → lt_cancelled t = true ∨ shutdown s = true;
  wf_conns id t : tasks s !! id = Some t →
    (length (lt_conns t) ≤ MAX_CONCURRENT_CONNECTIONS)%nat ∧
    (lt_phase t = Exited ∨ lt_datagram t = true → lt_conns t = []);
  wf_stopped : running s = false → shutdown s = true;
  wf_gauges : running s = true →
    serving s = map_count live_serving (tasks s) ∧ draining s = map_count live_draining (tasks s);
  wf_total : (serving s + draining s)%Z = map_count live (tasks s);
}.

Definition steady (s : Edge) : Prop := running s = true ∧ shutdown s = false.

Lemma view_Some s a id t : view s a = Some (id, t) ↔ active s !! a = Some id ∧ tasks s !! id = Some t.
Proof.
  unfold view. destruct (active s !! a) as [id'|] eqn:Ea; simpl; [|naive_solver].
  destruct (tasks s !! id') eqn:Et; simpl; naive_solver.
Qed.

Lemma view_None s a : edge_wf s → view s a = None ↔ active s !! a = None.
Proof.
  intros W. unfold view. destruct (active s !! a) as [id|] eqn:Ea; simpl; [|done].
  destruct (wf_active s W a id Ea) as (t & -> & _). done.
Qed.

Lemma active_state_view s a :
  active_state s !! a = (λ v, mkActiveState (lt_protocol v.2) (lt_proxy v.2)) <$> view s a.
Proof.
  unfold active_state, view. rewrite lookup_omap. destruct (active s !! a) as [id|]; simpl; [|done].
  by destruct (tasks s !! id).
Qed.

(** A change to the task of one address leaves the others. *)
Lemma view_alter s a id f b :
  edge_wf s → active s !! a = Some id →
  view (set_tasks (alter f id) s) b =
    if decide (a = b) then (λ v, (v.1, f v.2)) <$> view s b else view s b.
Proof.
  intros W Ea. unfold view. simpl. destruct (active s !! b) as [id'|] eqn:Eb; simpl; [|by case_decide].
  destruct (decide (id = id')) as [<-|Hne].
  - destruct (wf_active s W a id Ea) as (t & Ht & Ha & _), (wf_active s W b id Eb) as (t' & Ht' & Hb & _).
    simplify_eq. rewrite lookup_alter_eq, Ht. simpl. by rewrite decide_True.
  - rewrite lookup_alter_ne by done. case_decide as E; [congruence|done].
Qed.

Lemma lookup_alter_cases {V} (m : gmap nat V) f i j v :
  alter f i m !! j = Some v → ∃ v0, m !! j = Some v0 ∧ v = if decide (i = j) then f v0 else v0.
Proof. intros [(<- & v0 & ? & ->)|[? ?]]%lookup_alter_Some; eexists; (split; [done|]); [by rewrite decide_True|by rewrite decide_False]. Qed.

Lemma map_count_alter_same {V} (p : V → bool) f (m : gmap nat V) i :
  (∀ v, p (f v) = p v) → map_count p (alter f i m) = map_count p m.
Proof.
  intros Hf. destruct (m !! i) as [v|] eqn:E; [rewrite (map_count_alter p f m i v E), Hf; lia|].
  f_equal. apply map_eq. intros j. destruct (decide (i = j)) as [<-|]; [by rewrite lookup_alter_eq, E|by rewrite lookup_alter_ne].
Qed.

(** Pushing a configuration keeps the agreement. *)
Lemma wf_push s id g :
  edge_wf s → edge_wf (set_tasks (alter (λ t, task_push (g t).1 (g t).2 t) id) s).
Proof.
  intros W. set (f := λ t, task_push (g t).1 (g t).2 t).
  assert (∀ p : ListenerTask → bool, (∀ t, p (f t) = p t) → map_count p (alter f id (tasks s)) = map_count p (tasks s))
    as Hc by (intros; by apply map_count_alter_same).
  split; simpl.
  - intros a i Ha. destruct (wf_active s W a i Ha) as (t & Ht & Hta & Hcan).
    destruct (decide (id = i)) as [<-|Hne].
    + exists (f t). by rewrite lookup_alter_eq, Ht.
    + exists t. by rewrite lookup_alter_ne.
  - intros i t (t0 & Ht0 & ->)%lookup_alter_cases. destruct (decide _); exact (wf_tasks s W i t0 Ht0).
  - intros i t (t0 & Ht0 & ->)%lookup_alter_cases. destruct (decide _); exact (wf_phase s W i t0 Ht0).
  - intros i t (t0 & Ht0 & ->)%lookup_alter_cases. destruct (decide _); exact (wf_conns s W i t0 Ht0).
  - apply (wf_stopped s W).
  - rewrite !Hc by done. apply (wf_gauges s W).
  - rewrite Hc by done. apply (wf_total s W).
Qed.

(** ** One address at a time *)

(** While the acceptor runs, a bound listener accepts. *)
Lemma active_accepts s a id t :
  steady s → edge_wf s → view s a = Some (id, t) → lt_addr t = a ∧ lt_cancelled t = false ∧ lt_phase t = Accepting.
Proof.
  intros [Hr Hs] W [Ha Ht]%view_Some. destruct (wf_active s W a id Ha) as (t' & ? & ? & Hc). simplify_eq.
  rewrite Hr in Hc. simpl in Hc. split_and!; [done..|]. destruct (decide (lt_phase t = Accepting)) as [|Hp]; [done|].
  destruct (wf_phase s W id t Ht Hp); congruence.
Qed.

Lemma remove_wf s a : steady s → edge_wf s → edge_wf (remove_listener s a).
Proof.
  intros St W. unfold remove_listener. destruct (active s !! a) as [id|] eqn:Ea; [|done].
  destruct (wf_active s W a id Ea) as (t & Ht & Hta & _).
  destruct (active_accepts s a id t St W) as (_ & Hc & Hp); [by apply view_Some|].
  destruct St as [Hr Hs], (wf_gauges s W Hr) as [Hg1 Hg2]. split; simpl.
  - intros b i [Hne Hb]%lookup_delete_Some. destruct (wf_active s W b i Hb) as (u & Hu & Hub & Hcu).
    exists u. split; [|done]. rewrite lookup_alter_ne; [done|]. intros E. by simplify_eq.
  - intros i u (u0 & Hu0 & ->)%lookup_alter_cases. destruct (wf_tasks s W i u0 Hu0) as [? Hact].
    case_decide as E; [done|]. split; [done|]. intros Hcu%Hact.
    rewrite lookup_delete_ne; [done|]. intros E'. congruence.
  - intros i u (u0 & Hu0 & ->)%lookup_alter_cases. case_decide; [by left|]. exact (wf_phase s W i u0 Hu0).
  - intros i u (u0 & Hu0 & ->)%lookup_alter_cases. destruct (decide _); exact (wf_conns s W i u0 Hu0).
  - congruence.
  - intros _. rewrite !(map_count_alter _ _ _ _ _ Ht), Hg1, Hg2. unfold live_serving, live_draining, live. simpl.
    rewrite Hc, Hp. simpl. lia.
  - rewrite (map_count_alter _ _ _ _ _ Ht). change (live (task_cancel t)) with (live t). pose proof (wf_total s W). lia.
Qed.

Lemma remove_view s a b :
  edge_wf s → view (remove_listener s a) b = if decide (a = b) then None else view s b.
Proof.
  intros W. unfold remove_listener. destruct (active s !! a) as [id|] eqn:Ea.
  - unfold view. simpl. destruct (decide (a = b)) as [<-|Hne]; [by rewrite lookup_delete_eq|].
    rewrite lookup_delete_ne by done. destruct (active s !! b) as [id'|] eqn:Eb; simpl; [|done].
    rewrite lookup_alter_ne; [done|]. intros <-.
    destruct (wf_active s W a id Ea) as (t & ? & ? & _), (wf_active s W b id Eb) as (t' & ? & ? & _). congruence.
  - case_decide; [subst|done]. by apply view_None.
Qed.

Lemma push_spec_view s spec b :
  edge_wf s →
  view (push_spec s spec) b =
    if decide (spec_addr spec = b)
    then (λ v, (v.1, task_push (spec_protocol spec) (spec_proxy spec) v.2)) <$> view s b else view s b.
Proof.
  intros W. unfold push_spec. destruct (active s !! spec_addr spec) as [id|] eqn:Ea; [by apply view_alter|].
  case_decide; [subst|done]. by rewrite (proj2 (view_None s _ W) Ea).
Qed.

Lemma push_proxy_view s spec b :
  edge_wf s →
  view (push_proxy s spec) b =
    if decide (spec_addr spec = b)
    then (λ v, (v.1, task_push (lt_protocol v.2) (spec_proxy spec) v.2)) <$> view s b else view s b.
Proof.
  intros W. unfold push_proxy. destruct (active s !! spec_addr spec) as [id|] eqn:Ea.
  - by apply (view_alter s _ id (λ t, task_push (lt_protocol t) (spec_proxy spec) t)).
  - case_decide; [subst|done]. by rewrite (proj2 (view_None s _ W) Ea).
Qed.

Lemma push_spec_wf s spec : edge_wf s → edge_wf (push_spec s spec).
Proof.
  intros W. unfold push_spec. case_match; [|done]. by apply (wf_push s _ (λ _, (spec_protocol spec, spec_proxy spec))).
Qed.

Lemma push_proxy_wf s spec : edge_wf s → edge_wf (push_proxy s spec).
Proof.
  intros W. unfold push_proxy. case_match; [|done]. by apply (wf_push s _ (λ t, (lt_protocol t, spec_proxy spec))).
Qed.

(** An address without a handle is free. *)
Lemma socket_free s spec :
  edge_wf s → view s (spec_addr spec) = None →
  existsb (λ e, holds_socket (spec_addr spec) (is_udp (spec_protocol spec)) e.2) (map_to_list (tasks s)) = false.
Proof.
  intros W Hv%view_None; [|done]. destruct (existsb _ _) eqn:E; [|done]. exfalso.
  apply existsb_exists in E as ([id t] & Hin%list_elem_of_In & Hh). apply elem_of_map_to_list in Hin.
  unfold holds_socket in Hh. simpl in Hh.
  apply andb_true_iff in Hh as [[[Ha%bool_decide_eq_true_1 _]%andb_true_iff _]%andb_true_iff Hc%negb_true_iff].
  destruct (wf_tasks s W id t Hin) as [_ Hact]. rewrite <-Ha, (Hact Hc) in Hv. done.
Qed.

Lemma add_view bind s spec b :
  edge_wf s → view s (spec_addr spec) = None →
  view (add_listener bind s spec) b =
    if decide (spec_addr spec = b)
    then if bind spec then Some (next_task s, task_new spec) else None
    else view s b.
Proof.
  intros W Hv. unfold add_listener. rewrite socket_free by done. rewrite andb_true_r. destruct (bind spec).
  - unfold view. simpl. destruct (decide (spec_addr spec = b)) as [<-|Hne].
    + by rewrite lookup_insert_eq; simpl; rewrite lookup_insert_eq.
    + rewrite lookup_insert_ne by done. destruct (active s !! b) as [id|] eqn:Eb; simpl; [|done].
      destruct (wf_active s W b id Eb) as (t & Ht & _). rewrite lookup_insert_ne; [done|].
      intros <-. destruct (wf_tasks s W _ _ Ht). lia.
  - case_decide; [subst|done]. done.
Qed.

Lemma add_wf bind s spec :
  steady s → edge_wf s → view s (spec_addr spec) = None → edge_wf (add_listener bind s spec).
Proof.
  intros [Hr Hs] W Hv. pose proof Hv as Hf%view_None; [|done]. unfold add_listener. case_match; [|done].
  assert (tasks s !! next_task s = None) as Hn.
  { destruct (tasks s !! next_task s) eqn:E; [|done]. destruct (wf_tasks s W _ _ E). lia. }
  destruct (wf_gauges s W Hr) as [Hg1 Hg2]. split; simpl.
  - intros a id Ha. apply lookup_insert_Some in Ha as [(<- & <-)|[Hne Ha]].
    + exists (task_new spec). rewrite lookup_insert_eq. by rewrite Hr.
    + destruct (wf_active s W a id Ha) as (t & Ht & Hta). exists t. split; [|done].
      rewrite lookup_insert_ne; [done|]. intros <-. congruence.
  - intros id t Ht. apply lookup_insert_Some in Ht as [(<- & <-)|[Hne Ht]].
    + split; [lia|]. intros _. apply lookup_insert_eq.
    + destruct (wf_tasks s W id t Ht) as [? Hact]. split; [lia|]. intros Hc%Hact.
      rewrite lookup_insert_ne; [done|]. intros E. congruence.
  - intros id t [(<- & <-)|[Hne Ht]]%lookup_insert_Some; [done|]. exact (wf_phase s W id t Ht).
  - intros id t [(<- & <-)|[Hne Ht]]%lookup_insert_Some; [split; [simpl; lia|done]|]. by apply (wf_conns s W id).
  - congruence.
  - intros _. rewrite !map_count_fresh by done. rewrite Hg1, Hg2. unfold live_serving, live_draining, live. simpl. lia.
  - rewrite map_count_fresh by done. change (live (task_new spec)) with true. pose proof (wf_total s W). simpl. lia.
Qed.

(** A phase of the reconcile: each item changes the view of its own address. *)
Lemma fold_view {X} (op : Edge → X → Edge) (key : X → SocketAddr) (pre : X → option (nat * ListenerTask) → Prop)
    (rel : X → option (nat * ListenerTask) → option (nat * ListenerTask) → Prop) l s :
  (∀ s x, steady s → steady (op s x)) →
  (∀ s x, steady s → edge_wf s → pre x (view s (key x)) →
    edge_wf (op s x) ∧ rel x (view s (key x)) (view (op s x) (key x)) ∧
    ∀ b, b ≠ key x → view (op s x) b = view s b) →
  NoDup (key <$> l) → steady s → edge_wf s → (∀ x, x ∈ l → pre x (view s (key x))) →
  steady (foldl op s l) ∧ edge_wf (foldl op s l) ∧
  (∀ x, x ∈ l → rel x (view s (key x)) (view (foldl op s l) (key x))) ∧
  (∀ b, b ∉ key <$> l → view (foldl op s l) b = view s b).
Proof.
  intros Hst Hop. induction l as [|x l IH] in s |- *; simpl; intros Hnd St W Hpre.
  { split_and!; try done. by intros ? ?%elem_of_nil. }
  apply NoDup_cons in Hnd as [Hx Hnd]. destruct (Hop s x St W (Hpre x ltac:(left))) as (W' & Hrel & Hother).
  assert (∀ y, y ∈ l → key y ≠ key x) as Hne.
  { intros y Hy E. apply Hx. rewrite <-E. by apply list_elem_of_fmap_2. }
  destruct (IH (op s x)) as (? & ? & Hin & Hout); [done|by apply Hst|done| |].
  { intros y Hy. rewrite Hother by auto. apply Hpre. by right. }
  split_and!; try done.
  - intros y Hy. apply elem_of_cons in Hy as [-> | Hy].
    + by rewrite Hout.
    + rewrite <-(Hother (key y)) by auto. by apply Hin.
  - intros b Hb. apply not_elem_of_cons in Hb as [? ?]. rewrite Hout by done. by apply Hother.
Qed.

(** ** The plan *)

Section classify.
Context (act : gmap SocketAddr ActiveListenerState).

Definition is_new (spec : ListenerSpec) : bool := bool_decide (act !! spec_addr spec = None).
Definition is_replaced (spec : ListenerSpec) : bool :=
  match act !! spec_addr spec with
  | Some st => negb (eqb (is_udp (as_protocol st)) (is_udp (spec_protocol spec)))
  | None => false
  end.
Definition is_reprotocol (spec : ListenerSpec) : bool :=
  match act !! spec_addr spec with
  | Some st => eqb (is_udp (as_protocol st)) (is_udp (spec_protocol spec)) &&
               negb (bool_decide (as_protocol st = spec_protocol spec))
  | None => false
  end.
Definition is_reproxy (spec : ListenerSpec) : bool :=
  match act !! spec_addr spec with
  | Some st => bool_decide (as_protocol st = spec_protocol spec) && negb (bool_decide (as_proxy st = spec_proxy spec))
  | None => false
  end.

(** The four parts of the plan select from the desired listeners by their class. *)
Lemma plan_eq desired :
  plan_listener_changes act desired =
    mkPlan (filter (λ a, a ∉ spec_addr <$> desired) (hash_iter act).*1 ++
            (spec_addr <$> filter (λ x, is_replaced x = true) desired))
      (filter (λ x, is_reprotocol x = true) desired) (filter (λ x, is_reproxy x = true) desired)
      (filter (λ x, is_new x || is_replaced x = true) desired).
Proof.
  unfold plan_listener_changes. generalize (filter (λ a, a ∉ spec_addr <$> desired) (hash_iter act).*1) as gone.
  assert (∀ gone rp rx ad, foldl (plan_spec act) (mkPlan gone rp rx ad) desired =
    mkPlan (gone ++ (spec_addr <$> filter (λ x, is_replaced x = true) desired))
      (rp ++ filter (λ x, is_reprotocol x = true) desired) (rx ++ filter (λ x, is_reproxy x = true) desired)
      (ad ++ filter (λ x, is_new x || is_replaced x = true) desired)) as Hgen; [|intros; apply Hgen].
  induction desired as [|x l IH]; intros gone rp rx ad; simpl; [by rewrite !app_nil_r|].
  rewrite !filter_cons. unfold plan_spec at 2, is_new, is_replaced, is_reprotocol, is_reproxy.
  destruct (act !! spec_addr x) as [st|] eqn:E; simpl.
  - destruct (eqb (is_udp (as_protocol st)) (is_udp (spec_protocol x))) eqn:Ef; simpl.
    + destruct (bool_decide_reflect (as_protocol st = spec_protocol x)) as [Hp|Hp]; simpl.
      * destruct (bool_decide_reflect (as_proxy st = spec_proxy x)); simpl; rewrite IH; simpl;
          by rewrite <- ?app_assoc.
      * rewrite IH. simpl. by rewrite <- ?app_assoc.
    + destruct (bool_decide_reflect (as_protocol st = spec_protocol x)) as [Hp|Hp].
      { rewrite Hp, eqb_reflx in Ef. done. }
      simpl. rewrite IH. simpl. by rewrite <- !app_assoc.
  - rewrite IH. simpl. by rewrite <-app_assoc.
Qed.

End classify.

Lemma NoDup_addr_filter (P : ListenerSpec → Prop) `{∀ x, Decision (P x)} desired :
  NoDup (spec_addr <$> desired) → NoDup (spec_addr <$> filter P desired).
Proof. intros Hnd. apply (sublist_NoDup _ _ Hnd). apply fmap_sublist, sublist_filter. Qed.

Lemma addr_inj desired x y :
  NoDup (spec_addr <$> desired) → x ∈ desired → y ∈ desired → spec_addr x = spec_addr y → x = y.
Proof.
  intros Hnd Hx Hy E. apply list_elem_of_lookup in Hx as [i Hi], Hy as [j Hj].
  assert (i = j) as ->; [|congruence].
  eapply (NoDup_lookup _ i j _ Hnd); rewrite list_lookup_fmap; [by rewrite Hi|by rewrite Hj, E].
Qed.

Lemma remove_list_NoDup (act : gmap SocketAddr ActiveListenerState) desired :
  NoDup (spec_addr <$> desired) → NoDup (plan_remove (plan_listener_changes act desired)).
Proof.
  intros Hnd. rewrite plan_eq. simpl. apply NoDup_app. split_and!.
  - apply NoDup_filter, hash_iter_NoDup.
  - intros a [Ha _]%list_elem_of_filter Hin. apply Ha. eapply elem_of_submseteq; [done|].
    apply sublist_submseteq, fmap_sublist, sublist_filter.
  - by apply NoDup_addr_filter.
Qed.

Lemma elem_remove s desired a :
  edge_wf s → NoDup (spec_addr <$> desired) →
  a ∈ plan_remove (plan_listener_changes (active_state s) desired) ↔
    (view s a ≠ None ∧ a ∉ spec_addr <$> desired) ∨
    ∃ x, x ∈ desired ∧ spec_addr x = a ∧ is_replaced (active_state s) x = true.
Proof.
  intros W Hnd. rewrite plan_eq. simpl. rewrite elem_of_app, list_elem_of_filter. apply Morphisms_Prop.or_iff_morphism.
  - assert (a ∈ (hash_iter (active_state s)).*1 ↔ view s a ≠ None) as ->.
    { rewrite list_elem_of_fmap. split.
      - intros ([a' st] & -> & Hst%hash_iter_elem). rewrite active_state_view in Hst. simpl. by intros E; rewrite E in Hst.
      - intros Hv. destruct (view s a) as [[id t]|] eqn:E; [|done].
        eexists (a, _). split; [done|]. apply hash_iter_elem. by rewrite active_state_view, E. }
    naive_solver.
  - rewrite list_elem_of_fmap. setoid_rewrite list_elem_of_filter. naive_solver.
Qed.

(** ** Reconciling *)

(** A bound listener's socket is of the kind its protocol needs. *)
Definition families_agree (s : Edge) : Prop :=
  ∀ a id t, view s a = Some (id, t) → lt_datagram t = is_udp (lt_protocol t).

(** What becomes of the address of a desired listener. *)
Definition settled (bind : ListenerSpec → bool) (spec : ListenerSpec) (before after : option (nat * ListenerTask)) :
    Prop :=
  match before with
  | Some (id, t) =>
      if eqb (lt_datagram t) (is_udp (spec_protocol spec)) then
        after = Some (id, task_push (spec_protocol spec) (spec_proxy spec) t)
      else if bind spec then ∃ id', after = Some (id', task_new spec) else after = None
  | None => if bind spec then ∃ id', after = Some (id', task_new spec) else after = None
  end.

Lemma steady_remove s a : steady s → steady (remove_listener s a).
Proof. unfold remove_listener. by case_match. Qed.
Lemma steady_push_spec s x : steady s → steady (push_spec s x).
Proof. unfold push_spec. by case_match. Qed.
Lemma steady_push_proxy s x : steady s → steady (push_proxy s x).
Proof. unfold push_proxy. by case_match. Qed.
Lemma steady_add bind s x : steady s → steady (add_listener bind s x).
Proof. unfold add_listener. by case_match. Qed.

Section reconcile.
Context (bind : ListenerSpec → bool) (desired : list ListenerSpec) (s : Edge).
Context (St : steady s) (W : edge_wf s) (Hf : families_agree s) (Hnd : NoDup (spec_addr <$> desired)).

Let plan := plan_listener_changes (active_state s) desired.
Let s1 := foldl remove_listener s (plan_remove plan).
Let s2 := foldl push_spec s1 (plan_reprotocol plan).
Let s3 := foldl push_proxy s2 (plan_reproxy plan).

Lemma phase_remove :
  steady s1 ∧ edge_wf s1 ∧ (∀ a, a ∈ plan_remove plan → view s1 a = None) ∧
  (∀ a, a ∉ plan_remove plan → view s1 a = view s a).
Proof.
  destruct (fold_view remove_listener id (λ _ _, True) (λ _ _ v, v = None) (plan_remove plan) s)
    as (? & ? & Hin & Hout); try done.
  - apply steady_remove.
  - intros s0 x ? W0 _. split_and!; [by apply remove_wf| |].
    + rewrite remove_view by done. by rewrite decide_True.
    + intros b Hb. rewrite remove_view by done. by rewrite decide_False.
  - rewrite list_fmap_id. by apply remove_list_NoDup.
  - rewrite list_fmap_id in Hout. done.
Qed.

Lemma phase_reprotocol :
  steady s2 ∧ edge_wf s2 ∧
  (∀ x, x ∈ plan_reprotocol plan →
    view s2 (spec_addr x) = (λ v, (v.1, task_push (spec_protocol x) (spec_proxy x) v.2)) <$> view s1 (spec_addr x)) ∧
  (∀ a, a ∉ spec_addr <$> plan_reprotocol plan → view s2 a = view s1 a).
Proof.
  destruct phase_remove as (Hr1 & W1 & _).
  apply (fold_view push_spec spec_addr (λ _ _, True)
    (λ x v v', v' = (λ v, (v.1, task_push (spec_protocol x) (spec_proxy x) v.2)) <$> v)); try done.
  - apply steady_push_spec.
  - intros s0 x ? W0 _. split_and!; [by apply push_spec_wf| |].
    + rewrite push_spec_view by done. by rewrite decide_True.
    + intros b Hb. rewrite push_spec_view by done. by rewrite decide_False.
  - unfold plan. rewrite plan_eq. by apply NoDup_addr_filter.
Qed.

Lemma phase_reproxy :
  steady s3 ∧ edge_wf s3 ∧
  (∀ x, x ∈ plan_reproxy plan →
    view s3 (spec_addr x) = (λ v, (v.1, task_push (lt_protocol v.2) (spec_proxy x) v.2)) <$> view s2 (spec_addr x)) ∧
  (∀ a, a ∉ spec_addr <$> plan_reproxy plan → view s3 a = view s2 a).
Proof.
  destruct phase_reprotocol as (Hr2 & W2 & _).
  apply (fold_view push_proxy spec_addr (λ _ _, True)
    (λ x v v', v' = (λ v, (v.1, task_push (lt_protocol v.2) (spec_proxy x) v.2)) <$> v)); try done.
  - apply steady_push_proxy.
  - intros s0 x ? W0 _. split_and!; [by apply push_proxy_wf| |].
    + rewrite push_proxy_view by done. by rewrite decide_True.
    + intros b Hb. rewrite push_proxy_view by done. by rewrite decide_False.
  - unfold plan. rewrite plan_eq. by apply NoDup_addr_filter.
Qed.

(** An address is in one part of the plan only. *)
Lemma class_of x (P : ListenerSpec → bool) :
  x ∈ desired → spec_addr x ∈ spec_addr <$> filter (λ y, P y = true) desired ↔ P x = true.
Proof.
  intros Hx. rewrite list_elem_of_fmap. split.
  - intros (y & E & [HP Hy]%list_elem_of_filter). by rewrite (addr_inj desired x y).
  - intros HP. exists x. split; [done|]. by apply list_elem_of_filter.
Qed.

Lemma removed_class x : x ∈ desired → spec_addr x ∈ plan_remove plan ↔ is_replaced (active_state s) x = true.
Proof.
  intros Hx. unfold plan. rewrite elem_remove by done. split.
  - intros [[_ Hn]|(y & Hy & E & HP)]; [by destruct Hn; apply list_elem_of_fmap_2|].
    by rewrite (addr_inj desired x y).
  - intros HP. right. by exists x.
Qed.

(** The view of a desired address once the first three phases are done. *)
Lemma phases_view x :
  x ∈ desired →
  view s3 (spec_addr x) =
    match view s (spec_addr x) with
    | Some (id, t) => if eqb (lt_datagram t) (is_udp (spec_protocol x))
                      then Some (id, task_push (spec_protocol x) (spec_proxy x) t) else None
    | None => None
    end.
Proof.
  intros Hx. destruct phase_remove as (_ & _ & R1 & R2), phase_reprotocol as (_ & _ & P1 & P2),
    phase_reproxy as (_ & _ & X1 & X2).
  assert (Hrm := removed_class x Hx). assert (Hrp := class_of x (is_reprotocol (active_state s)) Hx).
  assert (Hrx := class_of x (is_reproxy (active_state s)) Hx).
  unfold plan in *. rewrite plan_eq in P1, P2, X1, X2. cbn [plan_reprotocol plan_reproxy] in *.
  unfold is_replaced, is_reprotocol, is_reproxy in Hrm, Hrp, Hrx. rewrite active_state_view in Hrm, Hrp, Hrx.
  destruct (view s (spec_addr x)) as [[id t]|] eqn:Ev; simpl in *.
  - rewrite (Hf _ _ _ Ev). destruct (eqb (is_udp (lt_protocol t)) (is_udp (spec_protocol x))) eqn:Ef; simpl in *.
    + assert (view s1 (spec_addr x) = Some (id, t)) as E1 by (rewrite R2; [done|by rewrite Hrm]).
      destruct (bool_decide_reflect (lt_protocol t = spec_protocol x)) as [Ep|Ep]; simpl in *.
      * rewrite <-Ep. destruct (bool_decide_reflect (lt_proxy t = spec_proxy x)) as [Eq|Eq]; simpl in *.
        -- rewrite X2 by by rewrite Hrx. rewrite P2, E1 by by rewrite Hrp. rewrite <-Eq. by destruct t.
        -- rewrite X1 by (apply list_elem_of_filter; split; [|done]; unfold is_reproxy;
             rewrite active_state_view, Ev; simpl; by rewrite bool_decide_eq_true_2, bool_decide_eq_false_2).
           by rewrite P2, E1 by by rewrite Hrp.
      * rewrite X2 by by rewrite Hrx. rewrite P1, E1; [done|]. apply list_elem_of_filter. split; [|done].
        unfold is_reprotocol. rewrite active_state_view, Ev. simpl. by rewrite Ef, bool_decide_eq_false_2.
    + assert (lt_protocol t ≠ spec_protocol x) as Hne by (intros E; by rewrite E, eqb_reflx in Ef).
      rewrite bool_decide_eq_false_2 in Hrx by done.
      rewrite X2 by by rewrite Hrx. rewrite P2 by by rewrite Hrp. apply R1. by rewrite Hrm.
  - rewrite X2 by by rewrite Hrx. rewrite P2 by by rewrite Hrp. rewrite R2 by by rewrite Hrm. done.
Qed.

Lemma reconcile_view :
  let s' := reconcile_listeners bind desired s in
  edge_wf s' ∧ steady s' ∧
  (∀ x, x ∈ desired → settled bind x (view s (spec_addr x)) (view s' (spec_addr x))) ∧
  (∀ a, a ∉ spec_addr <$> desired → view s' a = None).
Proof.
  intros s'. destruct phase_reproxy as (Hr3 & W3 & _ & X2).
  assert (Hadd : ∀ x, x ∈ plan_add plan ↔ x ∈ desired ∧ view s3 (spec_addr x) = None).
  { intros x. unfold plan. rewrite plan_eq. simpl. rewrite list_elem_of_filter.
    split; [intros [H1 Hx]; split; [done|]|intros [Hx H2]; split; [|done]].
    - rewrite phases_view by done. unfold is_new, is_replaced in H1. rewrite active_state_view in H1.
      destruct (view s (spec_addr x)) as [[id t]|] eqn:Ev; simpl in *; [|done]. rewrite (Hf _ _ _ Ev).
      by destruct (eqb _ _).
    - rewrite phases_view in H2 by done. unfold is_new, is_replaced. rewrite active_state_view.
      destruct (view s (spec_addr x)) as [[id t]|] eqn:Ev; simpl in *; [|done]. rewrite (Hf _ _ _ Ev) in H2.
      by destruct (eqb _ _). }
  destruct (fold_view (add_listener bind) spec_addr (λ _ v, v = None)
    (λ x _ v', if bind x then ∃ id', v' = Some (id', task_new x) else v' = None) (plan_add plan) s3)
    as (? & ? & Hin & Hout); try done.
  - apply steady_add.
  - intros s0 x ? W0 Hv. split_and!; [by apply add_wf| |].
    + rewrite add_view by done. rewrite decide_True by done. destruct (bind x); [by eexists|done].
    + intros b Hb. rewrite add_view by done. by rewrite decide_False.
  - unfold plan. rewrite plan_eq. by apply NoDup_addr_filter.
  - intros x Hx. by apply Hadd.
  - split_and!; [done..| |].
    + intros x Hx. pose proof (phases_view x Hx) as Hv. unfold settled. destruct (view s3 (spec_addr x)) as [v|] eqn:E3.
      * assert (view s' (spec_addr x) = Some v) as ->.
        { rewrite Hout; [done|]. intros (y & Ey & [Hy Hvy]%Hadd)%list_elem_of_fmap.
          rewrite (addr_inj desired x y) in E3 by done. congruence. }
        destruct (view s (spec_addr x)) as [[id t]|]; [|done]. by destruct (eqb _ _).
      * assert (if bind x then ∃ id', view s' (spec_addr x) = Some (id', task_new x) else view s' (spec_addr x) = None)
          by (apply Hin, Hadd; done).
        destruct (view s (spec_addr x)) as [[id t]|]; [|done]. by destruct (eqb _ _).
    + intros a Ha. assert (∀ l, l ⊆ desired → a ∉ spec_addr <$> l) as Hn.
      { intros l Hl (y & -> & Hy)%list_elem_of_fmap. apply Ha. by apply list_elem_of_fmap_2, Hl. }
      assert (∀ P : ListenerSpec → bool, filter (λ x, P x = true) desired ⊆ desired) as Hsub
        by (intros P x [_ ?]%list_elem_of_filter; done).
      destruct phase_remove as (_ & _ & R1 & R2), phase_reprotocol as (_ & _ & _ & P2).
      change (view s' a) with (view (foldl (add_listener bind) s3 (plan_add plan)) a).
      rewrite Hout by (apply Hn; intros ? [? _]%Hadd; done).
      rewrite X2 by (apply Hn; unfold plan; rewrite plan_eq; apply Hsub).
      rewrite P2 by (apply Hn; unfold plan; rewrite plan_eq; apply Hsub).
      destruct (decide (a ∈ plan_remove plan)) as [Hin'|Hno]; [by apply R1|]. rewrite R2 by done.
      destruct (view s a) as [v|] eqn:Ev; [|done]. destruct Hno. apply elem_remove; [done..|]. left. by rewrite Ev.
Qed.

End reconcile.

(** ** The invariant *)

Definition edge_inv (s : Edge) : Prop := edge_wf s ∧ families_agree s.

Lemma edge_inv_new reports : edge_inv (Edge_new reports).
Proof.
  split; [split; simpl; try done|].
  - intros a id t. unfold view. simpl. by rewrite lookup_empty.
Qed.

Lemma inv_reconcile bind desired s :
  steady s → NoDup (spec_addr <$> desired) → edge_inv s → edge_inv (reconcile_listeners bind desired s).
Proof.
  intros St Hnd [W Hf]. destruct (reconcile_view bind desired s St W Hf Hnd) as (W' & _ & Hin & Hout).
  split; [done|]. intros a id t Hv. destruct (decide (a ∈ spec_addr <$> desired)) as [Ha|Ha].
  - apply list_elem_of_fmap in Ha as (x & -> & Hx). specialize (Hin x Hx). unfold settled in Hin. rewrite Hv in Hin.
    destruct (view s (spec_addr x)) as [[id0 t0]|] eqn:Ev.
    + destruct (eqb _ _) eqn:E; [|destruct (bind x); [destruct Hin; by simplify_eq|done]].
      simplify_eq. simpl. by apply eqb_prop.
    + destruct (bind x); [destruct Hin; by simplify_eq|done].
  - by rewrite Hout in Hv.
Qed.

Lemma inv_publish s : edge_inv s → edge_inv (publish_bound_ports s).
Proof. intros [[] Hf]. by split; [split|]. Qed.

Lemma inv_shutdown s : edge_inv s → edge_inv (raise_shutdown s).
Proof. intros [[] Hf]. split; [split; try done; by right|done]. Qed.

(** Cancelling a list of tasks. *)
Lemma cancel_all_lookup ids (m : gmap nat ListenerTask) id :
  foldl (λ ts id, alter task_cancel id ts) m ids !! id =
    (λ t, if bool_decide (id ∈ ids) then task_cancel t else t) <$> m !! id.
Proof.
  induction ids as [|i ids IH] in m |- *; simpl; [by destruct (m !! id)|]. rewrite IH.
  destruct (decide (i = id)) as [-> | Hne].
  - rewrite lookup_alter_eq, (bool_decide_eq_true_2 (id ∈ id :: ids)) by left. destruct (m !! id); simpl; [|done].
    by destruct (bool_decide _).
  - rewrite lookup_alter_ne by done. destruct (m !! id); simpl; [|done].
    rewrite (bool_decide_ext (id ∈ i :: ids) (id ∈ ids)); [done|]. rewrite elem_of_cons. naive_solver.
Qed.

Lemma cancel_all_count ids (m : gmap nat ListenerTask) :
  map_count live (foldl (λ ts id, alter task_cancel id ts) m ids) = map_count live m.
Proof.
  induction ids as [|i ids IH] in m |- *; simpl; [done|]. rewrite IH. by apply map_count_alter_same.
Qed.

Lemma active_ids s id : id ∈ (hash_iter (active s)).*2 ↔ ∃ a, active s !! a = Some id.
Proof.
  rewrite list_elem_of_fmap. split.
  - intros ([a i] & -> & Hi%hash_iter_elem). by exists a.
  - intros [a Ha%hash_iter_elem]. by exists (a, id).
Qed.

Lemma signal_lookup s id t :
  edge_wf s → tasks (signal_all_drain s) !! id = Some t → ∃ t0, tasks s !! id = Some t0 ∧ t = task_cancel t0 ∨
    tasks s !! id = Some t ∧ lt_cancelled t = true.
Proof.
  intros W. unfold signal_all_drain. simpl. rewrite cancel_all_lookup. intros (t0 & Ht0 & ->)%fmap_Some. exists t0.
  case_bool_decide as Hi; [by left|]. right. split; [done|]. rewrite active_ids in Hi.
  destruct (lt_cancelled t0) eqn:E; [done|]. destruct Hi. exists (lt_addr t0). by apply (wf_tasks s W).
Qed.

Lemma inv_signal s : running s = true → shutdown s = true → edge_inv s → edge_inv (stop_running (signal_all_drain s)).
Proof.
  intros Hr Hs [W Hf].
  assert (∀ id t, tasks (signal_all_drain s) !! id = Some t → lt_cancelled t = true ∧
    ∃ t0, tasks s !! id = Some t0 ∧ lt_addr t = lt_addr t0 ∧ lt_conns t = lt_conns t0 ∧ lt_phase t = lt_phase t0 ∧
      lt_datagram t = lt_datagram t0 ∧ lt_protocol t = lt_protocol t0) as Hl.
  { intros id t [t0 [[? ->]|[? ?]]]%signal_lookup; [| |done]; (split; [done|]); by eexists. }
  split; [split; simpl|].
  - intros a id Ha. destruct (wf_active s W a id Ha) as (t & Ht & Hta & _). exists (task_cancel t).
    split; [|done]. rewrite cancel_all_lookup, Ht. simpl. rewrite bool_decide_eq_true_2; [done|].
    apply active_ids. by exists a.
  - intros id t [Hc (t0 & Ht0 & _)]%Hl. split; [by eapply (wf_tasks s W)|congruence].
  - intros id t [Hc _]%Hl _. by left.
  - intros id t [_ (t0 & Ht0 & _ & -> & -> & -> & _)]%Hl. by apply (wf_conns s W id).
  - done.
  - done.
  - rewrite cancel_all_count. apply (wf_total s W).
  - intros a id t [Ha [_ (t0 & Ht0 & _ & _ & _ & -> & ->)]%Hl]%view_Some. apply (Hf a id). by apply view_Some.
Qed.

(** A change of a task that keeps its identity and is no end of it. *)
Lemma inv_update s id t t' :
  tasks s !! id = Some t →
  lt_addr t' = lt_addr t ∧ lt_cancelled t' = lt_cancelled t ∧ lt_datagram t' = lt_datagram t ∧
    lt_protocol t' = lt_protocol t ∧ live t' = live t →
  (lt_phase t' ≠ Accepting → lt_cancelled t = true ∨ shutdown s = true) →
  ((length (lt_conns t') ≤ MAX_CONCURRENT_CONNECTIONS)%nat ∧
    (lt_phase t' = Exited ∨ lt_datagram t = true → lt_conns t' = [])) →
  edge_inv s → edge_inv (set_tasks <[id := t']> s).
Proof.
  intros Ht (E1 & E2 & E3 & E4 & E5) Hph Hcn [W Hf]. split; [split; simpl|].
  - intros a i Ha. destruct (wf_active s W a i Ha) as (u & Hu & Hua & Hc).
    destruct (decide (id = i)) as [<-|]; [|exists u; by rewrite lookup_insert_ne].
    exists t'. rewrite lookup_insert_eq. simplify_eq. by rewrite E1, E2.
  - intros i u [(<- & <-)|[Hne Hu]]%lookup_insert_Some; [|by apply (wf_tasks s W)].
    rewrite E1, E2. by apply (wf_tasks s W).
  - intros i u [(<- & <-)|[Hne Hu]]%lookup_insert_Some; [rewrite E2; done|exact (wf_phase s W i u Hu)].
  - intros i u [(<- & <-)|[Hne Hu]]%lookup_insert_Some; [by rewrite E3|exact (wf_conns s W i u Hu)].
  - apply (wf_stopped s W).
  - rewrite !(map_count_update _ _ _ _ _ Ht). unfold live_serving, live_draining. rewrite E2, E5.
    intros [-> ->]%(wf_gauges s W). unfold live_serving, live_draining. lia.
  - rewrite (map_count_update _ _ _ _ _ Ht), E5. pose proof (wf_total s W). lia.
  - intros a i u [Ha Hu]%view_Some. simpl in *. apply lookup_insert_Some in Hu as [(<- & <-)|[Hne Hu]].
    + rewrite E3, E4. apply (Hf a id). by apply view_Some.
    + apply (Hf a i). by apply view_Some.
Qed.

Lemma inv_exit s id t :
  tasks s !! id = Some t → lt_phase t = Draining → edge_inv s → edge_inv (task_exit id t s).
Proof.
  intros Ht Hp [W Hf]. unfold task_exit, release_listener_slot.
  assert (lt_cancelled t = true ∨ shutdown s = true) as Hcs by (apply (wf_phase s W id t Ht); congruence).
  split; [split; destruct (lt_cancelled t) eqn:Ec; simpl|].
  1-2: intros a i Ha; destruct (wf_active s W a i Ha) as (u & Hu & Hua & Hc);
    (destruct (decide (id = i)) as [<-|]; [|exists u; by rewrite lookup_insert_ne]);
    eexists; rewrite lookup_insert_eq; simplify_eq; by rewrite <-Hc.
  1-2: intros i u [(<- & <-)|[Hne Hu]]%lookup_insert_Some; [exact (wf_tasks s W id t Ht)|exact (wf_tasks s W i u Hu)].
  1-2: intros i u [(<- & <-)|[Hne Hu]]%lookup_insert_Some; [simpl; rewrite Ec; tauto|exact (wf_phase s W i u Hu)].
  1-2: intros i u [(<- & <-)|[Hne Hu]]%lookup_insert_Some; [split; [simpl; lia|done]|exact (wf_conns s W i u Hu)].
  1-2: apply (wf_stopped s W).
  1-2: intros Hr; destruct (wf_gauges s W Hr) as [-> ->]; rewrite !(map_count_update _ _ _ _ _ Ht);
    unfold live_serving, live_draining, live; simpl; rewrite Ec, Hp; simpl; lia.
  1-2: rewrite (map_count_update _ _ _ _ _ Ht), <-(wf_total s W); unfold live; simpl; rewrite Hp; simpl; lia.
  assert (∀ s0, active s0 = active s → tasks s0 = <[id:=task_at Exited [] t]> (tasks s) → families_agree s0) as Hgen.
  { intros s0 Ea Et a i u [Ha Hu]%view_Some. rewrite Ea in Ha. rewrite Et in Hu.
    apply lookup_insert_Some in Hu as [(<- & <-)|[Hne Hu]];
      [apply (Hf a id t)|apply (Hf a i)]; by apply view_Some. }
  by destruct (lt_cancelled t); apply Hgen.
Qed.

Lemma inv_step s s' : edge_step s s' → edge_inv s → edge_inv s'.
Proof.
  intros Hst I. destruct Hst as [bind desired s Hr Hs Hnd|s|s Hr Hs|id t s Ht Hp Hd|id t i s Ht|id t s Ht Hp Hc
    |id t s Ht Hp Hc|id t s Ht Hp Hd].
  - by apply inv_publish, inv_reconcile.
  - by apply inv_shutdown.
  - by apply inv_signal.
  - destruct I as [W Hf]. pose proof (wf_conns s W id t Ht). unfold task_accept.
    destruct (Nat.ltb_spec (length (lt_conns t)) MAX_CONCURRENT_CONNECTIONS); apply (inv_update s id t); try done;
      simpl; rewrite ?length_app, ?Hp, ?Hd; simpl; try done. split; [lia|]. by intros [|].
  - pose proof (wf_conns s (proj1 I) id t Ht) as [Hl He]. apply (inv_update s id t); try done; simpl.
    + apply (wf_phase s (proj1 I) id t Ht).
    + split; [|intros ->%He; done]. pose proof (sublist_length _ _ (sublist_delete (lt_conns t) i)). lia.
  - pose proof (wf_conns s (proj1 I) id t Ht) as [Hl He]. apply (inv_update s id t); try done; simpl.
    + split_and!; try done. unfold live. simpl. by rewrite Hp.
    + split; [done|]. intros [?|?]; [done|]. by apply He; right.
  - by apply inv_exit.
  - by apply inv_exit.
Qed.

Lemma edge_run_inv s : edge_run s → edge_inv s.
Proof.
  intros [reports Hrun]. remember (Edge_new reports) as s0. assert (edge_inv s0) as I by (subst; apply edge_inv_new).
  clear Heqs0. induction Hrun; [done|]. by eapply IHHrun, inv_step.
Qed.

(** ** What a reconcile achieves *)

(** C12: After a reconcile of a running proxy the bound listeners are exactly the
    desired ones, with the desired protocol and PROXY configuration, except those that
    had to be bound and could not be; a listener that was bound on a socket of the right
    kind keeps that socket and its connections. *)
Theorem reconcile_converges (bind : ListenerSpec → bool) (desired : list ListenerSpec) (s : Edge) :
  edge_run s → running s = true → shutdown s = false → NoDup (spec_addr <$> desired) →
  let s' := reconcile_listeners bind desired s in
  (∀ a st, active_state s' !! a = Some st ↔
    ∃ spec, spec ∈ desired ∧ spec_addr spec = a ∧ st = mkActiveState (spec_protocol spec) (spec_proxy spec) ∧
      (bind spec = true ∨
       ∃ id t, active s !! a = Some id ∧ tasks s !! id = Some t ∧ lt_datagram t = is_udp (spec_protocol spec))) ∧
  (∀ spec id t, spec ∈ desired → active s !! spec_addr spec = Some id → tasks s !! id = Some t →
    lt_datagram t = is_udp (spec_protocol spec) →
    active s' !! spec_addr spec = Some id ∧
    tasks s' !! id = Some (task_push (spec_protocol spec) (spec_proxy spec) t)).
Proof.
  intros [W Hf]%edge_run_inv Hr Hs Hnd s'.
  destruct (reconcile_view bind desired s (conj Hr Hs) W Hf Hnd) as (W' & _ & Hin & Hout). split.
  - intros a st. rewrite active_state_view. split.
    + intros ([id t] & Hv & ->)%fmap_Some. destruct (decide (a ∈ spec_addr <$> desired)) as [Ha|Ha];
        [|by rewrite Hout in Hv].
      apply list_elem_of_fmap in Ha as (x & -> & Hx). specialize (Hin x Hx). exists x. split_and!; [done..| |];
        unfold settled in Hin; unfold s' in Hv; rewrite Hv in Hin; destruct (view s (spec_addr x)) as [[i u]|] eqn:Ev.
      * destruct (eqb _ _); [by simplify_eq|]. destruct (bind x); [destruct Hin; by simplify_eq|done].
      * destruct (bind x); [destruct Hin; by simplify_eq|done].
      * apply view_Some in Ev as [? ?]. destruct (eqb _ _) eqn:E; [right; exists i, u; by apply eqb_prop in E|].
        destruct (bind x); [by left|done].
      * destruct (bind x); [by left|done].
    + intros (x & Hx & <- & -> & Hor). specialize (Hin x Hx). unfold settled in Hin. fold s' in Hin.
      destruct (view s (spec_addr x)) as [[i u]|] eqn:Ev.
      * destruct (eqb _ _) eqn:E; [by rewrite Hin|]. destruct (bind x); [by destruct Hin as [? ->]|].
        destruct Hor as [?|(id & t & Ha & Ht & Hd)]; [done|]. apply view_Some in Ev as [? ?]. simplify_eq.
        by rewrite Hd, eqb_reflx in E.
      * destruct (bind x); [by destruct Hin as [? ->]|]. destruct Hor as [?|(id & t & Ha & _)]; [done|].
        apply view_None in Ev; [|done]. congruence.
  - intros x id t Hx Ha Ht Hd. specialize (Hin x Hx). unfold settled in Hin.
    rewrite (proj2 (view_Some s _ id t) (conj Ha Ht)), Hd, eqb_reflx in Hin. by apply view_Some in Hin.
Qed.

(** ** The report of bound ports *)

Lemma report_step s s' :
  edge_step s s' → (∀ tx, bound_ports s = Some tx → tx.1 = active_ports s) →
  ∀ tx, bound_ports s' = Some tx → tx.1 = active_ports s'.
Proof.
  intros Hst Hb. destruct Hst; try done.
  - intros tx (tx0 & Hp & ->)%fmap_Some. by case_bool_decide.
  - intros tx. unfold task_exit, release_listener_slot. destruct (lt_cancelled t); apply Hb.
  - intros tx. unfold task_exit, release_listener_slot. destruct (lt_cancelled t); apply Hb.
Qed.

(** C13: Until shutdown the reported ports are exactly those of the listeners with a
    live accept loop that has not been told to stop. *)
Theorem bound_ports_truthful (s : Edge) (ports : gset Z) (version : Z) :
  edge_run s → running s = true → shutdown s = false → bound_ports s = Some (ports, version) →
  ∀ p, p ∈ ports ↔
    ∃ id t, tasks s !! id = Some t ∧ lt_phase t = Accepting ∧ lt_cancelled t = false ∧ sa_port (lt_addr t) = p.
Proof.
  intros Hrun Hr Hs Hb p. pose proof (edge_run_inv s Hrun) as [W _]. destruct Hrun as [reports Hrun].
  assert (∀ tx, bound_ports s = Some tx → tx.1 = active_ports s) as Hrep.
  { clear -Hrun. remember (Edge_new reports) as s0.
    assert (∀ tx, bound_ports s0 = Some tx → tx.1 = active_ports s0) as H0 by (subst; by destruct reports; intros ? [= <-]).
    clear Heqs0. induction Hrun; [done|]. by eapply IHHrun, report_step. }
  specialize (Hrep _ Hb). simpl in Hrep. subst ports. unfold active_ports. rewrite elem_of_map. split.
  - intros (a & -> & [id Ha]%elem_of_dom). destruct (wf_active s W a id Ha) as (t & Ht & <- & _).
    destruct (active_accepts s (lt_addr t) id t) as (_ & ? & ?); [done..|by apply view_Some|]. by exists id, t.
  - intros (id & t & Ht & _ & Hc & <-). exists (lt_addr t). split; [done|]. apply elem_of_dom.
    exists id. by apply (wf_tasks s W).
Qed.

(** ** Shutdown *)

Lemma stopped_cancelled s id t : edge_wf s → running s = false → tasks s !! id = Some t → lt_cancelled t = true.
Proof.
  intros W Hr Ht. destruct (lt_cancelled t) eqn:E; [done|].
  pose proof (proj2 (wf_tasks s W id t Ht) E) as Ha. destruct (wf_active s W _ _ Ha) as (u & Hu & _ & Hc).
  rewrite Hr in Hc. simpl in Hc. congruence.
Qed.

(** Once the acceptor has signalled the drain of a shutdown, no listener that
    exits leaves the serving gauge: it stays where it was, and when every listener has
    exited the draining gauge is as far below zero. *)
Theorem shutdown_strands_serving (s s' : Edge) :
  edge_run s → running s = false → rtc edge_step s s' →
  serving s' = serving s ∧
  ((∀ id t, tasks s' !! id = Some t → lt_phase t = Exited) → draining s' = (- serving s)%Z).
Proof.
  intros I%edge_run_inv Hr Hst. assert (edge_inv s' ∧ running s' = false ∧ serving s' = serving s) as (I' & _ & E).
  { induction Hst as [|s s1 s' Hs1 Hst IH]; [done|]. pose proof (inv_step _ _ Hs1 I) as I1.
    assert (running s1 = false ∧ serving s1 = serving s) as [Hr1 E1].
    { destruct Hs1; try done; try congruence; unfold task_exit, release_listener_slot;
        rewrite (stopped_cancelled s id t) by (done || apply I); done. }
    destruct (IH I1 Hr1) as (? & ? & ?). split_and!; [done..|congruence]. }
  split; [done|]. intros Hex. pose proof (wf_total s' (proj1 I')) as Ht.
  rewrite (map_count_zero live) in Ht; [lia|]. intros id t Hid. unfold live. by rewrite (Hex id t Hid).
Qed.

End facts.

(** ** Witnesses *)

Module EdgeDemo.
#[local] Existing Instance list_order.

Definition addr (p : Z) : SocketAddr := mkSocketAddr (V4 0) p.
Definition web : ListenerSpec := mkSpec (addr 443) LHttps None.
Definition hybrid : ListenerSpec := mkSpec (addr 443) LTlsHybrid None.
Definition dns : ListenerSpec := mkSpec (addr 53) LUdp None.

(** Only the stream listener can be bound. *)
Definition no_dns (spec : ListenerSpec) : bool := negb (is_udp (spec_protocol spec)).

Definition up : Edge := publish_bound_ports (reconcile_listeners no_dns [web; dns] (Edge_new true)).
Definition down : Edge := stop_running (signal_all_drain (raise_shutdown up)).
Definition https_task : ListenerTask := task_cancel (task_new web).
Definition stopping : Edge := set_tasks <[0%nat := task_at Draining [] https_task]> down.
Definition gone : Edge := task_exit 0 (task_at Draining [] https_task) stopping.

Lemma desired_NoDup : NoDup (spec_addr <$> [web; dns]).
Proof. by apply (bool_decide_unpack _). Qed.

Lemma up_run : edge_run up.
Proof. exists true. apply rtc_once. apply (es_reconcile no_dns [web; dns]); [done..|apply desired_NoDup]. Qed.

Lemma down_run : edge_run down.
Proof.
  destruct up_run as [r Hr]. exists r. etrans; [exact Hr|].
  eapply rtc_l; [apply es_shutdown|]. apply rtc_once. by apply es_signal.
Qed.

Lemma down_gone : rtc edge_step down gone.
Proof.
  eapply rtc_l; [apply (es_stop 0 https_task); [by vm_compute|done|by left]|].
  apply rtc_once. apply (es_drained 0); [by vm_compute|done|done].
Qed.
End EdgeDemo.
Import EdgeDemo.

Lemma reconcile_converges_witness :
  active_state (reconcile_listeners (H := list_order) no_dns [hybrid; dns] up) !! addr 443
    = Some (mkActiveState (spec_protocol hybrid) (spec_proxy hybrid)) ↔
    ∃ spec, spec ∈ [hybrid; dns] ∧ spec_addr spec = addr 443 ∧
      mkActiveState (spec_protocol hybrid) (spec_proxy hybrid) = mkActiveState (spec_protocol spec) (spec_proxy spec) ∧
      (no_dns spec = true ∨
       ∃ id t, active up !! addr 443 = Some id ∧ tasks up !! id = Some t ∧ lt_datagram t = is_udp (spec_protocol spec)).
Proof.
  apply (reconcile_converges (H := list_order) no_dns [hybrid; dns] up up_run); [done|done|].
  by apply (bool_decide_unpack _).
Defined.

Lemma bound_ports_truthful_witness :
  (443%Z ∈ ({[443%Z]} : gset Z)) ↔
    ∃ id t, tasks up !! id = Some t ∧ lt_phase t = Accepting ∧ lt_cancelled t = false ∧ sa_port (lt_addr t) = 443%Z.
Proof. apply (bound_ports_truthful up {[443%Z]} 1 up_run); [done|done|by vm_compute]. Defined.

Lemma shutdown_strands_serving_witness : serving gone = 1%Z ∧ draining gone = (-1)%Z.
Proof.
  destruct (shutdown_strands_serving down gone down_run ltac:(done) down_gone) as [-> Hd].
  split; [by vm_compute|]. rewrite Hd; [by vm_compute|].
  intros id t. change (tasks gone) with (<[0%nat := task_at Exited [] https_task]> (tasks stopping)).
  intros [(_ & <-)|[Hne Ht]]%lookup_insert_Some; [done|]. exfalso. revert Ht.
  change (tasks stopping) with (<[0%nat := task_at Draining [] https_task]> (tasks down)).
  rewrite lookup_insert_ne by done. assert (tasks down = {[0%nat := https_task]}) as -> by by vm_compute.
  by rewrite lookup_singleton_ne.
Defined.
