(* ===== verification/ListenerStatus.v ===== *)
(** * From effective listeners to bound ports

    Models how the listeners of a Gateway become listeners of a proxy: their
    certificates and readiness ([gateway_api/reconcile_tls.rs], [tls.rs] and
    [reconcile_tls] of [gateway_api/reconcile.rs] in [crates/coxswain-reflector/src]),
    the readiness on the wire ([wire/listener_status.rs] and [wire/scope.rs] of
    [crates/coxswain-discovery/src]) and the specifications the acceptor gets
    ([derive_gateway_specs] and [derive_advertised_ports] in
    [crates/coxswain-bin/src/services.rs]).  Messages for people are left out. *)

From S2P Require Import Prelude Net External Config Filters Entry Backend HostRouter Tls ResourceKey.
From S2P Require Import Bindings AccessControl ListenerMerge EdgeListeners.

(** ** Secrets *)

Record Secret := mkSecret {
  secret_type : option str;
  secret_data : option (gmap str str);
}.

Inductive TlsLoadError := NotFound | WrongType | MissingCert | MissingKey | InvalidPem.

(** The crate [x509_parser]: the expiry and the algorithm identifier of the leaf. *)
Class X509Lib := { x509_leaf : str → option (Z * str) }.

(** [windows(10).any(..)] *)
Fixpoint has_infix (p s : str) : bool :=
  starts_with p s || match s with [] => false | _ :: s' => has_infix p s' end.

Section certificates.
Context `{X509Lib}.

(** [None] is a parse failure, which leaves the defaults. *)
Definition parse_leaf_cert_metadata (pem : str) : option Z * KeyAlgorithm :=
  match x509_leaf pem with
  | None => (None, OtherAlgorithm)
  | Some (ts, oid) =>
      (if (ts <? 0)%Z then None else Some ts,
       if bool_decide (oid = lit "1.2.840.113549.1.1.1") then Rsa
       else if bool_decide (oid = lit "1.2.840.10045.2.1") then Ecdsa else OtherAlgorithm)
  end.

Definition load_tls_cert (ns name : str) (store : gmap ObjectKey Secret) : result TlsCert TlsLoadError :=
  match store !! (ns, name) with
  | None => Err NotFound
  | Some secret =>
      if negb (bool_decide (default [] (secret_type secret) = lit "kubernetes.io/tls")) then Err WrongType
      else match secret_data secret with
           | None => Err MissingCert
           | Some data =>
               match data !! lit "tls.crt" with
               | None => Err MissingCert
               | Some crt =>
                   match data !! lit "tls.key" with
                   | None => Err MissingKey
                   | Some key =>
                       if negb (has_infix (lit "-----BEGIN") crt) then Err InvalidPem
                       else if negb (has_infix (lit "-----BEGIN") key) then Err InvalidPem
                       else
                         let '(not_after, algorithm) := parse_leaf_cert_metadata crt in
                         Ok (with_key_algorithm algorithm (with_not_after not_after
                           (TlsCert_new crt key (object_key_display (ns, name)))))
                   end
               end
           end
  end.

(** ** Readiness *)

Inductive ListenerReadiness :=
| NotApplicable | Resolved | RefNotPermitted | InvalidCertificateRef | Invalid | Unsupported
| UnsupportedProtocol | ResolvedPartial | TlsPassthrough | TlsTerminate | VipPending | TcpProxy | UdpProxy.

#[export] Instance ListenerReadiness_eq_dec : EqDecision ListenerReadiness.
Proof. solve_decision. Defined.

(** The certificate part of [reconcile_tls]: a builder, the loaded references and, for
    each failed one, whether a grant was missing. *)
Record CertState := mkCertState {
  cs_builder : PortTlsStoreBuilder;
  cs_resolved : nat;
  cs_failures : list bool;
}.

Section resolve.
Context (secrets : gmap ObjectKey Secret) (grants : gset ReferenceGrantKey).

Definition resolve_ref (owning_ns hostname : str) (bind_port : Z) (install_certs : bool) (st : CertState)
    (r : CertRef) : CertState :=
  let fail b := mkCertState (cs_builder st) (cs_resolved st) (cs_failures st ++ [b]) in
  let ref_kind := default (lit "Secret") (cr_kind r) in
  let ref_group := default [] (cr_group r) in
  if negb (bool_decide (ref_kind = lit "Secret")) ||
     (negb (bool_decide (ref_group = [])) && negb (bool_decide (ref_group = lit "core"))) then fail false
  else
    let ref_ns := default owning_ns (cr_namespace r) in
    if negb (bool_decide (ref_ns = owning_ns)) && negb (backend_ref_allowed owning_ns ref_ns (cr_name r) grants)
    then fail true
    else match load_tls_cert ref_ns (cr_name r) secrets with
         | Ok cert =>
             mkCertState (if install_certs then port_add_cert (cs_builder st) bind_port hostname cert else cs_builder st)
               (S (cs_resolved st)) (cs_failures st)
         | Err _ => fail false
         end.

Definition resolve_listener_tls (l : EffectiveListener) (builder : PortTlsStoreBuilder) (bind_port : Z)
    (install_certs : bool) : PortTlsStoreBuilder * ListenerReadiness :=
  match el_tls l with
  | None => (builder, InvalidCertificateRef)
  | Some tls =>
      if passthrough tls then (builder, Invalid)
      else match certificate_refs tls with
           | [] => (builder, InvalidCertificateRef)
           | refs =>
               let st := foldl (resolve_ref (owning_namespace l) (el_host l) bind_port install_certs)
                           (mkCertState builder 0 []) refs in
               (cs_builder st,
                if Nat.eqb (cs_resolved st) 0 then
                  if existsb id (cs_failures st) then RefNotPermitted else InvalidCertificateRef
                else match cs_failures st with [] => Resolved | _ => ResolvedPartial end)
           end
  end.

End resolve.

End certificates.

Record ListenerStatusInfo := mkStatusInfo {
  readiness : ListenerReadiness;
  li_hostname : str;
  li_route_namespaces : RouteNamespaceSet;
  li_port : Z;
  internal_port : Z;
  li_conflict : ConflictReason;
  li_proxy : option ProxyProtocolListenerConfig;
}.

(** [ListenerInfo::bind_port] *)
Definition info_bind_port (i : ListenerStatusInfo) : Z :=
  if negb (internal_port i =? 0)%Z then internal_port i else li_port i.

(** [ListenerStatusKey] and the order of its [BTreeMap]. *)
Notation StatusKey := (ListenerSource * str)%type.

Definition source_leb (a b : ListenerSource) : bool :=
  match a, b with
  | SrcGateway, _ => true
  | SrcListenerSet _ _, SrcGateway => false
  | SrcListenerSet n1 m1, SrcListenerSet n2 m2 => if bool_decide (n1 = n2) then str_leb m1 m2 else str_leb n1 n2
  end.

Definition status_key_leb {V} (a b : StatusKey * V) : bool :=
  if bool_decide (a.1.1 = b.1.1) then str_leb a.1.2 b.1.2 else source_leb a.1.1 b.1.1.

Notation GatewayListenerStatus := (gmap StatusKey ListenerStatusInfo).

Definition status_iter (m : GatewayListenerStatus) : list (StatusKey * ListenerStatusInfo) :=
  sort_by status_key_leb (map_to_list m).

Section reconcile_tls.
Context `{X509Lib} (internal_ports : gmap Z Z) (secrets : gmap ObjectKey Secret).
Context (cert_grants ls_cert_grants : gset ReferenceGrantKey).

Definition grants_for_source (s : ListenerSource) : gset ReferenceGrantKey :=
  match s with SrcGateway => cert_grants | SrcListenerSet _ _ => ls_cert_grants end.

(** [listener.port as u16] *)
Definition listener_port (l : EffectiveListener) : Z := wrap 16 (el_port l).
Definition port_of (l : EffectiveListener) : Z := default 0%Z (internal_ports !! listener_port l).
Definition listener_bind_port (l : EffectiveListener) : Z :=
  if negb (port_of l =? 0)%Z then port_of l else listener_port l.

Definition listener_readiness (builder : PortTlsStoreBuilder) (l : EffectiveListener) :
    PortTlsStoreBuilder * ListenerReadiness :=
  let vip_pending := (port_of l =? 0)%Z in
  let resolve := resolve_listener_tls secrets (grants_for_source (el_source l)) l builder (listener_bind_port l)
                   (negb vip_pending) in
  let proto p := bool_decide (el_protocol l = lit p) in
  if is_conflicted (el_conflict l) then (builder, NotApplicable)
  else if proto "TLS"%string && match el_tls l with Some t => passthrough t | None => false end then
    (builder, if vip_pending then VipPending else TlsPassthrough)
  else if proto "TLS"%string then
    (resolve.1, match resolve.2 with
                | Resolved => if vip_pending then VipPending else TlsTerminate
                | other => other
                end)
  else if proto "HTTP"%string then (builder, NotApplicable)
  else if proto "TCP"%string then (builder, if vip_pending then VipPending else TcpProxy)
  else if proto "UDP"%string then (builder, if vip_pending then VipPending else UdpProxy)
  else if negb (proto "HTTPS"%string) then (builder, UnsupportedProtocol)
  else (resolve.1, match resolve.2 with
                   | Resolved => if vip_pending then VipPending else Resolved
                   | other => other
                   end).

Definition reconcile_one (st : PortTlsStoreBuilder * GatewayListenerStatus) (l : EffectiveListener) :
    PortTlsStoreBuilder * GatewayListenerStatus :=
  let '(builder, r) := listener_readiness st.1 l in
  (builder,
   <[(el_source l, el_name l) :=
       mkStatusInfo r (el_host l) (el_route_namespaces l) (listener_port l) (port_of l) (el_conflict l) None]> st.2).

Definition reconcile_tls (builder : PortTlsStoreBuilder) (listeners : list EffectiveListener) :
    PortTlsStoreBuilder * GatewayListenerStatus :=
  foldl reconcile_one (builder, ∅) listeners.

End reconcile_tls.

(** ** The wire *)

(** [listener_info_to_wire] then [listener_info_from_wire] on the readiness. *)
Definition readiness_over_wire (r : ListenerReadiness) : ListenerReadiness :=
  match r with
  | UnsupportedProtocol | VipPending => Unsupported
  | r => r
  end.

(** The other fields the proxy reads; the namespaces are reduced to all or none. *)
Definition info_over_wire (i : ListenerStatusInfo) : ListenerStatusInfo :=
  mkStatusInfo (readiness_over_wire (readiness i)) (li_hostname i)
    (match li_route_namespaces i with AllNamespaces => AllNamespaces | OnlyNamespaces _ => OnlyNamespaces ∅ end)
    (li_port i) (internal_port i) (li_conflict i) (li_proxy i).

(** ** Specifications *)

Definition readiness_protocol (r : ListenerReadiness) : ListenerProtocol :=
  match r with
  | NotApplicable => LHttp
  | TlsPassthrough | TlsTerminate => LTlsL4
  | TcpProxy => LTcp
  | UdpProxy => LUdp
  | _ => LHttps
  end.

Notation PortState := (ListenerProtocol * option ProxyProtocolListenerConfig)%type.

Definition merge_port (existing : PortState) (new_proto : ListenerProtocol)
    (new_pp : option ProxyProtocolListenerConfig) : PortState :=
  (match existing.1, new_proto with
   | LTlsL4, LHttps | LHttps, LTlsL4 => LTlsHybrid
   | p, _ => p
   end,
   match existing.2 with None => new_pp | Some pp => Some pp end).

Definition derive_one (excluded : gset Z) (m : gmap Z PortState) (info : ListenerStatusInfo) : gmap Z PortState :=
  let port := info_bind_port info in
  if bool_decide (port ∈ excluded) then m
  else
    let new_proto := readiness_protocol (readiness info) in
    match m !! port with
    | Some existing => <[port := merge_port existing new_proto (li_proxy info)]> m
    | None => <[port := (new_proto, li_proxy info)]> m
    end.

Section specs.
Context `{HashIter}.

(** The infos of a snapshot, in the order they are visited. *)
Definition health_infos (health : gmap ObjectKey GatewayListenerStatus) : list ListenerStatusInfo :=
  kv ← hash_iter health; (status_iter kv.2).*2.

Definition derive_port_state (health : gmap ObjectKey GatewayListenerStatus) (excluded : gset Z) : gmap Z PortState :=
  foldl (derive_one excluded) ∅ (health_infos health).

Definition derive_gateway_specs (health : gmap ObjectKey GatewayListenerStatus) (bind_addr : IpAddr)
    (excluded : gset Z) : list ListenerSpec :=
  (λ '(port, (protocol, pp)), mkSpec (mkSocketAddr bind_addr port) protocol pp)
    <$> hash_iter (derive_port_state health excluded).

Definition derive_advertised_ports (health : gmap ObjectKey GatewayListenerStatus) : gmap Z Z :=
  foldl (λ m info, <[info_bind_port info := li_port info]> m) ∅ (health_infos health).

End specs.
