(* ===== verification/ListenerStatusFacts.v ===== *)
(** * Facts about listener status

    Which certificates are installed and for whom, and which protocol a port is bound
    with, from the effective listeners of a Gateway. *)

From S2P Require Import Prelude Net External Config Filters Entry Backend HostRouter Tls ResourceKey.
From S2P Require Import Bindings AccessControl ListenerMerge ListenerMergeFacts EdgeListeners ListenerStatus.

Section facts.
Context `{HashIter, X509Lib}.

(** ** Ports *)

Definition on_port (p : Z) (infos : list ListenerStatusInfo) : list ListenerStatusInfo :=
  filter (λ i, info_bind_port i = p) infos.

Definition info_protocol (i : ListenerStatusInfo) : ListenerProtocol := readiness_protocol (readiness i).

(** The entry of one port over the infos of that port. *)
Fixpoint fold_port (o : option PortState) (il : list ListenerStatusInfo) : option PortState :=
  match il with
  | [] => o
  | i :: il' =>
      fold_port (Some match o with
                      | None => (info_protocol i, li_proxy i)
                      | Some st => merge_port st (info_protocol i) (li_proxy i)
                      end) il'
  end.

Lemma derive_fold excluded m infos p :
  foldl (derive_one excluded) m infos !! p =
    if decide (p ∈ excluded) then m !! p else fold_port (m !! p) (on_port p infos).
Proof.
  induction infos as [|i infos IH] in m |- *; simpl; [by case_decide|]. rewrite IH. unfold on_port at 2.
  rewrite filter_cons. unfold derive_one, info_protocol. destruct (decide (info_bind_port i = p)) as [<-|Hne].
  - case_bool_decide as Hx.
    + by rewrite !decide_True.
    + rewrite !decide_False by done. simpl. destruct (m !! info_bind_port i); by rewrite lookup_insert_eq.
  - case_bool_decide as Hx; [by case_decide|].
    destruct (m !! info_bind_port i); by rewrite lookup_insert_ne.
Qed.

Lemma derive_port health excluded p :
  derive_port_state health excluded !! p =
    if decide (p ∈ excluded) then None else fold_port None (on_port p (health_infos health)).
Proof. unfold derive_port_state. by rewrite derive_fold, lookup_empty. Qed.

Lemma fold_port_some o il : is_Some o → is_Some (fold_port o il).
Proof. induction il as [|i il IH] in o |- *; simpl; [done|]. intros _. by apply IH. Qed.

(** One specification for each address, so that a reconcile has no two listeners to
    bind in one place. *)
Lemma derive_specs_NoDup health bind_addr excluded :
  NoDup (spec_addr <$> derive_gateway_specs health bind_addr excluded).
Proof.
  unfold derive_gateway_specs. rewrite <-list_fmap_compose.
  assert ((spec_addr ∘ (λ '(port, (protocol, pp)), mkSpec (mkSocketAddr bind_addr port) protocol pp))
    <$> hash_iter (derive_port_state health excluded) =
    mkSocketAddr bind_addr <$> (hash_iter (derive_port_state health excluded)).*1) as ->.
  { rewrite <-list_fmap_compose. apply list_fmap_ext. by intros _ [port [protocol pp]] _. }
  apply NoDup_fmap; [intros ?? [=]; done|]. apply hash_iter_NoDup.
Qed.

Lemma derive_specs_elem health bind_addr excluded spec :
  spec ∈ derive_gateway_specs health bind_addr excluded ↔
    ∃ port, spec_addr spec = mkSocketAddr bind_addr port ∧
      derive_port_state health excluded !! port = Some (spec_protocol spec, spec_proxy spec).
Proof.
  unfold derive_gateway_specs. rewrite list_elem_of_fmap. split.
  - intros ([port [protocol pp]] & -> & Hp%hash_iter_elem). by exists port.
  - intros (port & Ha & Hp%hash_iter_elem). exists (port, (spec_protocol spec, spec_proxy spec)).
    split; [|done]. destruct spec. simpl in *. by subst.
Qed.

(** ** The protocol of a port *)

(** Listeners that may share a port: of one protocol, or TLS of either layer. *)
Definition shareable (ps : list ListenerProtocol) : Prop :=
  Forall (λ p, p = LHttps ∨ p = LTlsL4) ps ∨ ∀ p q, p ∈ ps → q ∈ ps → p = q.

(** The protocol they are served with together. *)
Definition port_join (ps : list ListenerProtocol) : option ListenerProtocol :=
  match ps with
  | [] => None
  | p :: _ => Some (if bool_decide (LHttps ∈ ps) && bool_decide (LTlsL4 ∈ ps) then LTlsHybrid else p)
  end.

Lemma fold_port_same st il :
  (∀ i, i ∈ il → info_protocol i = st.1) → fst <$> fold_port (Some st) il = Some st.1.
Proof.
  induction il as [|i il IH] in st |- *; intros Hall; simpl; [done|].
  assert ((merge_port st (info_protocol i) (li_proxy i)).1 = st.1) as E.
  { unfold merge_port. simpl. rewrite (Hall i) by left. by destruct st.1. }
  rewrite IH; [by rewrite E|]. intros j Hj. rewrite E. apply Hall. by right.
Qed.

Lemma fold_port_tls st il :
  st.1 ∈ [LHttps; LTlsL4; LTlsHybrid] → Forall (λ i, info_protocol i = LHttps ∨ info_protocol i = LTlsL4) il →
  fst <$> fold_port (Some st) il =
    Some (if decide (Forall (λ i, info_protocol i = st.1) il) then st.1 else LTlsHybrid).
Proof.
  intros Hst Hall. induction Hall as [|i il Hi Hall IH] in st, Hst |- *; simpl; [done|].
  set (st' := merge_port st (info_protocol i) (li_proxy i)).
  assert (st'.1 = if decide (info_protocol i = st.1) then st.1 else LTlsHybrid) as E.
  { unfold st', merge_port. simpl. rewrite !elem_of_cons in Hst. destruct Hst as [->|[->|[->|?%elem_of_nil]]]; [..|done];
      destruct Hi as [->| ->]; done. }
  rewrite IH.
  2: { rewrite E. case_decide; [done|]. right. right. left. }
  rewrite E. f_equal. destruct (decide (info_protocol i = st.1)) as [Ei|Ei].
  - destruct (decide (Forall _ il)) as [Ha|Ha].
    + rewrite decide_True; [done|]. by constructor.
    + rewrite decide_False; [done|]. by intros [? ?]%Forall_cons.
  - rewrite (decide_False (P:=Forall _ (i :: il))) by by intros [? ?]%Forall_cons.
    by case_decide.
Qed.

Lemma shareable_hybrid ps p :
  p ∈ ps → shareable ps →
  (LHttps ∈ ps ∧ LTlsL4 ∈ ps ↔ Forall (λ q, q = LHttps ∨ q = LTlsL4) ps ∧ ¬ Forall (λ q, q = p) ps).
Proof.
  intros Hp [Hall|Hsame].
  - split.
    + intros [H1 H2]. split; [done|]. intros Hf. rewrite Forall_forall in Hf. by rewrite <-(Hf _ H1) in Hf; discriminate (Hf _ H2).
    + intros [_ Hn]. apply not_Forall_Exists, Exists_exists in Hn as (q & Hq & Hne); [|apply _].
      simpl in Hne. rewrite Forall_forall in Hall. destruct (Hall p Hp) as [-> | ->], (Hall q Hq) as [-> | ->]; (done || by split).
  - split.
    + intros [H1 H2]. by specialize (Hsame _ _ H1 H2).
    + intros [_ Hn]. destruct Hn. apply Forall_forall. intros q Hq. by apply Hsame.
Qed.

(** The protocol of a port whose listeners can share it. *)
Lemma derive_specs_exact health excluded p :
  let ps := info_protocol <$> on_port p (health_infos health) in
  p ∉ excluded → shareable ps → fst <$> derive_port_state health excluded !! p = port_join ps.
Proof.
  intros ps Hx Hs. rewrite derive_port, decide_False by done. unfold ps in *. clear ps.
  destruct (on_port p (health_infos health)) as [|i il]; simpl in *; [done|].
  pose proof (shareable_hybrid _ (info_protocol i) ltac:(left) Hs) as Hh.
  destruct Hs as [Hall|Hsame].
  - pose proof Hall as [Hi Hil]%Forall_cons. rewrite Forall_fmap in Hil. rewrite fold_port_tls; simpl; [|set_solver|done].
    f_equal. rewrite <-bool_decide_and. rewrite (bool_decide_ext _ _ Hh). case_decide as Hf.
    + rewrite bool_decide_eq_false_2; [done|]. intros [_ Hn]. apply Hn. constructor; [done|]. by apply Forall_fmap.
    + rewrite bool_decide_eq_true_2; [done|]. split; [done|]. intros [_ Hf']%Forall_cons. apply Hf. by apply Forall_fmap in Hf'.
  - rewrite fold_port_same by (intros j Hj; apply Hsame; [right; by apply list_elem_of_fmap_2|left]). simpl. f_equal.
    rewrite <-bool_decide_and. rewrite bool_decide_eq_false_2; [done|]. intros [_ Hn]%Hh. apply Hn.
    apply Forall_forall. intros q Hq. apply Hsame; [done|left].
Qed.

Lemma port_join_perm ps qs : shareable ps → ps ≡ₚ qs → port_join ps = port_join qs.
Proof.
  intros Hs Hp. assert (shareable qs) as Hs'.
  { destruct Hs as [Hs|Hs]; [left; by rewrite <-Hp|right]. intros p q. rewrite <-Hp. apply Hs. }
  destruct ps as [|p ps]; [by apply Permutation_nil_l in Hp as ->|].
  destruct qs as [|q qs]; [by apply Permutation_nil_r in Hp|]. unfold port_join. f_equal.
  rewrite <-!bool_decide_and. assert ((LHttps ∈ p :: ps ∧ LTlsL4 ∈ p :: ps) ↔ (LHttps ∈ q :: qs ∧ LTlsL4 ∈ q :: qs)) as Heq
    by by rewrite Hp.
  rewrite (bool_decide_ext _ _ Heq). case_bool_decide as Hb; [done|].
  rewrite (shareable_hybrid _ q ltac:(left) Hs') in Hb.
  assert (p ∈ q :: qs) as Hin by (rewrite <-Hp; left). destruct Hs' as [Hall|Hsame]; [|apply Hsame; [done|left]].
  destruct (decide (Forall (λ x, x = q) (q :: qs))) as [Hf|]; [|tauto]. rewrite Forall_forall in Hf. by apply Hf.
Qed.

Lemma on_port_perm p l1 l2 : l1 ≡ₚ l2 → on_port p l1 ≡ₚ on_port p l2.
Proof. intros E. unfold on_port. by rewrite E. Qed.

End facts.

(** The infos of a snapshot in two orders. *)
Lemma health_infos_perm (it1 it2 : HashIter) health : @health_infos it1 health ≡ₚ @health_infos it2 health.
Proof. unfold health_infos. by rewrite (hash_iter_any it1 it2 health). Qed.

(** C24: Where the listeners of a port can share it, the protocol it is bound with
    does not depend on the order in which the Gateways are visited: it is that of its
    listeners, or the hybrid of TLS at layer 4 and HTTPS when both are there. *)
Theorem port_protocol_order_free (it1 it2 : HashIter) (health : gmap ObjectKey GatewayListenerStatus)
    (excluded : gset Z) (p : Z) :
  let ps := info_protocol <$> on_port p (@health_infos it1 health) in
  shareable ps → p ∉ excluded →
  fst <$> @derive_port_state it1 health excluded !! p = port_join ps ∧
  fst <$> @derive_port_state it2 health excluded !! p = port_join ps.
Proof.
  intros ps Hs Hx. split; [by apply (derive_specs_exact (H:=it1))|].
  assert (ps ≡ₚ info_protocol <$> on_port p (@health_infos it2 health)) as Hp
    by (unfold ps; by rewrite (on_port_perm p _ _ (health_infos_perm it1 it2 health))).
  rewrite (port_join_perm _ _ Hs Hp). apply (derive_specs_exact (H:=it2)); [done|].
  destruct Hs as [Hs|Hs]; [left; by rewrite <-Hp|right]. intros a b. rewrite <-!Hp. apply Hs.
Qed.

(** ** Certificates *)

Section certs.
Context `{X509Lib} (internal_ports : gmap Z Z) (secrets : gmap ObjectKey Secret).
Context (cert_grants ls_cert_grants : gset ReferenceGrantKey).

Abbreviation grants_of := (grants_for_source cert_grants ls_cert_grants).
Abbreviation bind_port_of := (listener_bind_port internal_ports).

(** A certificate installed for a listener: its own port and hostname, a Secret of its
    own namespace or of one that grants its kind of reference, and a port that has been
    allocated. *)
Definition authorised (l : EffectiveListener) (op : Z * str * TlsCert) : Prop :=
  is_conflicted (el_conflict l) = false ∧ port_of internal_ports l ≠ 0%Z ∧
  op.1 = (bind_port_of l, el_host l) ∧
  ∃ ns name, load_tls_cert ns name secrets = Ok op.2 ∧
    (ns = owning_namespace l ∨ backend_ref_allowed (owning_namespace l) ns name (grants_of (el_source l)) = true).

Definition install (b : PortTlsStoreBuilder) (ops : list (Z * str * TlsCert)) : PortTlsStoreBuilder :=
  foldl (λ b op, port_add_cert b op.1.1 op.1.2 op.2) b ops.

Lemma resolve_refs_install grants ns host port inst st refs :
  ∃ ops, cs_builder (foldl (resolve_ref secrets grants ns host port inst) st refs) = install (cs_builder st) ops ∧
    Forall (λ op, inst = true ∧ op.1 = (port, host) ∧
      ∃ rns name, load_tls_cert rns name secrets = Ok op.2 ∧ (rns = ns ∨ backend_ref_allowed ns rns name grants = true)) ops.
Proof.
  induction refs as [|r refs IH] in st |- *; simpl; [by exists []|].
  destruct (IH (resolve_ref secrets grants ns host port inst st r)) as (ops & E & Hops). rewrite E.
  assert (∃ ops1, cs_builder (resolve_ref secrets grants ns host port inst st r) = install (cs_builder st) ops1 ∧
    Forall (λ op, inst = true ∧ op.1 = (port, host) ∧
      ∃ rns name, load_tls_cert rns name secrets = Ok op.2 ∧ (rns = ns ∨ backend_ref_allowed ns rns name grants = true)) ops1)
    as (ops1 & -> & H1).
  { unfold resolve_ref. destruct (_ || _); [by exists []|]. destruct (_ && _) eqn:Eg; [by exists []|].
    destruct (load_tls_cert _ _ _) as [cert|] eqn:El; [|by exists []]. destruct inst; [|by exists []].
    exists [(port, host, cert)]. split; [done|]. constructor; [|done]. split_and!; [done..|].
    eexists _, _. split; [exact El|]. apply andb_false_iff in Eg as [Eg%negb_false_iff|Eg%negb_false_iff]; [|by right].
    left. by apply bool_decide_eq_true_1 in Eg. }
  exists (ops1 ++ ops). split; [unfold install; by rewrite foldl_app|]. by apply Forall_app.
Qed.

Lemma resolve_install l b :
  is_conflicted (el_conflict l) = false →
  ∃ ops, (resolve_listener_tls secrets (grants_of (el_source l)) l b (bind_port_of l)
           (negb (port_of internal_ports l =? 0)%Z)).1 = install b ops ∧ Forall (authorised l) ops.
Proof.
  intros Hc. unfold resolve_listener_tls. destruct (el_tls l) as [tls|]; [|by exists []].
  destruct (passthrough tls); [by exists []|]. destruct (certificate_refs tls) as [|r refs] eqn:Er; [by exists []|].
  destruct (resolve_refs_install (grants_of (el_source l)) (owning_namespace l) (el_host l) (bind_port_of l)
    (negb (port_of internal_ports l =? 0)%Z) (mkCertState b 0 []) (r :: refs)) as (ops & E & Hops).
  exists ops. split; [exact E|]. eapply Forall_impl; [exact Hops|]. intros op (Hi & ? & ?).
  split_and!; [done| |done..]. by apply negb_true_iff, Z.eqb_neq in Hi.
Qed.

Lemma readiness_install l b :
  ∃ ops, (listener_readiness internal_ports secrets cert_grants ls_cert_grants b l).1 = install b ops ∧
    Forall (authorised l) ops.
Proof.
  unfold listener_readiness. destruct (is_conflicted (el_conflict l)) eqn:Ec; [by exists []|].
  repeat (destruct (bool_decide _ && _); [by exists []|]). destruct (bool_decide _); [by apply resolve_install|].
  repeat (destruct (bool_decide _); [by exists []|]). destruct (negb _); [by exists []|]. by apply resolve_install.
Qed.


(** ** Readiness *)

(** The readiness of a listener does not depend on what has been installed. *)
Lemma resolve_refs_builder grants ns host port inst st st' refs :
  cs_resolved st = cs_resolved st' → cs_failures st = cs_failures st' →
  let f := foldl (resolve_ref secrets grants ns host port inst) in
  cs_resolved (f st refs) = cs_resolved (f st' refs) ∧ cs_failures (f st refs) = cs_failures (f st' refs).
Proof.
  simpl. induction refs as [|r refs IH] in st, st' |- *; intros H1 H2; [done|]. apply IH;
    unfold resolve_ref; repeat case_match; simpl; congruence.
Qed.

Lemma resolve_builder l b b' grants port inst :
  (resolve_listener_tls secrets grants l b port inst).2 = (resolve_listener_tls secrets grants l b' port inst).2.
Proof.
  unfold resolve_listener_tls. destruct (el_tls l) as [tls|]; [|done]. destruct (passthrough tls); [done|].
  destruct (certificate_refs tls) as [|r refs] eqn:Er; [done|].
  destruct (resolve_refs_builder grants (owning_namespace l) (el_host l) port inst (mkCertState b 0 [])
    (mkCertState b' 0 []) (r :: refs)) as [-> ->]; done.
Qed.

Definition readiness_of (l : EffectiveListener) : ListenerReadiness :=
  (listener_readiness internal_ports secrets cert_grants ls_cert_grants ∅ l).2.

Lemma readiness_builder l b : (listener_readiness internal_ports secrets cert_grants ls_cert_grants b l).2 = readiness_of l.
Proof.
  unfold readiness_of, listener_readiness. destruct (is_conflicted _); [done|].
  destruct (bool_decide _ && _); [done|]. destruct (bool_decide _); simpl; [by rewrite (resolve_builder l b ∅)|].
  repeat (destruct (bool_decide _); [done|]). destruct (negb _); simpl; [done|]. by rewrite (resolve_builder l b ∅).
Qed.

Definition status_key (l : EffectiveListener) : StatusKey := (el_source l, el_name l).
Definition info_of (l : EffectiveListener) : ListenerStatusInfo :=
  mkStatusInfo (readiness_of l) (el_host l) (el_route_namespaces l) (listener_port l) (port_of internal_ports l)
    (el_conflict l) None.

Lemma reconcile_tls_lookup b ls key info :
  NoDup (status_key <$> ls) →
  (reconcile_tls internal_ports secrets cert_grants ls_cert_grants b ls).2 !! key = Some info ↔
    ∃ l, l ∈ ls ∧ status_key l = key ∧ info = info_of l.
Proof.
  unfold reconcile_tls. induction ls as [|l ls IH] using rev_ind; intros Hnd.
  { simpl. rewrite lookup_empty. split; [done|]. by intros (? & ?%elem_of_nil & _). }
  rewrite foldl_snoc. rewrite fmap_app in Hnd. apply NoDup_app in Hnd as (Hnd & Hdis & _). specialize (IH Hnd).
  destruct (foldl _ _ ls) as [b1 m]. unfold reconcile_one. simpl in *.
  pose proof (readiness_builder l b1) as Er. destruct (listener_readiness _ _ _ _ _ _) as [b2 r]. simpl in *. subst r.
  change (el_source l, el_name l) with (status_key l). destruct (decide (status_key l = key)) as [<-|Hne].
  - rewrite lookup_insert_eq. split.
    + intros [= <-]. exists l. split_and!; [|done..]. apply elem_of_app. right. left.
    + intros (l' & [Hl'|Hl']%elem_of_app & Ek & ->).
      * destruct (Hdis (status_key l')); [by apply list_elem_of_fmap_2|]. rewrite Ek. left.
      * apply list_elem_of_singleton in Hl' as ->. done.
  - rewrite lookup_insert_ne, IH by done. split.
    + intros (l' & ? & ? & ?). exists l'. split; [|done]. apply elem_of_app. by left.
    + intros (l' & [Hl'|Hl']%elem_of_app & Ek & ->); [by exists l'|]. by apply list_elem_of_singleton in Hl' as ->.
Qed.

End certs.

(** ** The order of the status map *)

Lemma source_leb_total a b : source_leb a b = true ∨ source_leb b a = true.
Proof.
  destruct a as [|n1 m1], b as [|n2 m2]; simpl; auto. repeat case_bool_decide; subst; try done; apply str_leb_total.
Qed.

Lemma source_leb_antisym a b : source_leb a b = true → source_leb b a = true → a = b.
Proof.
  destruct a as [|n1 m1], b as [|n2 m2]; simpl; try done. repeat case_bool_decide; subst; try done.
  - intros ??. f_equal. by apply str_leb_antisym.
  - intros ??. by destruct (str_leb_antisym n1 n2).
Qed.

Lemma source_leb_trans a b c : source_leb a b = true → source_leb b c = true → source_leb a c = true.
Proof.
  destruct a as [|n1 m1], b as [|n2 m2], c as [|n3 m3]; simpl; try done.
  repeat case_bool_decide; subst; try done; try by apply str_leb_trans.
  intros ??. by destruct (str_leb_antisym n2 n3).
Qed.

Lemma status_key_total {V} (a b : StatusKey * V) : status_key_leb a b = true ∨ status_key_leb b a = true.
Proof.
  unfold status_key_leb. destruct (decide (a.1.1 = b.1.1)) as [E|E].
  - rewrite !bool_decide_eq_true_2 by done. apply str_leb_total.
  - rewrite !bool_decide_eq_false_2 by congruence. apply source_leb_total.
Qed.

Lemma status_key_trans {V} (a b c : StatusKey * V) :
  status_key_leb a b = true → status_key_leb b c = true → status_key_leb a c = true.
Proof.
  destruct a as [[sa na] va], b as [[sb nb] vb], c as [[sc nc] vc]. unfold status_key_leb. simpl.
  repeat case_bool_decide; subst; try done; try by apply str_leb_trans.
  - intros ??. by destruct (source_leb_antisym sb sc).
  - apply source_leb_trans.
Qed.

Lemma status_key_antisym {V} (a b : StatusKey * V) :
  status_key_leb a b = true → status_key_leb b a = true → a.1 = b.1.
Proof.
  destruct a as [[sa na] va], b as [[sb nb] vb]. unfold status_key_leb. simpl. repeat case_bool_decide; subst; try done.
  - intros ??. f_equal. by apply str_leb_antisym.
  - intros ??. by destruct (source_leb_antisym sa sb).
Qed.

Lemma health_infos_single `{HashIter} k m : health_infos {[k := m]} = (status_iter m).*2.
Proof.
  unfold health_infos. assert (hash_iter ({[k := m]} : gmap ObjectKey GatewayListenerStatus) = [(k, m)]) as ->.
  { apply Permutation_singleton_r. by rewrite hash_iter_perm, map_to_list_singleton. }
  simpl. by rewrite app_nil_r.
Qed.

Lemma on_port_find p (l : list (StatusKey * ListenerStatusInfo)) e :
  find_first (λ e, bool_decide (info_bind_port e.2 = p)) l = Some e → ∃ rest, on_port p l.*2 = e.2 :: rest.
Proof.
  intros (l1 & l2 & -> & He%bool_decide_eq_true_1 & Hl1)%find_first_Some. exists (on_port p l2.*2).
  unfold on_port. rewrite fmap_app, filter_app. simpl. rewrite filter_cons, decide_True by done.
  assert (filter (λ i, info_bind_port i = p) l1.*2 = []) as ->; [|done].
  induction Hl1 as [|x l1 Hx%bool_decide_eq_false_1 _ IH]; [done|]. simpl. by rewrite filter_cons, decide_False.
Qed.

Lemma fold_port_http st il : st.1 = LHttp → fst <$> fold_port (Some st) il = Some LHttp.
Proof.
  induction il as [|i il IH] in st |- *; intros E; simpl; [by rewrite E|]. apply IH. unfold merge_port. simpl. by rewrite E.
Qed.

Section pipeline.
Context `{HashIter, X509Lib} (internal_ports : gmap Z Z) (secrets : gmap ObjectKey Secret).
Context (cert_grants ls_cert_grants : gset ReferenceGrantKey).

Abbreviation status_of b ls := (reconcile_tls internal_ports secrets cert_grants ls_cert_grants b ls).2.
Abbreviation info := (info_of internal_ports secrets cert_grants ls_cert_grants).
Abbreviation ready := (readiness_of internal_ports secrets cert_grants ls_cert_grants).

Lemma info_bind l : info_bind_port (info l) = listener_bind_port internal_ports l.
Proof. done. Qed.

Lemma status_iter_elem b ls key i :
  NoDup (status_key <$> ls) →
  (key, i) ∈ status_iter (status_of b ls) ↔ ∃ l, l ∈ ls ∧ status_key l = key ∧ i = info l.
Proof.
  intros Hnd. unfold status_iter. rewrite elem_of_sort_by, elem_of_map_to_list. by apply reconcile_tls_lookup.
Qed.

(** A listener that lost its port to another, but whose source and name come
    before those of every other listener of the port, has the port bound as plain HTTP,
    whatever the protocol of the listener that won it. *)
Theorem loser_downgrades_port (k : ObjectKey) (b : PortTlsStoreBuilder) (excluded : gset Z)
    (ls : list EffectiveListener) (l : EffectiveListener) :
  NoDup (status_key <$> ls) → l ∈ ls → is_conflicted (el_conflict l) = true →
  listener_bind_port internal_ports l ∉ excluded →
  (∀ l', l' ∈ ls → listener_bind_port internal_ports l' = listener_bind_port internal_ports l →
    status_key_leb (status_key l, ()) (status_key l', ()) = true) →
  fst <$> derive_port_state {[k := status_of b ls]} excluded !! listener_bind_port internal_ports l = Some LHttp.
Proof.
  intros Hnd Hl Hc Hx Hfirst. rewrite derive_port, decide_False by done. rewrite health_infos_single.
  set (p := listener_bind_port internal_ports l) in *.
  assert ((status_key l, info l) ∈ status_iter (status_of b ls)) as Hin by (apply status_iter_elem; [done|by exists l]).
  destruct (find_first (λ e, bool_decide (info_bind_port e.2 = p)) (status_iter (status_of b ls))) as [[key i]|] eqn:Ef.
  2: { apply find_first_None in Ef. rewrite Forall_forall in Ef. specialize (Ef _ Hin).
       by apply bool_decide_eq_false_1 in Ef. }
  assert (i = info l) as ->.
  { pose proof Ef as Hleast. apply find_first_elem in Ef as [Hi Hp%bool_decide_eq_true_1].
    apply status_iter_elem in Hi as (l' & Hl' & <- & ->); [|done]. f_equal.
    eapply (find_first_sort_least _ status_key_total status_key_trans) in Hleast;
      [|unfold status_iter in Hin; rewrite elem_of_sort_by in Hin; exact Hin|by apply bool_decide_eq_true_2].
    specialize (Hfirst l' Hl' Hp).
    assert (status_key l' = status_key l) as Ek by exact (status_key_antisym (status_key l', ()) (status_key l, ()) Hleast Hfirst).
    apply list_elem_of_lookup in Hl as [n Hn], Hl' as [n' Hn']. assert (n = n') as ->; [|congruence].
    eapply (NoDup_lookup _ n n' _ Hnd); rewrite list_lookup_fmap; [by rewrite Hn|by rewrite Hn', <-Ek]. }
  apply on_port_find in Ef as [rest ->]. simpl. apply fold_port_http. simpl. unfold info_protocol. simpl.
  unfold readiness_of, listener_readiness. by rewrite Hc.
Qed.

(** What resolving the certificates of a listener can say. *)
Lemma resolve_outcomes grants l b port inst :
  (resolve_listener_tls secrets grants l b port inst).2
    ∈ [InvalidCertificateRef; Invalid; RefNotPermitted; Resolved; ResolvedPartial].
Proof. unfold resolve_listener_tls. repeat case_match; simpl; set_solver. Qed.

Lemma https_readiness l :
  is_conflicted (el_conflict l) = false → el_protocol l = lit "HTTPS" → readiness_protocol (ready l) = LHttps.
Proof.
  intros Hc Hp. unfold readiness_of, listener_readiness. rewrite Hc, Hp.
  pose proof (resolve_outcomes (grants_for_source cert_grants ls_cert_grants (el_source l)) l ∅
    (listener_bind_port internal_ports l) (negb (port_of internal_ports l =? 0)%Z)) as Ho.
  rewrite !(bool_decide_eq_false_2 (lit "HTTPS" = _)) by done. rewrite bool_decide_eq_true_2 by done. simpl.
  rewrite !elem_of_cons, elem_of_nil in Ho. destruct Ho as [->|[->|[->|[->|[->|[]]]]]]; try done.
  by destruct (_ =? _)%Z.
Qed.

(** Listeners of different ports are bound to different ports. *)
Definition ports_apart (ls : list EffectiveListener) : Prop :=
  ∀ l l', l ∈ ls → l' ∈ ls → listener_bind_port internal_ports l = listener_bind_port internal_ports l' →
    el_port l = el_port l'.

Lemma fold_port_within (S : list ListenerProtocol) st il :
  st.1 ∈ S → LTlsL4 ∉ S → (∀ i, i ∈ il → info_protocol i ∈ S) →
  ∃ st', fold_port (Some st) il = Some st' ∧ st'.1 ∈ S.
Proof.
  induction il as [|i il IH] in st |- *; intros Hst Hn Hall; simpl; [by exists st|].
  apply IH; [|done|intros j Hj; apply Hall; by right]. unfold merge_port. simpl.
  assert (info_protocol i ∈ S) as Hi by (apply Hall; left).
  destruct (st.1) eqn:E1; try done; destruct (info_protocol i) eqn:E2; done.
Qed.

(** A port won by an HTTPS listener is never bound as a hybrid port: a TLS
    listener of the same Gateway on the port conflicts with it, so the hybrid of HTTPS
    and TLS routes on one port that the acceptor provides for is not reached. *)
Theorem https_port_never_hybrid (k : ObjectKey) (b : PortTlsStoreBuilder) (excluded : gset Z)
    (ls : list EffectiveListener) (w : EffectiveListener) (st : PortState) :
  Forall (λ l, el_conflict l = NoConflict) ls → NoDup (status_key <$> flag_conflicts ls) →
  ports_apart (flag_conflicts ls) →
  w ∈ flag_conflicts ls → is_conflicted (el_conflict w) = false → el_protocol w = lit "HTTPS" →
  derive_port_state {[k := status_of b (flag_conflicts ls)]} excluded !! listener_bind_port internal_ports w = Some st →
  st.1 = LHttps ∨ st.1 = LHttp.
Proof.
  intros Hls Hnd Hap Hw Hcw Hpw. rewrite derive_port, health_infos_single. case_decide; [done|].
  set (p := listener_bind_port internal_ports w) in *.
  assert (∀ i, i ∈ on_port p (status_iter (status_of b (flag_conflicts ls))).*2 → info_protocol i ∈ [LHttps; LHttp]) as Hall.
  { intros i [Hp Hi]%list_elem_of_filter. apply list_elem_of_fmap in Hi as ([key i'] & -> & Hi).
    apply status_iter_elem in Hi as (l & Hl & <- & ->); [|done]. simpl in *. unfold info_protocol. simpl.
    destruct (is_conflicted (el_conflict l)) eqn:Ec.
    { unfold readiness_of, listener_readiness. rewrite Ec. right. left. }
    rewrite https_readiness; [left|done|]. assert (el_port w = el_port l) as Hport by by apply Hap.
    apply list_elem_of_lookup in Hl as [j Hj], Hw as [j' Hj'].
    destruct (Nat.lt_trichotomy j j') as [Hlt|[->|Hlt]]; [..|].
    - destruct (judge_compatible ls j j' l w) as [-> _]; done.
    - rewrite Hj in Hj'. injection Hj' as ->. done.
    - destruct (judge_compatible ls j' j w l) as [<- _]; done. }
  destruct (on_port p _) as [|i il]; simpl; [done|]. intros Hst.
  destruct (fold_port_within [LHttps; LHttp] (info_protocol i, li_proxy i) il) as (st' & E & Hin).
  - apply Hall. left.
  - set_solver.
  - intros j Hj. apply Hall. by right.
  - rewrite E in Hst. simplify_eq. set_solver.
Qed.

(** A TLS listener that terminates is served at layer 4 exactly when every one of
    its certificate references resolved and its port is allocated; with some of them
    broken, though the others are installed, its port is bound for HTTP over TLS. *)
Theorem terminate_listener_layer (l : EffectiveListener) (tls : EffectiveTls) :
  is_conflicted (el_conflict l) = false → el_protocol l = lit "TLS" → el_tls l = Some tls → passthrough tls = false →
  let r := (resolve_listener_tls secrets (grants_for_source cert_grants ls_cert_grants (el_source l)) l ∅
              (listener_bind_port internal_ports l) (negb (port_of internal_ports l =? 0)%Z)).2 in
  readiness_protocol (ready l) =
    (if bool_decide (r = Resolved) && negb (port_of internal_ports l =? 0)%Z then LTlsL4 else LHttps).
Proof.
  intros Hc Hp Ht Hpt r. unfold readiness_of, listener_readiness. rewrite Hc, Ht, Hpt. rewrite andb_false_r.
  rewrite (bool_decide_eq_true_2 (el_protocol l = lit "TLS")) by done. simpl. fold r.
  pose proof (resolve_outcomes (grants_for_source cert_grants ls_cert_grants (el_source l)) l ∅
    (listener_bind_port internal_ports l) (negb (port_of internal_ports l =? 0)%Z)) as Ho. fold r in Ho.
  rewrite !elem_of_cons, elem_of_nil in Ho.
  destruct Ho as [->|[->|[->|[->|[->|[]]]]]]; try done. by destruct (_ =? _)%Z.
Qed.

(** A TCP or UDP listener whose port is not allocated yet is, on the other side of the
    wire, an HTTPS listener on the port of its specification. *)
Lemma pending_layer4_bound_https l :
  is_conflicted (el_conflict l) = false → port_of internal_ports l = 0%Z →
  el_protocol l = lit "TCP" ∨ el_protocol l = lit "UDP" →
  readiness_protocol (readiness (info_over_wire (info l))) = LHttps ∧
  info_bind_port (info_over_wire (info l)) = listener_port l.
Proof.
  intros Hc Hp Hpr. unfold info_over_wire, info_of, readiness_of, listener_readiness, info_bind_port. simpl.
  rewrite Hc, Hp. by destruct Hpr as [-> | ->].
Qed.

End pipeline.

(** ** Witnesses *)

Module StatusDemo.
Definition x509 : X509Lib := {| x509_leaf := λ _, None |}.
#[local] Existing Instance list_order.
#[local] Existing Instance x509.

Definition tls_secret : Secret :=
  mkSecret (Some (lit "kubernetes.io/tls"))
    (Some {[lit "tls.crt" := lit "-----BEGIN C"; lit "tls.key" := lit "-----BEGIN K"]}).
Definition secrets : gmap ObjectKey Secret := {[(lit "infra", lit "cert") := tls_secret]}.
Definition cert (name : string) : CertRef := mkCertRef None None (lit name) None.

Definition listener (name proto : string) (port : Z) (host : string) (refs : list CertRef) : EffectiveListener :=
  mkEffective SrcGateway (lit "infra") (lit name) port (lit proto) (Some (lit host))
    (Some (mkEffectiveTls false refs)) AllNamespaces [] NoConflict.

Definition internal : gmap Z Z := {[443%Z := 30443%Z; 8443%Z := 30843%Z]}.

(** Two HTTPS listeners of one hostname: the second, which loses, is first by name. *)
Definition web : EffectiveListener := listener "web" "HTTPS" 443 "a.example" [cert "cert"].
Definition alt : EffectiveListener := listener "alt" "HTTPS" 443 "a.example" [cert "cert"].
Definition duel : list EffectiveListener := flag_conflicts [web; alt].
Definition loser : EffectiveListener := set_conflict HostnameConflict alt.

(** A TLS listener on the port of an HTTPS one. *)
Definition raw : EffectiveListener := listener "www" "TLS" 443 "b.example" [cert "cert"].
Definition mixed : list EffectiveListener := [web; raw].

(** A TLS listener with a broken reference. *)
Definition broken : EffectiveListener := listener "db" "TLS" 8443 "db.example" [cert "cert"; cert "missing"].

Definition gw : ObjectKey := (lit "infra", lit "gw").
Definition shared : gmap ObjectKey GatewayListenerStatus :=
  {[gw := (reconcile_tls internal secrets ∅ ∅ ∅ [web; broken]).2]}.

Lemma flagged_mixed : flag_conflicts mixed = [web; set_conflict ProtocolConflict raw].
Proof. by vm_compute. Qed.
End StatusDemo.
Import StatusDemo.

Lemma port_protocol_order_free_witness :
  fst <$> @derive_port_state list_order shared ∅ !! 30443%Z = Some LHttps ∧
  fst <$> @derive_port_state reverse_order shared ∅ !! 30443%Z = Some LHttps.
Proof.
  apply (port_protocol_order_free list_order reverse_order shared ∅ 30443); [|set_solver].
  left. vm_compute. repeat constructor.
Defined.

Lemma loser_downgrades_port_witness :
  fst <$> @derive_port_state list_order {[gw := (@reconcile_tls x509 internal secrets ∅ ∅ ∅ duel).2]} ∅ !! 30443%Z
    = Some LHttp.
Proof.
  apply (loser_downgrades_port (H := list_order) (H0 := x509) internal secrets ∅ ∅ gw ∅ ∅ duel loser).
  - by apply (bool_decide_unpack _); vm_compute.
  - assert (duel = [web; loser]) as -> by by vm_compute. right. left.
  - done.
  - set_solver.
  - assert (duel = [web; loser]) as -> by by vm_compute. intros l' Hl' _.
    rewrite !elem_of_cons, elem_of_nil in Hl'. by destruct Hl' as [-> |[-> |[]]].
Defined.

Lemma https_port_never_hybrid_witness :
  let st : PortState := (LHttps, None) in st.1 = LHttps ∨ st.1 = LHttp.
Proof.
  intros st. apply (https_port_never_hybrid (H := list_order) (H0 := x509) internal secrets ∅ ∅ gw ∅ ∅ mixed web).
  - by repeat constructor.
  - by apply (bool_decide_unpack _); vm_compute.
  - intros l l'. rewrite flagged_mixed, !elem_of_cons, !elem_of_nil.
    by intros [-> |[-> |[]]] [-> |[-> |[]]].
  - rewrite flagged_mixed. left.
  - done.
  - done.
  - by vm_compute.
Defined.

Lemma terminate_listener_layer_witness :
  readiness_protocol (@readiness_of x509 internal secrets ∅ ∅ broken) = LHttps.
Proof.
  rewrite (terminate_listener_layer (H0 := x509) internal secrets ∅ ∅ broken
    (mkEffectiveTls false [cert "cert"; cert "missing"])); [by vm_compute|done..].
Defined.
