(* ===== verification/EdgeConn.v ===== *)
(** * Dispatching an accepted connection

    Models [handle_connection] of [crates/coxswain-proxy/src/edge/accept.rs] and the
    handlers it calls up to the point where the connection is handed to a backend or to
    the HTTP proxy: the PROXY header, the server name, the layer-4 tables and the
    protocol of the listener, with [handle_tcp_proxy] of [tcp.rs].  The connection is
    the [Inbound] stream of [EdgePeek]; what has been read off it is an offset.  The
    choice of an endpoint within a backend group, dialling and the handshakes come
    after. *)

From S2P Require Import Prelude Net External Config Filters Entry AccessControl HostRouter Tls Layer4.
From S2P Require Import EdgePeek EdgeListeners.

Section conn.
Context {G : Type} `{IpnetLib, PppLib, TlsParser}.

(** The fields of [ConnHandler] a decision depends on. *)
Record ConnHandler := mkHandler {
  h_proxy : option ProxyProtocolListenerConfig;
  h_tls : PortTlsStore;
  h_port : Z;
  h_protocol : ListenerProtocol;
  h_passthrough : TlsPassthroughTable (G := G);
  h_terminate : TlsPassthroughTable (G := G);
  h_tcp : TcpRouteTable (G := G);
}.

(** Where a connection ends up, and the offset its new owner reads from.  [real] is the
    address of [CONN_INFO], where there is one. *)
Inductive ConnOutcome :=
| Refused
| SpliceTcp (backend : G) (off : nat)
| SplicePassthrough (backend : G) (off : nat)
| SpliceTerminate (backend : G) (off : nat)
| ServeHttp (protocol : ListenerProtocol) (real : option SocketAddr) (off : nat).

Definition enabled_proxy (h : ConnHandler) : option ProxyProtocolListenerConfig :=
  match h_proxy h with
  | Some pp => if pp_enabled pp then Some pp else None
  | None => None
  end.

(** The first block of [dispatch_tls_l4] and [dispatch_tcp]: [None] in the result is a
    dropped connection. *)
Definition strip_proxy (i : Inbound) (peer : SocketAddr) (h : ConnHandler) (now : Z) : option (option (nat * Z)) :=
  match enabled_proxy h with
  | None => Some (Some (0%nat, now))
  | Some pp =>
      if negb (is_trusted pp (sa_ip peer)) then Some None
      else r ← peek_and_drain_proxy_header i 0 peer now;
           match pk_value r with
           | Ok (_, off) => Some (Some (off, pk_at r))
           | Err _ => Some None
           end
  end.

(** [handle_tcp_proxy] up to the choice of the backend group *)
Definition handle_tcp_proxy (h : ConnHandler) (off : nat) : ConnOutcome :=
  match h_tcp h !! h_port h with
  | None => Refused
  | Some backend => SpliceTcp backend off
  end.

Definition dispatch_tcp (i : Inbound) (peer : SocketAddr) (h : ConnHandler) (now : Z) : option ConnOutcome :=
  st ← strip_proxy i peer h now;
  Some match st with
       | None => Refused
       | Some (off, _) => handle_tcp_proxy h off
       end.

(** [dispatch_tls_l4]: an outcome, or the stream to go on with as HTTPS.  The decision
    over the server name is that of [Layer4]. *)
Definition dispatch_tls (i : Inbound) (peer : SocketAddr) (h : ConnHandler) (allow_https_fallthrough : bool)
    (now : Z) : option (ConnOutcome + nat * Z) :=
  st ← strip_proxy i peer h now;
  match st with
  | None => Some (inl Refused)
  | Some (off, t) =>
      r ← peek_sni i off t;
      peeked ← match pk_value r with
               | Ok (Some sni) => Some (Ok sni)
               | Ok None => None
               | Err _ => Some (Err ())
               end;
      Some match Layer4.dispatch_tls_l4 (h_passthrough h) (h_terminate h) (h_tls h) (h_port h) peeked
                   allow_https_fallthrough with
           | Passthrough backend => inl (SplicePassthrough backend off)
           | Terminate backend => inl (SpliceTerminate backend off)
           | Https => inr (off, pk_at r)
           | Dropped => inl Refused
           end
  end.

(** [conn_shutdown] is raised at [shutdown_at]. *)
Definition before (t : Z) (shutdown_at : option Z) : bool :=
  match shutdown_at with None => true | Some s => (t <=? s)%Z end.

Definition handle_proxy_protocol (i : Inbound) (off : nat) (peer : SocketAddr) (pp : ProxyProtocolListenerConfig)
    (protocol : ListenerProtocol) (shutdown_at : option Z) (now : Z) : option ConnOutcome :=
  if negb (is_trusted pp (sa_ip peer)) then Some Refused
  else
    r ← peek_and_drain_proxy_header i off peer now;
    Some (if negb (before (pk_at r) shutdown_at) then Refused
          else match pk_value r with
               | Err _ => Refused
               | Ok (real_addr, off') =>
                   match protocol with
                   | LHttp | LHttps => ServeHttp protocol (Some real_addr) off'
                   | LTlsL4 | LTlsHybrid | LTcp | LUdp => Refused
                   end
               end).

Definition handle_standard (off : nat) (protocol : ListenerProtocol) : ConnOutcome :=
  match protocol with
  | LHttp | LHttps => ServeHttp protocol None off
  | LTlsL4 | LTlsHybrid | LTcp | LUdp => Refused
  end.

(** The part of [handle_connection] after the layer-4 dispatch. *)
Definition handle_http (i : Inbound) (peer : SocketAddr) (h : ConnHandler) (shutdown_at : option Z)
    (at_ : nat * Z) : option ConnOutcome :=
  let effective := match h_protocol h with LTlsHybrid => LHttps | p => p end in
  match enabled_proxy h with
  | Some pp => handle_proxy_protocol i at_.1 peer pp effective shutdown_at at_.2
  | None => Some (handle_standard at_.1 effective)
  end.

Definition handle_connection (i : Inbound) (peer : SocketAddr) (h : ConnHandler) (shutdown_at : option Z) (now : Z) :
    option ConnOutcome :=
  match h_protocol h with
  | LTcp => dispatch_tcp i peer h now
  | LTlsL4 | LTlsHybrid =>
      d ← dispatch_tls i peer h (bool_decide (h_protocol h = LTlsHybrid)) now;
      match d with
      | inl o => Some o
      | inr at_ => handle_http i peer h shutdown_at at_
      end
  | _ => handle_http i peer h shutdown_at (0%nat, now)
  end.

End conn.
Arguments ConnHandler : clear implicits.
Arguments ConnOutcome : clear implicits.
