(* ===== verification/EdgeConnFacts.v ===== *)
(** * Properties of connection dispatch

    Every accepted connection is decided; where a PROXY header is configured only a
    trusted peer gets past it, what follows it is passed on whole, and the HTTPS path of
    a hybrid port is closed. *)

From S2P Require Import Prelude Net External Config Filters Entry AccessControl HostRouter Tls Layer4.
From S2P Require Import AccessControlFacts EdgePeek EdgePeekFacts EdgeListeners EdgeConn.

Section facts.
Context {G : Type} `{IpnetLib, PppLaws, TlsParserLaws}.
Implicit Types (h : ConnHandler G) (o : ConnOutcome G) (i : Inbound) (peer : SocketAddr).

(** ** Every read ends *)

Lemma proxy_header_total i off peer now :
  ∃ r, peek_and_drain_proxy_header i off peer now = Some r ∧ (now ≤ pk_at r)%Z.
Proof.
  destruct (peek_loop_total (proxy_probe peer) MAX_PROXY_PEEK (now + PROXY_TIMEOUT) i off
    (Z.to_nat (MAX_PROXY_PEEK - 32 + (now + PROXY_TIMEOUT - now) + 1)) 32 PeekBackoff_new now 0)
    as (r & Hr & Hat); [by unfold MAX_PROXY_PEEK; lia|apply backoff_new_ok|by unfold PROXY_TIMEOUT; lia|
    by unfold MAX_PROXY_PEEK, PROXY_TIMEOUT; lia|].
  unfold peek_and_drain_proxy_header, peek_until. rewrite Hr.
  assert (Hdl : (now ≤ now + PROXY_TIMEOUT)%Z) by (unfold PROXY_TIMEOUT; lia).
  destruct (pk_value r) as [[addr n]|e] eqn:Ev; [|exists r; split; [done|lia]].
  destruct (read_exact i off n (pk_at r)) as [[t|]|] eqn:Ex; [|eexists; split; [done|simpl; lia]..].
  destruct (Z.ltb_spec (now + PROXY_TIMEOUT) t); eexists; (split; [done|]); simpl; [done|].
  unfold read_exact in Ex. destruct n as [|n]; [by simplify_eq; lia|].
  destruct (ready_at _ _ _ _) as [t'|] eqn:Er; [|done]. apply ready_at_ge in Er.
  destruct (Nat.leb (S n) (length (queue i off t'))); simplify_eq. lia.
Qed.

Lemma sni_walk_done buf : sni_probe buf ≠ Done None.
Proof.
  unfold sni_probe. destruct (client_hello_sni_ends buf) as [[[]|] ->]; discriminate.
Qed.

Lemma peek_sni_total i off now :
  ∃ r, peek_sni i off now = Some r ∧ (now ≤ pk_at r)%Z ∧ pk_value r ≠ Ok None.
Proof.
  destruct (peek_loop_total sni_probe MAX_PEEK (now + PEEK_TIMEOUT) i off
    (Z.to_nat (MAX_PEEK - 512 + (now + PEEK_TIMEOUT - now) + 1)) 512 PeekBackoff_new now 0)
    as (r & Hr & Hat); [by unfold MAX_PEEK; lia|apply backoff_new_ok|by unfold PEEK_TIMEOUT; lia|
    by unfold MAX_PEEK, PEEK_TIMEOUT; lia|].
  exists r. split_and!; [done|lia|]. intros Hv.
  destruct (peek_loop_sound _ _ _ _ _ _ _ _ _ _ _ _ backoff_new_ok Hr Hv) as (_ & n & Hn).
  by apply sni_walk_done in Hn.
Qed.

(** What a server name was read from. *)
Lemma peek_sni_sound i off now r sni :
  peek_sni i off now = Some r → pk_value r = Ok (Some sni) →
  (now ≤ pk_at r)%Z ∧ ∃ n b, take n (queue i off (pk_at r)) = handshake_record :: b.
Proof.
  intros Hr Hv.
  destruct (peek_loop_sound _ _ _ _ _ _ _ _ _ _ _ _ backoff_new_ok Hr Hv) as (Hat & n & Hn).
  split; [lia|]. exists n. unfold sni_probe in Hn.
  destruct (take n (queue i off (pk_at r))) as [|c b] eqn:Et; [done|]. exists b. f_equal.
  unfold client_hello_sni in Hn. destruct (c =c handshake_record) eqn:Ec; [by apply Ascii.eqb_eq in Ec|done].
Qed.

Lemma strip_proxy_total i peer h now : ∃ st, strip_proxy i peer h now = Some st.
Proof.
  unfold strip_proxy. destruct (enabled_proxy h) as [pp|]; [|by eexists].
  destruct (negb _); [by eexists|]. destruct (proxy_header_total i 0 peer now) as (r & -> & _). simpl.
  destruct (pk_value r) as [[]|]; by eexists.
Qed.

Lemma dispatch_tls_total i peer h allow now : ∃ d, dispatch_tls i peer h allow now = Some d.
Proof.
  unfold dispatch_tls. destruct (strip_proxy_total i peer h now) as [[[off t]|] ->]; simpl; [|by eexists].
  destruct (peek_sni_total i off t) as (r & -> & _ & Hv). simpl.
  destruct (pk_value r) as [[sni|]|e]; [by eexists|by destruct Hv|by eexists].
Qed.

Lemma handle_http_total i peer h shutdown_at p : ∃ o, handle_http i peer h shutdown_at p = Some o.
Proof.
  unfold handle_http, handle_proxy_protocol. destruct (enabled_proxy h) as [pp|]; [|by eexists].
  destruct (negb (is_trusted _ _)); [by eexists|].
  destruct (proxy_header_total i p.1 peer p.2) as (r & -> & _). by eexists.
Qed.

Lemma handle_connection_total i peer h shutdown_at now :
  ∃ o, handle_connection i peer h shutdown_at now = Some o.
Proof.
  assert (∀ allow, ∃ o, (d ← dispatch_tls i peer h allow now;
    match d with inl o => Some o | inr p => handle_http i peer h shutdown_at p end) = Some o) as Htls.
  { intros allow. destruct (dispatch_tls_total i peer h allow now) as [[o|p] ->]; simpl;
      [by eexists|apply handle_http_total]. }
  unfold handle_connection. destruct (h_protocol h); try apply handle_http_total; try apply Htls.
  unfold dispatch_tcp. destruct (strip_proxy_total i peer h now) as [st ->]. by eexists.
Qed.

(** ** Past the PROXY header *)

Lemma prefix_first (c d : ascii) b b' (q q' : str) n k :
  q `prefix_of` q' → take n q = c :: b → take k q' = d :: b' → c = d.
Proof.
  intros [e ->] Hn Hk. destruct q as [|x q]; [by rewrite take_nil in Hn|].
  destruct n, k; by simplify_eq/=.
Qed.

(** No header starts where a server name was read. *)
Lemma no_second_header i off now r sni peer now' r' addr off' :
  peek_sni i off now = Some r → pk_value r = Ok (Some sni) → (pk_at r ≤ now')%Z →
  peek_and_drain_proxy_header i off peer now' = Some r' → pk_value r' ≠ Ok (addr, off').
Proof.
  intros Hr Hv Hle Hr' Hv'. destruct (peek_sni_sound _ _ _ _ _ Hr Hv) as (_ & n & b & Hn).
  destruct (proxy_header_sound _ _ _ _ _ _ _ Hr' Hv') as (Hat & n' & k & Hs & _).
  apply proxy_source_length, ppp_signature in Hs as (b' & Hb).
  assert (queue i off (pk_at r) `prefix_of` queue i off (pk_at r')) as Hp by (apply queue_mono; lia).
  destruct Hb as [Hb|Hb]; by pose proof (prefix_first _ _ _ _ _ _ _ _ Hp Hn Hb).
Qed.

(** The stream a hybrid port goes on with as HTTPS. *)
Lemma dispatch_tls_https i peer h allow now off t :
  dispatch_tls i peer h allow now = Some (inr (off, t)) →
  ∃ t0 r sni, strip_proxy i peer h now = Some (Some (off, t0)) ∧ peek_sni i off t0 = Some r ∧
    pk_value r = Ok (Some sni) ∧ t = pk_at r ∧ allow = true.
Proof.
  unfold dispatch_tls. destruct (strip_proxy i peer h now) as [[[off0 t0]|]|]; simpl; [|done..].
  destruct (peek_sni i off0 t0) as [r|] eqn:Er; simpl; [|done].
  destruct (pk_value r) as [[sni|]|e] eqn:Ev; simpl; [|done..].
  destruct (_ ≫= _) as [g|]; [done|]. destruct (_ ≫= _) as [g|]; [done|].
  destruct allow; [|done]. destruct (has_cert_for _ _ _); [|done]. intros [= <- <-]. by eauto 10.
Qed.

(** A connection that is not served as HTTPS behind a header is done with. *)
Lemma https_behind_header i peer h shutdown_at now pp off t allow o :
  enabled_proxy h = Some pp → dispatch_tls i peer h allow now = Some (inr (off, t)) →
  handle_http i peer h shutdown_at (off, t) = Some o → o = Refused.
Proof.
  intros Hpp (t0 & r & sni & _ & Hr & Hv & -> & _)%dispatch_tls_https.
  unfold handle_http, handle_proxy_protocol. rewrite Hpp. simpl.
  destruct (negb (is_trusted _ _)); [by intros [= <-]|].
  destruct (peek_and_drain_proxy_header i off peer (pk_at r)) as [r'|] eqn:Er'; simpl; [|done].
  destruct (negb (before _ _)); [by intros [= <-]|].
  destruct (pk_value r') as [[addr off']|] eqn:Ev'; [|by intros [= <-]].
  by destruct (no_second_header _ _ _ _ _ _ _ _ addr off' Hr Hv (Z.le_refl _) Er').
Qed.

Lemma dispatch_tls_spliced i peer h allow now o :
  dispatch_tls i peer h allow now = Some (inl o) →
  o = Refused ∨ ∃ g off t, strip_proxy i peer h now = Some (Some (off, t)) ∧
    (o = SplicePassthrough g off ∨ o = SpliceTerminate g off).
Proof.
  unfold dispatch_tls. destruct (strip_proxy i peer h now) as [[[off t]|]|]; simpl; [|by intros [= <-]; left|done].
  destruct (peek_sni i off t) as [r|]; simpl; [|done]. intros Hd.
  apply bind_Some in Hd as (peeked & _ & [= Hd]).
  destruct (Layer4.dispatch_tls_l4 _ _ _ _ _ _) as [g|g| |]; simplify_eq; eauto 10.
Qed.

(** C39: On a hybrid port with PROXY protocol enabled no connection is ever served as
    HTTPS, whatever its peer, its bytes and their timing: the header is taken off before
    the server name is read, and the HTTPS path then waits for another one where the
    ClientHello begins.  Every connection still ends. *)
Theorem hybrid_proxy_never_https (i : Inbound) (peer : SocketAddr) (h : ConnHandler G) (shutdown_at : option Z)
    (now : Z) (pp : ProxyProtocolListenerConfig) :
  h_protocol h = LTlsHybrid → enabled_proxy h = Some pp →
  ∃ o, handle_connection i peer h shutdown_at now = Some o ∧ ∀ p real off, o ≠ ServeHttp p real off.
Proof.
  intros Hp Hpp. destruct (handle_connection_total i peer h shutdown_at now) as [o Ho]. exists o. split; [done|].
  intros p real off ->. unfold handle_connection in Ho. rewrite Hp in Ho.
  destruct (dispatch_tls i peer h _ now) as [[o|[off1 t]]|] eqn:Ed; simpl in Ho; [| |done].
  - injection Ho as ->. apply dispatch_tls_spliced in Ed. naive_solver.
  - by apply (https_behind_header _ _ _ _ _ _ _ _ _ _ Hpp Ed) in Ho.
Qed.

(** ** Whom a connection is served as *)

Definition outcome_off (o : ConnOutcome G) : nat :=
  match o with
  | Refused => 0
  | SpliceTcp _ off | SplicePassthrough _ off | SpliceTerminate _ off | ServeHttp _ _ off => off
  end.

(** The stream has been read up to [off], and its header, if there has to be one, names
    [addr] and came from a trusted peer. *)
Definition past_proxy i peer h (addr : option SocketAddr) (off : nat) : Prop :=
  match enabled_proxy h with
  | None => addr = None ∧ off = 0%nat
  | Some pp => is_trusted pp (sa_ip peer) = true ∧
      ∃ t k a, addr = Some a ∧ proxy_source peer (ppp_parse (take k (queue i 0 t))) = Some (a, off)
  end.

Lemma strip_proxy_past i peer h now off t :
  strip_proxy i peer h now = Some (Some (off, t)) → ∃ addr, past_proxy i peer h addr off.
Proof.
  unfold strip_proxy, past_proxy. destruct (enabled_proxy h) as [pp|]; [|intros [= <- _]; by eexists].
  destruct (is_trusted pp (sa_ip peer)); simpl; [|done].
  destruct (peek_and_drain_proxy_header i 0 peer now) as [r|] eqn:Er; simpl; [|done].
  destruct (pk_value r) as [[a off']|] eqn:Ev; [|done]. intros [= -> <-].
  destruct (proxy_header_sound _ _ _ _ _ _ _ Er Ev) as (_ & n & k & Hs & -> & _).
  exists (Some a). split; [done|]. by exists (pk_at r), k, a.
Qed.

Lemma handle_http_past i peer h shutdown_at now o :
  handle_http i peer h shutdown_at (0%nat, now) = Some o → o ≠ Refused →
  ∃ p real off, o = ServeHttp p real off ∧ past_proxy i peer h real off.
Proof.
  unfold handle_http, handle_proxy_protocol, past_proxy. destruct (enabled_proxy h) as [pp|]; simpl.
  - destruct (is_trusted pp (sa_ip peer)); simpl; [|by intros [= <-]].
    destruct (peek_and_drain_proxy_header i 0 peer now) as [r|] eqn:Er; simpl; [|done].
    destruct (before _ _); simpl; [|by intros [= <-]].
    destruct (pk_value r) as [[a off']|] eqn:Ev; [|by intros [= <-]]. intros [= Ho] Hn.
    destruct (proxy_header_sound _ _ _ _ _ _ _ Er Ev) as (_ & n & k & Hs & -> & _).
    exists (match h_protocol h with LTlsHybrid => LHttps | p => p end), (Some a), n.
    split; [by destruct (h_protocol h); simplify_eq|]. split; [done|]. by exists (pk_at r), k, a.
  - intros [= <-] Hn. exists (match h_protocol h with LTlsHybrid => LHttps | p => p end), None, 0%nat.
    split; [|done]. by destruct (h_protocol h).
Qed.

(** C7: A connection on a listener with PROXY protocol gets past the listener only if its
    peer is a trusted source and its first bytes are a complete header; what is served or
    spliced is the stream right behind the header, and HTTP requests carry the address
    the header names.  Without PROXY protocol the stream is passed on from its first byte
    and no address overrides that of the peer. *)
Theorem client_address_trusted (i : Inbound) (peer : SocketAddr) (h : ConnHandler G) (shutdown_at : option Z)
    (now : Z) (o : ConnOutcome G) :
  handle_connection i peer h shutdown_at now = Some o → o ≠ Refused →
  ∃ addr, past_proxy i peer h addr (outcome_off o) ∧ ∀ p real off, o = ServeHttp p real off → real = addr.
Proof.
  intros Ho Hn.
  assert (∀ allow, dispatch_tls i peer h allow now ≫=
    (λ d, match d with inl o => Some o | inr p => handle_http i peer h shutdown_at p end) = Some o →
    ∃ addr, past_proxy i peer h addr (outcome_off o) ∧ ∀ p real off, o = ServeHttp p real off → real = addr) as Htls.
  { intros allow ([o'|[off t]] & Hd & Ho')%bind_Some.
    - injection Ho' as ->. destruct (dispatch_tls_spliced _ _ _ _ _ _ Hd) as [|(g & off & t & Hs & Hc)]; [done|].
      apply strip_proxy_past in Hs as [addr Hs]. exists addr. by destruct Hc as [-> | ->].
    - destruct (enabled_proxy h) as [pp|] eqn:Epp; [by rewrite (https_behind_header _ _ _ _ _ _ _ _ _ _ Epp Hd Ho') in Hn|].
      apply dispatch_tls_https in Hd as (t0 & _ & _ & Hs & _). unfold strip_proxy in Hs. rewrite Epp in Hs.
      injection Hs as <- <-. apply handle_http_past in Ho' as (p & real & off & -> & Hp); [|done].
      exists real. split; [done|]. naive_solver. }
  unfold handle_connection in Ho. destruct (h_protocol h) eqn:Ep; try by apply (Htls _ Ho).
  all: try (apply handle_http_past in Ho as (p & real & off & -> & Hp); [exists real; naive_solver|done]).
  unfold dispatch_tcp in Ho. destruct (strip_proxy i peer h now) as [[[off t]|]|] eqn:Es; simpl in Ho; simplify_eq.
  apply strip_proxy_past in Es as [addr Hs]. exists addr. unfold handle_tcp_proxy in *. by destruct (h_tcp h !! h_port h).
Qed.

(** ** Where a TLS connection goes *)

(** The header that has to precede the ClientHello. *)
Definition preamble_ok peer h (hb : str) : Prop :=
  match enabled_proxy h with
  | None => hb = []
  | Some pp => is_trusted pp (sa_ip peer) = true ∧ header_length (ppp_parse hb) = Some (length hb) ∧
      (Z.of_nat (length hb) ≤ MAX_PROXY_PEEK)%Z
  end.

Lemma strip_proxy_fragmented i peer h now T hb payload :
  queue i 0 T = hb ++ payload → preamble_ok peer h hb → (now ≤ T)%Z → (T + PEEK_POLL_MAX ≤ now + PROXY_TIMEOUT)%Z →
  ∃ t, strip_proxy i peer h now = Some (Some (length hb, t)) ∧ (now ≤ t ≤ T + PEEK_POLL_MAX)%Z ∧
    queue i (length hb) T = payload.
Proof.
  unfold preamble_ok, strip_proxy. intros Hq Hpre Hnow HT. destruct (enabled_proxy h) as [pp|].
  - destruct Hpre as (-> & Hl & Hmax). simpl.
    destruct (proxy_header_total i 0 peer now) as (r & Hr & Hat).
    assert ((pk_at r ≤ T + PEEK_POLL_MAX)%Z ∧ ∃ a, pk_value r = Ok (a, length hb)) as [Hle [a Hv]].
    { destruct (proxy_header_fragmented i 0 peer now T hb payload) as (r' & a & Hr' & Hle & _ & Hv & _); [done..|].
      rewrite Hr in Hr'. simplify_eq. split; [done|by exists a]. }
    rewrite Hr. simpl. rewrite Hv. exists (pk_at r). split_and!; [done|lia..|].
    unfold queue in *. rewrite drop_0 in Hq. by rewrite Hq, drop_app_length.
  - subst hb. exists now. split_and!; [done|lia|unfold PEEK_POLL_MAX; lia|done].
Qed.

(** C21: A connection on a TLS port whose header, where one is required, and ClientHello
    have arrived in time goes where the routing tables send its server name, in whatever
    segments it arrived: to the group of the passthrough route, else to that of the
    terminate route, else, on a hybrid port that has a certificate for the name and no
    PROXY protocol, to HTTP; and its new owner reads the ClientHello from its first
    byte. *)
Theorem tls_connection_routed (i : Inbound) (peer : SocketAddr) (h : ConnHandler G) (shutdown_at : option Z)
    (now T : Z) (hb hello rest : str) (sni : option str) :
  h_protocol h = LTlsL4 ∨ h_protocol h = LTlsHybrid →
  queue i 0 T = hb ++ hello ++ rest → preamble_ok peer h hb →
  client_hello_sni hello = Some (Ok match sni with Some name => Found name | None => NoSni end) →
  (Z.of_nat (length hello) ≤ MAX_PEEK)%Z → (now ≤ T)%Z → (T + PEEK_POLL_MAX ≤ now + PROXY_TIMEOUT)%Z →
  handle_connection i peer h shutdown_at now =
    Some match Layer4.dispatch_tls_l4 (h_passthrough h) (h_terminate h) (h_tls h) (h_port h) (Ok sni)
                 (bool_decide (h_protocol h = LTlsHybrid)) with
         | Passthrough g => SplicePassthrough g (length hb)
         | Terminate g => SpliceTerminate g (length hb)
         | Https => if enabled_proxy h then Refused else ServeHttp LHttps None 0
         | Dropped => Refused
         end ∧
  queue i (length hb) T = hello ++ rest.
Proof.
  intros Hp Hq Hpre Hh Hmax Hnow HT.
  destruct (strip_proxy_fragmented i peer h now T hb (hello ++ rest)) as (t & Hs & Ht & Hrest); [done..|].
  split; [|done].
  destruct (queue_mono i (length hb) T (T + PEEK_POLL_MAX)) as [more Hmore]; [by unfold PEEK_POLL_MAX; lia|].
  destruct (sni_fragmented i (length hb) t (T + PEEK_POLL_MAX) hello (rest ++ more) sni) as (r & Hr & _ & Hv); try done.
  { by rewrite Hmore, Hrest, <-app_assoc. }
  { lia. }
  { unfold PEEK_POLL_MAX, PROXY_TIMEOUT, PEEK_TIMEOUT in *. lia. }
  set (allow := bool_decide (h_protocol h = LTlsHybrid)).
  assert (handle_connection i peer h shutdown_at now = dispatch_tls i peer h allow now ≫=
    (λ d, match d with inl o => Some o | inr p => handle_http i peer h shutdown_at p end)) as ->
    by (unfold handle_connection; subst allow; by destruct Hp as [Hp|Hp]; rewrite Hp).
  destruct (dispatch_tls_total i peer h allow now) as [d Hd]. rewrite Hd. pose proof Hd as Hd'.
  unfold dispatch_tls in Hd. rewrite Hs in Hd. cbn [mbind option_bind] in Hd. rewrite Hr in Hd.
  cbn [mbind option_bind] in Hd. rewrite Hv in Hd. cbn [mbind option_bind] in Hd. simplify_eq.
  destruct (Layer4.dispatch_tls_l4 _ _ _ _ _ _); [done..| |done]. cbn [mbind option_bind].
  destruct (enabled_proxy h) as [pp|] eqn:Epp.
  - destruct (handle_http_total i peer h shutdown_at (length hb, pk_at r)) as [o Ho].
    by rewrite Ho, (https_behind_header _ _ _ _ _ _ _ _ _ _ Epp Hd' Ho).
  - apply dispatch_tls_https in Hd' as (_ & _ & _ & _ & _ & _ & _ & Ha). apply bool_decide_eq_true in Ha.
    unfold handle_http, preamble_ok in *. rewrite Epp in *. subst hb. by rewrite Ha.
Qed.

End facts.

(** ** Witnesses *)

Module ConnDemo.
#[local] Existing Instance list_order.
Import PeekDemo AccessDemo.
#[export] Existing Instances ppp ppp_laws tls tls_laws.

Definition cert : TlsCert := mkTlsCert [] [] (lit "shop/tls") None Rsa.

(** A hybrid port behind the balancer with a certificate for [a.example] and the given
    passthrough routes. *)
Definition port_443 (protocol : ListenerProtocol) (routes : list (Z * str * nat)) : ConnHandler nat :=
  mkHandler (Some (mkProxyProtocol true [mkIpNet (V4 1) 32])) (certs_of [(443%Z, lit "a.example", cert)]) 443 protocol
    (passthrough_of routes) (passthrough_of []) ∅.

End ConnDemo.
Import PeekDemo AccessDemo ConnDemo.

(** The certificate would have served the name. *)
Lemma hybrid_proxy_never_https_witness :
  let h := port_443 LTlsHybrid [] in
  has_cert_for (h_tls h) 443 (Some (lit "a.example")) = true ∧
  ∃ o, handle_connection client balancer h None 0 = Some o ∧ ∀ p real off, o ≠ ServeHttp p real off.
Proof.
  split; [by vm_compute|].
  exact (hybrid_proxy_never_https client balancer (port_443 LTlsHybrid []) None 0 _ eq_refl eq_refl).
Defined.

Lemma client_address_trusted_witness :
  ∃ addr, past_proxy client balancer (port_443 LHttps []) addr 28 ∧
    ∀ p real off, ServeHttp (G := nat) LHttps (Some (mkSocketAddr (V4 167772167) 8080)) 28 = ServeHttp p real off →
      real = addr.
Proof.
  apply (client_address_trusted client balancer (port_443 LHttps []) None 0
    (ServeHttp LHttps (Some (mkSocketAddr (V4 167772167) 8080)) 28)); [by vm_compute|done].
Defined.

Lemma tls_connection_routed_witness :
  handle_connection client balancer (port_443 LTlsHybrid [(443%Z, lit "*.example", 7%nat)]) None 0 =
    Some (SplicePassthrough 7%nat 28) ∧ queue client 28 90 = hello ++ [].
Proof.
  apply (tls_connection_routed client balancer (port_443 LTlsHybrid [(443%Z, lit "*.example", 7%nat)]) None 0 90
    header hello [] (Some (lit "a.example"))); [by right|by vm_compute..].
Defined.
