(* ===== verification/UdpForwarder.v ===== *)
(** * The UDP forwarder

    Models [crates/coxswain-proxy/src/edge/udp.rs]: the receive loop of a UDP listener,
    the session tasks it spawns, the guard of a session and the drain.  A session's
    [Arc] is the number of its task.  The tasks and the receive loop interleave at
    their awaits; what the sockets answer is chosen by the environment.  Times are
    milliseconds since [UDP_EPOCH]. *)

From S2P Require Import Prelude Net External Config Filters Entry AccessControl HostRouter Tls Layer4 EdgeListeners.

Definition MAX_CONCURRENT_SESSIONS : Z := 2048.

(** The reasons given to [record_drop]. *)
Inductive DropReason :=
| RecvError
| SessionSend
| NoRoute
| NoBackend
| SessionLimit
| UpstreamBind
| UpstreamConnect
| UpstreamSend
| ClientSend.

(** Where the task of a session is parked.  [Sending] has created the [UdpSession],
    [Pumping] has its guard and has been in [recv] since the given time, [Replying] is in
    [send_to], and [Leaving] is past the loop with the guard still to be dropped. *)
Inductive SessionStage :=
| Binding
| Connecting
| Sending
| Pumping (since : Z)
| Replying (reply : str)
| Leaving.

Record UdpSession := mkUdpSession {
  us_client : SocketAddr;
  us_backend : SocketAddr;
  us_payload : str;
  last_seen : Z;
  us_stage : SessionStage;
}.

Definition at_stage (st : SessionStage) (t : UdpSession) : UdpSession :=
  mkUdpSession (us_client t) (us_backend t) (us_payload t) (last_seen t) st.
Definition seen_at (now : Z) (t : UdpSession) : UdpSession :=
  mkUdpSession (us_client t) (us_backend t) (us_payload t) now (us_stage t).

(** The guard of the session exists. *)
Definition established (t : UdpSession) : bool :=
  match us_stage t with
  | Binding | Connecting | Sending => false
  | Pumping _ | Replying _ | Leaving => true
  end.

(** What went out, with the session it went through. *)
Inductive Datagram :=
| ToBackend (sid : nat) (client backend : SocketAddr) (payload : str)
| ToClient (sid : nat) (client : SocketAddr) (payload : str).

Inductive LoopPhase := Receiving | Reaping | Returned.

(** A listener.  [u_available] is the semaphore, [u_tasks] the join set,
    [u_active] and [u_total] the session metrics, [u_drops] the drop counter, latest
    first.  [u_sent] and [u_received] record what the sockets carried. *)
Record UdpListener := mkUdp {
  u_now : Z;
  u_available : Z;
  u_sessions : gmap SocketAddr nat;
  u_tasks : gmap nat UdpSession;
  u_next : nat;
  u_active : Z;
  u_total : Z;
  u_drops : list DropReason;
  u_sent : list Datagram;
  u_received : Z;
  u_phase : LoopPhase;
}.

Definition udp_start (now : Z) : UdpListener :=
  mkUdp now MAX_CONCURRENT_SESSIONS ∅ ∅ 0 0 0 [] [] 0 Receiving.

Definition record_drop (r : DropReason) (u : UdpListener) : UdpListener :=
  mkUdp (u_now u) (u_available u) (u_sessions u) (u_tasks u) (u_next u) (u_active u) (u_total u)
    (r :: u_drops u) (u_sent u) (u_received u) (u_phase u).
Definition send_out (d : Datagram) (u : UdpListener) : UdpListener :=
  mkUdp (u_now u) (u_available u) (u_sessions u) (u_tasks u) (u_next u) (u_active u) (u_total u)
    (u_drops u) (d :: u_sent u) (u_received u) (u_phase u).
Definition receive (u : UdpListener) : UdpListener :=
  mkUdp (u_now u) (u_available u) (u_sessions u) (u_tasks u) (u_next u) (u_active u) (u_total u)
    (u_drops u) (u_sent u) (u_received u + 1) (u_phase u).
Definition set_task (sid : nat) (t : UdpSession) (u : UdpListener) : UdpListener :=
  mkUdp (u_now u) (u_available u) (u_sessions u) (<[sid := t]> (u_tasks u)) (u_next u) (u_active u) (u_total u)
    (u_drops u) (u_sent u) (u_received u) (u_phase u).
Definition set_phase (p : LoopPhase) (u : UdpListener) : UdpListener :=
  mkUdp (u_now u) (u_available u) (u_sessions u) (u_tasks u) (u_next u) (u_active u) (u_total u)
    (u_drops u) (u_sent u) (u_received u) p.
Definition pass (d : Z) (u : UdpListener) : UdpListener :=
  mkUdp (u_now u + d) (u_available u) (u_sessions u) (u_tasks u) (u_next u) (u_active u) (u_total u)
    (u_drops u) (u_sent u) (u_received u) (u_phase u).

(** ** The guard *)

(** [SessionGuard::new] *)
Definition guard_new (sid : nat) (client : SocketAddr) (u : UdpListener) : UdpListener :=
  mkUdp (u_now u) (u_available u) (<[client := sid]> (u_sessions u)) (u_tasks u) (u_next u)
    (u_active u + 1) (u_total u + 1) (u_drops u) (u_sent u) (u_received u) (u_phase u).

(** [Drop] of the guard: the entry goes only if it is still this session's. *)
Definition guard_drop (sid : nat) (client : SocketAddr) (u : UdpListener) : UdpListener :=
  mkUdp (u_now u) (u_available u)
    (if decide (u_sessions u !! client = Some sid) then delete client (u_sessions u) else u_sessions u)
    (u_tasks u) (u_next u) (u_active u - 1) (u_total u) (u_drops u) (u_sent u) (u_received u) (u_phase u).

(** The frame of a task is dropped: the guard, if there is one, and the permit. *)
Definition drop_frame (sid : nat) (t : UdpSession) (u : UdpListener) : UdpListener :=
  let u := if established t then guard_drop sid (us_client t) u else u in
  mkUdp (u_now u) (u_available u + 1) (u_sessions u) (delete sid (u_tasks u)) (u_next u) (u_active u) (u_total u)
    (u_drops u) (u_sent u) (u_received u) (u_phase u).

(** ** Datagrams of clients *)

Section forwarder.
Context {G : Type} (port : Z) (idle_timeout : Z).

Definition spawn_session (client backend_addr : SocketAddr) (payload : str) (u : UdpListener) : UdpListener :=
  mkUdp (u_now u) (u_available u - 1) (u_sessions u)
    (<[u_next u := mkUdpSession client backend_addr payload 0 Binding]> (u_tasks u)) (S (u_next u))
    (u_active u) (u_total u) (u_drops u) (u_sent u) (u_received u) (u_phase u).

(** [handle_datagram], with the outcome of [try_send] and that of
    [select_upstream]. *)
Definition handle_datagram (table : UdpRouteTable (G := G)) (select_upstream : G → option SocketAddr)
    (try_send : bool) (client : SocketAddr) (payload : str) (u : UdpListener) : UdpListener :=
  match (sid ← u_sessions u !! client; t ← u_tasks u !! sid; Some (sid, t)) with
  | Some (sid, t) =>
      let u := set_task sid (seen_at (u_now u) t) u in
      if try_send then send_out (ToBackend sid client (us_backend t) payload) u else record_drop SessionSend u
  | None =>
      match table !! port with
      | None => record_drop NoRoute u
      | Some backend =>
          match select_upstream backend with
          | None => record_drop NoBackend u
          | Some backend_addr =>
              if (0 <? u_available u)%Z then spawn_session client backend_addr payload u
              else record_drop SessionLimit u
          end
      end
  end.

(** ** Session tasks *)

(** The awaits of [establish_and_run_session], with their outcomes. *)
Definition bound (ok : bool) (sid : nat) (t : UdpSession) (u : UdpListener) : UdpListener :=
  if ok then set_task sid (at_stage Connecting t) u else drop_frame sid t (record_drop UpstreamBind u).

Definition connected (ok : bool) (sid : nat) (t : UdpSession) (u : UdpListener) : UdpListener :=
  if ok then set_task sid (at_stage Sending (seen_at (u_now u) t)) u
  else drop_frame sid t (record_drop UpstreamConnect u).

Definition first_sent (ok : bool) (sid : nat) (t : UdpSession) (u : UdpListener) : UdpListener :=
  if ok then
    set_task sid (at_stage (Pumping (u_now u)) t)
      (guard_new sid (us_client t) (send_out (ToBackend sid (us_client t) (us_backend t) (us_payload t)) u))
  else drop_frame sid t (record_drop UpstreamSend u).

(** The awaits of [run_reply_pump]. *)
Definition replied (ok : bool) (reply : str) (sid : nat) (t : UdpSession) (u : UdpListener) : UdpListener :=
  set_task sid (at_stage (Pumping (u_now u)) t)
    (if ok then send_out (ToClient sid (us_client t) reply) u else record_drop ClientSend u).

(** The arm of the elapsed timeout *)
Definition idle_tick (now : Z) (t : UdpSession) : UdpSession :=
  if (idle_timeout <=? saturating_sub now (last_seen t))%Z then at_stage Leaving t
  else at_stage (Pumping now) t.

(** ** The listener *)

(** The receive loop and the tasks.  A task goes on until it parks, also after
    [abort_all], which may drop it wherever it is parked; the loop returns when the join
    set is empty. *)
Inductive udp_step : UdpListener → UdpListener → Prop :=
| us_time d u : (0 ≤ d)%Z → udp_step u (pass d u)
| us_datagram table select_upstream try_send client payload u :
    u_phase u = Receiving →
    udp_step u (handle_datagram table select_upstream try_send client payload (receive u))
| us_recv_error u : u_phase u = Receiving → udp_step u (record_drop RecvError u)
| us_bound ok sid t u :
    u_tasks u !! sid = Some t → us_stage t = Binding → udp_step u (bound ok sid t u)
| us_connected ok sid t u :
    u_tasks u !! sid = Some t → us_stage t = Connecting → udp_step u (connected ok sid t u)
| us_first_sent ok sid t u :
    u_tasks u !! sid = Some t → us_stage t = Sending → udp_step u (first_sent ok sid t u)
| us_reply reply sid t since u :
    u_tasks u !! sid = Some t → us_stage t = Pumping since →
    udp_step u (set_task sid (at_stage (Replying reply) t) u)
| us_replied ok reply sid t u :
    u_tasks u !! sid = Some t → us_stage t = Replying reply → udp_step u (replied ok reply sid t u)
| us_recv_failed sid t since u :
    u_tasks u !! sid = Some t → us_stage t = Pumping since →
    udp_step u (set_task sid (at_stage Leaving t) u)
| us_tick sid t since u :
    u_tasks u !! sid = Some t → us_stage t = Pumping since → (since + idle_timeout ≤ u_now u)%Z →
    udp_step u (set_task sid (idle_tick (u_now u) t) u)
| us_leave sid t u :
    u_tasks u !! sid = Some t → us_stage t = Leaving → udp_step u (drop_frame sid t u)
| us_stop u : u_phase u = Receiving → udp_step u (set_phase Reaping u)
| us_abort sid t u :
    u_tasks u !! sid = Some t → u_phase u = Reaping → udp_step u (drop_frame sid t u)
| us_return u : u_phase u = Reaping → u_tasks u = ∅ → udp_step u (set_phase Returned u).

Definition udp_run (u : UdpListener) : Prop := ∃ now, rtc udp_step (udp_start now) u.

End forwarder.
