(* ===== verification/UdpForwarderFacts.v ===== *)
(** * Properties of the UDP forwarder

    Over every interleaving of the receive loop and the session tasks: the resources of
    sessions are bounded and all returned, replies go where the session came from, and
    datagrams are accounted for. *)

From S2P Require Import Prelude Net External Config Filters Entry AccessControl HostRouter Tls Layer4 EdgeListeners.
From S2P Require Import UdpForwarder.

(** ** Resources *)

Notation any_task := (λ _ : UdpSession, true).

(** Permits, session map and gauge against the tasks that hold them. *)
Record udp_res (available : Z) (sessions : gmap SocketAddr nat) (tasks : gmap nat UdpSession) (next : nat)
    (active : Z) : Prop := {
  ur_permits : (available + map_count any_task tasks = MAX_CONCURRENT_SESSIONS)%Z;
  ur_available : (0 ≤ available)%Z;
  ur_active : active = map_count established tasks;
  ur_sessions : ∀ c sid, sessions !! c = Some sid →
    ∃ t, tasks !! sid = Some t ∧ us_client t = c ∧ established t = true;
  ur_fresh : ∀ sid t, tasks !! sid = Some t → (sid < next)%nat;
}.

Definition res_of (u : UdpListener) : Prop :=
  udp_res (u_available u) (u_sessions u) (u_tasks u) (u_next u) (u_active u).

Lemma tasks_insert_old (m : gmap nat UdpSession) sid t t' n s :
  m !! sid = Some t → <[sid:=t']> m !! n = Some s → ∃ s', m !! n = Some s'.
Proof.
  intros Hm. destruct (decide (sid = n)) as [<-|]; [by eauto|]. rewrite lookup_insert_ne by done. by eauto.
Qed.

Lemma res_set_task u sid t t' :
  res_of u → u_tasks u !! sid = Some t → us_client t' = us_client t → established t' = established t →
  res_of (set_task sid t' u).
Proof.
  intros [Hp Ha Hg Hs Hf] Ht Hc He. split; simpl; [|done| | |].
  - rewrite (map_count_update _ _ _ t) by done. simpl. lia.
  - rewrite (map_count_update _ _ _ t), He by done. lia.
  - intros c n Hn. destruct (Hs c n Hn) as (s & Hls & Hcs & Hes).
    destruct (decide (sid = n)) as [<-|]; [|exists s; by rewrite lookup_insert_ne].
    exists t'. rewrite lookup_insert_eq. simplify_eq. by rewrite Hc, He.
  - intros n s Hn. destruct (tasks_insert_old _ _ _ _ _ _ Ht Hn) as [s' Hs']. by eapply Hf.
Qed.

Lemma res_drop_frame u sid t : res_of u → u_tasks u !! sid = Some t → res_of (drop_frame sid t u).
Proof.
  intros [Hp Ha Hg Hs Hf] Ht. unfold drop_frame.
  assert (∀ c n, (if decide (u_sessions u !! us_client t = Some sid) then delete (us_client t) (u_sessions u)
    else u_sessions u) !! c = Some n → u_sessions u !! c = Some n ∧ n ≠ sid) as Hdel.
  { intros c n Hn. case_decide as Hd.
    - apply lookup_delete_Some in Hn as [Hne Hn]. split; [done|]. intros ->.
      destruct (Hs c sid Hn) as (s & Hls & Hcs & _). congruence.
    - split; [done|]. intros ->. destruct (Hs c sid Hn) as (s & Hls & Hcs & _). congruence. }
  assert (established t = false → ∀ c n, u_sessions u !! c = Some n → n ≠ sid) as Hnew.
  { intros He c n Hn ->. destruct (Hs c sid Hn) as (s & Hls & _ & Hes). congruence. }
  destruct (established t) eqn:He; split; simpl; rewrite ?(map_count_delete _ _ _ t Ht), ?He; simpl; try lia.
  - intros c n [Hn Hne]%Hdel. destruct (Hs c n Hn) as (s & ?). exists s. by rewrite lookup_delete_ne.
  - intros n s [_ Hn]%lookup_delete_Some. by eapply Hf.
  - intros c n Hn. pose proof (Hnew eq_refl c n Hn). destruct (Hs c n Hn) as (s & ?). exists s.
    by rewrite lookup_delete_ne.
  - intros n s [_ Hn]%lookup_delete_Some. by eapply Hf.
Qed.

Lemma res_spawn u client backend payload :
  res_of u → (0 < u_available u)%Z → res_of (spawn_session client backend payload u).
Proof.
  intros [Hp Ha Hg Hs Hf] Hpos.
  assert (u_tasks u !! u_next u = None) as Hnone.
  { destruct (u_tasks u !! u_next u) as [t|] eqn:E; [|done]. apply Hf in E. lia. }
  split; simpl; rewrite ?map_count_fresh by done; simpl; try lia.
  - intros c n Hn. destruct (Hs c n Hn) as (s & Hls & ?). exists s. rewrite lookup_insert_ne; [done|].
    intros <-. congruence.
  - intros n s [[<- _]|[_ Hn]]%lookup_insert_Some; [lia|]. apply Hf in Hn. lia.
Qed.

Lemma res_establish u sid t now :
  res_of u → u_tasks u !! sid = Some t → established t = false →
  res_of (set_task sid (at_stage (Pumping now) t) (guard_new sid (us_client t) u)).
Proof.
  intros [Hp Ha Hg Hs Hf] Ht He. split; simpl; [|done| | |].
  - rewrite (map_count_update _ _ _ t) by done. simpl. lia.
  - rewrite (map_count_update _ _ _ t), He by done. simpl. lia.
  - intros c n [[<- <-]|[Hne Hn]]%lookup_insert_Some; [exists (at_stage (Pumping now) t); by rewrite lookup_insert_eq|].
    destruct (Hs c n Hn) as (s & Hls & ? & ?). exists s. rewrite lookup_insert_ne; [done|]. intros <-. congruence.
  - intros n s Hn. destruct (tasks_insert_old _ _ _ _ _ _ Ht Hn) as [s' Hs']. by eapply Hf.
Qed.

(** ** What was sent *)

Definition dg_session (d : Datagram) : nat :=
  match d with ToBackend sid _ _ _ | ToClient sid _ _ => sid end.

(** The datagrams sent, latest first, against the sessions: a session belongs to one
    client and one backend, and answers only after it was opened by that client. *)
Record udp_trace (tasks : gmap nat UdpSession) (next : nat) (sent : list Datagram) : Prop := {
  ut_old : ∀ d, d ∈ sent → (dg_session d < next)%nat;
  ut_opened : ∀ sid t, tasks !! sid = Some t → established t = true →
    ∃ p, ToBackend sid (us_client t) (us_backend t) p ∈ sent;
  ut_pinned : ∀ sid c b p t, ToBackend sid c b p ∈ sent → tasks !! sid = Some t →
    us_client t = c ∧ us_backend t = b;
  ut_agree : ∀ sid c b p c' b' p', ToBackend sid c b p ∈ sent → ToBackend sid c' b' p' ∈ sent → c = c' ∧ b = b';
  ut_answers : ∀ l1 sid c p l2, sent = l1 ++ ToClient sid c p :: l2 → ∃ b q, ToBackend sid c b q ∈ l2;
}.

Definition trace_of (u : UdpListener) : Prop := udp_trace (u_tasks u) (u_next u) (u_sent u).

Lemma trace_set_task tasks next sent sid t t' :
  udp_trace tasks next sent → tasks !! sid = Some t → us_client t' = us_client t → us_backend t' = us_backend t →
  (established t' = true → ∃ p, ToBackend sid (us_client t) (us_backend t) p ∈ sent) →
  udp_trace (<[sid := t']> tasks) next sent.
Proof.
  intros [Ho Hop Hpin Hag Han] Ht Hc Hb He. split; try done.
  - intros n s [[<- <-]|[_ Hn]]%lookup_insert_Some Hes; [rewrite Hc, Hb; by apply He|by apply Hop].
  - intros n c b p s Hin [[<- <-]|[_ Hn]]%lookup_insert_Some; [rewrite Hc, Hb|]; by eapply Hpin.
Qed.

Lemma trace_delete tasks next sent sid : udp_trace tasks next sent → udp_trace (delete sid tasks) next sent.
Proof.
  intros [Ho Hop Hpin Hag Han]. split; try done.
  - intros n s [_ Hn]%lookup_delete_Some. by apply Hop.
  - intros n c b p s Hin [_ Hn]%lookup_delete_Some. by eapply Hpin.
Qed.

Lemma trace_spawn tasks next sent t :
  udp_trace tasks next sent → established t = false → udp_trace (<[next := t]> tasks) (S next) sent.
Proof.
  intros [Ho Hop Hpin Hag Han] He. split; try done.
  - intros d Hd. apply Ho in Hd. lia.
  - intros n s [[<- <-]|[_ Hn]]%lookup_insert_Some Hes; [congruence|by apply Hop].
  - intros n c b p s Hin [[<- <-]|[_ Hn]]%lookup_insert_Some; [|by eapply Hpin].
    apply Ho in Hin. simpl in Hin. lia.
Qed.

Lemma trace_forward tasks next sent sid t p :
  udp_trace tasks next sent → tasks !! sid = Some t → (sid < next)%nat →
  udp_trace tasks next (ToBackend sid (us_client t) (us_backend t) p :: sent).
Proof.
  intros [Ho Hop Hpin Hag Han] Ht Hlt. split.
  - intros d [-> | Hd]%elem_of_cons; [done|by apply Ho].
  - intros n s Hn Hes. destruct (Hop n s Hn Hes) as [q ?]. exists q. by right.
  - intros n c b q s [[= -> -> -> ->]|Hin]%elem_of_cons Hn; [by simplify_eq|by eapply Hpin].
  - intros n c b q c' b' q' [E|Hin]%elem_of_cons [E'|Hin']%elem_of_cons; simplify_eq; [done|..|by eapply Hag].
    + by destruct (Hpin _ _ _ _ _ Hin' Ht).
    + by destruct (Hpin _ _ _ _ _ Hin Ht).
  - intros [|d l1] n c q l2 E; simplify_eq/=. by eapply Han.
Qed.

Lemma trace_answer tasks next sent sid t p :
  udp_trace tasks next sent → tasks !! sid = Some t → established t = true → (sid < next)%nat →
  udp_trace tasks next (ToClient sid (us_client t) p :: sent).
Proof.
  intros [Ho Hop Hpin Hag Han] Ht He Hlt. split.
  - intros d [-> | Hd]%elem_of_cons; [done|by apply Ho].
  - intros n s Hn Hes. destruct (Hop n s Hn Hes) as [q ?]. exists q. by right.
  - intros n c b q s [|Hin]%elem_of_cons Hn; [done|by eapply Hpin].
  - intros n c b q c' b' q' [|Hin]%elem_of_cons [|Hin']%elem_of_cons; [done..|by eapply Hag].
  - intros [|d l1] n c q l2 E; simplify_eq/=; [|by eapply Han].
    destruct (Hop _ _ Ht He) as [r Hr]. by eauto.
Qed.

(** ** Accounts *)

Definition forwarded (d : Datagram) : bool := match d with ToBackend _ _ _ _ => true | ToClient _ _ _ => false end.

(** The reasons that discard a datagram a client sent. *)
Definition inbound (r : DropReason) : bool :=
  match r with RecvError | ClientSend => false | _ => true end.

Definition count {A : Type} (p : A → bool) (l : list A) : Z := foldr (λ a n, (Z.b2z (p a) + n)%Z) 0%Z l.

Definition in_setup (t : UdpSession) : bool := negb (established t).

(** The datagrams of clients that were sent on, counted as dropped, or wait in the setup
    of their session. *)
Definition accounted (u : UdpListener) : Z :=
  count forwarded (u_sent u) + count inbound (u_drops u) + map_count in_setup (u_tasks u).

Definition accounts_of (u : UdpListener) : Prop :=
  (accounted u ≤ u_received u)%Z ∧ (u_phase u = Receiving → accounted u = u_received u).

Section run.
Context {G : Type} (port idle_timeout : Z).
Notation step := (udp_step (G := G) port idle_timeout).
Notation run := (udp_run (G := G) port idle_timeout).

Lemma res_handle_datagram (table : UdpRouteTable (G := G)) select ok client payload u :
  res_of u → res_of (handle_datagram port table select ok client payload u).
Proof.
  intros Hr. unfold handle_datagram.
  destruct (_ ≫= _) as [[sid t]|] eqn:E.
  - apply bind_Some in E as (sid' & _ & (t' & Ht & [= -> ->])%bind_Some).
    destruct ok; by apply (res_set_task u sid t).
  - destruct (table !! port); [|done]. destruct (select _); [|done].
    destruct (Z.ltb_spec 0 (u_available u)); [by apply res_spawn|done].
Qed.

Lemma idle_tick_keeps now t :
  us_client (idle_tick idle_timeout now t) = us_client t ∧ us_backend (idle_tick idle_timeout now t) = us_backend t ∧
  established (idle_tick idle_timeout now t) = true.
Proof. unfold idle_tick. by destruct (_ <=? _)%Z. Qed.

Lemma stage_established t st : us_stage t = st → established t = established (at_stage st t).
Proof. by intros <-. Qed.

Lemma res_step u u' : step u u' → res_of u → res_of u'.
Proof.
  intros Hs Hr. destruct Hs as [| | |ok ? t ? Ht Hst|ok ? t ? Ht Hst|ok ? t ? Ht Hst|? ? t ? ? Ht Hst|ok ? ? t ? Ht Hst
    |? t ? ? Ht Hst|? t ? ? Ht Hst|? t ? Ht Hst| |? t ? Ht| ]; try done; try apply stage_established in Hst.
  - by apply res_handle_datagram.
  - destruct ok; [by apply (res_set_task _ _ t)|by apply (res_drop_frame (record_drop _ _))].
  - destruct ok; [by apply (res_set_task _ _ t)|by apply (res_drop_frame (record_drop _ _))].
  - destruct ok; [by apply (res_establish (send_out _ _))|by apply (res_drop_frame (record_drop _ _))].
  - by apply (res_set_task _ _ t).
  - destruct ok; [by apply (res_set_task (send_out _ _) _ t)|by apply (res_set_task (record_drop _ _) _ t)].
  - by apply (res_set_task _ _ t).
  - destruct (idle_tick_keeps (u_now u) t) as (? & _ & ?). apply (res_set_task _ _ t); [done..|by rewrite Hst].
  - by apply res_drop_frame.
  - by apply res_drop_frame.
Qed.

Lemma trace_handle_datagram (table : UdpRouteTable (G := G)) select ok client payload u :
  res_of u → trace_of u → trace_of (handle_datagram port table select ok client payload u).
Proof.
  intros Hr Htr. unfold handle_datagram. destruct (_ ≫= _) as [[sid t]|] eqn:E.
  - apply bind_Some in E as (sid' & Hse & (t' & Ht & [= -> ->])%bind_Some).
    destruct (ur_sessions _ _ _ _ _ Hr _ _ Hse) as (t2 & Ht2 & Hc & He). simplify_eq.
    assert (trace_of (set_task sid (seen_at (u_now u) t) u)) as Hset.
    { apply (trace_set_task _ _ _ _ t); try done. intros _. by apply (ut_opened _ _ _ Htr). }
    destruct ok; [|done]. apply (trace_forward _ _ _ sid (seen_at (u_now u) t)); [done|apply lookup_insert_eq|].
    by apply (ur_fresh _ _ _ _ _ Hr _ _ Ht).
  - destruct (table !! port); [|done]. destruct (select _); [|done].
    destruct (0 <? u_available u)%Z; [by apply trace_spawn|done].
Qed.

Lemma trace_drop_frame u sid t : trace_of u → trace_of (drop_frame sid t u).
Proof. intros Htr. unfold drop_frame. destruct (established t); by apply trace_delete. Qed.

(** A task that stays on its side of the establishment *)
Lemma trace_moves u sid t t' :
  trace_of u → u_tasks u !! sid = Some t → us_client t' = us_client t → us_backend t' = us_backend t →
  established t' = established t → trace_of (set_task sid t' u).
Proof.
  intros Htr Ht Hc Hb He. apply (trace_set_task _ _ _ _ t); try done. rewrite He. by apply (ut_opened _ _ _ Htr).
Qed.

Lemma trace_step u u' : step u u' → res_of u → trace_of u → trace_of u'.
Proof.
  intros Hs Hr Htr. destruct Hs as [| | |ok ? t ? Ht Hst|ok ? t ? Ht Hst|ok ? t ? Ht Hst|? ? t ? ? Ht Hst|ok ? sid t ? Ht Hst
    |? t ? ? Ht Hst|? t ? ? Ht Hst|? t ? Ht Hst| |? t ? Ht| ]; try done; try apply stage_established in Hst.
  - by apply trace_handle_datagram.
  - destruct ok; [by apply (trace_moves _ _ t)|by apply (trace_drop_frame (record_drop _ _))].
  - destruct ok; [by apply (trace_moves _ _ t)|by apply (trace_drop_frame (record_drop _ _))].
  - destruct ok; [|by apply (trace_drop_frame (record_drop _ _))].
    apply (trace_set_task _ _ _ _ t); [|done..|intros _; eexists; by left].
    apply trace_forward; [done..|]. by apply (ur_fresh _ _ _ _ _ Hr _ _ Ht).
  - by apply (trace_moves _ _ t).
  - unfold replied. destruct ok; [|by apply (trace_moves (record_drop _ _) _ t)].
    apply (trace_moves (send_out _ _) _ t); try done. apply trace_answer; [done..|].
    by apply (ur_fresh _ _ _ _ _ Hr _ _ Ht).
  - by apply (trace_moves _ _ t).
  - destruct (idle_tick_keeps (u_now u) t) as (? & ? & ?). apply (trace_moves _ _ t); [done..|by rewrite Hst].
  - by apply trace_drop_frame.
  - by apply trace_drop_frame.
Qed.

(** ** Accounts of a step *)

Lemma accounted_set_task u sid t t' :
  u_tasks u !! sid = Some t →
  accounted (set_task sid t' u) = (accounted u - Z.b2z (in_setup t) + Z.b2z (in_setup t'))%Z.
Proof. intros Ht. unfold accounted. simpl. rewrite (map_count_update _ _ _ t) by done. lia. Qed.

Lemma accounted_send_out d u : accounted (send_out d u) = (accounted u + Z.b2z (forwarded d))%Z.
Proof. unfold accounted. simpl. lia. Qed.

Lemma accounted_record_drop r u : accounted (record_drop r u) = (accounted u + Z.b2z (inbound r))%Z.
Proof. unfold accounted. simpl. lia. Qed.

Lemma accounted_drop_frame u sid t :
  u_tasks u !! sid = Some t → accounted (drop_frame sid t u) = (accounted u - Z.b2z (in_setup t))%Z.
Proof.
  intros Ht. unfold accounted, drop_frame. destruct (established t); simpl; rewrite (map_count_delete _ _ _ t) by done; lia.
Qed.

Lemma accounted_handle_datagram (table : UdpRouteTable (G := G)) select ok client payload u :
  res_of u → accounted (handle_datagram port table select ok client payload u) = (accounted u + 1)%Z.
Proof.
  intros Hr. unfold handle_datagram. destruct (_ ≫= _) as [[sid t]|] eqn:E.
  - apply bind_Some in E as (sid' & _ & (t' & Ht & [= -> ->])%bind_Some).
    assert (in_setup (seen_at (u_now u) t) = in_setup t) as Hin by done.
    destruct ok; rewrite ?accounted_send_out, ?accounted_record_drop, (accounted_set_task _ _ t), Hin by done; simpl; lia.
  - destruct (table !! port); [|by rewrite accounted_record_drop]. destruct (select _); [|by rewrite accounted_record_drop].
    destruct (0 <? u_available u)%Z; [|by rewrite accounted_record_drop].
    unfold accounted. simpl. rewrite map_count_fresh; [simpl; lia|].
    destruct (u_tasks u !! u_next u) as [t|] eqn:Et; [|done]. apply (ur_fresh _ _ _ _ _ Hr) in Et. lia.
Qed.

Lemma accounts_kept u u' :
  u_received u' = u_received u → (u_phase u' = Receiving → u_phase u = Receiving) →
  accounted u' = accounted u → accounts_of u → accounts_of u'.
Proof. intros Hrc Hph Hac [Hle Heq]. split; rewrite Hac, Hrc; [done|]. intros H. by apply Heq, Hph. Qed.

Lemma drop_frame_rest u sid t :
  u_received (drop_frame sid t u) = u_received u ∧ u_phase (drop_frame sid t u) = u_phase u.
Proof. unfold drop_frame. by destruct (established t). Qed.

(** A task in setup ends with its datagram counted. *)
Lemma accounts_failed u sid t r :
  accounts_of u → u_tasks u !! sid = Some t → in_setup t = true → inbound r = true →
  accounts_of (drop_frame sid t (record_drop r u)).
Proof.
  intros Ha Ht Hi Hin. destruct (drop_frame_rest (record_drop r u) sid t) as [E1 E2].
  apply (accounts_kept u); [done|by rewrite E2|..|done].
  rewrite (accounted_drop_frame _ _ t), accounted_record_drop, Hi, Hin by done. simpl. lia.
Qed.

Lemma accounts_moves u sid t t' :
  accounts_of u → u_tasks u !! sid = Some t → in_setup t' = in_setup t → accounts_of (set_task sid t' u).
Proof.
  intros Ha Ht Hi. apply (accounts_kept u); try done. rewrite (accounted_set_task _ _ t), Hi by done. lia.
Qed.

Lemma accounts_step u u' : step u u' → res_of u → accounts_of u → accounts_of u'.
Proof.
  intros Hs Hr Ha. destruct Hs as [|table select_upstream try_send client payload ? Hph| |ok ? t ? Ht Hst|ok ? t ? Ht Hst|ok sid t ? Ht Hst|? ? t ? ? Ht Hst|ok ? sid t ? Ht Hst
    |? t ? ? Ht Hst|? t ? ? Ht Hst|sid t ? Ht Hst| |sid t ? Ht| ]; try done; try apply stage_established in Hst;
    try (assert (in_setup t = negb (established t)) as Hi by done; rewrite Hst in Hi; simpl in Hi).
  - destruct Ha as [_ Ha]. pose proof (accounted_handle_datagram table select_upstream try_send client payload (receive u) Hr) as E.
    assert (u_received (handle_datagram port table select_upstream try_send client payload (receive u)) =
      u_received u + 1)%Z as E' by (unfold handle_datagram; repeat case_match; done).
    assert (accounted (receive u) = accounted u) as E2 by done. specialize (Ha Hph).
    split; [|intros _]; rewrite E, E', E2; lia.
  - destruct ok; [by apply (accounts_moves _ _ t)|by apply accounts_failed].
  - destruct ok; [by apply (accounts_moves _ _ t)|by apply accounts_failed].
  - destruct ok; [|by apply accounts_failed]. apply (accounts_kept u); try done.
    assert (accounted (guard_new sid (us_client t) (send_out (ToBackend sid (us_client t) (us_backend t) (us_payload t)) u)) =
      accounted u + 1)%Z as E by (apply (accounted_send_out (ToBackend _ _ _ _))).
    unfold first_sent. rewrite (accounted_set_task _ _ t), E, Hi by done. simpl. lia.
  - by apply (accounts_moves _ _ t).
  - destruct ok; [apply (accounts_moves (send_out _ _) _ t)|apply (accounts_moves (record_drop _ _) _ t)]; try done.
  - by apply (accounts_moves _ _ t).
  - apply (accounts_moves _ _ t); [done..|]. unfold in_setup. destruct (idle_tick_keeps (u_now u) t) as (_ & _ & ->). by rewrite Hst.
  - destruct (drop_frame_rest u sid t) as [E1 E2]. apply (accounts_kept u); [done|by rewrite E2|..|done].
    rewrite (accounted_drop_frame _ _ t), Hi by done. simpl. lia.
  - destruct Ha as [Hle _]. by split.
  - destruct (drop_frame_rest u sid t) as [E1 E2]. destruct Ha as [Hle _].
    split; [|intros Hp; rewrite E2 in Hp; congruence]. rewrite (accounted_drop_frame _ _ t), E1 by done.
    destruct (in_setup t); simpl; lia.
  - destruct Ha as [Hle _]. by split.
Qed.

(** ** Runs *)

Lemma udp_step_phase u u' :
  step u u' → u_phase u' = u_phase u ∨ u_phase u = Receiving ∧ u_phase u' = Reaping ∨ u_phase u = Reaping ∧ u_tasks u' = ∅.
Proof.
  intros Hs. destruct Hs; try (by left); try (by right; left); try (by right; right); left;
    unfold handle_datagram, bound, connected, first_sent, replied, drop_frame; repeat case_match; done.
Qed.

Lemma returned_step u u' :
  step u u' → (u_phase u = Returned → u_tasks u = ∅) → u_phase u' = Returned → u_tasks u' = ∅.
Proof.
  intros Hs Hp Hq. destruct (udp_step_phase _ _ Hs) as [E|[[_ E]|[_ ?]]]; [|congruence|done].
  rewrite Hq in E. symmetry in E. specialize (Hp E).
  destruct Hs as [| | |? ? ? ? Ht|? ? ? ? Ht|? ? ? ? Ht|? ? ? ? ? Ht|? ? ? ? ? Ht|? ? ? ? Ht|? ? ? ? Ht|? ? ? Ht| |? ? ? Ht| ];
    try (rewrite Hp, lookup_empty in Ht); first [done | congruence].
Qed.

Lemma udp_run_inv u : run u → res_of u ∧ trace_of u ∧ accounts_of u ∧ (u_phase u = Returned → u_tasks u = ∅).
Proof.
  intros [now Hrun].
  assert (res_of (udp_start now) ∧ trace_of (udp_start now) ∧ accounts_of (udp_start now) ∧
    (u_phase (udp_start now) = Returned → u_tasks (udp_start now) = ∅)) as Hinit.
  { split_and!; [..|done].
    - split; simpl; rewrite ?map_count_empty; try done.
    - split; simpl; try done; try (intros ?; intros; set_solver). by intros [].
    - split; unfold accounted; simpl; by rewrite map_count_empty. }
  revert Hinit. generalize (udp_start now), Hrun. clear Hrun now. intros v Hrun. induction Hrun as [|v w u Hs _ IH]; [done|].
  intros (Hr & Ht & Ha & Hp). apply IH. split_and!; [by eapply res_step|by eapply trace_step|by eapply accounts_step|by eapply returned_step].
Qed.

(** C15: However datagrams, session tasks and timeouts interleave, the permits in use are
    the session tasks that exist and never more than the limit, the gauge is the number
    of sessions that hold a guard, and every entry of the session map belongs to a live
    session of that client. *)
Theorem udp_sessions_bounded (u : UdpListener) :
  run u →
  (u_available u + map_count any_task (u_tasks u) = MAX_CONCURRENT_SESSIONS ∧ 0 ≤ u_available u)%Z ∧
  (u_active u = map_count established (u_tasks u) ∧ 0 ≤ u_active u ≤ MAX_CONCURRENT_SESSIONS)%Z ∧
  ∀ c sid, u_sessions u !! c = Some sid →
    ∃ t, u_tasks u !! sid = Some t ∧ us_client t = c ∧ established t = true.
Proof.
  intros ([Hp Ha Hg Hs Hf] & _)%udp_run_inv. split_and!; try done.
  - rewrite Hg. apply map_count_nonneg.
  - assert (map_count any_task (u_tasks u) = map_count established (u_tasks u) + map_count in_setup (u_tasks u))%Z as E.
    { apply map_count_split. intros _ t _. unfold in_setup. by destruct (established t). }
    pose proof (map_count_nonneg in_setup (u_tasks u)). lia.
Qed.

Lemma reap_ends n u :
  size (u_tasks u) = n → u_phase u = Reaping → ∃ u', rtc step u u' ∧ u_phase u' = Returned.
Proof.
  revert u. induction n as [|n IH]; intros u Hn Hp.
  - apply map_size_empty_inv in Hn. exists (set_phase Returned u). split; [|done]. apply rtc_once. by apply us_return.
  - destruct (map_choose (u_tasks u)) as (sid & t & Ht); [intros E; by rewrite E, map_size_empty in Hn|].
    destruct (IH (drop_frame sid t u)) as (u' & Hu' & Hr).
    + assert (u_tasks (drop_frame sid t u) = delete sid (u_tasks u)) as ->
        by (unfold drop_frame; by destruct (established t)).
      rewrite map_size_delete_Some by done. lia.
    + unfold drop_frame. by destruct (established t).
    + exists u'. split; [|done]. eapply rtc_l; [|done]. by apply us_abort.
Qed.

(** Once the loop has stopped, the reaping can always run to its end, and whenever
    the listener has returned every permit is back, the session map is empty and the
    listener contributes nothing to the session gauge, wherever its tasks were aborted. *)
Theorem udp_reap_returns_all (u : UdpListener) :
  run u →
  (u_phase u = Reaping → ∃ u', rtc step u u' ∧ u_phase u' = Returned) ∧
  (u_phase u = Returned →
    u_tasks u = ∅ ∧ u_sessions u = ∅ ∧ u_active u = 0%Z ∧ u_available u = MAX_CONCURRENT_SESSIONS).
Proof.
  intros ([Hp Ha Hg Hs Hf] & _ & _ & Hr)%udp_run_inv. split; [by apply (reap_ends (size (u_tasks u)))|].
  intros Hret%Hr. rewrite Hret in *. rewrite map_count_empty in *. split_and!; [done| |done|lia].
  apply map_empty. intros c. destruct (u_sessions u !! c) as [sid|] eqn:E; [|done].
  by destruct (Hs c sid E) as (t & Ht & _).
Qed.

(** C14: A reply is only ever sent to a client from which a datagram was forwarded before
    through the same session, and all datagrams of a session come from that client and go
    to one backend. *)
Theorem udp_replies_routed (u : UdpListener) (later earlier : list Datagram) (sid : nat) (c : SocketAddr) (p : str) :
  run u → u_sent u = later ++ ToClient sid c p :: earlier →
  ∃ b q, ToBackend sid c b q ∈ earlier ∧
    ∀ c' b' q', ToBackend sid c' b' q' ∈ u_sent u → c' = c ∧ b' = b.
Proof.
  intros (_ & [Ho Hop Hpin Hag Han] & _)%udp_run_inv E. destruct (Han _ _ _ _ _ E) as (b & q & Hq). exists b, q.
  split; [done|]. intros c' b' q' Hin. eapply Hag; [done|]. rewrite E, elem_of_app, elem_of_cons. by eauto.
Qed.


(** A session without traffic leaves at the first or second timeout: within twice the
    idle timeout of the last datagram, or one timeout after the last reply. *)
Lemma idle_eviction t since :
  us_stage t = Pumping since → (last_seen t ≤ since + idle_timeout)%Z → (0 < idle_timeout)%Z →
  let t1 := idle_tick idle_timeout (since + idle_timeout) t in
  if (last_seen t <=? since)%Z then us_stage t1 = Leaving
  else us_stage t1 = Pumping (since + idle_timeout) ∧
       us_stage (idle_tick idle_timeout (since + 2 * idle_timeout) t1) = Leaving ∧
       (since + 2 * idle_timeout < last_seen t + 2 * idle_timeout)%Z.
Proof.
  intros Hst Hl Hpos t1. subst t1. unfold idle_tick, saturating_sub.
  destruct (Z.leb_spec (last_seen t) since).
  - destruct (Z.leb_spec idle_timeout (Z.max 0 (since + idle_timeout - last_seen t))); [done|lia].
  - destruct (Z.leb_spec idle_timeout (Z.max 0 (since + idle_timeout - last_seen t))); [lia|]. simpl.
    destruct (Z.leb_spec idle_timeout (Z.max 0 (since + 2 * idle_timeout - last_seen t))); [done || (split_and!; [done..|lia])|lia].
Qed.

End run.

(** ** Witnesses *)

Module UdpDemo.

Definition client : SocketAddr := mkSocketAddr (V4 10) 5000.
Definition backend : SocketAddr := mkSocketAddr (V4 20) 53.
Definition table : UdpRouteTable (G := nat) := udp_add_route ∅ 53 7%nat.
Notation step := (udp_step (G := nat) 53 30000).
Definition arrives (payload : str) (u : UdpListener) : UdpListener :=
  handle_datagram 53 table (λ _, Some backend) true client payload (receive u).

(** A query and its answer *)
Definition task (u : UdpListener) (sid : nat) : UdpSession :=
  default (mkUdpSession client backend [] 0 Leaving) (u_tasks u !! sid).
Definition open (sid : nat) (u : UdpListener) : UdpListener :=
  let u := bound true sid (task u sid) u in
  let u := connected true sid (task u sid) u in
  first_sent true sid (task u sid) u.

Definition asked : UdpListener := arrives (lit "q") (udp_start 0).
Definition pumping : UdpListener := open 0 asked.
Definition replying : UdpListener := set_task 0 (at_stage (Replying (lit "a")) (task pumping 0)) pumping.
Definition answered : UdpListener := replied true (lit "a") 0 (task replying 0) replying.

Lemma asked_run : udp_run (G := nat) 53 30000 asked.
Proof. exists 0%Z. apply rtc_once. by apply (us_datagram 53 30000 table (λ _, Some backend) true client (lit "q")). Qed.

Lemma open_steps u sid t :
  u_tasks u !! sid = Some t → us_stage t = Binding → rtc step u (open sid u).
Proof.
  intros Ht Hst. assert (task u sid = t) as Et by (unfold task; by rewrite Ht). unfold open. cbv zeta. rewrite Et.
  eapply rtc_l; [by apply (us_bound _ _ true sid t)|]. unfold bound.
  set (u1 := set_task sid (at_stage Connecting t) u).
  assert (u_tasks u1 !! sid = Some (at_stage Connecting t)) as H1 by apply lookup_insert_eq.
  assert (task u1 sid = at_stage Connecting t) as -> by (unfold task; by rewrite H1).
  eapply rtc_l; [by apply (us_connected _ _ true sid _ u1 H1)|]. unfold connected.
  set (u2 := set_task sid (at_stage Sending _) u1).
  assert (u_tasks u2 !! sid = Some (at_stage Sending (seen_at (u_now u1) (at_stage Connecting t)))) as H2
    by apply lookup_insert_eq.
  assert (task u2 sid = at_stage Sending (seen_at (u_now u1) (at_stage Connecting t))) as ->
    by (unfold task; by rewrite H2).
  apply rtc_once. by apply us_first_sent.
Qed.

Lemma answered_run : udp_run (G := nat) 53 30000 answered.
Proof.
  destruct asked_run as [now Hr]. exists now. etrans; [exact Hr|].
  etrans; [by eapply (open_steps asked 0)|]. eapply rtc_l; [by apply (us_reply _ _ (lit "a") 0 (task pumping 0) 0)|].
  apply rtc_once. by apply us_replied.
Qed.

End UdpDemo.
Import UdpDemo.

(** A datagram whose session is still being set up when the listener drains is
    discarded with its task and no drop reason counts it. *)
Theorem reap_discards_silently :
  ∃ u, udp_run (G := nat) 53 30000 u ∧ u_phase u = Returned ∧ u_received u = 1%Z ∧ u_sent u = [] ∧ u_drops u = [].
Proof.
  set (u1 := set_phase Reaping asked). set (u2 := drop_frame 0 (task u1 0) u1).
  exists (set_phase Returned u2). split; [|done].
  destruct asked_run as [now Hr]. exists now. etrans; [exact Hr|].
  eapply rtc_l; [by apply us_stop|]. eapply rtc_l; [by apply (us_abort _ _ 0 (task u1 0))|].
  apply rtc_once. by apply us_return.
Qed.

Lemma udp_sessions_bounded_witness :
  (u_available answered + map_count any_task (u_tasks answered) = MAX_CONCURRENT_SESSIONS ∧ 0 ≤ u_available answered)%Z ∧
  (u_active answered = map_count established (u_tasks answered) ∧ 0 ≤ u_active answered ≤ MAX_CONCURRENT_SESSIONS)%Z ∧
  ∀ c sid, u_sessions answered !! c = Some sid →
    ∃ t, u_tasks answered !! sid = Some t ∧ us_client t = c ∧ established t = true.
Proof. exact (udp_sessions_bounded 53 30000 answered answered_run). Defined.

Lemma udp_reap_returns_all_witness :
  let u := set_phase Reaping answered in
  u_active u = 1%Z ∧ ∃ u', rtc (udp_step (G := nat) 53 30000) u u' ∧ u_phase u' = Returned.
Proof.
  split; [done|]. refine (proj1 (udp_reap_returns_all (G := nat) 53 30000 (set_phase Reaping answered) _) eq_refl).
  destruct answered_run as [now Hr]. exists now. eapply rtc_r; [exact Hr|]. by apply us_stop.
Defined.

Lemma udp_replies_routed_witness :
  ∃ b q, ToBackend 0 client b q ∈ [ToBackend 0 client backend (lit "q")] ∧
    ∀ c' b' q', ToBackend 0 c' b' q' ∈ u_sent answered → c' = client ∧ b' = b.
Proof. exact (udp_replies_routed 53 30000 answered [] _ 0 client (lit "a") answered_run eq_refl). Defined.

