(* ===== verification/RequestLife.v ===== *)
(** * The attempts of a request

    Models the hooks that carry a routed request to an upstream:
    [upstream_peer], the retry decision of [upstream_response_filter] and the
    accounting of [logging] in [crates/coxswain-proxy/src/hooks.rs], [retry.rs], [merge_timeouts] of
    [routing/outcome.rs] and the breaker registry of [policy/circuit_breaker.rs].  The
    group is that of [Backend].  Errors of Pingora and the breakers of [failsafe] are
    classes.  Times are nanoseconds. *)

From S2P Require Import Prelude Net Backend Config External Filters Entry RelayScaler.

(** ** Interfaces *)

(** The retry mark of a Pingora error: [fresh_retry] is that of [Error::explain],
    [retry_from] the conversion from a boolean. *)
Class PingoraError := {
  RetryType : Type;
  fresh_retry : RetryType;
  retry_from : bool → RetryType;
  decide_reuse : RetryType → bool → RetryType;
  retry_type : RetryType → bool;
}.

Class PingoraErrorLaws `{PingoraError} := {
  retry_from_type : ∀ b, retry_type (retry_from b) = b;
  fresh_not_retried : retry_type fresh_retry = false;
}.

(** How long a breaker stays open. *)
Inductive Backoff :=
| Constant (open : Z)
| Exponential (start max : Z).

(** A state machine of [failsafe] with its clock; [breaker_closed] is what the
    instrument last stored in the shadow state. *)
Class FailsafeLib := {
  Breaker : Type;
  breaker_build : f64 → Z → Z → Backoff → Breaker;
  breaker_permitted : Breaker → Z → bool * Breaker;
  breaker_success : Breaker → Z → Breaker;
  breaker_error : Breaker → Z → Breaker;
  breaker_closed : Breaker → bool;
}.

(** ** policy/circuit_breaker.rs *)

Definition one_second : Z := 10 ^ 9.
Definition as_secs (d : Z) : Z := d / one_second.

(** Breakers by route and endpoint. *)
Notation BreakerKey := (str * Z * Z * bool)%type.
Notation BreakerMap := (gmap BreakerKey Breaker).

Section breakers.
Context `{FailsafeLib}.

Definition breaker_backoff (cfg : CircuitBreakerConfig) : Backoff :=
  match cb_max_open_duration cfg with
  | Some max_open =>
      if (0 <? as_secs (cb_open_duration cfg))%Z && (0 <? as_secs max_open)%Z
         && (cb_open_duration cfg <=? max_open)%Z
      then Exponential (cb_open_duration cfg) max_open
      else Constant (cb_open_duration cfg)
  | None => Constant (cb_open_duration cfg)
  end.

Definition build_entry (cfg : CircuitBreakerConfig) : Breaker :=
  let required_success_rate := f64_sub (f64_from 1) (f64_div (f64_from (cb_threshold_pct cfg)) (f64_from 100)) in
  breaker_build required_success_rate (cb_min_requests cfg) (cb_window cfg) (breaker_backoff cfg).

(** The pair of route and endpoint. *)
Definition breaker_key (route_id : str) (addr : SocketAddr) : BreakerKey :=
  match sa_ip addr with
  | V4 a => (route_id, a, sa_port addr, false)
  | V6 a => (route_id, a, sa_port addr, true)
  end.

Definition get_or_build (r : BreakerMap) (k : BreakerKey) (cfg : CircuitBreakerConfig) : Breaker :=
  default (build_entry cfg) (r !! k).

Definition is_call_permitted (r : BreakerMap) (k : BreakerKey) (cfg : CircuitBreakerConfig) (now : Z) :
    bool * BreakerMap :=
  let '(ok, b) := breaker_permitted (get_or_build r k cfg) now in (ok, <[k := b]> r).

Definition record_outcome (r : BreakerMap) (k : BreakerKey) (cfg : CircuitBreakerConfig) (success : bool) (now : Z) :
    BreakerMap :=
  let b := get_or_build r k cfg in
  <[k := if success then breaker_success b now else breaker_error b now]> r.

Definition sweep (r : BreakerMap) : BreakerMap := filter (λ kb, breaker_closed kb.2 = false) r.

End breakers.

(** ** routing/outcome.rs *)

Definition or_else {A} (a b : option A) : option A := match a with Some _ => a | None => b end.

Definition merge_timeouts (route dflt : RouteTimeouts) : RouteTimeouts :=
  mkRouteTimeouts (or_else (to_request route) (to_request dflt))
    (or_else (to_backend_request route) (to_backend_request dflt))
    (or_else (to_connect route) (to_connect dflt)) (or_else (to_read route) (to_read dflt))
    (or_else (to_send route) (to_send dflt)).

(** ** Errors *)

Inductive ErrorType :=
| HTTPStatus (code : Z)
| ConnectTimedout
| ReadTimedout
| WriteTimedout
| ConnectionClosed
| ReadError
| WriteError
| OtherError.

Inductive ErrorSource := Upstream | Downstream | OtherSource.

Record Error `{PingoraError} := mkError {
  e_type : ErrorType;
  e_source : ErrorSource;
  e_retry : RetryType;
}.

Inductive RetryTrigger := ConnectError | Timeout | HttpCode | GrpcCode.

(** ** retry.rs *)

Definition select_failure_status (etype : ErrorType) (esource : ErrorSource)
    (request_timeout_is_controlling upstream_timeout_budget_active : bool) : Z :=
  let otherwise :=
    match esource with
    | Upstream => 502
    | Downstream => match etype with ConnectionClosed | ReadError | WriteError => 0 | _ => 400 end
    | OtherSource => 500
    end%Z in
  match etype with
  | HTTPStatus code => code
  | ReadTimedout | WriteTimedout =>
      if request_timeout_is_controlling || upstream_timeout_budget_active then 504%Z else otherwise
  | ConnectTimedout => if upstream_timeout_budget_active then 502%Z else otherwise
  | _ => otherwise
  end.

Section request.
Context {FilterAction UpstreamTls : Type} `{PingoraError, FailsafeLib}.
Abbreviation group := (@BackendGroup FilterAction UpstreamTls).

(** The fields of [ProxyCtx] the attempts use. *)
Record ProxyCtx := mkCtx {
  request_deadline : option Z;
  request_timeout_is_controlling : bool;
  upstream_timeout_budget_active : bool;
  selected_backend_filters : option (list FilterAction);
  upstream_addr : option SocketAddr;
  retries_used : Z;
  last_retry_trigger : option RetryTrigger;
  affinity_pin : option SocketAddr;
  lb_track : option Z;
  hash_key : option Z;
  circuit_breaker_rejected : bool;
}.

(** The resolved route but for its group, which is shared. *)
Record Resolved := mkResolved {
  rr_timeouts : RouteTimeouts;
  rr_metric_route_id : str;
  rr_circuit_breaker : option CircuitBreakerConfig;
}.

(** What requests share: the group and the breakers. *)
Record Shared := mkShared { sh_group : group; sh_breakers : BreakerMap }.

(** The fields of [HttpPeer] that are set. *)
Record HttpPeer := mkPeer {
  p_addr : SocketAddr;
  p_tls : bool;
  p_h2 : bool;
  p_connect : option Z;
  p_read : option Z;
  p_write : option Z;
  p_idle : option Z;
}.

Definition explain (code : Z) : Error := mkError _ (HTTPStatus code) OtherSource fresh_retry.

(** ** upstream_peer *)

(** The endpoint of this attempt. *)
Definition pick_endpoint (ctx : ProxyCtx) (g : group) :
    option (option (SocketAddr * option (list FilterAction)) * option Z * group) :=
  match affinity_pin ctx with
  | Some pinned => Some (Some (pinned, filters_for_endpoint g pinned), lb_track ctx, g)
  | None =>
      let g := match lb_track ctx with Some prev => release prev g | None => g end in
      '(sel, g') ← select_upstream (hash_key ctx) g;
      Some match sel with
           | None => (None, None, g')
           | Some s => (Some (sel_addr s, sel_filters s), sel_track s, g')
           end
  end.

(** The read timeout and whether the request's own deadline is what it comes from. *)
Definition read_timeout (explicit_read backend_timeout remaining_request : option Z) (controlling : bool) :
    option Z * bool :=
  match explicit_read with
  | Some read =>
      match remaining_request with
      | Some rem => (Some (Z.min read rem), (rem <=? read)%Z)
      | None => (Some read, controlling)
      end
  | None =>
      match backend_timeout, remaining_request with
      | Some bt, Some rem => (Some (Z.min bt rem), (rem <=? bt)%Z)
      | Some bt, None => (Some bt, false)
      | None, Some rem => (Some rem, true)
      | None, None => (None, controlling)
      end
  end.

(** [Instant::checked_duration_since] *)
Definition checked_duration_since (d now : Z) : option Z := if (now <=? d)%Z then Some (d - now)%Z else None.

Definition set_selection (filters : option (list FilterAction)) (addr : option SocketAddr) (track : option Z)
    (c : ProxyCtx) : ProxyCtx :=
  mkCtx (request_deadline c) (request_timeout_is_controlling c) (upstream_timeout_budget_active c) filters addr
    (retries_used c) (last_retry_trigger c) (affinity_pin c) track (hash_key c) (circuit_breaker_rejected c).
Definition set_rejected (c : ProxyCtx) : ProxyCtx :=
  mkCtx (request_deadline c) (request_timeout_is_controlling c) (upstream_timeout_budget_active c)
    (selected_backend_filters c) (upstream_addr c) (retries_used c) (last_retry_trigger c) (affinity_pin c)
    (lb_track c) (hash_key c) true.
Definition set_budget (controlling budget : bool) (c : ProxyCtx) : ProxyCtx :=
  mkCtx (request_deadline c) controlling budget (selected_backend_filters c) (upstream_addr c) (retries_used c)
    (last_retry_trigger c) (affinity_pin c) (lb_track c) (hash_key c) (circuit_breaker_rejected c).
Definition count_retry (t : RetryTrigger) (c : ProxyCtx) : ProxyCtx :=
  mkCtx (request_deadline c) (request_timeout_is_controlling c) (upstream_timeout_budget_active c)
    (selected_backend_filters c) (upstream_addr c) (retries_used c + 1) (Some t) (affinity_pin c) (lb_track c)
    (hash_key c) (circuit_breaker_rejected c).

(** The timeouts of the peer at time [now]. *)
Definition build_peer (rr : Resolved) (g : group) (addr : SocketAddr) (now : Z) (c : ProxyCtx) : HttpPeer * ProxyCtx :=
  let t := rr_timeouts rr in
  let remaining_request := d ← request_deadline c; checked_duration_since d now in
  let conn_timeout := or_else (or_else (to_connect t) (bg_connect_timeout g)) (to_backend_request t) in
  let budget := match conn_timeout with Some _ => true | None => upstream_timeout_budget_active c end in
  let '(rt, controlling) :=
    read_timeout (to_read t) (to_backend_request t) remaining_request (request_timeout_is_controlling c) in
  (mkPeer addr (bool_decide (is_Some (bg_tls g))) (is_h2 (bg_protocol g))
     conn_timeout rt (to_send t) (bg_keepalive_timeout g),
   set_budget controlling budget c).

(** [upstream_peer], which looks at the clock at [t0] and, once it has slept the
    back-off of a retry, at [t1].  [tls_ok] is whether [apply_upstream_tls] finds its
    certificates parse.  [None] is a panic. *)
Definition upstream_peer (rr : option Resolved) (tls_ok : option UpstreamTls → bool) (t0 t1 : Z) (c : ProxyCtx)
    (s : Shared) : option (result HttpPeer Error * ProxyCtx * Shared) :=
  match rr with
  | None => Some (Err (explain 500), c, s)
  | Some rr =>
      if match request_deadline c with Some d => (d <=? t0)%Z | None => false end
      then Some (Err (explain 504), c, s)
      else
        '(sel, track, g) ← pick_endpoint c (sh_group s);
        match sel with
        | None => Some (Err (explain 503), set_selection (selected_backend_filters c) (upstream_addr c) track c,
                        mkShared g (sh_breakers s))
        | Some (addr, filters) =>
            let c := set_selection filters (Some addr) track c in
            let '(permitted, breakers) :=
              match rr_circuit_breaker rr with
              | None => (true, sh_breakers s)
              | Some cfg => is_call_permitted (sh_breakers s) (breaker_key (rr_metric_route_id rr) addr) cfg t1
              end in
            let s := mkShared g breakers in
            if negb permitted then Some (Err (explain 503), set_rejected c, s)
            else if negb (tls_ok (bg_tls g)) then Some (Err (explain 502), c, s)
            else let '(peer, c) := build_peer rr g addr t1 c in Some (Ok peer, c, s)
        end
  end.

(** When [upstream_peer] looks at the clock again. *)
Definition slept (rr : option Resolved) (g : group) (c : ProxyCtx) (t0 t1 : Z) : Prop :=
  match rr with
  | Some _ => if (0 <? retries_used c)%Z then (t0 + default 0 (rp_backoff (bg_retry g)) ≤ t1)%Z else (t0 ≤ t1)%Z
  | None => (t0 ≤ t1)%Z
  end.

(** ** Retries *)

Definition set_retry (r : RetryType) (e : Error) : Error := mkError _ (e_type e) (e_source e) r.

Definition fail_to_connect (rr : option Resolved) (g : group) (e : Error) (c : ProxyCtx) : Error * ProxyCtx :=
  match rr with
  | None => (e, c)
  | Some _ =>
      let policy := bg_retry g in
      if is_disabled policy || (rp_attempts policy <=? retries_used c)%Z then (e, c)
      else
        let is_timeout := match e_type e with ConnectTimedout => true | _ => false end in
        (set_retry (retry_from true) e, count_retry (if is_timeout then Timeout else ConnectError) c)
  end.

Definition error_while_proxy (client_reused retry_buffer_truncated : bool) (e : Error) (c : ProxyCtx) : Error :=
  match last_retry_trigger c with
  | Some HttpCode | Some GrpcCode => set_retry (retry_from true) e
  | _ => set_retry (decide_reuse (e_retry e) (client_reused && negb retry_buffer_truncated)) e
  end.

(** The retry decision of [upstream_response_filter]: the error it returns, if any.
    [grpc_status] is that of a trailers-only response. *)
Definition response_retry (rr : option Resolved) (g : group) (status : Z) (grpc_status : option Z)
    (retry_buffer_truncated : bool) (c : ProxyCtx) : option Error * ProxyCtx :=
  let policy := bg_retry g in
  let decision :=
    match rr with
    | None => None
    | Some _ =>
        if (rp_attempts policy <=? retries_used c)%Z then None
        else match grpc_status with
             | Some code => if retries_grpc policy code then Some GrpcCode else None
             | None => if retries_http policy status then Some HttpCode else None
             end
    end in
  match decision with
  | Some trigger =>
      if negb retry_buffer_truncated
      then (Some (mkError _ (HTTPStatus status) Upstream (retry_from true)), count_retry trigger c)
      else (None, c)
  | None => (None, c)
  end.

(** [fail_to_proxy]: the status written to the client, if one is. *)
Definition fail_to_proxy (e : Error) (c : ProxyCtx) : option Z :=
  let code := select_failure_status (e_type e) (e_source e) (request_timeout_is_controlling c)
                (upstream_timeout_budget_active c) in
  if (0 <? code)%Z then Some code else None.

(** The accounting of [logging]; [status] is that of [response_written]. *)
Definition logging (rr : option Resolved) (status : option Z) (duration : option Z) (now : Z) (c : ProxyCtx)
    (s : Shared) : Shared :=
  let g := match lb_track c, rr with
           | Some idx, Some _ => complete idx duration (sh_group s)
           | _, _ => sh_group s
           end in
  let breakers :=
    if circuit_breaker_rejected c then sh_breakers s
    else match rr, upstream_addr c with
         | Some r, Some addr =>
             match rr_circuit_breaker r with
             | Some cfg =>
                 let success := match status with Some code => (code <? 500)%Z | None => false end in
                 record_outcome (sh_breakers s) (breaker_key (rr_metric_route_id r) addr) cfg success now
             | None => sh_breakers s
             end
         | _, _ => sh_breakers s
         end in
  mkShared g breakers.

(** ** The attempts *)

(** Where the framework is with a request: before an attempt, connecting,
    exchanging, holding an error, with a response written or not, and done. *)
Inductive Phase :=
| Trying
| ConnectingTo (peer : HttpPeer)
| Exchanging (peer : HttpPeer)
| Errored (e : Error)
| Answered (status : option Z)
| Logged.

Record Request := mkRequest {
  rq_ctx : ProxyCtx;
  rq_shared : Shared;
  rq_phase : Phase;
  rq_attempts : Z;
}.

(** The framework calls the hooks; an error marked for retry may start another
    attempt, any other ends the request.  [rq_attempts] counts the calls of
    [upstream_peer]. *)
Inductive request_step (rr : option Resolved) (tls_ok : option UpstreamTls → bool) : Request → Request → Prop :=
| rs_peer t0 t1 c s n peer c' s' :
    slept rr (sh_group s) c t0 t1 → upstream_peer rr tls_ok t0 t1 c s = Some (Ok peer, c', s') →
    request_step rr tls_ok (mkRequest c s Trying n) (mkRequest c' s' (ConnectingTo peer) (n + 1))
| rs_no_peer t0 t1 c s n e c' s' :
    slept rr (sh_group s) c t0 t1 → upstream_peer rr tls_ok t0 t1 c s = Some (Err e, c', s') →
    request_step rr tls_ok (mkRequest c s Trying n) (mkRequest c' s' (Errored e) (n + 1))
| rs_connect_failed e c s n peer e' c' :
    fail_to_connect rr (sh_group s) e c = (e', c') →
    request_step rr tls_ok (mkRequest c s (ConnectingTo peer) n) (mkRequest c' s (Errored e') n)
| rs_connected c s n peer :
    request_step rr tls_ok (mkRequest c s (ConnectingTo peer) n) (mkRequest c s (Exchanging peer) n)
| rs_exchange_failed client_reused truncated e c s n peer :
    request_step rr tls_ok (mkRequest c s (Exchanging peer) n)
      (mkRequest c s (Errored (error_while_proxy client_reused truncated e c)) n)
| rs_response_retried status grpc client_reused truncated c s n peer e c' :
    response_retry rr (sh_group s) status grpc truncated c = (Some e, c') →
    request_step rr tls_ok (mkRequest c s (Exchanging peer) n)
      (mkRequest c' s (Errored (error_while_proxy client_reused truncated e c')) n)
| rs_response status grpc truncated c s n peer :
    (response_retry rr (sh_group s) status grpc truncated c).1 = None →
    request_step rr tls_ok (mkRequest c s (Exchanging peer) n) (mkRequest c s (Answered (Some status)) n)
| rs_again e c s n :
    retry_type (e_retry e) = true →
    request_step rr tls_ok (mkRequest c s (Errored e) n) (mkRequest c s Trying n)
| rs_failed e c s n :
    request_step rr tls_ok (mkRequest c s (Errored e) n) (mkRequest c s (Answered (fail_to_proxy e c)) n)
| rs_logged status duration now c s n :
    request_step rr tls_ok (mkRequest c s (Answered status) n)
      (mkRequest c (logging rr status duration now c s) Logged n).

End request.
