(* ===== verification/RequestLifeFacts.v ===== *)
(** * Properties of the attempts of a request

    Retries against their budget, timeouts against the deadline of the request, the
    accounting of least-connections balancing over concurrent requests, and what circuit
    breakers get to see. *)

From S2P Require Import Prelude Net Backend BackendFacts Config External Filters Entry RelayScaler RequestLife.

Section facts.
Context {FilterAction UpstreamTls : Type} `{PingoraErrorLaws, FailsafeLib}.
Abbreviation group := (@BackendGroup FilterAction UpstreamTls).
Abbreviation ctx := (@ProxyCtx FilterAction).
Abbreviation request := (@Request FilterAction UpstreamTls _ _).
Context (tls_ok : option UpstreamTls → bool).
Implicit Types (g : group) (c : ctx) (rr : option Resolved).

(** ** What an attempt keeps *)

Lemma select_retry k g r g' : select_upstream k g = Some (r, g') → bg_retry g' = bg_retry g.
Proof.
  assert (∀ r g', select_round_robin g = Some (r, g') → bg_retry g' = bg_retry g) as Hrr.
  { unfold select_round_robin, next_endpoint_with_filters. intros r' g''. case_decide; [by intros [= <- <-]|].
    destruct (bg_slots g !! _) as [b|]; [|done]. cbn [mbind option_bind].
    destruct (bg_backends g !! Z.to_nat b) as [p|]; [|done]. cbn [mbind option_bind].
    destruct (BackendPool_next p) as [[a p']|]; [|done]. by intros [= <- <-]. }
  unfold select_upstream. repeat case_match; try apply Hrr; by intros [= <- <-].
Qed.

Lemma release_retry t g : bg_retry (release t g) = bg_retry g.
Proof. unfold release. by repeat case_match. Qed.

Lemma complete_retry t d g : bg_retry (complete t d g) = bg_retry g.
Proof. unfold complete. by repeat case_match. Qed.

Lemma pick_retry c g sel track g' : pick_endpoint c g = Some (sel, track, g') → bg_retry g' = bg_retry g.
Proof.
  unfold pick_endpoint. destruct (affinity_pin c); [by intros [= <- <- <-]|].
  intros ([s g1] & Hs & E)%bind_Some. apply select_retry in Hs.
  assert (g' = g1) as -> by (by destruct s; simplify_eq). rewrite Hs. destruct (lb_track c); [apply release_retry|done].
Qed.

(** What [upstream_peer] leaves of the context. *)
Lemma upstream_peer_kept rr t0 t1 c s out c' s' :
  upstream_peer rr tls_ok t0 t1 c s = Some (out, c', s') →
  retries_used c' = retries_used c ∧ last_retry_trigger c' = last_retry_trigger c ∧
  affinity_pin c' = affinity_pin c ∧ request_deadline c' = request_deadline c ∧
  bg_retry (sh_group s') = bg_retry (sh_group s).
Proof.
  unfold upstream_peer. destruct rr as [r|]; [|by intros [= <- <- <-]].
  destruct (match request_deadline c with Some d => _ | None => _ end); [by intros [= <- <- <-]|].
  intros ([[sel track] g] & Hp & E)%bind_Some. apply pick_retry in Hp.
  destruct sel as [[addr filters]|]; [|by simplify_eq].
  destruct (match rr_circuit_breaker r with None => _ | Some _ => _ end) as [permitted breakers].
  destruct (negb permitted); [by simplify_eq|]. destruct (negb (tls_ok _)); [by simplify_eq|].
  unfold build_peer in E. destruct (read_timeout _ _ _ _) as [rt controlling]. by simplify_eq.
Qed.

(** ** The retry budget *)

Definition start (c : ProxyCtx) (s : Shared) : request := mkRequest c s Trying 0.

Lemma response_retry_spec rr g status grpc truncated c e c' :
  response_retry rr g status grpc truncated c = (e, c') →
  c' = c ∧ e = None ∨
  (∃ t, c' = count_retry t c ∧ (t = HttpCode ∨ t = GrpcCode)) ∧ (retries_used c < rp_attempts (bg_retry g))%Z ∧
    truncated = false.
Proof.
  unfold response_retry. destruct rr as [r|]; [|by intros [= <- <-]; left].
  destruct (Z.leb_spec (rp_attempts (bg_retry g)) (retries_used c)); [by intros [= <- <-]; left|].
  destruct grpc as [code|]; [destruct (retries_grpc _ _)|destruct (retries_http _ _)]; try (by intros [= <- <-]; left);
    destruct truncated; simpl; intros [= <- <-]; try (by left); right; (split; [eexists; split; [done|]; auto|done]).
Qed.

Definition allowed (r : request) : Z := rp_attempts (bg_retry (sh_group (rq_shared r))).
Definition within_budget (r : request) : Prop := (0 ≤ retries_used (rq_ctx r) ≤ allowed r)%Z.

Lemma budget_step rr r1 r2 :
  request_step rr tls_ok r1 r2 → within_budget r1 → within_budget r2 ∧ allowed r2 = allowed r1.
Proof.
  intros Hs Hb. unfold within_budget, allowed in *.
  destruct Hs as [? ? ? ? ? ? ? ? _ Hu|? ? ? ? ? ? ? ? _ Hu|? c0 s0 ? ? ? ? Hf| | |? ? ? ? ? ? ? ? ? ? Hr| | | |? ? ? c0 ? ?];
    simpl in *; try done.
  1,2: apply upstream_peer_kept in Hu as (-> & _ & _ & _ & ->); done.
  - revert Hf. unfold fail_to_connect. destruct rr; [|by intros [= <- <-]].
    destruct (is_disabled _); simpl; [by intros [= <- <-]|].
    destruct (Z.leb_spec (rp_attempts (bg_retry (sh_group s0))) (retries_used c0)); intros [= <- <-]; simpl; lia.
  - apply response_retry_spec in Hr as [[-> _]|[(t & -> & _) [Hlt _]]]; simpl; [done|lia].
  - destruct (lb_track c0); [|done]. destruct rr; [by rewrite complete_retry|done].
Qed.

(** C16: Over all attempts of a request the hooks count at most as many retries as the
    policy of its group allows, and no attempt changes that policy. *)
Theorem retries_within_budget (rr : option Resolved) (c : ProxyCtx) (s : Shared) (r : Request) :
  retries_used c = 0%Z → (0 ≤ rp_attempts (bg_retry (sh_group s)))%Z →
  rtc (request_step rr tls_ok) (start c s) r →
  within_budget r ∧ allowed r = rp_attempts (bg_retry (sh_group s)).
Proof.
  intros Hzero Hpos Hrun. assert (within_budget (start c s)) as Hb by (unfold within_budget, allowed; simpl; lia).
  change (rp_attempts (bg_retry (sh_group s))) with (allowed (start c s)). revert Hb.
  induction Hrun as [|r1 r2 r3 Hs _ IH]; [done|]. intros Hb. destruct (budget_step _ _ _ Hs Hb) as [Hb2 <-]. by apply IH.
Qed.

(** After a retry over a response every later error of the exchange is marked for retry,
    whatever it is. *)
Lemma stale_trigger client_reused truncated e c :
  last_retry_trigger c = Some HttpCode ∨ last_retry_trigger c = Some GrpcCode →
  retry_type (e_retry (error_while_proxy client_reused truncated e c)) = true.
Proof. unfold error_while_proxy. by intros [-> | ->]; simpl; rewrite retry_from_type. Qed.

(** An attempt of a pinned request without deadline or breaker *)
Lemma pinned_attempt (r : Resolved) c s n pin :
  affinity_pin c = Some pin → request_deadline c = None → rr_circuit_breaker r = None →
  tls_ok (bg_tls (sh_group s)) = true →
  ∃ peer c', request_step (Some r) tls_ok (mkRequest c s Trying n) (mkRequest c' s (ConnectingTo peer) (n + 1)) ∧
    affinity_pin c' = Some pin ∧ request_deadline c' = None ∧ retries_used c' = retries_used c ∧
    last_retry_trigger c' = last_retry_trigger c.
Proof.
  intros Hpin Hdl Hcb Htls.
  assert (∃ peer c', upstream_peer (Some r) tls_ok 0 (Z.max (default 0%Z (rp_backoff (bg_retry (sh_group s)))) 0) c s =
    Some (Ok peer, c', s)) as (peer & c' & Hu).
  { unfold upstream_peer, pick_endpoint. rewrite Hdl, Hpin. cbn [mbind option_bind]. rewrite Hcb, Htls. simpl.
    destruct (build_peer _ _ _ _ _) as [p c']. exists p, c'. by destruct s. }
  exists peer, c'. destruct (upstream_peer_kept _ _ _ _ _ _ _ _ Hu) as (? & ? & ? & ? & _).
  split_and!; try congruence. eapply rs_peer; [|exact Hu]. simpl. destruct (0 <? retries_used c)%Z; lia.
Qed.


(** ** Deadlines *)

(** The read timeout of an attempt keeps the request within its deadline, unless the
    back-off before a retry has slept past it: such an attempt is made all the same, with
    the read timeout of the route or of the backend, or with none. *)
Theorem read_timeout_deadline (r : Resolved) (t0 t1 d : Z) (c c' : ctx) (s s' : Shared) (peer : HttpPeer) :
  request_deadline c = Some d → upstream_peer (Some r) tls_ok t0 t1 c s = Some (Ok peer, c', s') →
  (t0 < d)%Z ∧
  ((t1 ≤ d)%Z → ∃ t, p_read peer = Some t ∧ (t1 + t ≤ d)%Z) ∧
  ((d < t1)%Z → p_read peer = or_else (to_read (rr_timeouts r)) (to_backend_request (rr_timeouts r))).
Proof.
  intros Hd. unfold upstream_peer. rewrite Hd. destruct (Z.leb_spec d t0); [done|].
  intros ([[sel track] g] & _ & E)%bind_Some. destruct sel as [[addr filters]|]; [|done].
  destruct (match rr_circuit_breaker r with None => _ | Some _ => _ end) as [permitted breakers].
  destruct (negb permitted); [done|]. destruct (negb (tls_ok _)); [done|].
  unfold build_peer in E. cbn [set_selection request_deadline] in E. rewrite Hd in E. cbn [mbind option_bind] in E.
  unfold checked_duration_since in E. split; [done|].
  destruct (Z.leb_spec t1 d) as [Hle|Hlt]; (split; [intros Hc|intros Hc]); try lia.
  - destruct (to_read (rr_timeouts r)) as [rd|], (to_backend_request (rr_timeouts r)) as [bt|]; simpl in E; simplify_eq; simpl;
      eexists; (split; [done|]); lia.
  - destruct (to_read (rr_timeouts r)) as [rd|], (to_backend_request (rr_timeouts r)) as [bt|]; by simplify_eq/=.
Qed.

(** ** Least-connections accounting *)

(** The selection a request holds until it has been logged. *)
Definition in_flight (c : ctx) (ph : Phase) : list Z :=
  match ph with Logged => [] | _ => option_list (lb_track c) end.

(** Requests that share a group and the breakers, each at its own phase. *)
Definition System : Type := Shared (FilterAction := FilterAction) (UpstreamTls := UpstreamTls) * list (ctx * Phase).

Inductive sys_step (rr : option Resolved) : System → System → Prop :=
| ss_arrives s reqs c : lb_track c = None → sys_step rr (s, reqs) (s, (c, Trying) :: reqs)
| ss_request s s' l1 l2 c ph n c' ph' n' :
    request_step rr tls_ok (mkRequest c s ph n) (mkRequest c' s' ph' n') →
    sys_step rr (s, l1 ++ (c, ph) :: l2) (s', l1 ++ (c', ph') :: l2).

Definition all_in_flight (reqs : list (ctx * Phase)) : list Z := mjoin ((λ r, in_flight r.1 r.2) <$> reqs).

Lemma lc_inv_perm n g l l' : l ≡ₚ l' → lc_inv n (g, l) → lc_inv n (g, l').
Proof.
  intros Hp (eps & Hlb & Heps & Hlen & Hr & Hact). exists eps. split_and!; try done; cbn in *.
  - by rewrite <-Hp.
  - intros i e He. rewrite (Hact i e He). do 2 f_equal. unfold share. by rewrite Hp.
Qed.

(** A selection replaces what the request held. *)
Lemma pick_balanced n c g sel track g' l :
  (Z.of_nat n ≤ 2 ^ 32)%Z → pick_endpoint c g = Some (sel, track, g') →
  lc_inv n (g, option_list (lb_track c) ++ l) → lc_inv n (g', option_list track ++ l).
Proof.
  intros Hn. unfold pick_endpoint. destruct (affinity_pin c); [by intros [= <- <- <-]|].
  intros ([s g1] & Hs & E)%bind_Some Hinv.
  assert (lc_inv n (match lb_track c with Some prev => release prev g | None => g end, l)) as Hrel.
  { destruct (lb_track c) as [prev|]; [|done]. eapply lc_inv_step; [done|exact Hinv|]. apply (lc_release g [] prev l). }
  destruct s as [s|]; simplify_eq/=.
  - destruct (lc_select_choice n (hash_key c) _ l s g' Hn Hrel Hs) as (eps & i & e & _ & _ & Htr & _).
    rewrite Htr. eapply lc_inv_step; [done|exact Hrel|]. by eapply lc_select.
  - destruct Hrel as (eps & Hlb & Heps & Hlen & Hr & Hact). cbn in *. unfold select_upstream in Hs.
    rewrite Hlb, Heps in Hs. destruct (min_by_key _ _) as [[idx ep]|]; simplify_eq. by exists eps.
Qed.

Lemma upstream_peer_balanced n (r : Resolved) t0 t1 c s out c' s' l :
  (Z.of_nat n ≤ 2 ^ 32)%Z → upstream_peer (Some r) tls_ok t0 t1 c s = Some (out, c', s') →
  lc_inv n (sh_group s, option_list (lb_track c) ++ l) → lc_inv n (sh_group s', option_list (lb_track c') ++ l).
Proof.
  intros Hn. unfold upstream_peer.
  destruct (match request_deadline c with Some d => _ | None => _ end); [by intros [= <- <- <-]|].
  intros ([[sel track] g] & Hp & E)%bind_Some Hinv. pose proof (pick_balanced _ _ _ _ _ _ _ Hn Hp Hinv) as Hb.
  destruct sel as [[addr filters]|]; [|by simplify_eq].
  destruct (match rr_circuit_breaker r with None => _ | Some _ => _ end) as [permitted breakers].
  destruct (negb permitted); [by simplify_eq|]. destruct (negb (tls_ok _)); [by simplify_eq|].
  unfold build_peer in E. destruct (read_timeout _ _ _ _) as [rt controlling]. by simplify_eq.
Qed.

Lemma request_balanced n (r : Resolved) c s ph k c' s' ph' k' l :
  (Z.of_nat n ≤ 2 ^ 32)%Z → request_step (Some r) tls_ok (mkRequest c s ph k) (mkRequest c' s' ph' k') →
  lc_inv n (sh_group s, in_flight c ph ++ l) → lc_inv n (sh_group s', in_flight c' ph' ++ l).
Proof.
  intros Hn Hs. inversion Hs; subst; try done; simpl; try by eapply upstream_peer_balanced.
  - match goal with H : fail_to_connect _ _ _ _ = _ |- _ => revert H end. unfold fail_to_connect.
    by destruct (_ || _); intros [= <- <-].
  - match goal with H : response_retry _ _ _ _ _ _ = _ |- _ => apply response_retry_spec in H end.
    by naive_solver.
  - intros Hinv. destruct (lb_track c') as [t|]; [|done]. eapply lc_inv_step; [done|exact Hinv|].
    apply (lc_complete (sh_group s) [] t l).
Qed.

Lemma sys_balanced n (r : Resolved) (x y : System) :
  (Z.of_nat n ≤ 2 ^ 32)%Z → rtc (sys_step (Some r)) x y →
  lc_inv n (sh_group x.1, all_in_flight x.2) → lc_inv n (sh_group y.1, all_in_flight y.2).
Proof.
  intros Hn. induction 1 as [|x y z Hs _ IH]; [done|]. intros Hinv. apply IH. clear IH.
  destruct Hs as [s0 rs c Hc|s0 s1 l1 l2 c ph k c' ph' k' Hs]; simpl in *.
  - unfold all_in_flight. simpl. by rewrite Hc.
  - assert (∀ c ph, all_in_flight (l1 ++ (c, ph) :: l2) ≡ₚ in_flight c ph ++ all_in_flight l1 ++ all_in_flight l2) as Hsplit.
    { intros c1 ph1. unfold all_in_flight. rewrite fmap_app, join_app. simpl. apply Permutation_app_swap_app. }
    eapply lc_inv_perm; [symmetry; apply Hsplit|]. eapply request_balanced; [done..|].
    by eapply lc_inv_perm; [apply Hsplit|].
Qed.

(** C17: Under least-connections balancing the active count of every endpoint is the number
    of requests that selected it last and have not been logged, over any number of
    concurrent requests with their retries, so that it returns to zero when all of them
    are done. *)
Theorem least_conn_balanced (n : nat) (r : Resolved) (s s' : Shared) (reqs : list (ctx * Phase)) :
  (Z.of_nat n ≤ 2 ^ 32)%Z → lc_inv n (sh_group s, []) → rtc (sys_step (Some r)) (s, []) (s', reqs) →
  lc_inv n (sh_group s', all_in_flight reqs).
Proof. intros Hn Hinit Hrun. by apply (sys_balanced n r (s, []) (s', reqs)). Qed.

(** ** What the breakers see *)

(** A breaker that was only asked. *)
Definition probed : relation Breaker := rtc (λ b b', ∃ t, b' = (breaker_permitted b t).2).

Lemma permitted_probed (m : BreakerMap) k k' cfg t :
  probed (get_or_build m k' cfg) (get_or_build (is_call_permitted m k cfg t).2 k' cfg).
Proof.
  unfold is_call_permitted. destruct (breaker_permitted (get_or_build m k cfg) t) as [ok b] eqn:E. simpl.
  unfold get_or_build in *. destruct (decide (k = k')) as [<-|Hne]; [|by rewrite lookup_insert_ne].
  rewrite lookup_insert_eq. apply rtc_once. exists t. simpl. by rewrite E.
Qed.

Lemma step_probed (r : Resolved) cfg (q q' : request) addr :
  rr_circuit_breaker r = Some cfg → request_step (Some r) tls_ok q q' →
  rq_phase q' ≠ Logged ∨ upstream_addr (rq_ctx q) ≠ Some addr →
  let k := breaker_key (rr_metric_route_id r) addr in
  probed (get_or_build (sh_breakers (rq_shared q)) k cfg) (get_or_build (sh_breakers (rq_shared q')) k cfg).
Proof.
  intros Hcb Hs Hc k.
  assert (∀ t0 t1 c s out c' s', upstream_peer (Some r) tls_ok t0 t1 c s = Some (out, c', s') →
    probed (get_or_build (sh_breakers s) k cfg) (get_or_build (sh_breakers s') k cfg)) as Hpeer.
  { intros t0 t1 c s out c' s'. unfold upstream_peer.
    destruct (match request_deadline c with Some d => _ | None => _ end); [by intros [= <- <- <-]|].
    intros ([[sel track] g] & _ & E)%bind_Some. destruct sel as [[a filters]|]; [|by simplify_eq].
    rewrite Hcb in E. pose proof (permitted_probed (sh_breakers s) (breaker_key (rr_metric_route_id r) a) k cfg t1) as Hp.
    destruct (is_call_permitted _ _ _ _) as [permitted breakers].
    destruct (negb permitted); [by simplify_eq|]. destruct (negb (tls_ok _)); [by simplify_eq|].
    destruct (build_peer _ _ _ _ _) as [p c1]. by simplify_eq. }
  destruct Hs; simpl in *; try done; try by eapply Hpeer.
  destruct Hc as [|Hne]; [done|]. destruct (circuit_breaker_rejected c); [done|].
  destruct (upstream_addr c) as [a|]; [|done]. rewrite Hcb. unfold record_outcome, get_or_build.
  rewrite lookup_insert_ne; [done|]. subst k. unfold breaker_key. intros Heq. apply Hne. f_equal.
  destruct a as [[] ?], addr as [[] ?]; simpl in Heq; by simplify_eq.
Qed.

Lemma running_probed (r : Resolved) cfg (q q' : request) addr :
  rr_circuit_breaker r = Some cfg → rtc (request_step (Some r) tls_ok) q q' → rq_phase q' ≠ Logged →
  let k := breaker_key (rr_metric_route_id r) addr in
  probed (get_or_build (sh_breakers (rq_shared q)) k cfg) (get_or_build (sh_breakers (rq_shared q')) k cfg).
Proof.
  intros Hcb Hrun Hph k. revert Hph. induction Hrun as [|q1 q2 q3 Hs Hrun IH]; [done|]. intros Hph.
  etrans; [|by apply IH]. apply (step_probed r cfg q1 q2 addr); [done..|]. left.
  intros Hl. apply Hph. destruct Hrun as [|? ? ? Hs']; [done|]. by destruct Hs'; simpl in Hl.
Qed.

(** The breaker of an endpoint that a request tried before its last endpoint learns
    nothing of the outcome: whatever failed there, it was only asked whether a call is
    permitted. *)
Theorem retried_failures_unrecorded (r : Resolved) (cfg : CircuitBreakerConfig) (c : ctx) (s : Shared) (q : request)
    (addr : SocketAddr) :
  rr_circuit_breaker r = Some cfg → rtc (request_step (Some r) tls_ok) (start c s) q →
  upstream_addr (rq_ctx q) ≠ Some addr →
  let k := breaker_key (rr_metric_route_id r) addr in
  probed (get_or_build (sh_breakers s) k cfg) (get_or_build (sh_breakers (rq_shared q)) k cfg).
Proof.
  intros Hcb Hrun Hne k. destruct (rtc_inv_r _ _ Hrun) as [<-|(q1 & Hrun1 & Hs)]; [done|].
  assert (rq_phase q1 ≠ Logged) as Hph by (intros Hl; by destruct Hs).
  etrans; [by apply (running_probed r cfg (start c s) q1 addr)|]. apply (step_probed r cfg q1 q addr); [done..|].
  destruct Hs; simpl in *; try (by left). by right.
Qed.

Lemma error_while_proxy_same client_reused truncated e c :
  e_type (error_while_proxy client_reused truncated e c) = e_type e ∧
  e_source (error_while_proxy client_reused truncated e c) = e_source e.
Proof. unfold error_while_proxy. by destruct (last_retry_trigger c) as [[]|]. Qed.

(** A client that goes away before it has been answered is counted against the
    endpoint: no status is written, and a request without status is recorded as a
    failure of the upstream. *)
Theorem abort_counts_as_failure (r : Resolved) (cfg : CircuitBreakerConfig) (c : ctx) (s : Shared) (peer : HttpPeer)
    (n : Z) (addr : SocketAddr) (e : Error) (now : Z) :
  rr_circuit_breaker r = Some cfg → circuit_breaker_rejected c = false → upstream_addr c = Some addr →
  e_source e = Downstream → e_type e = ConnectionClosed ∨ e_type e = ReadError ∨ e_type e = WriteError →
  let k := breaker_key (rr_metric_route_id r) addr in
  ∃ q, rtc (request_step (Some r) tls_ok) (mkRequest c s (Exchanging peer) n) q ∧ rq_phase q = Logged ∧
    sh_breakers (rq_shared q) !! k = Some (breaker_error (get_or_build (sh_breakers s) k cfg) now).
Proof.
  intros Hcb Hrej Haddr Hsrc Hty k.
  assert (fail_to_proxy (error_while_proxy false false e c) c = None) as Hf.
  { unfold fail_to_proxy. destruct (error_while_proxy_same false false e c) as [-> ->]. rewrite Hsrc.
    by destruct Hty as [-> | [-> | ->]]. }
  eexists. split.
  - eapply rtc_l; [apply (rs_exchange_failed _ _ false false e)|]. eapply rtc_l; [apply rs_failed|]. rewrite Hf.
    apply rtc_once. apply (rs_logged _ _ None None now).
  - split; [done|]. simpl. rewrite Hrej, Haddr, Hcb. apply lookup_insert_eq.
Qed.

(** The asserts of [failsafe]'s exponential back-off hold. *)
Lemma backoff_asserted cfg a b :
  breaker_backoff cfg = Exponential a b → (one_second ≤ a ∧ one_second ≤ b ∧ a ≤ b)%Z.
Proof.
  unfold breaker_backoff. destruct (cb_max_open_duration cfg) as [m|]; [|done].
  destruct (_ && _) eqn:E; [|done]. intros [= <- <-]. apply andb_true_iff in E as [[E1 E2]%andb_true_iff E3].
  unfold as_secs, one_second in *. split_and!; [|..|lia].
  - apply Z.ltb_lt in E1. destruct (Z.le_gt_cases (10 ^ 9) (cb_open_duration cfg)); [done|].
    destruct (Z.le_gt_cases 0 (cb_open_duration cfg)).
    + rewrite Z.div_small in E1; lia.
    + pose proof (Z.div_lt_upper_bound (cb_open_duration cfg) (10 ^ 9) 0). lia.
  - apply Z.ltb_lt in E2. destruct (Z.le_gt_cases (10 ^ 9) m); [done|]. destruct (Z.le_gt_cases 0 m).
    + rewrite Z.div_small in E2; lia.
    + pose proof (Z.div_lt_upper_bound m (10 ^ 9) 0). lia.
Qed.

End facts.

(** ** Witnesses *)

Module LifeDemo.

(** [None] waits for the reuse check; a breaker counts its failures. *)
#[export] Instance pingora : PingoraError :=
  {| RetryType := option bool; fresh_retry := Some false; retry_from := Some;
     decide_reuse := λ r b, match r with Some _ => r | None => Some b end; retry_type := λ r, default false r |}.
#[export] Instance pingora_laws : PingoraErrorLaws.
Proof. by split. Qed.
#[export] Instance failsafe : FailsafeLib :=
  {| Breaker := Z; breaker_build := λ _ _ _ _, 0%Z; breaker_permitted := λ b _, ((b <? 5)%Z, b);
     breaker_success := λ b _, b; breaker_error := λ b _, (b + 1)%Z; breaker_closed := λ b, (b =? 0)%Z |}.

Abbreviation group := (@BackendGroup Z unit).
Definition retrying : RetryPolicyConfig := retry_for_http 1 (Some 500%Z) None.
Definition pool : group := with_retries retrying Demo.group.
Definition shared : Shared := mkShared pool ∅.
Definition balanced : Shared := mkShared (with_load_balance LeastConn pool) ∅.
Definition breaker : CircuitBreakerConfig := mkCircuitBreakerConfig 50 10 10000 5000 None.
Definition route (cb : option CircuitBreakerConfig) : Resolved :=
  mkResolved (mkRouteTimeouts (Some 1000%Z) None None None None) (lit "shop") cb.
Definition fresh (deadline : option Z) (pin : option SocketAddr) : ProxyCtx (FilterAction := Z) :=
  mkCtx deadline false false None None 0 None pin None None false.
Definition all_ok (_ : option unit) : bool := true.

Abbreviation step cb := (request_step (Some (route cb)) all_ok).

(** The first endpoint refuses the connection and the second is reached. *)
Definition refused : Error := mkError _ OtherError Upstream (Some false).
Definition gone : Error := mkError _ ConnectionClosed Downstream (Some false).

(** What an attempt at time [t1] leaves. *)
Abbreviation context := (@ProxyCtx Z).
Abbreviation world := (@Shared Z unit _).
Definition attempt (t0 t1 : Z) (cs : context * world) : context * world :=
  match upstream_peer (Some (route (Some breaker))) all_ok t0 t1 cs.1 cs.2 with
  | Some (_, c, s) => (c, s)
  | None => cs
  end.
Definition first : context * world := attempt 0 0 (fresh None None, shared).
Definition marked : context := count_retry ConnectError first.1.
Definition second : context * world := attempt 0 500 (marked, first.2).

Lemma attempt_step (c : context) (s : world) n t0 t1 :
  slept (Some (route (Some breaker))) (sh_group s) c t0 t1 →
  match upstream_peer (Some (route (Some breaker))) all_ok t0 t1 c s with Some (Ok _, _, _) => true | _ => false end = true →
  ∃ peer, step (Some breaker) (mkRequest c s Trying n)
    (mkRequest (attempt t0 t1 (c, s)).1 (attempt t0 t1 (c, s)).2 (ConnectingTo peer) (n + 1)).
Proof.
  intros Hs Hu. unfold attempt. cbn [fst snd]. destruct (upstream_peer _ _ t0 t1 c s) as [[[[p|] c'] s']|] eqn:E; [|done..].
  exists p. exact (rs_peer _ _ t0 t1 c s n p c' s' Hs E).
Qed.

Lemma second_attempt :
  ∃ q, rtc (step (Some breaker)) (start (fresh None None) shared) q ∧ rq_attempts q = 2%Z ∧
    upstream_addr (rq_ctx q) = Some (Demo.pod 2) ∧ retries_used (rq_ctx q) = 1%Z.
Proof.
  destruct (attempt_step (fresh None None) shared 0 0 0) as [p1 H1]; [by vm_compute..|].
  destruct (attempt_step marked first.2 1 0 500) as [p2 H2]; [by vm_compute..|].
  eexists. split.
  - eapply rtc_l; [exact H1|].
    eapply rtc_l; [apply (rs_connect_failed _ _ refused _ _ _ _ (set_retry (retry_from true) refused) marked); by vm_compute|].
    eapply rtc_l; [by apply rs_again|]. apply rtc_once. exact H2.
  - by vm_compute.
Qed.

End LifeDemo.
Import LifeDemo.

Lemma retries_within_budget_witness :
  ∃ q, rtc (step (Some breaker)) (start (fresh None None) shared) q ∧ rq_attempts q = 2%Z ∧
    within_budget q ∧ allowed q = 1%Z.
Proof.
  destruct second_attempt as (q & Hq & Hn & _). exists q. split; [done|]. split; [done|].
  exact (retries_within_budget all_ok (Some (route (Some breaker))) (fresh None None) shared q eq_refl
    ltac:(by vm_compute) Hq).
Defined.


(** A retry whose back-off of 500 ends after the deadline at 100. *)
Lemma read_timeout_deadline_witness :
  ∃ peer c' s',
    upstream_peer (Some (route None)) all_ok 50 550 (fresh (Some 100%Z) (Some (Demo.pod 1))) shared =
      Some (Ok peer, c', s') ∧ p_read peer = None.
Proof.
  destruct (upstream_peer (Some (route None)) all_ok 50 550 (fresh (Some 100%Z) (Some (Demo.pod 1))) shared)
    as [[[[peer|e] c'] s']|] eqn:E; [|by vm_compute in E..].
  exists peer, c', s'. split; [done|].
  by destruct (read_timeout_deadline all_ok (route None) 50 550 100 (fresh (Some 100%Z) (Some (Demo.pod 1))) c' shared s' peer
    eq_refl E) as (_ & _ & Hread); apply Hread.
Defined.

Lemma least_conn_balanced_witness :
  lc_inv 3 (sh_group balanced, all_in_flight [(fresh None None, Trying)]).
Proof.
  apply (least_conn_balanced all_ok 3 (route None) balanced balanced [(fresh None None, Trying)]); [lia| |].
  - apply (lc_inv_init (with_retries retrying Demo.group)); [|by vm_compute].
    apply reachable_group_wf. by apply reach_retries, Demo.group_reachable.
  - apply rtc_once. by apply ss_arrives.
Defined.

Lemma retried_failures_unrecorded_witness :
  ∃ q, rtc (step (Some breaker)) (start (fresh None None) shared) q ∧
    let k := breaker_key (lit "shop") (Demo.pod 1) in
    probed (get_or_build (sh_breakers shared) k breaker) (get_or_build (sh_breakers (rq_shared q)) k breaker).
Proof.
  destruct second_attempt as (q & Hq & _ & Ha & _). exists q. split; [done|].
  apply (retried_failures_unrecorded all_ok (route (Some breaker)) breaker (fresh None None) shared q (Demo.pod 1));
    [done..|]. rewrite Ha. by intros [= ?].
Defined.

Lemma abort_counts_as_failure_witness :
  let c := set_selection None (Some (Demo.pod 1)) None (fresh None None) in
  let k := breaker_key (lit "shop") (Demo.pod 1) in
  ∃ q, rtc (step (Some breaker)) (mkRequest c shared (Exchanging (mkPeer (Demo.pod 1) false false None None None None)) 1) q ∧
    rq_phase q = Logged ∧ sh_breakers (rq_shared q) !! k = Some 1%Z.
Proof.
  apply (abort_counts_as_failure all_ok (route (Some breaker)) breaker
    (set_selection None (Some (Demo.pod 1)) None (fresh None None)) shared
    (mkPeer (Demo.pod 1) false false None None None None) 1 (Demo.pod 1)
    gone 0); try done. by left.
Defined.
