(* ===== verification/RequestFilters.v ===== *)
(** * What is sent upstream and back

    Models [upstream_request_filter] of [crates/coxswain-proxy/src/hooks.rs] and the
    filters it applies: [filters/mod.rs], [filters/header.rs], [filters/rewrite.rs],
    [filters/redirect.rs], [filters/cors.rs] and [forward_client_cert] of
    [policy/client_cert.rs].  Header maps and URIs belong to Pingora and the crate
    [http] and are classes; header names are in lower case, as [HeaderName] has them. *)

From S2P Require Import Prelude Net Backend External Config Filters ResourceKey.

(** ** Interfaces *)

Class HeaderLib := {
  Headers : Type;
  get_all : Headers → str → list str;
  insert_header : Headers → str → str → Headers;
  append_header : Headers → str → str → Headers;
  remove_header : Headers → str → Headers;
}.

Class HeaderLaws `{HeaderLib} := {
  get_insert : ∀ h n v m, get_all (insert_header h n v) m = if decide (m = n) then [v] else get_all h m;
  get_append : ∀ h n v m, get_all (append_header h n v) m = if decide (m = n) then get_all h m ++ [v] else get_all h m;
  get_remove : ∀ h n m, get_all (remove_header h n) m = if decide (m = n) then [] else get_all h m;
}.

(** [http::Uri] and its builder from a path and query. *)
Class UriLib := {
  Uri : Type;
  uri_host : Uri → option str;
  uri_path : Uri → str;
  uri_query : Uri → option str;
  uri_of : str → option Uri;
}.

Definition question : ascii := "?".
Definition hash : ascii := "#".

Definition with_query (path : str) (query : option str) : str :=
  match query with Some q => path ++ question :: q | None => path end.

(** A path without query and fragment marks, and a query without a fragment mark, are
    what the parsed URI has; a URI has no fragment mark in its query. *)
Class UriLaws `{UriLib} := {
  uri_of_parts : ∀ path query u, question ∉ path → hash ∉ path → (∀ q, query = Some q → hash ∉ q) →
    uri_of (with_query path query) = Some u → uri_path u = path ∧ uri_query u = query;
  uri_query_plain : ∀ u q, uri_query u = Some q → hash ∉ q;
}.

(** ** Display of addresses *)

(** Lower-case hexadecimal without leading zeros, as [{:x}] prints a [u16]. *)
Definition hex_digit (d : Z) : ascii := if (d <? 10)%Z then digit d else ascii_of_nat (Z.to_nat (87 + d)).
Fixpoint hex_fuel (fuel : nat) (n : Z) : str :=
  match fuel with
  | 0%nat => []
  | S fuel' => if (n <? 16)%Z then [hex_digit n] else hex_fuel fuel' (n / 16) ++ [hex_digit (n mod 16)]
  end.
Definition hex (n : Z) : str := hex_fuel 4 n.

Definition show_v4 (a : Z) : str := join_with (lit ".") (decimal <$> be_bytes 4 a).

Definition segments_of (a : Z) : list Z :=
  (λ k, Z.land (Z.shiftr a (16 * (7 - k))) 65535) <$> [0; 1; 2; 3; 4; 5; 6; 7]%Z.

(** The length of the zeros a list begins with. *)
Fixpoint zeros (l : list Z) : nat := match l with 0%Z :: l' => S (zeros l') | _ => 0 end.

(** Start and length of the first longest run of zeros. *)
Fixpoint longest_zeros (start : nat) (l : list Z) (best : nat * nat) : nat * nat :=
  match l with
  | [] => best
  | _ :: l' => longest_zeros (S start) l' (if Nat.ltb best.2 (zeros l) then (start, zeros l) else best)
  end.

Definition show_segments (l : list Z) : str := join_with (lit ":") (hex <$> l).

(** [Ipv6Addr]'s [Display]: a mapped address ends in its IPv4 form; else a run of two or
    more zeros is compressed. *)
Definition show_v6 (a : Z) : str :=
  let segs := segments_of a in
  if bool_decide (take 6 segs = [0; 0; 0; 0; 0; 65535]%Z) then lit "::ffff:" ++ show_v4 (Z.land a (2 ^ 32 - 1))
  else
    let '(start, len) := longest_zeros 0 segs (0, 0) in
    if Nat.ltb 1 len then show_segments (take start segs) ++ lit "::" ++ show_segments (drop (start + len) segs)
    else show_segments segs.

Section requests.
Context `{RegexLib, HttpLib, HeaderLib, UriLib}.

Record RequestHeader := mkReq { rh_uri : Uri; rh_headers : Headers }.

Definition on_headers (f : Headers → Headers) (r : RequestHeader) : RequestHeader := mkReq (rh_uri r) (f (rh_headers r)).

(** ** filters/header.rs *)

Definition h_forwarded : str := lit "forwarded".
Definition h_client_cert : str := lit "x-ssl-client-cert".

Definition PROXY_OWNED_HEADERS : list str :=
  [h_forwarded; lit "x-forwarded-for"; lit "x-forwarded-proto"; lit "x-real-ip"; h_client_cert].

Definition is_proxy_owned_header (name : str) : bool := existsb (λ h, bool_decide (h = name)) PROXY_OWNED_HEADERS.

Definition apply_header_mod (skip : str → bool) (m : HeaderMod) (h : Headers) : Headers :=
  let h := foldl (λ h nv, if negb (skip nv.1) then insert_header h nv.1 nv.2 else h) h (hm_set m) in
  let h := foldl (λ h nv, if negb (skip nv.1) then append_header h nv.1 nv.2 else h) h (hm_add m) in
  foldl remove_header h (hm_remove m).

(** ** filters/rewrite.rs *)

Definition rewrite_path (modifier : PathModifier) (original_path : str) (r : RequestHeader) : RequestHeader :=
  match uri_of (with_query (modifier_apply modifier original_path) (uri_query (rh_uri r))) with
  | Some u => mkReq u (rh_headers r)
  | None => r
  end.

(** ** filters/mod.rs *)

(** The fields of [ProxyCtx] the filters read. *)
Record FilterCtx := mkFilterCtx {
  fx_filters : list FilterAction;
  fx_original_path : str;
  fx_real_client_addr : option SocketAddr;
  fx_real_client_proto : option str;
  fx_selected_backend_filters : option (list FilterAction);
  fx_strip_upstream_headers : option (list str);
  fx_auth_response_headers : option (list (str * str));
  fx_client_cert_header : option str;
}.

Definition strip_proxy_owned_headers (h : Headers) : Headers := foldl remove_header h PROXY_OWNED_HEADERS.

Definition rewrite_host (hostname : option str) (r : RequestHeader) : RequestHeader :=
  match hostname with
  | Some h =>
      match header_value_from_str h with
      | Some v => on_headers (λ hs, insert_header hs (lit "host") v) r
      | None => r
      end
  | None => r
  end.

(** The loop of [apply_request_filters]. *)
Definition request_filter_one (original_path : str) (r : RequestHeader) (f : FilterAction) : RequestHeader :=
  match f with
  | RequestHeaderModifier m => on_headers (apply_header_mod is_proxy_owned_header m) r
  | UrlRewrite hostname path =>
      let r := rewrite_host hostname r in
      match path with Some pm => rewrite_path pm original_path r | None => r end
  | RequestRedirect _ _ _ _ _ | ResponseHeaderModifier _ | Mirror _ _ | Cors _ => r
  end.

Definition quote : str := ["034"%char].

Definition forwarded_value (addr : SocketAddr) (proto : str) : str :=
  let host := match sa_ip addr with V4 a => show_v4 a | V6 a => lit "[" ++ show_v6 a ++ lit "]" end in
  lit "for=" ++ quote ++ host ++ lit ":" ++ decimal (sa_port addr) ++ quote ++ lit ";proto=" ++ proto.

Context (X_PROXY_ENGINE : str).

(** Its error is a value that is not a header value. *)
Definition apply_request_filters (filters : list FilterAction) (x : FilterCtx) (r : RequestHeader) :
    result RequestHeader unit :=
  let r := foldl (request_filter_one (fx_original_path x)) r filters in
  let r := on_headers (λ h, insert_header h (lit "x-proxy-engine") X_PROXY_ENGINE) r in
  match fx_real_client_addr x with
  | None => Ok r
  | Some addr =>
      match header_value_from_str (forwarded_value addr (default (lit "http") (fx_real_client_proto x))) with
      | Some v => Ok (on_headers (λ h, insert_header h h_forwarded v) r)
      | None => Err ()
      end
  end.

Definition set_if {A : Type} (o : option A) (f : Headers → A → Headers) (h : Headers) : Headers :=
  match o with Some a => f h a | None => h end.

Definition response_filter_one (cors_origin : option str) (h : Headers) (f : FilterAction) : Headers :=
  match f with
  | ResponseHeaderModifier m => apply_header_mod (λ _, false) m h
  | Cors cfg =>
      match (o ← cors_origin; resolve_origin cfg o) with
      | None => h
      | Some allow_origin =>
          let h := insert_header h (lit "access-control-allow-origin") allow_origin in
          let h := if cors_allow_credentials cfg then insert_header h (lit "access-control-allow-credentials") (lit "true")
                   else h in
          set_if (cors_expose_headers cfg) (λ h v, insert_header h (lit "access-control-expose-headers") v) h
      end
  | RequestHeaderModifier _ | RequestRedirect _ _ _ _ _ | UrlRewrite _ _ | Mirror _ _ => h
  end.

Definition apply_response_filters (filters : list FilterAction) (cors_origin : option str) (h : Headers) : Headers :=
  foldl (response_filter_one cors_origin) h filters.

(** ** policy/client_cert.rs *)

Definition forward_client_cert (x : FilterCtx) (h : Headers) : Headers :=
  set_if (fx_client_cert_header x) (λ h v, insert_header h h_client_cert v) h.

(** ** hooks.rs *)

(** The path routing has normalised, on a request that still has the raw one. *)
Definition normalize_upstream (x : FilterCtx) (r : RequestHeader) : RequestHeader :=
  if negb (bool_decide (fx_original_path x = [])) && negb (bool_decide (uri_path (rh_uri r) = fx_original_path x)) then
    match uri_of (with_query (fx_original_path x) (uri_query (rh_uri r))) with
    | Some u => mkReq u (rh_headers r)
    | None => r
    end
  else r.

Definition strip_one (h : Headers) (name : str) : Headers :=
  match header_name_from_bytes name with Some n => remove_header h n | None => h end.

Definition inject_one (h : Headers) (nv : str * str) : Headers :=
  match header_name_from_bytes nv.1, header_value_from_str nv.2 with
  | Some n, Some v => insert_header h n v
  | _, _ => h
  end.

Definition upstream_request_filter (x : FilterCtx) (r : RequestHeader) : result RequestHeader unit :=
  let r := on_headers strip_proxy_owned_headers r in
  let r := normalize_upstream x r in
  r <-? apply_request_filters (fx_filters x) x r ;;
  r <-? match fx_selected_backend_filters x with
        | Some per_backend => apply_request_filters per_backend x r
        | None => Ok r
        end ;;
  let h := foldl strip_one (rh_headers r) (default [] (fx_strip_upstream_headers x)) in
  let h := foldl inject_one h (default [] (fx_auth_response_headers x)) in
  Ok (mkReq (rh_uri r) (forward_client_cert x h)).

(** ** filters/redirect.rs *)

(** The first value of [headers.get] as text. *)
Definition header_text (h : Headers) (name : str) : option str := v ← head (get_all h name); header_value_to_str v.

Definition extract_host (r : RequestHeader) : str :=
  match uri_host (rh_uri r) with
  | Some h => h
  | None => default [] (head (split_char ":"%char (default [] (header_text (rh_headers r) (lit "host")))))
  end.

Record RedirectOrigin := mkOrigin {
  ro_scheme : str;
  ro_host : str;
  ro_port : Z;
  ro_path : str;
  ro_query : option str;
}.

Definition build_redirect_location (filter_scheme filter_hostname : option str) (filter_port : option Z)
    (path_modifier : option PathModifier) (origin : RedirectOrigin) : str :=
  let eff_scheme := default (ro_scheme origin) filter_scheme in
  let eff_host := default (ro_host origin) filter_hostname in
  let eff_port :=
    match filter_port with
    | Some p => p
    | None =>
        match filter_scheme with
        | Some _ => if bool_decide (eff_scheme = (lit "https")) then 443 else 80
        | None => ro_port origin
        end
    end%Z in
  let new_path := match path_modifier with None => ro_path origin | Some pm => modifier_apply pm (ro_path origin) end in
  let path_and_query := with_query new_path (ro_query origin) in
  let omit_port := (bool_decide (eff_scheme = (lit "http")) && (eff_port =? 80)%Z)
                   || (bool_decide (eff_scheme = (lit "https")) && (eff_port =? 443)%Z) in
  if omit_port then eff_scheme ++ lit "://" ++ eff_host ++ path_and_query
  else eff_scheme ++ lit "://" ++ eff_host ++ lit ":" ++ decimal eff_port ++ path_and_query.

(** [try_redirect]: the status and [Location] of the answer. *)
Fixpoint try_redirect (filters : list FilterAction) (origin : RedirectOrigin) : option (Z * str) :=
  match filters with
  | [] => None
  | RequestRedirect scheme hostname port status_code path :: _ =>
      Some (status_code, build_redirect_location scheme hostname port path origin)
  | _ :: filters' => try_redirect filters' origin
  end.

(** ** filters/cors.rs *)

(** The headers of the 204, in order. *)
Definition preflight_headers (cfg : CorsConfig) (allow_origin req_method : str) (req_headers : option str) :
    list (str * str) :=
  [(lit "access-control-allow-origin", allow_origin)]
  ++ (if cors_allow_credentials cfg then [(lit "access-control-allow-credentials", lit "true")] else [])
  ++ match cors_allow_methods cfg with
     | Some methods => [(lit "access-control-allow-methods", if bool_decide (methods = (lit "*")) then req_method else methods)]
     | None => []
     end
  ++ match cors_allow_headers cfg with
     | Some headers =>
         if bool_decide (headers = (lit "*"))
         then match req_headers with Some h => [(lit "access-control-allow-headers", h)] | None => [] end
         else [(lit "access-control-allow-headers", headers)]
     | None => []
     end
  ++ match cors_expose_headers cfg with
     | Some expose => [(lit "access-control-expose-headers", expose)]
     | None => []
     end
  ++ [(lit "access-control-max-age", cors_max_age cfg)].

Fixpoint first_cors (filters : list FilterAction) : option CorsConfig :=
  match filters with
  | [] => None
  | Cors cfg :: _ => Some cfg
  | _ :: filters' => first_cors filters'
  end.

(** [try_cors_preflight]: the headers of the answer, if the request is answered. *)
Definition try_cors_preflight (filters : list FilterAction) (cors_origin : option str) (is_options : bool)
    (h : Headers) : option (list (str * str)) :=
  origin ← cors_origin;
  if negb is_options then None
  else
    req_method ← head (get_all h (lit "access-control-request-method"));
    let req_headers := head (get_all h (lit "access-control-request-headers")) in
    cfg ← first_cors filters;
    Some match resolve_origin cfg origin with
         | Some allow_origin => preflight_headers cfg allow_origin req_method req_headers
         | None => []
         end.

End requests.
