(* ===== verification/RequestFiltersFacts.v ===== *)
(** * Properties of the request and response filters

    Whose values the trust headers of an upstream request carry, where its path and
    query come from, which origins are answered, and what becomes of a bracketed host. *)

From S2P Require Import Prelude Net Backend External Config Filters ResourceKey RequestFilters.

Section facts.
Context `{RegexLib, HttpLib, HeaderLaws, UriLaws} (X_PROXY_ENGINE : str).
Implicit Types (h : Headers) (r : RequestHeader) (x : FilterCtx).

(** ** Header names *)

Lemma owned_elem n : is_proxy_owned_header n = true ↔ n ∈ PROXY_OWNED_HEADERS.
Proof.
  unfold is_proxy_owned_header. rewrite existsb_exists. setoid_rewrite <-list_elem_of_In. split.
  - intros (m & Hm & ->%bool_decide_eq_true). done.
  - intros Hn. exists n. split; [done|]. by apply bool_decide_eq_true.
Qed.

Lemma get_insert_other h n v m : m ≠ n → get_all (insert_header h n v) m = get_all h m.
Proof. intros Hne. by rewrite get_insert, decide_False. Qed.

Lemma get_insert_same h n v : get_all (insert_header h n v) n = [v].
Proof. by rewrite get_insert, decide_True. Qed.

Lemma removals_absent names h n :
  (n ∈ names ∨ get_all h n = []) → get_all (foldl remove_header h names) n = [].
Proof.
  revert h. induction names as [|m names IH]; intros h Hn; simpl; [by destruct Hn as [?%elem_of_nil|]|].
  apply IH. rewrite get_remove. destruct (decide (n = m)) as [->|Hne]; [by right|].
  destruct Hn as [[?|?]%elem_of_cons|?]; [done|by left|by right].
Qed.

(** ** Owned headers through the filters *)

Lemma mod_absent m h n :
  is_proxy_owned_header n = true → get_all h n = [] → get_all (apply_header_mod is_proxy_owned_header m h) n = [].
Proof.
  intros Hown Hn. unfold apply_header_mod. apply removals_absent. right.
  assert (∀ (f : Headers → str → str → Headers) l h, (∀ h m v, m ≠ n → get_all (f h m v) n = get_all h n) →
    get_all h n = [] →
    get_all (foldl (λ h nv, if negb (is_proxy_owned_header nv.1) then f h nv.1 nv.2 else h) h l) n = []) as Hfold.
  { intros f l. induction l as [|[m' v] l IH]; intros h0 Hf Hh; [done|]. simpl. apply IH; [done|].
    destruct (is_proxy_owned_header m') eqn:E; [done|]. simpl. rewrite Hf; [done|]. intros ->. congruence. }
  apply (Hfold append_header); [intros ? ? ? Hne; by rewrite get_append, decide_False|].
  apply (Hfold insert_header); [intros; by apply get_insert_other|done].
Qed.

Lemma owned_not_host n : is_proxy_owned_header n = true → n ≠ lit "host" ∧ n ≠ lit "x-proxy-engine".
Proof. intros Hn. by split; intros ->. Qed.

Lemma rewrite_headers pm path r : rh_headers (rewrite_path pm path r) = rh_headers r.
Proof. unfold rewrite_path. by destruct (uri_of _). Qed.

Lemma filter_one_absent path r f n :
  is_proxy_owned_header n = true → get_all (rh_headers r) n = [] →
  get_all (rh_headers (request_filter_one path r f)) n = [].
Proof.
  intros Hown Hn. destruct f as [m| | |hostname pm| |]; simpl; try done; [by apply mod_absent|].
  assert (get_all (rh_headers (rewrite_host hostname r)) n = []) as Hhost.
  { unfold rewrite_host. destruct hostname as [h|]; [|done]. destruct (header_value_from_str h); [|done].
    cbn [on_headers rh_headers]. rewrite get_insert_other; [done|]. by apply owned_not_host. }
  destruct pm as [pm|]; [by rewrite rewrite_headers|done].
Qed.

Lemma filters_absent path fs r n :
  is_proxy_owned_header n = true → get_all (rh_headers r) n = [] →
  get_all (rh_headers (foldl (request_filter_one path) r fs)) n = [].
Proof.
  intros Hown. revert r. induction fs as [|f fs IH]; intros r Hn; [done|]. simpl. apply IH. by apply filter_one_absent.
Qed.

(** What the proxy itself says of the client. *)
Definition generated (x : FilterCtx) (n : str) : list str :=
  match fx_real_client_addr x with
  | Some addr =>
      if decide (n = h_forwarded) then
        option_list (header_value_from_str (forwarded_value addr (default (lit "http") (fx_real_client_proto x))))
      else []
  | None => []
  end.

Lemma apply_filters_owned fs x r r' n :
  is_proxy_owned_header n = true → get_all (rh_headers r) n = [] ∨ get_all (rh_headers r) n = generated x n →
  apply_request_filters X_PROXY_ENGINE fs x r = Ok r' → get_all (rh_headers r') n = generated x n.
Proof.
  intros Hown Hn. unfold apply_request_filters, generated in *. destruct (owned_not_host n Hown) as [_ Hpe].
  destruct (fx_real_client_addr x) as [addr|].
  - destruct (header_value_from_str _) as [v|]; [|done]. intros [= <-]. simpl.
    destruct (decide (n = h_forwarded)) as [->|Hne]; [by rewrite get_insert_same|].
    rewrite !get_insert_other by done. apply filters_absent; [done|]. by destruct Hn.
  - intros [= <-]. simpl. rewrite get_insert_other by done. apply filters_absent; [done|]. by destruct Hn.
Qed.

(** ** What the authentication chain decides *)

(** Names of the strip list, and the last value injected for a name. *)
Definition stripped (x : FilterCtx) (n : str) : Prop :=
  ∃ m, m ∈ default [] (fx_strip_upstream_headers x) ∧ header_name_from_bytes m = Some n.

Definition injected (l : list (str * str)) (n : str) : option str :=
  last (omap (λ nv, match header_name_from_bytes nv.1, header_value_from_str nv.2 with
                    | Some m, Some v => if decide (m = n) then Some v else None
                    | _, _ => None
                    end) l).

Lemma strip_all names h n :
  get_all (foldl strip_one h names) n =
    if decide (Exists (λ m, header_name_from_bytes m = Some n) names) then [] else get_all h n.
Proof.
  revert h. induction names as [|m names IH]; intros h; cbn [foldl]; [done|].
  rewrite IH. unfold strip_one. case_decide as He; case_decide as Hc; try done.
  - destruct Hc. by right.
  - apply Exists_cons in Hc as [Hc|?]; [|done]. by rewrite Hc, get_remove, decide_True.
  - destruct (header_name_from_bytes m) as [m'|] eqn:Em; [|done]. rewrite get_remove, decide_False; [done|].
    intros ->. apply Hc. by left.
Qed.

Lemma inject_all l h n :
  get_all (foldl inject_one h l) n = match injected l n with Some v => [v] | None => get_all h n end.
Proof.
  revert h. induction l as [|[m v] l IH] using rev_ind; intros h; [done|].
  rewrite foldl_app. unfold injected in *. rewrite omap_app. simpl. unfold inject_one at 1. simpl.
  destruct (header_name_from_bytes m) as [m'|]; [|by rewrite app_nil_r].
  destruct (header_value_from_str v) as [v'|]; [|by rewrite app_nil_r].
  destruct (decide (m' = n)) as [->|Hne]; [by rewrite get_insert_same, last_snoc|].
  rewrite app_nil_r, get_insert_other by done. apply IH.
Qed.

(** What an upstream request carries under a name that is the proxy's or that the
    authentication chain strips. *)
Definition trusted_values (x : FilterCtx) (n : str) : list str :=
  match fx_client_cert_header x, decide (n = h_client_cert) with
  | Some cert, left _ => [cert]
  | _, _ =>
      match injected (default [] (fx_auth_response_headers x)) n with
      | Some v => [v]
      | None =>
          if decide (Exists (λ m, header_name_from_bytes m = Some n) (default [] (fx_strip_upstream_headers x)))
          then [] else generated x n
      end
  end.

Lemma cert_all x h n :
  get_all (forward_client_cert x h) n =
    match fx_client_cert_header x, decide (n = h_client_cert) with
    | Some cert, left _ => [cert]
    | _, _ => get_all h n
    end.
Proof.
  unfold forward_client_cert, set_if. destruct (fx_client_cert_header x) as [cert|]; [|done].
  rewrite get_insert. by destruct (decide (n = h_client_cert)).
Qed.

Lemma filtered_owned x r r' n :
  is_proxy_owned_header n = true →
  match fx_selected_backend_filters x with
  | Some per_backend =>
      ∃ r1, apply_request_filters X_PROXY_ENGINE (fx_filters x) x r = Ok r1 ∧
        apply_request_filters X_PROXY_ENGINE per_backend x r1 = Ok r'
  | None => apply_request_filters X_PROXY_ENGINE (fx_filters x) x r = Ok r'
  end →
  get_all (rh_headers r) n = [] → get_all (rh_headers r') n = generated x n.
Proof.
  intros Hown Hf Hn. destruct (fx_selected_backend_filters x) as [fs|]; [|eapply apply_filters_owned; [done| |done]; by left].
  destruct Hf as (r1 & E1 & E2). eapply apply_filters_owned; [done| |exact E2]. right.
  eapply apply_filters_owned; [done| |exact E1]. by left.
Qed.


(** ** Path and query *)

Definition plain_path (p : str) : Prop := question ∉ p ∧ hash ∉ p.

(** The paths the rewrites of a list of filters ask for and a URI can have. *)
Definition rewritten (path : str) (query : option str) (fs : list FilterAction) : list str :=
  omap (λ f, match f with
             | UrlRewrite _ (Some pm) =>
                 let p := modifier_apply pm path in
                 match uri_of (with_query p query) with Some _ => Some p | None => None end
             | _ => None
             end) fs.

(** Rewrites do not smuggle a query or a fragment. *)
Definition rewrites_plain (path : str) (fs : list FilterAction) : Prop :=
  ∀ hostname pm, UrlRewrite hostname (Some pm) ∈ fs → plain_path (modifier_apply pm path).

Lemma with_query_parts u (v : Uri) p :
  plain_path p → uri_of (with_query p (uri_query u)) = Some v → uri_path v = p ∧ uri_query v = uri_query u.
Proof. intros [Hq Hh] Hv. eapply uri_of_parts; [done..| |exact Hv]. intros q. apply uri_query_plain. Qed.

Lemma filters_uri path fs r :
  rewrites_plain path fs →
  let r' := foldl (request_filter_one path) r fs in
  uri_query (rh_uri r') = uri_query (rh_uri r) ∧
  uri_path (rh_uri r') = default (uri_path (rh_uri r)) (last (rewritten path (uri_query (rh_uri r)) fs)).
Proof.
  revert r. induction fs as [|f fs IH] using rev_ind; intros r Hp; [done|]. cbv zeta.
  rewrite foldl_app. cbn [foldl]. unfold rewritten. rewrite omap_app.
  destruct (IH r) as [Hq Hpa]; [intros ? ? ?; eapply Hp, elem_of_app; eauto|]. clear IH.
  set (r1 := foldl (request_filter_one path) r fs) in *. fold (rewritten path (uri_query (rh_uri r)) fs).
  destruct f as [m| | |hostname [pm|]| |]; simpl; rewrite ?app_nil_r; try done.
  - assert (rh_uri (rewrite_host hostname r1) = rh_uri r1) as Hu by (unfold rewrite_host; by repeat case_match).
    unfold rewrite_path. rewrite Hu, Hq.
    destruct (uri_of (with_query (modifier_apply pm path) (uri_query (rh_uri r)))) as [u|] eqn:E; simpl.
    + rewrite last_snoc. simpl. destruct (with_query_parts (rh_uri r) u (modifier_apply pm path)) as [-> ->]; [|done..].
      eapply Hp, elem_of_app. right. by apply list_elem_of_singleton.
    + by rewrite app_nil_r, Hu.
  - unfold rewrite_host. by repeat case_match.
Qed.

Lemma apply_filters_uri fs x r r' :
  rewrites_plain (fx_original_path x) fs → apply_request_filters X_PROXY_ENGINE fs x r = Ok r' →
  uri_query (rh_uri r') = uri_query (rh_uri r) ∧
  uri_path (rh_uri r') =
    default (uri_path (rh_uri r)) (last (rewritten (fx_original_path x) (uri_query (rh_uri r)) fs)).
Proof.
  intros Hp Ha. pose proof (filters_uri (fx_original_path x) fs r Hp) as Hf. unfold apply_request_filters in Ha.
  destruct (fx_real_client_addr x) as [addr|]; [|by simplify_eq].
  destruct (header_value_from_str _); by simplify_eq.
Qed.

(** The path before any rewrite. *)
Definition base_path (x : FilterCtx) (r : RequestHeader) : str :=
  if decide (fx_original_path x = []) then uri_path (rh_uri r)
  else match uri_of (with_query (fx_original_path x) (uri_query (rh_uri r))) with
       | Some _ => fx_original_path x
       | None => uri_path (rh_uri r)
       end.

Lemma normalize_uri x r :
  plain_path (fx_original_path x) →
  uri_query (rh_uri (normalize_upstream x r)) = uri_query (rh_uri r) ∧
  uri_path (rh_uri (normalize_upstream x r)) = base_path x r.
Proof.
  intros Hp. unfold normalize_upstream, base_path.
  destruct (decide (fx_original_path x = [])) as [E|E]; [by rewrite bool_decide_true|].
  rewrite (bool_decide_false _ E). simpl.
  destruct (bool_decide_reflect (uri_path (rh_uri r) = fx_original_path x)) as [Eq|]; simpl.
  - split; [done|]. by destruct (uri_of _).
  - destruct (uri_of _) as [u|] eqn:Eu; [|done]. simpl. by apply and_comm, with_query_parts.
Qed.

(** The upstream sees the query the client sent, and the path of the last rewrite
    among the route's filters and then the backend's, each applied to the normalised
    request path and not to the outcome of an earlier one; without a rewrite it sees the
    normalised path.  A rewrite no URI can be built for is passed over. *)
Theorem upstream_path_and_query (x : FilterCtx) (r r' : RequestHeader) :
  let fs := fx_filters x ++ default [] (fx_selected_backend_filters x) in
  plain_path (fx_original_path x) → rewrites_plain (fx_original_path x) fs →
  upstream_request_filter X_PROXY_ENGINE x r = Ok r' →
  uri_query (rh_uri r') = uri_query (rh_uri r) ∧
  uri_path (rh_uri r') = default (base_path x r) (last (rewritten (fx_original_path x) (uri_query (rh_uri r)) fs)).
Proof.
  intros fs Hpl Hre Hu. unfold upstream_request_filter in Hu.
  set (r0 := normalize_upstream x (on_headers strip_proxy_owned_headers r)) in *.
  destruct (normalize_uri x (on_headers strip_proxy_owned_headers r) Hpl) as [Hq0 Hp0].
  change (normalize_upstream x (on_headers strip_proxy_owned_headers r)) with r0 in Hq0, Hp0.
  change (base_path x (on_headers strip_proxy_owned_headers r)) with (base_path x r) in Hp0. simpl in Hq0.
  destruct (apply_request_filters X_PROXY_ENGINE (fx_filters x) x r0) as [r1|] eqn:E1; [|done].
  apply apply_filters_uri in E1 as [Hq1 Hp1]; [|intros ? ? ?; eapply Hre, elem_of_app; eauto].
  destruct (match fx_selected_backend_filters x with Some fs => _ | None => _ end) as [r2|] eqn:E2; [|done].
  injection Hu as <-. simpl. rewrite Hq0 in *. subst fs.
  destruct (fx_selected_backend_filters x) as [bs|]; simpl in *.
  - apply apply_filters_uri in E2 as [Hq2 Hp2]; [|intros ? ? ?; eapply Hre, elem_of_app; eauto].
    split; [congruence|]. rewrite Hp2, Hq1, Hp1, Hp0. unfold rewritten. rewrite omap_app.
    rewrite last_app. by destruct (last (omap _ bs)).
  - injection E2 as <-. rewrite app_nil_r. split; congruence.
Qed.

(** ** CORS *)

Definition origin_allowed (cfg : CorsConfig) (origin : str) : Prop :=
  cors_allow_all_origins cfg = true ∨ ∃ o, o ∈ cors_allow_origins cfg ∧ cors_matches o origin = true.

Lemma resolve_origin_Some cfg origin v :
  resolve_origin cfg origin = Some v ↔ origin_allowed cfg origin ∧ header_value_from_str origin = Some v.
Proof.
  unfold resolve_origin, origin_allowed. destruct (cors_allow_all_origins cfg); simpl; [naive_solver|].
  destruct (existsb _ _) eqn:E.
  - apply existsb_exists in E as (o & Ho%list_elem_of_In & Hm). naive_solver.
  - split; [done|]. intros [[?|(o & Ho & Hm)] _]; [done|].
    assert (existsb (λ o, cors_matches o origin) (cors_allow_origins cfg) = true); [|congruence].
    apply existsb_exists. exists o. by rewrite <-list_elem_of_In.
Qed.

Lemma preflight_headers_origin cfg allow_origin m hd v :
  (lit "access-control-allow-origin", v) ∈ preflight_headers cfg allow_origin m hd ↔ v = allow_origin.
Proof.
  unfold preflight_headers. match goal with |- _ ∈ _ ++ ?l ↔ _ => set (rest := l) end.
  split; [|intros ->; apply elem_of_app; left; by left].
  assert (Forall (λ nv, nv.1 ≠ lit "access-control-allow-origin") rest) as Hrest.
  { subst rest. rewrite !Forall_app. split_and!; repeat case_match; first [apply Forall_nil_2 | apply Forall_singleton; discriminate]. }
  rewrite Forall_forall in Hrest. intros [Hx%list_elem_of_singleton|Hx%Hrest]%elem_of_app; [by simplify_eq|done].
Qed.

(** A preflight that is answered names an origin exactly if the filter allows it, and
    then that of the request. *)
Lemma preflight_origin fs origin is_options h hs cfg v :
  try_cors_preflight fs (Some origin) is_options h = Some hs → first_cors fs = Some cfg →
  (lit "access-control-allow-origin", v) ∈ hs ↔ origin_allowed cfg origin ∧ header_value_from_str origin = Some v.
Proof.
  unfold try_cors_preflight. cbn [mbind option_bind]. destruct is_options; [|done]. cbn [negb].
  intros (m & _ & (cfg' & Hcfg & [= <-])%bind_Some)%bind_Some Hf. rewrite Hf in Hcfg. injection Hcfg as <-.
  rewrite <-resolve_origin_Some. destruct (resolve_origin cfg origin) as [w|].
  - rewrite preflight_headers_origin. naive_solver.
  - rewrite elem_of_nil. naive_solver.
Qed.

(** ** Hosts *)

Lemma split_first c (a b : str) : c ∉ a → head (split_char c (a ++ c :: b)) = Some a.
Proof.
  induction a as [|d a IH]; simpl; intros Hn.
  - by rewrite Ascii.eqb_refl.
  - destruct (d =c c) eqn:E; [apply Ascii.eqb_eq in E as ->; set_solver|].
    apply not_elem_of_cons in Hn as [_ Hn]. specialize (IH Hn).
    destruct (split_char c (a ++ c :: b)) as [|w ws]; simplify_eq/=. done.
Qed.

(** A host header with an IPv6 literal is cut at its first colon: the request is
    routed, and a redirect that keeps the host is sent, to a bracket and what the literal
    has before that colon. *)
Theorem bracketed_host_cut (r : RequestHeader) (head_part rest : str) (path : str) :
  uri_host (rh_uri r) = None → ":"%char ∉ head_part →
  header_text (rh_headers r) (lit "host") = Some (lit "[" ++ head_part ++ lit ":" ++ rest) →
  extract_host r = lit "[" ++ head_part ∧
  try_redirect [RequestRedirect (Some (lit "https")) None None 301 None]
    (mkOrigin (lit "http") (extract_host r) 80 path None) =
    Some (301%Z, lit "https://[" ++ head_part ++ path).
Proof.
  intros Hu Hn Hh. unfold extract_host. rewrite Hu, Hh. cbn [default id].
  change (lit "[" ++ head_part ++ lit ":" ++ rest) with ((lit "[" ++ head_part) ++ ":"%char :: rest).
  unfold id. rewrite split_first by (simpl; set_solver). split; done.
Qed.

End facts.

(** ** Witnesses *)

Module FilterDemo.

Export Sample.

(** Header fields in order. *)
#[export] Instance fields : HeaderLib :=
  {| Headers := list (str * str);
     get_all := λ h n, omap (λ nv, if decide (nv.1 = n) then Some nv.2 else None) h;
     insert_header := λ h n v, filter (λ nv, nv.1 ≠ n) h ++ [(n, v)];
     append_header := λ h n v, h ++ [(n, v)];
     remove_header := λ h n, filter (λ nv, nv.1 ≠ n) h |}.

Lemma fields_removed (h : list (str * str)) n m :
  omap (λ nv, if decide (nv.1 = m) then Some nv.2 else None) (filter (λ nv, nv.1 ≠ n) h) =
    if decide (m = n) then [] else omap (λ nv, if decide (nv.1 = m) then Some nv.2 else None) h.
Proof.
  induction h as [|[k v] h IH]; [by case_decide|]. rewrite filter_cons. cbn [fst]. destruct (decide (k ≠ n)) as [Hk|Hk].
  - cbn [omap list_omap fst snd]. rewrite IH. repeat case_decide; simplify_eq; done.
  - apply dec_stable in Hk as ->. rewrite IH. cbn [omap list_omap fst snd]. repeat case_decide; simplify_eq; done.
Qed.

#[export] Instance fields_laws : HeaderLaws.
Proof.
  split; simpl.
  - intros h n v m. rewrite omap_app, fields_removed. simpl. repeat case_decide; simplify_eq; rewrite ?app_nil_r; done.
  - intros h n v m. rewrite omap_app. simpl. repeat case_decide; simplify_eq; rewrite ?app_nil_r; done.
  - apply fields_removed.
Qed.

(** A URI is its path and query; none with a fragment is built. *)
Fixpoint cut (s : str) : str * option str :=
  match s with
  | [] => ([], None)
  | c :: s' => if c =c question then ([], Some s') else (c :: (cut s').1, (cut s').2)
  end.
Definition no_fragment (s : str) : bool := forallb (λ c, negb (c =c hash)) s.
#[export] Instance uris : UriLib :=
  {| Uri := { s : str | no_fragment s = true }; uri_host := λ _, None; uri_path := λ u, (cut (proj1_sig u)).1;
     uri_query := λ u, (cut (proj1_sig u)).2;
     uri_of := λ s, match bool_dec (no_fragment s) true with left E => Some (exist _ s E) | right _ => None end |}.

Lemma cut_with_query path query : question ∉ path → cut (with_query path query) = (path, query).
Proof.
  induction path as [|c path IH]; intros Hq.
  - by destruct query.
  - apply not_elem_of_cons in Hq as [Hc Hq]. specialize (IH Hq).
    destruct query as [q|]; simpl in *; (destruct (c =c question) eqn:E; [by apply Ascii.eqb_eq in E|]); by rewrite IH.
Qed.

Lemma cut_query s q : (cut s).2 = Some q → no_fragment s = true → hash ∉ q.
Proof.
  induction s as [|c s IH]; simpl; [done|]. intros Hq [Hc Hs]%andb_true_iff.
  destruct (c =c question); [|by apply IH]. simplify_eq/=. intros Hin%list_elem_of_In.
  unfold no_fragment in Hs. rewrite forallb_forall in Hs. specialize (Hs _ Hin). by rewrite Ascii.eqb_refl in Hs.
Qed.

#[export] Instance uris_laws : UriLaws.
Proof.
  split; simpl.
  - intros path query u Hq _ _. destruct (bool_dec _ _) as [E|]; [|done]. intros [= <-]. simpl.
    by rewrite cut_with_query.
  - intros [s Hs] q Hc. by eapply cut_query.
Qed.

(** A client that forges two headers, a route that sets one of them and rewrites. *)
Definition forged : RequestHeader :=
  mkReq (exist (λ s, no_fragment s = true) (lit "/api/v2?x=1") eq_refl)
    ([(lit "x-ssl-client-cert", lit "mallory"); (lit "x-real-ip", lit "10.0.0.1"); (lit "host", lit "[2001:db8::1]:8080")] :
      Headers).
Definition ctx : FilterCtx :=
  mkFilterCtx [RequestHeaderModifier (mkHeaderMod [] [(lit "x-real-ip", lit "1.1.1.1")] []);
               UrlRewrite None (Some (ReplacePrefixMatch (lit "/api") (lit "/v3")))]
    (lit "/api/v2") (Some (mkSocketAddr (V6 (2 ^ 125 + 1)) 9000)) (Some (lit "https"))
    (Some [UrlRewrite None (Some (ReplacePrefixMatch (lit "/api") (lit "/v4")))]) None None (Some (lit "verified")).
Definition sent : RequestHeader :=
  match upstream_request_filter (lit "Coxswain") ctx forged with Ok r => r | Err _ => forged end.

End FilterDemo.
Import FilterDemo.


Lemma upstream_path_and_query_witness :
  uri_query (rh_uri sent) = Some (lit "x=1") ∧ uri_path (rh_uri sent) = lit "/v4/v2".
Proof.
  destruct (upstream_path_and_query (lit "Coxswain") ctx forged sent) as [-> ->].
  - split; by apply (bool_decide_unpack _).
  - intros hostname pm Hin. apply elem_of_app in Hin as [Hin|Hin]; simpl in Hin.
    + apply elem_of_cons in Hin as [?|Hin]; [done|]. apply list_elem_of_singleton in Hin as [= -> ->].
      split; by apply (bool_decide_unpack _).
    + apply list_elem_of_singleton in Hin as [= -> ->]. split; by apply (bool_decide_unpack _).
  - by vm_compute.
  - by vm_compute.
Defined.

Lemma bracketed_host_cut_witness :
  extract_host forged = lit "[2001" ∧
  try_redirect [RequestRedirect (Some (lit "https")) None None 301 None]
    (mkOrigin (lit "http") (extract_host forged) 80 (lit "/") None) = Some (301%Z, lit "https://[" ++ lit "2001" ++ lit "/").
Proof.
  apply (bracketed_host_cut forged (lit "2001") (lit "db8::1]:8080") (lit "/")); [done| |by vm_compute].
  by apply (bool_decide_unpack _).
Defined.
